(* ===== verification/_CoqProject ===== *)
-Q . S2P
Prelude.v
BTree.v
Json.v
Text.v
Utf8.v
Crates.v
Concrete.v
Reference.v
Action.v
Merkle.v
Constraint.v
Rules.v
Contract.v
Manifest.v
Operations.v
Counters.v
Policy.v
Approval.v
Gate.v
Ledger.v
CanonicalJson.v
Decisions.v
ReleaseDiff.v
Ordering.v
Certification.v
Attestation.v
ToolsLock.v
Catalog.v
Proxy.v
Mediation.v
Lifecycle.v
Router.v
Vault.v
FormatPreserving.v
Pseudonym.v
Stream.v
StreamRoundTrip.v
Detector.v
Mask.v
Session.v
HttpProxy.v
Calendar.v
VerifyCrates.v
OfflineDecisions.v
Ustar.v
Rekor.v
GatePack.v
AuditPack.v
