(* ===== verification/Prelude.v ===== *)
(** * CloakPipe: a verified model of the action boundary and the PII proxy

    CloakPipe stands between an AI agent and the tools it calls.  A release
    manifest declares the tools and binds contracts and a Cedar policy; the
    tool gate decides each call; the operations store makes each side effect
    happen at most once; signed receipts carry human approvals; and a
    hash-chained ledger records every decision.  In front of a language model
    it also replaces personal data by pseudonyms kept in a vault, and puts the
    originals back into the answer.  This library models both paths, from the
    text of a rule to the entry in the ledger and from a chat request to the
    restored answer, and proves what each part promises to the next.  A release
    itself can be validated, compared with the one before, certified on
    evaluation runs, and the certification signed; that path is modelled too.

    ** The parts and where they are

    - [Prelude] (this file): results and loops that stop at the first error,
      the byte and text operations of Rust's standard library, hexadecimal.
      A [String] is its UTF-8 bytes.
    - [BTree]: [BTreeMap] as a strictly sorted list; [Json]: [serde_json]
      values, 64-bit integers and IEEE doubles.
    - [Crates]: third-party crates as type classes (hashes, Ed25519, JSON
      text and RFC 8785, regular expressions, dates), their documented laws
      as separate classes.  [Concrete]: small instances that satisfy the laws,
      used by the witnesses only.
    - [Reference], [Action], [Manifest] (crate [cloakpipe-release]:
      [reference.rs], [namespace.rs], [canonical.rs], [action.rs],
      [manifest.rs], [v1.rs]): names and versions of artifacts, release
      hashes, call fingerprints and operation ids, manifests.
    - [Constraint], [Contract], [Rules] ([contract.rs], [rules.rs]): the
      argument constraints with their validation and check, tool rules,
      durations, idempotency keys, and the [when] conditions of approvals.
    - [ReleaseDiff] ([validate.rs], [diff.rs] of the same crate): what makes a
      release certifiable, and what changed between two of them.
      [Ordering] ([Ord] and [sort_by]) and [Certification], [Attestation]
      (crate [cloakpipe-cert]: [model.rs], [policy.rs]; [statement.rs]): the
      decision on the evidence about a release, and its signed statement.
    - [Operations] ([cloakpipe-mcp/src/operations.rs]), [Counters] and
      [Policy] (crate [cloakpipe-policy]), [Approval] (crate
      [cloakpipe-receipt]): the parts the gate calls.
    - [Gate] ([cloakpipe-mcp/src/gate.rs], and the denial check of
      [broker.rs]): construction from both manifest formats, contracts,
      policy, approvals, operation keys, and [authorize], which composes them.
    - [ToolsLock] ([cloakpipe-mcp/src/tools_lock.rs]) and [Catalog]
      ([catalog.rs], [servers.rs]): the pins of tool definitions, and which
      server serves which tool.
    - [Proxy] ([cloakpipe-mcp/src/proxy.rs]): the interceptor
      over one upstream, one definition per handler, around [Gate],
      [Operations], [Catalog] and [Decisions]; [Mediation] and [Lifecycle]
      prove what it guarantees, message by message and over whole histories.
      [Router] (the same file) puts it in front of several servers.
    - [Merkle] ([cloakpipe-anchor/src/merkle.rs]): the tree and its proofs.
    - [Ledger] ([cloakpipe-ledger]: [record.rs], [canonical.rs], [chain.rs],
      [sign.rs]), [CanonicalJson] and [Decisions] ([decision.rs], [epoch.rs],
      [gate_key.rs], [store.rs]): the record chain, the decision chain and
      the epochs that seal it.
    - [Text] and [Utf8]: [str] by bytes and characters, search and replace,
      trimming, words, stable sorting, hash-map order, character boundaries.
    - [Vault] (crate [cloakpipe-core]: [lib.rs], [resolver.rs], [vault.rs]),
      [FormatPreserving] ([format_preserving.rs]), [Pseudonym]
      ([replacer.rs], [rehydrator.rs]), [Stream] and [StreamRoundTrip] (the
      chunked half of [rehydrator.rs], [cloakpipe-proxy/src/streaming.rs]),
      [Detector] ([detector/]: patterns, financial, custom), [Mask] (the PII
      transform of [cloakpipe-mcp/src/proxy.rs]), [Session] ([session.rs]) and
      [HttpProxy] ([cloakpipe-proxy/src/handlers.rs], [state.rs]), which
      composes them.
    - The other side, crate [cloakpipe-verify], which trusts nothing of the
      above: [Calendar] ([time.rs]), [OfflineDecisions] ([decisions.rs]),
      [Ustar] ([ustar.rs]), [Rekor] ([rekor.rs], over the parameters of
      [VerifyCrates]) and [GatePack] ([gate_pack.rs]), which composes them.
      [AuditPack] ([cloakpipe-ledger/src/audit_pack.rs]) exports a ledger of
      [Decisions] as the archive [GatePack] reads.

    Definitions keep the source's names; the state of a component is a
    record, a table a finite map or the list of its rows, a transaction one
    step.  A Rust [Result] is [result]; a panic is [None], and the theorems
    show where none happens.

    ** What the theorems show

    - The gate: [Gate.authorize_exactly] says which calls are allowed, in
      terms of the specifications of the parts, [first_refusal_wins] which
      error is answered, [unloaded_policy_fails_closed],
      [contracts_are_the_bound_ones], [forwarded_calls_are_counted] and
      [operation_agrees_with_authorize] the rest of its contract.
    - The interceptor: [Mediation.complete_mediation] (nothing is forwarded
      unauthorized, unrecorded or unadmitted), [sent_at_most_once] (over any
      history of messages, failures and other processes),
      [unrecorded_call_fails_closed], [refused_message_leaves_nothing];
      [Lifecycle.reply_settles_its_call], [only_replies_settle],
      [request_ids_never_mix], [listing_shows_pinned_tools],
      [drifted_tool_stays_refused], [exit_accounts_for_every_call],
      [start_accounts_for_the_past], [verdict_and_evidence_together].
      Answers are tied to the id of the request they answer, and what the
      operations database may refuse to write or read ([Proxy.StoreAnswers])
      is part of the model: a row it does not take stays in flight, and a
      verdict it does not take leaves its ledger entry behind.
    - Several servers: [Router.routed_call_mediated], [no_listing_is_stuck]
      (an invariant of the requests under way, over any history),
      [answers_count_once], [gone_server_fails_closed];
      [Catalog.start_serves_every_tool], [collisions_exactly];
      [ToolsLock.lock_round_trip], [lock_digest_binds], [lock_diff_exactly].
    - At most once: over every history of gates and operators on one store,
      [Operations.forwarded_at_most_once]; [done_is_final],
      [operations_follow_life_cycle] (a refinement of the declared life
      cycle), [recover_sweeps_in_flight], [reconcile_exactly].
    - Arguments: [Constraint.check_iff_conforms] equates the check with an
      inductive specification, [violation_path_is_contract_path] says what a
      refusal may reveal, [validate_well_formed] that loading establishes what
      checking relies on, [Contract.rule_check_closed];
      [Manifest.v1_manifest_rules_ok]: a loaded v1 manifest accepts exactly
      the calls its text describes ([Manifest.V1.arg_accepts]) and keeps its
      policy, effects, keys and approvals.
    - Languages: [Rules.condition_parse_grammar] (parser and grammar agree),
      [condition_fails_closed] (against an independent reading of the
      expression), [parse_duration_grammar] (with 64-bit
      overflow), [key_template_round_trip], [Reference.reference_parse_iff].
    - Policy and counters: [Policy.cedar_answer_decides],
      [Counters.snapshot_counts_windows], [record_forget_exact].
    - Releases: [ReleaseDiff.validate_exactly], [diff_exactly] (a change of a
      component is reported, and the assurance it needs required, exactly when
      the component differs, between releases without null parameters and
      with distinct dependency names), [certifiable_gate];
      [Certification.decide_exactly] and [decide_ignores_order],
      [nearest_rank_spec]; [Attestation.verify_exactly] and
      [issued_then_verified], its composition with signing.
    - Receipts and hashes: [Approval.verify_approval_exactly],
      [sign_then_verify], [Action.fingerprint_binds_call],
      [operation_id_binds_call], [Manifest.manifest_hash_identity].
      Binding theorems end in "or a collision": two different texts with one
      digest among a list computed from the inputs ([collision_among]), the
      very texts the code hashed for them.
    - Evidence: [Decisions.append_decision_chains], [seal_epoch_covers],
      [decisions_bind_history], [entry_hash_covers_every_member];
      [Ledger.verify_chain_exactly], [chain_binds_history],
      [metadata_reads_one_way], and [detections_read_two_ways], which shows
      where the canonical bytes are ambiguous; [Merkle.inclusion_complete],
      [inclusion_sound], [root_binds_leaves].

    - The auditor: [OfflineDecisions.verify_decisions_exactly],
      [Rekor.accepted_entry_is_logged] and [GatePack.verify_pack_exactly] say
      what each acceptance means, [Rekor.inclusion_exactly] equates the loop
      over index bits with the recursive tree of RFC 6962,
      [Ustar.write_then_read], [read_names_safe] and
      [Calendar.rfc3339_round_trip] are what the formats promise.
      [OfflineDecisions.gate_ledger_verifies] and
      [AuditPack.exported_pack_verifies] tie producer and auditor: what a
      gate wrote and exported verifies and holds exactly what was asked for,
      for every ledger it can reach ([AuditPack.gate_keeps_ledger]).  [AuditPack.unsigned_pack_accepted] is
      the archive whose manifest goes unchecked.

    - Pseudonyms: [Vault.get_or_create_keeps_vault], [pseudonyms_one_to_one],
      [save_then_open]; [Pseudonym.pseudonymize_exactly], [rehydrate_inverts];
      [Detector.detect_placed] (what is detected can be replaced, and what
      is dropped was beaten by a detection it overlaps);
      [FormatPreserving.fakes_repeat_exactly].
    - Streams: [Stream.delivery_ignores_chunks], [streams_deliver_whole],
      [StreamRoundTrip.stream_restores_text] (both event streams).  Round
      trips hold for restorable texts: no underscore before a digit, no
      entity against a capital or a digit, plain token prefixes; outside
      them the code does not restore, as its examples show.
    - Conversations: [Session.record_entities_keeps_session],
      [resolve_coreferences_placed], [find_word_boundary_ends],
      [get_or_create_serves_live], [evict_expired_exactly],
      [escalates_at_first]; [Mask.mask_then_rehydrate];
      [HttpProxy.redact_exactly] and [chat_answer_restored], the whole way
      there and back.  The [Example]s at the end of these files are inputs on
      which the code does something else than its comments say.

    ** Fuel

    The tokenizer and the key-template parser run on the length of the text,
    the condition parser on three times the number of tokens plus three, the
    tool-block rewriting on the length of the source, the Merkle builder on
    the number of leaves, replacing on the length of the text, the word search
    of a session on that length plus two, the tar reader on the bytes of the
    archive plus one.  Each loop consumes what its fuel counts, and the
    parse theorems ([condition_parse_grammar], [key_template_round_trip]) and
    [Merkle.build_levels_fuel] show that it never runs out.

    ** Not modelled

    Parsing of YAML, JSON and Cedar text, SQLite itself, files and their
    permissions, HTTP, clocks and randomness are parameters or left out, and
    so are DER, PEM and the checks of RFC 3161 tokens.  Quoting and the text of
    doubles in messages are parameters where they decide an order, and the
    texts of errors and reports are left out elsewhere.  Not modelled, for lack
    of time rather than on principle: the connection to the approval broker
    (its denial check is in [Gate]); the bundles of the record ledger
    ([export.rs], [bundle.rs], [verify.rs]) with the anchoring schedule and
    batch heads; the legacy record table of [store.rs]; release packs and
    strict JSON; the importers of evaluation results; the SQLite vault.  The
    model-based detectors, the vector and tree indexes, the command line and
    the transports are glue or numeric code. *)

From stdpp Require Export base tactics list strings gmap sorting.
From Stdlib Require Export ZArith Lia Ascii.

Create HintDb cloakpipe.

Declare Scope cp_scope.
Delimit Scope cp_scope with cp.
Open Scope cp_scope.

(** ** Fallible code

    Rust's [Result<A, E>]; the [?] operator is [let?], [let .. else] is
    [let! .. else .. in]. *)

Inductive result (E A : Type) : Type :=
| Ok (a : A)
| Err (e : E).
Arguments Ok {E A} a.
Arguments Err {E A} e.

Notation "'let?' p ':=' e 'in' k" :=
  (match e with Ok p => k | Err err_ => Err err_ end)
  (at level 10, p pattern, e at level 200, k at level 200,
   format "'[v' 'let?'  p  ':='  e  'in' '/' k ']'") : cp_scope.
Notation "'let!' p ':=' e 'else' d 'in' k" :=
  (match e with Some p => k | None => d end)
  (at level 10, p pattern, e at level 200, d at level 200, k at level 200,
   format "'[v' 'let!'  p  ':='  e  'else'  d  'in' '/' k ']'") : cp_scope.

(** [Option::ok_or]. *)
Definition ok_or {E A} (o : option A) (e : E) : result E A :=
  match o with Some a => Ok a | None => Err e end.

(** [Result::map_err]. *)
Definition map_err {E F A} (f : E -> F) (r : result E A) : result F A :=
  match r with Ok a => Ok a | Err e => Err (f e) end.

(** [Result::ok]. *)
Definition res_ok {E A} (r : result E A) : option A :=
  match r with Ok a => Some a | Err _ => None end.

Definition is_ok {E A} (r : result E A) : bool :=
  match r with Ok _ => true | Err _ => false end.

(** [Option::is_some_and] and [Option::is_none]. *)
Definition is_some_and {A} (o : option A) (f : A -> bool) : bool :=
  match o with Some a => f a | None => false end.
Definition is_some {A} (o : option A) : bool := is_some_and o (fun _ => true).
Definition is_none {A} (o : option A) : bool := negb (is_some o).

#[global] Instance result_eq_dec {E A} `{EqDecision E, EqDecision A} : EqDecision (result E A).
Proof. solve_decision. Defined.

(** *** Tactics *)


(** Case analysis on every [match] of the context and the goal. *)
Ltac simp_res := repeat (case_match; simplify_eq/=; try done).

(** ** Loops that stop at the first error *)

Section TryEachDef.
Context {E A B : Type} (f : A -> result E unit) (g : A -> result E B).

(** [for x in l { f(x)?; }] *)
Fixpoint try_each (l : list A) : result E unit :=
  match l with
  | [] => Ok tt
  | x :: l => let? _ := f x in try_each l
  end.

(** [l.iter().map(g).collect::<Result<Vec<_>, _>>()] *)
Fixpoint try_map (l : list A) : result E (list B) :=
  match l with
  | [] => Ok []
  | x :: l => let? y := g x in let? ys := try_map l in Ok (y :: ys)
  end.
End TryEachDef.

Section TryEach.
Context {E A : Type}.
Implicit Types (f : A -> result E unit) (l : list A) (e : E).

Lemma try_each_ok f l : try_each f l = Ok tt <-> Forall (fun x => f x = Ok tt) l.
Proof.
  induction l as [|x l IH]; simpl; [by split|].
  rewrite Forall_cons. destruct (f x) as [[]|e]; [|by split; [|intros [? _]]].
  rewrite IH. by split; [|intros [_ ?]].
Qed.

Lemma try_each_err f l e :
  try_each f l = Err e <->
  exists l1 x l2, l = l1 ++ x :: l2 /\ Forall (fun y => f y = Ok tt) l1 /\ f x = Err e.
Proof.
  induction l as [|x l IH]; simpl.
  - split; [done|]. intros (l1 & x & l2 & Heq & _). by destruct l1.
  - destruct (f x) as [[]|e'] eqn:Hx.
    + rewrite IH. split.
      * intros (l1 & y & l2 & -> & Hl1 & Hy). exists (x :: l1), y, l2. by repeat constructor.
      * intros ([|z l1] & y & l2 & Heq & Hl1 & Hy); simplify_eq/=; [congruence|].
        apply Forall_cons in Hl1 as [_ Hl1]. eauto 10.
    + split.
      * intros [= ->]. exists [], x, l. by repeat constructor.
      * intros ([|z l1] & y & l2 & Heq & Hl1 & Hy); simplify_eq/=; [congruence|].
        apply Forall_cons in Hl1 as [Hz _]. congruence.
Qed.

Lemma try_each_err_elem f l e : try_each f l = Err e -> exists x, x ∈ l /\ f x = Err e.
Proof. intros (l1 & x & l2 & -> & _ & H)%try_each_err. exists x. set_solver. Qed.
End TryEach.

Lemma try_map_Ok {E A B} (g : A -> result E B) l ys :
  try_map g l = Ok ys <-> Forall2 (fun x y => g x = Ok y) l ys.
Proof.
  revert ys. induction l as [|x l IH]; intros ys; simpl.
  - split; [intros [= <-]; constructor | by intros ->%Forall2_nil_inv_l].
  - split.
    + destruct (g x) as [y|] eqn:Hx; [|done]. destruct (try_map g l) as [zs|]; [|done].
      intros [= <-]. constructor; [done|]. by apply IH.
    + intros (y & zs & Hx & Hl & ->)%Forall2_cons_inv_l. apply IH in Hl. by rewrite Hx, Hl.
Qed.

Lemma is_ok_unit {E} (r : result E unit) : is_ok r = true <-> r = Ok tt.
Proof. by destruct r as [[]|]. Qed.

(** ** Bytes and text

    A byte is an 8-bit [ascii]; Rust's [String] is the byte sequence of its
    UTF-8 encoding, so [str::len], [as_bytes] and the byte-wise [Ord] of
    Rust are those of Rocq's [string]. *)

Abbreviation bytes := (list ascii).

Definition as_bytes (s : string) : bytes := String.list_ascii_of_string s.
Definition from_bytes (b : bytes) : string := String.string_of_list_ascii b.

Lemma from_as_bytes s : from_bytes (as_bytes s) = s.
Proof. apply String.string_of_list_ascii_of_string. Qed.
Lemma as_from_bytes b : as_bytes (from_bytes b) = b.
Proof. apply String.list_ascii_of_string_of_list_ascii. Qed.

#[global] Instance as_bytes_inj : Inj (=) (=) as_bytes.
Proof. intros a b H. by rewrite <- (from_as_bytes a), H, from_as_bytes. Qed.
#[global] Instance from_bytes_inj : Inj (=) (=) from_bytes.
Proof. intros a b H. by rewrite <- (as_from_bytes a), H, as_from_bytes. Qed.

Lemma as_bytes_app a b : as_bytes (a +:+ b) = as_bytes a ++ as_bytes b.
Proof. induction a as [|c a IH]; [done|]. change (c :: as_bytes (a +:+ b) = c :: as_bytes a ++ as_bytes b). by rewrite IH. Qed.
Lemma from_bytes_app a b : from_bytes (a ++ b) = from_bytes a +:+ from_bytes b.
Proof. apply (inj as_bytes). by rewrite as_bytes_app, !as_from_bytes. Qed.

Lemma str_app_nil_r (s : string) : s +:+ "" = s.
Proof. apply (inj as_bytes). by rewrite as_bytes_app, app_nil_r. Qed.
Lemma str_app_assoc (a b c : string) : (a +:+ b) +:+ c = a +:+ b +:+ c.
Proof. apply (inj as_bytes). by rewrite !as_bytes_app, app_assoc. Qed.

(** [filter] and [flat_map]. *)
Lemma filter_all {A} (P : A -> Prop) `{!forall x, base.Decision (P x)} l : Forall P l -> filter P l = l.
Proof. induction 1 as [|x l Hx _ IH]; [done|]. by rewrite filter_cons_True, IH. Qed.
Lemma flat_map_nil {A B} (f : A -> list B) l : flat_map f l = [] <-> forall x, x ∈ l -> f x = [].
Proof.
  induction l as [|y l IH]; [split; [by intros _ x ?%elem_of_nil|done]|]. cbn [flat_map]. split.
  - intros [Hy Hl]%app_nil x [->|Hx]%elem_of_cons; [done|by apply IH].
  - intros H. rewrite (H y) by left. apply IH. intros x Hx. apply H. by right.
Qed.
Lemma app_nil_iff {A} (l l' : list A) : l ++ l' = [] <-> l = [] /\ l' = [].
Proof. split; [apply app_nil|]. by intros [-> ->]. Qed.
Lemma map_nil_iff {A B} (f : A -> B) l : map f l = [] <-> l = [].
Proof. by destruct l. Qed.
Lemma filter_nil_iff {A} (P : A -> Prop) {D : forall x, base.Decision (P x)} l : filter P l = [] <-> forall x, x ∈ l -> ~ P x.
Proof.
  split.
  - intros He x Hx HP. assert (Hin : x ∈ filter P l) by by apply list_elem_of_filter. rewrite He in Hin. by apply elem_of_nil in Hin.
  - intros Hn. destruct (filter P l) as [|x l'] eqn:He; [done|]. assert (Hin : x ∈ filter P l) by (rewrite He; left).
    apply list_elem_of_filter in Hin as [HP Hin]. by destruct (Hn x Hin).
Qed.
Lemma flat_map_elem {A B} (f : A -> list B) l y : y ∈ flat_map f l <-> exists x, x ∈ l /\ y ∈ f x.
Proof.
  rewrite list_elem_of_In, in_flat_map. split; intros (x & Hx & Hy); exists x; rewrite list_elem_of_In in *; by rewrite <- ?list_elem_of_In in *.
Qed.

Definition byte_val (c : ascii) : Z := Z.of_N (N_of_ascii c).

Definition in_range (lo c hi : ascii) : bool :=
  (byte_val lo <=? byte_val c)%Z && (byte_val c <=? byte_val hi)%Z.

(** [u8::is_ascii_digit], [is_ascii_lowercase], [is_ascii_alphabetic],
    [is_ascii_alphanumeric]. *)
Definition is_ascii_digit (c : ascii) : bool := in_range "0"%char c "9"%char.
Definition is_ascii_lowercase (c : ascii) : bool := in_range "a"%char c "z"%char.
Definition is_ascii_uppercase (c : ascii) : bool := in_range "A"%char c "Z"%char.
Definition is_ascii_alphabetic (c : ascii) : bool := is_ascii_lowercase c || is_ascii_uppercase c.
Definition is_ascii_alphanumeric (c : ascii) : bool := is_ascii_alphabetic c || is_ascii_digit c.

(** [s.bytes().all(p)], [s.is_empty()]. *)
Definition str_all (p : ascii -> bool) (s : string) : bool := forallb p (as_bytes s).
Definition str_is_empty (s : string) : bool := bool_decide (s = "").

(** [str::strip_prefix] and [str::starts_with]. *)
Fixpoint strip_prefix (p s : string) : option string :=
  match p, s with
  | EmptyString, _ => Some s
  | String a p', String b s' => if decide (a = b) then strip_prefix p' s' else None
  | String _ _, EmptyString => None
  end.
Definition starts_with (p s : string) : bool := is_some (strip_prefix p s).

Lemma strip_prefix_Some p s r : strip_prefix p s = Some r <-> s = p +:+ r.
Proof.
  revert s. induction p as [|a p IH]; intros s; simpl.
  - split; [by intros [= ->] | by intros ->].
  - destruct s as [|b s]; [split; [done|by intros H]|].
    case_decide as Hab.
    + subst b. rewrite IH. split; [by intros -> | intros H; by injection H].
    + split; [done|]. intros H. by injection H as ->.
Qed.

(** [str::strip_suffix] for a single-byte suffix. *)
Fixpoint strip_suffix_char (c : ascii) (s : string) : option string :=
  match s with
  | EmptyString => None
  | String a EmptyString => if decide (a = c) then Some "" else None
  | String a s' => String a <$> strip_suffix_char c s'
  end.

(** [s.find(c)] as the text before and after the first [c]
    ([str::split_once]). *)
Fixpoint split_once (c : ascii) (s : string) : option (string * string) :=
  match s with
  | EmptyString => None
  | String a s' =>
      if decide (a = c) then Some ("", s')
      else let! (x, y) := split_once c s' else None in Some (String a x, y)
  end.

(** [s.split(c)]: always at least one piece. *)
Fixpoint split_on (c : ascii) (s : string) : list string :=
  match s with
  | EmptyString => [""]
  | String a s' =>
      if decide (a = c) then "" :: split_on c s'
      else match split_on c s' with
           | x :: r => String a x :: r
           | [] => [String a ""]
           end
  end.

(** [parts.join(sep)] *)
Fixpoint str_join (sep : string) (l : list string) : string :=
  match l with
  | [] => ""
  | [x] => x
  | x :: l => x +:+ sep +:+ str_join sep l
  end.

(** [s.replace(c, r)] for a one-byte pattern. *)
Fixpoint replace_char (c : ascii) (r s : string) : string :=
  match s with
  | EmptyString => ""
  | String a s' => if decide (a = c) then r +:+ replace_char c r s' else String a (replace_char c r s')
  end.

(** [s.contains(m)] *)
Fixpoint str_contains (m s : string) : bool :=
  starts_with m s ||
  match s with
  | EmptyString => false
  | String _ s' => str_contains m s'
  end.

(** [s.chars().count()]: a UTF-8 continuation byte is [0x80..0xBF]. *)
Definition is_continuation (c : ascii) : bool := (128 <=? byte_val c)%Z && (byte_val c <? 192)%Z.
Definition chars_count (s : string) : Z :=
  Z.of_nat (length (filter (fun c => is_continuation c = false) (as_bytes s))).

(** [char::to_ascii_lowercase] on text. *)
Definition to_ascii_lowercase (s : string) : string :=
  from_bytes (map (fun c => if is_ascii_uppercase c then ascii_of_N (N_of_ascii c + 32) else c) (as_bytes s)).

(** [str::from_utf8(b).is_ok()]: well-formed UTF-8 (no overlong forms, no
    surrogates, at most U+10FFFF). *)
Fixpoint valid_utf8_bytes (fuel : nat) (b : bytes) : bool :=
  match b, fuel with
  | [], _ => true
  | _, O => false
  | c :: b', S fuel =>
      let n := byte_val c in
      let at_ i := match b' !! i with Some d => byte_val d | None => 0%Z end in
      let cont i := ((128 <=? at_ i) && (at_ i <=? 191))%Z in
      if (n <=? 127)%Z then valid_utf8_bytes fuel b'
      else if ((194 <=? n) && (n <=? 223))%Z then cont 0 && valid_utf8_bytes fuel (drop 1 b')
      else if ((224 <=? n) && (n <=? 239))%Z then
        cont 0 && cont 1 && (negb (n =? 224)%Z || (160 <=? at_ 0%nat)%Z) && (negb (n =? 237)%Z || (at_ 0%nat <=? 159)%Z)
        && valid_utf8_bytes fuel (drop 2 b')
      else if ((240 <=? n) && (n <=? 244))%Z then
        cont 0 && cont 1 && cont 2 && (negb (n =? 240)%Z || (144 <=? at_ 0%nat)%Z)
        && (negb (n =? 244)%Z || (at_ 0%nat <=? 143)%Z) && valid_utf8_bytes fuel (drop 3 b')
      else false
  end.
Definition valid_utf8 (b : bytes) : bool := valid_utf8_bytes (length b) b.

(** [s.trim().is_empty()]: only characters of Unicode's White_Space, in
    UTF-8. *)
Fixpoint is_blank_bytes (fuel : nat) (b : bytes) : bool :=
  match b, fuel with
  | [], _ => true
  | _, O => false
  | c :: b', S fuel =>
      let n := byte_val c in
      if ((9 <=? n) && (n <=? 13) || (n =? 32))%Z then is_blank_bytes fuel b'
      else
        let two := match b' with d :: _ => byte_val d | [] => 0%Z end in
        let three := match b' with _ :: e :: _ => byte_val e | _ => 0%Z end in
        if ((n =? 194) && ((two =? 133) || (two =? 160)))%Z then is_blank_bytes fuel (drop 1 b')
        else if ((n =? 225) && (two =? 154) && (three =? 128)
                 || (n =? 226) && (two =? 128)
                    && ((128 <=? three) && (three <=? 138) || (three =? 168) || (three =? 169) || (three =? 175))
                 || (n =? 226) && (two =? 129) && (three =? 159)
                 || (n =? 227) && (two =? 128) && (three =? 128))%Z
        then is_blank_bytes fuel (drop 2 b')
        else false
  end.
Definition is_blank (s : string) : bool := is_blank_bytes (String.length s) (as_bytes s).

Lemma split_on_nonempty c s : split_on c s <> [].
Proof. destruct s; simpl; [done|]. case_decide; [done|]. by destruct (split_on c s). Qed.

Lemma split_join c s : str_join (String c "") (split_on c s) = s.
Proof.
  induction s as [|a s IH]; [done|]. simpl. pose proof (split_on_nonempty c s) as Hne.
  case_decide as Hac; [subst a|]; destruct (split_on c s) as [|x r] eqn:Hs; try done.
  - simpl in *. by rewrite IH.
  - simpl in *. destruct r; by rewrite <- IH.
Qed.

(** A piece without the separator splits to itself; [split] of a join of
    such pieces gives the pieces back. *)
Definition lacks (c : ascii) (s : string) : Prop := c ∉ as_bytes s.

Lemma lacks_cons c a s : lacks c (String a s) <-> a <> c /\ lacks c s.
Proof. unfold lacks. change (as_bytes (String a s)) with (a :: as_bytes s). rewrite not_elem_of_cons. split; intros [? ?]; split; congruence. Qed.

Lemma split_on_lacks c s : lacks c s -> split_on c s = [s].
Proof.
  induction s as [|a s IH]; [done|]. intros [Ha Hs]%lacks_cons. simpl.
  rewrite decide_False by done. by rewrite (IH Hs).
Qed.

Lemma split_on_app c x s : lacks c x -> split_on c (x +:+ String c s) = x :: split_on c s.
Proof.
  induction x as [|a x IH].
  - intros _. change (EmptyString +:+ String c s) with (String c s). simpl. by rewrite decide_True.
  - intros [Ha Hx]%lacks_cons. change (String a x +:+ String c s) with (String a (x +:+ String c s)).
    simpl. rewrite decide_False by done. by rewrite (IH Hx).
Qed.

Lemma join_split c l :
  l <> [] -> Forall (lacks c) l -> split_on c (str_join (String c "") l) = l.
Proof.
  induction l as [|x l IH]; [done|]. intros _ [Hx Hl]%Forall_cons.
  destruct l as [|y l]; [by apply split_on_lacks|].
  change (split_on c (x +:+ String c (str_join (String c "") (y :: l))) = x :: y :: l).
  rewrite split_on_app by done. by rewrite IH.
Qed.

Lemma split_once_spec c s x y : split_once c s = Some (x, y) -> s = x +:+ String c y /\ lacks c x.
Proof.
  revert x. induction s as [|a s IH]; intros x; simpl; [done|]. case_decide as Ha.
  - intros [= <- <-]. subst a. split; [done|by apply not_elem_of_nil].
  - destruct (split_once c s) as [[x' y']|]; [|done]. intros [= <- <-].
    destruct (IH x' eq_refl) as [-> Hl]. split; [done|by apply lacks_cons].
Qed.

Lemma split_once_lacks c x y : lacks c x -> split_once c (x +:+ String c y) = Some (x, y).
Proof.
  induction x as [|a x IH].
  - intros _. change (EmptyString +:+ String c y) with (String c y). simpl. by rewrite decide_True.
  - intros [Ha Hx]%lacks_cons. change (String a x +:+ String c y) with (String a (x +:+ String c y)).
    simpl. rewrite decide_False by done. by rewrite IH.
Qed.

Lemma filter_ext_in {A} (P Q : A -> Prop) `{forall x, Decision (P x), forall x, Decision (Q x)} (l : list A) :
  (forall x, x ∈ l -> P x <-> Q x) -> filter P l = filter Q l.
Proof.
  induction l as [|x l IH]; intros Hl; [done|]. rewrite !filter_cons.
  rewrite IH by (intros y Hy; apply Hl; by right). pose proof (Hl x ltac:(left)) as Hx.
  destruct (decide (P x)), (decide (Q x)); naive_solver.
Qed.

(** ** Booleans on options *)

Lemma is_some_and_true {A} (o : option A) f :
  is_some_and o f = true <-> exists x, o = Some x /\ f x = true.
Proof. destruct o; simpl; split; [eauto | by intros (? & [= ->] & ?) | done | by intros (? & ? & ?)]. Qed.

Lemma is_some_and_false {A} (o : option A) f :
  is_some_and o f = false <-> forall x, o = Some x -> f x = false.
Proof. destruct o; simpl; split; [by intros ? ? [= <-] | intros H; by apply H | done | done]. Qed.

(** [negb (is_some_and o (fun x => negb (g x)))]: the guard [g] holds if there
    is a value. *)
Lemma guard_opt_true {A} (o : option A) (g : A -> bool) :
  negb (is_some_and o (fun x => negb (g x))) = true <-> forall x, o = Some x -> g x = true.
Proof.
  rewrite negb_true_iff, is_some_and_false.
  split; intros H x Hx; specialize (H x Hx); by apply negb_false_iff.
Qed.

Lemma existsb_Exists {A} (f : A -> bool) l : existsb f l = true <-> Exists (fun x => f x = true) l.
Proof.
  induction l as [|x l IH]; simpl; [by split; [|intros ?%Exists_nil]|].
  by rewrite orb_true_iff, Exists_cons, IH.
Qed.

Lemma existsb_false {A} (f : A -> bool) l : existsb f l = false <-> Forall (fun x => f x = false) l.
Proof.
  induction l as [|x l IH]; simpl; [by split; [constructor|]|].
  by rewrite orb_false_iff, Forall_cons, IH.
Qed.

(** ** Hexadecimal ([{:02x}] of each byte) *)

Definition hex_digit (n : N) : ascii := ascii_of_N (if (n <? 10)%N then 48 + n else 87 + n).
Definition hex_byte (c : ascii) : bytes := [hex_digit (N_of_ascii c / 16); hex_digit (N_of_ascii c mod 16)].
Definition hex_lower (b : bytes) : string := from_bytes (b ≫= hex_byte).

Lemma hex_lower_length b : length (as_bytes (hex_lower b)) = 2 * length b.
Proof.
  unfold hex_lower. rewrite as_from_bytes. induction b as [|c b IH]; [done|].
  rewrite bind_cons, length_app, IH. simpl. lia.
Qed.

(** [char::to_digit(16)]. *)
Definition hex_digit_value (c : ascii) : option N :=
  let n := N_of_ascii c in
  if is_ascii_digit c then Some (n - 48)%N
  else if in_range "a"%char c "f"%char then Some (n - 87)%N
  else if in_range "A"%char c "F"%char then Some (n - 55)%N
  else None.

(** [u8::from_str_radix(s, 16)] on a text of two bytes, which may start with
    a plus sign. *)
Definition hex_pair_value (x y : ascii) : option ascii :=
  let! lo := hex_digit_value y else None in
  if decide (x = "+"%char) then Some (ascii_of_N lo)
  else let! hi := hex_digit_value x else None in Some (ascii_of_N (16 * hi + lo)).

Lemma hex_pair_byte c : hex_pair_value (hex_digit (N_of_ascii c / 16)) (hex_digit (N_of_ascii c mod 16)) = Some c.
Proof. by destruct c as [[] [] [] [] [] [] [] []]. Qed.

Lemma hex_digit_ascii c : (byte_val (hex_digit (N_of_ascii c / 16)) <? 128)%Z = true.
Proof. by destruct c as [[] [] [] [] [] [] [] []]. Qed.
