(* ===== verification/BTree.v ===== *)
(** * [BTreeMap<String, A>] as a strictly sorted association list

    The standard library's ordered map, which [serde_json::Map] also is here
    (the [preserve_order] feature is off).  Iteration order is key order,
    and two maps with the same entries are equal: [ext] below. *)

From S2P Require Import Prelude.

Abbreviation btree A := (list (string * A)).

Definition str_lt (a b : string) : Prop := String.le a b /\ a <> b.

#[global] Instance str_lt_dec : RelDecision str_lt.
Proof. intros a b. unfold str_lt. apply _. Defined.

#[global] Instance str_lt_strict : StrictOrder str_lt.
Proof.
  split.
  - intros a [_ H]. done.
  - intros a b c [Hab Hn] [Hbc Hn']. split; [by etrans|].
    intros ->. apply Hn. by apply (anti_symm String.le).
Qed.

Lemma str_lt_trichotomy a b : str_lt a b \/ a = b \/ str_lt b a.
Proof.
  unfold str_lt. destruct (decide (a = b)) as [->|Hn]; [auto|].
  destruct (total String.le a b); auto.
Qed.

Module BTree.
Section Ops.
Context {A : Type}.
Implicit Types m : btree A.

Definition keys m : list string := m.*1.

(** The representation invariant: keys strictly increase. *)
Definition wf m : Prop := StronglySorted str_lt (keys m).

(** [BTreeMap::get] and [contains_key]. *)
Fixpoint get (k : string) m : option A :=
  match m with
  | [] => None
  | (k', v) :: m => if decide (k = k') then Some v else get k m
  end.
Definition contains_key (k : string) m : bool := is_some (get k m).

(** [BTreeMap::insert] and [remove]. *)
Fixpoint insert (k : string) (v : A) m : btree A :=
  match m with
  | [] => [(k, v)]
  | (k', v') :: m' =>
      if decide (k = k') then (k, v) :: m'
      else if decide (str_lt k k') then (k, v) :: m
      else (k', v') :: insert k v m'
  end.
Fixpoint remove (k : string) m : btree A :=
  match m with
  | [] => []
  | (k', v') :: m' => if decide (k = k') then m' else (k', v') :: remove k m'
  end.

(** [iter().collect()] into a map: later entries replace earlier ones. *)
Definition of_list (l : list (string * A)) : btree A :=
  fold_left (fun m kv => insert kv.1 kv.2 m) l [].

Lemma wf_nil : wf [].
Proof. constructor. Qed.

Lemma wf_cons k v m : wf ((k, v) :: m) <-> wf m /\ Forall (str_lt k) (keys m).
Proof. unfold wf, keys. cbn. split; [intros H; by inversion H | intros [? ?]; by constructor]. Qed.

Lemma get_Some_elem k v m : get k m = Some v -> (k, v) ∈ m.
Proof.
  induction m as [|[k' v'] m IH]; simpl; [done|].
  case_decide as Hk; [intros [= ->]; subst k'; left | right; auto].
Qed.

Lemma get_None k m : get k m = None <-> k ∉ keys m.
Proof.
  induction m as [|[k' v'] m IH]; simpl; [by split; [intros _ ?%elem_of_nil|]|].
  unfold keys in *. cbn. rewrite not_elem_of_cons. case_decide as Hk; [|rewrite IH; split; [intros ?; by split | by intros [_ ?]]].
  split; [done|intros [? _]; done].
Qed.

Lemma elem_get k v m : wf m -> (k, v) ∈ m -> get k m = Some v.
Proof.
  induction m as [|[k' v'] m IH]; [by intros _ ?%elem_of_nil|].
  intros [Hm Hlt]%wf_cons [[= -> ->]|Hin]%elem_of_cons; simpl; [by rewrite decide_True|].
  rewrite decide_False; [auto|]. intros ->.
  rewrite Forall_forall in Hlt. destruct (Hlt k') as [_ ?]; [|done].
  apply list_elem_of_fmap. by exists (k', v).
Qed.

Lemma contains_key_elem k m : contains_key k m = true <-> k ∈ keys m.
Proof.
  unfold contains_key, is_some, is_some_and. pose proof (get_None k m) as H.
  destruct (get k m) eqn:Hg; [|by split; [|intros []%H]].
  split; [intros _|done]. destruct (decide (k ∈ keys m)) as [|Hn]; [done|]. by apply H in Hn.
Qed.

Lemma get_insert k v k' m : wf m ->
  get k' (insert k v m) = if decide (k' = k) then Some v else get k' m.
Proof.
  induction m as [|[k1 v1] m IH]; [done|]. intros [Hm Hlt]%wf_cons. simpl.
  repeat (case_decide; simplify_eq/=; try done).
  - auto.
  - auto.
Qed.

Lemma keys_insert k v m x : x ∈ keys (insert k v m) <-> x = k \/ x ∈ keys m.
Proof.
  unfold keys. induction m as [|[k1 v1] m IH]; cbn.
  - set_solver.
  - repeat (case_decide; simplify_eq/=; try done); set_solver.
Qed.

Lemma wf_insert k v m : wf m -> wf (insert k v m).
Proof.
  induction m as [|[k1 v1] m IH]; intros Hwf.
  - apply wf_cons. split; [apply wf_nil|constructor].
  - simpl. apply wf_cons in Hwf as [Hm Hlt]. repeat case_decide; subst; apply wf_cons.
    + done.
    + split; [by apply wf_cons|]. constructor; [done|].
      eapply Forall_impl; [done|]. intros x Hx. by etrans.
    + split; [auto|]. apply Forall_forall. intros x [->|Hx]%keys_insert.
      * destruct (str_lt_trichotomy k k1) as [?|[?|?]]; done.
      * by rewrite Forall_forall in Hlt; apply Hlt.
Qed.

Lemma get_remove k k' m : wf m ->
  get k' (remove k m) = if decide (k' = k) then None else get k' m.
Proof.
  induction m as [|[k1 v1] m IH]; [by intros _; simpl; case_decide|].
  intros [Hm Hlt]%wf_cons. simpl. repeat (case_decide; simplify_eq/=; try done).
  - apply get_None. intros Hin. rewrite Forall_forall in Hlt. by destruct (Hlt _ Hin).
  - auto.
  - auto.
Qed.

Lemma wf_remove k m : wf m -> wf (remove k m).
Proof.
  induction m as [|[k1 v1] m IH]; [done|]. intros [Hm Hlt]%wf_cons. simpl.
  case_decide; [done|]. apply wf_cons. split; [auto|].
  apply Forall_forall. intros x Hx. rewrite Forall_forall in Hlt. apply Hlt.
  clear -Hx. induction m as [|[k2 v2] m IH]; [done|]. simpl in Hx.
  case_decide; unfold keys in *; cbn in *; set_solver.
Qed.

(** Maps with the same lookups are equal. *)
Lemma ext m1 m2 : wf m1 -> wf m2 -> (forall k, get k m1 = get k m2) -> m1 = m2.
Proof.
  revert m2. induction m1 as [|[k1 v1] m1 IH]; intros [|[k2 v2] m2] H1 H2 H; [done| | |].
  - specialize (H k2). simpl in H. by rewrite decide_True in H.
  - specialize (H k1). simpl in H. by rewrite decide_True in H.
  - apply wf_cons in H1 as [Hw1 Hl1]. apply wf_cons in H2 as [Hw2 Hl2].
    rewrite Forall_forall in Hl1, Hl2.
    assert (k1 = k2) as ->.
    { pose proof (H k1) as Hk1. pose proof (H k2) as Hk2. simpl in Hk1, Hk2.
      rewrite (decide_True (P := k1 = k1)) in Hk1 by done.
      rewrite (decide_True (P := k2 = k2)) in Hk2 by done.
      repeat case_decide; try done. symmetry in Hk1.
      apply get_Some_elem, (list_elem_of_fmap_2 fst), Hl2 in Hk1.
      apply get_Some_elem, (list_elem_of_fmap_2 fst), Hl1 in Hk2. cbn in *.
      exfalso. apply (irreflexivity str_lt k1). by etrans. }
    assert (v1 = v2) as ->.
    { specialize (H k2). simpl in H. by rewrite !decide_True in H by done; simplify_eq. }
    f_equal. apply IH; [done..|]. intros k. specialize (H k). simpl in H.
    case_decide; [|done]. subst k.
    assert (get k2 m1 = None) as -> by (apply get_None; intros Hin%Hl1; by destruct Hin).
    symmetry. apply get_None. intros Hin%Hl2. by destruct Hin.
Qed.

Lemma get_of_list_notin k l m : wf m -> k ∉ l.*1 ->
  get k (fold_left (fun m kv => insert kv.1 kv.2 m) l m) = get k m.
Proof.
  revert m. induction l as [|[k1 v1] l IH]; intros m Hm Hk; [done|]. cbn in *.
  apply not_elem_of_cons in Hk as [? ?]. rewrite IH by (try apply wf_insert; done).
  by rewrite get_insert, decide_False by done.
Qed.

Lemma wf_fold_insert l m : wf m -> wf (fold_left (fun m kv => insert kv.1 kv.2 m) l m).
Proof. revert m. induction l as [|[k v] l IH]; intros m Hm; [done|]. apply IH. by apply wf_insert. Qed.

Lemma wf_of_list l : wf (of_list l).
Proof. apply wf_fold_insert, wf_nil. Qed.
End Ops.
End BTree.

#[export] Hint Resolve BTree.wf_nil BTree.wf_insert BTree.wf_remove BTree.wf_of_list : cloakpipe.

Lemma of_list_snoc {A} (l : btree A) k x : BTree.of_list (l ++ [(k, x)]) = BTree.insert k x (BTree.of_list l).
Proof. unfold BTree.of_list. by rewrite fold_left_app. Qed.

Lemma get_of_list_Some {A} (l : btree A) k x : BTree.get k (BTree.of_list l) = Some x -> (k, x) ∈ l.
Proof.
  induction l as [|[k' y] l IH] using rev_ind; [done|]. rewrite of_list_snoc, BTree.get_insert by apply BTree.wf_of_list.
  case_decide as Hk; [intros [= ->]; subst|intros Hg%IH]; apply elem_of_app; [right; by left|by left].
Qed.

Lemma btree_insert_perm {A} k (x : A) m : k ∉ BTree.keys m -> BTree.insert k x m ≡ₚ (k, x) :: m.
Proof.
  induction m as [|[k' y] m IH]; intros Hk; [done|]. cbn in Hk. apply not_elem_of_cons in Hk as [Hne Hk]. cbn.
  rewrite decide_False by done. case_decide; [done|]. rewrite IH by done. apply Permutation_swap.
Qed.

Lemma btree_of_list_perm {A} (l : list (string * A)) : NoDup (map fst l) -> BTree.of_list l ≡ₚ l.
Proof.
  induction l as [|[k x] l IH] using rev_ind; [done|]. rewrite map_app. intros (Hnd & Hd & _)%NoDup_app. rewrite of_list_snoc.
  rewrite btree_insert_perm, IH by done || (unfold BTree.keys; rewrite IH by done; intros Hin; apply (Hd _ Hin); by left).
  by rewrite Permutation_cons_append.
Qed.

Lemma keys_map {A B} (f : A -> B) (m : btree A) : BTree.keys (map (fun kv => (kv.1, f kv.2)) m) = BTree.keys m.
Proof. unfold BTree.keys. induction m as [|[k x] m IH]; [done|]. cbn. by f_equal. Qed.

(** ** [sort(); dedup()] on strings *)

Fixpoint dedup (l : list string) : list string :=
  match l with
  | x :: ((y :: _) as l') => if decide (x = y) then dedup l' else x :: dedup l'
  | l => l
  end.
Definition sort_dedup (l : list string) : list string := dedup (merge_sort String.le l).

Lemma dedup_elem l x : x ∈ dedup l <-> x ∈ l.
Proof. induction l as [|y [|z l] IH]; [done..|]. cbn [dedup]. case_decide; [subst z|]; set_solver. Qed.

Lemma dedup_sorted l : StronglySorted String.le l -> StronglySorted str_lt (dedup l).
Proof.
  induction l as [|y [|z l] IH]; intros Hs; [constructor|by repeat constructor|]. apply StronglySorted_inv in Hs as [Hs Hy].
  specialize (IH Hs).
  change (dedup (y :: z :: l)) with (if decide (y = z) then dedup (z :: l) else y :: dedup (z :: l)). case_decide as Hyz; [exact IH|]. constructor; [exact IH|]. apply Forall_forall. intros x Hx. rewrite dedup_elem in Hx.
  rewrite Forall_forall in Hy. apply StronglySorted_inv in Hs as [_ Hz]. rewrite Forall_forall in Hz. split; [by apply Hy|]. intros <-.
  apply elem_of_cons in Hx as [Hx|Hx]; [done|]. apply Hyz, (anti_symm String.le); [apply Hy; left|by apply Hz].
Qed.

Lemma sort_dedup_elem l x : x ∈ sort_dedup l <-> x ∈ l.
Proof. unfold sort_dedup. by rewrite dedup_elem, merge_sort_Permutation. Qed.

Lemma sort_dedup_sorted l : StronglySorted str_lt (sort_dedup l).
Proof. apply dedup_sorted, (StronglySorted_merge_sort String.le). Qed.
