(* ===== verification/Json.v ===== *)
(** * JSON values

    The data model the source manipulates: [serde_json::Value] with its
    public constructors, objects as ordered maps, and numbers as
    [serde_json] documents them, an unsigned or negative 64-bit integer or a
    finite IEEE double.  Parsing and printing of JSON text are library code:
    where the source calls them they are parameters of the model. *)

From S2P Require Import Prelude BTree.
From Stdlib Require Import SpecFloat.

(** ** Numbers *)

Definition I64_MIN : Z := -2^63.
Definition I64_MAX : Z := 2^63 - 1.
Definition U64_MAX : Z := 2^64 - 1.

Definition in_u64 (n : Z) : bool := (0 <=? n)%Z && (n <=? U64_MAX)%Z.
Definition in_i64 (n : Z) : bool := (I64_MIN <=? n)%Z && (n <=? I64_MAX)%Z.

(** A binary64 value, computed by the standard library's [SpecFloat]. *)
Abbreviation f64 := spec_float.
Definition f64_prec : Z := 53.
Definition f64_emax : Z := 1024.

(** [n as f64]: round to nearest, ties to even. *)
Definition f64_of_Z (n : Z) : f64 := binary_normalize f64_prec f64_emax n 0 false.

(** [f64::partial_cmp] and [==]. *)
Definition f64_cmp (a b : f64) : option comparison := SFcompare a b.
Definition f64_eqb (a b : f64) : bool := match f64_cmp a b with Some Eq => true | _ => false end.

(** [f64::is_finite]. *)
Definition f64_is_finite (a : f64) : bool :=
  match a with S754_zero _ | S754_finite _ _ _ => true | _ => false end.

(** [f.fract() == 0.0] for a finite [f]: [m * 2^e] is an integer. *)
Definition f64_fract_is_zero (a : f64) : bool :=
  match a with
  | S754_zero _ => true
  | S754_finite _ m e => (0 <=? e)%Z || (Z.pos m mod 2 ^ (- e) =? 0)%Z
  | _ => false
  end.

Inductive number : Type :=
| PosInt (n : Z)
| NegInt (n : Z)
| Float (f : f64).

Definition as_i64 (n : number) : option Z :=
  match n with
  | PosInt n => if (n <=? I64_MAX)%Z then Some n else None
  | NegInt n => Some n
  | Float _ => None
  end.
Definition as_u64 (n : number) : option Z :=
  match n with PosInt n => Some n | NegInt _ | Float _ => None end.
Definition as_f64 (n : number) : option f64 :=
  Some match n with PosInt n | NegInt n => f64_of_Z n | Float f => f end.
Definition is_i64 (n : number) : bool := is_some (as_i64 n).
Definition is_u64 (n : number) : bool := is_some (as_u64 n).

Definition number_eqb (a b : number) : bool :=
  match a, b with
  | PosInt x, PosInt y | NegInt x, NegInt y => (x =? y)%Z
  | Float x, Float y => f64_eqb x y
  | _, _ => false
  end.

(** A number [serde_json] can hold. *)
Definition number_wf (n : number) : bool :=
  match n with
  | PosInt n => in_u64 n
  | NegInt n => in_i64 n && (n <? 0)%Z
  | Float f => f64_is_finite f
  end.

(** ** Values *)

#[local] Unset Elimination Schemes.
Inductive value : Type :=
| VNull
| VBool (b : bool)
| VNumber (n : number)
| VString (s : string)
| VArray (a : list value)
| VObject (o : btree value).
#[local] Set Elimination Schemes.

Section ValueInd.
Variable P : value -> Prop.
Hypothesis P_null : P VNull.
Hypothesis P_bool : forall b, P (VBool b).
Hypothesis P_number : forall n, P (VNumber n).
Hypothesis P_string : forall s, P (VString s).
Hypothesis P_array : forall a, Forall P a -> P (VArray a).
Hypothesis P_object : forall o, Forall (fun kv => P kv.2) o -> P (VObject o).

Fixpoint value_ind (v : value) : P v :=
  match v with
  | VNull => P_null
  | VBool b => P_bool b
  | VNumber n => P_number n
  | VString s => P_string s
  | VArray a =>
      P_array a ((fix go l : Forall P l :=
        match l with [] => Forall_nil_2 _ | x :: l => Forall_cons_2 _ _ _ (value_ind x) (go l) end) a)
  | VObject o =>
      P_object o ((fix go l : Forall (fun kv => P kv.2) l :=
        match l with [] => Forall_nil_2 _ | x :: l => Forall_cons_2 _ x l (value_ind x.2) (go l) end) o)
  end.
End ValueInd.

(** [Value]'s [==]: numbers compare as numbers of the same kind, so [1] and
    [1.0] differ, and [0.0] equals [-0.0]. *)
Fixpoint value_eqb (a b : value) : bool :=
  match a, b with
  | VNull, VNull => true
  | VBool x, VBool y => Bool.eqb x y
  | VNumber x, VNumber y => number_eqb x y
  | VString x, VString y => bool_decide (x = y)
  | VArray x, VArray y =>
      (fix go l1 l2 := match l1, l2 with
        | [], [] => true
        | u :: l1, w :: l2 => value_eqb u w && go l1 l2
        | _, _ => false
        end) x y
  | VObject x, VObject y =>
      (fix go (l1 l2 : btree value) := match l1, l2 with
        | [], [] => true
        | (k1, u) :: l1, (k2, w) :: l2 => bool_decide (k1 = k2) && value_eqb u w && go l1 l2
        | _, _ => false
        end) x y
  | _, _ => false
  end.

Definition as_object (v : value) : option (btree value) :=
  match v with VObject o => Some o | _ => None end.
Definition as_array (v : value) : option (list value) :=
  match v with VArray a => Some a | _ => None end.
Definition as_str (v : value) : option string :=
  match v with VString s => Some s | _ => None end.
Definition is_object (v : value) : bool := is_some (as_object v).
Definition is_array (v : value) : bool := is_some (as_array v).
Definition is_null (v : value) : bool := match v with VNull => true | _ => false end.

(** [value.get(key)]: [None] on anything but an object. *)
Definition vget (k : string) (v : value) : option value :=
  let! o := as_object v else None in BTree.get k o.

(** [a.contains(v)] on an array. *)
Definition array_contains (a : list value) (v : value) : bool := existsb (fun x => value_eqb x v) a.

(** Values [serde_json] can hold: numbers in range, object keys sorted. *)
Fixpoint value_wf (v : value) : bool :=
  match v with
  | VNull | VBool _ | VString _ => true
  | VNumber n => number_wf n
  | VArray a => forallb value_wf a
  | VObject o => bool_decide (StronglySorted str_lt (BTree.keys o)) && forallb (fun kv => value_wf kv.2) o
  end.

(** ** Equality of well-formed values *)

Lemma f64_eqb_refl f : f64_is_finite f = true -> f64_eqb f f = true.
Proof.
  destruct f as [s| | |s m e]; try done. unfold f64_eqb, f64_cmp, SFcompare.
  destruct s; by rewrite Z.compare_refl, ?Pos.compare_cont_refl.
Qed.

Lemma number_eqb_refl n : number_wf n = true -> number_eqb n n = true.
Proof. destruct n; simpl; intros; [apply Z.eqb_refl..|by apply f64_eqb_refl]. Qed.

Lemma value_eqb_refl v : value_wf v = true -> value_eqb v v = true.
Proof.
  induction v as [|b|n|s|a IH|o IH] using value_ind; simpl; intros Hwf; try done.
  - by destruct b.
  - by apply number_eqb_refl.
  - by apply bool_decide_eq_true_2.
  - induction IH as [|x a Hx _ IHa]; [done|]. simpl in Hwf. apply andb_true_iff in Hwf as [? ?].
    rewrite Hx by done. auto.
  - apply andb_true_iff in Hwf as [_ Hwf].
    induction IH as [|[k x] o Hx _ IHo]; [done|]. simpl in Hwf, Hx. apply andb_true_iff in Hwf as [? ?].
    rewrite bool_decide_eq_true_2, Hx by done. auto.
Qed.
