(* ===== verification/Text.v ===== *)
(** * Text operations of the pseudonymisation core

    Rust's [str] methods that cut, search and rewrite text by byte offsets:
    slicing with its panics, [find], [contains], [replace], [trim] and
    [split_whitespace], the stable [sort_by_key], and the decimal text of an
    integer.  Case conversion follows Unicode's tables, which are an argument
    (class [CaseMapping]). *)

From S2P Require Import Prelude.
From stdpp Require Import pretty.

(** ** Offsets and slices *)

Definition str_len (s : string) : nat := length (as_bytes s).

(** [str::is_char_boundary]. *)
Definition is_char_boundary (s : string) (i : nat) : bool :=
  match as_bytes s !! i with
  | Some c => bool_decide (i = 0) || negb (is_continuation c)
  | None => bool_decide (i = 0) || bool_decide (i = str_len s)
  end.

(** [&s[a..b]]: panics ([None]) unless both ends are character boundaries in
    order. *)
Definition str_slice (s : string) (a b : nat) : option string :=
  if bool_decide (a <= b) && is_char_boundary s a && is_char_boundary s b
  then Some (from_bytes (take (b - a) (drop a (as_bytes s)))) else None.

(** [&s[a..]]. *)
Definition str_from (s : string) (a : nat) : option string := str_slice s a (str_len s).

(** The characters of a string, each as its UTF-8 bytes: a byte with the
    continuation bytes after it. *)
Fixpoint chars (b : bytes) : list bytes :=
  match b with
  | [] => []
  | c :: b =>
      match chars b with
      | (d :: x) :: r => if is_continuation d then (c :: d :: x) :: r else [c] :: (d :: x) :: r
      | r => [c] :: r
      end
  end.

(** ** Search and replace *)

(** [b] after its prefix [m]. *)
Fixpoint bytes_strip (m b : bytes) : option bytes :=
  match m, b with
  | [], _ => Some b
  | x :: m, y :: b => if decide (x = y) then bytes_strip m b else None
  | _ :: _, [] => None
  end.

(** [s.find(m)]: the byte offset of the first occurrence. *)
Fixpoint bytes_find (m b : bytes) : option nat :=
  if is_some (bytes_strip m b) then Some 0
  else match b with [] => None | _ :: b => S <$> bytes_find m b end.
Definition str_find (m s : string) : option nat := bytes_find (as_bytes m) (as_bytes s).
Definition contains (m s : string) : bool := is_some (str_find m s).

(** [s.replace(m, r)] for a non-empty [m]: occurrences from the left,
    without overlap. *)
Fixpoint bytes_replace (fuel : nat) (m r b : bytes) : bytes :=
  match fuel, b with
  | S fuel, c :: b' =>
      match bytes_strip m b with
      | Some rest => r ++ bytes_replace fuel m r rest
      | None => c :: bytes_replace fuel m r b'
      end
  | _, _ => b
  end.

(** [s.replace(m, r)]; an empty [m] occurs before each character and at the
    end. *)
Definition str_replace (m r s : string) : string :=
  if str_is_empty m
  then from_bytes (as_bytes r ++ (chars (as_bytes s) ≫= fun c => c ++ as_bytes r))
  else from_bytes (bytes_replace (str_len s) (as_bytes m) (as_bytes r) (as_bytes s)).

(** ** White space *)

(** [char::is_whitespace] of a character's bytes. *)
Definition is_whitespace (c : bytes) : bool := is_blank (from_bytes c).

Fixpoint drop_while {A} (p : A -> bool) (l : list A) : list A :=
  match l with x :: l' => if p x then drop_while p l' else l | [] => [] end.

(** The longest prefix whose elements satisfy [p], and the rest. *)
Fixpoint span {A} (p : A -> bool) (l : list A) : list A * list A :=
  match l with
  | x :: l' => if p x then let (a, b) := span p l' in (x :: a, b) else ([], l)
  | [] => ([], [])
  end.

(** [str::trim]. *)
Definition trim (s : string) : string :=
  from_bytes (mjoin (reverse (drop_while is_whitespace (reverse (drop_while is_whitespace (chars (as_bytes s))))))).

(** [str::split_whitespace]. *)
Fixpoint words (word : bytes) (cs : list bytes) : list string :=
  let flush := if bool_decide (word = []) then [] else [from_bytes word] in
  match cs with
  | [] => flush
  | c :: cs => if is_whitespace c then flush ++ words [] cs else words (word ++ c) cs
  end.
Definition split_whitespace (s : string) : list string := words [] (chars (as_bytes s)).

(** [char::to_uppercase] and [str::to_lowercase]: on ASCII text they are the
    ASCII conversions. *)
Class CaseMapping := {
  to_uppercase : string -> string;
  to_lowercase : string -> string;
}.

Definition is_ascii (s : string) : bool := str_all (fun c => byte_val c <? 128)%Z s.
Definition to_ascii_uppercase (s : string) : string :=
  from_bytes (map (fun c => if is_ascii_lowercase c then ascii_of_N (N_of_ascii c - 32) else c) (as_bytes s)).

Class CaseLaws `{CaseMapping} := {
  to_uppercase_ascii s : is_ascii s = true -> to_uppercase s = to_ascii_uppercase s;
  to_lowercase_ascii s : is_ascii s = true -> to_lowercase s = to_ascii_lowercase s;
}.

(** ** [slice::sort_by_key] *)

Section SortByKey.
Context {A : Type} (k : A -> Z).

Fixpoint insert_by_key (x : A) (l : list A) : list A :=
  match l with
  | [] => [x]
  | y :: l' => if (k x <=? k y)%Z then x :: l else y :: insert_by_key x l'
  end.

(** Ascending and stable. *)
Fixpoint sort_by_key (l : list A) : list A :=
  match l with
  | [] => []
  | x :: l => insert_by_key x (sort_by_key l)
  end.

Definition by_key (x y : A) : Prop := (k x <= k y)%Z.

Lemma insert_by_key_perm x l : insert_by_key x l ≡ₚ x :: l.
Proof.
  induction l as [|y l IH]; simpl; [done|]. destruct (_ <=? _)%Z; [done|].
  rewrite IH. apply Permutation_swap.
Qed.

Lemma sort_by_key_perm l : sort_by_key l ≡ₚ l.
Proof. induction l as [|x l IH]; simpl; [done|]. by rewrite insert_by_key_perm, IH. Qed.

Lemma insert_by_key_sorted x l : StronglySorted by_key l -> StronglySorted by_key (insert_by_key x l).
Proof.
  induction l as [|y l IH]; simpl; intros Hs; [by repeat constructor|].
  apply StronglySorted_inv in Hs as [Hs Hy]. destruct (Z.leb_spec (k x) (k y)) as [Hxy|Hxy].
  - constructor; [by constructor|]. constructor; [done|].
    eapply Forall_impl; [exact Hy|]. unfold by_key. intros z ?. simpl in *. lia.
  - constructor; [by apply IH|]. rewrite insert_by_key_perm. constructor; [unfold by_key; lia|done].
Qed.

Lemma sort_by_key_sorted l : StronglySorted by_key (sort_by_key l).
Proof. induction l; simpl; [constructor|by apply insert_by_key_sorted]. Qed.
End SortByKey.

(** ** [HashMap] iteration

    A hash map iterates in an order of its own; a model that iterates takes
    it from here, and the theorems hold for every such order. *)
Class HashOrder := { hm_iter : forall {A}, gmap string A -> list (string * A) }.
Class HashOrderLaws `{HashOrder} := {
  hm_iter_perm {A} (m : gmap string A) : hm_iter m ≡ₚ map_to_list m;
}.

Lemma elem_of_hm_iter `{HashOrderLaws} {A} (m : gmap string A) k x : (k, x) ∈ hm_iter m <-> m !! k = Some x.
Proof. by rewrite hm_iter_perm, elem_of_map_to_list. Qed.

(** ** Lemmas *)

Lemma bytes_strip_Some m b r : bytes_strip m b = Some r <-> b = m ++ r.
Proof.
  revert b. induction m as [|x m IH]; intros b; simpl; [split; congruence|].
  destruct b as [|y b]; [done|]. case_decide as Hxy.
  - subst y. rewrite IH. split; [by intros ->|by intros [= ->]].
  - split; [done|]. intros [= -> ?]. done.
Qed.

Lemma bytes_strip_app m r : bytes_strip m (m ++ r) = Some r.
Proof. by apply bytes_strip_Some. Qed.

(** [m] starts at no byte of [a] in [a ++ b]. *)
Definition nowhere (m a b : bytes) : Prop :=
  forall x w, a = x ++ w -> w <> [] -> bytes_strip m (w ++ b) = None.

Lemma nowhere_cons m c a b : nowhere m (c :: a) b -> bytes_strip m (c :: a ++ b) = None /\ nowhere m a b.
Proof.
  intros Hn. split; [by apply (Hn [] (c :: a))|]. intros x w -> Hw. by apply (Hn (c :: x)).
Qed.

Lemma bytes_replace_skip m r a b n :
  nowhere m a b -> bytes_replace (length a + n) m r (a ++ b) = a ++ bytes_replace n m r b.
Proof.
  revert n. induction a as [|c a IH]; intros n Hn; [done|].
  apply nowhere_cons in Hn as [Hc Hn]. simpl. by rewrite Hc, IH.
Qed.

(** More fuel than the text is long changes nothing. *)
Lemma bytes_replace_fuel m r n k b : m <> [] -> length b <= n -> n <= k -> bytes_replace k m r b = bytes_replace n m r b.
Proof.
  intros Hm. revert k b. induction n as [|n IH]; intros k b Hb Hk.
  - destruct b; simpl in Hb; [|lia]. by destruct k.
  - destruct k as [|k]; [lia|]. destruct b as [|c b]; [done|]. simpl in *.
    destruct (bytes_strip m (c :: b)) as [rest|] eqn:Hs.
    + apply bytes_strip_Some in Hs. assert (length rest <= n).
      { apply (f_equal length) in Hs. rewrite length_app in Hs. destruct m; [done|]. simpl in *. lia. }
      by rewrite IH by lia.
    + by rewrite IH by lia.
Qed.

Lemma bytes_replace_here m r b n :
  m <> [] -> length b <= n -> bytes_replace (length m + n) m r (m ++ b) = r ++ bytes_replace n m r b.
Proof.
  intros Hm Hb. destruct m as [|c m]; [done|]. simpl length.
  change ((S (length m) + n)) with (S (length m + n)).
  cbn [bytes_replace app]. change (c :: m ++ b) with ((c :: m) ++ b). rewrite bytes_strip_app.
  f_equal. rewrite (bytes_replace_fuel _ _ n); [done|done|done|lia].
Qed.

Lemma bytes_replace_nowhere m r a : nowhere m a [] -> bytes_replace (length a) m r a = a.
Proof.
  intros Hn. rewrite <- (app_nil_r a) at 2. rewrite <- (Nat.add_0_r (length a)).
  rewrite bytes_replace_skip by done. by rewrite app_nil_r.
Qed.

Lemma bytes_find_None m b : bytes_find m b = None -> nowhere m b [].
Proof.
  induction b as [|c b IH]; simpl; intros Hf.
  - by intros x w [-> ->]%eq_sym%app_nil Hw.
  - destruct (bytes_strip m (c :: b)) eqn:Hs; [done|]. simpl in Hf.
    apply fmap_None in Hf. intros x w Hx Hw. destruct x as [|d x].
    + simpl in Hx. subst w. by rewrite app_nil_r.
    + simplify_eq/=. by apply (IH Hf x).
Qed.

Lemma bytes_find_Some m b i : bytes_find m b = Some i -> exists x y, b = x ++ m ++ y /\ length x = i.
Proof.
  revert i. induction b as [|c b IH]; simpl; intros i.
  - destruct (bytes_strip m []) as [r|] eqn:Hs; [|done]. intros [= <-].
    apply bytes_strip_Some in Hs. by exists [], r.
  - destruct (bytes_strip m (c :: b)) as [r|] eqn:Hs.
    + intros [= <-]. apply bytes_strip_Some in Hs. by exists [], r.
    + intros (j & Hj & ->)%fmap_Some. destruct (IH _ Hj) as (x & y & -> & <-). by exists (c :: x), y.
Qed.

Lemma contains_true m s : contains m s = true <-> exists x y, as_bytes s = x ++ as_bytes m ++ y.
Proof.
  unfold contains, str_find. split.
  - destruct (bytes_find _ _) eqn:Hf; [|done]. destruct (bytes_find_Some _ _ _ Hf) as (x & y & -> & _). eauto.
  - intros (x & y & Hs). destruct (bytes_find _ _) eqn:Hf; [done|].
    pose proof (bytes_find_None _ _ Hf) as Hn. destruct (as_bytes m ++ y) as [|c w] eqn:Hmy.
    + apply app_nil in Hmy as [Hm ->]. rewrite Hm in Hf. by destruct (as_bytes s).
    + specialize (Hn x (c :: w) Hs ltac:(done)). rewrite app_nil_r, <- Hmy, bytes_strip_app in Hn. done.
Qed.

Lemma str_replace_absent m r s : m <> "" -> contains m s = false -> str_replace m r s = s.
Proof.
  intros Hm Hc. unfold str_replace, str_is_empty. rewrite bool_decide_eq_false_2 by done.
  unfold contains, str_find in Hc. destruct (bytes_find _ _) eqn:Hf; [done|].
  unfold str_len. rewrite bytes_replace_nowhere by by apply bytes_find_None. apply from_as_bytes.
Qed.

(** *** Separators *)

Lemma sep_inj {A} (c : A) x x' y y' :
  c ∉ x -> c ∉ x' -> x ++ c :: y = x' ++ c :: y' -> x = x' /\ y = y'.
Proof.
  revert x'. induction x as [|a x IH]; intros [|a' x'] Hx Hx' H; simplify_eq/=; try done.
  - set_solver.
  - set_solver.
  - destruct (IH x') as [-> ->]; [set_solver..|done].
Qed.

Lemma last_sep_inj {A} (c : A) x x' y y' :
  c ∉ y -> c ∉ y' -> x ++ c :: y = x' ++ c :: y' -> x = x' /\ y = y'.
Proof.
  intros Hy Hy' H%(f_equal reverse). rewrite !reverse_app, !reverse_cons, <- !app_assoc in H. simpl in H.
  apply sep_inj in H as [H1%(inj reverse) H2%(inj reverse)]; [done|by rewrite elem_of_reverse..].
Qed.

(** *** Decimal text *)

Lemma pretty_N_char_digit n : is_ascii_digit (pretty_N_char n) = true.
Proof. destruct n as [|p]; [done|]. do 4 (destruct p as [p|p|]; try done). Qed.

Lemma pretty_N_go_digits x s : str_all is_ascii_digit s = true -> str_all is_ascii_digit (pretty_N_go x s) = true.
Proof.
  revert s. induction (N.lt_wf_0 x) as [x _ IH]; intros s Hs. destruct (decide (0 < x)%N) as [Hx|Hx].
  - rewrite pretty_N_go_step by done. apply IH; [by apply N.div_lt|].
    change (is_ascii_digit (pretty_N_char (x `mod` 10)) && str_all is_ascii_digit s = true).
    by rewrite Hs, pretty_N_char_digit.
  - assert (x = 0%N) as -> by lia. by rewrite pretty_N_go_0.
Qed.

Lemma pretty_N_go_nonempty x s : s <> "" -> pretty_N_go x s <> "".
Proof.
  revert s. induction (N.lt_wf_0 x) as [x _ IH]; intros s Hs. destruct (decide (0 < x)%N) as [Hx|Hx].
  - rewrite pretty_N_go_step by done. by apply IH; [apply N.div_lt|].
  - assert (x = 0%N) as -> by lia. by rewrite pretty_N_go_0.
Qed.

Lemma pretty_N_digits (x : N) : str_all is_ascii_digit (pretty x) = true.
Proof. unfold pretty, pretty_N. case_decide; [done|]. by apply pretty_N_go_digits. Qed.

Lemma pretty_N_nonempty (n : N) : as_bytes (pretty n) <> [].
Proof.
  intros He. assert (Hp : pretty n = "") by by rewrite <- (from_as_bytes (pretty n)), He.
  revert Hp. unfold pretty, pretty_N. case_decide; [done|].
  rewrite pretty_N_go_step by lia. by apply pretty_N_go_nonempty.
Qed.

(** The number a text of digits stands for. *)
Fixpoint decimal_value (acc : N) (s : string) : N :=
  match s with
  | EmptyString => acc
  | String c s => decimal_value (acc * 10 + (N_of_ascii c - 48)) s
  end.

Lemma pretty_N_char_value n : (n < 10)%N -> (N_of_ascii (pretty_N_char n) - 48 = n)%N.
Proof. intros Hn. destruct n as [|p]; [done|]. do 4 (destruct p as [p|p|]; try done; try lia). Qed.

Lemma decimal_value_go x s : decimal_value 0 (pretty_N_go x s) = decimal_value x s.
Proof.
  revert s. induction (N.lt_wf_0 x) as [x _ IH]; intros s. destruct (decide (0 < x)%N) as [Hx|Hx].
  - rewrite pretty_N_go_step, IH by (done || by apply N.div_lt). cbn [decimal_value].
    rewrite pretty_N_char_value by by apply N.mod_lt. f_equal. rewrite N.mul_comm. symmetry. by apply N.div_mod.
  - assert (x = 0%N) as -> by lia. by rewrite pretty_N_go_0.
Qed.

Lemma decimal_value_pretty (n : N) : decimal_value 0 (pretty n) = n.
Proof. unfold pretty, pretty_N. case_decide; [by subst|]. by rewrite decimal_value_go. Qed.

Lemma decimal_value_zeros k s : decimal_value 0 (from_bytes (replicate k "0"%char ++ as_bytes s)) = decimal_value 0 s.
Proof. induction k as [|k IH]; [by rewrite app_nil_l, from_as_bytes|done]. Qed.

(** *** Characters *)

Definition starts_char (b : bytes) : Prop := forall c r, b = c :: r -> is_continuation c = false.

Lemma chars_head c b : exists x r, chars (c :: b) = (c :: x) :: r.
Proof. simpl. destruct (chars b) as [|[|d x] r]; eauto. destruct (is_continuation d); eauto. Qed.

Lemma chars_plain b : Forall (fun c => is_continuation c = false) b -> chars b = (fun c => [c]) <$> b.
Proof.
  induction 1 as [|c b Hc Hb IH]; [done|]. simpl. rewrite IH. destruct b as [|d b]; [done|]. simpl.
  apply Forall_cons in Hb as [-> _]. done.
Qed.

(** Text without white space is its own [trim]. *)
Lemma drop_while_none {A} (p : A -> bool) l : Forall (fun x => p x = false) l -> drop_while p l = l.
Proof. by destruct 1 as [|x l Hx _]; cbn; [|rewrite Hx]. Qed.

Lemma trim_dense s : Forall (fun c => is_continuation c = false /\ is_whitespace [c] = false) (as_bytes s) -> trim s = s.
Proof.
  intros [Hc Hw]%Forall_and. unfold trim. rewrite chars_plain by done.
  assert (Hn : Forall (fun x => is_whitespace x = false) ((fun c => [c]) <$> as_bytes s)) by by apply Forall_fmap.
  rewrite (drop_while_none _ _ Hn), drop_while_none by by apply Forall_reverse. rewrite reverse_involutive.
  replace (mjoin ((fun c => [c]) <$> as_bytes s)) with (as_bytes s); [by rewrite from_as_bytes|].
  clear. induction (as_bytes s) as [|c l IH]; [done|]. change (c :: l = c :: mjoin ((fun c => [c]) <$> l)). by f_equal.
Qed.

Lemma mjoin_chars b : mjoin (chars b) = b.
Proof.
  induction b as [|c b IH]; [done|]. simpl. destruct (chars b) as [|[|d x] r]; simpl in *; [by rewrite <- IH..|].
  destruct (is_continuation d); simpl; by rewrite <- IH.
Qed.

Lemma chars_one a k b : Forall (fun c => is_continuation c = true) k -> starts_char b -> chars (a :: k ++ b) = (a :: k) :: chars b.
Proof.
  intros Hk Hb. revert a. induction Hk as [|c k Hc Hk IH]; intros a.
  - simpl. destruct b as [|d b]; [done|]. destruct (chars_head d b) as (x & r & He). rewrite He.
    by rewrite (Hb d b eq_refl).
  - change (chars (a :: (c :: k) ++ b)) with
      (match chars (c :: k ++ b) with
       | (d :: x) :: r => if is_continuation d then (a :: d :: x) :: r else [a] :: (d :: x) :: r
       | r => [a] :: r
       end). by rewrite IH, Hc.
Qed.

Lemma chars_app a b : starts_char b -> chars (a ++ b) = chars a ++ chars b.
Proof.
  intros Hb. induction a as [|c a IH]; [done|]. simpl. rewrite IH.
  destruct (chars a) as [|[|d x] r] eqn:Ha; simpl.
  - destruct b as [|d b]; [done|]. destruct (chars_head d b) as (x & r & ->). by rewrite (Hb d b eq_refl).
  - done.
  - by destruct (is_continuation d).
Qed.

(** A sequence of characters: each a byte with continuation bytes, and every
    one but the first not begun by one. *)
Fixpoint char_seq (l : list bytes) : Prop :=
  match l with
  | [] => True
  | c :: l => (exists a k, c = a :: k /\ Forall (fun c => is_continuation c = true) k) /\ starts_char (mjoin l) /\ char_seq l
  end.

Lemma chars_seq b : char_seq (chars b).
Proof.
  induction b as [|c b IH]; [done|]. simpl. destruct (chars b) as [|[|d x] r] eqn:He.
  - split; [by exists c, []|by split].
  - by destruct IH as [(? & ? & ? & _) _].
  - destruct IH as ((a & k & [= <- <-] & Hk) & Hs & Hr). destruct (is_continuation d) eqn:Hd.
    + split; [exists c, (d :: x); split; [done|by constructor]|by split].
    + split; [by exists c, []|]. split; [|by split; [exists d, x|split]]. intros e r' Hj. simpl in Hj. congruence.
Qed.

Lemma chars_mjoin l : char_seq l -> chars (mjoin l) = l.
Proof.
  induction l as [|c l IH]; [done|]. intros ((a & k & -> & Hk) & Hs & Hl). simpl mjoin.
  change (chars (a :: k ++ mjoin l) = (a :: k) :: l). rewrite chars_one by done. by rewrite IH.
Qed.

Lemma char_seq_app_r a b : char_seq (a ++ b) -> char_seq b.
Proof. induction a as [|c a IH]; [done|]. intros (_ & _ & Hs). by apply IH. Qed.

(** *** [span] *)

Section Span.
Context {A} (p : A -> bool).

Lemma span_split l a b : span p l = (a, b) ->
  l = a ++ b /\ Forall (fun x => p x = true) a /\ (forall x b', b = x :: b' -> p x = false).
Proof.
  revert a. induction l as [|x l IH]; intros a; simpl; [by intros [= <- <-]|].
  destruct (p x) eqn:Hx.
  - destruct (span p l) as [a' b']. intros [= <- <-]. destruct (IH a' eq_refl) as (-> & ? & ?). split_and!; [done|by constructor|done].
  - intros [= <- <-]. split_and!; [done|constructor|]. by intros y b' [= <- <-].
Qed.

Lemma span_all a b : Forall (fun x => p x = true) a -> span p (a ++ b) = (a ++ (span p b).1, (span p b).2).
Proof.
  induction a as [|x a IH]; intros Ha; simpl; [by destruct (span p b)|].
  apply Forall_cons in Ha as [Hx Ha]. rewrite Hx, IH by done. done.
Qed.

Lemma span_stop a x b : Forall (fun x => p x = true) a -> p x = false -> span p (a ++ x :: b) = (a, x :: b).
Proof. intros Ha Hx. rewrite span_all by done. simpl. by rewrite Hx, app_nil_r. Qed.

Lemma span_nil a : Forall (fun x => p x = true) a -> span p a = (a, []).
Proof. intros Ha. rewrite <- (app_nil_r a) at 1. rewrite span_all by done. simpl. by rewrite app_nil_r. Qed.
End Span.

(** Where characters begin. *)

Lemma boundary_starts text i : starts_char (as_bytes text) -> is_char_boundary text i = true ->
  starts_char (drop i (as_bytes text)).
Proof.
  intros H0 Hb c r Hc. unfold is_char_boundary in Hb.
  assert (Hi : as_bytes text !! i = Some c).
  { rewrite <- (Nat.add_0_r i), <- lookup_drop, Hc. done. }
  rewrite Hi in Hb. apply orb_true_iff in Hb as [Hb%bool_decide_eq_true|Hb%negb_true_iff]; [|done].
  subst i. by apply (H0 c r).
Qed.

Lemma starts_char_app a b : starts_char a -> starts_char b -> starts_char (a ++ b).
Proof. intros Ha Hb c r He. destruct a as [|d a]; [by apply (Hb c r)|]. simplify_eq/=. by apply (Ha c a). Qed.

Lemma starts_char_l a b : starts_char (a ++ b) -> starts_char a.
Proof. intros Hab c r ->. by apply (Hab c (r ++ b)). Qed.
