(* ===== verification/Utf8.v ===== *)
(** * Boundaries of characters in UTF-8

    In well-formed UTF-8 the bytes that do not continue a character are the
    ones that begin one, so an occurrence of one text in another lies between
    character boundaries. *)

From S2P Require Import Prelude Text.

(** The continuation bytes after a first byte. *)
Definition char_tail (c : ascii) : nat :=
  let n := byte_val c in
  if (n <=? 127)%Z then 0 else if (n <=? 223)%Z then 1 else if (n <=? 239)%Z then 2 else 3.

Lemma valid_utf8_fuel n k b : length b <= n -> n <= k -> valid_utf8_bytes k b = valid_utf8_bytes n b.
Proof.
  revert k b. induction n as [|n IH]; intros k b Hb Hk; [by destruct b, k; simpl in *; try lia|].
  destruct k as [|k]; [lia|]. destruct b as [|c b]; [done|]. cbn in Hb.
  assert (Hd : forall i, valid_utf8_bytes k (drop i b) = valid_utf8_bytes n (drop i b)).
  { intros i. apply IH; [rewrite length_drop|]; lia. }
  assert (H0 : valid_utf8_bytes k b = valid_utf8_bytes n b) by (apply IH; lia).
  cbn [valid_utf8_bytes]. by rewrite H0, !Hd.
Qed.

Lemma continuation_spec (x : option ascii) :
  ((128 <=? match x with Some d => byte_val d | None => 0 end) && (match x with Some d => byte_val d | None => 0 end <=? 191))%Z = true ->
  exists d, x = Some d /\ is_continuation d = true.
Proof.
  destruct x as [d|]; [|done]. intros [H1 H2]%andb_true_iff. exists d. split; [done|].
  unfold is_continuation. apply andb_true_iff. split; [done|]. apply Z.ltb_lt. apply Z.leb_le in H2. lia.
Qed.

Lemma valid_utf8_cons c b : valid_utf8 (c :: b) = true ->
  is_continuation c = false /\ (forall i, i < char_tail c -> exists d, b !! i = Some d /\ is_continuation d = true) /\
  valid_utf8 (drop (char_tail c) b) = true.
Proof.
  unfold valid_utf8. intros Hv. rewrite <- (valid_utf8_fuel (length (drop (char_tail c) b)) (length b)) by (rewrite ?length_drop; lia).
  simpl length in Hv. cbn [valid_utf8_bytes] in Hv. unfold char_tail, is_continuation.
  assert (Hn : (byte_val c <=? 127)%Z = true \/ (194 <= byte_val c)%Z ->
    ((128 <=? byte_val c) && (byte_val c <? 192))%Z = false).
  { intros [Hn%Z.leb_le|Hn]; apply andb_false_iff; [left; apply Z.leb_gt|right; apply Z.ltb_ge]; lia. }
  destruct (byte_val c <=? 127)%Z; [split_and!; [by auto|by intros i ?%Nat.nlt_0_r|done]|].
  destruct ((194 <=? byte_val c) && (byte_val c <=? 223))%Z eqn:H2.
  { apply andb_true_iff in H2 as [Hlo%Z.leb_le Hhi]. rewrite Hhi. apply andb_true_iff in Hv as [Hv0 Hv].
    split_and!; [by auto| |done]. intros i Hi. assert (i = 0) as -> by lia. by apply continuation_spec. }
  destruct ((224 <=? byte_val c) && (byte_val c <=? 239))%Z eqn:H3.
  { apply andb_true_iff in H3 as [Hlo%Z.leb_le Hhi]. rewrite Hhi, (proj2 (Z.leb_gt (byte_val c) 223)) by lia.
    rewrite !andb_true_iff in Hv. destruct Hv as ((((Hv0 & Hv1) & _) & _) & Hv).
    split_and!; [auto with lia| |done]. intros [|[|i]] Hi; [by apply continuation_spec, andb_true_iff..|lia]. }
  destruct ((240 <=? byte_val c) && (byte_val c <=? 244))%Z eqn:H4; [|done].
  apply andb_true_iff in H4 as [Hlo%Z.leb_le Hhi]. rewrite (proj2 (Z.leb_gt (byte_val c) 223)), (proj2 (Z.leb_gt (byte_val c) 239)) by lia.
  rewrite !andb_true_iff in Hv. destruct Hv as (((((Hv0 & Hv1) & Hv2) & _) & _) & Hv).
  split_and!; [auto with lia| |done]. intros [|[|[|i]]] Hi; [by apply continuation_spec, andb_true_iff..|lia].
Qed.

(** What begins at a character boundary of a valid text is valid, and so is
    what follows a valid text. *)
Lemma valid_utf8_suffix x r : valid_utf8 (x ++ r) = true -> starts_char r -> valid_utf8 r = true.
Proof.
  remember (length x) as n eqn:Hn. revert x Hn. induction (Nat.lt_wf_0 n) as [n _ IH].
  intros [|c x] Hn Hv Hr; [done|]. simpl in Hv, Hn. apply valid_utf8_cons in Hv as (_ & Hk & Hv).
  destruct (decide (char_tail c <= length x)) as [Hle|Hgt].
  - rewrite drop_app_le in Hv by done. eapply (IH _ _ (drop (char_tail c) x)); [done|done|done].
    Unshelve. rewrite length_drop. lia.
  - exfalso. destruct (Hk (length x)) as (d & Hd & Hc); [lia|].
    rewrite lookup_app_r, Nat.sub_diag in Hd by done. destruct r as [|e r]; [done|]. simplify_eq/=.
    by rewrite (Hr d r eq_refl) in Hc.
Qed.

Lemma valid_utf8_after m y : valid_utf8 (m ++ y) = true -> valid_utf8 m = true -> valid_utf8 y = true.
Proof.
  remember (length m) as n eqn:Hn. revert m Hn. induction (Nat.lt_wf_0 n) as [n _ IH].
  intros [|c m] Hn Hv Hm; [done|]. simpl in Hv, Hn. apply valid_utf8_cons in Hv as (_ & _ & Hv).
  apply valid_utf8_cons in Hm as (_ & Hk & Hm).
  assert (Hle : char_tail c <= length m).
  { destruct (char_tail c) as [|k]; [lia|]. destruct (Hk k) as (d & Hd%lookup_lt_Some & _); lia. }
  rewrite drop_app_le in Hv by done. eapply (IH _ _ (drop (char_tail c) m)); [done|done|done].
  Unshelve. rewrite length_drop. lia.
Qed.

Lemma valid_utf8_app a b : valid_utf8 a = true -> valid_utf8 b = true -> valid_utf8 (a ++ b) = true.
Proof.
  intros Ha Hb. remember (length a) as n eqn:Hn. revert a Hn Ha. induction (Nat.lt_wf_0 n) as [n _ IH].
  intros [|c x] Hn Ha; [done|]. simpl in Hn. pose proof (valid_utf8_cons _ _ Ha) as (_ & Hk & Hv).
  assert (Hle : char_tail c <= length x).
  { destruct (char_tail c) as [|k]; [lia|]. destruct (Hk k) as (d & Hd%lookup_lt_Some & _); lia. }
  assert (Hrest : valid_utf8_bytes (length (x ++ b)) (drop (char_tail c) (x ++ b)) = true).
  { rewrite (valid_utf8_fuel (length (drop (char_tail c) (x ++ b)))) by (rewrite ?length_drop; lia).
    rewrite drop_app_le by done. eapply (IH _ _ (drop (char_tail c) x)); [done|done]. Unshelve. rewrite length_drop. lia. }
  assert (Hsame : forall i, i < char_tail c -> (x ++ b) !! i = x !! i) by (intros i Hi; apply lookup_app_l; lia).
  unfold valid_utf8 in *. cbn [app length valid_utf8_bytes] in *. unfold char_tail in Hrest, Hsame.
  destruct (byte_val c <=? 127)%Z; [done|].
  destruct ((194 <=? byte_val c) && (byte_val c <=? 223))%Z eqn:H2.
  { apply andb_true_iff in H2 as [_ Hhi]. rewrite Hhi in Hrest, Hsame. rewrite (Hsame 0), Hrest by lia. by apply andb_true_iff in Ha as [-> _]. }
  destruct ((224 <=? byte_val c) && (byte_val c <=? 239))%Z eqn:H3.
  { apply andb_true_iff in H3 as [Hlo%Z.leb_le Hhi]. rewrite Hhi, (proj2 (Z.leb_gt (byte_val c) 223)) in Hrest, Hsame by lia.
    rewrite (Hsame 0), (Hsame 1), Hrest by lia. apply andb_true_iff in Ha as [Ha _]. by rewrite Ha. }
  destruct ((240 <=? byte_val c) && (byte_val c <=? 244))%Z eqn:H4; [|done].
  apply andb_true_iff in H4 as [Hlo%Z.leb_le _].
  rewrite (proj2 (Z.leb_gt (byte_val c) 223)), (proj2 (Z.leb_gt (byte_val c) 239)) in Hrest, Hsame by lia.
  rewrite (Hsame 0), (Hsame 1), (Hsame 2), Hrest by lia. apply andb_true_iff in Ha as [Ha _]. by rewrite Ha.
Qed.

Lemma valid_starts_char b : valid_utf8 b = true -> starts_char b.
Proof. intros Hv c r ->. by apply valid_utf8_cons in Hv as [? _]. Qed.

Lemma starts_char_boundary s i : i <= str_len s -> starts_char (drop i (as_bytes s)) -> is_char_boundary s i = true.
Proof.
  intros Hi Hs. unfold is_char_boundary, str_len in *. destruct (as_bytes s !! i) as [c|] eqn:Hc.
  - apply drop_S in Hc. rewrite (Hs _ _ Hc). apply orb_true_r.
  - apply lookup_ge_None in Hc. apply orb_true_iff. right. apply bool_decide_eq_true. lia.
Qed.

(** [str::find] of a non-empty text finds at character boundaries; the empty
    text is found at the start. *)
Lemma str_find_slice m s i : valid_utf8 (as_bytes s) = true -> valid_utf8 (as_bytes m) = true ->
  str_find m s = Some i -> str_slice s i (i + str_len m) = Some m.
Proof.
  intros Hs Hm Hf. destruct (decide (as_bytes m = [])) as [Hem|Hne].
  { assert (Hi : i = 0).
    { unfold str_find in Hf. rewrite Hem in Hf. destruct (as_bytes s); simpl in Hf; congruence. }
    subst i. unfold str_slice, str_len. rewrite Hem. simpl. unfold is_char_boundary.
    rewrite <- (from_as_bytes m), Hem. by destruct (as_bytes s !! 0). }
  unfold str_find in Hf. destruct (bytes_find_Some _ _ _ Hf) as (x & y & He & Hi).
  assert (Hd1 : drop i (as_bytes s) = as_bytes m ++ y) by (by rewrite He, <- Hi, drop_app_length).
  assert (Hd2 : drop (i + str_len m) (as_bytes s) = y).
  { rewrite <- drop_drop, Hd1. unfold str_len. by rewrite drop_app_length. }
  assert (Hlen : i + str_len m <= str_len s).
  { unfold str_len. rewrite He, !length_app. lia. }
  assert (Hst : starts_char (as_bytes m ++ y)).
  { intros c r Hc. destruct (as_bytes m) as [|d m'] eqn:Hmb; [done|]. simplify_eq/=. by apply (valid_starts_char _ Hm c m'). }
  rewrite He in Hs. pose proof (valid_utf8_after _ _ (valid_utf8_suffix _ _ Hs Hst) Hm) as Hy.
  unfold str_slice. rewrite bool_decide_eq_true_2, !starts_char_boundary; [|done|rewrite Hd2; by apply valid_starts_char|lia|by rewrite Hd1|lia].
  simpl. by rewrite Hd1, Nat.add_sub', (take_app_length (as_bytes m)), from_as_bytes.
Qed.

(** ** What a search found, and what it did not *)

Lemma bytes_find_first m b i : bytes_find m b = Some i ->
  is_some (bytes_strip m (drop i b)) = true /\ forall j, j < i -> bytes_strip m (drop j b) = None.
Proof.
  revert i. induction b as [|c b IH]; intros i; simpl.
  - destruct (bytes_strip m []) eqn:Hs; simpl; [|done]. intros [= <-]. split; [by rewrite drop_0, Hs|lia].
  - destruct (bytes_strip m (c :: b)) eqn:Hs; simpl.
    + intros [= <-]. split; [by rewrite drop_0, Hs|lia].
    + intros (k & Hk & ->)%fmap_Some. destruct (IH _ Hk) as [Hf Hn]. split; [done|]. intros [|j] Hj; [done|apply Hn; lia].
Qed.

Lemma bytes_find_none m b : bytes_find m b = None -> forall j, bytes_strip m (drop j b) = None.
Proof.
  induction b as [|c b IH]; simpl; intros Hf j.
  - rewrite drop_nil. by destruct (bytes_strip m []).
  - destruct (bytes_strip m (c :: b)) eqn:Hs; [done|]. apply fmap_None in Hf. destruct j as [|j]; [done|by apply IH].
Qed.

(** ** ASCII text *)

Lemma is_ascii_forall s : is_ascii s = true <-> Forall (fun c => byte_val c < 128)%Z (as_bytes s).
Proof.
  unfold is_ascii, str_all. rewrite List.forallb_forall, List.Forall_forall.
  split; intros Hs c Hc; apply Z.ltb_lt; by apply Hs.
Qed.

Lemma is_ascii_app a b : is_ascii (a +:+ b) = is_ascii a && is_ascii b.
Proof. unfold is_ascii, str_all. by rewrite as_bytes_app, forallb_app. Qed.

Lemma ascii_boundary s i : is_ascii s = true -> i <= str_len s -> is_char_boundary s i = true.
Proof.
  intros Ha%is_ascii_forall Hi. apply starts_char_boundary; [done|]. intros c r Hd.
  apply (Forall_drop _ i) in Ha. rewrite Hd in Ha. apply Forall_cons_1 in Ha as [Hc _].
  unfold is_continuation. by rewrite (proj2 (Z.leb_gt _ _)) by lia.
Qed.

Lemma ascii_slice s a b : is_ascii s = true -> a <= b -> b <= str_len s ->
  str_slice s a b = Some (from_bytes (take (b - a) (drop a (as_bytes s)))).
Proof. intros Hs Hab Hb. unfold str_slice. by rewrite bool_decide_eq_true_2, !ascii_boundary by (done || lia). Qed.

Lemma ascii_from s a : is_ascii s = true -> a <= str_len s -> str_from s a = Some (from_bytes (drop a (as_bytes s))).
Proof.
  intros Hs Ha. unfold str_from. rewrite ascii_slice by (done || lia). do 2 f_equal.
  apply take_ge. rewrite length_drop. unfold str_len. lia.
Qed.

Lemma lowercase_len s : str_len (to_ascii_lowercase s) = str_len s.
Proof. unfold str_len, to_ascii_lowercase. by rewrite as_from_bytes, length_map. Qed.

Lemma is_ascii_lowercase_text s : is_ascii s = true -> is_ascii (to_ascii_lowercase s) = true.
Proof.
  rewrite !is_ascii_forall. unfold to_ascii_lowercase. rewrite as_from_bytes. intros Hs. apply Forall_map.
  eapply Forall_impl; [exact Hs|]. intros c Hc. cbv beta in *. clear Hs. revert Hc.
  destruct c as [[] [] [] [] [] [] [] []]; vm_compute; by intros.
Qed.

Lemma is_ascii_uppercase_text s : is_ascii s = true -> is_ascii (to_ascii_uppercase s) = true.
Proof.
  rewrite !is_ascii_forall. unfold to_ascii_uppercase. rewrite as_from_bytes. intros Hs. apply Forall_map.
  eapply Forall_impl; [exact Hs|]. intros c Hc. cbv beta in *. clear Hs. revert Hc.
  destruct c as [[] [] [] [] [] [] [] []]; vm_compute; by intros.
Qed.

(** The pieces of a text have its bytes. *)
Lemma chars_pieces (P : ascii -> Prop) b x : Forall P b -> x ∈ chars b -> Forall P x.
Proof.
  intros Hb Hx. rewrite <- (mjoin_chars b) in Hb. rewrite Forall_forall in *. intros c Hc. apply Hb.
  apply list_elem_of_join. by exists x.
Qed.

Lemma words_pieces (P : ascii -> Prop) word cs w :
  Forall P word -> (forall x, x ∈ cs -> Forall P x) -> w ∈ words word cs -> Forall P (as_bytes w).
Proof.
  assert (Hflush : forall word, Forall P word -> w ∈ (if bool_decide (word = []) then [] else [from_bytes word]) -> Forall P (as_bytes w)).
  { intros word' Hw. destruct (bool_decide _); [by intros ?%elem_of_nil|]. intros ->%list_elem_of_singleton. by rewrite as_from_bytes. }
  revert word. induction cs as [|c cs IH]; intros word Hw Hcs; simpl; [by apply Hflush|].
  assert (Hc : Forall P c) by (apply Hcs; left). assert (Hcs' : forall x, x ∈ cs -> Forall P x) by (intros x Hx; apply Hcs; by right).
  destruct (is_whitespace c); [|apply IH; [by apply Forall_app|done]].
  rewrite elem_of_app. intros [Hin|Hin]; [by apply (Hflush word)|]. apply (IH []); [constructor|done..].
Qed.

Lemma split_whitespace_ascii s w : is_ascii s = true -> w ∈ split_whitespace s -> is_ascii w = true.
Proof.
  rewrite !is_ascii_forall. intros Hs. apply words_pieces; [constructor|]. intros x. by apply chars_pieces.
Qed.
