(* ===== verification/Crates.v ===== *)
(** * Third-party crates as interfaces

    Code that is not part of the repository is an argument of the
    definitions that call it: one class per crate, holding the functions the
    source calls.  What the source relies on is stated separately, as classes
    of documented laws; each law has an instance in [Concrete.v]. *)

From S2P Require Import Prelude BTree Json.

(** [regex]: compile a pattern, match a text. *)
Class RegexCrate := {
  Regex : Type;
  regex_new : string -> option Regex;
  is_match : Regex -> string -> bool;
}.

(** [sha2], [hmac], [hex]: digests are byte strings. *)
Class HashCrates := {
  sha256 : bytes -> bytes;
  hmac_sha256 : bytes -> bytes -> bytes;
  hex_encode : bytes -> string;
  hex_decode : string -> option bytes;
}.

Definition is_hex_char (c : ascii) : bool := is_ascii_digit c || in_range "a"%char c "f"%char.

(** SHA-256 and HMAC-SHA256 give 32 bytes; [hex::encode] gives two lowercase
    digits per byte, which [hex::decode] reads back, and the text it reads is
    the encoding of what it gives (for lowercase text of even length). *)
Class HashLaws `{HashCrates} := {
  sha256_length b : length (sha256 b) = 32;
  hmac_length k b : length (hmac_sha256 k b) = 32;
  hex_encode_length b : length (as_bytes (hex_encode b)) = 2 * length b;
  hex_encode_lower b : str_all is_hex_char (hex_encode b) = true;
  hex_decode_encode b : hex_decode (hex_encode b) = Some b;
  hex_decode_lower s n : length (as_bytes s) = 2 * n -> str_all is_hex_char s = true ->
    exists b, hex_decode s = Some b /\ hex_encode b = s;
  hex_encode_is_lower b : hex_encode b = hex_lower b;
}.

(** [serde_json] text and [serde_json_canonicalizer] (RFC 8785, "JCS"). *)
Class JsonCrates := {
  json_number : string -> option number;   (* [from_str::<Number>] *)
  json_from_slice : bytes -> option value; (* [from_slice::<Value>] *)
  json_no_duplicates : bytes -> bool;      (* the text decodes with no duplicate object key *)
  jcs : value -> string;                   (* [serde_json_canonicalizer::to_string] *)
  number_to_string : number -> string;     (* [Number]'s [Display] *)
}.

(** [unicode_normalization]: NFC. *)
Class UnicodeCrate := { nfc_string : string -> string }.

(** A value without numbers: RFC 8785 leaves nothing of it to rounding. *)
Fixpoint number_free (v : value) : bool :=
  match v with
  | VNumber _ => false
  | VArray a => forallb number_free a
  | VObject o => forallb (fun kv => number_free kv.2) o
  | _ => true
  end.

(** RFC 8785 text determines the strings, the elements of an array and the
    members of an object, and is JSON with each member name once. *)
Class JsonLaws `{JsonCrates} := {
  jcs_string_inj s t : jcs (VString s) = jcs (VString t) -> s = t;
  jcs_array_inj a b : jcs (VArray a) = jcs (VArray b) -> map jcs a = map jcs b;
  jcs_object_inj o p :
    StronglySorted str_lt (BTree.keys o) -> StronglySorted str_lt (BTree.keys p) ->
    jcs (VObject o) = jcs (VObject p) ->
    map (fun kv => (kv.1, jcs kv.2)) o = map (fun kv => (kv.1, jcs kv.2)) p;
  json_reads_jcs v : value_wf v = true -> number_free v = true ->
    json_from_slice (as_bytes (jcs v)) = Some v /\ json_no_duplicates (as_bytes (jcs v)) = true;
}.

(** [base64] (standard alphabet) and [ed25519_dalek]. *)
Class SignatureCrates := {
  base64_encode : bytes -> string;
  base64_decode : string -> option bytes;
  SigningKey : Type;
  signing_key_from_bytes : bytes -> SigningKey;
  signing_key_to_bytes : SigningKey -> bytes;
  verifying_key : SigningKey -> bytes;
  ed25519_sign : SigningKey -> bytes -> bytes;
  ed25519_verify_strict : bytes -> bytes -> bytes -> bool; (* key, message, 64-byte signature *)
}.

(** Signatures verify under their own key, and base64 round-trips. *)
Class SignatureLaws `{SignatureCrates} := {
  base64_round_trip b : base64_decode (base64_encode b) = Some b;
  ed25519_sign_verifies k m : ed25519_verify_strict (verifying_key k) m (ed25519_sign k m) = true;
  ed25519_sign_length k m : length (ed25519_sign k m) = 64;
}.

(** [chrono]: an instant is its nanoseconds since the Unix epoch. *)
Class TimeCrate := {
  parse_from_rfc3339 : string -> option Z;
}.

(** [chrono]: [to_rfc3339_opts(Secs, true)] of a UTC instant. *)
Class ClockCrate := {
  to_rfc3339_secs : Z -> string;
}.

(** [uuid]: the hyphenated lowercase text of a UUID's 16 bytes. *)
Class UuidCrate := {
  hyphenated : bytes -> string;
}.

(** [strsim]: the Jaro-Winkler similarity of two strings. *)
Class SimilarityCrate := {
  jaro_winkler : string -> string -> f64;
}.

(** [aes_gcm]: [encrypt] and [decrypt] under a key and a nonce ([None] for a
    key of the wrong length or a ciphertext that does not authenticate). *)
Class AeadCrate := {
  aead_encrypt : bytes -> bytes -> bytes -> option bytes;
  aead_decrypt : bytes -> bytes -> bytes -> option bytes;
}.
Class AeadLaws `{AeadCrate} := {
  aead_round_trip k n p : length k = 32 -> length n = 12 ->
    exists c, aead_encrypt k n p = Some c /\ aead_decrypt k n c = Some p;
}.

Lemma hex_encode_inj `{HashLaws} a b : hex_encode a = hex_encode b -> a = b.
Proof. intros He. apply (inj Some). by rewrite <- !hex_decode_encode, He. Qed.
