(* ===== verification/Concrete.v ===== *)
(** * Concrete stand-ins for the third-party crates

    Small executable instances of the interfaces of [Crates.v], used only to
    evaluate the model on concrete inputs and to show that the stated laws can
    hold.  They are not models of the crates: a pattern matches exactly its own
    text, a digest is a polynomial checksum on 32 bytes, a signature is a keyed
    checksum, an instant is written in decimal nanoseconds. *)

From stdpp Require Import pretty.
From Stdlib Require Import SpecFloat.
From S2P Require Import Prelude Text BTree Json Crates.

Module Toy.

(** ** Hexadecimal *)

Definition digit_of_hex (c : ascii) : N :=
let n := N_of_ascii c in if (n <? 58)%N then n - 48 else n - 87.
Fixpoint unhex (b : bytes) : option bytes :=
match b with
| [] => Some []
| x :: y :: b => r ← unhex b; Some (ascii_of_N (digit_of_hex x * 16 + digit_of_hex y) :: r)
| [_] => None
end.

Lemma unhex_byte c b : unhex (hex_byte c ++ b) = (fun r => c :: r) <$> unhex b.
Proof.
simpl. destruct (unhex b) as [r|]; [|done]. simpl. do 2 f_equal.
by destruct c as [[] [] [] [] [] [] [] []].
Qed.

Lemma unhex_hex b : unhex (b ≫= hex_byte) = Some b.
Proof. induction b as [|c b IH]; [done|]. rewrite bind_cons, unhex_byte, IH. done. Qed.

Definition hex_digits : list ascii := map (fun n => hex_digit (N.of_nat n)) (seq 0 16).

Lemma hex_char_elem c : is_hex_char c = true -> c ∈ hex_digits.
Proof. destruct c as [[] [] [] [] [] [] [] []]; first [discriminate | intros _; apply list_elem_of_In; vm_compute; tauto]. Qed.

Lemma hex_digits_back :
Forall (fun x => Forall (fun y => hex_byte (ascii_of_N (digit_of_hex x * 16 + digit_of_hex y)) = [x; y]) hex_digits) hex_digits.
Proof. refine (proj1 (bool_decide_eq_true _) _). vm_compute. reflexivity. Qed.

Lemma hex_byte_lower c : forallb is_hex_char (hex_byte c) = true.
Proof. by destruct c as [[] [] [] [] [] [] [] []]. Qed.

Lemma unhex_lower n b : length b = 2 * n -> forallb is_hex_char b = true ->
exists r, unhex b = Some r /\ r ≫= hex_byte = b.
Proof.
revert b. induction n as [|n IH]; intros [|x [|y b]] Hl Hh; simpl in Hl; try lia; [by exists []|].
simpl in Hh. apply andb_true_iff in Hh as [Hx [Hy Hh]%andb_true_iff].
destruct (IH b) as (r & Hr & Hb); [lia|done|]. exists (ascii_of_N (digit_of_hex x * 16 + digit_of_hex y) :: r).
split; [cbn [unhex]; by rewrite Hr|]. rewrite bind_cons, Hb.
pose proof hex_digits_back as Hback. rewrite Forall_forall in Hback.
specialize (Hback x (hex_char_elem x Hx)). rewrite Forall_forall in Hback.
by rewrite (Hback y (hex_char_elem y Hy)).
Qed.

(** ** Digests and signatures *)

Definition byte_of (n : Z) : ascii := ascii_of_N (Z.to_N (n mod 256)).

Fixpoint little_endian (k : nat) (n : Z) : bytes :=
match k with O => [] | S k => byte_of n :: little_endian k (n / 256) end.

Definition checksum (b : bytes) : Z :=
fold_left (fun h a => ((h * 31 + byte_val a + 1) mod 65521)%Z) b 7%Z.

Lemma little_endian_length k n : length (little_endian k n) = k.
Proof. revert n. induction k as [|k IH]; intros n; simpl; [done|]. by rewrite IH. Qed.

#[export] Instance toy_hashes : HashCrates := {|
sha256 b := little_endian 32 (checksum b);
hmac_sha256 k b := little_endian 32 (checksum (k ++ b));
hex_encode := hex_lower;
hex_decode s := unhex (as_bytes s);
|}.

#[export] Instance toy_hash_laws : HashLaws.
Proof.
constructor.
- intros b. apply little_endian_length.
- intros k b. apply little_endian_length.
- intros b. simpl. unfold hex_lower. rewrite as_from_bytes.
  induction b as [|c b IH]; [done|]. rewrite bind_cons, length_app, IH. simpl. lia.
- intros b. simpl. unfold hex_lower, str_all. rewrite as_from_bytes.
  induction b as [|c b IH]; [done|]. rewrite bind_cons, forallb_app, IH. by rewrite hex_byte_lower.
- intros b. simpl. unfold hex_lower. by rewrite as_from_bytes, unhex_hex.
- intros s n Hl Hh. simpl. unfold hex_lower. destruct (unhex_lower n (as_bytes s)) as (r & Hr & Hb); [done|done|].
  exists r. by rewrite Hr, Hb, from_as_bytes.
- done.
Qed.

#[export] Instance toy_signatures : SignatureCrates := {|
base64_encode := hex_lower;
base64_decode s := unhex (as_bytes s);
SigningKey := bytes;
verifying_key k := k;
signing_key_from_bytes b := b;
signing_key_to_bytes k := k;
ed25519_sign k m := little_endian 64 (checksum (k ++ m));
ed25519_verify_strict k m s := bool_decide (s = little_endian 64 (checksum (k ++ m)));
|}.

#[export] Instance toy_signature_laws : SignatureLaws.
Proof.
constructor.
- intros b. simpl. unfold hex_lower. by rewrite as_from_bytes, unhex_hex.
- intros k m. apply bool_decide_eq_true. done.
- intros k m. apply little_endian_length.
Qed.

(** ** Patterns, numbers, times and JSON text *)

#[export] Instance toy_regex : RegexCrate := {|
Regex := string;
regex_new s := if str_contains "[" s then None else Some s;
is_match re s := bool_decide (re = s);
|}.

Fixpoint decimal (acc : Z) (s : string) : option Z :=
match s with
| EmptyString => Some acc
| String c s => if is_ascii_digit c then decimal (acc * 10 + (byte_val c - 48)) s else None
end.
Definition decimal_text (s : string) : option Z := if str_is_empty s then None else decimal 0 s.

(** A time is written as its number, a UUID as its bytes in hexadecimal. *)
#[export] Instance toy_clock : ClockCrate := {| to_rfc3339_secs t := pretty (t / 1000000000)%Z |}.
#[export] Instance toy_uuid : UuidCrate := {| hyphenated := hex_lower |}.

#[export] Instance toy_time : TimeCrate := {| parse_from_rfc3339 := decimal_text |}.

(** JSON text is the bits of an injective encoding of the value. *)
Definition f64_code (f : f64) : (bool + bool) + (unit + bool * positive * Z) :=
match f with
| S754_zero b => inl (inl b)
| S754_infinity b => inl (inr b)
| S754_nan => inr (inl ())
| S754_finite b m e => inr (inr (b, m, e))
end.
Definition f64_uncode (c : (bool + bool) + (unit + bool * positive * Z)) : f64 :=
match c with
| inl (inl b) => S754_zero b
| inl (inr b) => S754_infinity b
| inr (inl _) => S754_nan
| inr (inr (b, m, e)) => S754_finite b m e
end.

Abbreviation leaf := ((unit + bool) + ((Z + Z) + ((bool + bool) + (unit + bool * positive * Z))) + string)%type.

Definition number_code (n : number) : leaf :=
inl (inr match n with PosInt n => inl (inl n) | NegInt n => inl (inr n) | Float f => inr (f64_code f) end).

Fixpoint tree_of (v : value) : gen_tree leaf :=
match v with
| VNull => GenLeaf (inl (inl (inl ())))
| VBool b => GenLeaf (inl (inl (inr b)))
| VNumber n => GenLeaf (number_code n)
| VString s => GenLeaf (inr s)
| VArray a => GenNode 0 (map tree_of a)
| VObject o => GenNode 1 (map (fun kv => GenNode 2 [GenLeaf (inr kv.1); tree_of kv.2]) o)
end.

Fixpoint value_of (t : gen_tree leaf) : value :=
match t with
| GenLeaf (inl (inl (inl _))) => VNull
| GenLeaf (inl (inl (inr b))) => VBool b
| GenLeaf (inl (inr (inl (inl n)))) => VNumber (PosInt n)
| GenLeaf (inl (inr (inl (inr n)))) => VNumber (NegInt n)
| GenLeaf (inl (inr (inr c))) => VNumber (Float (f64_uncode c))
| GenLeaf (inr s) => VString s
| GenNode 0 l => VArray (map value_of l)
| GenNode _ l =>
    VObject (map (fun t => match t with
                           | GenNode _ [GenLeaf (inr k); t] => (k, value_of t)
                           | _ => (EmptyString, VNull)
                           end) l)
end.

Lemma value_of_tree v : value_of (tree_of v) = v.
Proof.
induction v as [|b|n|s|a IH|o IH] using value_ind; simpl; try done.
- by destruct n as [| |[]].
- f_equal. rewrite map_map. induction IH as [|x a Hx _ IHa]; [done|]. simpl. by rewrite Hx, IHa.
- f_equal. rewrite map_map. induction IH as [|[k x] o Hx _ IHo]; [done|]. simpl in *. by rewrite Hx, IHo.
Qed.

Fixpoint bits (p : positive) : string :=
match p with
| xH => ""
| xO p => String "0" (bits p)
| xI p => String "1" (bits p)
end.
Fixpoint unbits (s : string) : positive :=
match s with
| EmptyString => xH
| String c s => if decide (c = "0"%char) then xO (unbits s) else xI (unbits s)
end.
Lemma unbits_bits p : unbits (bits p) = p.
Proof. induction p as [p IH|p IH|]; simpl; by rewrite ?IH. Qed.

Definition value_text (v : value) : string := bits (encode (tree_of v)).

Lemma value_text_inj v w : value_text v = value_text w -> v = w.
Proof.
unfold value_text. intros H. rewrite <- (value_of_tree v), <- (value_of_tree w). f_equal.
apply (inj encode). by rewrite <- (unbits_bits (encode (tree_of v))), H, unbits_bits.
Qed.

#[export] Instance toy_json : JsonCrates := {|
json_number s := PosInt <$> decimal_text s;
json_from_slice b := value_of <$> decode (unbits (from_bytes b));
json_no_duplicates _ := true;
jcs := value_text;
number_to_string n := match n with PosInt n | NegInt n => pretty n | Float _ => "" end;
|}.

#[export] Instance toy_unicode : UnicodeCrate := {| nfc_string s := s |}.

#[export] Instance toy_json_laws : JsonLaws.
Proof.
constructor.
- intros s t H. by apply value_text_inj in H as [= ->].
- intros a b H. by apply value_text_inj in H as [= ->].
- intros o p _ _ H. by apply value_text_inj in H as [= ->].
- intros v _ _. split; [|done]. simpl. unfold value_text.
  by rewrite from_as_bytes, unbits_bits, decode_encode; simpl; rewrite value_of_tree.
Qed.

(** ** Case, hash maps, similarity and sealing *)

#[export] Instance toy_case : CaseMapping :=
{| to_uppercase := to_ascii_uppercase; to_lowercase := to_ascii_lowercase |}.
#[export] Instance toy_case_laws : CaseLaws.
Proof. by constructor. Qed.

#[export] Instance toy_order : HashOrder := {| hm_iter _ m := map_to_list m |}.
#[export] Instance toy_order_laws : HashOrderLaws.
Proof. by constructor. Qed.

(** Two texts are similar when one begins with the other. *)
#[export] Instance toy_similarity : SimilarityCrate := {|
jaro_winkler a b := if starts_with a b || starts_with b a then f64_of_Z 1 else f64_of_Z 0;
|}.

(** The ciphertext is the plaintext behind a tag of the key and the nonce. *)
#[export] Instance toy_aead : AeadCrate := {|
aead_encrypt k n p := if bool_decide (length k = 32) then Some (little_endian 4 (checksum (k ++ n)) ++ p) else None;
aead_decrypt k n c := bytes_strip (little_endian 4 (checksum (k ++ n))) c;
|}.
#[export] Instance toy_aead_laws : AeadLaws.
Proof.
constructor. intros k n p Hk _. cbn [aead_encrypt aead_decrypt toy_aead]. rewrite bool_decide_eq_true_2 by done.
eexists. split; [done|]. apply bytes_strip_app.
Qed.

End Toy.
