(* ===== verification/Reference.v ===== *)
(** * Format identifiers and artifact references

    [crates/cloakpipe-release/src/namespace.rs] ([Module Namespace]) and
    [reference.rs] ([Module Reference]): which [apiVersion] is read and under
    which domain it is hashed, and the grammar of [<kind>:<name>@<version>]. *)

From S2P Require Import Prelude BTree Json Crates.

Module Namespace.

Inductive t := Current | Legacy.

#[global] Instance t_eq_dec : EqDecision t.
Proof. solve_decision. Defined.

Definition ALL : list t := [Current; Legacy].
Definition pick (ns : t) (current legacy : string) : string :=
  match ns with Current => current | Legacy => legacy end.

Definition domain ns := pick ns "cloakpipe.co" "cloakpipe.dev".
Definition api_version ns := pick ns "cloakpipe.co/v1alpha1" "cloakpipe.dev/v1alpha1".
Definition agent_release_hash_domain ns := pick ns "cloakpipe.co/agent-release/v1" "cloakpipe.dev/agent-release/v1".
Definition evaluation_run_hash_domain ns := pick ns "cloakpipe.co/evaluation-run/v1" "cloakpipe.dev/evaluation-run/v1".
Definition certification_policy_hash_domain ns :=
  pick ns "cloakpipe.co/certification-policy/v1" "cloakpipe.dev/certification-policy/v1".
Definition tool_contract_hash_domain ns := pick ns "cloakpipe.co/tool-contract/v1" "cloakpipe.dev/tool-contract/v1".
Definition release_audit_pack_signing_domain ns :=
  pick ns "cloakpipe.co/release-audit-pack/v1alpha1" "cloakpipe.dev/release-audit-pack/v1alpha1".
Definition agent_release_predicate_type ns :=
  pick ns "https://cloakpipe.co/attestations/agent-release/v1alpha1"
    "https://cloakpipe.dev/attestations/agent-release/v1alpha1".
Definition certification_predicate_type ns :=
  pick ns "https://cloakpipe.co/attestations/certification/v1alpha1"
    "https://cloakpipe.dev/attestations/certification/v1alpha1".

Definition TOOL_CALL_FINGERPRINT_DOMAIN : string := "cloakpipe.co/tool-call/v1".
Definition OPERATION_ID_DOMAIN : string := "cloakpipe.co/operation/v1".
Definition IDEMPOTENCY_KEY_OPERATION_ID_DOMAIN : string := "cloakpipe.co/operation/idempotency-key/v1".
Definition APPROVAL_PREDICATE_TYPE : string := "https://cloakpipe.co/attestations/approval/v1alpha1".

(** [Namespace::of_api_version], [for_hashing], [is_known_api_version] *)
Definition of_api_version (v : string) : option t :=
  snd <$> list_find (fun ns => api_version ns = v) ALL.
Definition for_hashing (v : string) : t := default Current (of_api_version v).
Definition is_known_api_version (v : string) : bool := is_some (of_api_version v).

Definition is_known_agent_release_predicate_type (p : string) : bool :=
  existsb (fun ns => bool_decide (agent_release_predicate_type ns = p)) ALL.
Definition is_known_certification_predicate_type (p : string) : bool :=
  existsb (fun ns => bool_decide (certification_predicate_type ns = p)) ALL.

Lemma of_api_version_spec v ns : of_api_version v = Some ns <-> v = api_version ns.
Proof.
  unfold of_api_version, ALL. simpl. repeat case_decide; subst; simpl.
  - split; [by intros [= <-]|]. by destruct ns.
  - split; [by intros [= <-]|]. by destruct ns.
  - split; [done|]. intros Hv. by destruct ns.
Qed.
End Namespace.

Module Reference.

Inductive RefKind := Prompt | Model | Tool | Mcp | Retrieval | Policy.

Definition as_str (k : RefKind) : string :=
  match k with
  | Prompt => "prompt" | Model => "model" | Tool => "tool"
  | Mcp => "mcp" | Retrieval => "retrieval" | Policy => "policy"
  end.

(** [RefKind::parse] *)
Definition kind_parse (s : string) : option RefKind :=
  if decide (s = "prompt") then Some Prompt else if decide (s = "model") then Some Model
  else if decide (s = "tool") then Some Tool else if decide (s = "mcp") then Some Mcp
  else if decide (s = "retrieval") then Some Retrieval else if decide (s = "policy") then Some Policy
  else None.

Record Reference := mkReference { kind : RefKind; name : string; version : string }.
Inductive RefError := Malformed | Mutable.

#[global] Instance refkind_eq_dec : EqDecision RefKind.
Proof. solve_decision. Defined.

Definition name_start (c : ascii) : bool := is_ascii_lowercase c || is_ascii_digit c.
Definition name_char (c : ascii) : bool := name_start c || bool_decide (c ∈ ["."; "_"; "/"; "-"]%char).
Definition is_valid_name (s : string) : bool :=
  match s with String c s => name_start c && str_all name_char s | EmptyString => false end.

Definition is_lower_hex (s : string) (lo hi : nat) : bool :=
  (lo <=? length (as_bytes s)) && (length (as_bytes s) <=? hi) && str_all is_hex_char s.

Definition version_char (c : ascii) : bool :=
  is_ascii_alphanumeric c || bool_decide (c ∈ ["."; "_"; "+"; "-"]%char).
Definition is_valid_version (s : string) : bool :=
  match strip_prefix "sha256:" s with
  | Some hex => is_lower_hex hex 64 64
  | None => negb (str_is_empty s) && str_all version_char s
  end.

Definition is_immutable_version (s : string) : bool :=
  if starts_with "sha256:" s then true
  else match default s (strip_prefix "v" s) with String c _ => is_ascii_digit c | EmptyString => false end.

(** [Reference::parse] *)
Definition parse (s : string) : result RefError Reference :=
  let? (k, rest) := ok_or (split_once ":"%char s) Malformed in
  let? k := ok_or (kind_parse k) Malformed in
  match split_once "@"%char rest with
  | None => Err (if is_valid_name rest then Mutable else Malformed)
  | Some (n, v) =>
      if negb (is_valid_name n) || negb (is_valid_version v) then Err Malformed
      else if negb (is_immutable_version v) then Err Mutable
      else Ok (mkReference k n v)
  end.

(** [Reference::key] and [key_of] *)
Definition key (r : Reference) : string := as_str (kind r) +:+ ":" +:+ name r.
Definition key_of (raw : string) : string :=
  match split_once "@"%char raw with Some (k, _) => k | None => raw end.

Definition print (r : Reference) : string := key r +:+ "@" +:+ version r.

(** ** Lemmas *)

Lemma kind_parse_spec s k : kind_parse s = Some k <-> s = as_str k.
Proof.
  unfold kind_parse. split.
  - repeat case_decide; intros [= <-]; subst; done.
  - intros ->. by destruct k.
Qed.

Lemma kind_lacks k c : c = ":"%char \/ c = "@"%char -> lacks c (as_str k).
Proof. intros [-> | ->]; destruct k; unfold lacks; simpl; set_solver. Qed.

Lemma str_all_lacks p s c : str_all p s = true -> p c = false -> lacks c s.
Proof.
  unfold str_all, lacks. rewrite forallb_forall. intros Hall Hc Hin.
  apply list_elem_of_In in Hin. rewrite (Hall c Hin) in Hc. done.
Qed.

Lemma name_lacks n c : is_valid_name n = true -> c = ":"%char \/ c = "@"%char -> lacks c n.
Proof.
  destruct n as [|a n]; [done|]. intros [Ha Hn]%andb_true_iff Hc. apply lacks_cons. split.
  - intros ->. destruct Hc as [-> | ->]; done.
  - eapply str_all_lacks; [done|]. by destruct Hc as [-> | ->].
Qed.

Lemma print_eq r : print r = as_str (kind r) +:+ String ":" (name r +:+ String "@" (version r)).
Proof.
  unfold print, key. rewrite !str_app_assoc.
  change (":" +:+ name r +:+ "@" +:+ version r) with (String ":" (name r +:+ "@" +:+ version r)).
  by change ("@" +:+ version r) with (String "@" (version r)).
Qed.

Lemma parse_print r :
  is_valid_name (name r) = true -> is_valid_version (version r) = true -> is_immutable_version (version r) = true ->
  parse (print r) = Ok r.
Proof.
  intros Hn Hv Hi. unfold parse. rewrite print_eq.
  rewrite split_once_lacks by (apply kind_lacks; auto). simpl.
  rewrite (proj2 (kind_parse_spec _ (kind r)) eq_refl). simpl.
  rewrite split_once_lacks by (apply name_lacks; auto). rewrite Hn, Hv, Hi. by destruct r.
Qed.

Lemma parse_sound s r :
  parse s = Ok r ->
  s = print r /\ is_valid_name (name r) = true /\ is_valid_version (version r) = true /\
  is_immutable_version (version r) = true.
Proof.
  unfold parse. destruct (split_once ":"%char s) as [[k rest]|] eqn:Hs; [|done]. simpl.
  apply split_once_spec in Hs as [-> _].
  destruct (kind_parse k) as [k'|] eqn:Hk; [|done]. simpl. apply kind_parse_spec in Hk as ->.
  destruct (split_once "@"%char rest) as [[n v]|] eqn:Hr; [|done].
  apply split_once_spec in Hr as [-> _].
  destruct (is_valid_name n) eqn:Hn, (is_valid_version v) eqn:Hv; try done. simpl.
  destruct (is_immutable_version v) eqn:Hi; [|done]. intros [= <-]. by rewrite print_eq.
Qed.
End Reference.

(** ** Properties *)

(** [Reference::parse] accepts exactly the spellings
    [<kind>:<name>@<version>] of a reference with a valid name and a pinned
    version (a digest, or an optional [v] and a digit), each spelling names
    one reference, and the reference spells the text back. *)
Theorem reference_parse_iff (s : string) (r : Reference.Reference) :
  Reference.parse s = Ok r <->
  s = Reference.print r /\ Reference.is_valid_name (Reference.name r) = true /\
  Reference.is_valid_version (Reference.version r) = true /\
  Reference.is_immutable_version (Reference.version r) = true.
Proof.
  split; [apply Reference.parse_sound|].
  intros (-> & Hn & Hv & Hi). by apply Reference.parse_print.
Qed.
