(* ===== verification/Action.v ===== *)
(** * Release hashes, call fingerprints and operation ids

    [crates/cloakpipe-release/src/canonical.rs] ([ReleaseHash]) and
    [action.rs].  A digest is its byte string. *)

From S2P Require Import Prelude BTree Json Crates Concrete Reference.

Section Action.
Context {HC : HashCrates} {JC : JsonCrates}.

(** [ReleaseHash], its [Display] and [FromStr]. *)
Record ReleaseHash := mkReleaseHash { release_hash_bytes : bytes }.

Definition hash_to_string (h : ReleaseHash) : string := "sha256:" +:+ hex_encode (release_hash_bytes h).
Definition hash_parse (s : string) : option ReleaseHash :=
  let! hex := strip_prefix "sha256:" s else None in
  if negb (Reference.is_lower_hex hex 64 64) then None
  else let! b := hex_decode hex else None in Some (mkReleaseHash b).

(** [ToolCallFingerprint], its [Display] and [FromStr]. *)
Record ToolCallFingerprint := mkFingerprint { fingerprint_bytes : bytes }.

Definition fingerprint_hex (f : ToolCallFingerprint) : string := hex_encode (fingerprint_bytes f).
Definition fingerprint_to_string (f : ToolCallFingerprint) : string := "sha256:" +:+ fingerprint_hex f.
Definition fingerprint_parse (s : string) : option ToolCallFingerprint :=
  let prefixed := if starts_with "sha256:" s then s else "sha256:" +:+ s in
  let! h := hash_parse prefixed else None in Some (mkFingerprint (release_hash_bytes h)).

Definition line (s : string) : bytes := as_bytes s ++ ["010"%char].

(** [fingerprint] *)
Definition call_json (release : ReleaseHash) (tool : string) (arguments : value) : value :=
  VObject [("arguments", arguments); ("release", VString (hash_to_string release)); ("tool", VString tool)].
Definition fingerprint_input (release : ReleaseHash) (tool : string) (arguments : value) : bytes :=
  line Namespace.TOOL_CALL_FINGERPRINT_DOMAIN ++ as_bytes (jcs (call_json release tool arguments)).
Definition fingerprint (release : ReleaseHash) (tool : string) (arguments : value) : ToolCallFingerprint :=
  mkFingerprint (sha256 (fingerprint_input release tool arguments)).

Definition op_id (digest : bytes) : string :=
  "op-" +:+ from_bytes (take 32 (as_bytes (hex_encode digest))).

(** [derive_operation_id] *)
Definition operation_input (task_id : string) (f : ToolCallFingerprint) : bytes :=
  line Namespace.OPERATION_ID_DOMAIN ++ line task_id ++ as_bytes (fingerprint_hex f).
Definition derive_operation_id (key : bytes) (task_id : string) (f : ToolCallFingerprint) : string :=
  op_id (hmac_sha256 key (operation_input task_id f)).

(** [derive_idempotent_operation_id] *)
Definition idempotent_input (release tool rendered_key : string) : bytes :=
  as_bytes (jcs (VArray [VString Namespace.IDEMPOTENCY_KEY_OPERATION_ID_DOMAIN; VString release; VString tool;
                         VString rendered_key])).
Definition derive_idempotent_operation_id (key : bytes) (release tool rendered_key : string) : string :=
  op_id (hmac_sha256 key (idempotent_input release tool rendered_key)).
End Action.

(** ** Lemmas *)

Section ActionLemmas.
Context {HC : HashCrates} {HL : HashLaws} {JC : JsonCrates} {JL : JsonLaws}.

Lemma strip_prefix_app p s : strip_prefix p (p +:+ s) = Some s.
Proof. by apply strip_prefix_Some. Qed.

Lemma hash_parse_print h : length (release_hash_bytes h) = 32 -> hash_parse (hash_to_string h) = Some h.
Proof.
  intros Hl. unfold hash_parse, hash_to_string. rewrite strip_prefix_app.
  unfold Reference.is_lower_hex. rewrite hex_encode_length, hex_encode_lower, Hl. simpl.
  rewrite hex_decode_encode. by destruct h.
Qed.

Lemma hash_parse_sound s h : hash_parse s = Some h -> length (release_hash_bytes h) = 32 /\ hash_to_string h = s.
Proof.
  unfold hash_parse, hash_to_string. destruct (strip_prefix "sha256:" s) as [x|] eqn:Hx; [|done].
  apply strip_prefix_Some in Hx as ->. unfold Reference.is_lower_hex.
  destruct (_ && _ && _) eqn:Hh; simpl; [|done].
  apply andb_true_iff in Hh as [[H1 H2]%andb_true_iff Hlow]. apply Nat.leb_le in H1, H2.
  destruct (hex_decode_lower x 32) as (b & -> & Hb); [lia|done|]. intros [= <-]. simpl.
  pose proof (hex_encode_length b) as Hlen. rewrite Hb in *. split; [lia|done].
Qed.

Lemma line_inj s t b c : lacks "010"%char s -> lacks "010"%char t -> line s ++ b = line t ++ c -> s = t /\ b = c.
Proof.
  intros Hs Ht H. unfold line in H. rewrite <- !app_assoc in H.
  assert (split_once "010"%char (s +:+ String "010" (from_bytes b)) =
          split_once "010"%char (t +:+ String "010" (from_bytes c))) as He.
  { f_equal. apply (inj as_bytes). rewrite !as_bytes_app.
    change (as_bytes (String "010" (from_bytes b))) with ("010"%char :: as_bytes (from_bytes b)).
    change (as_bytes (String "010" (from_bytes c))) with ("010"%char :: as_bytes (from_bytes c)).
    rewrite !as_from_bytes. exact H. }
  rewrite !split_once_lacks in He by done. injection He as -> He. by apply (inj from_bytes) in He.
Qed.

(** The text the fingerprint hashes determines the call. *)
Lemma call_json_inj r r' t t' a a' :
  jcs (call_json r t a) = jcs (call_json r' t' a') -> r = r' /\ t = t' /\ jcs a = jcs a'.
Proof.
  intros H. apply jcs_object_inj in H; [|by repeat constructor|by repeat constructor].
  simpl in H. injection H as Ha Hr Ht.
  apply jcs_string_inj in Hr, Ht. repeat split; [|done|done].
  unfold hash_to_string in Hr. apply (f_equal (strip_prefix "sha256:")) in Hr.
  rewrite !strip_prefix_app in Hr. injection Hr as Hr. apply hex_encode_inj in Hr.
  destruct r, r'; simpl in *; congruence.
Qed.

Lemma operation_input_inj t f t' f' :
  length (fingerprint_bytes f) = 32 -> length (fingerprint_bytes f') = 32 ->
  operation_input t f = operation_input t' f' -> t = t' /\ f = f'.
Proof.
  intros Hf Hf' H. unfold operation_input, line in H. rewrite <- !app_assoc in H.
  apply (inj (as_bytes Namespace.OPERATION_ID_DOMAIN ++.)) in H. apply (inj ("010"%char ::.)) in H.
  rewrite !app_assoc in H. apply app_inj_2 in H as [Ht He];
    [|unfold fingerprint_hex; by rewrite !hex_encode_length, Hf, Hf'].
  apply app_inj_tail in Ht as [Ht _]. apply (inj as_bytes) in Ht. apply (inj as_bytes), hex_encode_inj in He.
  destruct f, f'; simpl in *; by subst.
Qed.

Lemma idempotent_input_inj r t k r' t' k' :
  idempotent_input r t k = idempotent_input r' t' k' -> r = r' /\ t = t' /\ k = k'.
Proof.
  unfold idempotent_input. intros H. apply (inj as_bytes), jcs_array_inj in H. simpl in H.
  injection H as Hr Ht Hk. apply jcs_string_inj in Hr, Ht, Hk. done.
Qed.
End ActionLemmas.

(** ** Collisions

    Hash functions collide, so what a digest binds is stated about the texts
    that were hashed: [collision_among h texts] says that two different texts
    of that list have one digest, and every list is computed from the data
    the statement is about. *)
Definition collision_among {A} (h : bytes -> A) (texts : list bytes) : Prop :=
  exists x y, x ∈ texts /\ y ∈ texts /\ x <> y /\ h x = h y.

#[global] Instance collision_among_dec {A} `{EqDecision A} (h : bytes -> A) texts : Decision (collision_among h texts).
Proof.
  destruct (decide (Exists (fun x => Exists (fun y => x <> y /\ h x = h y) texts) texts)) as [H|H]; [left|right];
    revert H; unfold collision_among; rewrite Exists_exists; setoid_rewrite Exists_exists; naive_solver.
Defined.

Lemma same_or_collision {A} (h : bytes -> A) texts x y : x ∈ texts -> y ∈ texts -> h x = h y -> x = y \/ collision_among h texts.
Proof. intros Hx Hy H. destruct (decide (x = y)) as [|Hne]; [by left|right; by exists x, y]. Qed.

Lemma same_or_pair {A} (h : bytes -> A) x y : h x = h y -> x = y \/ collision_among h [x; y].
Proof. apply same_or_collision; set_solver. Qed.

Lemma collision_among_mono {A} (h : bytes -> A) texts texts' : texts ⊆ texts' -> collision_among h texts -> collision_among h texts'.
Proof. intros Hs (x & y & Hx & Hy & H). exists x, y. split_and!; [by apply Hs..|apply H|apply H]. Qed.

(** ** Properties *)

(** A release hash is the text [sha256:<64 lowercase hex>]: every 32-byte
    digest prints to a text that reads back, and every text that reads prints
    back to itself. *)
Theorem release_hash_round_trip {HC : HashCrates} {HL : HashLaws} (s : string) (h : ReleaseHash) :
  hash_parse s = Some h <-> length (release_hash_bytes h) = 32 /\ hash_to_string h = s.
Proof. split; [apply hash_parse_sound|]. intros [Hl <-]. by apply hash_parse_print. Qed.

(** A fingerprint binds the whole call: two calls with the same
    fingerprint have the same release, tool and canonical arguments, unless
    SHA-256 collides on the two texts that were hashed. *)
Theorem fingerprint_binds_call {HC : HashCrates} {HL : HashLaws} {JC : JsonCrates} {JL : JsonLaws}
    (r r' : ReleaseHash) (t t' : string) (a a' : value) (same : fingerprint r t a = fingerprint r' t' a') :
  (r = r' /\ t = t' /\ jcs a = jcs a') \/ collision_among sha256 [fingerprint_input r t a; fingerprint_input r' t' a'].
Proof.
  unfold fingerprint in same. injection same as same. apply same_or_pair in same as [H|]; [left|by right].
  apply (inj (line Namespace.TOOL_CALL_FINGERPRINT_DOMAIN ++.)), (inj as_bytes) in H.
  by apply call_json_inj in H.
Qed.

(** A derived operation id binds what it is derived from, unless the
    truncated HMAC collides on the two texts: the task and the call's
    fingerprint, or the release name, the tool and the rendered key, whatever
    characters these texts hold. *)
Theorem operation_id_binds_call {HC : HashCrates} {HL : HashLaws} {JC : JsonCrates} {JL : JsonLaws} (key : bytes) :
  (forall r r' t t' a a' task task',
     derive_operation_id key task (fingerprint r t a) = derive_operation_id key task' (fingerprint r' t' a') ->
     (task = task' /\ fingerprint r t a = fingerprint r' t' a') \/
     collision_among (fun x => op_id (hmac_sha256 key x))
       [operation_input task (fingerprint r t a); operation_input task' (fingerprint r' t' a')]) /\
  (forall r r' t t' k k',
     derive_idempotent_operation_id key r t k = derive_idempotent_operation_id key r' t' k' ->
     (r = r' /\ t = t' /\ k = k') \/
     collision_among (fun x => op_id (hmac_sha256 key x)) [idempotent_input r t k; idempotent_input r' t' k']).
Proof.
  split.
  - intros r r' t t' a a' task task' [H|]%(same_or_pair (fun x => op_id (hmac_sha256 key x))); [left|by right].
    apply operation_input_inj in H; [done|apply sha256_length..].
  - intros r r' t t' k k' [H|]%(same_or_pair (fun x => op_id (hmac_sha256 key x))); [left|by right].
    by apply idempotent_input_inj in H.
Qed.

(** *** Concrete instances *)

Section Witnesses.
Import Toy.

Definition zero_release : ReleaseHash := mkReleaseHash (repeat "000"%char 32).

Lemma fingerprint_binds_call_witness :
  (zero_release = zero_release /\ "refund" = "refund" /\ jcs VNull = jcs VNull) \/
  collision_among sha256 [fingerprint_input zero_release "refund" VNull; fingerprint_input zero_release "refund" VNull].
Proof. apply (fingerprint_binds_call zero_release zero_release "refund" "refund" VNull VNull). reflexivity. Qed.

Lemma release_hash_round_trip_witness :
  hash_parse (hash_to_string zero_release) = Some zero_release <->
  length (release_hash_bytes zero_release) = 32 /\ hash_to_string zero_release = hash_to_string zero_release.
Proof. apply (release_hash_round_trip (hash_to_string zero_release) zero_release). Defined.

Lemma operation_id_binds_call_witness :
  let input := operation_input "t1" (fingerprint zero_release "refund" VNull) in
  ("t1" = "t1" /\ fingerprint zero_release "refund" VNull = fingerprint zero_release "refund" VNull)
  \/ collision_among (fun x => op_id (hmac_sha256 [] x)) [input; input].
Proof.
  apply (proj1 (operation_id_binds_call []) zero_release zero_release "refund" "refund" VNull VNull "t1" "t1").
  reflexivity.
Defined.
End Witnesses.
