(* ===== verification/Merkle.v ===== *)
(** * Merkle tree over record hashes ([cloakpipe-anchor/src/merkle.rs])

    The tree as the source keeps it, a list of levels from the leaves to the
    root; the builder, the inclusion proofs and their verification.  A hash is
    the 32-byte string [sha256] gives. *)

From S2P Require Import Prelude Crates Concrete Action.

(** Domain tags for leaf and internal nodes. *)
Definition LEAF_PREFIX : ascii := "000"%char.
Definition NODE_PREFIX : ascii := "001"%char.

Inductive ProofPosition := Left | Right.

(** A sibling-hash step in an inclusion proof. *)
Record ProofStep := mkProofStep { position : ProofPosition; hash : bytes }.

(** Inclusion proof for one leaf in a tree of [total_leaves]. *)
Record InclusionProof := mkInclusionProof {
  leaf_index : nat;
  total_leaves : nat;
  steps : list ProofStep;
}.

(** [levels[0]] is the leaves; the last level is the root. *)
Record MerkleTree := mkMerkleTree { levels : list (list bytes) }.

(** [\[0u8; 32\]] *)
Definition zero_hash : bytes := repeat "000"%char 32.

Section Merkle.
Context {HC : HashCrates}.

(** [H(0x00 || value)] and [H(0x01 || left || right)]. *)
Definition leaf_text (value : bytes) : bytes := LEAF_PREFIX :: value.
Definition node_text (left right : bytes) : bytes := NODE_PREFIX :: left ++ right.
Definition leaf_hash (value : bytes) : bytes := sha256 (leaf_text value).
Definition node_hash (left right : bytes) : bytes := sha256 (node_text left right).

(** One pass of the builder's loop over [prev], two nodes at a time; an odd
    last node is paired with itself. *)
Fixpoint next_level (prev : list bytes) : list bytes :=
  match prev with
  | [] => []
  | [l] => [node_hash l l]
  | l :: r :: rest => node_hash l r :: next_level rest
  end.

(** [while levels.last().len() > 1 { levels.push(next) }], from [cur] on. *)
Fixpoint build_levels (fuel : nat) (cur : list bytes) : list (list bytes) :=
  cur ::
  match fuel with
  | O => []
  | S fuel => if decide (1 < length cur) then build_levels fuel (next_level cur) else []
  end.

(** Each pass at least halves a level of two or more nodes (rounding up), so
    its length is fuel enough. *)
Definition from_hashed_leaves (hashed_leaves : list bytes) : MerkleTree :=
  mkMerkleTree
    (if decide (hashed_leaves = []) then [[zero_hash]]
     else build_levels (length hashed_leaves) hashed_leaves).

Definition from_leaves (leaves : list bytes) : MerkleTree :=
  from_hashed_leaves (map leaf_hash leaves).

(** [self.levels.last().unwrap()\[0\]]; [None] where the source would panic. *)
Definition root (t : MerkleTree) : option bytes :=
  let! top := last (levels t) else None in head top.

(** [self.levels\[0\].len()] *)
Definition leaf_count (t : MerkleTree) : option nat := length <$> head (levels t).

Definition sibling_idx (idx : nat) : nat := if Nat.even idx then idx + 1 else idx - 1.

(** One turn of the loop of [inclusion_proof]: the step for level [cur]; an
    index out of range panics. *)
Definition proof_step (cur : list bytes) (idx : nat) : option ProofStep :=
  let! sibling :=
    (if decide (sibling_idx idx < length cur) then cur !! sibling_idx idx else cur !! idx)
  else None in
  Some (mkProofStep (if Nat.even idx then Right else Left) sibling).

(** The loop over all levels but the last. *)
Fixpoint proof_steps (lvls : list (list bytes)) (idx : nat) : option (list ProofStep) :=
  match lvls with
  | cur :: ((_ :: _) as above) =>
      let! step := proof_step cur idx else None in
      let! steps := proof_steps above (idx / 2) else None in
      Some (step :: steps)
  | _ => Some []
  end.

(** [None] is the panic on an index out of range. *)
Definition inclusion_proof (t : MerkleTree) (index : nat) : option InclusionProof :=
  let! total := leaf_count t else None in
  if decide (index < total) then
    let! steps := proof_steps (levels t) index else None in
    Some (mkInclusionProof index total steps)
  else None.

Definition apply_step (cur : bytes) (step : ProofStep) : bytes :=
  match position step with
  | Left => node_hash (hash step) cur
  | Right => node_hash cur (hash step)
  end.

Definition verify_inclusion (root leaf : bytes) (proof : InclusionProof) : bool :=
  bool_decide (fold_left apply_step (steps proof) (leaf_hash leaf) = root).

(** The type of the source's steps: sibling hashes are [\[u8; 32\]]. *)
Definition proof_wf (p : InclusionProof) : Prop := Forall (fun s => length (hash s) = 32) (steps p).

(** The number of levels above the leaves: [ceil (log2 n)]. *)
Definition depth (n : nat) : nat := Nat.log2_up n.

(** ** The builder *)

Lemma pair_ind {A} (P : list A -> Prop) :
  P [] -> (forall a, P [a]) -> (forall a b l, P l -> P (a :: b :: l)) -> forall l, P l.
Proof.
  intros H0 H1 H2 l. enough (P l /\ forall a, P (a :: l)) by tauto.
  induction l as [|b l [IH1 IH2]]; auto.
Qed.

Lemma next_level_lookup l j :
  next_level l !! j = (fun a => node_hash a (default a (l !! (2 * j + 1)))) <$> l !! (2 * j).
Proof.
  revert j. induction l as [|a|a b l IH] using pair_ind; intros j; [done| |].
  - destruct j as [|j]; [done|]. by replace (2 * S j) with (S (S (2 * j))) by lia.
  - destruct j as [|j]; [done|]. replace (2 * S j) with (S (S (2 * j))) by lia. apply IH.
Qed.

Lemma next_level_length l : length (next_level l) = (length l + 1) / 2.
Proof.
  induction l as [|a|a b l IH] using pair_ind; [done..|]. cbn [next_level length Nat.add]. rewrite IH.
  replace (S (S (length l + 1))) with (1 * 2 + (length l + 1)) by lia.
  by rewrite Nat.div_add_l by lia.
Qed.

Lemma half_bounds n : 1 < n -> 0 < (n + 1) / 2 < n.
Proof.
  intros Hn. split; [apply Nat.div_str_pos; lia|]. apply Nat.div_lt_upper_bound; lia.
Qed.

Lemma depth_half n : 1 < n -> depth n = S (depth ((n + 1) / 2)).
Proof.
  intros Hn. unfold depth. destruct (Nat.Even_or_Odd n) as [[k ->]|[k ->]].
  - replace ((2 * k + 1) / 2) with k; [apply Nat.log2_up_double; lia|].
    apply (Nat.div_unique (2 * k + 1) 2 k 1); lia.
  - replace ((2 * k + 1 + 1) / 2) with (S k); [|apply (Nat.div_unique _ 2 (S k) 0); lia].
    rewrite Nat.log2_up_succ_double, (Nat.log2_up_eqn (S k)) by lia. done.
Qed.

(** The builder unrolled once, from a level of two nodes or more. *)
Lemma build_levels_step fuel cur : 1 < length cur ->
  build_levels (S fuel) cur = cur :: build_levels fuel (next_level cur).
Proof. intros H. simpl. by rewrite decide_True. Qed.

Lemma build_levels_done fuel cur : length cur <= 1 -> build_levels fuel cur = [cur].
Proof. intros H. destruct fuel; simpl; [done|]. by rewrite decide_False by lia. Qed.

Lemma build_levels_cons fuel cur : exists r, build_levels fuel cur = cur :: r.
Proof. destruct fuel; eexists; reflexivity. Qed.

Lemma last_build_step fuel cur l : last (l :: build_levels fuel cur) = last (build_levels fuel cur).
Proof. by destruct (build_levels_cons fuel cur) as [r ->]. Qed.

(** Induction over the build: the levels the loop goes through, from one
    with fuel enough. *)
Lemma build_ind (P : list bytes -> list (list bytes) -> Prop) :
  (forall h, P [h] [[h]]) ->
  (forall cur above, 1 < length cur -> P (next_level cur) above -> P cur (cur :: above)) ->
  forall fuel cur, 0 < length cur <= S fuel -> P cur (build_levels fuel cur).
Proof.
  intros Hone Hstep fuel. induction fuel as [|fuel IH]; intros cur Hl.
  - destruct cur as [|h [|]]; simpl in Hl; try lia. apply Hone.
  - destruct (decide (1 < length cur)) as [H1|H1].
    + rewrite build_levels_step by done. apply Hstep; [done|]. apply IH.
      rewrite next_level_length. pose proof (half_bounds _ H1). lia.
    + rewrite build_levels_done by lia. destruct cur as [|h [|]]; simpl in *; try lia. apply Hone.
Qed.

Lemma build_levels_root fuel cur : 0 < length cur <= S fuel -> exists r, last (build_levels fuel cur) = Some [r].
Proof.
  apply (build_ind (fun _ lvls => exists r, last lvls = Some [r])); [intros h; by exists h|].
  intros c above _ [r Hr]. exists r. by destruct above.
Qed.

Lemma root_of_nonempty hs : hs <> [] ->
  levels (from_hashed_leaves hs) = build_levels (length hs) hs /\ 0 < length hs <= S (length hs).
Proof. intros H. unfold from_hashed_leaves. rewrite decide_False by done. by destruct hs; simpl; [|split; [|lia]]. Qed.

(** ** Inclusion proofs *)

(** One step of a proof goes from a node to its parent. *)
Lemma proof_step_up cur i h :
  cur !! i = Some h ->
  exists s, proof_step cur i = Some s /\ next_level cur !! (i / 2) = Some (apply_step h s).
Proof.
  intros Hh. pose proof (lookup_lt_Some _ _ _ Hh) as Hlt. rewrite next_level_lookup.
  unfold proof_step, sibling_idx, apply_step. destruct (Nat.even i) eqn:He.
  - apply Nat.even_spec in He as [k ->]. rewrite (Nat.mul_comm 2 k), Nat.div_mul, (Nat.mul_comm k 2), Hh by lia.
    case_decide as Hd.
    + apply lookup_lt_is_Some_2 in Hd as [b Hb]. rewrite Hb. by eexists.
    + eexists. split; [done|]. simpl. by rewrite (lookup_ge_None_2 cur) by lia.
  - assert (Ho : Nat.Odd i) by (apply Nat.odd_spec; by rewrite <- Nat.negb_even, He).
    destruct Ho as [k ->]. rewrite decide_True by lia.
    replace (2 * k + 1 - 1) with (2 * k) by lia.
    replace ((2 * k + 1) / 2) with k by (apply (Nat.div_unique _ 2 k 1); lia).
    destruct (lookup_lt_is_Some_2 cur (2 * k)) as [a Ha]; [lia|]. rewrite Ha, ?Hh.
    by eexists.
Qed.

Lemma proof_steps_cons cur a above i :
  proof_steps (cur :: a :: above) i =
  let! step := proof_step cur i else None in
  let! steps := proof_steps (a :: above) (i / 2) else None in Some (step :: steps).
Proof. done. Qed.

(** From any node of a level the loop makes a proof that leads to the root. *)
Lemma proof_steps_ok fuel cur : 0 < length cur <= S fuel ->
  forall i h, cur !! i = Some h ->
  exists ss, proof_steps (build_levels fuel cur) i = Some ss /\ length ss = depth (length cur) /\
             last (build_levels fuel cur) = Some [fold_left apply_step ss h].
Proof.
  apply (build_ind (fun cur lvls => forall i h, cur !! i = Some h ->
    exists ss, proof_steps lvls i = Some ss /\ length ss = depth (length cur) /\
               last lvls = Some [fold_left apply_step ss h])).
  - intros r i h Hi. apply list_lookup_singleton_Some in Hi as [-> ->]. by exists [].
  - intros c above H1 IH i h Hi. destruct (proof_step_up c i h Hi) as (s & Hs & Hup).
    destruct (IH _ _ Hup) as (ss & Hss & Hd & Hl). exists (s :: ss).
    destruct above as [|a above]; [done|].
    rewrite proof_steps_cons, Hs, Hss.
    split; [done|]. split; [|done]. rewrite (depth_half _ H1), <- next_level_length. simpl. by rewrite Hd.
Qed.

(** The texts hashed to make a tree, and to follow a proof. *)
Fixpoint level_texts (prev : list bytes) : list bytes :=
  match prev with
  | [] => []
  | [l] => [node_text l l]
  | l :: r :: rest => node_text l r :: level_texts rest
  end.
Fixpoint build_texts (fuel : nat) (cur : list bytes) : list bytes :=
  match fuel with
  | O => []
  | S fuel => if decide (1 < length cur) then level_texts cur ++ build_texts fuel (next_level cur) else []
  end.
Definition tree_texts (leaves : list bytes) : list bytes :=
  map leaf_text leaves ++ build_texts (length leaves) (map leaf_hash leaves).

Definition step_text (cur : bytes) (step : ProofStep) : bytes :=
  match position step with Left => node_text (hash step) cur | Right => node_text cur (hash step) end.
Fixpoint path_texts (ss : list ProofStep) (cur : bytes) : list bytes :=
  match ss with [] => [] | s :: ss => step_text cur s :: path_texts ss (apply_step cur s) end.
Definition verify_texts (leaf : bytes) (p : InclusionProof) : list bytes :=
  leaf_text leaf :: path_texts (steps p) (leaf_hash leaf).

Lemma path_texts_snoc ss s cur : path_texts (ss ++ [s]) cur = path_texts ss cur ++ [step_text (fold_left apply_step ss cur) s].
Proof. revert cur. induction ss as [|s' ss IH]; intros cur; simpl; [done|]. by rewrite IH. Qed.

Lemma apply_step_text cur s : apply_step cur s = sha256 (step_text cur s).
Proof. unfold apply_step, step_text. by destruct (position s). Qed.

(** The nodes of a tree over [hs] made by hashing [texts]. *)
Inductive node_of (texts hs : list bytes) : bytes -> Prop :=
| node_leaf h : h ∈ hs -> node_of texts hs h
| node_inner a b : node_of texts hs a -> node_of texts hs b -> node_text a b ∈ texts -> node_of texts hs (node_hash a b).

Lemma next_level_nodes texts hs cur : level_texts cur ⊆ texts ->
  Forall (node_of texts hs) cur -> Forall (node_of texts hs) (next_level cur).
Proof.
  induction cur as [|a|a b l IH] using pair_ind; simpl; intros Ht; [done| |].
  - intros [Ha _]%Forall_cons. constructor; [|done]. apply node_inner; [done..|]. apply Ht. left.
  - intros [Ha [Hb Hl]%Forall_cons]%Forall_cons. constructor; [apply node_inner; [done..|]; apply Ht; left|].
    apply IH; [|done]. intros x Hx. apply Ht. by right.
Qed.

Lemma build_root_node texts hs fuel cur r : 0 < length cur <= S fuel -> build_texts fuel cur ⊆ texts ->
  Forall (node_of texts hs) cur -> last (build_levels fuel cur) = Some [r] -> node_of texts hs r.
Proof.
  revert cur. induction fuel as [|fuel IH]; intros cur Hl Ht Hc Hr.
  - simpl in Hr. injection Hr as ->. by apply Forall_cons in Hc as [? _].
  - destruct (decide (1 < length cur)) as [H1|H1].
    + rewrite build_levels_step, last_build_step in Hr by done. cbn [build_texts] in Ht. rewrite decide_True in Ht by done.
      pose proof (half_bounds _ H1). eapply IH; [| | |exact Hr].
      * rewrite next_level_length. lia.
      * set_solver.
      * apply next_level_nodes; [set_solver|done].
    + rewrite build_levels_done in Hr by lia. injection Hr as ->. by apply Forall_cons in Hc as [? _].
Qed.

Lemma root_node leaves r : leaves <> [] -> root (from_leaves leaves) = Some r -> node_of (tree_texts leaves) (map leaf_hash leaves) r.
Proof.
  intros Hne. destruct (root_of_nonempty (map leaf_hash leaves)) as [Hlv Hl]; [by destruct leaves|]. unfold root, from_leaves. rewrite Hlv.
  destruct (build_levels_root _ _ Hl) as [r' Hr]. rewrite Hr. intros [= <-].
  eapply build_root_node; [exact Hl| | |exact Hr].
  - rewrite length_map. unfold tree_texts. set_solver.
  - apply Forall_forall. by constructor.
Qed.
End Merkle.

(** ** Hashes of a node and of a leaf *)

Section Binding.
Context {HC : HashCrates} {HL : HashLaws}.
Implicit Types texts : list bytes.

Lemma leaf_hash_same texts v w : leaf_text v ∈ texts -> leaf_text w ∈ texts -> leaf_hash v = leaf_hash w ->
  v = w \/ collision_among sha256 texts.
Proof. intros Hv Hw [H|?]%(same_or_collision sha256 texts); [left|by right|done..]. by injection H. Qed.

Lemma leaf_node_differ texts v a b : leaf_text v ∈ texts -> node_text a b ∈ texts -> leaf_hash v = node_hash a b ->
  collision_among sha256 texts.
Proof.
  intros Hv Hn [H|?]%(same_or_collision sha256 texts); [|done..].
  apply (f_equal head) in H. vm_compute in H. done.
Qed.

Lemma node_hash_same texts a b c d : node_text a b ∈ texts -> node_text c d ∈ texts -> length a = 32 -> length c = 32 ->
  node_hash a b = node_hash c d -> (a = c /\ b = d) \/ collision_among sha256 texts.
Proof.
  intros Ht Ht' Ha Hc [H|?]%(same_or_collision sha256 texts); [left|by right|done..].
  injection H as H. apply app_inj_1 in H; [done|congruence].
Qed.

Lemma node_of_length texts hs h : Forall (fun x => length x = 32) hs -> node_of texts hs h -> length h = 32.
Proof. intros Hhs [x Hx|a b _ _ _]; [by rewrite Forall_forall in Hhs; auto|apply sha256_length]. Qed.

Lemma leaf_hashes_length leaves : Forall (fun x => length x = 32) (map leaf_hash leaves).
Proof. apply Forall_fmap, Forall_true. intros v. apply sha256_length. Qed.

(** A path of steps from a leaf's hash to a node of the tree stays inside
    the tree. *)
Lemma path_to_node texts leaves leaf ss h : Forall (fun s => length (hash s) = 32) ss ->
  map leaf_text leaves ⊆ texts -> leaf_text leaf ∈ texts -> path_texts ss (leaf_hash leaf) ⊆ texts ->
  node_of texts (map leaf_hash leaves) h -> fold_left apply_step ss (leaf_hash leaf) = h ->
  leaf ∈ leaves \/ collision_among sha256 texts.
Proof.
  intros Hss Hls Hlf. revert h. induction ss as [|s ss IH] using rev_ind; intros h Hp Hh Heq.
  - simpl in Heq. destruct Hh as [h Hin|a b _ _ Ht].
    + apply list_elem_of_fmap in Hin as (v & -> & Hv).
      destruct (leaf_hash_same texts _ _ Hlf (Hls _ (list_elem_of_fmap_2 leaf_text _ _ Hv)) Heq) as [->|]; [by left|by right].
    + right. by eapply leaf_node_differ.
  - apply Forall_app in Hss as [Hss [Hs _]%Forall_cons]. rewrite path_texts_snoc in Hp.
    rewrite fold_left_app in Heq. simpl in Heq. set (c := fold_left _ _ _) in *.
    assert (Hc : length c = 32).
    { clear -HL Hss. subst c. destruct ss as [|s' ss' _] using rev_ind; [apply sha256_length|].
      rewrite fold_left_app. simpl. rewrite apply_step_text. apply sha256_length. }
    assert (Hp1 : path_texts ss (leaf_hash leaf) ⊆ texts) by set_solver.
    assert (Hp2 : step_text c s ∈ texts) by set_solver. rewrite apply_step_text in Heq.
    destruct Hh as [h Hin|a b Ha Hb Ht].
    + apply list_elem_of_fmap in Hin as (v & -> & Hv). apply (list_elem_of_fmap_2 leaf_text), Hls in Hv. right.
      unfold step_text in *. destruct (position s); by eapply leaf_node_differ.
    + pose proof (node_of_length _ _ _ (leaf_hashes_length leaves) Ha) as Hla.
      unfold step_text in *. destruct (position s).
      * destruct (node_hash_same texts _ _ _ _ Hp2 Ht Hs Hla Heq) as [[_ ?]|]; [by apply (IH Hss b)|by right].
      * destruct (node_hash_same texts _ _ _ _ Hp2 Ht Hc Hla Heq) as [[? _]|]; [by apply (IH Hss a)|by right].
Qed.

(** Levels of the same length with the same parents are the same. *)
Lemma next_level_same texts l m : length l = length m -> level_texts l ⊆ texts -> level_texts m ⊆ texts ->
  Forall (fun x => length x = 32) l -> Forall (fun x => length x = 32) m ->
  next_level l = next_level m -> l = m \/ collision_among sha256 texts.
Proof.
  revert m. induction l as [|a|a b l IH] using pair_ind; intros m Hlen Htl Htm Hl Hm H.
  - destruct m; [by left|done].
  - destruct m as [|x [|]]; [done| |done]. apply Forall_cons in Hl as [Ha _]. apply Forall_cons in Hm as [Hx _].
    simpl in *. injection H as H. destruct (node_hash_same texts a a x x) as [[-> _]|]; auto; set_solver.
  - destruct m as [|x [|y m]]; [done|done|]. simpl in H, Hlen, Htl, Htm.
    apply Forall_cons in Hl as [Ha [Hb Hl]%Forall_cons]. apply Forall_cons in Hm as [Hx [Hy Hm]%Forall_cons].
    injection H as Hab H. destruct (node_hash_same texts a b x y) as [[-> ->]|]; [set_solver..|done|done|done| |by right].
    destruct (IH m ltac:(lia) ltac:(set_solver) ltac:(set_solver) Hl Hm H) as [->|]; auto.
Qed.

Lemma next_level_hashes l : Forall (fun x => length x = 32) (next_level l).
Proof. induction l as [|a|a b l IH] using pair_ind; simpl; repeat constructor; try done; apply sha256_length. Qed.

Lemma build_same texts fuel l m : 0 < length l <= S fuel -> length l = length m -> build_texts fuel l ⊆ texts -> build_texts fuel m ⊆ texts ->
  Forall (fun x => length x = 32) l -> Forall (fun x => length x = 32) m ->
  last (build_levels fuel l) = last (build_levels fuel m) -> l = m \/ collision_among sha256 texts.
Proof.
  revert l m. induction fuel as [|fuel IH]; intros l m Hf Hlen Htl Htm Hl Hm H.
  - left. simpl in H. by injection H.
  - destruct (decide (1 < length l)) as [H1|H1].
    + rewrite !build_levels_step, !last_build_step in H by lia. cbn [build_texts] in *. rewrite decide_True in Htl by lia. rewrite decide_True in Htm by lia.
      pose proof (half_bounds _ H1). destruct (IH (next_level l) (next_level m)) as [Hn|]; auto using next_level_hashes.
      * rewrite next_level_length. lia.
      * by rewrite !next_level_length, Hlen.
      * set_solver.
      * set_solver.
      * apply (next_level_same texts); set_solver.
    + left. rewrite !build_levels_done in H by lia. by injection H.
Qed.

Lemma leaf_hashes_same texts leaves leaves' : map leaf_text leaves ⊆ texts -> map leaf_text leaves' ⊆ texts ->
  map leaf_hash leaves = map leaf_hash leaves' -> leaves = leaves' \/ collision_among sha256 texts.
Proof.
  revert leaves'. induction leaves as [|v l IH]; intros [|w l'] Ht Ht' H; try done; [by left|].
  simpl in *. injection H as Hv H. destruct (leaf_hash_same texts v w) as [->|]; [set_solver..|done| |by right].
  destruct (IH l') as [->|]; auto; set_solver.
Qed.
End Binding.

(** ** Fuel *)

Lemma build_levels_fuel {HC : HashCrates} f g cur :
  length cur <= S f -> length cur <= S g -> build_levels f cur = build_levels g cur.
Proof.
  revert g cur. induction f as [|f IH]; intros g cur Hf Hg.
  - by rewrite !build_levels_done by lia.
  - destruct (decide (1 < length cur)) as [H1|H1]; [|by rewrite !build_levels_done by lia].
    destruct g as [|g]; [lia|]. rewrite !build_levels_step by done. f_equal.
    pose proof (half_bounds _ H1). apply IH; rewrite next_level_length; lia.
Qed.

Lemma next_level_odd_tail {HC : HashCrates} l c : Nat.Even (length l) ->
  next_level (l ++ [c]) = next_level (l ++ [c; c]).
Proof.
  induction l as [|a|a b l IH] using pair_ind; intros He; [done| |].
  - destruct He as [k Hk]. simpl in Hk. lia.
  - simpl. f_equal. apply IH. destruct He as [k Hk]. exists (k - 1). simpl in Hk. lia.
Qed.

(** ** Properties *)

(** Every leaf has an inclusion proof that verifies against the tree's
    root: the proof names the leaf's index and the number of leaves, has
    [ceil (log2 n)] steps, and [inclusion_proof] panics exactly on an index
    that is out of range. *)
Theorem inclusion_complete {HC : HashCrates} (leaves : list bytes) (Hne : leaves <> []) :
  (forall i v, leaves !! i = Some v ->
     exists r p, root (from_leaves leaves) = Some r /\ inclusion_proof (from_leaves leaves) i = Some p /\
                 leaf_index p = i /\ total_leaves p = length leaves /\
                 length (steps p) = depth (length leaves) /\ verify_inclusion r v p = true) /\
  (forall i, inclusion_proof (from_leaves leaves) i = None <-> length leaves <= i).
Proof.
  destruct (root_of_nonempty (map leaf_hash leaves)) as [Hlv Hl]; [by destruct leaves|].
  assert (Hc : leaf_count (from_leaves leaves) = Some (length leaves)).
  { unfold leaf_count, from_leaves. rewrite Hlv.
    destruct (build_levels_cons (length (map leaf_hash leaves)) (map leaf_hash leaves)) as [r ->].
    simpl. by rewrite length_map. }
  assert (Hok : forall i v, leaves !! i = Some v -> exists ss,
    proof_steps (levels (from_leaves leaves)) i = Some ss /\ length ss = depth (length leaves) /\
    root (from_leaves leaves) = Some (fold_left apply_step ss (leaf_hash v))).
  { intros i v Hi. destruct (proof_steps_ok _ _ Hl i (leaf_hash v)) as (ss & Hss & Hd & Hr).
    { apply list_lookup_fmap_Some. eauto. }
    exists ss. unfold root, from_leaves. rewrite Hlv, Hss, Hr. by rewrite length_map in Hd. }
  unfold inclusion_proof. rewrite Hc. split.
  - intros i v Hi. destruct (Hok i v Hi) as (ss & Hss & Hd & Hr).
    rewrite decide_True by (by eapply lookup_lt_Some). rewrite Hss.
    do 2 eexists. repeat split; [exact Hr|done|]. by apply bool_decide_eq_true.
  - intros i. case_decide as Hi; [|split; [lia|done]].
    destruct (lookup_lt_is_Some_2 leaves i Hi) as [v Hv]. destruct (Hok i v Hv) as (ss & -> & _).
    split; [done|lia].
Qed.

(** Whatever verifies against a tree's root is one of its leaves, whoever
    made the proof, unless SHA-256 collides among the texts the tree and the
    verification hash. *)
Theorem inclusion_sound {HC : HashCrates} {HL : HashLaws} (leaves : list bytes) (r leaf : bytes) (p : InclusionProof)
    (Hne : leaves <> []) (Hr : root (from_leaves leaves) = Some r) (Hwf : proof_wf p)
    (Hv : verify_inclusion r leaf p = true) :
  leaf ∈ leaves \/ collision_among sha256 (tree_texts leaves ++ verify_texts leaf p).
Proof.
  apply bool_decide_eq_true in Hv. apply root_node in Hr; [|done].
  assert (Hr' : node_of (tree_texts leaves ++ verify_texts leaf p) (map leaf_hash leaves) r).
  { clear -Hr. induction Hr as [|a b _ Ha _ Hb Ht]; [by apply node_leaf|]. apply node_inner; [done..|]. set_solver. }
  eapply path_to_node; [exact Hwf| | | |exact Hr'|exact Hv]; unfold tree_texts, verify_texts; set_solver.
Qed.

(** The root of a tree commits to its leaves: two leaf lists of the same
    length with the same root are equal, unless SHA-256 collides among the
    texts the two trees hash. *)
Theorem root_binds_leaves {HC : HashCrates} {HL : HashLaws} (leaves leaves' : list bytes)
    (Hlen : length leaves = length leaves') (same : root (from_leaves leaves) = root (from_leaves leaves')) :
  leaves = leaves' \/ collision_among sha256 (tree_texts leaves ++ tree_texts leaves').
Proof.
  destruct (decide (leaves = [])) as [->|Hne]; [left; by destruct leaves'|].
  destruct (root_of_nonempty (map leaf_hash leaves)) as [Hlv Hl]; [by destruct leaves|].
  destruct (root_of_nonempty (map leaf_hash leaves')) as [Hlv' Hl']; [by destruct leaves, leaves'|].
  unfold root, from_leaves in same. rewrite Hlv, Hlv' in same.
  destruct (build_levels_root _ _ Hl) as [r Hr], (build_levels_root _ _ Hl') as [r' Hr'].
  rewrite Hr, Hr' in same. simpl in same. simplify_eq. rewrite !length_map in *. rewrite <- Hlen in Hr'.
  destruct (build_same (tree_texts leaves ++ tree_texts leaves') (length leaves) (map leaf_hash leaves) (map leaf_hash leaves')) as [H|];
    rewrite ?length_map; try done; [unfold tree_texts; rewrite <- ?Hlen; set_solver..|apply leaf_hashes_length|apply leaf_hashes_length|congruence| |by right].
  apply leaf_hashes_same; [unfold tree_texts; set_solver..|done].
Qed.

(** The root alone does not commit to the number of leaves: an odd last
    leaf is paired with itself, so the tree with that leaf listed twice has
    the same root. *)
Theorem odd_tail_same_root {HC : HashCrates} (l : list bytes) (c : bytes)
    (Hne : l <> []) (Heven : Nat.Even (length l)) :
  root (from_leaves (l ++ [c])) = root (from_leaves (l ++ [c; c])).
Proof.
  unfold root, from_leaves. rewrite !map_app. cbn [map].
  set (hl := map leaf_hash l). assert (Hh : hl <> []) by (by destruct l).
  assert (He : Nat.Even (length hl)) by (subst hl; by rewrite length_map).
  destruct (root_of_nonempty (hl ++ [leaf_hash c])) as [-> _]; [by destruct hl|].
  destruct (root_of_nonempty (hl ++ [leaf_hash c; leaf_hash c])) as [-> _]; [by destruct hl|].
  assert (0 < length hl) by (destruct hl; simpl; [done|lia]).
  rewrite (build_levels_fuel _ (S (length hl)) (hl ++ [leaf_hash c])), (build_levels_fuel _ (S (length hl)) (hl ++ [_; _]))
    by (rewrite !length_app; simpl; lia).
  rewrite !build_levels_step, !last_build_step by (rewrite !length_app; simpl; lia).
  by rewrite next_level_odd_tail.
Qed.

(** *** Concrete instances *)

Section Witnesses.
Import Toy.

Definition abc : list bytes := [as_bytes "a"; as_bytes "b"; as_bytes "c"].

Lemma inclusion_complete_witness :
  exists r p, root (from_leaves abc) = Some r /\ inclusion_proof (from_leaves abc) 2 = Some p /\
              leaf_index p = 2 /\ total_leaves p = 3 /\ length (steps p) = depth 3 /\
              verify_inclusion r (as_bytes "c") p = true.
Proof. apply (proj1 (inclusion_complete abc ltac:(discriminate)) 2 (as_bytes "c")). reflexivity. Qed.

Definition proof_of_b : InclusionProof :=
  mkInclusionProof 1 3 [mkProofStep Left (leaf_hash (as_bytes "a"));
    mkProofStep Right (node_hash (leaf_hash (as_bytes "c")) (leaf_hash (as_bytes "c")))].
Lemma inclusion_sound_witness : as_bytes "b" ∈ abc \/ collision_among sha256 (tree_texts abc ++ verify_texts (as_bytes "b") proof_of_b).
Proof.
  apply (inclusion_sound abc
    (node_hash (node_hash (leaf_hash (as_bytes "a")) (leaf_hash (as_bytes "b")))
               (node_hash (leaf_hash (as_bytes "c")) (leaf_hash (as_bytes "c"))))
    (as_bytes "b") proof_of_b).
  - discriminate.
  - reflexivity.
  - repeat constructor; vm_compute; reflexivity.
  - apply bool_decide_eq_true. reflexivity.
Qed.

Lemma root_binds_leaves_witness : abc = abc \/ collision_among sha256 (tree_texts abc ++ tree_texts abc).
Proof. apply (root_binds_leaves abc abc); reflexivity. Defined.

Lemma odd_tail_same_root_witness :
  root (from_leaves abc) = root (from_leaves [as_bytes "a"; as_bytes "b"; as_bytes "c"; as_bytes "c"]).
Proof. apply (odd_tail_same_root [as_bytes "a"; as_bytes "b"] (as_bytes "c")); [discriminate|by exists 1]. Defined.
End Witnesses.
