(* ===== verification/Constraint.v ===== *)
(** * The constraint language of tool contracts

    [crates/cloakpipe-release/src/contract.rs]: [JsonType], [Constraint], its
    load-time [validate] and its run-time [check], and the JSON-pointer paths
    a violation reports. *)

From S2P Require Import Prelude BTree Json Crates Concrete.

(** ** Data *)

Inductive json_type := TString | TInteger | TNumber | TBoolean | TObject | TArray | TNull.

#[global] Instance json_type_eq_dec : EqDecision json_type.
Proof. solve_decision. Defined.

(** [JsonType::matches] *)
Definition type_matches (t : json_type) (v : value) : bool :=
  match t, v with
  | TString, VString _ | TNumber, VNumber _ | TBoolean, VBool _
  | TObject, VObject _ | TArray, VArray _ | TNull, VNull => true
  | TInteger, VNumber n =>
      is_i64 n || is_u64 n || is_some_and (as_f64 n) (fun f => f64_is_finite f && f64_fract_is_zero f)
  | _, _ => false
  end.

Inductive ViolationCode :=
| ArgumentMissing
| UndeclaredArgument
| ArgumentInvalid
| ScopeMismatch
| TaskContextMissing.

Definition violation_code_str (c : ViolationCode) : string :=
  match c with
  | ArgumentMissing => "argument_missing"
  | UndeclaredArgument => "undeclared_argument"
  | ArgumentInvalid => "argument_invalid"
  | ScopeMismatch => "scope_mismatch"
  | TaskContextMissing => "task_context_missing"
  end.

Record Violation := mkViolation { code : ViolationCode; path : option string }.

#[global] Instance violation_code_eq_dec : EqDecision ViolationCode.
Proof. solve_decision. Defined.
#[global] Instance violation_eq_dec : EqDecision Violation.
Proof. solve_decision. Defined.

(** [Violation::at] *)
Definition violation_at (c : ViolationCode) (p : string) : Violation :=
  mkViolation c (if str_is_empty p then None else Some p).

(** [child]: one more JSON-pointer segment, escaped (RFC 6901). *)
Definition escape_segment (name : string) : string :=
  replace_char "/"%char "~1" (replace_char "~"%char "~0" name).
Definition child (p name : string) : string := p +:+ "/" +:+ escape_segment name.

(** [cmp_number]: exact for integers, IEEE otherwise. *)
Definition number_int (n : number) : option Z :=
  match as_i64 n with Some x => Some x | None => as_u64 n end.
Definition cmp_number (a b : number) : option comparison :=
  match number_int a, number_int b with
  | Some x, Some y => Some (x ?= y)%Z
  | _, _ =>
      let! x := as_f64 a else None in
      let! y := as_f64 b else None in f64_cmp x y
  end.

(** Following object keys: the loop of [task_value], [context_value] and the
    rules' [lookup]. *)
Fixpoint walk (v : value) (parts : list string) : option value :=
  match parts with
  | [] => Some v
  | p :: parts =>
      let! o := as_object v else None in
      let! w := BTree.get p o else None in walk w parts
  end.

(** [task_value]: [task.<a>.<b>...] *)
Definition task_value (task : option value) (key : string) : option value :=
  let! v := task else None in
  let! k := strip_prefix "task." key else None in walk v (split_on "."%char k).

(** [context_value]: a dotted path without the [task.] prefix. *)
Definition context_value (task : option value) (key : string) : option value :=
  let! v := task else None in walk v (split_on "."%char key).

Section Constraint.
Context {RC : RegexCrate}.

#[local] Unset Elimination Schemes.
Inductive constraint : Type := mkConstraint {
  ty : option json_type;
  one_of : option (list value);
  constant : option value;
  min_length : option Z;
  max_length : option Z;
  pattern : option string;
  minimum : option number;
  maximum : option number;
  properties : option (btree constraint);
  required : option (list string);
  additional_properties : option bool;
  min_properties : option Z;
  max_properties : option Z;
  items : option constraint;
  min_items : option Z;
  max_items : option Z;
  bind_to : option string;
  one_of_context : option (list string);
  or_pattern : option string;
  regex : option Regex;
  or_regex : option Regex;
}.
#[local] Set Elimination Schemes.

Definition has_string_keywords (c : constraint) : bool :=
  is_some (min_length c) || is_some (max_length c) || is_some (pattern c).
Definition has_number_keywords (c : constraint) : bool :=
  is_some (minimum c) || is_some (maximum c).
Definition has_object_keywords (c : constraint) : bool :=
  is_some (properties c) || is_some (required c) || is_some (additional_properties c)
  || is_some (min_properties c) || is_some (max_properties c).
Definition has_array_keywords (c : constraint) : bool :=
  is_some (items c) || is_some (min_items c) || is_some (max_items c).

(** ** Run-time check *)

(** [check_object], over the per-value check of a declared property:
    unknown keys, then missing required ones (the least name first), then
    counts, then each declared value in name order. *)
Definition check_object {C : Type} (check_value : C -> value -> string -> result Violation unit)
    (props : option (btree C)) (req : list string) (additional : bool)
    (mn mx : option Z) (o : btree value) (p : string) : result Violation unit :=
  if negb additional
     && existsb (fun k => negb (is_some_and props (BTree.contains_key k))) (BTree.keys o)
  then Err (violation_at UndeclaredArgument p)
  else
    match merge_sort String.le (filter (fun r => BTree.contains_key r o = false) req) with
    | r :: _ => Err (violation_at ArgumentMissing (child p r))
    | [] =>
        let n := Z.of_nat (length o) in
        if is_some_and mn (fun m => (n <? m)%Z) || is_some_and mx (fun m => (m <? n)%Z)
        then Err (violation_at ArgumentInvalid p)
        else
          match props with
          | Some m =>
              try_each (fun nc => let! v := BTree.get nc.1 o else Ok tt in check_value nc.2 v (child p nc.1)) m
          | None => Ok tt
          end
    end.

(** The [one_of_context] loop: whether some context value matches, and
    whether some is missing. *)
Definition context_step (task : option value) (v : value) (acc : bool * bool) (k : string) : bool * bool :=
  let '(missing, matched) := acc in
  match context_value task k with
  | None => (true, matched)
  | Some (VArray a) => (missing, matched || array_contains a v)
  | Some x => (missing, matched || value_eqb x v)
  end.
Definition context_scan (task : option value) (v : value) (keys : list string) : bool * bool :=
  fold_left (context_step task v) keys (false, false).

Definition or_pattern_matches (c : constraint) (v : value) : bool :=
  match or_regex c, as_str v with
  | Some re, Some s => is_match re s
  | _, _ => false
  end.

(** The guards of [Constraint::check] that look at the value alone. *)
Definition check_bind (c : constraint) (task : option value) (v : value) (p : string) : result Violation unit :=
  let! key := bind_to c else Ok tt in
  let? expected := ok_or (task_value task key) (violation_at TaskContextMissing p) in
  if value_eqb v expected then Ok tt else Err (violation_at ScopeMismatch p).

Definition check_context (c : constraint) (task : option value) (v : value) (p : string) : result Violation unit :=
  let! keys := one_of_context c else Ok tt in
  let '(missing, matched) := context_scan task v keys in
  if negb matched && negb (or_pattern_matches c v)
  then Err (violation_at (if missing then TaskContextMissing else ScopeMismatch) p)
  else Ok tt.

Definition check_plain (c : constraint) (v : value) : bool :=
  negb (is_some_and (ty c) (fun t => negb (type_matches t v)))
  && negb (is_some_and (constant c) (fun k => negb (value_eqb k v)))
  && negb (is_some_and (one_of c) (fun e => negb (array_contains e v))).

Definition check_string (c : constraint) (v : value) : bool :=
  if has_string_keywords c then
    match v with
    | VString s =>
        let n := chars_count s in
        negb (is_some_and (min_length c) (fun m => (n <? m)%Z)
              || is_some_and (max_length c) (fun m => (m <? n)%Z)
              || is_some_and (regex c) (fun re => negb (is_match re s)))
    | _ => false
    end
  else true.

(** Incomparable counts as out of range. *)
Definition is_ge (o : option comparison) : bool :=
  match o with Some (Gt | Eq) => true | _ => false end.
Definition is_le (o : option comparison) : bool :=
  match o with Some (Lt | Eq) => true | _ => false end.

Definition check_number (c : constraint) (v : value) : bool :=
  if has_number_keywords c then
    match v with
    | VNumber n =>
        let below := is_some_and (minimum c) (fun m => negb (is_ge (cmp_number n m))) in
        let above := is_some_and (maximum c) (fun m => negb (is_le (cmp_number n m))) in
        negb (below || above)
    | _ => false
    end
  else true.

(** The object and array keywords, over the check of the values inside. *)
Definition check_object_part (check : constraint -> value -> string -> result Violation unit)
    (c : constraint) (v : value) (p : string) : result Violation unit :=
  if has_object_keywords c || bool_decide (ty c = Some TObject) then
    match v with
    | VObject o =>
        check_object check (properties c) (default [] (required c))
          (default false (additional_properties c)) (min_properties c) (max_properties c) o p
    | _ => Err (violation_at ArgumentInvalid p)
    end
  else Ok tt.

Definition check_array_part (check : constraint -> value -> string -> result Violation unit)
    (c : constraint) (v : value) (p : string) : result Violation unit :=
  if has_array_keywords c then
    match v with
    | VArray a =>
        let n := Z.of_nat (length a) in
        if is_some_and (min_items c) (fun m => (n <? m)%Z) || is_some_and (max_items c) (fun m => (m <? n)%Z)
        then Err (violation_at ArgumentInvalid p)
        else
          match items c with
          | Some it => try_each (fun x => check it x (p +:+ "/items")) a
          | None => Ok tt
          end
    | _ => Err (violation_at ArgumentInvalid p)
    end
  else Ok tt.

(** [Constraint::check] *)
Fixpoint check (task : option value) (c : constraint) (v : value) (p : string) {struct c} : result Violation unit :=
  let? _ := check_bind c task v p in
  let? _ := check_context c task v p in
  if negb (check_plain c v && check_string c v && check_number c v)
  then Err (violation_at ArgumentInvalid p)
  else
    let? _ := check_object_part (check task) c v p in
    check_array_part (check task) c v p.

(** ** Load-time validation

    [Constraint::validate] compiles the patterns and normalises the context
    paths in place: here it returns the updated constraint.  An error is
    its reason and the contract path it is reported at. *)
Inductive constraint_problem :=
| KeywordsOfSeveralTypes
| KeywordsNotOfType (t : json_type)
| RestrictsNothing
| EmptyEnum
| BadBindTo (key : string)
| EmptyContext
| BadContextPath (key : string)
| OrPatternAlone
| BadOrPattern
| BadPattern
| UndeclaredRequired (r : string).

Definition constraint_error : Type := string * constraint_problem.

Definition families (c : constraint) : list (list json_type) :=
  (if has_string_keywords c then [[TString]] else [])
  ++ (if has_number_keywords c then [[TNumber; TInteger]] else [])
  ++ (if has_object_keywords c then [[TObject]] else [])
  ++ (if has_array_keywords c then [[TArray]] else []).

Definition restricts (c : constraint) : bool :=
  is_some (ty c) || is_some (one_of c) || is_some (constant c) || is_some (bind_to c)
  || is_some (one_of_context c) || negb (bool_decide (families c = [])).

Definition dotted_path_ok (k : string) : bool :=
  forallb (fun s => negb (str_is_empty s)) (split_on "."%char k).

Definition bind_to_ok (key : string) : bool := is_some_and (strip_prefix "task." key) dotted_path_ok.

Definition normalise_context (p k : string) : result constraint_error string :=
  let key := default k (strip_prefix "task." k) in
  if str_is_empty key || negb (dotted_path_ok key) then Err (p, BadContextPath k) else Ok key.

(** The anchored source of [pattern]. *)
Definition anchored (p : string) : string := "^(?:" +:+ p +:+ ")$".

Definition validate_shape (c : constraint) (p : string) : result constraint_error unit :=
  let used := families c in
  if bool_decide (1 < length used) then Err (p, KeywordsOfSeveralTypes) else
  let? _ :=
    match ty c, used with
    | Some t, types :: _ => if bool_decide (t ∈ types) then Ok tt else Err (p, KeywordsNotOfType t)
    | _, _ => Ok tt
    end in
  if negb (restricts c) then Err (p, RestrictsNothing) else
  if is_some_and (one_of c) (fun e => bool_decide (e = [])) then Err (p, EmptyEnum) else
  match bind_to c with
  | Some key => if bind_to_ok key then Ok tt else Err (p, BadBindTo key)
  | None => Ok tt
  end.

Definition validate_context (c : constraint) (p : string) : result constraint_error (option (list string)) :=
  match one_of_context c with
  | None => Ok None
  | Some [] => Err (p, EmptyContext)
  | Some keys => let? keys := try_map (normalise_context p) keys in Ok (Some keys)
  end.

Definition compile_or_pattern (c : constraint) (p : string) : result constraint_error (option Regex) :=
  match or_pattern c with
  | None => Ok (or_regex c)
  | Some src =>
      if is_none (one_of_context c) then Err (p, OrPatternAlone)
      else let? re := ok_or (regex_new src) (p, BadOrPattern) in Ok (Some re)
  end.

Definition compile_pattern (c : constraint) (p : string) : result constraint_error (option Regex) :=
  match pattern c with
  | None => Ok (regex c)
  | Some src => let? re := ok_or (regex_new (anchored src)) (p, BadPattern) in Ok (Some re)
  end.

Definition validate_required (c : constraint) (p : string) : result constraint_error unit :=
  match required c with
  | None => Ok tt
  | Some req =>
      try_each (fun r => if is_some_and (properties c) (BTree.contains_key r) then Ok tt
                         else Err (p, UndeclaredRequired r)) req
  end.

(** [Constraint::validate] *)
Fixpoint validate (c : constraint) (p : string) {struct c} : result constraint_error constraint :=
  let? _ := validate_shape c p in
  let? ctx := validate_context c p in
  let? or_re := compile_or_pattern c p in
  let? re := compile_pattern c p in
  let? _ := validate_required c p in
  let? props :=
    match properties c with
    | Some m =>
        let? m := try_map (fun nc => let? c := validate nc.2 (child p nc.1) in Ok (nc.1, c)) m in Ok (Some m)
    | None => Ok None
    end in
  let? its :=
    match items c with
    | Some it => let? it := validate it (p +:+ "/items") in Ok (Some it)
    | None => Ok None
    end in
  Ok {| ty := ty c; one_of := one_of c; constant := constant c; min_length := min_length c;
        max_length := max_length c; pattern := pattern c; minimum := minimum c; maximum := maximum c;
        properties := props; required := required c; additional_properties := additional_properties c;
        min_properties := min_properties c; max_properties := max_properties c; items := its;
        min_items := min_items c; max_items := max_items c; bind_to := bind_to c;
        one_of_context := ctx; or_pattern := or_pattern c; regex := re; or_regex := or_re |}.

(** ** Specification: when a value conforms to a constraint *)

Definition context_allows (c : constraint) (task : option value) (v : value) (keys : list string) : Prop :=
  (exists k x, k ∈ keys /\ context_value task k = Some x /\
     match x with VArray a => Exists (fun y => value_eqb y v = true) a | _ => value_eqb x v = true end)
  \/ (exists re s, or_regex c = Some re /\ v = VString s /\ is_match re s = true).

Definition string_ok (c : constraint) (s : string) : Prop :=
  (forall m, min_length c = Some m -> (m <= chars_count s)%Z) /\
  (forall m, max_length c = Some m -> (chars_count s <= m)%Z) /\
  (forall re, regex c = Some re -> is_match re s = true).

Definition number_ok (c : constraint) (n : number) : Prop :=
  (forall m, minimum c = Some m -> cmp_number n m = Some Gt \/ cmp_number n m = Some Eq) /\
  (forall m, maximum c = Some m -> cmp_number n m = Some Lt \/ cmp_number n m = Some Eq).

Definition count_ok (mn mx : option Z) (n : Z) : Prop :=
  (forall m, mn = Some m -> (m <= n)%Z) /\ (forall m, mx = Some m -> (n <= m)%Z).

Definition object_shape {C : Type} (props : option (btree C)) (req : list string) (additional : bool)
    (mn mx : option Z) (o : btree value) : Prop :=
  (additional = false -> forall k, k ∈ BTree.keys o -> k ∈ BTree.keys (default [] props)) /\
  (forall r, r ∈ req -> r ∈ BTree.keys o) /\
  count_ok mn mx (Z.of_nat (length o)).

Definition object_shape_of (c : constraint) (o : btree value) : Prop :=
  object_shape (properties c) (default [] (required c)) (default false (additional_properties c))
    (min_properties c) (max_properties c) o.

Inductive conforms (task : option value) : constraint -> value -> Prop :=
| conforms_intro c v :
    (forall key, bind_to c = Some key -> exists e, task_value task key = Some e /\ value_eqb v e = true) ->
    (forall keys, one_of_context c = Some keys -> context_allows c task v keys) ->
    (forall t, ty c = Some t -> type_matches t v = true) ->
    (forall k, constant c = Some k -> value_eqb k v = true) ->
    (forall e, one_of c = Some e -> Exists (fun x => value_eqb x v = true) e) ->
    (has_string_keywords c = true -> exists s, v = VString s /\ string_ok c s) ->
    (has_number_keywords c = true -> exists n, v = VNumber n /\ number_ok c n) ->
    (has_object_keywords c = true \/ ty c = Some TObject -> exists o, v = VObject o /\ object_shape_of c o) ->
    (has_object_keywords c = true \/ ty c = Some TObject ->
       forall o name c' v', v = VObject o -> (name, c') ∈ default [] (properties c) ->
         BTree.get name o = Some v' -> conforms task c' v') ->
    (has_array_keywords c = true ->
       exists a, v = VArray a /\ count_ok (min_items c) (max_items c) (Z.of_nat (length a))) ->
    (has_array_keywords c = true ->
       forall a it x, v = VArray a -> items c = Some it -> x ∈ a -> conforms task it x) ->
    conforms task c v.

(** The paths a constraint can report, from the contract alone: segments
    below the constraint, outermost first. *)
Inductive contract_path : constraint -> list string -> Prop :=
| path_here c : contract_path c []
| path_required c req r : required c = Some req -> r ∈ req -> contract_path c [r]
| path_property c m name c' segs :
    properties c = Some m -> (name, c') ∈ m -> contract_path c' segs -> contract_path c (name :: segs)
| path_items c it segs :
    items c = Some it -> contract_path it segs -> contract_path c ("items" :: segs).

(** What [validate] establishes: at most one keyword family, a restriction,
    every pattern compiled from its source, required names declared, and
    the same below. *)
Inductive validated : constraint -> Prop :=
| validated_intro c :
    length (families c) <= 1 ->
    (forall t types, ty c = Some t -> types ∈ families c -> t ∈ types) ->
    restricts c = true ->
    (forall key, bind_to c = Some key -> bind_to_ok key = true) ->
    (forall keys, one_of_context c = Some keys -> keys <> [] /\ Forall (fun k => dotted_path_ok k = true) keys) ->
    (forall src, pattern c = Some src -> exists re, regex_new (anchored src) = Some re /\ regex c = Some re) ->
    (forall src, or_pattern c = Some src ->
       is_some (one_of_context c) = true /\ exists re, regex_new src = Some re /\ or_regex c = Some re) ->
    (forall req r, required c = Some req -> r ∈ req -> r ∈ BTree.keys (default [] (properties c))) ->
    (forall m name c', properties c = Some m -> (name, c') ∈ m -> validated c') ->
    (forall it, items c = Some it -> validated it) ->
    validated c.

(** ** Induction over a constraint and its sub-constraints *)

Lemma constraint_ind (P : constraint -> Prop) :
  (forall c, (forall m, properties c = Some m -> Forall (fun nc => P nc.2) m) ->
             (forall it, items c = Some it -> P it) -> P c) ->
  forall c, P c.
Proof.
  intros step.
  refine (fix F c := step c
    (fun m => match properties c as o return o = Some m -> Forall (fun nc => P nc.2) m with
              | Some m0 => fun e => eq_ind m0 (Forall (fun nc => P nc.2))
                  ((fix go l : Forall (fun nc => P nc.2) l :=
                      match l with [] => Forall_nil_2 _ | x :: l => Forall_cons_2 _ x l (F x.2) (go l) end) m0)
                  m (Some_inj _ _ e)
              | None => fun e => _
              end)
    (fun it => match items c as o return o = Some it -> P it with
               | Some it0 => fun e => eq_ind it0 P (F it0) it (Some_inj _ _ e)
               | None => fun e => _
               end)); discriminate e.
Qed.

(** ** Lemmas *)

Lemma check_count mn mx n :
  is_some_and mn (fun m => (n <? m)%Z) || is_some_and mx (fun m => (m <? n)%Z) = false <-> count_ok mn mx n.
Proof.
  unfold count_ok. rewrite orb_false_iff, !is_some_and_false. setoid_rewrite Z.ltb_ge. done.
Qed.

Lemma missing_nil (o : btree value) req :
  merge_sort String.le (filter (fun r => BTree.contains_key r o = false) req) = [] <->
  forall r, r ∈ req -> r ∈ BTree.keys o.
Proof.
  pose proof (merge_sort_Permutation String.le (filter (fun r => BTree.contains_key r o = false) req)) as HP.
  split.
  - intros Hs r Hr. rewrite Hs in HP. apply Permutation_nil_l in HP.
    destruct (BTree.contains_key r o) eqn:Hc; [by apply BTree.contains_key_elem|].
    exfalso. apply (filter_nil_not_elem_of _ _ r (eq_sym HP) Hc Hr).
  - intros Hall. assert (filter (fun r => BTree.contains_key r o = false) req = []) as Hf.
    { destruct (filter _ req) as [|r l] eqn:Hl; [done|].
      assert (r ∈ filter (fun r => BTree.contains_key r o = false) req) as Hr by (rewrite Hl; left).
      apply list_elem_of_filter in Hr as [Hc Hr]. apply Hall, BTree.contains_key_elem in Hr. congruence. }
    by rewrite Hf.
Qed.

Lemma missing_cons (o : btree value) req r l :
  merge_sort String.le (filter (fun r => BTree.contains_key r o = false) req) = r :: l -> r ∈ req.
Proof.
  intros Hs. pose proof (merge_sort_Permutation String.le (filter (fun r => BTree.contains_key r o = false) req)) as HP.
  rewrite Hs in HP. assert (r ∈ filter (fun r => BTree.contains_key r o = false) req) as Hr.
  { rewrite <- HP. left. }
  by apply list_elem_of_filter in Hr as [_ ?].
Qed.

Lemma check_object_ok {C} (chk : C -> value -> string -> result Violation unit) props req additional mn mx o p :
  check_object chk props req additional mn mx o p = Ok tt <->
  object_shape props req additional mn mx o /\
  forall name c v, (name, c) ∈ default [] props -> BTree.get name o = Some v -> chk c v (child p name) = Ok tt.
Proof.
  unfold check_object, object_shape.
  assert (negb additional && existsb (fun k => negb (is_some_and props (BTree.contains_key k))) (BTree.keys o) = false
          <-> (additional = false -> forall k, k ∈ BTree.keys o -> k ∈ BTree.keys (default [] props))) as Hclosed.
  { destruct additional; simpl; [done|]. rewrite existsb_false, Forall_forall.
    split.
    - intros Hk _ k Hin. specialize (Hk k Hin). apply negb_false_iff in Hk.
      destruct props; [|done]. by apply BTree.contains_key_elem.
    - intros Hk k Hin. apply negb_false_iff. specialize (Hk eq_refl k Hin).
      destruct props; [by apply BTree.contains_key_elem|]. by apply elem_of_nil in Hk. }
  destruct (negb additional && _) eqn:Hc.
  { split; [done|]. intros [[H1 _] _]. by apply Hclosed in H1. }
  pose proof (missing_nil o req) as Hmiss.
  destruct (merge_sort _ _) as [|r l]; [|split; [done|]; intros [(_ & H2 & _) _]; by apply Hmiss in H2].
  cbv zeta. pose proof (check_count mn mx (Z.of_nat (length o))) as Hcnt.
  destruct (is_some_and mn _ || _); [split; [done|]; intros [(_ & _ & H3) _]; by apply Hcnt in H3|].
  transitivity (forall name c v, (name, c) ∈ default [] props -> BTree.get name o = Some v ->
                  chk c v (child p name) = Ok tt).
  - destruct props as [m|]; simpl.
    + rewrite try_each_ok, Forall_forall. split.
      * intros Hall name c v Hin Hg. specialize (Hall _ Hin). simpl in Hall. by rewrite Hg in Hall.
      * intros Hall [name c] Hin. simpl. destruct (BTree.get name o) as [v|] eqn:Hg; [eauto|done].
    + split; [|done]. by intros _ name c v ?%elem_of_nil.
  - split; [|by intros [_ ?]]. intros ?. repeat split; try done.
    + by apply Hclosed.
    + by apply Hmiss.
    + by apply Hcnt.
    + by apply Hcnt.
Qed.

(** The scan of the context paths, as a fold from any accumulator. *)
Definition context_matches (task : option value) (v : value) (k : string) : Prop :=
  exists x, context_value task k = Some x /\
    match x with VArray a => Exists (fun y => value_eqb y v = true) a | _ => value_eqb x v = true end.

Lemma context_step_spec task v acc k :
  ((context_step task v acc k).2 = true <-> acc.2 = true \/ context_matches task v k) /\
  ((context_step task v acc k).1 = true <-> acc.1 = true \/ context_value task k = None).
Proof.
  destruct acc as [ms mt]. unfold context_step, context_matches, array_contains.
  destruct (context_value task k) as [x|]; simpl.
  - destruct x; simpl; rewrite orb_true_iff, ?existsb_Exists;
      (split; [split; (intros [?|?]; [by left|right]); [eexists; split; [done|]; by simpl|];
               by match goal with H : exists _, _ |- _ => destruct H as (? & [= <-] & ?) end
              |split; [by left|by intros [?|?]]]).
  - split; [split; [by left|by intros [?|(? & ? & ?)]]|split; [by right|done]].
Qed.

Lemma context_scan_spec task v keys :
  ((context_scan task v keys).2 = true <-> exists k, k ∈ keys /\ context_matches task v k) /\
  ((context_scan task v keys).1 = true <-> exists k, k ∈ keys /\ context_value task k = None).
Proof.
  unfold context_scan.
  enough (forall acc, ((fold_left (context_step task v) keys acc).2 = true <->
               acc.2 = true \/ exists k, k ∈ keys /\ context_matches task v k) /\
            ((fold_left (context_step task v) keys acc).1 = true <->
               acc.1 = true \/ exists k, k ∈ keys /\ context_value task k = None)) as Hall.
  { destruct (Hall (false, false)) as [-> ->]. simpl. split; (split; [by intros [?|?] | by right]). }
  induction keys as [|k keys IH]; intros acc; simpl.
  - split; (split; [by left | by intros [?|(k & ?%elem_of_nil & _)]]).
  - destruct (IH (context_step task v acc k)) as [-> ->], (context_step_spec task v acc k) as [-> ->].
    setoid_rewrite elem_of_cons. split; (split; [intros [[?|?]|(k' & ? & ?)]; eauto 8|]);
      intros [?|(k' & [->|?] & ?)]; eauto 8.
Qed.

Lemma check_bind_ok c task v p :
  check_bind c task v p = Ok tt <->
  forall key, bind_to c = Some key -> exists e, task_value task key = Some e /\ value_eqb v e = true.
Proof.
  unfold check_bind. destruct (bind_to c) as [key|]; [|by split].
  destruct (task_value task key) as [e|] eqn:He; simpl.
  - destruct (value_eqb v e) eqn:Hv.
    + split; [|done]. intros _ k [= <-]. by exists e.
    + split; [done|]. intros Hk. destruct (Hk key eq_refl) as (e' & He' & ?). congruence.
  - split; [done|]. intros Hk. destruct (Hk key eq_refl) as (e' & He' & ?). congruence.
Qed.

Lemma or_pattern_matches_true c v :
  or_pattern_matches c v = true <-> exists re s, or_regex c = Some re /\ v = VString s /\ is_match re s = true.
Proof.
  unfold or_pattern_matches. destruct (or_regex c) as [re|], v as [| | |s| |]; simpl;
    split; try done; try (by intros (? & ? & ? & ? & ?)); try (by intros (? & ? & [= <-] & [= <-] & ?)).
  intros Hm. by exists re, s.
Qed.

Lemma check_context_ok c task v p :
  check_context c task v p = Ok tt <-> forall keys, one_of_context c = Some keys -> context_allows c task v keys.
Proof.
  unfold check_context. destruct (one_of_context c) as [keys|]; [|by split].
  destruct (context_scan_spec task v keys) as [Hmatch _].
  destruct (context_scan task v keys) as [missing matched]. simpl in Hmatch.
  assert (context_allows c task v keys <-> matched = true \/ or_pattern_matches c v = true) as Hallow.
  { unfold context_allows. rewrite Hmatch, or_pattern_matches_true. unfold context_matches.
    split; (intros [H|H]; [left|right]; try done); destruct H as (k & H); [destruct H as (x & ? & ? & ?)|destruct H as (? & x & ? & ?)]; eauto. }
  transitivity (context_allows c task v keys); [rewrite Hallow|split; [by intros ? ? [= <-] | by intros H; apply H]].
  destruct matched, (or_pattern_matches c v); simpl; split; auto; try done. by intros [|].
Qed.

Lemma check_plain_ok c v :
  check_plain c v = true <->
  (forall t, ty c = Some t -> type_matches t v = true) /\
  (forall k, constant c = Some k -> value_eqb k v = true) /\
  (forall e, one_of c = Some e -> Exists (fun x => value_eqb x v = true) e).
Proof.
  unfold check_plain, array_contains. rewrite !andb_true_iff, !guard_opt_true.
  setoid_rewrite existsb_Exists. tauto.
Qed.

Lemma check_string_ok c v :
  check_string c v = true <-> (has_string_keywords c = true -> exists s, v = VString s /\ string_ok c s).
Proof.
  unfold check_string, string_ok. destruct (has_string_keywords c); [|by split].
  assert (forall s, (exists s', v = VString s' /\ string_ok c s') -> v = VString s -> string_ok c s) as Hinv
    by (by intros s (s' & -> & ?) [= <-]).
  destruct v as [| | |s| |]; try (split; [done|]; intros H; by destruct (H eq_refl) as (? & ? & _)).
  cbv zeta. rewrite negb_true_iff, !orb_false_iff, !is_some_and_false.
  setoid_rewrite Z.ltb_ge. setoid_rewrite negb_false_iff. split.
  - intros [[? ?] ?] _. by exists s.
  - intros H. destruct (Hinv s (H eq_refl) eq_refl) as (? & ? & ?). done.
Qed.

Lemma is_ge_true o : is_ge o = true <-> o = Some Gt \/ o = Some Eq.
Proof. destruct o as [[]|]; simpl; split; auto; try done; by intros [|]. Qed.
Lemma is_le_true o : is_le o = true <-> o = Some Lt \/ o = Some Eq.
Proof. destruct o as [[]|]; simpl; split; auto; try done; by intros [|]. Qed.

Lemma check_number_ok c v :
  check_number c v = true <-> (has_number_keywords c = true -> exists n, v = VNumber n /\ number_ok c n).
Proof.
  unfold check_number, number_ok. destruct (has_number_keywords c); [|by split].
  destruct v as [| |n| | |]; try (split; [done|]; intros H; by destruct (H eq_refl) as (? & ? & _)).
  cbv zeta. rewrite negb_orb, andb_true_iff, !guard_opt_true.
  setoid_rewrite is_ge_true. setoid_rewrite is_le_true. split.
  - intros [? ?] _. by exists n.
  - intros H. by destruct (H eq_refl) as (? & [= <-] & ? & ?).
Qed.

Lemma object_part_ok c v p (chk : constraint -> value -> string -> result Violation unit) :
  check_object_part chk c v p = Ok tt <->
  (has_object_keywords c = true \/ ty c = Some TObject ->
     exists o, v = VObject o /\ object_shape_of c o /\
       forall name c' v', (name, c') ∈ default [] (properties c) -> BTree.get name o = Some v' ->
         chk c' v' (child p name) = Ok tt).
Proof.
  unfold check_object_part.
  assert (has_object_keywords c || bool_decide (ty c = Some TObject) = true <->
          has_object_keywords c = true \/ ty c = Some TObject) as Hb
    by (by rewrite orb_true_iff, bool_decide_eq_true).
  destruct (_ || _).
  - destruct v as [| | | | |o]; try (split; [done|]; intros Hv; by destruct Hv as (? & ? & _); [apply Hb|]).
    rewrite check_object_ok. split; [intros [? ?] _; by exists o|].
    intros Hv. destruct Hv as (o' & [= <-] & ? & ?); [by apply Hb|done].
  - split; [|done]. intros _ H%Hb. done.
Qed.

Lemma array_part_ok c v p (chk : constraint -> value -> string -> result Violation unit) :
  check_array_part chk c v p = Ok tt <->
  (has_array_keywords c = true ->
     exists a, v = VArray a /\ count_ok (min_items c) (max_items c) (Z.of_nat (length a)) /\
       forall it x, items c = Some it -> x ∈ a -> chk it x (p +:+ "/items") = Ok tt).
Proof.
  unfold check_array_part.
  destruct (has_array_keywords c); [|by split].
  destruct v as [| | | |a|]; try (split; [done|]; intros Hv; by destruct (Hv eq_refl) as (? & ? & _)).
  cbv zeta. pose proof (check_count (min_items c) (max_items c) (Z.of_nat (length a))) as Hcnt.
  destruct (is_some_and (min_items c) _ || _).
  { split; [done|]. intros Hv. destruct (Hv eq_refl) as (a' & [= <-] & H & _). by apply Hcnt in H. }
  destruct (items c) as [it|].
  - rewrite try_each_ok, Forall_forall. split.
    + intros Hall _. exists a. split; [done|]. split; [by apply Hcnt|]. intros ? x [= <-]. auto.
    + intros Hv x Hx. destruct (Hv eq_refl) as (a' & [= <-] & _ & H). by apply H.
  - split; [|done]. intros _ _. exists a. split; [done|]. split; [by apply Hcnt|done].
Qed.

Lemma check_eq task c v p :
  check task c v p =
    (let? _ := check_bind c task v p in
     let? _ := check_context c task v p in
     if negb (check_plain c v && check_string c v && check_number c v)
     then Err (violation_at ArgumentInvalid p)
     else let? _ := check_object_part (check task) c v p in check_array_part (check task) c v p).
Proof. by destruct c. Qed.

Lemma check_stages task c v p :
  check task c v p = Ok tt <->
  check_bind c task v p = Ok tt /\ check_context c task v p = Ok tt /\ check_plain c v = true /\
  check_string c v = true /\ check_number c v = true /\
  check_object_part (check task) c v p = Ok tt /\ check_array_part (check task) c v p = Ok tt.
Proof.
  rewrite check_eq.
  destruct (check_bind _ _ _ _) as [[]|]; [|split; [discriminate|intros [? _]; discriminate]].
  destruct (check_context _ _ _ _) as [[]|]; [|split; [discriminate|intros (_ & ? & _); discriminate]].
  destruct (check_plain c v), (check_string c v), (check_number c v); cbn [andb negb];
    try (split; [discriminate|intros (_ & _ & ? & ? & ? & _); discriminate]).
  destruct (check_object_part _ _ _ _) as [[]|];
    [|split; [discriminate|intros (_ & _ & _ & _ & _ & ? & _); discriminate]].
  tauto.
Qed.

(** The check accepts exactly the values that conform, whatever the path
    it reports from. *)
Lemma check_conforms task c v p : check task c v p = Ok tt <-> conforms task c v.
Proof.
  revert v p. induction c as [c IHprops IHitems] using constraint_ind. intros v p.
  assert (forall name c' v' p', (name, c') ∈ default [] (properties c) ->
            check task c' v' p' = Ok tt <-> conforms task c' v') as IHp.
  { intros name c' v' p' Hin. destruct (properties c) as [m|]; [|by apply elem_of_nil in Hin].
    specialize (IHprops m eq_refl). rewrite Forall_forall in IHprops. apply (IHprops (name, c') Hin). }
  clear IHprops.
  rewrite check_stages, check_bind_ok, check_context_ok, check_plain_ok, check_string_ok, check_number_ok,
    object_part_ok, array_part_ok.
  split.
  - intros (? & ? & (? & ? & ?) & ? & ? & Hobj & Harr). constructor; try assumption.
    + intros Ho. destruct (Hobj Ho) as (o & ? & ? & _). by exists o.
    + intros Ho o name c' v' -> Hin Hg. destruct (Hobj Ho) as (? & [= <-] & _ & Hall).
      by eapply (IHp _ _ _ _ Hin), Hall.
    + intros Ha. destruct (Harr Ha) as (a & ? & ? & _). by exists a.
    + intros Ha a it x -> Hit Hx. destruct (Harr Ha) as (? & [= <-] & _ & Hall).
      by eapply IHitems, Hall.
  - intros Hc. inversion Hc as [? ? ? ? ? ? ? ? ? Hshape Hin Hcnt Hits]; subst.
    repeat (apply conj); try assumption.
    + intros Ho. destruct (Hshape Ho) as (o & -> & ?). exists o. split; [done|]. split; [done|].
      intros name c' v' Hin' Hg. by eapply (IHp _ _ _ _ Hin'), Hin.
    + intros Ha. destruct (Hcnt Ha) as (a & -> & ?). exists a. split; [done|]. split; [done|].
      intros it x Hit Hx. by eapply IHitems, Hits.
Qed.

(** *** Where a violation is reported *)

Lemma check_object_err {C} (chk : C -> value -> string -> result Violation unit) props req additional mn mx o p w :
  check_object chk props req additional mn mx o p = Err w ->
  (exists k, w = violation_at k p) \/
  (exists r, r ∈ req /\ w = violation_at ArgumentMissing (child p r)) \/
  (exists name c v, (name, c) ∈ default [] props /\ chk c v (child p name) = Err w).
Proof.
  unfold check_object. destruct (negb additional && _); [intros [= <-]; eauto|].
  pose proof (missing_cons o req) as Hmiss. destruct (merge_sort _ _) as [|r l].
  - cbv zeta. destruct (is_some_and mn _ || _); [intros [= <-]; eauto|].
    destruct props as [m|]; [|done]. intros ([name c] & Hin & Hx)%try_each_err_elem. simpl in Hx.
    destruct (BTree.get name o) as [v|]; [|done]. right. right. by exists name, c, v.
  - intros [= <-]. right. left. exists r. split; [by eapply Hmiss|done].
Qed.

Lemma check_leaf_err c task v p w :
  check_bind c task v p = Err w \/ check_context c task v p = Err w -> exists k, w = violation_at k p.
Proof.
  unfold check_bind, check_context. intros [H|H].
  - destruct (bind_to c); [|done]. destruct (task_value _ _); simpl in H; [|simplify_eq; eauto].
    destruct (value_eqb _ _); simplify_eq; eauto.
  - destruct (one_of_context c); [|done]. destruct (context_scan _ _ _) as [ms mt].
    destruct (_ && _); simplify_eq; eauto.
Qed.

Lemma child_items p : child p "items" = p +:+ "/items".
Proof. done. Qed.

(** A violation is reported at a path of the contract: the path depends on
    the constraint, never on the value. *)
Lemma check_err_path task c v p w :
  check task c v p = Err w -> exists segs k, contract_path c segs /\ w = violation_at k (fold_left child segs p).
Proof.
  revert v p w. induction c as [c IHprops IHitems] using constraint_ind. intros v p w.
  assert (forall k, w = violation_at k p -> exists segs k, contract_path c segs /\ w = violation_at k (fold_left child segs p)) as Hhere
    by (intros k ->; exists [], k; split; [constructor|done]).
  rewrite check_eq. pose proof (check_leaf_err c task v p w) as Hleaf.
  destruct (check_bind _ _ _ _) as [[]|e]; [|intros Hw; destruct Hleaf as [k Hk]; [left; congruence|by apply (Hhere k)]].
  destruct (check_context _ _ _ _) as [[]|e]; [|intros Hw; destruct Hleaf as [k Hk]; [right; congruence|by apply (Hhere k)]].
  destruct (negb _); [intros [= <-]; by eapply Hhere|].
  destruct (check_object_part (check task) c v p) as [[]|e] eqn:Hobj.
  - unfold check_array_part. destruct (has_array_keywords c); [|done].
    destruct v as [| | | |a|]; try (intros [= <-]; by eapply Hhere). cbv zeta.
    destruct (_ || _); [intros [= <-]; by eapply Hhere|].
    destruct (items c) as [it|] eqn:Hit; [|done].
    intros (x & _ & Hx)%try_each_err_elem. destruct (IHitems it eq_refl _ _ _ Hx) as (segs & k & Hp & ->).
    exists ("items" :: segs), k. split; [by eapply path_items|done].
  - intros [= <-]. unfold check_object_part in Hobj.
    destruct (_ || _); [|done]. destruct v as [| | | | |o]; try (injection Hobj as <-; by eapply Hhere).
    apply check_object_err in Hobj as [[k ->]|[(r & Hr & ->)|(name & c' & v' & Hin & Hc)]].
    + by eapply Hhere.
    + exists [r], ArgumentMissing. split; [|done].
      destruct (required c) as [req|] eqn:Hreq; [by eapply path_required|by apply elem_of_nil in Hr].
    + destruct (properties c) as [m|] eqn:Hm; [|by apply elem_of_nil in Hin].
      specialize (IHprops m eq_refl). rewrite Forall_forall in IHprops.
      destruct (IHprops (name, c') Hin _ _ _ Hc) as (segs & k & Hp & ->).
      exists (name :: segs), k. split; [by eapply path_property|done].
Qed.

(** *** What validation establishes *)

Lemma validate_eq c p :
  validate c p =
    (let? _ := validate_shape c p in
     let? ctx := validate_context c p in
     let? or_re := compile_or_pattern c p in
     let? re := compile_pattern c p in
     let? _ := validate_required c p in
     let? props :=
       match properties c with
       | Some m => let? m := try_map (fun nc => let? c := validate nc.2 (child p nc.1) in Ok (nc.1, c)) m in Ok (Some m)
       | None => Ok None
       end in
     let? its :=
       match items c with
       | Some it => let? it := validate it (p +:+ "/items") in Ok (Some it)
       | None => Ok None
       end in
     Ok {| ty := ty c; one_of := one_of c; constant := constant c; min_length := min_length c;
           max_length := max_length c; pattern := pattern c; minimum := minimum c; maximum := maximum c;
           properties := props; required := required c; additional_properties := additional_properties c;
           min_properties := min_properties c; max_properties := max_properties c; items := its;
           min_items := min_items c; max_items := max_items c; bind_to := bind_to c;
           one_of_context := ctx; or_pattern := or_pattern c; regex := re; or_regex := or_re |}).
Proof. by destruct c. Qed.

Lemma validate_shape_ok c p : validate_shape c p = Ok tt ->
  length (families c) <= 1 /\
  (forall t types, ty c = Some t -> types ∈ families c -> t ∈ types) /\
  restricts c = true /\ (forall key, bind_to c = Some key -> bind_to_ok key = true).
Proof.
  unfold validate_shape. case_bool_decide as Hlen; [done|].
  destruct (families c) as [|types l] eqn:Hf.
  - destruct (ty c) as [t|]; (destruct (negb (restricts c)) eqn:Hr; [done|]);
      (destruct (is_some_and (one_of c) _); [done|]); intros Hb; apply negb_false_iff in Hr;
      (repeat split; [simpl; lia | by intros ? ? _ ?%elem_of_nil | done |]);
      intros key Hk; rewrite Hk in Hb; by destruct (bind_to_ok key).
  - assert (l = []) as -> by (destruct l; [done|simpl in Hlen; lia]).
    destruct (ty c) as [t|]; [case_bool_decide as Ht; [|done]|];
      (destruct (negb (restricts c)) eqn:Hr; [done|]);
      (destruct (is_some_and (one_of c) _); [done|]); intros Hb; apply negb_false_iff in Hr;
      (repeat split; [simpl; lia | | done |]);
      try (intros key Hk; rewrite Hk in Hb; by destruct (bind_to_ok key)).
    + by intros ? ? [= <-] ->%list_elem_of_singleton.
    + done.
Qed.

Lemma validate_context_ok c p ctx : validate_context c p = Ok ctx ->
  is_some ctx = is_some (one_of_context c) /\
  forall keys, ctx = Some keys -> keys <> [] /\ Forall (fun k => dotted_path_ok k = true) keys.
Proof.
  unfold validate_context. destruct (one_of_context c) as [[|k keys]|]; [done| |intros [= <-]; done].
  destruct (try_map _ _) as [ks|] eqn:Hm; [|done]. intros [= <-]. split; [done|]. intros keys' [= <-].
  apply try_map_Ok in Hm. split; [by inversion Hm|].
  clear -Hm. induction Hm as [|x y l l' Hx _ IH]; constructor; [|done].
  unfold normalise_context in Hx. destruct (_ || _) eqn:Hb; [done|]. injection Hx as <-.
  apply orb_false_iff in Hb as [_ Hb]. by apply negb_false_iff.
Qed.

(** What each step of the validation leaves behind. *)
Lemma validated_properties p m m' :
  Forall (fun nc => forall p c', validate nc.2 p = Ok c' -> validated c') m ->
  try_map (fun nc => let? c := validate nc.2 (child p nc.1) in Ok (nc.1, c)) m = Ok m' ->
  BTree.keys m' = BTree.keys m /\ forall name c', (name, c') ∈ m' -> validated c'.
Proof.
  intros IH Hm%try_map_Ok. unfold BTree.keys.
  induction Hm as [|[n c] [n' c'] l l' Hx _ IHm]; [split; [done|by intros ? ? ?%elem_of_nil]|].
  apply Forall_cons in IH as [Hc IH]. destruct (IHm IH) as [IH1 IH2].
  simpl in Hx, Hc. destruct (validate c (child p n)) as [c1|] eqn:Hv; [|discriminate].
  injection Hx as -> ->. split; [cbn; by rewrite IH1|].
  intros name c'' [[= -> ->]|Hin]%elem_of_cons; [by eapply Hc|by eapply IH2].
Qed.

Lemma compile_pattern_ok c p re : compile_pattern c p = Ok re ->
  forall src, pattern c = Some src -> exists r, regex_new (anchored src) = Some r /\ re = Some r.
Proof.
  unfold compile_pattern. intros H src Hsrc. rewrite Hsrc in H.
  destruct (regex_new _) as [r|]; [|discriminate]. injection H as <-. eauto.
Qed.

Lemma compile_or_pattern_ok c p re : compile_or_pattern c p = Ok re ->
  forall src, or_pattern c = Some src ->
  is_some (one_of_context c) = true /\ exists r, regex_new src = Some r /\ re = Some r.
Proof.
  unfold compile_or_pattern. intros H src Hsrc. rewrite Hsrc in H.
  unfold is_none in H. destruct (is_some (one_of_context c)); [|discriminate]. simpl in H.
  destruct (regex_new _) as [r|]; [|discriminate]. injection H as <-. eauto.
Qed.

Lemma validate_required_ok c p : validate_required c p = Ok tt ->
  forall req r, required c = Some req -> r ∈ req -> r ∈ BTree.keys (default [] (properties c)).
Proof.
  unfold validate_required. intros H req r Hr Hin. rewrite Hr in H.
  apply try_each_ok in H. rewrite Forall_forall in H. specialize (H r Hin). simpl in H.
  destruct (properties c) as [m|]; simpl in *; [|discriminate].
  destruct (BTree.contains_key r m) eqn:Hk; [by apply BTree.contains_key_elem|discriminate].
Qed.

(** A contract that loads is well formed at every level: no keyword is
    silently inert and no pattern is left uncompiled. *)
Lemma validate_validated c p c' : validate c p = Ok c' -> validated c'.
Proof.
  revert p c'. induction c as [c IHprops IHitems] using constraint_ind. intros p c'.
  rewrite validate_eq.
  destruct (validate_shape c p) as [[]|] eqn:Hshape; [|discriminate].
  apply validate_shape_ok in Hshape as (Hlen & Hty & Hres & Hbind).
  destruct (validate_context c p) as [ctx|] eqn:Hctx; [|discriminate].
  apply validate_context_ok in Hctx as [Hsome Hkeys].
  destruct (compile_or_pattern c p) as [or_re|] eqn:Hor; [|discriminate].
  destruct (compile_pattern c p) as [re|] eqn:Hre; [|discriminate].
  destruct (validate_required c p) as [[]|] eqn:Hreq; [|discriminate].
  set (rp := match properties c with Some m => _ | None => _ end).
  destruct rp as [props|] eqn:Hprops; [|discriminate]. subst rp.
  set (ri := match items c with Some it => _ | None => _ end).
  destruct ri as [its|] eqn:Hits; [|discriminate]. subst ri. intros [= <-].
  assert (is_some props = is_some (properties c) /\
          BTree.keys (default [] props) = BTree.keys (default [] (properties c)) /\
          forall m name c', props = Some m -> (name, c') ∈ m -> validated c') as (Hps & Hpk & Hpv).
  { destruct (properties c) as [m|]; [|by simplify_eq].
    destruct (try_map _ m) as [m'|] eqn:Hm; [|discriminate]. injection Hprops as <-.
    destruct (validated_properties p m m' (IHprops m eq_refl) Hm) as [Hk Hv]. by split_and!; [|..|intros ? ? ? [= <-]; apply Hv]. }
  assert (is_some its = is_some (items c) /\ forall it, its = Some it -> validated it) as [His Hiv].
  { destruct (items c) as [it|]; [|by simplify_eq].
    destruct (validate it _) as [it'|] eqn:Hv; [|discriminate]. injection Hits as <-.
    split; [done|]. intros ? [= <-]. by eapply IHitems. }
  assert (forall c'', has_string_keywords c'' = has_string_keywords c ->
    has_number_keywords c'' = has_number_keywords c -> has_object_keywords c'' = has_object_keywords c ->
    has_array_keywords c'' = has_array_keywords c -> families c'' = families c) as Hfam
    by (intros c'' H1 H2 H3 H4; unfold families; by rewrite H1, H2, H3, H4).
  match goal with |- validated ?new => assert (families new = families c) as Hnew end.
  { apply Hfam; try done; unfold has_object_keywords, has_array_keywords; cbn; congruence. }
  constructor; cbn [ty one_of constant pattern properties required items bind_to one_of_context or_pattern regex or_regex].
  - by rewrite Hnew.
  - by rewrite Hnew.
  - unfold restricts in *. rewrite Hnew. cbn. by rewrite Hsome.
  - done.
  - done.
  - by apply (compile_pattern_ok c p).
  - rewrite Hsome. by apply (compile_or_pattern_ok c p).
  - rewrite Hpk. by apply (validate_required_ok c p).
  - done.
  - done.
Qed.
End Constraint.

(** ** JSON pointers identify contract positions *)

Lemma replace_char_app c r a b : replace_char c r (a +:+ b) = replace_char c r a +:+ replace_char c r b.
Proof.
  induction a as [|x a IH]; [done|].
  change (String x a +:+ b) with (String x (a +:+ b)). simpl. rewrite IH.
  case_decide; [by rewrite str_app_assoc|done].
Qed.

(** One escaped character. *)
Definition escape_char (a : ascii) : string :=
  if decide (a = "~"%char) then "~0" else if decide (a = "/"%char) then "~1" else String a "".

Lemma escape_cons a s : escape_segment (String a s) = escape_char a +:+ escape_segment s.
Proof.
  unfold escape_segment, escape_char. cbn [replace_char].
  destruct (decide (a = "~"%char)) as [->|Ha]; [by rewrite replace_char_app|].
  cbn [replace_char]. by destruct (decide (a = "/"%char)) as [->|].
Qed.

(** RFC 6901 decoding. *)
Fixpoint unescape_segment (s : string) : string :=
  match s with
  | EmptyString => ""
  | String a r =>
      match r with
      | String b r' =>
          if decide (a = "~"%char) then
            if decide (b = "0"%char) then String "~" (unescape_segment r')
            else if decide (b = "1"%char) then String "/" (unescape_segment r')
            else String a (unescape_segment r)
          else String a (unescape_segment r)
      | EmptyString => String a ""
      end
  end.

Lemma unescape_plain a s : a <> "~"%char -> unescape_segment (String a s) = String a (unescape_segment s).
Proof. intros Ha. destruct s; simpl; [done|]. by rewrite decide_False. Qed.

Lemma unescape_escape s : unescape_segment (escape_segment s) = s.
Proof.
  induction s as [|a s IH]; [done|]. rewrite escape_cons. unfold escape_char.
  destruct (decide (a = "~"%char)) as [->|Ha].
  { change (String "~" (unescape_segment (escape_segment s)) = String "~" s). by rewrite IH. }
  destruct (decide (a = "/"%char)) as [->|].
  { change (String "/" (unescape_segment (escape_segment s)) = String "/" s). by rewrite IH. }
  change (unescape_segment (String a (escape_segment s)) = String a s).
  by rewrite unescape_plain, IH.
Qed.

Lemma lacks_app c a b : lacks c (a +:+ b) <-> lacks c a /\ lacks c b.
Proof. unfold lacks. rewrite as_bytes_app, not_elem_of_app. done. Qed.

Lemma escape_lacks_slash s : lacks "/"%char (escape_segment s).
Proof.
  induction s as [|a s IH]; [by apply not_elem_of_nil|].
  rewrite escape_cons. apply lacks_app. split; [|done].
  unfold escape_char. repeat case_decide; unfold lacks, as_bytes; simpl; set_solver.
Qed.

Lemma last_separator {A} (c : A) x y u w :
  x ++ c :: u = y ++ c :: w -> c ∉ u -> c ∉ w -> x = y /\ u = w.
Proof.
  revert y. induction x as [|a x IH]; intros [|b y] Heq Hu Hw.
  - by injection Heq as ->.
  - injection Heq as <- ->. destruct Hu. apply elem_of_app. right. left.
  - injection Heq as -> <-. destruct Hw. apply elem_of_app. right. left.
  - injection Heq as <- Htl. by destruct (IH y Htl Hu Hw) as [-> ->].
Qed.

Lemma child_inj p a q b : child p a = child q b -> p = q /\ a = b.
Proof.
  unfold child. intros H. apply (f_equal as_bytes) in H. rewrite !as_bytes_app in H.
  change (as_bytes "/") with ["/"%char] in H. simpl in H.
  apply last_separator in H as [Hp Ha]; [|apply escape_lacks_slash..].
  apply (inj as_bytes) in Hp. apply (inj as_bytes) in Ha. split; [done|].
  by rewrite <- (unescape_escape a), Ha, unescape_escape.
Qed.

Lemma child_nonempty p a : child p a <> "".
Proof. unfold child. destruct p; done. Qed.

Lemma pointer_inj segs segs' : fold_left child segs "" = fold_left child segs' "" -> segs = segs'.
Proof.
  revert segs'. induction segs as [|a segs IH] using rev_ind; intros segs'; destruct segs' as [|b segs' _] using rev_ind.
  - done.
  - rewrite fold_left_app. simpl. intros H. by destruct (child_nonempty (fold_left child segs' "") b).
  - rewrite fold_left_app. simpl. intros H. by destruct (child_nonempty (fold_left child segs "") a).
  - rewrite !fold_left_app. simpl. intros [Hp ->]%child_inj. by rewrite (IH segs').
Qed.

(** ** Properties *)

(** C22: a value passes [Constraint::check] exactly when it conforms to the
    constraint: bound to the task context, allowed by it, of the declared
    type, equal to [const], in [enum], within the string, number, object and
    array keywords, and so on below; where it is checked from has no effect
    on the verdict. *)
Theorem check_iff_conforms {RC : RegexCrate} (task : option value) (c : constraint) (v : value) (p : string) :
  is_ok (check task c v p) = true <-> conforms task c v.
Proof. rewrite is_ok_unit. apply check_conforms. Qed.

(** What a refusal reports comes from the contract, never from the call:
    the path is the JSON pointer of names the constraint itself declares
    ([properties], [required], [items]), and the escaping of the segments
    makes that pointer name one list of segments only. *)
Theorem violation_path_is_contract_path {RC : RegexCrate} (task : option value) (c : constraint) (v : value) (w : Violation)
    (refused : check task c v "" = Err w) :
  exists segs k, contract_path c segs /\ w = violation_at k (fold_left child segs "") /\
    forall segs', fold_left child segs' "" = fold_left child segs "" -> segs' = segs.
Proof.
  destruct (check_err_path task c v "" w refused) as (segs & k & Hp & Hw).
  exists segs, k. split; [done|]. split; [done|]. intros segs' H. by apply pointer_inj.
Qed.

(** A constraint that passes load-time validation is well formed at every
    level: keywords of one type only and of the declared type, a restriction,
    a [bindTo] and context paths without empty segments, every pattern
    compiled from its anchored source, required names declared. *)
Theorem validate_well_formed {RC : RegexCrate} (c c' : constraint) (p : string)
    (accepted : validate c p = Ok c') :
  validated c'.
Proof. exact (validate_validated c p c' accepted). Qed.

(** *** Concrete instances *)

Section Witnesses.
Import Toy.

(** [{type: number, maximum: 100}] and an object with it as [amount/usd]. *)
Definition at_most_100 : constraint :=
  mkConstraint (Some TNumber) None None None None None None (Some (PosInt 100)) None None None None None None
    None None None None None None None.
Definition payment : constraint :=
  mkConstraint (Some TObject) None None None None None None None (Some [("amount/usd", at_most_100)])
    (Some ["amount/usd"]) None None None None None None None None None None None.

Lemma violation_path_is_contract_path_witness :
  check None payment (VObject [("amount/usd", VNumber (PosInt 250))]) ""
    = Err (mkViolation ArgumentInvalid (Some "/amount~1usd")) /\
  exists segs k, contract_path payment segs /\
    mkViolation ArgumentInvalid (Some "/amount~1usd") = violation_at k (fold_left child segs "") /\
    forall segs', fold_left child segs' "" = fold_left child segs "" -> segs' = segs.
Proof.
  split; [reflexivity|].
  apply (violation_path_is_contract_path None payment (VObject [("amount/usd", VNumber (PosInt 250))])).
  reflexivity.
Qed.

Lemma validate_well_formed_witness : validate payment "" = Ok payment /\ validated payment.
Proof. split; [reflexivity|]. apply (validate_well_formed payment payment ""). reflexivity. Defined.
End Witnesses.
