(* ===== verification/Rules.v ===== *)
(** * Per-tool rules: durations, idempotency keys, approval conditions

    [crates/cloakpipe-release/src/rules.rs].  Loops over the source text are
    written with fuel; the fuel each caller gives is the text's (or the token
    list's) length, and is shown to be enough. *)

From S2P Require Import Prelude BTree Json Crates Concrete Constraint.

(** ** Effects *)

Inductive Effect := Read | Write | Irreversible.

Definition is_side_effect (e : Effect) : bool :=
  match e with Read => false | Write | Irreversible => true end.

(** ** Durations

    [<digits><unit>] groups, units [d h m s] in that order, each at most
    once; 64-bit arithmetic is checked. *)

Definition units : list (ascii * Z) :=
  [("d"%char, 86400%Z); ("h"%char, 3600%Z); ("m"%char, 60%Z); ("s"%char, 1%Z)].

(** [units.iter().position(|(u, _)| *u == c)], with the unit's seconds. *)
Fixpoint unit_position (us : list (ascii * Z)) (c : ascii) : option (nat * Z) :=
  match us with
  | [] => None
  | (u, k) :: us =>
      if decide (u = c) then Some (0, k)
      else let! (i, k) := unit_position us c else None in Some (S i, k)
  end.

Definition digit_value (c : ascii) : Z := byte_val c - 48.
Definition digits_value (ds : list ascii) : Z := fold_left (fun n c => (10 * n + digit_value c)%Z) ds 0%Z.

(** [digits.parse::<u64>()] of a string of ASCII digits. *)
Definition parse_u64 (ds : list ascii) : option Z :=
  let n := digits_value ds in
  if bool_decide (ds = []) || (U64_MAX <? n)%Z then None else Some n.

Definition checked_mul (a b : Z) : option Z := if (a * b <=? U64_MAX)%Z then Some (a * b)%Z else None.
Definition checked_add (a b : Z) : option Z := if (a + b <=? U64_MAX)%Z then Some (a + b)%Z else None.

Fixpoint duration_loop (cs : list ascii) (next_unit : nat) (total : Z) (digits : list ascii) : option (Z * list ascii) :=
  match cs with
  | [] => Some (total, digits)
  | c :: cs =>
      if is_ascii_digit c then duration_loop cs next_unit total (digits ++ [c])
      else
        let! (i, k) := unit_position units c else None in
        if bool_decide (digits = []) || (i <? next_unit) then None
        else
          let! n := parse_u64 digits else None in
          let! v := checked_mul n k else None in
          let! total := checked_add total v else None in
          duration_loop cs (S i) total []
  end.

(** [parse_duration]: [None] is the (single) error. *)
Definition parse_duration (src : string) : option Z :=
  let! (total, digits) := duration_loop (as_bytes src) 0 0%Z [] else None in
  if negb (bool_decide (digits = [])) || (total =? 0)%Z then None else Some total.

(** ** Following a path *)

(** [lookup] *)
Definition lookup (root : option value) (p : list string) : option value :=
  let! v := root else None in walk v p.

(** ** Idempotency key templates *)

Inductive Part :=
| Literal (s : string)
| Field (p : list string) (task hashed : bool).

#[global] Instance part_eq_dec : EqDecision Part.
Proof. solve_decision. Defined.

Record IdempotencyKey := mkIdempotencyKey { key_source : string; parts : list Part }.

Inductive key_error :=
| UnmatchedClose | UnclosedOpen | NestedOpen | BadPlaceholder | NoPlaceholder | OutOfFuel.

(** [rest.find(['{', '}'])]: the text before the first brace, the brace and
    the text after it. *)
Fixpoint find_brace (s : string) : option (string * ascii * string) :=
  match s with
  | EmptyString => None
  | String a s' =>
      if decide (a = "{"%char \/ a = "}"%char) then Some ("", a, s')
      else let! (x, b, y) := find_brace s' else None in Some (String a x, b, y)
  end.

Definition segment_ok (s : string) : bool :=
  negb (str_is_empty s)
  && str_all (fun b => is_ascii_alphanumeric b || bool_decide (b = "_"%char) || bool_decide (b = "-"%char)) s.

(** The text between braces: a path, possibly under [sha256(..)]. *)
Definition parse_placeholder (inner : string) : result key_error Part :=
  if str_contains "{" inner then Err NestedOpen
  else
    let '(p, hashed) :=
      match strip_prefix "sha256(" inner with
      | Some p => match strip_suffix_char ")"%char p with Some p => (p, true) | None => (inner, false) end
      | None => (inner, false)
      end in
    let segments := split_on "."%char p in
    if negb (forallb segment_ok segments) then Err BadPlaceholder
    else
      let task := (1 <? length segments) && bool_decide (head segments = Some "task") in
      Ok (Field (if task then tail segments else segments) task hashed).

Definition literal_parts (s : string) : list Part := if str_is_empty s then [] else [Literal s].

Fixpoint parse_parts (fuel : nat) (rest : string) : result key_error (list Part) :=
  if str_is_empty rest then Ok []
  else
    match fuel with
    | O => Err OutOfFuel
    | S fuel =>
        match find_brace rest with
        | None => Ok [Literal rest]
        | Some (lit, b, after) =>
            if decide (b = "}"%char) then Err UnmatchedClose
            else
              let? (inner, rest) := ok_or (split_once "}"%char after) UnclosedOpen in
              let? field := parse_placeholder inner in
              let? ps := parse_parts fuel rest in
              Ok (literal_parts lit ++ field :: ps)
        end
    end.

Definition is_field (p : Part) : bool := match p with Field _ _ _ => true | Literal _ => false end.

(** [IdempotencyKey::parse] *)
Definition parse_key (src : string) : result key_error IdempotencyKey :=
  let? ps := parse_parts (String.length src) src in
  if negb (existsb is_field ps) then Err NoPlaceholder
  else Ok (mkIdempotencyKey src ps).

(** [IdempotencyKey::argument_roots] *)
Definition key_argument_roots (k : IdempotencyKey) : list string :=
  omap (fun p => match p with Field p false _ => head p | _ => None end) (parts k).

Section Render.
Context {HC : HashCrates} {JC : JsonCrates}.

Definition field_text (v : value) (hashed : bool) : string :=
  let text := match v with VString s => s | other => jcs other end in
  if hashed then hex_encode (sha256 (as_bytes text)) else text.

Definition field_value (p : list string) (from_task : bool) (arguments task : option value) : result Violation value :=
  if from_task
  then ok_or (lookup task p) (mkViolation TaskContextMissing None)
  else ok_or (lookup arguments p) (mkViolation ArgumentMissing (Some (fold_left child p ""))).

Definition render_part (arguments task : option value) (p : Part) : result Violation string :=
  match p with
  | Literal s => Ok s
  | Field p from_task hashed =>
      let? v := field_value p from_task arguments task in Ok (field_text v hashed)
  end.

(** [IdempotencyKey::render] *)
Fixpoint render_parts (arguments task : option value) (ps : list Part) : result Violation string :=
  match ps with
  | [] => Ok ""
  | p :: ps =>
      let? t := render_part arguments task p in
      let? out := render_parts arguments task ps in Ok (t +:+ out)
  end.
Definition render (k : IdempotencyKey) (arguments task : option value) : result Violation string :=
  render_parts arguments task (parts k).
End Render.

(** ** The [when] condition language *)

Inductive Op := OpGt | OpGe | OpLt | OpLe | OpEq | OpNe.
Inductive literal := LNumber (n : number) | LString (s : string) | LBool (b : bool).
Inductive Expr :=
| EOr (a b : Expr)
| EAnd (a b : Expr)
| ECmp (p : list string) (op : Op) (l : literal).
Inductive Token :=
| TPath (p : list string)
| TLit (l : literal)
| TOp (o : Op)
| TAnd
| TOr
| TOpen
| TClose.

Record Condition := mkCondition { cond_source : string; expr : Expr }.

Inductive cond_error :=
| Unexpected | UnterminatedString | InvalidNumber | InvalidPath
| ExpectedClose | ExpectedOperator | ExpectedLiteral | OrderingNeedsNumber | ExpectedComparison
| TrailingInput | CondOutOfFuel.

(** *** Tokens *)

(** The longest prefix whose bytes satisfy [p], and the rest. *)
Fixpoint span (p : ascii -> bool) (s : string) : string * string :=
  match s with
  | EmptyString => ("", "")
  | String a s' => if p a then let '(x, y) := span p s' in (String a x, y) else ("", s)
  end.

Definition number_text_ok (text : string) : bool :=
  let digits := default text (strip_prefix "-" text) in
  let '(int, frac) := match split_once "."%char digits with Some (a, f) => (a, Some f) | None => (digits, None) end in
  negb (str_is_empty int) && str_all is_ascii_digit int
  && match frac with None => true | Some f => negb (str_is_empty f) && str_all is_ascii_digit f end.

Definition operator (c : ascii) (two : option ascii) : option Op :=
  let eq := bool_decide (two = Some "="%char) in
  if decide (c = ">"%char) then Some (if eq then OpGe else OpGt)
  else if decide (c = "<"%char) then Some (if eq then OpLe else OpLt)
  else if decide (c = "="%char) then (if eq then Some OpEq else None)
  else if decide (c = "!"%char) then (if eq then Some OpNe else None)
  else None.

Definition op_width (o : Op) : nat := match o with OpGt | OpLt => 1 | _ => 2 end.

Fixpoint drop_chars (n : nat) (s : string) : string :=
  match n, s with
  | O, _ | _, EmptyString => s
  | S n, String _ s => drop_chars n s
  end.

Definition head_char (s : string) : option ascii := match s with String a _ => Some a | EmptyString => None end.

Definition word_token (word : string) : result cond_error Token :=
  if decide (word = "true") then Ok (TLit (LBool true))
  else if decide (word = "false") then Ok (TLit (LBool false))
  else
    let p := split_on "."%char word in
    if existsb str_is_empty p then Err InvalidPath else Ok (TPath p).

Section Tokenize.
Context {JC : JsonCrates}.

Definition number_token (text : string) : result cond_error Token :=
  match (if number_text_ok text then json_number text else None) with
  | Some n => Ok (TLit (LNumber n))
  | None => Err InvalidNumber
  end.

(** One token from the front of [c :: rest]: the token ([None] for
    blanks) and the text after it. *)
Definition next_token (c : ascii) (rest : string) : result cond_error (option Token * string) :=
  let two := head_char rest in
  if decide (c = " "%char \/ c = "009"%char) then Ok (None, rest)
  else if decide (c = "("%char) then Ok (Some TOpen, rest)
  else if decide (c = ")"%char) then Ok (Some TClose, rest)
  else if decide (c = "&"%char /\ two = Some "&"%char) then Ok (Some TAnd, drop_chars 1 rest)
  else if decide (c = "|"%char /\ two = Some "|"%char) then Ok (Some TOr, drop_chars 1 rest)
  else if decide (c ∈ [">"; "<"; "="; "!"]%char) then
    let? o := ok_or (operator c two) Unexpected in Ok (Some (TOp o), drop_chars (op_width o - 1) rest)
  else if decide (c = "'"%char \/ c = "034"%char) then
    let? (s, rest) := ok_or (split_once c rest) UnterminatedString in Ok (Some (TLit (LString s)), rest)
  else if bool_decide (c = "-"%char) || is_ascii_digit c then
    let '(more, rest) := span (fun b => is_ascii_digit b || bool_decide (b = "."%char)) rest in
    let? t := number_token (String c more) in Ok (Some t, rest)
  else if is_ascii_alphabetic c || bool_decide (c = "_"%char) then
    let '(more, rest) :=
      span (fun b => is_ascii_alphanumeric b || bool_decide (b = "_"%char) || bool_decide (b = "."%char)) rest in
    let? t := word_token (String c more) in Ok (Some t, rest)
  else Err Unexpected.

(** [tokenize] *)
Fixpoint tokenize_from (fuel : nat) (s : string) : result cond_error (list Token) :=
  match s, fuel with
  | EmptyString, _ => Ok []
  | String _ _, O => Err CondOutOfFuel
  | String c rest, S fuel =>
      let? (t, rest) := next_token c rest in
      let? ts := tokenize_from fuel rest in
      Ok (option_list t ++ ts)
  end.
Definition tokenize (src : string) : result cond_error (list Token) := tokenize_from (String.length src) src.
End Tokenize.

(** *** The parser

    Recursive descent over the tokens from [self.at] on: each function
    returns what it read and the tokens left. *)

Definition ordering (o : Op) : bool :=
  match o with OpGt | OpGe | OpLt | OpLe => true | OpEq | OpNe => false end.
Definition is_number_literal (l : literal) : bool := match l with LNumber _ => true | _ => false end.

Definition parse_result : Type := result cond_error (Expr * list Token).

(** The comparison branch of [Parser::atom]. *)
Definition parse_cmp (p : list string) (ts : list Token) : parse_result :=
  match ts with
  | TOp op :: TLit l :: ts =>
      if ordering op && negb (is_number_literal l) then Err OrderingNeedsNumber else Ok (ECmp p op l, ts)
  | TOp _ :: _ => Err ExpectedLiteral
  | _ => Err ExpectedOperator
  end.

Fixpoint parse_or (fuel : nat) (ts : list Token) : parse_result :=
  match fuel with
  | O => Err CondOutOfFuel
  | S fuel => let? (lhs, ts) := parse_and fuel ts in or_loop fuel lhs ts
  end
with or_loop (fuel : nat) (lhs : Expr) (ts : list Token) : parse_result :=
  match fuel with
  | O => Err CondOutOfFuel
  | S fuel =>
      match ts with
      | TOr :: ts => let? (rhs, ts) := parse_and fuel ts in or_loop fuel (EOr lhs rhs) ts
      | _ => Ok (lhs, ts)
      end
  end
with parse_and (fuel : nat) (ts : list Token) : parse_result :=
  match fuel with
  | O => Err CondOutOfFuel
  | S fuel => let? (lhs, ts) := parse_atom fuel ts in and_loop fuel lhs ts
  end
with and_loop (fuel : nat) (lhs : Expr) (ts : list Token) : parse_result :=
  match fuel with
  | O => Err CondOutOfFuel
  | S fuel =>
      match ts with
      | TAnd :: ts => let? (rhs, ts) := parse_atom fuel ts in and_loop fuel (EAnd lhs rhs) ts
      | _ => Ok (lhs, ts)
      end
  end
with parse_atom (fuel : nat) (ts : list Token) : parse_result :=
  match fuel with
  | O => Err CondOutOfFuel
  | S fuel =>
      match ts with
      | TOpen :: ts =>
          let? (e, ts) := parse_or fuel ts in
          match ts with TClose :: ts => Ok (e, ts) | _ => Err ExpectedClose end
      | TPath p :: ts => parse_cmp p ts
      | _ => Err ExpectedComparison
      end
  end.

(** Fuel for a list of tokens: three calls per token. *)
Definition parser_fuel (ts : list Token) : nat := 3 * length ts + 3.

Definition parse_tokens (ts : list Token) : result cond_error Expr :=
  let? (e, rest) := parse_or (parser_fuel ts) ts in
  match rest with [] => Ok e | _ => Err TrailingInput end.

(** [Condition::parse] *)
Definition parse_condition `{JsonCrates} (src : string) : result cond_error Condition :=
  let? ts := tokenize src in
  let? e := parse_tokens ts in Ok (mkCondition src e).

(** [Condition::argument_roots] *)
Fixpoint expr_roots (e : Expr) : list string :=
  match e with
  | EOr a b | EAnd a b => expr_roots a ++ expr_roots b
  | ECmp p _ _ => option_list (head p)
  end.
Definition cond_argument_roots (c : Condition) : list string := expr_roots (expr c).

(** *** Evaluation *)

Definition bool_compare (a b : bool) : comparison :=
  match a, b with false, true => Lt | true, false => Gt | _, _ => Eq end.

(** How the value compares to the literal; [None]: missing, or of another
    type. *)
Definition cmp_literal (l : literal) (v : value) : option comparison :=
  match l, v with
  | LNumber n, VNumber m => cmp_number m n
  | LString s, VString t => Some (String.compare t s)
  | LBool x, VBool y => Some (bool_compare y x)
  | _, _ => None
  end.

Definition op_holds (o : Op) (c : comparison) : bool :=
  match o, c with
  | OpGt, Gt | OpLt, Lt | OpEq, Eq => true
  | OpGe, (Gt | Eq) | OpLe, (Lt | Eq) | OpNe, (Lt | Gt) => true
  | _, _ => false
  end.

(** [eval]: both sides always, so an error anywhere is an error. *)
Fixpoint eval (e : Expr) (args : value) : option bool :=
  match e with
  | EOr a b =>
      let '(x, y) := (eval a args, eval b args) in
      let! x := x else None in let! y := y else None in Some (x || y)
  | EAnd a b =>
      let '(x, y) := (eval a args, eval b args) in
      let! x := x else None in let! y := y else None in Some (x && y)
  | ECmp p op l =>
      let! v := lookup (Some args) p else None in
      let! c := cmp_literal l v else None in Some (op_holds op c)
  end.

(** [Condition::matches]: an evaluation error counts as holding. *)
Definition cond_matches (c : Condition) (args : value) : bool := default true (eval (expr c) args).

(** ** Approval rules *)

Record ApprovalRule := mkApprovalRule {
  when : option Condition;
  approvers : list string;
  ttl_secs : option Z;
  show : list string;
}.

(** [ApprovalRule::shown]: the named top-level scalar arguments. *)
Definition shown (r : ApprovalRule) (arguments : option value) : btree value :=
  match arguments with
  | Some (VObject args) =>
      fold_left (fun out name =>
        match BTree.get name args with
        | Some v => if negb (is_object v) && negb (is_array v) then BTree.insert name v out else out
        | None => out
        end) (show r) []
  | _ => []
  end.

(** ** Durations, declaratively

    A duration is a list of groups, each some digits and the index of its
    unit; indices strictly increase. *)

Abbreviation group := (list ascii * nat)%type.

Definition group_text (g : group) : list ascii :=
  g.1 ++ match units !! g.2 with Some (c, _) => [c] | None => [] end.
Definition group_value (g : group) : Z :=
  digits_value g.1 * match units !! g.2 with Some (_, k) => k | None => 0 end.
Definition groups_value (gs : list group) : Z := foldr (fun g n => group_value g + n)%Z 0%Z gs.
Definition all_digits (ds : list ascii) : Prop := Forall (fun c => is_ascii_digit c = true) ds.

Fixpoint groups_ok (next : nat) (gs : list group) : Prop :=
  match gs with
  | [] => True
  | g :: gs => g.1 <> [] /\ all_digits g.1 /\ next <= g.2 < length units /\ groups_ok (S g.2) gs
  end.

(** ** Conditions, declaratively

    The grammar of [when]: [&&] binds tighter than [||], both associate to
    the left; ordering operators take number literals. *)

Definition cmp_ok (op : Op) (l : literal) : bool := negb (ordering op && negb (is_number_literal l)).

Inductive in_or : Expr -> list Token -> Prop :=
| in_or_and e ts : in_and e ts -> in_or e ts
| in_or_or a b ta tb : in_or a ta -> in_and b tb -> in_or (EOr a b) (ta ++ TOr :: tb)
with in_and : Expr -> list Token -> Prop :=
| in_and_atom e ts : in_atom e ts -> in_and e ts
| in_and_and a b ta tb : in_and a ta -> in_atom b tb -> in_and (EAnd a b) (ta ++ TAnd :: tb)
with in_atom : Expr -> list Token -> Prop :=
| in_atom_paren e ts : in_or e ts -> in_atom e (TOpen :: ts ++ [TClose])
| in_atom_cmp p op l : cmp_ok op l = true -> in_atom (ECmp p op l) [TPath p; TOp op; TLit l].

(** The comparisons of a condition. *)
Fixpoint comparisons (e : Expr) : list Expr :=
  match e with
  | EOr a b | EAnd a b => comparisons a ++ comparisons b
  | ECmp _ _ _ => [e]
  end.

(** ** Conditions, declaratively *)

(** The argument at a path of member names. *)
Inductive reaches : value -> list string -> value -> Prop :=
| reaches_here v : reaches v [] v
| reaches_member v k x p y : vget k v = Some x -> reaches x p y -> reaches v (k :: p) y.

(** How an argument of the literal's type compares to it. *)
Inductive ordered : value -> literal -> comparison -> Prop :=
| ordered_integers n m x y : number_int n = Some x -> number_int m = Some y -> ordered (VNumber n) (LNumber m) (x ?= y)%Z
| ordered_floats n m x y c : ~ (is_Some (number_int n) /\ is_Some (number_int m)) ->
    as_f64 n = Some x -> as_f64 m = Some y -> f64_cmp x y = Some c -> ordered (VNumber n) (LNumber m) c
| ordered_strings t s : ordered (VString t) (LString s) (String.compare t s)
| ordered_booleans y x : ordered (VBool y) (LBool x)
    (if y then if x then Eq else Gt else if x then Lt else Eq).

Definition op_means (o : Op) (c : comparison) : Prop :=
  match o with
  | OpGt => c = Gt | OpGe => c <> Lt | OpLt => c = Lt | OpLe => c <> Gt | OpEq => c = Eq | OpNe => c <> Eq
  end.

(** What a condition says of the arguments: nothing, unless each of its
    comparisons finds an argument of its literal's type. *)
Inductive says (args : value) : Expr -> bool -> Prop :=
| says_cmp p op l v c b : reaches args p v -> ordered v l c -> (b = true <-> op_means op c) -> says args (ECmp p op l) b
| says_or a b x y : says args a x -> says args b y -> says args (EOr a b) (x || y)
| says_and a b x y : says args a x -> says args b y -> says args (EAnd a b) (x && y).

(** ** Key templates, declaratively *)

Definition field_source (p : list string) (task hashed : bool) : string :=
  let path := str_join "." (if task then "task" :: p else p) in
  "{" +:+ (if hashed then "sha256(" +:+ path +:+ ")" else path) +:+ "}".
Definition part_source (p : Part) : string :=
  match p with Literal s => s | Field p task hashed => field_source p task hashed end.
Definition parts_source (ps : list Part) : string := foldr (fun p s => part_source p +:+ s) "" ps.

(** ** Durations: proofs *)

Lemma digit_bounds c : is_ascii_digit c = true -> (0 <= digit_value c <= 9)%Z.
Proof.
  unfold is_ascii_digit, in_range, digit_value. rewrite andb_true_iff, !Z.leb_le.
  change (byte_val "0"%char) with 48%Z. change (byte_val "9"%char) with 57%Z. lia.
Qed.

Lemma digits_value_nonneg ds : all_digits ds -> (0 <= digits_value ds)%Z.
Proof.
  intros Hd. unfold digits_value.
  assert (forall n, (0 <= n)%Z -> (0 <= fold_left (fun n c => (10 * n + digit_value c)%Z) ds n)%Z) as Hall;
    [|by apply Hall].
  induction Hd as [|c ds Hc _ IH]; intros n Hn; simpl; [done|].
  apply IH. pose proof (digit_bounds c Hc). lia.
Qed.

Lemma unit_position_spec c i k : unit_position units c = Some (i, k) <-> units !! i = Some (c, k).
Proof.
  unfold units. split.
  - simpl. repeat case_decide; subst; intros Heq; by simplify_eq.
  - intros H. do 4 (destruct i as [|i]; [by simplify_eq/=|]). done.
Qed.

Lemma unit_not_digit i c k : units !! i = Some (c, k) -> is_ascii_digit c = false /\ (0 <= k)%Z /\ i < length units.
Proof. unfold units. intros H. do 4 (destruct i as [|i]; [simplify_eq/=; repeat split; lia|]). done. Qed.

Lemma parse_u64_Some ds n : parse_u64 ds = Some n <-> ds <> [] /\ n = digits_value ds /\ (n <= U64_MAX)%Z.
Proof.
  unfold parse_u64. cbv zeta. case_bool_decide as Hd; simpl.
  - split; [done|by intros [? _]].
  - destruct (U64_MAX <? digits_value ds)%Z eqn:Hlt.
    + apply Z.ltb_lt in Hlt. split; [done|]. intros (_ & -> & ?). lia.
    + apply Z.ltb_ge in Hlt. split; [by intros [= <-]|by intros (_ & -> & _)].
Qed.

Lemma group_value_nonneg g : all_digits g.1 -> g.2 < length units -> (0 <= group_value g)%Z.
Proof.
  intros Hd Hi. unfold group_value. destruct (units !! g.2) as [[c k]|] eqn:Hu; [|lia].
  apply unit_not_digit in Hu as (_ & ? & _). pose proof (digits_value_nonneg _ Hd). nia.
Qed.

Lemma groups_value_nonneg next gs : groups_ok next gs -> (0 <= groups_value gs)%Z.
Proof.
  revert next. induction gs as [|g gs IH]; intros next; simpl; [lia|].
  intros (_ & ? & ? & Hgs). apply IH in Hgs.
  assert (0 <= group_value g)%Z by (apply group_value_nonneg; [done|simpl; lia]). lia.
Qed.

Lemma duration_loop_digits ds cs next total acc :
  all_digits ds -> duration_loop (ds ++ cs) next total acc = duration_loop cs next total (acc ++ ds).
Proof.
  intros Hd. revert acc. induction Hd as [|c ds Hc _ IH]; intros acc; simpl; [by rewrite app_nil_r|].
  rewrite Hc, IH. by rewrite <- app_assoc.
Qed.

(** What the loop has read, whatever the state it starts from. *)
Lemma duration_loop_sound cs next total digits t ds :
  duration_loop cs next total digits = Some (t, ds) -> all_digits digits -> (0 <= total <= U64_MAX)%Z ->
  (exists gs, digits ++ cs = concat (map group_text gs) ++ ds /\ groups_ok next gs /\
     t = total + groups_value gs /\ t <= U64_MAX)%Z /\ all_digits ds.
Proof.
  revert next total digits. induction cs as [|c cs IH]; intros next total digits; cbn [duration_loop].
  - intros [= <- <-] Hd Ht. split; [|done]. exists []. simpl. rewrite app_nil_r. repeat split; lia.
  - destruct (is_ascii_digit c) eqn:Hc.
    + intros H Hd Ht. apply IH in H; [|by apply Forall_app; repeat constructor|done].
      rewrite <- app_assoc in H. exact H.
    + destruct (unit_position units c) as [[i k]|] eqn:Hu; [|done].
      apply unit_position_spec in Hu. pose proof (unit_not_digit _ _ _ Hu) as (_ & Hk & Hi).
      case_bool_decide as Hne; [done|]. simpl. destruct (i <? next) eqn:Hlt; [done|].
      apply Nat.ltb_ge in Hlt. destruct (parse_u64 digits) as [n|] eqn:Hn; [|done].
      apply parse_u64_Some in Hn as (_ & -> & _). unfold checked_mul, checked_add.
      destruct (_ <=? _)%Z eqn:Hmul; [|done]. destruct (total + _ <=? _)%Z eqn:Hadd; [|done].
      apply Z.leb_le in Hmul, Hadd. intros H Hd Ht. pose proof (digits_value_nonneg _ Hd).
      apply IH in H as [(gs & Htext & Hok & -> & Hle) Hds]; [|constructor|nia].
      split; [|done]. exists ((digits, i) :: gs). simpl.
      assert (group_text (digits, i) = digits ++ [c]) as -> by (unfold group_text; simpl; by rewrite Hu).
      assert (group_value (digits, i) = (digits_value digits * k)%Z) as -> by (unfold group_value; simpl; by rewrite Hu).
      simpl in Htext. rewrite Htext, <- !app_assoc. repeat split; try done; lia.
Qed.

Lemma duration_loop_complete gs next total :
  groups_ok next gs -> (0 <= total)%Z -> (total + groups_value gs <= U64_MAX)%Z ->
  duration_loop (concat (map group_text gs)) next total [] = Some (total + groups_value gs, [])%Z.
Proof.
  revert next total. induction gs as [|[ds i] gs IH]; intros next total; simpl.
  - intros _ _ _. by rewrite Z.add_0_r.
  - intros (Hne & Hd & Hi & Hgs) Ht Hle.
    destruct (lookup_lt_is_Some_2 units i) as [[c k] Hu]; [simpl; lia|].
    assert (group_text (ds, i) = ds ++ [c]) as -> by (unfold group_text; simpl; by rewrite Hu).
    assert (group_value (ds, i) = (digits_value ds * k)%Z) as Hv by (unfold group_value; simpl; by rewrite Hu).
    rewrite Hv in *. pose proof (unit_not_digit _ _ _ Hu) as (Hc & Hk & _).
    pose proof (digits_value_nonneg _ Hd). pose proof (groups_value_nonneg _ _ Hgs).
    rewrite <- app_assoc, duration_loop_digits by done. cbn [app duration_loop]. rewrite Hc.
    apply unit_position_spec in Hu as Hpos. rewrite Hpos.
    rewrite bool_decide_eq_false_2 by done. simpl.
    assert ((i <? next) = false) as -> by (apply Nat.ltb_ge; lia).
    assert (1 <= k)%Z as Hk1 by (clear -Hu; unfold units in Hu; do 4 (destruct i as [|i]; [simplify_eq/=; lia|]); done).
    assert (parse_u64 ds = Some (digits_value ds)) as -> by (apply parse_u64_Some; repeat split; [done|nia]).
    unfold checked_mul, checked_add. rewrite !(proj2 (Z.leb_le _ _)) by lia.
    rewrite IH by (done || lia). f_equal. f_equal. lia.
Qed.

(** ** Conditions: proofs *)

#[local] Abbreviation oof := CondOutOfFuel.

(** Enough fuel, and what is consumed. *)
Lemma parser_enough_fuel fuel :
  (forall ts, 3 * length ts + 3 <= fuel ->
     parse_or fuel ts <> Err oof /\ forall e r, parse_or fuel ts = Ok (e, r) -> length r < length ts) /\
  (forall l ts, 3 * length ts + 1 <= fuel ->
     or_loop fuel l ts <> Err oof /\ forall e r, or_loop fuel l ts = Ok (e, r) -> length r <= length ts) /\
  (forall ts, 3 * length ts + 2 <= fuel ->
     parse_and fuel ts <> Err oof /\ forall e r, parse_and fuel ts = Ok (e, r) -> length r < length ts) /\
  (forall l ts, 3 * length ts + 1 <= fuel ->
     and_loop fuel l ts <> Err oof /\ forall e r, and_loop fuel l ts = Ok (e, r) -> length r <= length ts) /\
  (forall ts, 3 * length ts + 1 <= fuel ->
     parse_atom fuel ts <> Err oof /\ forall e r, parse_atom fuel ts = Ok (e, r) -> length r < length ts).
Proof.
  induction fuel as [|fuel (IHor & IHol & IHand & IHal & IHat)]; [repeat split; intros; lia|].
  split; [|split; [|split; [|split]]].
  - intros ts Hf. simpl. destruct (IHand ts) as [H1 H2]; [lia|].
    destruct (parse_and fuel ts) as [[l r1]|e]; [|split; [congruence|done]].
    specialize (H2 l r1 eq_refl). destruct (IHol l r1) as [H3 H4]; [lia|].
    split; [done|]. intros e r He. specialize (H4 e r He). lia.
  - intros l ts Hf. simpl. destruct ts as [|[| | | | | |] ts]; try (split; [done|]; by intros e r [= <- <-]).
    simpl in Hf. destruct (IHand ts) as [H1 H2]; [lia|].
    destruct (parse_and fuel ts) as [[rhs r1]|e]; [|split; [congruence|done]].
    specialize (H2 rhs r1 eq_refl). destruct (IHol (EOr l rhs) r1) as [H3 H4]; [lia|].
    split; [done|]. intros e r He. specialize (H4 e r He). simpl. lia.
  - intros ts Hf. simpl. destruct (IHat ts) as [H1 H2]; [lia|].
    destruct (parse_atom fuel ts) as [[l r1]|e]; [|split; [congruence|done]].
    specialize (H2 l r1 eq_refl). destruct (IHal l r1) as [H3 H4]; [lia|].
    split; [done|]. intros e r He. specialize (H4 e r He). lia.
  - intros l ts Hf. simpl. destruct ts as [|[| | | | | |] ts]; try (split; [done|]; by intros e r [= <- <-]).
    simpl in Hf. destruct (IHat ts) as [H1 H2]; [lia|].
    destruct (parse_atom fuel ts) as [[rhs r1]|e]; [|split; [congruence|done]].
    specialize (H2 rhs r1 eq_refl). destruct (IHal (EAnd l rhs) r1) as [H3 H4]; [lia|].
    split; [done|]. intros e r He. specialize (H4 e r He). simpl. lia.
  - intros ts Hf. simpl. destruct ts as [|[p| | | | | |] ts]; try done.
    + unfold parse_cmp. destruct ts as [|[| |o| | | |] [|[|l| | | | |] ts]]; try done.
      destruct (_ && _); [done|]. split; [done|]. intros e r [= <- <-]. simpl. lia.
    + simpl in Hf. destruct (IHor ts) as [H1 H2]; [lia|].
      destruct (parse_or fuel ts) as [[e1 r1]|e]; [|split; [congruence|done]].
      specialize (H2 e1 r1 eq_refl). destruct r1 as [|[| | | | | |] r1]; try done.
      split; [done|]. intros e r [= <- <-]. simpl in *. lia.
Qed.

(** More fuel changes no answer. *)
Lemma parser_more_fuel fuel :
  (forall ts, parse_or fuel ts <> Err oof -> forall f, fuel <= f -> parse_or f ts = parse_or fuel ts) /\
  (forall l ts, or_loop fuel l ts <> Err oof -> forall f, fuel <= f -> or_loop f l ts = or_loop fuel l ts) /\
  (forall ts, parse_and fuel ts <> Err oof -> forall f, fuel <= f -> parse_and f ts = parse_and fuel ts) /\
  (forall l ts, and_loop fuel l ts <> Err oof -> forall f, fuel <= f -> and_loop f l ts = and_loop fuel l ts) /\
  (forall ts, parse_atom fuel ts <> Err oof -> forall f, fuel <= f -> parse_atom f ts = parse_atom fuel ts).
Proof.
  induction fuel as [|fuel (IHor & IHol & IHand & IHal & IHat)]; [done|].
  split; [|split; [|split; [|split]]]; intros; (destruct f as [|f]; [lia|]); simpl in *.
  - rewrite (IHand ts); [|intros E; by rewrite E in *|lia].
    destruct (parse_and fuel ts) as [[l r]|]; [|done]. apply IHol; [done|lia].
  - destruct ts as [|[| | | | | |] ts]; try done. rewrite (IHand ts); [|intros E; by rewrite E in *|lia].
    destruct (parse_and fuel ts) as [[l' r]|]; [|done]. apply IHol; [done|lia].
  - rewrite (IHat ts); [|intros E; by rewrite E in *|lia].
    destruct (parse_atom fuel ts) as [[l r]|]; [|done]. apply IHal; [done|lia].
  - destruct ts as [|[| | | | | |] ts]; try done. rewrite (IHat ts); [|intros E; by rewrite E in *|lia].
    destruct (parse_atom fuel ts) as [[l' r]|]; [|done]. apply IHal; [done|lia].
  - destruct ts as [|[| | | | | |] ts]; try done. rewrite (IHor ts); [done|intros E; by rewrite E in *|lia].
Qed.

(** The same for an answer at one fuel. *)
Lemma parse_or_more f ts x : parse_or f ts = Ok x -> forall g, f <= g -> parse_or g ts = Ok x.
Proof. intros H g Hg. rewrite <- H. apply (proj1 (parser_more_fuel f)); [congruence|done]. Qed.
Lemma or_loop_more f l ts x : or_loop f l ts = Ok x -> forall g, f <= g -> or_loop g l ts = Ok x.
Proof. intros H g Hg. rewrite <- H. apply (proj1 (proj2 (parser_more_fuel f))); [congruence|done]. Qed.
Lemma parse_and_more f ts x : parse_and f ts = Ok x -> forall g, f <= g -> parse_and g ts = Ok x.
Proof. intros H g Hg. rewrite <- H. apply (proj1 (proj2 (proj2 (parser_more_fuel f)))); [congruence|done]. Qed.
Lemma and_loop_more f l ts x : and_loop f l ts = Ok x -> forall g, f <= g -> and_loop g l ts = Ok x.
Proof. intros H g Hg. rewrite <- H. apply (proj1 (proj2 (proj2 (proj2 (parser_more_fuel f))))); [congruence|done]. Qed.
Lemma parse_atom_more f ts x : parse_atom f ts = Ok x -> forall g, f <= g -> parse_atom g ts = Ok x.
Proof. intros H g Hg. rewrite <- H. apply (proj2 (proj2 (proj2 (proj2 (parser_more_fuel f))))); [congruence|done]. Qed.

(** What the parser reads is a sentence of the grammar. *)
Lemma parser_sound fuel :
  (forall ts e r, parse_or fuel ts = Ok (e, r) -> exists t, ts = t ++ r /\ in_or e t) /\
  (forall l tl ts e r, or_loop fuel l ts = Ok (e, r) -> in_or l tl -> exists t, ts = t ++ r /\ in_or e (tl ++ t)) /\
  (forall ts e r, parse_and fuel ts = Ok (e, r) -> exists t, ts = t ++ r /\ in_and e t) /\
  (forall l tl ts e r, and_loop fuel l ts = Ok (e, r) -> in_and l tl -> exists t, ts = t ++ r /\ in_and e (tl ++ t)) /\
  (forall ts e r, parse_atom fuel ts = Ok (e, r) -> exists t, ts = t ++ r /\ in_atom e t).
Proof.
  induction fuel as [|fuel (IHor & IHol & IHand & IHal & IHat)]; [done|].
  split; [|split; [|split; [|split]]]; simpl.
  - intros ts e r H. destruct (parse_and fuel ts) as [[l r1]|] eqn:E; [|done].
    apply IHand in E as (t1 & -> & H1). destruct (IHol l t1 r1 e r H) as (t2 & -> & H2); [by constructor|].
    exists (t1 ++ t2). by rewrite app_assoc.
  - intros l tl ts e r H Hl.
    assert (Ok (E := cond_error) (l, ts) = Ok (e, r) -> exists t, ts = t ++ r /\ in_or e (tl ++ t)) as Hstop
      by (intros [= <- <-]; exists []; rewrite app_nil_r; auto).
    destruct ts as [|[| | | | | |] ts]; try by apply Hstop.
    destruct (parse_and fuel ts) as [[rhs r1]|] eqn:E; [|done]. apply IHand in E as (t1 & -> & H1).
    destruct (IHol (EOr l rhs) (tl ++ TOr :: t1) r1 e r H) as (t2 & -> & H2); [by constructor|].
    exists (TOr :: t1 ++ t2). split; [by rewrite app_comm_cons, app_assoc|]. by rewrite <- app_assoc in H2.
  - intros ts e r H. destruct (parse_atom fuel ts) as [[l r1]|] eqn:E; [|done].
    apply IHat in E as (t1 & -> & H1). destruct (IHal l t1 r1 e r H) as (t2 & -> & H2); [by constructor|].
    exists (t1 ++ t2). by rewrite app_assoc.
  - intros l tl ts e r H Hl.
    assert (Ok (E := cond_error) (l, ts) = Ok (e, r) -> exists t, ts = t ++ r /\ in_and e (tl ++ t)) as Hstop
      by (intros [= <- <-]; exists []; rewrite app_nil_r; auto).
    destruct ts as [|[| | | | | |] ts]; try by apply Hstop.
    destruct (parse_atom fuel ts) as [[rhs r1]|] eqn:E; [|done]. apply IHat in E as (t1 & -> & H1).
    destruct (IHal (EAnd l rhs) (tl ++ TAnd :: t1) r1 e r H) as (t2 & -> & H2); [by constructor|].
    exists (TAnd :: t1 ++ t2). split; [by rewrite app_comm_cons, app_assoc|]. by rewrite <- app_assoc in H2.
  - intros ts e r H. destruct ts as [|[p| | | | | |] ts]; try done.
    + unfold parse_cmp in H. destruct ts as [|[| |o| | | |] [|[|l| | | | |] ts]]; try done.
      destruct (ordering o && negb (is_number_literal l)) eqn:Hc; [done|]. injection H as <- <-.
      exists [TPath p; TOp o; TLit l]. split; [done|]. constructor. unfold cmp_ok. by rewrite Hc.
    + destruct (parse_or fuel ts) as [[e1 r1]|] eqn:E; [|done]. apply IHor in E as (t1 & -> & H1).
      destruct r1 as [|[| | | | | |] r1]; try done. injection H as <- <-.
      exists (TOpen :: t1 ++ [TClose]). split; [by rewrite <- app_comm_cons, <- app_assoc|by constructor].
Qed.

Scheme in_or_mut := Induction for in_or Sort Prop
with in_and_mut := Induction for in_and Sort Prop
with in_atom_mut := Induction for in_atom Sort Prop.
Combined Scheme grammar_mut from in_or_mut, in_and_mut, in_atom_mut.

(** Every sentence of the grammar is read back, given enough fuel. *)
Lemma parser_complete :
  (forall e ts, in_or e ts -> forall rest x, head rest <> Some TAnd ->
     (exists f, or_loop f e rest = Ok x) -> exists f, parse_or f (ts ++ rest) = Ok x) /\
  (forall e ts, in_and e ts -> forall rest x,
     (exists f, and_loop f e rest = Ok x) -> exists f, parse_and f (ts ++ rest) = Ok x) /\
  (forall e ts, in_atom e ts -> forall rest, exists f, parse_atom f (ts ++ rest) = Ok (e, rest)).
Proof.
  assert (forall f e rest, head rest <> Some TAnd -> and_loop (S f) e rest = Ok (e, rest)) as Hstop_and
    by (intros f e [|[] rest] H; simpl in *; congruence).
  assert (forall f e rest, head rest <> Some TOr -> or_loop (S f) e rest = Ok (e, rest)) as Hstop_or
    by (intros f e [|[] rest] H; simpl in *; congruence).
  apply (grammar_mut
    (fun e ts _ => forall rest x, head rest <> Some TAnd ->
       (exists f, or_loop f e rest = Ok x) -> exists f, parse_or f (ts ++ rest) = Ok x)
    (fun e ts _ => forall rest x, (exists f, and_loop f e rest = Ok x) -> exists f, parse_and f (ts ++ rest) = Ok x)
    (fun e ts _ => forall rest, exists f, parse_atom f (ts ++ rest) = Ok (e, rest))).
  - intros e ts _ IH rest x Hh (f & Hf). destruct (IH rest (e, rest)) as (g & Hg); [exists 1; by apply Hstop_and|].
    exists (S (Nat.max f g)). simpl.
    rewrite (parse_and_more _ _ _ Hg) by lia. apply (or_loop_more _ _ _ _ Hf). lia.
  - intros a b ta tb _ IHa _ IHb rest x Hh (f & Hf). rewrite <- app_assoc. apply IHa; [done|].
    destruct (IHb rest (b, rest)) as (g & Hg); [exists 1; by apply Hstop_and|].
    exists (S (Nat.max f g)). simpl.
    rewrite (parse_and_more _ _ _ Hg) by lia. apply (or_loop_more _ _ _ _ Hf). lia.
  - intros e ts _ IH rest x (f & Hf). destruct (IH rest) as (g & Hg).
    exists (S (Nat.max f g)). simpl.
    rewrite (parse_atom_more _ _ _ Hg) by lia. apply (and_loop_more _ _ _ _ Hf). lia.
  - intros a b ta tb _ IHa _ IHb rest x (f & Hf). rewrite <- app_assoc. apply IHa.
    destruct (IHb rest) as (g & Hg). exists (S (Nat.max f g)). simpl.
    rewrite (parse_atom_more _ _ _ Hg) by lia. apply (and_loop_more _ _ _ _ Hf). lia.
  - intros e ts _ IH rest. destruct (IH (TClose :: rest) (e, TClose :: rest)) as (f & Hf); [done| |].
    { exists 1. by apply Hstop_or. }
    exists (S f). simpl. rewrite <- app_assoc. simpl. by rewrite Hf.
  - intros p op l Hok rest. exists 1. simpl. unfold cmp_ok in Hok. by destruct (_ && _).
Qed.

Lemma parse_tokens_grammar ts e : parse_tokens ts = Ok e <-> in_or e ts.
Proof.
  unfold parse_tokens. split.
  - destruct (parse_or _ ts) as [[e' r]|] eqn:E; [|done]. destruct r; [|done]. intros [= ->].
    apply (proj1 (parser_sound _)) in E as (t & -> & H). by rewrite app_nil_r.
  - intros H. destruct (proj1 parser_complete _ _ H [] (e, [])) as (f & Hf); [done|by exists 1|].
    rewrite app_nil_r in Hf.
    destruct (proj1 (parser_enough_fuel (parser_fuel ts)) ts) as [Hoof _]; [done|].
    assert (parse_or (parser_fuel ts) ts = Ok (e, [])) as ->; [|done].
    rewrite <- (proj1 (parser_more_fuel _) ts Hoof (Nat.max f (parser_fuel ts))) by lia.
    apply (parse_or_more _ _ _ Hf). lia.
Qed.

(** *** The tokenizer is total *)

Lemma str_length_app a b : String.length (a +:+ b) = String.length a + String.length b.
Proof. induction a as [|c a IH]; [done|]. change (S (String.length (a +:+ b)) = S (String.length a + String.length b)). by rewrite IH. Qed.

Lemma span_spec p s : s = (span p s).1 +:+ (span p s).2.
Proof.
  induction s as [|a s IH]; [done|]. simpl. destruct (p a); [|done].
  destruct (span p s) as [x y]. simpl in *. by rewrite IH at 1.
Qed.

Lemma drop_chars_length n s : String.length (drop_chars n s) <= String.length s.
Proof. revert s. induction n as [|n IH]; intros [|a s]; simpl; try lia. specialize (IH s). lia. Qed.

Section TokenizeProofs.
Context {JC : JsonCrates}.

Lemma next_token_spec c rest :
  next_token c rest <> Err oof /\
  forall t r, next_token c rest = Ok (t, r) ->
    String.length r <= String.length rest /\ forall p, t = Some (TPath p) -> p <> [].
Proof.
  unfold next_token. pose proof (drop_chars_length 1 rest) as Hd1.
  generalize dependent (drop_chars 1 rest). intros d Hd1.
  repeat (case_decide; [split; [done|intros t r [= <- <-]; split; [lia|done]]|]).
  case_decide.
  { destruct (operator c (head_char rest)) as [o|]; unfold ok_or; [|split; [discriminate|intros t r ?; discriminate]].
    pose proof (drop_chars_length (op_width o - 1) rest) as Hd2. generalize dependent (drop_chars (op_width o - 1) rest).
    intros d' Hd2. split; [done|]. by intros t r [= <- <-]. }
  case_decide.
  { destruct (split_once c rest) as [[s r]|] eqn:Hs; unfold ok_or; [|split; [discriminate|intros t r ?; discriminate]].
    split; [done|]. intros t r' [= <- <-]. apply split_once_spec in Hs as [-> _]. rewrite str_length_app. simpl. split; [lia|done]. }
  destruct (bool_decide (c = "-"%char) || is_ascii_digit c).
  { pose proof (span_spec (fun b => is_ascii_digit b || bool_decide (b = "."%char)) rest) as Hsp.
    destruct (span _ rest) as [more r]. simpl in Hsp. unfold number_token.
    destruct (if number_text_ok _ then _ else _); [|done].
    split; [done|]. intros t r' [= <- <-]. rewrite Hsp, str_length_app. split; [lia|done]. }
  destruct (is_ascii_alphabetic c || bool_decide (c = "_"%char)); [|done].
  match goal with |- context [span ?q rest] => pose proof (span_spec q rest) as Hsp; destruct (span q rest) as [more r] end.
  simpl in Hsp. unfold word_token.
  repeat (case_decide; [split; [done|]; intros t r' [= <- <-]; rewrite Hsp, str_length_app; split; [lia|done]|]).
  destruct (existsb _ _); [done|]. split; [done|]. intros t r' [= <- <-]. rewrite Hsp, str_length_app.
  split; [lia|]. intros p Hp. apply (inj Some) in Hp. injection Hp as <-.
  exact (split_on_nonempty "."%char (String c more)).
Qed.

Lemma tokenize_total fuel s : String.length s <= fuel -> tokenize_from fuel s <> Err oof.
Proof.
  revert s. induction fuel as [|fuel IH]; intros [|c rest] Hl; simpl in *; try done; try lia.
  destruct (next_token_spec c rest) as [Hne Hlen].
  destruct (next_token c rest) as [[t r]|e]; [|congruence].
  destruct (Hlen t r eq_refl) as [Hr _]. specialize (IH r). destruct (tokenize_from fuel r); [done|].
  intros [= ->]. apply IH; [lia|done].
Qed.

Lemma tokenize_paths fuel s ts p : tokenize_from fuel s = Ok ts -> TPath p ∈ ts -> p <> [].
Proof.
  revert s ts. induction fuel as [|fuel IH]; intros [|c rest] ts; simpl; try done;
    try by intros [= <-] ?%elem_of_nil.
  destruct (next_token_spec c rest) as [_ Hspec].
  destruct (next_token c rest) as [[t r]|e]; [|done]. destruct (Hspec t r eq_refl) as [_ Hp].
  destruct (tokenize_from fuel r) as [ts'|] eqn:Hts; [|done].
  intros [= <-] [Ht|Ht]%elem_of_app; [|by eapply IH].
  destruct t as [t|]; simpl in Ht; [apply list_elem_of_singleton in Ht as <-; by apply Hp|by apply elem_of_nil in Ht].
Qed.
End TokenizeProofs.

Lemma parse_tokens_total ts : parse_tokens ts <> Err oof.
Proof.
  unfold parse_tokens. destruct (proj1 (parser_enough_fuel (parser_fuel ts)) ts) as [H _]; [done|].
  destruct (parse_or _ ts) as [[e [|]]|]; congruence.
Qed.

(** *** Evaluation *)

Lemma walk_reaches v p y : walk v p = Some y <-> reaches v p y.
Proof.
  revert v. induction p as [|k p IH]; intros v; simpl.
  - split; [intros [= ->]; constructor|by inversion 1].
  - unfold vget. split.
    + destruct (as_object v) as [o|] eqn:Ho; [|done]. simpl. destruct (BTree.get k o) as [x|] eqn:Hx; [|done].
      intros ?%IH. econstructor; [|done]. unfold vget. by rewrite Ho.
    + inversion 1 as [|? ? x ? ? Hx Hr]; subst. unfold vget in Hx. destruct (as_object v) as [o|]; [|done]. simpl in *. rewrite Hx.
      by apply IH.
Qed.

Lemma cmp_literal_ordered l v c : cmp_literal l v = Some c <-> ordered v l c.
Proof.
  split.
  - destruct l as [m|s|x], v as [|y|n|t|?|?]; try done; simpl.
    + unfold cmp_number. destruct (number_int n) as [a|] eqn:Hn; [destruct (number_int m) as [b|] eqn:Hm|].
      * intros [= <-]. by apply ordered_integers.
      * destruct (as_f64 n) eqn:?, (as_f64 m) eqn:?; simpl; try done. intros ?. eapply ordered_floats; [|done..].
        intros [_ [? ?]]. congruence.
      * destruct (as_f64 n) eqn:?, (as_f64 m) eqn:?; simpl; try done. intros ?. eapply ordered_floats; [|done..].
        intros [[? ?] _]. congruence.
    + intros [= <-]. constructor.
    + intros [= <-]. replace (bool_compare y x) with (if y then if x then Eq else Gt else if x then Lt else Eq) by (by destruct x, y).
      constructor.
  - destruct 1 as [n m x y Hx Hy|n m x y c Hno Hx Hy Hc|t s|y x]; simpl.
    + unfold cmp_number. by rewrite Hx, Hy.
    + unfold cmp_number. rewrite Hx, Hy. simpl. destruct (number_int n), (number_int m); try done. by destruct Hno.
    + done.
    + by destruct x, y.
Qed.

Lemma op_holds_means o c : op_holds o c = true <-> op_means o c.
Proof. by destruct o, c. Qed.

(** [eval] decides what the condition says. *)
Lemma eval_says e args b : eval e args = Some b <-> says args e b.
Proof.
  split.
  - revert b. induction e as [x IHx y IHy|x IHx y IHy|p op l]; intros b; simpl.
    + destruct (eval x args) as [bx|]; [|done]. simpl. destruct (eval y args) as [bo|]; [|done]. intros [= <-].
      constructor; auto.
    + destruct (eval x args) as [bx|]; [|done]. simpl. destruct (eval y args) as [bo|]; [|done]. intros [= <-].
      constructor; auto.
    + unfold lookup. destruct (walk args p) as [v|] eqn:Hv; [|done]. simpl. destruct (cmp_literal l v) as [c|] eqn:Hc; [|done].
      intros [= <-]. apply walk_reaches in Hv. apply cmp_literal_ordered in Hc. econstructor; [done|done|]. apply op_holds_means.
  - induction 1 as [p op l v c b Hr Ho Hb|x y bx bo _ IHx _ IHy|x y bx bo _ IHx _ IHy]; simpl; [|by rewrite IHx, IHy..].
    unfold lookup. apply walk_reaches in Hr. apply cmp_literal_ordered in Ho. simpl. rewrite Hr. simpl. rewrite Ho. simpl. f_equal.
    rewrite <- op_holds_means in Hb. destruct b, (op_holds op c); naive_solver.
Qed.

(** A comparison that says nothing leaves the condition saying nothing. *)
Lemma says_comparisons args e b p op l : says args e b -> ECmp p op l ∈ comparisons e ->
  exists v c, reaches args p v /\ ordered v l c.
Proof.
  induction 1 as [p' op' l' v c b Hr Ho _|x y bx bo _ IHx _ IHy|x y bx bo _ IHx _ IHy]; cbn [comparisons];
    [|intros [?|?]%elem_of_app; auto..].
  intros [= -> -> ->]%list_elem_of_singleton. by exists v, c.
Qed.

Lemma walk_root v r p : walk v (r :: p) = (let! w := vget r v else None in walk w p).
Proof. unfold vget. simpl. by destruct (as_object v). Qed.

Lemma eval_roots e args args' :
  (forall p op l, ECmp p op l ∈ comparisons e -> p <> []) ->
  (forall r, r ∈ expr_roots e -> vget r args = vget r args') -> eval e args = eval e args'.
Proof.
  induction e as [a IHa b IHb|a IHa b IHb|p op l]; cbn [comparisons expr_roots]; intros Hp Hr; cbn [eval].
  - rewrite (IHa ltac:(set_solver) ltac:(set_solver)), (IHb ltac:(set_solver) ltac:(set_solver)). done.
  - rewrite (IHa ltac:(set_solver) ltac:(set_solver)), (IHb ltac:(set_solver) ltac:(set_solver)). done.
  - unfold lookup. destruct p as [|r p]; [by destruct (Hp [] op l); [left|]|].
    rewrite !walk_root. rewrite (Hr r) by (simpl; set_solver). done.
Qed.

(** Every comparison of a sentence comes from its tokens. *)
Lemma grammar_paths :
  (forall e ts, in_or e ts -> forall p op l, ECmp p op l ∈ comparisons e -> TPath p ∈ ts) /\
  (forall e ts, in_and e ts -> forall p op l, ECmp p op l ∈ comparisons e -> TPath p ∈ ts) /\
  (forall e ts, in_atom e ts -> forall p op l, ECmp p op l ∈ comparisons e -> TPath p ∈ ts).
Proof.
  apply (grammar_mut
    (fun e ts _ => forall p op l, ECmp p op l ∈ comparisons e -> TPath p ∈ ts)
    (fun e ts _ => forall p op l, ECmp p op l ∈ comparisons e -> TPath p ∈ ts)
    (fun e ts _ => forall p op l, ECmp p op l ∈ comparisons e -> TPath p ∈ ts)); cbn [comparisons].
  - done.
  - intros a b ta tb _ IHa _ IHb p op l [H|H]%elem_of_app; [apply IHa in H|apply IHb in H]; set_solver.
  - done.
  - intros a b ta tb _ IHa _ IHb p op l [H|H]%elem_of_app; [apply IHa in H|apply IHb in H]; set_solver.
  - intros e ts _ IH p op l H. apply IH in H. set_solver.
  - intros p op l _ p' op' l' H. apply list_elem_of_singleton in H as [= -> -> ->]. left.
Qed.

(** ** Key templates: proofs *)

Lemma strip_suffix_char_Some c s r : strip_suffix_char c s = Some r -> s = r +:+ String c "".
Proof.
  revert r. induction s as [|a s IH]; intros r; [done|]. destruct s as [|b s].
  - simpl. case_decide; [|done]. intros [= <-]. by subst.
  - change (strip_suffix_char c (String a (String b s))) with (String a <$> strip_suffix_char c (String b s)).
    destruct (strip_suffix_char c (String b s)) as [r'|]; [|done]. intros [= <-].
    by rewrite (IH r' eq_refl).
Qed.

Lemma find_brace_spec s x b y :
  find_brace s = Some (x, b, y) -> s = x +:+ String b y /\ (b = "{"%char \/ b = "}"%char).
Proof.
  revert x. induction s as [|a s IH]; intros x; simpl; [done|]. case_decide as Ha.
  - intros [= <- <- <-]. done.
  - destruct (find_brace s) as [[[x' b'] y']|]; [|done]. intros [= <- <- <-].
    by destruct (IH x' eq_refl) as [-> ?].
Qed.

Lemma placeholder_source inner p :
  parse_placeholder inner = Ok p -> is_field p = true /\ part_source p = "{" +:+ inner +:+ "}".
Proof.
  unfold parse_placeholder. destruct (str_contains _ _); [done|].
  assert (forall (path : string) (hashed : bool),
    (if hashed then "sha256(" +:+ path +:+ ")" else path) = inner ->
    (if negb (forallb segment_ok (split_on "."%char path)) then Err (A := Part) BadPlaceholder
     else let task := (1 <? length (split_on "."%char path)) && bool_decide (head (split_on "."%char path) = Some "task") in
          Ok (Field (if task then tail (split_on "."%char path) else split_on "."%char path) task hashed)) = Ok p ->
    is_field p = true /\ part_source p = "{" +:+ inner +:+ "}") as Hgen.
  { intros path hashed Hin. destruct (negb _); [done|]. cbv zeta. intros [= <-]. split; [done|].
    unfold part_source, field_source. pose proof (split_join "."%char path) as Hj.
    destruct (_ && _) eqn:Ht.
    - apply andb_true_iff in Ht as [_ Ht]. apply bool_decide_eq_true in Ht.
      destruct (split_on "."%char path) as [|x r]; [done|]. simpl in Ht. injection Ht as ->. simpl tail.
      change (String "." "") with "." in Hj. by rewrite Hj, Hin.
    - change (String "." "") with "." in Hj. by rewrite Hj, Hin. }
  destruct (strip_prefix "sha256(" inner) as [q|] eqn:Hp; [|by apply (Hgen inner false)].
  destruct (strip_suffix_char ")" q) as [q'|] eqn:Hs; [|by apply (Hgen inner false)].
  apply (Hgen q' true). apply strip_prefix_Some in Hp as ->. by apply strip_suffix_char_Some in Hs as ->.
Qed.

Lemma parse_parts_source fuel rest ps : parse_parts fuel rest = Ok ps -> parts_source ps = rest.
Proof.
  revert rest ps. induction fuel as [|fuel IH]; intros rest ps; simpl; unfold str_is_empty;
    (case_bool_decide as He; [intros [= <-]; by subst|]); [done|].
  destruct (find_brace rest) as [[[lit b] after]|] eqn:Hf.
  - apply find_brace_spec in Hf as [-> Hb]. case_decide as Hc; [done|]. destruct Hb as [->|]; [|done].
    destruct (split_once _ after) as [[inner r]|] eqn:Hs; [|done]. simpl.
    apply split_once_spec in Hs as [-> _].
    destruct (parse_placeholder inner) as [field|] eqn:Hp; [|done].
    apply placeholder_source in Hp as [_ Hp].
    destruct (parse_parts fuel r) as [ps'|] eqn:Hr; [|done]. intros [= <-]. apply IH in Hr.
    assert (forall q, parts_source (literal_parts lit ++ q) = lit +:+ parts_source q) as Hlit.
    { intros q. unfold literal_parts, str_is_empty. case_bool_decide as Hl; [by subst lit|done]. }
    rewrite Hlit. change (parts_source (field :: ps')) with (part_source field +:+ parts_source ps').
    rewrite Hp, Hr, !str_app_assoc. done.
  - intros [= <-]. simpl. apply str_app_nil_r.
Qed.

Lemma parse_parts_total fuel rest : String.length rest <= fuel -> parse_parts fuel rest <> Err OutOfFuel.
Proof.
  revert rest. induction fuel as [|fuel IH]; intros rest Hl; simpl; unfold str_is_empty;
    (case_bool_decide as He; [done|]); [by destruct rest; simpl in Hl; [|lia]|].
  destruct (find_brace rest) as [[[lit b] after]|] eqn:Hf; [|done].
  apply find_brace_spec in Hf as [-> _]. case_decide; [done|].
  destruct (split_once _ after) as [[inner r]|] eqn:Hs; [|done]. simpl.
  apply split_once_spec in Hs as [-> _].
  assert (parse_placeholder inner <> Err OutOfFuel) as Hph.
  { unfold parse_placeholder. destruct (str_contains _ _); [done|].
    destruct (match strip_prefix _ _ with Some _ => _ | None => _ end) as [q h].
    by destruct (negb _). }
  destruct (parse_placeholder inner); [|congruence].
  rewrite !str_length_app in Hl. simpl in Hl. rewrite str_length_app in Hl. simpl in Hl.
  specialize (IH r). destruct (parse_parts fuel r); [done|]. intros [= ->]. apply IH; [lia|done].
Qed.

Lemma parse_duration_spec src n :
  parse_duration src = Some n <->
  exists gs, as_bytes src = concat (map group_text gs) /\ groups_ok 0 gs /\ gs <> [] /\
    n = groups_value gs /\ (0 < n <= U64_MAX)%Z.
Proof.
  unfold parse_duration. split.
  - destruct (duration_loop _ _ _ _) as [[t ds]|] eqn:H; [|done].
    apply duration_loop_sound in H as [(gs & Htext & Hok & -> & Hle) _]; [|constructor|done].
    case_bool_decide as Hds; simpl; [subst ds|discriminate]. rewrite Z.add_0_l in *.
    destruct (groups_value gs =? 0)%Z eqn:Hz; [discriminate|]. apply Z.eqb_neq in Hz. intros [= <-]. pose proof (groups_value_nonneg _ _ Hok) as Hnn.
    exists gs. rewrite app_nil_r in Htext. repeat split; [done|done| |lia|lia]. intros ->. done.
  - intros (gs & -> & Hok & _ & -> & Hpos & Hle). rewrite duration_loop_complete by (done || lia).
    rewrite Z.add_0_l. simpl. destruct (groups_value gs =? 0)%Z eqn:Hz; [apply Z.eqb_eq in Hz; lia|reflexivity].
Qed.

(** ** Properties *)

(** C40: [parse_duration] accepts exactly the texts made of [<digits><unit>]
    groups with the units [d h m s] in that order, each at most once, and
    gives their sum in seconds, which is positive and fits 64 bits: checked
    arithmetic never wraps. *)
Theorem parse_duration_grammar (src : string) (n : Z) :
  parse_duration src = Some n <->
  exists gs, as_bytes src = concat (map group_text gs) /\ groups_ok 0 gs /\ gs <> [] /\
    n = groups_value gs /\ (0 < n <= U64_MAX)%Z.
Proof. apply parse_duration_spec. Qed.

(** C38: [Condition::parse] always answers (the model's fuel never runs out),
    and accepts exactly the texts whose tokens are a sentence of the grammar,
    [&&] binding tighter than [||] and both to the left, giving that
    sentence's expression. *)
Theorem condition_parse_grammar {JC : JsonCrates} (src : string) :
  parse_condition src <> Err CondOutOfFuel /\
  forall c, parse_condition src = Ok c <->
    cond_source c = src /\ exists ts, tokenize src = Ok ts /\ in_or (expr c) ts.
Proof.
  unfold parse_condition, tokenize. pose proof (tokenize_total _ src (le_n _)) as Htok.
  destruct (tokenize_from _ src) as [ts|e].
  - split.
    + pose proof (parse_tokens_total ts). destruct (parse_tokens ts); [done|congruence].
    + intros c. split.
      * destruct (parse_tokens ts) as [e|] eqn:Hp; [|done]. intros [= <-]. split; [done|].
        exists ts. split; [done|]. by apply parse_tokens_grammar.
      * intros (Hsrc & ts' & [= <-] & Hin%parse_tokens_grammar). rewrite Hin.
        destruct c as [cs ce]; simpl in *. by subst.
  - split; [congruence|]. intros c. split; [done|]. by intros (_ & ? & ? & _).
Qed.

(** C24: a [when] condition fails closed: it is passed over exactly when it
    says no, that is, every one of its comparisons finds an argument of its
    literal's type at its path and together they are false; a comparison
    whose argument is missing or of another type makes the condition hold,
    whatever the others say; and the verdict reads nothing of the
    arguments but the condition's declared argument roots. *)
Theorem condition_fails_closed {JC : JsonCrates} (src : string) (c : Condition) (parsed : parse_condition src = Ok c)
    (args args' : value)
    (same_roots : forall r, r ∈ cond_argument_roots c -> vget r args = vget r args') :
  (cond_matches c args = false <-> says args (expr c) false) /\
  (forall p op l, ECmp p op l ∈ comparisons (expr c) -> ~ (exists v o, reaches args p v /\ ordered v l o) ->
     cond_matches c args = true) /\
  cond_matches c args = cond_matches c args'.
Proof.
  assert (Hsays : cond_matches c args = false <-> says args (expr c) false).
  { rewrite <- eval_says. unfold cond_matches. destruct (eval (expr c) args) as [[]|]; naive_solver. }
  split; [done|]. split.
  - intros p op l Hin Hno. apply not_false_is_true. intros Hf%Hsays. by apply Hno, (says_comparisons args (expr c) false p op l).
  - unfold cond_matches. rewrite (eval_roots (expr c) args args'); [done| |done].
    unfold parse_condition, tokenize in parsed.
    destruct (tokenize_from _ src) as [ts|] eqn:Htok; [|done].
    destruct (parse_tokens ts) as [e|] eqn:Hp; [|done]. injection parsed as <-. simpl.
    intros p op l Hc. eapply tokenize_paths; [done|].
    by eapply (proj1 grammar_paths); [apply parse_tokens_grammar|].
Qed.

(** [IdempotencyKey::parse] always answers, loses nothing of the template
    (its parts spell the source again) and a key without a placeholder is
    refused. *)
Theorem key_template_round_trip (src : string) :
  parse_key src <> Err OutOfFuel /\
  forall k, parse_key src = Ok k ->
    key_source k = src /\ parts_source (parts k) = src /\ existsb is_field (parts k) = true.
Proof.
  unfold parse_key. pose proof (parse_parts_total _ src (le_n _)) as Ht.
  destruct (parse_parts _ src) as [ps|] eqn:Hp; [|by split; [congruence|]].
  destruct (existsb is_field ps) eqn:Hf; simpl; [|done]. split; [done|].
  intros k [= <-]. simpl. split; [done|]. split; [|done]. by eapply parse_parts_source.
Qed.

(** *** Concrete instances *)

Section Witnesses.
Import Toy.

Definition big_refund : Condition :=
  mkCondition "amount > 100 && kind == 'refund'"
    (EAnd (ECmp ["amount"] OpGt (LNumber (PosInt 100))) (ECmp ["kind"] OpEq (LString "refund"))).

Lemma condition_fails_closed_witness :
  parse_condition (cond_source big_refund) = Ok big_refund /\
  cond_matches big_refund (VObject []) = true /\
  cond_matches big_refund (VObject []) = cond_matches big_refund (VObject [("note", VNull)]).
Proof.
  assert (Hp : parse_condition (cond_source big_refund) = Ok big_refund) by reflexivity. split; [exact Hp|].
  destruct (condition_fails_closed (cond_source big_refund) big_refund Hp (VObject []) (VObject [("note", VNull)])) as (_ & Hu & Hr).
  2:{ split; [|exact Hr]. apply (Hu ["amount"] OpGt (LNumber (PosInt 100))); [left|]. intros (v & o & Hv & _).
      inversion Hv as [|? ? x ? ? Hx _]. discriminate Hx. }
  intros r [->|[->|[]%elem_of_nil]%elem_of_cons]%elem_of_cons; reflexivity.
Defined.
End Witnesses.
