(* ===== verification/Contract.v ===== *)
(** * Tool contracts

    [crates/cloakpipe-release/src/contract.rs]: [ToolRule] (closed arguments,
    approval), [ToolContract], its validation, its digest and the policy
    reference that binds it.  The parsed document is the starting point:
    reading JSON or YAML text into it is [serde]'s. *)

From S2P Require Import Prelude BTree Json Crates Concrete Reference Action Constraint Rules.

Section Contract.
Context {RC : RegexCrate}.

Record ToolRule := mkToolRule {
  side_effect : bool;
  requires_approval : bool;
  arguments : btree constraint;
  rule_required : list string;
  effect : option Effect;
  idempotency_key : option IdempotencyKey;
  approval : option ApprovalRule;
}.

(** [ToolRule::needs_approval] *)
Definition needs_approval (r : ToolRule) (args : option value) : bool :=
  if negb (requires_approval r) then false
  else
    match (let! a := approval r else None in when a) with
    | Some w => cond_matches w (default VNull args)
    | None => true
    end.

(** [ToolRule::check] *)
Definition rule_check (r : ToolRule) (args task : option value) : result Violation unit :=
  let? o :=
    match args with
    | None => Ok []
    | Some (VObject o) => Ok o
    | Some _ => Err (violation_at ArgumentInvalid "")
    end in
  check_object (check task) (Some (arguments r)) (rule_required r) false None None o "".

Record ToolContract := mkToolContract {
  api_version : string;
  kind : string;
  metadata_name : string;
  tools : btree ToolRule;
  raw : value;
}.

Definition POLICY_NAME_PREFIX : string := "tool-contract/".

(** [is_tool_contract_ref] *)
Definition is_tool_contract_ref (reference : string) : bool :=
  match Reference.parse reference with
  | Ok r => bool_decide (Reference.kind r = Reference.Policy) && starts_with POLICY_NAME_PREFIX (Reference.name r)
  | Err _ => false
  end.

Section Digest.
Context {HC : HashCrates} {JC : JsonCrates}.

(** [ToolContract::digest] and [policy_ref] *)
Definition digest (c : ToolContract) : ReleaseHash :=
  mkReleaseHash
    (sha256 (line (Namespace.tool_contract_hash_domain (Namespace.for_hashing (api_version c)))
             ++ as_bytes (jcs (raw c)))).
Definition policy_ref (c : ToolContract) : string :=
  "policy:" +:+ POLICY_NAME_PREFIX +:+ metadata_name c +:+ "@" +:+ hash_to_string (digest c).

Inductive contract_error :=
| UnsupportedApiVersion
| WrongKind
| BadName
| NoTools
| EmptyToolName
| UndeclaredRequiredArgument (tool r : string)
| BadConstraint (tool : string) (e : constraint_error).

(** One tool's rules: required arguments declared, every constraint valid
    (and compiled). *)
Definition validate_rule (tool : string) (rule : ToolRule) : result contract_error ToolRule :=
  if str_is_empty tool then Err EmptyToolName
  else
    let? _ := try_each (fun r => if BTree.contains_key r (arguments rule) then Ok tt
                                 else Err (UndeclaredRequiredArgument tool r)) (rule_required rule) in
    let? args := try_map (fun nc =>
      let? c := map_err (BadConstraint tool) (validate nc.2 (child "" nc.1)) in Ok (nc.1, c)) (arguments rule) in
    Ok (mkToolRule (side_effect rule) (requires_approval rule) args (rule_required rule) (effect rule)
          (idempotency_key rule) (approval rule)).

(** [ToolContract::validate] *)
Definition validate_contract (c : ToolContract) : result contract_error ToolContract :=
  if negb (Namespace.is_known_api_version (api_version c)) then Err UnsupportedApiVersion
  else if negb (bool_decide (kind c = "ToolContract")) then Err WrongKind
  else if negb (Reference.is_valid_name (metadata_name c)) || negb (is_ok (Reference.parse (policy_ref c)))
  then Err BadName
  else if bool_decide (tools c = []) then Err NoTools
  else
    let? ts := try_map (fun nr => let? r := validate_rule nr.1 nr.2 in Ok (nr.1, r)) (tools c) in
    Ok (mkToolContract (api_version c) (kind c) (metadata_name c) ts (raw c)).
End Digest.

(** [ToolContract::rule] and [check]: a tool the contract does not cover
    passes. *)
Definition rule (c : ToolContract) (tool : string) : option ToolRule := BTree.get tool (tools c).
Definition contract_check (c : ToolContract) (tool : string) (args task : option value) : result Violation unit :=
  let! r := rule c tool else Ok tt in rule_check r args task.

(** ** Lemmas *)

(** The arguments a call carries: absent is the empty object. *)
Definition call_arguments (args : option value) : option (btree value) :=
  match args with None => Some [] | Some v => as_object v end.

Lemma rule_check_spec r args task :
  rule_check r args task = Ok tt <->
  exists o, call_arguments args = Some o /\
    (forall k, k ∈ BTree.keys o -> k ∈ BTree.keys (arguments r)) /\
    (forall k, k ∈ rule_required r -> k ∈ BTree.keys o) /\
    (forall k c v, (k, c) ∈ arguments r -> BTree.get k o = Some v -> conforms task c v).
Proof.
  unfold rule_check.
  assert (forall o, check_object (check task) (Some (arguments r)) (rule_required r) false None None o "" = Ok tt <->
    (forall k, k ∈ BTree.keys o -> k ∈ BTree.keys (arguments r)) /\
    (forall k, k ∈ rule_required r -> k ∈ BTree.keys o) /\
    (forall k c v, (k, c) ∈ arguments r -> BTree.get k o = Some v -> conforms task c v)) as Hobj.
  { intros o. rewrite check_object_ok. unfold object_shape, count_ok. simpl.
    setoid_rewrite check_conforms. split; [intros ((? & ? & _) & ?); auto|].
    intros (? & ? & ?). split; [|done]. split; [by intros _|]. split; [done|]. split; discriminate. }
  destruct args as [v|]; simpl.
  - destruct v as [| | | | |o]; simpl; try (split; [discriminate|by intros (? & ? & _)]).
    rewrite Hobj. split; [intros H; by exists o|]. by intros (? & [= <-] & ?).
  - rewrite Hobj. split; [intros H; by exists []|]. by intros (? & [= <-] & ?).
Qed.

Lemma validate_rule_spec tool ru ru' :
  validate_rule tool ru = Ok ru' ->
  tool <> "" /\ (forall k, k ∈ rule_required ru' -> k ∈ BTree.keys (arguments ru')) /\
  BTree.keys (arguments ru') = BTree.keys (arguments ru) /\
  (forall k c, (k, c) ∈ arguments ru' -> validated c) /\ side_effect ru' = side_effect ru.
Proof.
  unfold validate_rule, str_is_empty. case_bool_decide as Hne; [discriminate|].
  destruct (try_each _ _) as [[]|] eqn:Hreq; [|discriminate].
  destruct (try_map _ _) as [args|] eqn:Hargs; [|discriminate]. intros [= <-]. simpl.
  rewrite try_each_ok, Forall_forall in Hreq. rewrite try_map_Ok in Hargs.
  assert (BTree.keys args = BTree.keys (arguments ru) /\ forall k c, (k, c) ∈ args -> validated c) as [Hk Hv].
  { clear Hreq. induction Hargs as [|[k c] [k' c'] l l' Hx _ [IHk IHv]].
    - split; [done|]. by intros k c ?%elem_of_nil.
    - simpl in Hx. destruct (validate c _) as [c''|] eqn:Hval; [|discriminate]. injection Hx as <- <-.
      split; [change (k :: BTree.keys l' = k :: BTree.keys l); by rewrite IHk|].
      intros q d [[= -> ->]|Hin]%elem_of_cons; [by eapply validate_validated|by eapply IHv]. }
  rewrite Hk. split; [exact Hne|]. split; [|split; [reflexivity|split; [exact Hv|reflexivity]]].
  intros k Hin. apply Hreq in Hin. destruct (BTree.contains_key k (arguments ru)) eqn:Hc; [|discriminate].
  by apply BTree.contains_key_elem.
Qed.
End Contract.

(** ** Properties *)

(** A tool's rules are closed: a call passes them exactly when its
    arguments are an object (or absent), every argument is declared, every
    required one is there, and each conforms to its constraint under the
    task context. *)
Theorem rule_check_closed {RC : RegexCrate} (r : ToolRule) (args task : option value) :
  rule_check r args task = Ok tt <->
  exists o, call_arguments args = Some o /\
    (forall k, k ∈ BTree.keys o -> k ∈ BTree.keys (arguments r)) /\
    (forall k, k ∈ rule_required r -> k ∈ BTree.keys o) /\
    (forall k c v, (k, c) ∈ arguments r -> BTree.get k o = Some v -> conforms task c v).
Proof. apply rule_check_spec. Qed.

(** A contract that loads is well formed: a known version and the contract
    kind, a name its own policy reference can carry, at least one tool, no
    empty tool name, and for every tool its required arguments declared and
    its constraints validated; the digest that binds it covers the document
    as written, so loading does not change the reference. *)
Theorem validate_contract_well_formed {RC : RegexCrate} {HC : HashCrates} {JC : JsonCrates} (c c' : ToolContract)
    (accepted : validate_contract c = Ok c') :
  (exists ns, api_version c' = Namespace.api_version ns) /\ kind c' = "ToolContract" /\
  is_ok (Reference.parse (policy_ref c')) = true /\ tools c' <> [] /\
  BTree.keys (tools c') = BTree.keys (tools c) /\ policy_ref c' = policy_ref c /\
  forall tool r, (tool, r) ∈ tools c' ->
    tool <> "" /\ (forall k, k ∈ rule_required r -> k ∈ BTree.keys (arguments r)) /\
    (forall k ct, (k, ct) ∈ arguments r -> validated ct).
Proof.
  revert accepted. unfold validate_contract.
  destruct (Namespace.is_known_api_version (api_version c)) eqn:Hver; [|discriminate]. cbn [negb].
  case_bool_decide as Hkind; [|discriminate]. cbn [negb].
  destruct (Reference.is_valid_name (metadata_name c)); [|discriminate]. cbn [negb orb].
  destruct (is_ok (Reference.parse (policy_ref c))) eqn:Href; [|discriminate]. cbn [negb].
  case_bool_decide as Hne; [discriminate|]. destruct (try_map _ _) as [ts|] eqn:Hts; [|discriminate].
  intros [= <-]. rewrite try_map_Ok in Hts.
  assert (BTree.keys ts = BTree.keys (tools c) /\ forall tool r, (tool, r) ∈ ts ->
    tool <> "" /\ (forall k, k ∈ rule_required r -> k ∈ BTree.keys (arguments r)) /\
    (forall k ct, (k, ct) ∈ arguments r -> validated ct)) as [Hkeys Hrules].
  { clear Hne. induction Hts as [|[k ru] [k' ru'] l l' Hx _ [IHk IHr]].
    - split; [reflexivity|]. by intros tool r ?%elem_of_nil.
    - cbn [fst snd] in Hx. destruct (validate_rule k ru) as [ru''|] eqn:Hru; [|discriminate]. injection Hx as <- <-.
      split; [change (k :: BTree.keys l' = k :: BTree.keys l); by rewrite IHk|].
      intros tool r [[= -> ->]|Hin]%elem_of_cons; [|by apply IHr].
      apply validate_rule_spec in Hru as (? & ? & _ & ? & _). done. }
  unfold Namespace.is_known_api_version, is_some in Hver. apply is_some_and_true in Hver as (ns & Hns & _).
  apply Namespace.of_api_version_spec in Hns. cbn [api_version kind tools].
  split; [by exists ns|]. split; [exact Hkind|]. split; [exact Href|].
  split; [intros ->; by destruct (tools c)|]. split; [exact Hkeys|]. split; [reflexivity|exact Hrules].
Qed.

(** *** Concrete instances *)

Section Witnesses.
Import Toy.

Definition refund_rule : ToolRule :=
  mkToolRule true false [("amount/usd", at_most_100)] ["amount/usd"] (Some Write) None None.
Definition refund_contract : ToolContract :=
  mkToolContract "cloakpipe.co/v1alpha1" "ToolContract" "refunds" [("refund", refund_rule)]
    (VString "document").

Lemma validate_contract_well_formed_witness :
  exists ns, api_version refund_contract = Namespace.api_version ns.
Proof.
  refine (proj1 (validate_contract_well_formed refund_contract refund_contract _)).
  vm_compute. reflexivity.
Defined.
End Witnesses.
