(* ===== verification/Manifest.v ===== *)
(** * Release manifests

    [crates/cloakpipe-release/src/manifest.rs] and [canonical.rs] ([Module
    Release]: the legacy AgentRelease and the view its hash covers), and
    [v1.rs] ([Module V1]: the single-file manifest and its compilation to
    tool rules).  Both start from the parsed document. *)

From S2P Require Import Prelude BTree Json Crates Concrete Reference Action Constraint Rules Contract.

(** ** The legacy AgentRelease *)

Module Release.

Record Dependency := mkDependency { dep_name : string; dep_version : string }.

Record Spec := mkSpec {
  repository : string;
  commit : string;
  prompts : list string;
  model : string;
  parameters : btree value;
  spec_tools : list string;
  mcp_servers : list string;
  retrieval : option string;
  policies : list string;
  image : string;
  region : string;
  dependencies : list Dependency;
  feature_flags : btree value;
}.

Record AgentRelease := mkAgentRelease {
  api_version : string;
  kind : string;
  agent : string;
  version : string;
  labels : btree string;
  spec : Spec;
}.

(** The derived [Ord] of [Dependency]. *)
Definition dep_le (a b : Dependency) : Prop :=
  str_lt (dep_name a) (dep_name b) \/ dep_name a = dep_name b /\ String.le (dep_version a) (dep_version b).
#[global] Instance dep_le_dec : RelDecision dep_le.
Proof. intros a b. unfold dep_le, str_lt. apply _. Defined.

Definition sorted_refs (l : list string) : value := VArray (map VString (merge_sort String.le l)).
Definition dep_json (d : Dependency) : value :=
  VObject [("name", VString (dep_name d)); ("version", VString (dep_version d))].

Section Canonical.
Context {UC : UnicodeCrate}.

(** [nfc] *)
Fixpoint nfc (v : value) : value :=
  match v with
  | VString s => VString (nfc_string s)
  | VArray a => VArray (map nfc a)
  | VObject o => VObject (BTree.of_list (map (fun kv => (nfc_string kv.1, nfc kv.2)) o))
  | other => other
  end.

(** [AgentRelease::canonical_view] *)
Definition canonical_json (m : AgentRelease) : value :=
  let s := spec m in
  VObject [("agent", VString (agent m)); ("apiVersion", VString (api_version m)); ("kind", VString (kind m));
    ("spec", VObject [
       ("code", VObject [("commit", VString (commit s)); ("repository", VString (repository s))]);
       ("dependencies", VArray (map dep_json (merge_sort dep_le (dependencies s))));
       ("featureFlags", VObject (feature_flags s));
       ("mcpServers", sorted_refs (mcp_servers s));
       ("model", VString (model s));
       ("parameters", VObject (parameters s));
       ("policies", sorted_refs (policies s));
       ("prompts", VArray (map VString (prompts s)));
       ("retrieval", match retrieval s with Some r => VString r | None => VNull end);
       ("runtime", VObject [("image", VString (image s)); ("region", VString (region s))]);
       ("tools", sorted_refs (spec_tools s))])].
Definition canonical_view (m : AgentRelease) : value := nfc (canonical_json m).

Context {HC : HashCrates} {JC : JsonCrates}.

(** [AgentRelease::manifest_hash] *)
Definition hash_text (m : AgentRelease) : bytes :=
  line (Namespace.agent_release_hash_domain (Namespace.for_hashing (api_version m))) ++ as_bytes (jcs (canonical_view m)).
Definition manifest_hash (m : AgentRelease) : ReleaseHash := mkReleaseHash (sha256 (hash_text m)).
End Canonical.

(** Manifests that differ only in what the hash leaves out: the version,
    the labels, and the order of unordered lists. *)
Definition same_release (a b : AgentRelease) : Prop :=
  api_version a = api_version b /\ kind a = kind b /\ agent a = agent b /\
  repository (spec a) = repository (spec b) /\ commit (spec a) = commit (spec b) /\
  prompts (spec a) = prompts (spec b) /\ model (spec a) = model (spec b) /\
  parameters (spec a) = parameters (spec b) /\ retrieval (spec a) = retrieval (spec b) /\
  image (spec a) = image (spec b) /\ region (spec a) = region (spec b) /\
  feature_flags (spec a) = feature_flags (spec b) /\
  spec_tools (spec a) ≡ₚ spec_tools (spec b) /\ mcp_servers (spec a) ≡ₚ mcp_servers (spec b) /\
  policies (spec a) ≡ₚ policies (spec b) /\ dependencies (spec a) ≡ₚ dependencies (spec b).

#[global] Instance dep_le_total : Total dep_le.
Proof.
  intros a b. unfold dep_le. destruct (str_lt_trichotomy (dep_name a) (dep_name b)) as [?|[?|?]]; [by left; left| |by right; left].
  destruct (total String.le (dep_version a) (dep_version b)); [left|right]; by right.
Qed.
#[global] Instance dep_le_trans : Transitive dep_le.
Proof.
  intros a b c [[Hab Hn]|[Hab Hv]] [[Hbc Hn']|[Hbc Hv']]; unfold dep_le, str_lt.
  - left. split; [by etrans|]. intros Heq. apply Hn. apply (anti_symm String.le); [done|]. by rewrite Heq.
  - left. rewrite <- Hbc. done.
  - left. rewrite Hab. done.
  - right. split; [congruence|by etrans].
Qed.
#[global] Instance dep_le_antisymm : AntiSymm (=) dep_le.
Proof.
  intros [a v] [b w] [[Hab Hn]|[Hab Hv]] [[Hba Hn']|[Hba Hv']]; simpl in *; try congruence.
  - exfalso. apply Hn. by apply (anti_symm String.le).
  - subst. f_equal. by apply (anti_symm String.le).
Qed.

Lemma merge_sort_perm {A} (R : A -> A -> Prop) `{!RelDecision R, !Total R, !Transitive R, !AntiSymm (=) R} l l' :
  l ≡ₚ l' -> merge_sort R l = merge_sort R l'.
Proof.
  intros HP. apply (StronglySorted_unique R); [apply StronglySorted_merge_sort; apply _..|].
  by rewrite !merge_sort_Permutation.
Qed.

Lemma canonical_json_same a b : same_release a b -> canonical_json a = canonical_json b.
Proof.
  destruct a as [v1 k1 a1 ver1 l1 s1], b as [v2 k2 a2 ver2 l2 s2].
  destruct s1, s2. unfold same_release, canonical_json, sorted_refs. simpl.
  intros (-> & -> & -> & -> & -> & -> & -> & -> & -> & -> & -> & -> & Ht & Hm & Hp & Hd).
  by rewrite (merge_sort_perm String.le _ _ Ht), (merge_sort_perm String.le _ _ Hm),
    (merge_sort_perm String.le _ _ Hp), (merge_sort_perm dep_le _ _ Hd).
Qed.
End Release.

(** ** The single-file v1 manifest *)

Module V1.

Section V1.
Context {RC : RegexCrate} {HC : HashCrates} {JC : JsonCrates}.

#[local] Unset Elimination Schemes.
Inductive ArgSpec : Type := mkArgSpec {
  s_ty : option json_type;
  s_pattern : option string;
  s_one_of : option (list value);
  s_constant : option value;
  s_min_len : option Z;
  s_max_len : option Z;
  s_min : option number;
  s_max : option number;
  s_items : option ArgSpec;
  s_properties : option (btree ArgSpec);
  s_required : bool;
  s_one_of_context : option (list string);
  s_or_pattern : option string;
}.
#[local] Set Elimination Schemes.

Record RawApproval := mkRawApproval {
  raw_when : option string;
  raw_approvers : list string;
  raw_ttl : option string;
  raw_show : list string;
}.

Record RawTool := mkRawTool {
  raw_args : btree ArgSpec;
  raw_side_effect : option bool;
  raw_effect : option Effect;
  raw_idempotency_key : option string;
  raw_approval : option RawApproval;
}.

Inductive manifest_error :=
| NullType (path : string)
| EffectsDisagree
| BadArgument (e : constraint_error)
| KeyOnReadTool
| BadKey (e : key_error)
| KeyUsesUndeclared (root : string)
| BadWhen (e : cond_error)
| WhenUsesUndeclared (root : string)
| EmptyApprover
| BadTtl
| ShowUndeclared (name : string)
| ShowNotScalar (name : string)
| ShowTwice (name : string)
| EmptyRelease | BadVersion | EmptyPolicy | PolicyUnreadable | EmptyToolName.

Definition required_names (args : btree ArgSpec) : list string :=
  (filter (fun kv => s_required kv.2 = true) args).*1.

(** [ArgSpec::compile] *)
Fixpoint arg_compile (a : ArgSpec) (path : string) {struct a} : result manifest_error constraint :=
  if bool_decide (s_ty a = Some TNull) then Err (NullType path)
  else
    let array := bool_decide (s_ty a = Some TArray) in
    let? props :=
      match s_properties a with
      | Some props =>
          let? out := try_map (fun ns => let? c := arg_compile ns.2 (child path ns.1) in Ok (ns.1, c)) props in
          Ok (Some out, Some (required_names props))
      | None => Ok (None, None)
      end in
    let? its :=
      match s_items a with
      | Some i => let? c := arg_compile i (path +:+ "/items") in Ok (Some c)
      | None => Ok None
      end in
    Ok {| ty := s_ty a; one_of := s_one_of a; constant := s_constant a;
          min_length := if array then None else s_min_len a; max_length := if array then None else s_max_len a;
          pattern := s_pattern a; minimum := s_min a; maximum := s_max a;
          properties := props.1; required := props.2; additional_properties := None;
          min_properties := None; max_properties := None; items := its;
          min_items := if array then s_min_len a else None; max_items := if array then s_max_len a else None;
          bind_to := None; one_of_context := s_one_of_context a; or_pattern := s_or_pattern a;
          regex := None; or_regex := None |}.

(** The stages of [RawTool::compile]. *)
Definition compile_effect (t : RawTool) : result manifest_error (option Effect) :=
  match raw_side_effect t, raw_effect t with
  | Some true, Some Read | Some false, Some (Write | Irreversible) => Err EffectsDisagree
  | _, Some e => Ok (Some e)
  | Some true, None => Ok (Some Write)
  | Some false, None => Ok (Some Read)
  | None, None => Ok None
  end.

Definition compile_arguments (args : btree ArgSpec) : result manifest_error (btree constraint) :=
  try_map (fun ns =>
    let path := child "" ns.1 in
    let? c := arg_compile ns.2 path in
    let? c := map_err BadArgument (validate c path) in Ok (ns.1, c)) args.

Definition compile_key (src : option string) (side : bool) (args : btree constraint)
    : result manifest_error (option IdempotencyKey) :=
  match src with
  | None => Ok None
  | Some src =>
      if negb side then Err KeyOnReadTool
      else
        let? k := map_err BadKey (parse_key src) in
        match List.find (fun r => negb (BTree.contains_key r args)) (key_argument_roots k) with
        | Some root => Err (KeyUsesUndeclared root)
        | None => Ok (Some k)
        end
  end.

Definition compile_when (src : option string) (args : btree constraint) : result manifest_error (option Condition) :=
  match src with
  | None => Ok None
  | Some src =>
      let? c := map_err BadWhen (parse_condition src) in
      match List.find (fun r => negb (BTree.contains_key r args)) (cond_argument_roots c) with
      | Some root => Err (WhenUsesUndeclared root)
      | None => Ok (Some c)
      end
  end.

Fixpoint check_show (names shown : list string) (args : btree constraint) : result manifest_error unit :=
  match names with
  | [] => Ok tt
  | n :: names =>
      let? arg := ok_or (BTree.get n args) (ShowUndeclared n) in
      if bool_decide (ty arg = Some TObject \/ ty arg = Some TArray) then Err (ShowNotScalar n)
      else if bool_decide (n ∈ shown) then Err (ShowTwice n)
      else check_show names (n :: shown) args
  end.

Definition compile_approval (a : option RawApproval) (args : btree constraint)
    : result manifest_error (option ApprovalRule) :=
  match a with
  | None => Ok None
  | Some a =>
      let? w := compile_when (raw_when a) args in
      if existsb is_blank (raw_approvers a) then Err EmptyApprover
      else
        let? ttl :=
          match raw_ttl a with
          | None => Ok None
          | Some t => let? n := ok_or (parse_duration t) BadTtl in Ok (Some n)
          end in
        let? _ := check_show (raw_show a) [] args in
        Ok (Some (mkApprovalRule w (raw_approvers a) ttl (raw_show a)))
  end.

(** [RawTool::compile] *)
Definition tool_compile (t : RawTool) : result manifest_error ToolRule :=
  let? eff := compile_effect t in
  let side := is_some_and eff is_side_effect in
  let? args := compile_arguments (raw_args t) in
  let? key := compile_key (raw_idempotency_key t) side args in
  let? app := compile_approval (raw_approval t) args in
  Ok (mkToolRule side (is_some app) args (required_names (raw_args t)) eff key app).

(** [Policy], [Manifest] *)
Record Policy := mkPolicy { declared : string; source : bytes; policy_file_digest : ReleaseHash }.
Record Manifest := mkManifest {
  release : string;
  version : string;
  policy : option Policy;
  tools : btree ToolRule;
  manifest_digest : ReleaseHash;
}.

Record RawManifest := mkRawManifest {
  raw_release : string;
  raw_version : value;
  raw_policy : option string;
  raw_tools : option (btree RawTool);
}.

(** [Manifest::parse_str] from the parsed document; [read] reads a file
    relative to the manifest. *)
Definition manifest_compile (read : string -> option bytes) (doc : value) (m : RawManifest)
    : result manifest_error Manifest :=
  if is_blank (raw_release m) then Err EmptyRelease
  else
    let? ver :=
      match raw_version m with
      | VString s => if is_blank s then Err BadVersion else Ok s
      | VNumber n => Ok (number_to_string n)
      | _ => Err BadVersion
      end in
    let? pol :=
      match raw_policy m with
      | None => Ok None
      | Some d =>
          if is_blank d then Err EmptyPolicy
          else
            let? src := ok_or (read d) PolicyUnreadable in
            Ok (Some (mkPolicy d src (mkReleaseHash (sha256 src))))
      end in
    let? ts := try_map (fun nt => if str_is_empty nt.1 then Err EmptyToolName
                                  else let? r := tool_compile nt.2 in Ok (nt.1, r))
                 (default [] (raw_tools m)) in
    Ok (mkManifest (raw_release m) ver pol ts (mkReleaseHash (sha256 (as_bytes (jcs doc))))).

(** ** Specification: what a compiled rule guarantees *)

Record rule_ok (r : ToolRule) : Prop := {
  ok_constraints : forall k c, (k, c) ∈ arguments r -> validated c;
  ok_required : forall k, k ∈ rule_required r -> k ∈ BTree.keys (arguments r);
  ok_effect : side_effect r = is_some_and (effect r) is_side_effect;
  ok_approval : requires_approval r = is_some (approval r);
  ok_key : forall k, idempotency_key r = Some k -> side_effect r = true /\
    forall root, root ∈ key_argument_roots k -> root ∈ BTree.keys (arguments r);
  ok_when : forall a w, approval r = Some a -> when a = Some w ->
    parse_condition (cond_source w) = Ok w /\
    forall root, root ∈ cond_argument_roots w -> root ∈ BTree.keys (arguments r);
  ok_show : forall a, approval r = Some a -> NoDup (show a) /\
    forall n, n ∈ show a -> exists c, (n, c) ∈ arguments r /\ ty c <> Some TObject /\ ty c <> Some TArray;
  ok_ttl : forall a n, approval r = Some a -> ttl_secs a = Some n -> (0 < n <= U64_MAX)%Z;
}.

(** *** What an argument's specification accepts

    Read off the manifest as written; the compiled constraint and its
    checker do not occur. *)

Definition matches_source (src s : string) : Prop := exists re, regex_new src = Some re /\ is_match re s = true.

(** A context path may be written with or without the [task.] prefix. *)
Definition context_permits (task : option value) (a : ArgSpec) (v : value) (paths : list string) : Prop :=
  (exists k x, k ∈ paths /\ context_value task (default k (strip_prefix "task." k)) = Some x /\
     match x with VArray l => Exists (fun y => value_eqb y v = true) l | _ => value_eqb x v = true end)
  \/ (exists src s, s_or_pattern a = Some src /\ v = VString s /\ matches_source src s).

(** [min_len] and [max_len] count items of a declared array, and characters
    of a string otherwise. *)
Definition measured (a : ArgSpec) (v : value) (n : Z) : Prop :=
  if bool_decide (s_ty a = Some TArray) then exists l, v = VArray l /\ n = Z.of_nat (length l)
  else exists s, v = VString s /\ n = chars_count s.

Inductive arg_accepts (task : option value) : ArgSpec -> value -> Prop :=
| arg_accepts_intro a v :
    (forall t, s_ty a = Some t -> type_matches t v = true) ->
    (forall k, s_constant a = Some k -> value_eqb k v = true) ->
    (forall l, s_one_of a = Some l -> Exists (fun x => value_eqb x v = true) l) ->
    (forall paths, s_one_of_context a = Some paths -> context_permits task a v paths) ->
    (forall src, s_pattern a = Some src -> exists s, v = VString s /\ matches_source (anchored src) s) ->
    (forall m, s_min_len a = Some m -> exists n, measured a v n /\ (m <= n)%Z) ->
    (forall m, s_max_len a = Some m -> exists n, measured a v n /\ (n <= m)%Z) ->
    (forall m, s_min a = Some m -> exists n, v = VNumber n /\ (cmp_number n m = Some Gt \/ cmp_number n m = Some Eq)) ->
    (forall m, s_max a = Some m -> exists n, v = VNumber n /\ (cmp_number n m = Some Lt \/ cmp_number n m = Some Eq)) ->
    (is_some (s_items a) = true -> exists l, v = VArray l) ->
    (forall it l x, s_items a = Some it -> v = VArray l -> x ∈ l -> arg_accepts task it x) ->
    (s_ty a = Some TObject \/ is_some (s_properties a) = true ->
       exists o, v = VObject o /\ (forall k, k ∈ BTree.keys o -> k ∈ BTree.keys (default [] (s_properties a))) /\
         forall k s, (k, s) ∈ default [] (s_properties a) -> s_required s = true -> k ∈ BTree.keys o) ->
    (forall o k s w, v = VObject o -> (k, s) ∈ default [] (s_properties a) -> BTree.get k o = Some w ->
       arg_accepts task s w) ->
    arg_accepts task a v.

(** A call a tool's declaration accepts. *)
Definition declared_call (t : RawTool) (args task : option value) : Prop :=
  exists o, call_arguments args = Some o /\
    (forall k, k ∈ BTree.keys o -> k ∈ BTree.keys (raw_args t)) /\
    (forall k s, (k, s) ∈ raw_args t -> s_required s = true -> k ∈ BTree.keys o) /\
    (forall k s v, (k, s) ∈ raw_args t -> BTree.get k o = Some v -> arg_accepts task s v).

(** An approval rule as its declaration writes it. *)
Record approval_as_written (a : RawApproval) (r : ApprovalRule) : Prop := {
  written_when : match raw_when a with
                 | None => when r = None
                 | Some src => exists w, parse_condition src = Ok w /\ when r = Some w
                 end;
  written_approvers : approvers r = raw_approvers a /\ Forall (fun x => is_blank x = false) (approvers r);
  written_ttl : match raw_ttl a with
                | None => ttl_secs r = None
                | Some t => exists n, parse_duration t = Some n /\ ttl_secs r = Some n
                end;
  written_show : show r = raw_show a;
}.

(** A rule as its tool's declaration writes it. *)
Record rule_as_written (t : RawTool) (r : ToolRule) : Prop := {
  written_call : forall args task, rule_check r args task = Ok tt <-> declared_call t args task;
  written_effect : effect r = match raw_effect t, raw_side_effect t with
                              | Some e, _ => Some e
                              | None, Some true => Some Write
                              | None, Some false => Some Read
                              | None, None => None
                              end;
  written_side_effect : forall b, raw_side_effect t = Some b -> side_effect r = b;
  written_key : match raw_idempotency_key t with
                | None => idempotency_key r = None
                | Some src => exists k, parse_key src = Ok k /\ idempotency_key r = Some k
                end;
  written_approval : match raw_approval t, approval r with
                     | None, None => True
                     | Some a, Some ap => approval_as_written a ap
                     | _, _ => False
                     end;
}.

(** ** Lemmas *)

Lemma ArgSpec_ind (P : ArgSpec -> Prop) :
  (forall a, (forall m, s_properties a = Some m -> Forall (fun na => P na.2) m) ->
             (forall it, s_items a = Some it -> P it) -> P a) ->
  forall a, P a.
Proof.
  intros step.
  refine (fix F a := step a
    (fun m => match s_properties a as o return o = Some m -> Forall (fun na => P na.2) m with
              | Some m0 => fun e => eq_ind m0 (Forall (fun na => P na.2))
                  ((fix go l : Forall (fun na => P na.2) l :=
                      match l with [] => Forall_nil_2 _ | x :: l => Forall_cons_2 _ x l (F x.2) (go l) end) m0)
                  m (Some_inj _ _ e)
              | None => fun e => _
              end)
    (fun it => match s_items a as o return o = Some it -> P it with
               | Some it0 => fun e => eq_ind it0 P (F it0) it (Some_inj _ _ e)
               | None => fun e => _
               end)); discriminate e.
Qed.

(** *** A compiled argument accepts what its specification accepts *)

Definition compiles_to (a : ArgSpec) (c' : constraint) : Prop :=
  exists p p' c, arg_compile a p = Ok c /\ validate c p' = Ok c'.

Definition option_rel {A B} (R : A -> B -> Prop) (a : option A) (b : option B) : Prop :=
  match a, b with Some x, Some y => R x y | None, None => True | _, _ => False end.

Definition named_rel {A B} (R : A -> B -> Prop) (x : string * A) (y : string * B) : Prop := x.1 = y.1 /\ R x.2 y.2.

(** What compiling and validating leave in the constraint, field by field. *)
Record compiled_fields (a : ArgSpec) (c : constraint) : Prop := {
  cf_ty : ty c = s_ty a;
  cf_const : constant c = s_constant a;
  cf_enum : one_of c = s_one_of a;
  cf_min : minimum c = s_min a;
  cf_max : maximum c = s_max a;
  cf_lengths : if bool_decide (s_ty a = Some TArray)
               then min_length c = None /\ max_length c = None /\ min_items c = s_min_len a /\ max_items c = s_max_len a
               else min_length c = s_min_len a /\ max_length c = s_max_len a /\ min_items c = None /\ max_items c = None;
  cf_pattern : pattern c = s_pattern a;
  cf_regex : option_rel (fun src re => regex_new (anchored src) = Some re) (s_pattern a) (regex c);
  cf_or_regex : option_rel (fun src re => regex_new src = Some re) (s_or_pattern a) (or_regex c);
  cf_context : one_of_context c = option_map (map (fun k => default k (strip_prefix "task." k))) (s_one_of_context a);
  cf_bind : bind_to c = None;
  cf_object : additional_properties c = None /\ min_properties c = None /\ max_properties c = None;
  cf_required : required c = option_map required_names (s_properties a);
  cf_properties : option_rel (Forall2 (named_rel compiles_to)) (s_properties a) (properties c);
  cf_items : option_rel compiles_to (s_items a) (items c);
}.

Lemma normalised_context p keys keys' :
  try_map (normalise_context p) keys = Ok keys' -> keys' = map (fun k => default k (strip_prefix "task." k)) keys.
Proof.
  rewrite try_map_Ok. induction 1 as [|k k' l l' Hk _ IH]; [done|]. simpl. f_equal; [|done].
  unfold normalise_context in Hk. cbv zeta in Hk. destruct (_ || _); [discriminate|]. by injection Hk.
Qed.

Lemma Forall2_compose {A B C} (R : A -> B -> Prop) (S : B -> C -> Prop) (T : A -> C -> Prop) l1 l2 l3 :
  (forall x y z, R x y -> S y z -> T x z) -> Forall2 R l1 l2 -> Forall2 S l2 l3 -> Forall2 T l1 l3.
Proof.
  intros HT H. revert l3. induction H as [|x y l1 l2 Hxy _ IH]; intros l3 H3; [by apply Forall2_nil_inv_l in H3 as ->|].
  apply Forall2_cons_inv_l in H3 as (z & l3' & Hyz & H3 & ->). constructor; [by eapply HT|by apply IH].
Qed.

Lemma arg_compile_eq a p :
  arg_compile a p =
    (if bool_decide (s_ty a = Some TNull) then Err (NullType p)
     else
       let array := bool_decide (s_ty a = Some TArray) in
       let? props :=
         match s_properties a with
         | Some props =>
             let? out := try_map (fun ns => let? c := arg_compile ns.2 (child p ns.1) in Ok (ns.1, c)) props in
             Ok (Some out, Some (required_names props))
         | None => Ok (None, None)
         end in
       let? its :=
         match s_items a with
         | Some i => let? c := arg_compile i (p +:+ "/items") in Ok (Some c)
         | None => Ok None
         end in
       Ok {| ty := s_ty a; one_of := s_one_of a; constant := s_constant a;
             min_length := if array then None else s_min_len a; max_length := if array then None else s_max_len a;
             pattern := s_pattern a; minimum := s_min a; maximum := s_max a;
             properties := props.1; required := props.2; additional_properties := None;
             min_properties := None; max_properties := None; items := its;
             min_items := if array then s_min_len a else None; max_items := if array then s_max_len a else None;
             bind_to := None; one_of_context := s_one_of_context a; or_pattern := s_or_pattern a;
             regex := None; or_regex := None |}).
Proof. by destruct a. Qed.

Lemma compiles_to_fields a c' : compiles_to a c' -> compiled_fields a c'.
Proof.
  intros (p & p' & c & Hc & Hv). rewrite arg_compile_eq in Hc. destruct (bool_decide (s_ty a = Some TNull)); [discriminate|].
  cbv zeta in Hc.
  destruct (match s_properties a with Some _ => _ | None => _ end) as [[ps rs]|] eqn:Hps; [|discriminate].
  destruct (match s_items a with Some _ => _ | None => _ end) as [its|] eqn:Hits; [|discriminate].
  injection Hc as <-. rewrite validate_eq in Hv.
  destruct (validate_shape _ p') as [[]|]; [|discriminate].
  destruct (validate_context _ p') as [ctx|] eqn:Hctx; [|discriminate].
  destruct (compile_or_pattern _ p') as [or_re|] eqn:Hor; [|discriminate].
  destruct (compile_pattern _ p') as [re|] eqn:Hre; [|discriminate].
  destruct (validate_required _ p') as [[]|]; [|discriminate].
  cbn [properties items fst snd] in Hv.
  destruct (match ps with Some _ => _ | None => _ end) as [ps'|] eqn:Hps'; [|discriminate].
  destruct (match its with Some _ => _ | None => _ end) as [its'|] eqn:Hits'; [|discriminate].
  injection Hv as <-. split; cbn [ty constant one_of minimum maximum min_length max_length min_items max_items pattern
    regex or_regex one_of_context bind_to additional_properties min_properties max_properties required properties items]; try done.
  - by destruct (bool_decide _).
  - unfold compile_pattern in Hre. cbn [pattern regex] in Hre. destruct (s_pattern a) as [src|]; [|by injection Hre as <-].
    destruct (regex_new _) as [r|] eqn:Hr; [|discriminate]. by injection Hre as <-.
  - unfold compile_or_pattern in Hor. cbn [or_pattern or_regex one_of_context] in Hor.
    destruct (s_or_pattern a) as [src|]; [|by injection Hor as <-]. destruct (is_none _); [discriminate|].
    destruct (regex_new _) as [r|] eqn:Hr; [|discriminate]. by injection Hor as <-.
  - unfold validate_context in Hctx. cbn [one_of_context] in Hctx.
    destruct (s_one_of_context a) as [[|k ks]|]; [discriminate| |by injection Hctx as <-].
    destruct (try_map _ _) as [ks'|] eqn:Hk; [|discriminate]. injection Hctx as <-.
    by rewrite (normalised_context _ _ _ Hk).
  - destruct (s_properties a) as [m|]; [|by injection Hps as <- <-].
    destruct (try_map _ m) as [out|]; [|discriminate]. by injection Hps as <- <-.
  - destruct (s_properties a) as [m|]; [|by injection Hps as <- <-; injection Hps' as <-].
    destruct (try_map _ m) as [out|] eqn:Hm; [|discriminate]. injection Hps as <- <-.
    destruct (try_map _ out) as [out'|] eqn:Ho; [|discriminate]. injection Hps' as <-.
    rewrite try_map_Ok in Hm. rewrite try_map_Ok in Ho. cbn [option_rel].
    eapply Forall2_compose; [|exact Hm|exact Ho]. intros [k s] [k1 c1] [k2 c2] H1 H2. cbn [fst snd] in *.
    destruct (arg_compile s _) as [d|] eqn:Hd; [|discriminate]. injection H1 as <- <-.
    destruct (validate d _) as [d'|] eqn:Hd'; [|discriminate]. injection H2 as <- <-. split; [done|]. cbn. by eexists _, _, _.
  - destruct (s_items a) as [i|]; [|by injection Hits as <-; injection Hits' as <-].
    destruct (arg_compile i _) as [d|] eqn:Hd; [|discriminate]. injection Hits as <-.
    destruct (validate d _) as [d'|] eqn:Hd'; [|discriminate]. injection Hits' as <-. cbn. by eexists _, _, _.
Qed.

Lemma option_rel_Some_r {A B} (R : A -> B -> Prop) o y : option_rel R o (Some y) -> exists x, o = Some x /\ R x y.
Proof. destruct o as [x|]; [|done]. intros H. by exists x. Qed.
Lemma option_rel_Some_l {A B} (R : A -> B -> Prop) x o : option_rel R (Some x) o -> exists y, o = Some y /\ R x y.
Proof. destruct o as [y|]; [|done]. intros H. by exists y. Qed.
Lemma option_rel_is_some {A B} (R : A -> B -> Prop) x y : option_rel R x y -> is_some x = is_some y.
Proof. by destruct x, y. Qed.

Lemma context_agrees a c task v (F : compiled_fields a c) :
  (forall keys, one_of_context c = Some keys -> context_allows c task v keys) <->
  (forall paths, s_one_of_context a = Some paths -> context_permits task a v paths).
Proof.
  rewrite (cf_context a c F). pose proof (cf_or_regex a c F) as Hre.
  assert (forall paths, context_allows c task v (map (fun k => default k (strip_prefix "task." k)) paths) <->
            context_permits task a v paths) as Heq.
  { intros paths. unfold context_allows, context_permits, matches_source. f_equiv.
    - split.
      + intros (k & x & (k0 & -> & Hin)%list_elem_of_fmap & Hx & Hm). by exists k0, x.
      + intros (k & x & Hin & Hx & Hm). eexists _, x. split; [by apply list_elem_of_fmap_2|done].
    - split.
      + intros (re & s & Hr & Hs & Hm). rewrite Hr in Hre. apply option_rel_Some_r in Hre as (src & -> & ?). eauto 10.
      + intros (src & s & Hsrc & Hs & re & Hr & Hm). rewrite Hsrc in Hre.
        apply option_rel_Some_l in Hre as (re' & -> & ?). exists re', s. by simplify_eq. }
  destruct (s_one_of_context a) as [paths|]; simpl; [|done]. split; intros H.
  - intros ? [= <-]. by apply Heq, H.
  - intros ? [= <-]. by apply Heq, H.
Qed.

#[local] Instance VString_inj : Inj (=) (=) VString.
Proof. by intros ? ? [= ->]. Qed.
#[local] Instance VArray_inj : Inj (=) (=) VArray.
Proof. by intros ? ? [= ->]. Qed.

(** Keywords that want one shape of value: together they ask for one value
    of that shape which satisfies each. *)
Lemma family_agrees {A B1 B2 B3} (mk : A -> value) `{!Inj (=) (=) mk} (o1 : option B1) (o2 : option B2) (o3 : option B3)
    (P1 : B1 -> A -> Prop) (P2 : B2 -> A -> Prop) (P3 : B3 -> A -> Prop) v :
  (is_some o1 || is_some o2 || is_some o3 = true ->
     exists x, v = mk x /\ (forall m, o1 = Some m -> P1 m x) /\ (forall m, o2 = Some m -> P2 m x) /\
       (forall m, o3 = Some m -> P3 m x)) <->
  (forall m, o1 = Some m -> exists x, v = mk x /\ P1 m x) /\ (forall m, o2 = Some m -> exists x, v = mk x /\ P2 m x) /\
  (forall m, o3 = Some m -> exists x, v = mk x /\ P3 m x).
Proof.
  split.
  - intros H. split_and!; intros m ->; destruct H as (x & ? & ? & ? & ?);
      try (by rewrite ?orb_true_r); eauto.
  - intros (H1 & H2 & H3) Hb.
    assert (exists x, v = mk x) as [x ->].
    { destruct o1 as [m|]; [destruct (H1 m eq_refl) as (x & ? & _); eauto|].
      destruct o2 as [m|]; [destruct (H2 m eq_refl) as (x & ? & _); eauto|].
      destruct o3 as [m|]; [destruct (H3 m eq_refl) as (x & ? & _); eauto|done]. }
    exists x. split; [done|]. split_and!; intros m Hm; [apply H1 in Hm|apply H2 in Hm|apply H3 in Hm];
      by destruct Hm as (y & <-%(inj mk) & ?).
Qed.

Lemma pattern_agrees a c s (F : compiled_fields a c) :
  (forall re, regex c = Some re -> is_match re s = true) <->
  (forall src, s_pattern a = Some src -> matches_source (anchored src) s).
Proof.
  pose proof (cf_regex a c F) as Hre. unfold matches_source.
  destruct (s_pattern a) as [src|], (regex c) as [re|]; simpl in *; try done. split.
  - intros H ? [= <-]. exists re. split; [done|]. by apply H.
  - intros H ? [= <-]. destruct (H src eq_refl) as (re' & ? & ?). by simplify_eq.
Qed.

Lemma strings_agree a c v (F : compiled_fields a c) :
  (has_string_keywords c = true -> exists s, v = VString s /\ string_ok c s) <->
  (forall m, min_length c = Some m -> exists s, v = VString s /\ (m <= chars_count s)%Z) /\
  (forall m, max_length c = Some m -> exists s, v = VString s /\ (chars_count s <= m)%Z) /\
  (forall src, s_pattern a = Some src -> exists s, v = VString s /\ matches_source (anchored src) s).
Proof.
  unfold has_string_keywords, string_ok. setoid_rewrite (pattern_agrees a c _ F). rewrite (cf_pattern a c F).
  apply (family_agrees VString (min_length c) (max_length c) (s_pattern a) (fun m s => (m <= chars_count s)%Z)
    (fun m s => (chars_count s <= m)%Z)).
Qed.

Lemma arrays_agree a c v (F : compiled_fields a c) :
  (has_array_keywords c = true ->
     exists l, v = VArray l /\ count_ok (min_items c) (max_items c) (Z.of_nat (length l))) <->
  (is_some (s_items a) = true -> exists l, v = VArray l) /\
  (forall m, min_items c = Some m -> exists l, v = VArray l /\ (m <= Z.of_nat (length l))%Z) /\
  (forall m, max_items c = Some m -> exists l, v = VArray l /\ (Z.of_nat (length l) <= m)%Z).
Proof.
  unfold has_array_keywords, count_ok. rewrite <- (option_rel_is_some _ _ _ (cf_items a c F)).
  pose proof (family_agrees VArray (s_items a) (min_items c) (max_items c) (fun _ _ => True)
    (fun m l => (m <= Z.of_nat (length l))%Z) (fun m l => (Z.of_nat (length l) <= m)%Z) v) as Hf.
  split.
  - intros H. apply proj1 in Hf. destruct Hf as (H1 & H2 & H3).
    { intros Hb. destruct (H Hb) as (l & -> & ? & ?). by exists l. }
    split; [|done]. intros Hi. destruct (s_items a) as [it|]; [|done].
    destruct (H1 it eq_refl) as (l & ? & _). by exists l.
  - intros (H1 & H2 & H3) Hb. apply proj2 in Hf. destruct Hf as (l & ? & _ & ? & ?); [|done|by exists l].
    split; [|done]. intros it Hit. rewrite Hit in H1. destruct (H1 eq_refl) as [l ?]. by exists l.
Qed.

(** The string keywords and the array's lengths, together. *)
Lemma measures_agree a c v (F : compiled_fields a c) :
  ((has_string_keywords c = true -> exists s, v = VString s /\ string_ok c s) /\
   (has_array_keywords c = true ->
      exists l, v = VArray l /\ count_ok (min_items c) (max_items c) (Z.of_nat (length l)))) <->
  ((forall src, s_pattern a = Some src -> exists s, v = VString s /\ matches_source (anchored src) s) /\
   (forall m, s_min_len a = Some m -> exists n, measured a v n /\ (m <= n)%Z) /\
   (forall m, s_max_len a = Some m -> exists n, measured a v n /\ (n <= m)%Z) /\
   (is_some (s_items a) = true -> exists l, v = VArray l)).
Proof.
  rewrite (strings_agree a c v F), (arrays_agree a c v F). unfold measured. pose proof (cf_lengths a c F) as Hlen.
  destruct (bool_decide _); destruct Hlen as (-> & -> & -> & ->); split.
  - intros ((_ & _ & Hp) & Hi & Hmn & Hmx). split_and!; try done; intros m Hm;
      [destruct (Hmn m Hm) as (l & -> & ?)|destruct (Hmx m Hm) as (l & -> & ?)]; eauto.
  - intros (Hp & Hmn & Hmx & Hi). split_and!; try done; intros m Hm;
      [destruct (Hmn m Hm) as (n & (l & -> & ->) & ?)|destruct (Hmx m Hm) as (n & (l & -> & ->) & ?)]; eauto.
  - intros ((Hmn & Hmx & Hp) & Hi & _ & _). split_and!; try done; intros m Hm;
      [destruct (Hmn m Hm) as (l & -> & ?)|destruct (Hmx m Hm) as (l & -> & ?)]; eauto.
  - intros (Hp & Hmn & Hmx & Hi). split_and!; try done; intros m Hm;
      [destruct (Hmn m Hm) as (n & (l & -> & ->) & ?)|destruct (Hmx m Hm) as (n & (l & -> & ->) & ?)]; eauto.
Qed.

Lemma numbers_agree a c v (F : compiled_fields a c) :
  (has_number_keywords c = true -> exists n, v = VNumber n /\ number_ok c n) <->
  (forall m, s_min a = Some m -> exists n, v = VNumber n /\ (cmp_number n m = Some Gt \/ cmp_number n m = Some Eq)) /\
  (forall m, s_max a = Some m -> exists n, v = VNumber n /\ (cmp_number n m = Some Lt \/ cmp_number n m = Some Eq)).
Proof.
  unfold has_number_keywords, number_ok. rewrite (cf_min a c F), (cf_max a c F). split.
  - intros H. split; intros m Hm; rewrite Hm in H; rewrite ?orb_true_r in H;
      destruct (H eq_refl) as (n & ? & ? & ?); eauto.
  - intros [H1 H2] Hb. assert (exists n, v = VNumber n) as [n ->].
    { destruct (s_min a) as [m|]; [destruct (H1 m eq_refl) as (n & ? & _); eauto|].
      destruct (s_max a) as [m|]; [destruct (H2 m eq_refl) as (n & ? & _); eauto|done]. }
    exists n. split; [done|]. split; intros m Hm; [apply H1 in Hm|apply H2 in Hm];
      by destruct Hm as (n' & [= <-] & ?).
Qed.

Lemma named_elem {A B} (R : A -> B -> Prop) (m : btree A) (m' : btree B) :
  Forall2 (named_rel R) m m' ->
  BTree.keys m = BTree.keys m' /\
  (forall k x, (k, x) ∈ m -> exists y, (k, y) ∈ m' /\ R x y) /\ (forall k y, (k, y) ∈ m' -> exists x, (k, x) ∈ m /\ R x y).
Proof.
  induction 1 as [|[k x] [k' y] l l' [Hk HR] _ (IHk & IHl & IHr)]; [by split_and!; [|intros ? ? ?%elem_of_nil..]|].
  cbn in Hk, HR. subst k'. split_and!.
  - unfold BTree.keys in *. cbn. by f_equal.
  - intros q z [[= -> ->]|Hin]%elem_of_cons; [exists y; split; [by left|done]|].
    destruct (IHl q z Hin) as (w & ? & ?). exists w. split; [by right|done].
  - intros q z [[= -> ->]|Hin]%elem_of_cons; [exists x; split; [by left|done]|].
    destruct (IHr q z Hin) as (w & ? & ?). exists w. split; [by right|done].
Qed.

Lemma required_names_elem args k : k ∈ required_names args <-> exists s, (k, s) ∈ args /\ s_required s = true.
Proof.
  unfold required_names. split.
  - intros ([k' s] & -> & [Hr Hin]%list_elem_of_filter)%list_elem_of_fmap. by exists s.
  - intros (s & Hin & Hr). apply (list_elem_of_fmap_2 fst _ (k, s)). by apply list_elem_of_filter.
Qed.

Lemma objects_agree a c v (F : compiled_fields a c) :
  (has_object_keywords c = true \/ ty c = Some TObject -> exists o, v = VObject o /\ object_shape_of c o) <->
  (s_ty a = Some TObject \/ is_some (s_properties a) = true ->
     exists o, v = VObject o /\ (forall k, k ∈ BTree.keys o -> k ∈ BTree.keys (default [] (s_properties a))) /\
       forall k s, (k, s) ∈ default [] (s_properties a) -> s_required s = true -> k ∈ BTree.keys o).
Proof.
  destruct (cf_object a c F) as (Hadd & Hmn & Hmx). pose proof (cf_properties a c F) as Hp.
  assert (has_object_keywords c = is_some (s_properties a)) as ->.
  { unfold has_object_keywords. rewrite Hadd, Hmn, Hmx, (cf_required a c F), <- (option_rel_is_some _ _ _ Hp).
    by destruct (s_properties a). }
  assert (BTree.keys (default [] (properties c)) = BTree.keys (default [] (s_properties a))) as Hkeys.
  { destruct (s_properties a) as [m|], (properties c) as [m'|]; try done. by apply named_elem in Hp as (Hk & _). }
  assert (forall o, object_shape_of c o <->
    (forall k, k ∈ BTree.keys o -> k ∈ BTree.keys (default [] (s_properties a))) /\
    (forall k s, (k, s) ∈ default [] (s_properties a) -> s_required s = true -> k ∈ BTree.keys o)) as Hshape.
  { intros o. unfold object_shape_of, object_shape, count_ok. rewrite Hadd, Hmn, Hmx, (cf_required a c F), Hkeys. simpl.
    assert (default [] (option_map required_names (s_properties a)) = required_names (default [] (s_properties a))) as ->
      by (by destruct (s_properties a)).
    setoid_rewrite required_names_elem. split.
    - intros (H1 & H2 & _). split; [by apply H1|]. intros k s ? ?. apply H2. by exists s.
    - intros (H1 & H2). split_and!; try done. intros r (s & ? & ?). by apply (H2 r s). }
  rewrite (cf_ty a c F). split; (intros H [Ht|Hs]; [destruct H as (o & -> & Ho); [auto|] | destruct H as (o & -> & Ho); [auto|]]);
    exists o; (split; [done|by apply Hshape]).
Qed.

Lemma items_agree a c task v (F : compiled_fields a c)
    (IH : forall it, s_items a = Some it -> forall c, compiles_to it c -> forall v, conforms task c v <-> arg_accepts task it v) :
  (forall l it x, v = VArray l -> items c = Some it -> x ∈ l -> conforms task it x) <->
  (forall it l x, s_items a = Some it -> v = VArray l -> x ∈ l -> arg_accepts task it x).
Proof.
  pose proof (cf_items a c F) as Hi. split.
  - intros H it l x Hit Hv Hx. rewrite Hit in Hi. apply option_rel_Some_l in Hi as (c1 & Hc1 & Hto).
    apply (IH it Hit c1 Hto). by eapply H.
  - intros H l it x Hv Hit Hx. rewrite Hit in Hi. apply option_rel_Some_r in Hi as (s & Hs & Hto).
    apply (IH s Hs it Hto). by eapply H.
Qed.

Lemma properties_agree a c task v (F : compiled_fields a c)
    (IH : forall m, s_properties a = Some m ->
       Forall (fun na => forall c, compiles_to na.2 c -> forall v, conforms task c v <-> arg_accepts task na.2 v) m) :
  (forall o name c' v', v = VObject o -> (name, c') ∈ default [] (properties c) ->
     BTree.get name o = Some v' -> conforms task c' v') <->
  (forall o k s w, v = VObject o -> (k, s) ∈ default [] (s_properties a) -> BTree.get k o = Some w ->
     arg_accepts task s w).
Proof.
  pose proof (cf_properties a c F) as Hp.
  destruct (s_properties a) as [m|], (properties c) as [m'|];
    [|destruct Hp|destruct Hp|split; intros _ ? ? ? ? _ []%elem_of_nil].
  specialize (IH m eq_refl). rewrite Forall_forall in IH. apply named_elem in Hp as (_ & Hl & Hr). cbn [default from_option] in *.
  split; intros H o k s w Hv Hin Hg.
  - destruct (Hl k s Hin) as (c1 & Hin1 & Hto). apply (IH (k, s) Hin c1 Hto). by eapply H.
  - destruct (Hr k s Hin) as (a1 & Hin1 & Hto). apply (IH (k, a1) Hin1 s Hto). by eapply H.
Qed.

Lemma compiled_accepts task a c' : compiles_to a c' -> forall v, conforms task c' v <-> arg_accepts task a v.
Proof.
  revert c'. induction a as [a IHp IHi] using ArgSpec_ind. intros c F%compiles_to_fields v.
  pose proof (context_agrees a c task v F) as Hctx. pose proof (measures_agree a c v F) as Hmeas.
  pose proof (numbers_agree a c v F) as Hnum. pose proof (objects_agree a c v F) as Hobj.
  pose proof (items_agree a c task v F IHi) as Hit. pose proof (properties_agree a c task v F IHp) as Hprop.
  assert (has_object_keywords c = true \/ ty c = Some TObject \/ properties c = None) as Hcase.
  { unfold has_object_keywords. destruct (properties c); simpl; auto. }
  assert (has_array_keywords c = true \/ items c = None) as Hacase.
  { unfold has_array_keywords. destruct (items c); simpl; auto. }
  split.
  - intros Hc. inversion Hc as [c0 v0 Hb H1 H2 H3 H4 H5 H6 H7 H8 H9 H10]; subst c0 v0.
    rewrite (cf_ty a c F) in H2. rewrite (cf_const a c F) in H3. rewrite (cf_enum a c F) in H4.
    destruct (proj1 Hmeas (conj H5 H9)) as (? & ? & ? & ?), (proj1 Hnum H6) as [? ?].
    constructor; auto; [by apply Hctx| |by apply Hobj|].
    + apply Hit. intros l it x Hv Hi. destruct Hacase as [Hk|Hn]; [by apply (H10 Hk l)|congruence].
    + apply Hprop. intros o name c' v' Hv Hin. destruct Hcase as [Hk|[Hk|Hn]];
        [by apply (H8 (or_introl Hk) o name)|by apply (H8 (or_intror Hk) o name)|].
      rewrite Hn in Hin. by apply elem_of_nil in Hin.
  - intros Ha. inversion Ha as [a0 v0 H1 H2 H3 H4 H5 H6 H7 H8 H9 H10 H11 H12 H13]; subst a0 v0.
    destruct (proj2 Hmeas (conj H5 (conj H6 (conj H7 H10)))) as [? ?].
    constructor; auto.
    + by rewrite (cf_bind a c F).
    + by apply Hctx.
    + by rewrite (cf_ty a c F).
    + by rewrite (cf_const a c F).
    + by rewrite (cf_enum a c F).
    + by apply Hnum.
    + by apply Hobj.
    + intros _. by apply Hprop.
    + intros _. by apply Hit.
Qed.

Lemma compile_arguments_named args out :
  compile_arguments args = Ok out -> Forall2 (named_rel compiles_to) args out.
Proof.
  unfold compile_arguments. rewrite try_map_Ok. induction 1 as [|[k a] [k' c] l l' Hx _ IH]; constructor; [|done].
  cbn [fst snd] in Hx. destruct (arg_compile a _) as [c0|] eqn:Hc; [|discriminate].
  destruct (validate c0 _) as [c1|] eqn:Hval; [|discriminate]. injection Hx as <- <-. split; [done|]. by eexists _, _, _.
Qed.

Lemma compile_arguments_spec args out :
  compile_arguments args = Ok out ->
  BTree.keys out = BTree.keys args /\ forall k c, (k, c) ∈ out -> validated c.
Proof.
  unfold compile_arguments. rewrite try_map_Ok. induction 1 as [|[k a] [k' c] l l' Hx _ [IHk IHv]].
  - split; [done|]. by intros k c ?%elem_of_nil.
  - cbn [fst snd] in Hx. destruct (arg_compile a _) as [c0|]; [|discriminate].
    destruct (validate c0 _) as [c1|] eqn:Hval; [|discriminate]. injection Hx as <- <-.
    split; [change (k :: BTree.keys l' = k :: BTree.keys l); by rewrite IHk|].
    intros q d [[= -> ->]|Hin]%elem_of_cons; [by eapply validate_validated|by eapply IHv].
Qed.

Lemma required_names_keys args k : k ∈ required_names args -> k ∈ BTree.keys args.
Proof.
  unfold required_names, BTree.keys. intros ([k' a] & -> & [_ Hin]%list_elem_of_filter)%list_elem_of_fmap.
  by apply list_elem_of_fmap_2.
Qed.

Lemma find_undeclared (roots : list string) (args : btree constraint) :
  List.find (fun r => negb (BTree.contains_key r args)) roots = None ->
  forall r, r ∈ roots -> r ∈ BTree.keys args.
Proof.
  intros Hf r Hr. apply list_elem_of_In in Hr. pose proof (List.find_none _ _ Hf r Hr) as H.
  apply negb_false_iff in H. by apply BTree.contains_key_elem.
Qed.

Lemma check_show_spec names seen args :
  check_show names seen args = Ok tt -> NoDup names /\ (forall n, n ∈ names -> n ∉ seen) /\
    forall n, n ∈ names -> exists c, (n, c) ∈ args /\ ty c <> Some TObject /\ ty c <> Some TArray.
Proof.
  revert seen. induction names as [|n names IH]; intros seen; simpl.
  - intros _. split; [constructor|]. split; by intros n ?%elem_of_nil.
  - destruct (BTree.get n args) as [c|] eqn:Hg; [|discriminate]. cbn [ok_or].
    case_bool_decide as Hty; [discriminate|]. case_bool_decide as Hin; [discriminate|].
    intros (Hnd & Hseen & Hall)%IH. split; [|split].
    + apply NoDup_cons. split; [|done]. intros H. by apply (Hseen n H); left.
    + intros m [->|Hm]%elem_of_cons; [done|]. intros Hs. apply (Hseen m Hm). by right.
    + intros m [->|Hm]%elem_of_cons; [|by apply Hall]. exists c. split; [by apply BTree.get_Some_elem|].
      split; intros Ht; apply Hty; auto.
Qed.

Lemma parse_condition_source src c : parse_condition src = Ok c -> cond_source c = src.
Proof.
  unfold parse_condition. destruct (tokenize src); [|discriminate]. destruct (parse_tokens _); [|discriminate].
  by intros [= <-].
Qed.

Lemma compile_approval_spec a args app :
  compile_approval a args = Ok (Some app) ->
  (forall w, when app = Some w -> parse_condition (cond_source w) = Ok w /\
     forall root, root ∈ cond_argument_roots w -> root ∈ BTree.keys args) /\
  NoDup (show app) /\
  (forall n, n ∈ show app -> exists c, (n, c) ∈ args /\ ty c <> Some TObject /\ ty c <> Some TArray) /\
  (forall n, ttl_secs app = Some n -> (0 < n <= U64_MAX)%Z).
Proof.
  unfold compile_approval. destruct a as [a|]; [|discriminate]. unfold compile_when.
  destruct (match raw_when a with None => Ok None | Some src => _ end) as [w|] eqn:Hw; [|discriminate].
  destruct (existsb is_blank (raw_approvers a)); [discriminate|].
  destruct (match raw_ttl a with None => Ok None | Some t => _ end) as [ttl|] eqn:Httl; [|discriminate].
  destruct (check_show _ _ _) as [[]|] eqn:Hshow; [|discriminate]. intros [= <-]. cbn [when show ttl_secs].
  apply check_show_spec in Hshow as (Hnd & _ & Hall). split; [|split; [done|split; [done|]]].
  - intros w' ->. destruct (raw_when a) as [src|]; [|discriminate].
    destruct (parse_condition src) as [c|] eqn:Hc; [|discriminate]. cbn [map_err] in Hw.
    destruct (List.find _ _) eqn:Hf; [discriminate|]. injection Hw as ->.
    pose proof (parse_condition_source src w' Hc) as ->. split; [done|]. by apply find_undeclared.
  - intros n ->. destruct (raw_ttl a) as [t|]; [|discriminate].
    destruct (parse_duration t) as [m|] eqn:Hd; [|discriminate]. injection Httl as ->.
    by apply parse_duration_spec in Hd as (gs & _ & _ & _ & _ & ?).
Qed.

Lemma tool_compile_ok t r : tool_compile t = Ok r -> rule_ok r /\ BTree.keys (arguments r) = BTree.keys (raw_args t).
Proof.
  unfold tool_compile. destruct (compile_effect t) as [eff|] eqn:Heff; [|discriminate].
  destruct (compile_arguments (raw_args t)) as [args|] eqn:Hargs; [|discriminate].
  destruct (compile_key _ _ args) as [key|] eqn:Hkey; [|discriminate].
  destruct (compile_approval _ args) as [app|] eqn:Happ; [|discriminate].
  intros [= <-]. apply compile_arguments_spec in Hargs as [Hk Hv]. split; [|exact Hk].
  assert (forall a, app = Some a -> compile_approval (raw_approval t) args = Ok (Some a)) as Ha
    by (intros a ->; exact Happ).
  split; cbn [arguments rule_required side_effect requires_approval effect idempotency_key approval]; try done.
  - rewrite Hk. apply required_names_keys.
  - intros k ->. unfold compile_key in Hkey. destruct (raw_idempotency_key t) as [src|]; [|discriminate].
    destruct (is_some_and eff is_side_effect) eqn:Hside; cbn [negb] in Hkey; [|discriminate]. split; [done|].
    destruct (parse_key src) as [k'|]; [|discriminate]. cbn [map_err] in Hkey.
    destruct (List.find _ _) eqn:Hf; [discriminate|]. injection Hkey as ->. by apply find_undeclared.
  - intros a w Hap Hw. apply Ha, compile_approval_spec in Hap as (Hwhen & _). by apply Hwhen.
  - intros a Hap. apply Ha, compile_approval_spec in Hap as (_ & ? & ? & _). done.
  - intros a n Hap Hn. apply Ha, compile_approval_spec in Hap as (_ & _ & _ & Ht). by apply Ht.
Qed.
(** *** The stages of a tool's compilation, read off its declaration *)

Lemma compile_effect_spec t eff :
  compile_effect t = Ok eff ->
  eff = match raw_effect t, raw_side_effect t with
        | Some e, _ => Some e
        | None, Some true => Some Write
        | None, Some false => Some Read
        | None, None => None
        end /\ forall b, raw_side_effect t = Some b -> is_some_and eff is_side_effect = b.
Proof.
  unfold compile_effect. destruct (raw_side_effect t) as [[]|], (raw_effect t) as [[]|]; intros [= <-];
    (split; [done|by intros ? [= <-]]).
Qed.

Lemma compile_key_spec src side args key :
  compile_key src side args = Ok key ->
  match src with None => key = None | Some s => exists k, parse_key s = Ok k /\ key = Some k end.
Proof.
  unfold compile_key. destruct src as [s|]; [|by intros [= <-]]. destruct (negb side); [discriminate|].
  destruct (parse_key s) as [k|]; [|discriminate]. cbn [map_err]. destruct (List.find _ _); [discriminate|].
  intros [= <-]. by exists k.
Qed.

Lemma compile_approval_written a args app :
  compile_approval a args = Ok app ->
  match a, app with None, None => True | Some a, Some ap => approval_as_written a ap | _, _ => False end.
Proof.
  unfold compile_approval. destruct a as [a|]; [|by intros [= <-]]. unfold compile_when.
  destruct (match raw_when a with None => Ok None | Some src => _ end) as [w|] eqn:Hw; [|discriminate].
  destruct (existsb is_blank (raw_approvers a)) eqn:Hb; [discriminate|].
  destruct (match raw_ttl a with None => Ok None | Some t => _ end) as [ttl|] eqn:Httl; [|discriminate].
  destruct (check_show _ _ _) as [[]|]; [|discriminate]. intros [= <-]. split; cbn [when approvers ttl_secs show].
  - destruct (raw_when a) as [src|]; [|by injection Hw as <-].
    destruct (parse_condition src) as [c|]; [|discriminate]. cbn [map_err] in Hw.
    destruct (List.find _ _); [discriminate|]. injection Hw as <-. by exists c.
  - by rewrite existsb_false in Hb.
  - destruct (raw_ttl a) as [t|]; [|by injection Httl as <-].
    destruct (parse_duration t) as [n|]; [|discriminate]. injection Httl as <-. by exists n.
  - done.
Qed.

Lemma tool_compile_written t r : tool_compile t = Ok r -> rule_as_written t r.
Proof.
  unfold tool_compile. destruct (compile_effect t) as [eff|] eqn:Heff; [|discriminate].
  destruct (compile_arguments (raw_args t)) as [args|] eqn:Hargs; [|discriminate].
  destruct (compile_key _ _ args) as [key|] eqn:Hkey; [|discriminate].
  destruct (compile_approval _ args) as [app|] eqn:Happ; [|discriminate].
  intros [= <-]. apply compile_effect_spec in Heff as [Heff Hside].
  split; cbn [effect side_effect idempotency_key approval];
    [|exact Heff|exact Hside|exact (compile_key_spec _ _ _ _ Hkey)|exact (compile_approval_written _ _ _ Happ)].
  intros call task. apply compile_arguments_named, named_elem in Hargs as (Hk & Hl & Hr).
  rewrite rule_check_spec. unfold declared_call. cbn [arguments rule_required]. rewrite <- Hk.
  setoid_rewrite required_names_elem. f_equiv. intros o. split; intros (Ho & Hd & Hreq & Hv); (split; [exact Ho|split; [exact Hd|split]]).
  - intros k s Hin Hs. apply Hreq. by exists s.
  - intros k s v Hin Hg. destruct (Hl k s Hin) as (c & Hc & Hto). apply (compiled_accepts task s c Hto). by eapply Hv.
  - intros k (s & ? & ?). by apply (Hreq k s).
  - intros k c v Hin Hg. destruct (Hr k c Hin) as (s & Hs & Hto). apply (compiled_accepts task s c Hto). by eapply Hv.
Qed.

(** *** A whole manifest *)

(** A loaded manifest as its document writes it. *)
Record manifest_as_written (read : string -> option bytes) (m : RawManifest) (out : Manifest) : Prop := {
  written_release : release out = raw_release m /\ is_blank (release out) = false;
  written_version : match raw_version m with
                    | VString s => version out = s /\ is_blank s = false
                    | VNumber n => version out = number_to_string n
                    | _ => False
                    end;
  written_policy : match raw_policy m with
                   | None => policy out = None
                   | Some d => is_blank d = false /\ exists src, read d = Some src /\
                       policy out = Some (mkPolicy d src (mkReleaseHash (sha256 src)))
                   end;
  written_tools : Forall2 (fun nt nr => nr.1 = nt.1 /\ nr.1 <> "" /\ rule_as_written nt.2 nr.2 /\ rule_ok nr.2)
                    (default [] (raw_tools m)) (tools out);
}.
End V1.
End V1.

(** ** Properties *)

(** The release hash covers the release, not its listing: manifests that
    differ only in version, labels and the order of tools, MCP servers,
    policies and dependencies have the same hash; and two manifests with the
    same hash have the same canonical text under the same domain, unless
    SHA-256 collides on their two texts (so prompts order, model, code and
    the rest are bound). *)
Theorem manifest_hash_identity {UC : UnicodeCrate} {HC : HashCrates} {JC : JsonCrates} (a b : Release.AgentRelease) :
  (Release.same_release a b -> Release.manifest_hash a = Release.manifest_hash b) /\
  (Release.manifest_hash a = Release.manifest_hash b ->
     (Namespace.for_hashing (Release.api_version a) = Namespace.for_hashing (Release.api_version b) /\
      jcs (Release.canonical_view a) = jcs (Release.canonical_view b)) \/
     collision_among sha256 [Release.hash_text a; Release.hash_text b]).
Proof.
  split.
  - intros H. unfold Release.manifest_hash, Release.hash_text, Release.canonical_view. rewrite (Release.canonical_json_same a b H).
    by destruct H as (-> & _).
  - unfold Release.manifest_hash. intros H. injection H as [H|H]%same_or_pair; [left|by right]. unfold Release.hash_text in H.
    assert (forall ns, lacks "010"%char (Namespace.agent_release_hash_domain ns)) as Hl.
    { intros [] Hin; apply list_elem_of_In in Hin; vm_compute in Hin; intuition discriminate. }
    apply line_inj in H as [Hd Hj]; [|apply Hl..].
    split; [|by apply (inj as_bytes)].
    by destruct (Namespace.for_hashing (Release.api_version a)), (Namespace.for_hashing (Release.api_version b)).
Qed.

(** C39: a v1 manifest that loads is the manifest as written. Its release and
    version are the declared ones and not blank, its policy the bytes of the
    declared file with their digest; its tools are the declared ones, in
    order and under their names. A tool's rule accepts a call exactly when
    the call's arguments are an object (or absent) with only declared keys
    and every required one, each value accepted by its argument's
    specification (type, [const], [enum], [pattern], [min_len], [max_len],
    [min], [max], [items], [properties] and their [required], and
    [one_of_context] with [or_pattern]), read off the manifest without the
    compiled constraints. The effect, the idempotency key and the approval
    (its condition, approvers, [ttl] and [show]) are the declared ones, and
    approval is required exactly when one is declared; what they name is
    declared ([rule_ok]). *)
Theorem v1_manifest_rules_ok {RC : RegexCrate} {HC : HashCrates} {JC : JsonCrates} (read : string -> option bytes)
    (doc : value) (m : V1.RawManifest) (out : V1.Manifest) (loaded : V1.manifest_compile read doc m = Ok out) :
  V1.manifest_as_written read m out.
Proof.
  revert loaded. unfold V1.manifest_compile. destruct (is_blank (V1.raw_release m)) eqn:Hrel; [discriminate|].
  destruct (match V1.raw_version m with VNumber n => _ | _ => _ end) as [ver|] eqn:Hver; [|discriminate].
  destruct (match V1.raw_policy m with None => _ | Some d => _ end) as [pol|] eqn:Hpol; [|discriminate].
  destruct (try_map _ _) as [ts|] eqn:Hts; [|discriminate]. intros [= <-]. split; cbn [V1.release V1.version V1.policy V1.tools].
  - done.
  - destruct (V1.raw_version m) as [| |n|s| |]; try discriminate; [by injection Hver as <-|].
    destruct (is_blank s) eqn:Hs; [discriminate|]. by injection Hver as <-.
  - destruct (V1.raw_policy m) as [d|]; [|by injection Hpol as <-]. destruct (is_blank d) eqn:Hd; [discriminate|].
    destruct (read d) as [src|]; [|discriminate]. injection Hpol as <-. split; [done|]. by exists src.
  - rewrite try_map_Ok in Hts. eapply Forall2_impl; [exact Hts|]. intros [k t] [k' r] Hx. cbn [fst snd] in *.
    unfold str_is_empty in Hx. case_bool_decide as Hne; [discriminate|].
    destruct (V1.tool_compile t) as [r'|] eqn:Hc; [|discriminate]. injection Hx as <- <-.
    split; [done|]. split; [done|]. split; [by apply V1.tool_compile_written|exact (proj1 (V1.tool_compile_ok t r' Hc))].
Qed.

(** *** Concrete instances *)

Section Witnesses.
Import Toy.

Definition arg_spec (t : json_type) (pattern : option string) (max_len : option Z) (mn mx : option number)
    (req : bool) : V1.ArgSpec :=
  V1.mkArgSpec (Some t) pattern None None None max_len mn mx None None req None None.

(** [send_email] and [issue_refund], after the module's own example. *)
Definition send_email : V1.RawTool :=
  V1.mkRawTool
    [("body", arg_spec TString None (Some 4000%Z) None None true);
     ("to", V1.mkArgSpec (Some TString) None None None None None None None None None true
              (Some ["task.ticket.customer_email"]) (Some "ops@ourcompany.com"))]
    (Some true) None (Some "{to}") (Some (V1.mkRawApproval (Some "body == 'bye'") ["slack:leads"] (Some "15m") ["body"])).
Definition issue_refund : V1.RawTool :=
  V1.mkRawTool
    [("amount", arg_spec TNumber None None (Some (PosInt 0)) (Some (PosInt 500)) true);
     ("currency", arg_spec TString (Some "EUR") None None None false)]
    None (Some Irreversible) None (Some (V1.mkRawApproval None [] None ["amount"])).
Definition support_manifest : V1.RawManifest :=
  V1.mkRawManifest "support-agent" (VString "1") (Some "support.cedar")
    (Some [("issue_refund", issue_refund); ("send_email", send_email)]).
Definition support_file (p : string) : option bytes :=
  if bool_decide (p = "support.cedar") then Some (as_bytes "permit(principal, action, resource);") else None.
(** The document [support_manifest] is the parse of. *)
Definition obj : list (string * value) -> value := VObject.
Definition num (n : Z) : value := VNumber (PosInt n).
Definition support_document : value :=
  obj [("policy", VString "support.cedar"); ("release", VString "support-agent");
       ("tools", obj
         [("issue_refund", obj
            [("approval", obj [("show", VArray [VString "amount"])]);
             ("args", obj
               [("amount", obj [("max", num 500); ("min", num 0); ("required", VBool true); ("type", VString "number")]);
                ("currency", obj [("pattern", VString "EUR"); ("type", VString "string")])]);
             ("effect", VString "irreversible")]);
          ("send_email", obj
            [("approval", obj [("approvers", VArray [VString "slack:leads"]); ("show", VArray [VString "body"]);
                               ("ttl", VString "15m"); ("when", VString "body == 'bye'")]);
             ("args", obj
               [("body", obj [("max_len", num 4000); ("required", VBool true); ("type", VString "string")]);
                ("to", obj [("one_of_context", VArray [VString "task.ticket.customer_email"]);
                            ("or_pattern", VString "ops@ourcompany.com"); ("required", VBool true);
                            ("type", VString "string")])]);
             ("idempotency_key", VString "{to}"); ("side_effect", VBool true)])]);
       ("version", VString "1")].

Lemma v1_manifest_rules_ok_witness :
  exists out, V1.manifest_compile support_file support_document support_manifest = Ok out /\
    length (V1.tools out) = 2 /\ V1.manifest_as_written support_file support_manifest out.
Proof.
  eexists. split; [vm_compute; reflexivity|]. split; [vm_compute; reflexivity|].
  apply (v1_manifest_rules_ok support_file support_document). vm_compute. reflexivity.
Defined.
End Witnesses.
