(* ===== verification/Operations.v ===== *)
(** * The operations store

    [crates/cloakpipe-mcp/src/operations.rs]: the durable states of
    side-effecting calls.  The SQLite table is a finite map from the primary
    key to the row (every column the code writes; [state] as the text stored);
    a [BEGIN IMMEDIATE] transaction is one step that commits, or fails and
    leaves the table as it was; whether the database takes a transaction is
    an argument ([commits]) of the steps that write.  [updated_at] and the current time are opaque
    text.  The gate lock is the holder of [<db>.lock]. *)

From S2P Require Import Prelude.

(** ** States *)

Inductive OperationState := InFlight | Done | Failed | Unknown | NotApplied.

#[global] Instance operation_state_eq_dec : EqDecision OperationState.
Proof. solve_decision. Defined.

(** [OperationState::as_str] and [FromStr]. *)
Definition state_str (s : OperationState) : string :=
  match s with
  | InFlight => "in_flight" | Done => "done" | Failed => "failed" | Unknown => "unknown" | NotApplied => "not_applied"
  end.
Definition state_parse (s : string) : option OperationState :=
  if decide (s = "in_flight") then Some InFlight else if decide (s = "done") then Some Done
  else if decide (s = "failed") then Some Failed else if decide (s = "unknown") then Some Unknown
  else if decide (s = "not_applied") then Some NotApplied else None.

(** ** Rows *)

Record RawRow := mkRawRow {
  raw_tool : string;
  raw_digest : bytes;
  raw_state : string;
  raw_result : option string;
  raw_updated_at : string;
  raw_masked : option bool;
}.

Record OperationRow := mkOperationRow {
  operation_id : string;
  op_tool : string;
  call_digest : bytes;
  op_state : OperationState;
  op_result : option string;
  result_masked : bool;
  updated_at : string;
}.

Inductive operations_error :=
| DigestNot32 (id : string)
| UnrecognisedState (s : string)
| GateInUse
| CannotSettleAs (s : OperationState)
| Sqlite.

(** A transaction the database may refuse to take ([OperationsError::from] of
    an SQLite error): an error, and nothing written. *)
Definition stored {A} (commits : bool) (r : result operations_error A) : result operations_error A :=
  if commits then r else Err Sqlite.

(** [to_row] *)
Definition to_row (id : string) (r : RawRow) : result operations_error OperationRow :=
  if negb (length (raw_digest r) =? 32) then Err (DigestNot32 id)
  else
    let masked := is_some (raw_result r) && default true (raw_masked r) in
    let? s := ok_or (state_parse (raw_state r)) (UnrecognisedState (raw_state r)) in
    Ok (mkOperationRow id (raw_tool r) (raw_digest r) s (raw_result r) masked (raw_updated_at r)).

Abbreviation table := (gmap string RawRow).

(** ** Operations of the store *)

Inductive Begin :=
| Forward
| Replay (res : option string) (masked : bool)
| Conflict
| ReconcileBeforeRetry (s : OperationState).

(** [UPDATE .. SET state, result, result_masked, updated_at] of one row. *)
Definition set_row (s : OperationState) (res : option string) (masked : bool) (now : string) (r : RawRow) : RawRow :=
  mkRawRow (raw_tool r) (raw_digest r) (state_str s) res now (Some masked).

(** [OperationStore::begin] *)
Definition begin (now id tool : string) (digest : bytes) (t : table) : result operations_error (Begin * table) :=
  match t !! id with
  | None => Ok (Forward, <[id := mkRawRow tool digest "in_flight" None now (Some false)]> t)
  | Some raw =>
      let? r := to_row id raw in
      if negb (bool_decide (call_digest r = digest)) || negb (bool_decide (op_tool r = tool)) then Ok (Conflict, t)
      else
        match op_state r with
        | Done => Ok (Replay (op_result r) (result_masked r), t)
        | (InFlight | Unknown) as s => Ok (ReconcileBeforeRetry s, t)
        | Failed | NotApplied => Ok (Forward, <[id := set_row InFlight None false now raw]> t)
        end
  end.

(** [OperationStore::settle_with] ([settle]: [masked = false],
    [settle_masked]: [masked = true]). *)
Definition settle_with (now id : string) (s : OperationState) (res : option string) (masked : bool) (t : table)
    : result operations_error (bool * table) :=
  if negb (bool_decide (s ∈ [Done; Failed; Unknown])) then Err (CannotSettleAs s)
  else
    match t !! id with
    | Some raw =>
        if bool_decide (raw_state raw = "in_flight")
        then Ok (true, <[id := set_row s res (masked && is_some res) now raw]> t)
        else Ok (false, t)
    | None => Ok (false, t)
    end.

Inductive reconcile_error :=
| NotFound
| NotPending (s : OperationState)
| ReconcileInFlight
| BadOutcome
| Evidence (why : string)
| Store (e : operations_error).

(** What [OperationStore::reconcile] refuses before it asks for evidence. *)
Definition reconcilable (id : string) (outcome : OperationState) (force : bool) (t : table) : result reconcile_error RawRow :=
  if negb (bool_decide (outcome ∈ [Done; NotApplied])) then Err BadOutcome
  else
    let? raw := ok_or (t !! id) NotFound in
    let? s := ok_or (state_parse (raw_state raw)) (Store (UnrecognisedState (raw_state raw))) in
    if negb (bool_decide (s ∈ [Unknown; InFlight])) then Err (NotPending s)
    else if bool_decide (s = InFlight) && negb force then Err ReconcileInFlight
    else Ok raw.

(** [OperationStore::reconcile]: the callback runs inside the transaction,
    on a state [l] of its own, before the row is written; [commits]: the
    [UPDATE] and the commit after it succeed. *)
Definition reconcile {L : Type} (now id : string) (outcome : OperationState) (force : bool)
    (evidence : L -> result string unit * L) (commits : bool) (t : table) (l : L) : result reconcile_error unit * table * L :=
  match reconcilable id outcome force t with
  | Err e => (Err e, t, l)
  | Ok raw =>
      match evidence l with
      | (Err why, l) => (Err (Evidence why), t, l)
      | (Ok _, l) =>
          if commits then (Ok tt, <[id := set_row outcome None false now raw]> t, l) else (Err (Store Sqlite), t, l)
      end
  end.

(** [ORDER BY operation_id] *)
Definition ids_where (p : RawRow -> bool) (t : table) : list string :=
  merge_sort String.le (map_to_list (filter (fun kr => p kr.2 = true) t)).*1.

Definition in_flight (r : RawRow) : bool := bool_decide (raw_state r = "in_flight").

(** The table's half of [OperationStore::recover]. *)
Definition sweep (now : string) (t : table) : list string * table :=
  (ids_where in_flight t,
   (fun r => if in_flight r
             then mkRawRow (raw_tool r) (raw_digest r) "unknown" (raw_result r) now (raw_masked r) else r) <$> t).

(** [OperationStore::masked_results] *)
Definition masked_results (t : table) : list string :=
  ids_where (fun r => bool_decide (raw_state r = "done") && is_some (raw_result r)
                      && (is_none (raw_masked r) || bool_decide (raw_masked r = Some true))) t.

(** [OperationStore::get] and [list] *)
Definition get (id : string) (t : table) : result operations_error (option OperationRow) :=
  match t !! id with
  | None => Ok None
  | Some raw => let? r := to_row id raw in Ok (Some r)
  end.
Definition list_rows (s : option OperationState) (t : table) : result operations_error (list OperationRow) :=
  try_map (fun id => match t !! id with Some raw => to_row id raw | None => Err (UnrecognisedState id) end)
    (ids_where (fun r => match s with None => true | Some s => bool_decide (raw_state r = state_str s) end) t).

(** ** The database shared by gates and operators

    A handle is an open [OperationStore]. *)

Record db := mkDb { rows : table; lock : option nat }.

(** [claim_for_gate], [recover] and [release_gate] *)
Definition claim_for_gate (h : nat) (d : db) : result operations_error db :=
  match lock d with
  | None => Ok (mkDb (rows d) (Some h))
  | Some h' => if decide (h' = h) then Ok d else Err GateInUse
  end.
Definition recover (now : string) (h : nat) (d : db) : result operations_error (list string * db) :=
  let? d := claim_for_gate h d in
  let '(ids, t) := sweep now (rows d) in Ok (ids, mkDb t (lock d)).
Definition release_gate (h : nat) (d : db) : db :=
  if decide (lock d = Some h) then mkDb (rows d) None else d.

(** What gates and operators do, and what they are answered. *)
Inductive command :=
| CBegin (commits : bool) (now id tool : string) (digest : bytes)
| CSettle (commits : bool) (now id : string) (s : OperationState) (res : option string) (masked : bool)
| CReconcile (commits : bool) (now id : string) (outcome : OperationState) (force : bool) (evidence : result string unit)
| CRecover (now : string) (h : nat)
| CRelease (h : nat).

Inductive response :=
| RBegin (r : result operations_error Begin)
| RSettle (r : result operations_error bool)
| RReconcile (r : result reconcile_error unit)
| RRecover (r : result operations_error (list string))
| RRelease.

Definition exec (c : command) (d : db) : response * db :=
  match c with
  | CBegin commits now id tool digest =>
      match stored commits (begin now id tool digest (rows d)) with
      | Ok (b, t) => (RBegin (Ok b), mkDb t (lock d))
      | Err e => (RBegin (Err e), d)
      end
  | CSettle commits now id s res masked =>
      match stored commits (settle_with now id s res masked (rows d)) with
      | Ok (b, t) => (RSettle (Ok b), mkDb t (lock d))
      | Err e => (RSettle (Err e), d)
      end
  | CReconcile commits now id outcome force evidence =>
      let '(r, t, _) := reconcile now id outcome force (fun _ => (evidence, tt)) commits (rows d) tt in
      (RReconcile r, mkDb t (lock d))
  | CRecover now h =>
      match recover now h d with
      | Ok (ids, d) => (RRecover (Ok ids), d)
      | Err e => (RRecover (Err e), d)
      end
  | CRelease h => (RRelease, release_gate h d)
  end.

(** A history: commands in the order the database ran them. *)
Inductive run : db -> list (command * response) -> db -> Prop :=
| run_nil d : run d [] d
| run_cons d c tr d' : run (exec c d).2 tr d' -> run d ((c, (exec c d).1) :: tr) d'.

(** ** Specification: the life of one operation *)

Definition state_of (id : string) (t : table) : option string := raw_state <$> t !! id.


(** What lets an operation run again. *)
Definition retry_licence (id : string) (e : command * response) : Prop :=
  match e with
  | (CSettle _ _ id' Failed _ _, RSettle (Ok true)) => id' = id
  | (CReconcile _ _ id' NotApplied _ _, RReconcile (Ok tt)) => id' = id
  | _ => False
  end.

Definition forwards (id : string) (e : command * response) : Prop :=
  match e with
  | (CBegin _ _ id' _ _, RBegin (Ok Forward)) => id' = id
  | _ => False
  end.

#[global] Instance retry_licence_dec id e : Decision (retry_licence id e).
Proof. unfold Decision, retry_licence. repeat case_match; try (right; tauto); apply (decide (_ = _)). Defined.

(** Forwarded and not known to have failed. *)
Definition committed (s : option string) : Prop :=
  s = Some "in_flight" \/ s = Some "unknown" \/ s = Some "done".

(** ** Lemmas *)

Lemma state_parse_spec s st : state_parse s = Some st <-> s = state_str st.
Proof.
  unfold state_parse. split.
  - repeat case_decide; intros [= <-]; subst; done.
  - intros ->. by destruct st.
Qed.

Lemma state_of_insert id id' r t :
  state_of id (<[id' := r]> t) = if decide (id' = id) then Some (raw_state r) else state_of id t.
Proof. unfold state_of. rewrite lookup_insert. by case_decide. Qed.

Lemma to_row_spec id raw r :
  to_row id raw = Ok r <->
  length (raw_digest raw) = 32 /\ exists s, raw_state raw = state_str s /\
    r = mkOperationRow id (raw_tool raw) (raw_digest raw) s (raw_result raw)
          (is_some (raw_result raw) && default true (raw_masked raw)) (raw_updated_at raw).
Proof.
  unfold to_row. destruct (length (raw_digest raw) =? 32) eqn:Hl; simpl.
  - apply Nat.eqb_eq in Hl. destruct (state_parse (raw_state raw)) as [s|] eqn:Hs; simpl.
    + apply state_parse_spec in Hs. split; [intros [= <-]; eauto|].
      intros (_ & s' & Hs' & ->). rewrite Hs in Hs'. assert (s = s') as -> by (by destruct s, s'). done.
    + split; [done|]. intros (_ & s & Hs' & _). apply state_parse_spec in Hs'. congruence.
  - apply Nat.eqb_neq in Hl. split; [done|]. by intros [? _].
Qed.

(** The answers of [begin], branch by branch. *)
Lemma begin_spec now id tool dg t :
  match begin now id tool dg t with
  | Ok (Forward, t') =>
      exists r, t' = <[id := r]> t /\ raw_state r = "in_flight" /\ raw_tool r = tool /\ raw_digest r = dg /\
        (t !! id = None \/ state_of id t = Some "failed" \/ state_of id t = Some "not_applied")
  | Ok (_, t') => t' = t
  | Err _ => True
  end.
Proof.
  unfold begin, state_of. destruct (t !! id) as [raw|] eqn:Hid; [|eexists; eauto 10].
  destruct (to_row id raw) as [r|] eqn:Hr; [|done].
  apply to_row_spec in Hr as (_ & s & Hs & ->). simpl.
  case_bool_decide as Hdg; simpl; [|done]. case_bool_decide as Htl; simpl; [|done].
  destruct s; try done; eexists; (split; [done|]); simpl in *; rewrite Hs; auto 10.
Qed.

Lemma settle_spec now id s res masked t :
  match settle_with now id s res masked t with
  | Ok (true, t') => exists raw, t !! id = Some raw /\ raw_state raw = "in_flight" /\ s ∈ [Done; Failed; Unknown] /\
      t' = <[id := set_row s res (masked && is_some res) now raw]> t
  | Ok (false, t') => t' = t
  | Err _ => s ∉ [Done; Failed; Unknown]
  end.
Proof.
  unfold settle_with. case_bool_decide as Hs; simpl; [|done].
  destruct (t !! id) as [raw|] eqn:Hid; [|done]. case_bool_decide as Hst; [|done]. eauto 10.
Qed.

Lemma stored_Ok {A} commits (r : result operations_error A) x : stored commits r = Ok x <-> commits = true /\ r = Ok x.
Proof. destruct commits; cbn; naive_solver. Qed.

Lemma reconcilable_spec id outcome force t raw :
  reconcilable id outcome force t = Ok raw <->
  outcome ∈ [Done; NotApplied] /\ t !! id = Some raw /\
  exists s, raw_state raw = state_str s /\ (s = Unknown \/ s = InFlight /\ force = true).
Proof.
  unfold reconcilable. case_bool_decide as Ho; simpl; [|by split; [|intros [? _]]].
  destruct (t !! id) as [raw'|] eqn:Hid; simpl; [|by split; [|intros (_ & ? & _)]].
  destruct (state_parse (raw_state raw')) as [s|] eqn:Hs; simpl.
  - apply state_parse_spec in Hs.
    assert (forall s', raw_state raw' = state_str s' -> s' = s) as Huniq by (intros s'; rewrite Hs; by destruct s, s').
    destruct s; simpl; try (split; [done|]; intros (_ & [= ->] & s' & Hs' & Hor); apply Huniq in Hs' as ->; naive_solver).
    + destruct force; simpl.
      * split; [intros [= <-]; eauto 10|]. by intros (_ & [= ->] & _).
      * split; [done|]. intros (_ & [= ->] & s' & Hs' & Hor). apply Huniq in Hs' as ->. naive_solver.
    + split; [intros [= <-]; eauto 10|]. by intros (_ & [= ->] & _).
  - split; [done|]. intros (_ & [= ->] & s' & Hs' & _). apply state_parse_spec in Hs'. congruence.
Qed.

(** A verdict that succeeds; one that does not leaves the table. *)
Lemma reconcile_spec {L} now id outcome force (ev : L -> result string unit * L) commits t l :
  match reconcile now id outcome force ev commits t l with
  | (Ok _, t', l') => ev l = (Ok tt, l') /\ commits = true /\
      exists raw, reconcilable id outcome force t = Ok raw /\ t' = <[id := set_row outcome None false now raw]> t
  | (Err _, t', l') => t' = t /\ (l' = l \/ is_ok (reconcilable id outcome force t) = true /\ l' = (ev l).2)
  end.
Proof.
  unfold reconcile. destruct (reconcilable id outcome force t) as [raw|]; [|by auto].
  destruct (ev l) as [[[]|why] l']; [|by auto]. destruct commits; [|by auto]. eauto 10.
Qed.

Lemma sweep_lookup now t id :
  (sweep now t).2 !! id =
  (fun r => if in_flight r then mkRawRow (raw_tool r) (raw_digest r) "unknown" (raw_result r) now (raw_masked r) else r)
    <$> t !! id.
Proof. apply lookup_fmap. Qed.

Lemma ids_where_elem p t id : id ∈ ids_where p t <-> exists r, t !! id = Some r /\ p r = true.
Proof.
  unfold ids_where. rewrite merge_sort_Permutation, list_elem_of_fmap. split.
  - intros ([k r] & -> & Hin). apply elem_of_map_to_list, map_lookup_filter_Some in Hin. eauto.
  - intros (r & Hr & Hp). exists (id, r). split; [done|].
    apply elem_of_map_to_list, map_lookup_filter_Some. done.
Qed.

(** The table after a command, seen at one operation. *)
Lemma exec_rows c d :
  rows (exec c d).2 = rows d \/
  (exists now id tool dg t', c = CBegin true now id tool dg /\ begin now id tool dg (rows d) = Ok (Forward, t') /\
     exec c d = (RBegin (Ok Forward), mkDb t' (lock d))) \/
  (exists now id s res masked t', c = CSettle true now id s res masked /\
     settle_with now id s res masked (rows d) = Ok (true, t') /\ exec c d = (RSettle (Ok true), mkDb t' (lock d))) \/
  (exists now id o force ev raw, c = CReconcile true now id o force ev /\ reconcilable id o force (rows d) = Ok raw /\
     exec c d = (RReconcile (Ok tt), mkDb (<[id := set_row o None false now raw]> (rows d)) (lock d))) \/
  (exists now h, c = CRecover now h /\ rows (exec c d).2 = (sweep now (rows d)).2).
Proof.
  destruct c as [[] now id tool dg|[] now id s res masked|commits now id o force ev|now h|h]; cbn [exec stored]; try by left.
  - pose proof (begin_spec now id tool dg (rows d)) as Hb.
    destruct (begin now id tool dg (rows d)) as [[[] t']|] eqn:E; [|by left; subst..|by left].
    right. left. by exists now, id, tool, dg, t'.
  - pose proof (settle_spec now id s res masked (rows d)) as Hb.
    destruct (settle_with now id s res masked (rows d)) as [[[] t']|] eqn:E; [|by left|by left].
    do 2 right. left. by exists now, id, s, res, masked, t'.
  - pose proof (reconcile_spec now id o force (fun _ => (ev, tt)) commits (rows d) tt) as H.
    destruct (reconcile _ _ _ _ _ _ _ _) as [[[[]|] t'] []]; [|by left; destruct H as [-> _]].
    destruct H as (_ & -> & raw & Hr & ->). do 3 right. left. by exists now, id, o, force, ev, raw.
  - unfold recover, claim_for_gate. destruct (lock d) as [h'|].
    + destruct (decide (h' = h)); [|by left]. do 4 right. by exists now, h.
    + do 4 right. by exists now, h.
  - left. unfold release_gate. by case_decide.
Qed.


(** Between two forwards: what keeps an operation committed. *)
Lemma exec_committed c d id :
  committed (state_of id (rows d)) -> ~ retry_licence id (c, (exec c d).1) ->
  committed (state_of id (rows (exec c d).2)) /\ ~ forwards id (c, (exec c d).1).
Proof.
  intros Hc Hl. split.
  - destruct (exec_rows c d) as [->|[H|[H|[H|H]]]]; [done| | | |].
    + destruct H as (now & id' & tool & dg & t' & -> & Hb & He). rewrite He in Hl |- *. simpl in *.
      pose proof (begin_spec now id' tool dg (rows d)) as Hs. rewrite Hb in Hs.
      destruct Hs as (r & -> & Hr & _). rewrite state_of_insert. case_decide; [|done]. rewrite Hr. by left.
    + destruct H as (now & id' & s & res & masked & t' & -> & Hb & He). rewrite He in Hl |- *. simpl in *.
      pose proof (settle_spec now id' s res masked (rows d)) as Hs. rewrite Hb in Hs.
      destruct Hs as (raw & _ & _ & Hin & ->). rewrite state_of_insert. case_decide; [|done].
      unfold committed. simpl. destruct s; simpl; auto; [by destruct Hl|set_solver].
    + destruct H as (now & id' & o & force & ev & raw & -> & (Ho & _ & s & _)%reconcilable_spec & He).
      rewrite He in Hl |- *. simpl in *. rewrite state_of_insert. case_decide; [|done].
      unfold committed. simpl. destruct o; simpl; auto; try by destruct Hl.
    + destruct H as (now & h & -> & ->). unfold state_of in *. rewrite sweep_lookup.
      destruct (rows d !! id) as [r|]; simpl in *; [|done].
      unfold in_flight. case_bool_decide as Hfl; [|done]. right. by left.
  - destruct c as [commits now id' tool dg| | | |]; cbn [forwards]; try (intros []).
    unfold forwards. cbn [exec].
    pose proof (begin_spec now id' tool dg (rows d)) as Hs. destruct commits; [|done]. cbn [stored].
    destruct (begin now id' tool dg (rows d)) as [[[] t']|]; simpl; try done. intros ->.
    destruct Hs as (r & _ & _ & _ & _ & [Hn|[Hn|Hn]]); unfold committed, state_of in *.
    + rewrite Hn in Hc. naive_solver.
    + rewrite Hn in Hc. naive_solver.
    + rewrite Hn in Hc. naive_solver.
Qed.

Lemma run_app d tr1 tr2 d' : run d (tr1 ++ tr2) d' <-> exists m, run d tr1 m /\ run m tr2 d'.
Proof.
  revert d. induction tr1 as [|[c r] tr1 IH]; intros d; simpl.
  - split; [intros H; exists d; by split; [constructor|]|]. intros (m & H & ?). by inversion H; subst.
  - split.
    + intros H. inversion H as [|? ? ? ? Hr]; subst. apply IH in Hr as (m & ? & ?). exists m. by split; [constructor|].
    + intros (m & H & ?). inversion H as [|? ? ? ? Hr]; subst. constructor. apply IH. eauto.
Qed.

Lemma run_committed d tr d' id :
  run d tr d' -> committed (state_of id (rows d)) -> (forall e, e ∈ tr -> ~ retry_licence id e) ->
  committed (state_of id (rows d')) /\ forall e, e ∈ tr -> ~ forwards id e.
Proof.
  induction 1 as [d|d c tr d' Hr IH]; intros Hc Hl; [split; [done|]; by intros e ?%elem_of_nil|].
  destruct (exec_committed c d id Hc) as [Hc' Hf]; [apply Hl; left|].
  destruct IH as [? Hall]; [done|intros e He; apply Hl; by right|].
  split; [done|]. intros e [->|He]%elem_of_cons; [done|by apply Hall].
Qed.

(** A finished operation. *)
Lemma exec_done c d id raw :
  rows d !! id = Some raw -> raw_state raw = "done" -> rows (exec c d).2 !! id = Some raw.
Proof.
  intros Hid Hst. destruct (exec_rows c d) as [->|[H|[H|[H|H]]]]; [done| | | |].
  - destruct H as (now & id' & tool & dg & t' & -> & Hb & ->). pose proof (begin_spec now id' tool dg (rows d)) as Hs.
    rewrite Hb in Hs. destruct Hs as (r & -> & _ & _ & _ & Hor). simpl. rewrite lookup_insert_ne; [done|].
    intros ->. unfold state_of in Hor. rewrite Hid in Hor. simpl in Hor. rewrite Hst in Hor. naive_solver.
  - destruct H as (now & id' & s & res & masked & t' & -> & Hb & ->).
    pose proof (settle_spec now id' s res masked (rows d)) as Hs. rewrite Hb in Hs.
    destruct Hs as (raw' & Hraw & Hfl & _ & ->). simpl. rewrite lookup_insert_ne; [done|]. intros ->.
    rewrite Hid in Hraw. injection Hraw as <-. by rewrite Hst in Hfl.
  - destruct H as (now & id' & o & force & ev & raw' & -> & (_ & Hraw & s & Hs & Hor)%reconcilable_spec & ->).
    simpl. rewrite lookup_insert_ne; [done|]. intros ->. rewrite Hid in Hraw. injection Hraw as <-.
    rewrite Hst in Hs. destruct Hor as [->|[-> _]]; done.
  - destruct H as (now & h & -> & ->). rewrite sweep_lookup, Hid. simpl. unfold in_flight. by rewrite Hst.
Qed.

Lemma run_done d tr d' id raw :
  run d tr d' -> rows d !! id = Some raw -> raw_state raw = "done" -> rows d' !! id = Some raw.
Proof. induction 1 as [|d c tr d' _ IH]; intros Hid Hst; [done|]. apply IH; [by apply exec_done|done]. Qed.

(** ** Properties *)

(** C6: a side effect is executed at most once: in any history of any number
    of gates and operators over the database, whenever an operation is
    forwarded twice, it was settled as [failed] or reconciled as
    [not_applied] in between. *)
Theorem forwarded_at_most_once (d d' : db) (id : string) (tr1 tr2 tr3 : list (command * response))
    (e1 e2 : command * response)
    (history : run d (tr1 ++ e1 :: tr2 ++ e2 :: tr3) d')
    (first : forwards id e1) (second : forwards id e2) :
  Exists (retry_licence id) tr2.
Proof.
  apply run_app in history as (m & _ & H). inversion H as [|d0 c tr d1 Hr]; subst. clear H.
  destruct (decide (Exists (retry_licence id) tr2)) as [|Hno]; [done|exfalso].
  assert (committed (state_of id (rows (exec c m).2))) as Hc.
  { destruct c as [[] now id' tool dg| | | |]; cbn [forwards] in first; try (exfalso; exact first).
    unfold forwards in first. cbn [exec stored] in *. pose proof (begin_spec now id' tool dg (rows m)) as Hs.
    destruct (begin now id' tool dg (rows m)) as [[[] t']|]; simpl in *; try done. subst id'.
    destruct Hs as (r & -> & Hst & _). rewrite state_of_insert, decide_True by done. rewrite Hst. by left. }
  apply run_app in Hr as (m' & Hr & H').
  destruct (run_committed _ _ _ id Hr Hc) as [Hc' _].
  { intros e He Hlic. apply Hno, Exists_exists. eauto. }
  inversion H' as [|d0 c' tr d1 Hr']; subst.
  apply (proj2 (exec_committed c' m' id Hc' ltac:(destruct c'; first [exact (fun x => x) | exfalso; exact second]))).
  exact second.
Qed.


(** A finished operation is final: once [done], its row never changes
    again whatever runs on the database, a retry of the same call is answered
    with the stored result (marked masked unless it was stored raw) and never
    forwarded, and a call with another tool or digest under that id is a
    conflict. *)
Theorem done_is_final (d d' : db) (tr : list (command * response)) (id : string) (raw : RawRow)
    (history : run d tr d') (row : rows d !! id = Some raw) (finished : raw_state raw = "done")
    (digest_ok : length (raw_digest raw) = 32) (now tool : string) (digest : bytes) :
  rows d' !! id = Some raw /\
  begin now id tool digest (rows d') =
    Ok (if bool_decide (raw_digest raw = digest) && bool_decide (raw_tool raw = tool)
        then Replay (raw_result raw) (is_some (raw_result raw) && default true (raw_masked raw))
        else Conflict, rows d').
Proof.
  pose proof (run_done _ _ _ _ _ history row finished) as Hrow. split; [done|].
  unfold begin. rewrite Hrow.
  rewrite (proj2 (to_row_spec id raw _) (conj digest_ok (ex_intro _ Done (conj finished eq_refl)))). simpl.
  by case_bool_decide; case_bool_decide.
Qed.

(** A gate that starts sweeps the database: it is refused, changing
    nothing, while another gate holds the lock; otherwise it holds the lock,
    no operation is left in flight, those that were are exactly the ids
    returned (in order) and are now [unknown] with their result kept, and
    every other row is untouched. *)
Theorem recover_sweeps_in_flight (now : string) (h : nat) (d : db) :
  match recover now h d with
  | Err e => e = GateInUse /\ exists h', lock d = Some h' /\ h' <> h
  | Ok (ids, d') =>
      lock d' = Some h /\ (lock d = None \/ lock d = Some h) /\ Sorted String.le ids /\
      (forall id, id ∈ ids <-> state_of id (rows d) = Some "in_flight") /\
      forall id, rows d' !! id =
        if bool_decide (id ∈ ids)
        then (fun r => mkRawRow (raw_tool r) (raw_digest r) "unknown" (raw_result r) now (raw_masked r)) <$> rows d !! id
        else rows d !! id
  end.
Proof.
  unfold recover.
  assert (forall id, id ∈ ids_where in_flight (rows d) <-> state_of id (rows d) = Some "in_flight") as Hids.
  { intros id. rewrite ids_where_elem. unfold state_of, in_flight. setoid_rewrite bool_decide_eq_true.
    destruct (rows d !! id) as [r|]; simpl; split; try (by intros (? & ? & _)); try done.
    - by intros (? & [= <-] & ->).
    - intros [= ?]. eauto. }
  assert (forall d0, rows d0 = rows d -> lock d0 = Some h ->
    let '(ids, t) := sweep now (rows d0) in
    lock (mkDb t (lock d0)) = Some h /\ Sorted String.le ids /\
    (forall id, id ∈ ids <-> state_of id (rows d) = Some "in_flight") /\
    forall id, rows (mkDb t (lock d0)) !! id =
      if bool_decide (id ∈ ids)
      then (fun r => mkRawRow (raw_tool r) (raw_digest r) "unknown" (raw_result r) now (raw_masked r)) <$> rows d !! id
      else rows d !! id) as Hsweep.
  { intros d0 Hd0 Hl. pose proof (sweep_lookup now (rows d0)) as Hlk.
    change (sweep now (rows d0)) with (ids_where in_flight (rows d0), (sweep now (rows d0)).2). rewrite Hd0 in *.
    split; [done|]. split; [apply Sorted_merge_sort; apply _|]. split; [done|]. intros id. cbn [rows].
    rewrite Hlk. pose proof (Hids id) as Hi. unfold state_of in Hi.
    destruct (rows d !! id) as [r|]; simpl in *; [|by case_bool_decide].
    assert (in_flight r = bool_decide (id ∈ ids_where in_flight (rows d))) as ->.
    { apply bool_decide_ext. rewrite Hi. split; [by intros ->|by intros [= ->]]. }
    by case_bool_decide. }
  unfold claim_for_gate. destruct (lock d) as [h'|] eqn:Hlock.
  - destruct (decide (h' = h)) as [->|Hne]; [|split; [done|by exists h']].
    specialize (Hsweep d eq_refl Hlock). destruct (sweep now (rows d)). naive_solver.
  - specialize (Hsweep (mkDb (rows d) (Some h)) eq_refl eq_refl). simpl in *. naive_solver.
Qed.

(** An operator's verdict: [reconcile] succeeds exactly for an outcome
    [done] or [not_applied], on an operation that is [unknown] (or
    [in_flight], when forced), with its evidence given and the row written;
    then that row alone takes the outcome and loses its result.  In every
    other case nothing of the table changes, and the evidence was asked for
    only if the verdict was due. *)
Theorem reconcile_exactly {L : Type} (now id : string) (outcome : OperationState) (force : bool)
    (evidence : L -> result string unit * L) (commits : bool) (t : table) (l : L) :
  match reconcile now id outcome force evidence commits t l with
  | (Ok _, t', l') => evidence l = (Ok tt, l') /\ commits = true /\
      exists raw, reconcilable id outcome force t = Ok raw /\ t' = <[id := set_row outcome None false now raw]> t
  | (Err _, t', l') => t' = t /\ (l' = l \/ is_ok (reconcilable id outcome force t) = true /\ l' = (evidence l).2)
  end /\
  forall raw, reconcilable id outcome force t = Ok raw <->
    outcome ∈ [Done; NotApplied] /\ t !! id = Some raw /\
    exists s, raw_state raw = state_str s /\ (s = Unknown \/ s = InFlight /\ force = true).
Proof. split; [apply reconcile_spec|intros raw; apply reconcilable_spec]. Qed.

(** *** Concrete instances *)

Section Witnesses.
Definition digest0 : bytes := repeat "000"%char 32.
Definition empty_db : db := mkDb ∅ None.
Definition begin0 : command := CBegin true "t" "op-1" "refund" digest0.
Definition fail0 : command := CSettle true "t" "op-1" Failed None false.
Definition after_first : db := (exec begin0 empty_db).2.
Definition after_fail : db := (exec fail0 after_first).2.

Lemma forwarded_at_most_once_witness :
  Exists (retry_licence "op-1") [(fail0, RSettle (Ok true))].
Proof.
  apply (forwarded_at_most_once empty_db (exec begin0 after_fail).2 "op-1" [] [(fail0, RSettle (Ok true))] []
           (begin0, RBegin (Ok Forward)) (begin0, RBegin (Ok Forward))); [|reflexivity|reflexivity].
  apply (run_cons empty_db begin0), (run_cons after_first fail0), (run_cons after_fail begin0), run_nil.
Defined.

Definition finished_row : RawRow := mkRawRow "refund" digest0 "done" (Some "ok") "t" (Some false).

Definition finished_db : db := mkDb {["op-1" := finished_row]} None.

Lemma done_is_final_witness :
  rows finished_db !! "op-1" = Some finished_row /\
  begin "t2" "op-1" "refund" digest0 (rows finished_db) =
    Ok (if bool_decide (raw_digest finished_row = digest0) && bool_decide (raw_tool finished_row = "refund")
        then Replay (Some "ok") false else Conflict, rows finished_db).
Proof.
  apply (done_is_final finished_db finished_db [] "op-1" finished_row (run_nil finished_db)); reflexivity.
Qed.
End Witnesses.
