(* ===== verification/Counters.v ===== *)
(** * Call counters

    [crates/cloakpipe-policy/src/counters.rs]: one row per forwarded call, in
    insertion order; [AUTOINCREMENT] never gives an id twice, so the last id
    given is part of the state.  Times are Unix seconds. *)

From S2P Require Import Prelude BTree.

Definition DAY : Z := 86400.
Definition HOUR : Z := 3600.

Record CallRow := mkCallRow { call_id : Z; call_release : string; call_tool : string; call_at : Z }.
Record Counters := mkCounters { calls : list CallRow; last_id : Z }.
Record Window := mkWindow { last_1h : Z; last_24h : Z }.

Definition no_calls : Counters := mkCounters [] 0.

(** [Counters::record]: prune what left the longest window, then insert. *)
Definition record (release tool : string) (at_unix : Z) (c : Counters) : Z * Counters :=
  let kept := filter (fun r => (at_unix - DAY < call_at r)%Z) (calls c) in
  let id := (last_id c + 1)%Z in
  (id, mkCounters (kept ++ [mkCallRow id release tool at_unix]) id).

(** [Counters::forget] *)
Definition forget (id : Z) (c : Counters) : Counters :=
  mkCounters (filter (fun r => call_id r <> id) (calls c)) (last_id c).

Definition stored_calls (c : Counters) : Z := Z.of_nat (length (calls c)).

(** The rows of [SELECT .. WHERE .. GROUP BY tool]. *)
Definition selected (release : string) (now : Z) (c : Counters) : list CallRow :=
  filter (fun r => call_release r = release /\ (now - DAY < call_at r)%Z /\ (call_at r <= now)%Z) (calls c).
Definition group (now : Z) (rs : list CallRow) (tool : string) : Window :=
  let rs := filter (fun r => call_tool r = tool) rs in
  mkWindow (Z.of_nat (length (filter (fun r => (now - HOUR < call_at r)%Z) rs))) (Z.of_nat (length rs)).
Definition grouped (now : Z) (rs : list CallRow) : list (string * Window) :=
  map (fun tool => (tool, group now rs tool)) (remove_dups (map call_tool rs)).

(** [Counters::snapshot] *)
Definition snapshot (release : string) (tools : list string) (now : Z) (c : Counters) : btree Window :=
  let out := BTree.of_list (map (fun t => (t, mkWindow 0 0)) tools) in
  fold_left (fun out row => if BTree.contains_key row.1 out then BTree.insert row.1 row.2 out else out)
    (grouped now (selected release now c)) out.

(** ** Specification *)

(** The calls to [tool] under [release] in [(now - width, now]]. *)
Definition calls_in (release tool : string) (width now : Z) (c : Counters) : Z :=
  Z.of_nat (length (filter (fun r => call_release r = release /\ call_tool r = tool /\
    (now - width < call_at r)%Z /\ (call_at r <= now)%Z) (calls c))).

(** ** Lemmas *)

Lemma group_spec release now tool c :
  group now (selected release now c) tool =
  mkWindow (calls_in release tool HOUR now c) (calls_in release tool DAY now c).
Proof.
  unfold group, selected, calls_in. f_equal; do 2 f_equal; rewrite !list_filter_filter; apply list_filter_iff;
    intros r; unfold HOUR, DAY; split; intros; intuition lia.
Qed.

Lemma group_unseen now tool rs : tool ∉ map call_tool rs -> group now rs tool = mkWindow 0 0.
Proof.
  intros Hn. unfold group.
  assert (filter (fun r => call_tool r = tool) rs = []) as ->; [|done].
  destruct (filter _ rs) as [|r l] eqn:Hf; [done|]. exfalso. apply Hn.
  assert (r ∈ filter (fun r => call_tool r = tool) rs) as Hr by (rewrite Hf; left).
  apply list_elem_of_filter in Hr as [<- Hr]. by apply list_elem_of_fmap_2.
Qed.

Lemma zero_windows (tools : list string) t (m : btree Window) :
  BTree.wf m -> (forall w, BTree.get t m = Some w -> w = mkWindow 0 0) ->
  BTree.get t (fold_left (fun m kv => BTree.insert kv.1 kv.2 m) (map (fun t => (t, mkWindow 0 0)) tools) m) =
  if bool_decide (t ∈ tools) then Some (mkWindow 0 0) else BTree.get t m.
Proof.
  revert m. induction tools as [|a tools IH]; intros m Hwf Hm; [done|]. simpl.
  assert (BTree.get t (BTree.insert a (mkWindow 0 0) m) = if decide (t = a) then Some (mkWindow 0 0) else BTree.get t m) as Hg
    by (by rewrite BTree.get_insert).
  rewrite IH; [|by apply BTree.wf_insert|rewrite Hg; destruct (decide (t = a)); [by intros w [= <-]|done]].
  rewrite Hg. destruct (decide (t = a)) as [->|Hne].
  - rewrite (bool_decide_eq_true_2 (a ∈ a :: tools)) by left. by case_bool_decide.
  - rewrite (bool_decide_ext (t ∈ a :: tools) (t ∈ tools)); [done|]. rewrite elem_of_cons. naive_solver.
Qed.

Lemma snapshot_loop (f : string -> Window) t tools (m : btree Window) :
  BTree.wf m -> NoDup tools ->
  BTree.get t (fold_left (fun out row => if BTree.contains_key row.1 out then BTree.insert row.1 row.2 out else out)
                 (map (fun t => (t, f t)) tools) m) =
  match BTree.get t m with
  | Some w => Some (if bool_decide (t ∈ tools) then f t else w)
  | None => None
  end.
Proof.
  intros Hwf Hnd. revert m Hwf. induction Hnd as [|a tools Ha Hnd IH]; intros m Hwf; simpl.
  { by destruct (BTree.get t m). }
  destruct (BTree.contains_key a m) eqn:Hk.
  - rewrite IH by (by apply BTree.wf_insert). rewrite BTree.get_insert by done. destruct (decide (t = a)) as [->|Heq].
    + rewrite bool_decide_eq_false_2 by done. rewrite bool_decide_eq_true_2 by left.
      apply BTree.contains_key_elem in Hk. destruct (BTree.get a m) eqn:Hg; [done|]. by apply BTree.get_None in Hg.
    + rewrite (bool_decide_ext (t ∈ a :: tools) (t ∈ tools)); [done|]. rewrite elem_of_cons. naive_solver.
  - rewrite IH by done. destruct (BTree.get t m) eqn:Hg; [|done].
    assert (t <> a) as Hne.
    { intros ->. unfold BTree.contains_key, is_some in Hk. by rewrite Hg in Hk. }
    rewrite (bool_decide_ext (t ∈ a :: tools) (t ∈ tools)); [done|]. rewrite elem_of_cons. naive_solver.
Qed.

Lemma snapshot_get release tools now c t :
  BTree.get t (snapshot release tools now c) =
  if bool_decide (t ∈ tools)
  then Some (mkWindow (calls_in release t HOUR now c) (calls_in release t DAY now c)) else None.
Proof.
  unfold snapshot, grouped. rewrite snapshot_loop; [|apply BTree.wf_of_list|apply NoDup_remove_dups].
  unfold BTree.of_list. rewrite zero_windows by (apply BTree.wf_nil || done). destruct (bool_decide (t ∈ tools)); [|done].
  f_equal. rewrite <- group_spec. case_bool_decide as Hin; [done|].
  rewrite group_unseen; [done|]. by rewrite elem_of_remove_dups in Hin.
Qed.

Lemma record_calls_in release tool release' tool' width now at_unix c :
  (width <= DAY)%Z -> (at_unix <= now)%Z ->
  calls_in release' tool' width now (record release tool at_unix c).2 =
  (calls_in release' tool' width now c
   + if bool_decide (release = release' /\ tool = tool' /\ now - width < at_unix) then 1 else 0)%Z.
Proof.
  intros Hw Hnow. unfold calls_in, record. simpl. rewrite filter_app, length_app, list_filter_filter.
  rewrite (list_filter_iff _ (fun r => call_release r = release' /\ call_tool r = tool' /\
             (now - width < call_at r)%Z /\ (call_at r <= now)%Z)).
  - rewrite Nat2Z.inj_add. f_equal. rewrite filter_cons. simpl. case_decide as H1; case_bool_decide as H2; try done.
    + exfalso. apply H2. naive_solver.
    + exfalso. apply H1. naive_solver.
  - intros r. split; [by intros [? _]|]. intros H. split; [exact H|]. lia.
Qed.

Lemma NoDup_map_filter {A B} (f : A -> B) (P : A -> Prop) `{forall x, Decision (P x)} (l : list A) :
  NoDup (map f l) -> NoDup (map f (filter P l)).
Proof.
  induction l as [|x l IH]; [done|]. cbn [map]. intros [Hx Hl]%NoDup_cons. rewrite filter_cons.
  case_decide; [|by apply IH]. cbn [map]. apply NoDup_cons. split; [|by apply IH].
  intros (y & Hy & [_ Hin]%list_elem_of_filter)%list_elem_of_fmap. apply Hx. rewrite Hy. by apply list_elem_of_fmap_2.
Qed.

(** Ids are fresh. *)
Definition ids_fresh (c : Counters) : Prop :=
  NoDup (map call_id (calls c)) /\ Forall (fun r => (call_id r <= last_id c)%Z) (calls c).

Lemma record_ids_fresh release tool at_unix c : ids_fresh c -> ids_fresh (record release tool at_unix c).2.
Proof.
  intros [Hnd Hle]. unfold record, ids_fresh. simpl.
  set (kept := filter _ (calls c)).
  assert (Forall (fun r => (call_id r <= last_id c)%Z) kept) as Hk.
  { apply Forall_forall. intros r [_ Hr]%list_elem_of_filter. rewrite Forall_forall in Hle. by apply Hle. }
  split.
  - rewrite map_app. apply NoDup_app. split; [|split].
    + by apply NoDup_map_filter.
    + intros x (r & -> & Hr)%list_elem_of_fmap Hx%list_elem_of_singleton. rewrite Forall_forall in Hk.
      specialize (Hk r Hr). simpl in Hx. lia.
    + apply NoDup_singleton.
  - apply Forall_app. split; [eapply Forall_impl; [exact Hk|]; intros r ?; simpl in *; lia|by repeat constructor].
Qed.

Lemma forget_record release tool release' tool' width now at_unix c :
  ids_fresh c -> (width <= DAY)%Z -> (at_unix <= now)%Z ->
  let '(id, c') := record release tool at_unix c in
  calls_in release' tool' width now (forget id c') = calls_in release' tool' width now c.
Proof.
  intros [_ Hle] Hw Hnow. unfold record, forget, calls_in. simpl. do 2 f_equal.
  rewrite filter_app, filter_cons. simpl. rewrite decide_False by (by intros []). rewrite app_nil_r.
  rewrite !list_filter_filter. apply filter_ext_in. intros r Hr.
  rewrite Forall_forall in Hle. specialize (Hle r Hr).
  split; [naive_solver|]. intros H. repeat split; try naive_solver; lia.
Qed.

(** ** Properties *)

(** What the policy reads of the counters: for each declared tool, and for
    no other, exactly the calls recorded under the release name in
    [(now - 1h, now]] and in [(now - 24h, now]]. *)
Theorem snapshot_counts_windows (release : string) (tools : list string) (now : Z) (c : Counters) (t : string) :
  BTree.get t (snapshot release tools now c) =
  if bool_decide (t ∈ tools)
  then Some (mkWindow (calls_in release t HOUR now c) (calls_in release t DAY now c)) else None.
Proof. apply snapshot_get. Qed.

(** Recording and withdrawing are exact although [record] prunes: for any
    later time, a recorded call adds one to the windows it falls in and
    changes no other count, withdrawing it with the id [record] returned
    restores every count, and ids are never reused. *)
Theorem record_forget_exact (release tool : string) (at_unix now : Z) (c : Counters)
    (fresh : ids_fresh c) (later : (at_unix <= now)%Z) :
  let '(id, c') := record release tool at_unix c in
  ids_fresh c' /\ ids_fresh (forget id c') /\
  forall release' tool' width, width ∈ [HOUR; DAY] ->
    calls_in release' tool' width now c' =
      (calls_in release' tool' width now c
       + if bool_decide (release = release' /\ tool = tool' /\ now - width < at_unix) then 1 else 0)%Z /\
    calls_in release' tool' width now (forget id c') = calls_in release' tool' width now c.
Proof.
  pose proof (record_ids_fresh release tool at_unix c fresh) as Hf.
  destruct (record release tool at_unix c) as [id c'] eqn:Hr. simpl in Hf. split; [done|]. split.
  { destruct Hf as [Hnd Hle]. split; simpl.
    - by apply NoDup_map_filter.
    - apply Forall_forall. intros r [_ Hin]%list_elem_of_filter. rewrite Forall_forall in Hle. by apply Hle. }
  intros release' tool' width Hw.
  assert (width <= DAY)%Z as Hle by (unfold HOUR, DAY in *; set_solver by lia).
  pose proof (record_calls_in release tool release' tool' width now at_unix c Hle later) as H1.
  pose proof (forget_record release tool release' tool' width now at_unix c fresh Hle later) as H2.
  by rewrite Hr in H1, H2.
Qed.

(** *** Concrete instances *)

Lemma record_forget_exact_witness :
  ids_fresh no_calls /\
  let '(id, c') := record "support" "refund" 1000 no_calls in ids_fresh c' /\ ids_fresh (forget id c').
Proof.
  assert (ids_fresh no_calls) as Hf by (split; constructor).
  split; [exact Hf|].
  pose proof (record_forget_exact "support" "refund" 1000 2000 no_calls Hf ltac:(lia)) as (H1 & H2 & _).
  split; [exact H1|exact H2].
Defined.
