(* ===== verification/Policy.v ===== *)
(** * Cedar policies

    [crates/cloakpipe-policy/src/lib.rs]: the source rewriting of
    [tool_as_action], the translation of a call into a Cedar request, and the
    decision taken from Cedar's answer.  Cedar itself is a parameter. *)

From Stdlib Require Import SpecFloat.
From S2P Require Import Prelude BTree Json Crates Concrete Counters.

(** ** [cedar_policy] and [chrono] as the source uses them *)

Record cedar_response := mkResponse { allowed : bool; reason : list string; errors : list string }.

Class CedarCrate := {
  Expr : Type;                       (* [RestrictedExpression] *)
  EntityUid : Type;
  Entity : Type;
  Entities : Type;
  Context : Type;
  Request : Type;
  PolicySet : Type;
  new_string : string -> Expr;
  new_bool : bool -> Expr;
  new_long : Z -> Expr;
  new_decimal : string -> Expr;
  new_set : list Expr -> Expr;
  new_record : list (string * Expr) -> option Expr;
  entity_uid : string -> string -> option EntityUid;
  entity_new : EntityUid -> list (string * Expr) -> option Entity;
  entity_no_attrs : EntityUid -> Entity;
  entities_from : list Entity -> option Entities;
  context_from_pairs : list (string * Expr) -> option Context;
  request_new : EntityUid -> EntityUid -> EntityUid -> Context -> option Request;
  is_authorized : Request -> PolicySet -> Entities -> cedar_response;
  annotation : PolicySet -> string -> string -> option string;
  CedarPolicy : Type;                (* [cedar_policy::Policy] *)
  policy_set_from_str : bytes -> option PolicySet;
  has_templates : PolicySet -> bool;
  set_policies : PolicySet -> list CedarPolicy;
  set_empty : PolicySet;
  set_add : PolicySet -> CedarPolicy -> option PolicySet;
  policy_id : CedarPolicy -> string;
  policy_new_id : CedarPolicy -> string -> CedarPolicy;
  policy_annotation : CedarPolicy -> string -> option string;
  f64_display : f64 -> string;       (* [format!("{f}")] *)
  utc_hour_weekday : Z -> option (Z * Z); (* hour of day, Monday-based weekday, of a Unix time in range *)
}.

(** ** Source rewriting *)

Inductive scan_mode := Code (prev : option ascii) | InString | InEscape | InComment.

Definition word_byte (c : ascii) : bool :=
  is_ascii_alphanumeric c || bool_decide (c = "_"%char) || bool_decide (c = ":"%char).

Definition tool_prefix : bytes := as_bytes "Tool::" ++ ["034"%char].
Definition action_prefix : bytes := as_bytes "Action::" ++ ["034"%char].

(** [tool_as_action], one byte at a time: in a string literal (whose escapes
    hide a quote), in a line comment, or in code, with the byte before. *)
Fixpoint rewrite_tools (fuel : nat) (m : scan_mode) (s : bytes) : bytes :=
  match s, fuel with
  | [], _ | _, O => []
  | c :: s', S fuel =>
      match m with
      | InString =>
          c :: rewrite_tools fuel (if decide (c = "\"%char) then InEscape
                                   else if decide (c = "034"%char) then Code (Some c) else InString) s'
      | InEscape => c :: rewrite_tools fuel InString s'
      | InComment => c :: rewrite_tools fuel (if decide (c = "010"%char) then Code (Some c) else InComment) s'
      | Code prev =>
          if decide (c = "034"%char) then c :: rewrite_tools fuel InString s'
          else if decide (c = "/"%char /\ head s' = Some "/"%char) then c :: rewrite_tools fuel InComment s'
          else if bool_decide (take 7 s = tool_prefix) && negb (is_some_and prev word_byte)
          then action_prefix ++ rewrite_tools fuel InString (drop 7 s)
          else c :: rewrite_tools fuel (Code (Some c)) s'
      end
  end.
Definition tool_as_action (src : bytes) : bytes := rewrite_tools (length src) (Code None) src.

(** ** Requests *)

Inductive PolicyError := Parse | Input | Evaluation (policies : list string).

Inductive PolicyDecision :=
| Allow (policies : list string)
| RequireApproval (approvers policies : list string)
| Deny (policies : list string).

Record CallInput := mkCallInput {
  ci_release : string;
  ci_tool : string;
  ci_fingerprint : string;
  ci_args : option value;
  ci_task : option value;
  ci_counters : btree Window;
  ci_now_unix : Z;
}.

(** [f as i64] of an integral [f] in range: [m * 2^e]. *)
Definition f64_to_Z (f : f64) : Z :=
  match f with
  | S754_finite s m e =>
      let n := if (0 <=? e)%Z then (Z.pos m * 2 ^ e)%Z else (Z.pos m / 2 ^ (- e))%Z in
      if s then (- n)%Z else n
  | _ => 0%Z
  end.
Definition f64_geb (a b : f64) : bool := match f64_cmp a b with Some (Gt | Eq) => true | _ => false end.
Definition f64_ltb (a b : f64) : bool := match f64_cmp a b with Some Lt => true | _ => false end.

Section Policy.
Context {CC : CedarCrate}.

(** One policy of the parsed set: its [@id] becomes its id. *)
Definition named_policy (p : CedarPolicy) : result PolicyError CedarPolicy :=
  match policy_annotation p "id" with
  | Some id => if is_blank id then Err Parse else Ok (policy_new_id p id)
  | None => Ok p
  end.
Fixpoint add_policies (ps : list CedarPolicy) (set : PolicySet) : result PolicyError PolicySet :=
  match ps with
  | [] => Ok set
  | p :: ps =>
      let? p := named_policy p in
      let? set := ok_or (set_add set p) Parse in
      add_policies ps set
  end.

(** [PolicyEngine::parse] and [policy_ids] *)
Definition parse_policies (src : bytes) : result PolicyError PolicySet :=
  let? parsed := ok_or (policy_set_from_str (tool_as_action src)) Parse in
  if has_templates parsed then Err Parse else add_policies (set_policies parsed) set_empty.
Definition policy_ids (set : PolicySet) : list string := merge_sort String.le (map policy_id (set_policies set)).

Definition uid (ty id : string) : result PolicyError EntityUid := ok_or (entity_uid ty id) Input.

Definition number_to_cedar (n : number) : result PolicyError Expr :=
  match as_i64 n with
  | Some i => Ok (new_long i)
  | None =>
      if is_u64 n then Err Input
      else
        let f := default S754_nan (as_f64 n) in
        if f64_fract_is_zero f && f64_geb f (f64_of_Z I64_MIN) && f64_ltb f (f64_of_Z I64_MAX)
        then Ok (new_long (f64_to_Z f))
        else
          let s := f64_display f in
          let fraction := match split_once "."%char s with Some (_, frac) => String.length frac | None => 0 end in
          if negb (f64_is_finite f) || (4 <? fraction) || f64_geb (SFabs f) (f64_of_Z 922337203685477)
          then Err Input
          else Ok (new_decimal s)
  end.

(** [to_cedar]: nulls inside arrays and objects are dropped. *)
Fixpoint to_cedar (v : value) : result PolicyError Expr :=
  match v with
  | VString s => Ok (new_string s)
  | VBool b => Ok (new_bool b)
  | VNumber n => number_to_cedar n
  | VArray a =>
      let? es := (fix go l := match l with
        | [] => Ok []
        | VNull :: l => go l
        | x :: l => let? e := to_cedar x in let? es := go l in Ok (e :: es)
        end) a in
      Ok (new_set es)
  | VObject o =>
      let? fs := (fix go (l : btree value) := match l with
        | [] => Ok []
        | (_, VNull) :: l => go l
        | (k, x) :: l => let? e := to_cedar x in let? fs := go l in Ok ((k, e) :: fs)
        end) o in
      ok_or (new_record fs) Input
  | VNull => Err Input
  end.

Definition record_or_empty (v : option value) : result PolicyError Expr :=
  match v with
  | None | Some VNull => ok_or (new_record []) Input
  | Some v => to_cedar v
  end.

(** [counters_record] and [time_record] *)
Definition counters_record (cs : btree Window) : result PolicyError Expr :=
  ok_or (new_record (cs ≫= fun kw => [(kw.1 +:+ "_1h", new_long (last_1h kw.2)); (kw.1 +:+ "_24h", new_long (last_24h kw.2))]))
    Input.
Definition time_record (now_unix : Z) : result PolicyError Expr :=
  let? (hour, weekday) := ok_or (utc_hour_weekday now_unix) Input in
  ok_or (new_record [("unix", new_long now_unix); ("hour_utc", new_long hour); ("weekday", new_long weekday)]) Input.

Definition build_request (call : CallInput) : result PolicyError (Request * Entities) :=
  let? principal := uid "Release" (ci_release call) in
  let? action := uid "Action" (ci_tool call) in
  let? res := uid "Call" (ci_fingerprint call) in
  let? args := record_or_empty (ci_args call) in
  let? call_entity := ok_or (entity_new res [("args", args)]) Input in
  let? entities := ok_or (entities_from [call_entity; entity_no_attrs principal]) Input in
  let? task := record_or_empty (ci_task call) in
  let? counters := counters_record (ci_counters call) in
  let? time := time_record (ci_now_unix call) in
  let? context := ok_or (context_from_pairs [("task", task); ("counters", counters); ("time", time)]) Input in
  let? request := ok_or (request_new principal action res context) Input in
  Ok (request, entities).

(** [BTreeSet::from_iter(l).into_iter().collect()] *)
Definition sorted_set (l : list string) : list string := merge_sort String.le (remove_dups l).

(** The approvers of the satisfied policies, unless one has no
    [@approval]. *)
Fixpoint routes (ps : PolicySet) (ids : list string) (approvers : list string) : option (list string) :=
  match ids with
  | [] => Some approvers
  | id :: ids =>
      let! route := annotation ps id "approval" else None in
      routes ps ids (if negb (str_is_empty route) && negb (bool_decide (route ∈ approvers))
                     then approvers ++ [route] else approvers)
  end.

Definition decide_response (ps : PolicySet) (r : cedar_response) : result PolicyError PolicyDecision :=
  let errored := sorted_set (errors r) in
  if negb (bool_decide (errored = [])) then Err (Evaluation errored)
  else
    let satisfied := sorted_set (reason r) in
    if negb (allowed r) then Ok (Deny satisfied)
    else
      match routes ps satisfied [] with
      | Some approvers => Ok (RequireApproval approvers satisfied)
      | None => Ok (Allow satisfied)
      end.

(** [PolicyEngine::evaluate] *)
Definition evaluate (ps : PolicySet) (call : CallInput) : result PolicyError PolicyDecision :=
  let? (request, entities) := build_request call in
  decide_response ps (is_authorized request ps entities).

(** ** Lemmas *)

Lemma sorted_set_elem l x : x ∈ sorted_set l <-> x ∈ l.
Proof. unfold sorted_set. rewrite merge_sort_Permutation. apply elem_of_remove_dups. Qed.

Lemma sorted_set_nil l : sorted_set l = [] <-> l = [].
Proof.
  split; [|by intros ->]. intros H. destruct l as [|x l]; [done|].
  assert (x ∈ sorted_set (x :: l)) as Hx by (apply sorted_set_elem; left). rewrite H in Hx. by apply elem_of_nil in Hx.
Qed.

Lemma routes_spec ps ids acc :
  NoDup acc ->
  match routes ps ids acc with
  | None => exists id, id ∈ ids /\ annotation ps id "approval" = None
  | Some out =>
      (forall id, id ∈ ids -> annotation ps id "approval" <> None) /\ NoDup out /\
      forall r, r ∈ out <-> r ∈ acc \/ r <> "" /\ exists id, id ∈ ids /\ annotation ps id "approval" = Some r
  end.
Proof.
  revert acc. induction ids as [|id ids IH]; intros acc Hnd; simpl.
  - split; [by intros ? ?%elem_of_nil|]. split; [done|]. intros r. split; [by left|].
    by intros [?|(_ & ? & ?%elem_of_nil & _)].
  - destruct (annotation ps id "approval") as [route|] eqn:Ha; [|exists id; by split; [left|]].
    set (acc' := if _ && _ then _ else _).
    assert (NoDup acc' /\ forall r, r ∈ acc' <-> r ∈ acc \/ r <> "" /\ r = route) as [Hnd' Hacc'].
    { subst acc'. unfold str_is_empty. case_bool_decide as He; simpl; [split; [done|]; naive_solver|].
      case_bool_decide as Hin; simpl; [split; [done|]; naive_solver|].
      split; [apply NoDup_app; split; [done|]; split; [by intros x ? ->%list_elem_of_singleton|apply NoDup_singleton]|].
      intros r. rewrite elem_of_app, list_elem_of_singleton. naive_solver. }
    specialize (IH acc' Hnd'). destruct (routes ps ids acc') as [out|].
    + destruct IH as (Hall & Hout & Hr). split; [|split; [done|]].
      * intros x [->|Hx]%elem_of_cons; [congruence|by apply Hall].
      * intros r. rewrite Hr, Hacc'. setoid_rewrite elem_of_cons. split.
        -- intros [[?|[? ->]]|(? & x & ? & ?)]; [by left|right|right]; split; eauto.
        -- intros [?|(? & x & [->|Hx] & ?)]; [by left; left|left; right; split; congruence|right; eauto].
    + destruct IH as (x & ? & ?). exists x. split; [by right|done].
Qed.
End Policy.

(** ** Properties *)

(** Cedar's answer decides the call and nothing softens it: any policy in
    error fails the evaluation, whatever the decision; a deny is a deny, with
    the satisfied forbids; a permit allows outright only if some satisfied
    permit carries no [@approval]; otherwise approval is required, from each
    distinct non-empty route of the satisfied permits. *)
Theorem cedar_answer_decides {CC : CedarCrate} (ps : PolicySet) (call : CallInput) (request : Request) (entities : Entities)
    (built : build_request call = Ok (request, entities)) :
  let r := is_authorized request ps entities in
  match evaluate ps call with
  | Err e => errors r <> [] /\ e = Evaluation (sorted_set (errors r))
  | Ok (Deny policies) => errors r = [] /\ allowed r = false /\ policies = sorted_set (reason r)
  | Ok (Allow policies) =>
      errors r = [] /\ allowed r = true /\ policies = sorted_set (reason r) /\
      exists id, id ∈ reason r /\ annotation ps id "approval" = None
  | Ok (RequireApproval approvers policies) =>
      errors r = [] /\ allowed r = true /\ policies = sorted_set (reason r) /\ NoDup approvers /\
      (forall id, id ∈ reason r -> annotation ps id "approval" <> None) /\
      forall route, route ∈ approvers <-> route <> "" /\ exists id, id ∈ reason r /\ annotation ps id "approval" = Some route
  end.
Proof.
  cbv zeta. unfold evaluate. rewrite built. unfold decide_response. set (r := is_authorized _ _ _).
  case_bool_decide as He; cbn [negb]; [|by split; [intros Hn; apply He; rewrite Hn|]].
  apply (proj1 (sorted_set_nil _)) in He. destruct (allowed r) eqn:Hd; cbn [negb]; [|split; [exact He|split; reflexivity]].
  pose proof (routes_spec ps (sorted_set (reason r)) [] (NoDup_nil_2)) as Hr.
  destruct (routes ps (sorted_set (reason r)) []) as [out|].
  - destruct Hr as (Hall & Hnd & Hout). setoid_rewrite sorted_set_elem in Hall. setoid_rewrite sorted_set_elem in Hout.
    split; [done|]. split; [done|]. split; [done|]. split; [exact Hnd|]. split; [exact Hall|].
    intros route. rewrite Hout. split; [by intros [?%elem_of_nil|?]|by right].
  - setoid_rewrite sorted_set_elem in Hr. done.
Qed.

(** *** Concrete instances *)

(** A stand-in for Cedar whose policy set is the list of the satisfied
    permits, each with its [@approval] annotation, if any. *)
Definition toy_cedar : CedarCrate := {|
  Expr := unit; EntityUid := unit; Entity := unit; Entities := unit; Context := unit; Request := unit;
  PolicySet := list (string * option string);
  new_string _ := tt; new_bool _ := tt; new_long _ := tt; new_decimal _ := tt; new_set _ := tt;
  new_record _ := Some tt;
  entity_uid _ _ := Some tt;
  entity_new _ _ := Some tt;
  entity_no_attrs _ := tt;
  entities_from _ := Some tt;
  context_from_pairs _ := Some tt;
  request_new _ _ _ _ := Some tt;
  is_authorized _ ps _ := mkResponse (negb (bool_decide (ps = []))) ps.*1 [];
  annotation ps id _ := (let! (_, (_, a)) := list_find (fun p => p.1 = id) ps else None in a);
  CedarPolicy := string * option string;
  policy_set_from_str _ := Some [];
  has_templates _ := false;
  set_policies ps := ps;
  set_empty := [];
  set_add ps p := if bool_decide (p.1 ∈ ps.*1) then None else Some (ps ++ [p]);
  policy_id p := p.1;
  policy_new_id p id := (id, p.2);
  policy_annotation p _ := None;
  f64_display _ := "";
  utc_hour_weekday _ := Some (0, 1)%Z;
|}.

Definition refund_call : CallInput := mkCallInput "support" "refund" "sha256:00" None None [] 1000.

Lemma cedar_answer_decides_witness :
  evaluate (CC := toy_cedar) [("big", Some "finance"); ("any", Some "ops")] refund_call
    = Ok (RequireApproval ["ops"; "finance"] ["any"; "big"]) /\
  NoDup ["ops"; "finance"].
Proof.
  split; [vm_compute; reflexivity|].
  refine (proj1 (proj2 (proj2 (proj2 (cedar_answer_decides (CC := toy_cedar)
    [("big", Some "finance"); ("any", Some "ops")] refund_call tt tt eq_refl))))).
Qed.
