(* ===== verification/Approval.v ===== *)
(** * Signed receipts

    [crates/cloakpipe-receipt/src/dsse.rs]: DSSE envelopes, and
    [approval.rs]: the approval receipt of one call. *)

From stdpp Require Import pretty.
From S2P Require Import Prelude BTree Json Crates Concrete Reference Action.

(** ** DSSE *)

Definition STATEMENT_TYPE : string := "https://in-toto.io/Statement/v1".
Definition PAYLOAD_TYPE : string := "application/vnd.in-toto+json".

Record Signature := mkSignature { keyid : string; sig : string }.
Record Envelope := mkEnvelope { payload_type : string; payload : string; signatures : list Signature }.
Record TrustedKey := mkTrustedKey { trusted_keyid : string; public_key : bytes }.

(** ["DSSEv1" SP len(type) SP type SP len(payload) SP payload], lengths in
    decimal. *)
Definition pae (ptype : string) (data : bytes) : bytes :=
  as_bytes ("DSSEv1 " +:+ pretty (length (as_bytes ptype)) +:+ " " +:+ ptype +:+ " " +:+ pretty (length data) +:+ " ")
  ++ data.

Section Dsse.
Context {JC : JsonCrates} {SC : SignatureCrates}.

(** [dsse::sign] *)
Definition dsse_sign (statement : value) (key : SigningKey) (kid : string) : Envelope :=
  let data := as_bytes (jcs statement) in
  mkEnvelope PAYLOAD_TYPE (base64_encode data)
    [mkSignature kid (base64_encode (ed25519_sign key (pae PAYLOAD_TYPE data)))].

(** [check_signature] *)
Definition check_signature (s : Signature) (message : bytes) (trusted : list TrustedKey) : bool :=
  let candidates := filter (fun k => trusted_keyid k = keyid s) trusted in
  if bool_decide (candidates = []) then false
  else
    match base64_decode (sig s) with
    | None => false
    | Some b =>
        (length b =? 64) && existsb (fun k => ed25519_verify_strict (public_key k) message b) candidates
    end.

(** [verified_keyids]: the set of keyids (here in envelope order). *)
Definition verified_keyids (e : Envelope) (data : bytes) (trusted : list TrustedKey) : list string :=
  let message := pae (payload_type e) data in
  map keyid (filter (fun s => check_signature s message trusted = true) (signatures e)).
End Dsse.

(** [parse_rfc3339]: the separator is [T] or [t]. *)
Definition parse_rfc3339 `{TimeCrate} (s : string) : option Z :=
  match as_bytes s !! 10 with
  | Some c => if decide (c = "T"%char \/ c = "t"%char) then parse_from_rfc3339 s else None
  | None => None
  end.

(** ** Approvals *)

Record Approval := mkApproval {
  a_release : string;
  a_tool : string;
  a_task_id : string;
  a_operation_id : string;
  a_approver : string;
  a_approved_at : string;
  a_not_after : string;
}.

Record ApprovalCheck := mkApprovalCheck {
  c_fingerprint : ToolCallFingerprint;
  c_release : string;
  c_tool : string;
  c_task_id : string;
  c_approvers : list TrustedKey;
  c_now : string;
}.

Definition NANOS : Z := 1000000000.
Definition CLOCK_SKEW_SECS : Z := 60.

Inductive invalid_reason :=
| BadPayloadType | BadPayload | NoSignature | NotJson | BadStatementType | BadPredicateType | BadSubject
| BadPredicate | ApproverNotSigner | OtherRelease | OtherTool | OtherTask | BadOperationId | BadTimes
| EmptyValidity | ApprovedInFuture.
Inductive ApprovalError := Invalid (why : invalid_reason) | Expired.

Definition OPERATION_ID_FORBIDDEN : list string := ["aadhaar"; "pan"; "ifsc"; "gstin"; "ssn"; "phone"; "email"].

(** [is_valid_operation_id] *)
Definition is_valid_operation_id (id : string) : bool :=
  let lowered := to_ascii_lowercase id in
  (1 <=? String.length id) && (String.length id <=? 128)
  && str_all (fun b => is_ascii_alphanumeric b || bool_decide (b ∈ ["-"; "_"; "."; ":"]%char)) id
  && negb (existsb (fun m => str_contains m lowered) OPERATION_ID_FORBIDDEN).

Definition predicate_json (a : Approval) : value :=
  VObject [("approvedAt", VString (a_approved_at a)); ("approver", VString (a_approver a));
           ("notAfter", VString (a_not_after a)); ("operationId", VString (a_operation_id a));
           ("release", VString (a_release a)); ("taskId", VString (a_task_id a)); ("tool", VString (a_tool a))].

(** [Approval::deserialize]: an object with exactly the seven members, all
    strings; a derived [Deserialize] also reads the array of the seven values
    in the order of the struct's fields. *)
Definition approval_of_object (o : btree value) : option Approval :=
  let field k := (let! x := BTree.get k o else None in as_str x) in
  if negb (forallb (fun k => bool_decide (k ∈ ["release"; "tool"; "taskId"; "operationId"; "approver"; "approvedAt";
                                               "notAfter"])) (BTree.keys o)) then None
  else
    let! r := field "release" else None in
    let! t := field "tool" else None in
    let! k := field "taskId" else None in
    let! o := field "operationId" else None in
    let! a := field "approver" else None in
    let! f := field "approvedAt" else None in
    let! n := field "notAfter" else None in
    Some (mkApproval r t k o a f n).
Definition approval_of_json (v : value) : option Approval :=
  match v with
  | VObject o => approval_of_object o
  | VArray [VString r; VString t; VString k; VString o; VString a; VString f; VString n] =>
      Some (mkApproval r t k o a f n)
  | _ => None
  end.

Section Approval.
Context {HC : HashCrates} {JC : JsonCrates} {SC : SignatureCrates} {TC : TimeCrate}.

(** [approval_statement] and [sign_approval] *)
Definition approval_statement (f : ToolCallFingerprint) (a : Approval) : value :=
  VObject [("_type", VString STATEMENT_TYPE); ("predicate", predicate_json a);
           ("predicateType", VString Namespace.APPROVAL_PREDICATE_TYPE);
           ("subject", VArray [VObject [("digest", VObject [("sha256", VString (fingerprint_hex f))]);
                                        ("name", VString ("tool-call:" +:+ a_tool a))]])].
Definition sign_approval (f : ToolCallFingerprint) (a : Approval) (key : SigningKey) (kid : string) : Envelope :=
  dsse_sign (approval_statement f a) key kid.

Definition string_member (k : string) (v : value) : option string := let! x := vget k v else None in as_str x.

Definition subject_ok (f : ToolCallFingerprint) (statement : value) : bool :=
  match (let! s := vget "subject" statement else None in as_array s) with
  | Some [entry] =>
      is_some (string_member "name" entry)
      && bool_decide ((let! d := vget "digest" entry else None in string_member "sha256" d) = Some (fingerprint_hex f))
  | _ => false
  end.

(** The checks on the approval itself, after those on the envelope. *)
Definition check_times (a : Approval) (now : string) : result ApprovalError unit :=
  match parse_rfc3339 (a_approved_at a), parse_rfc3339 (a_not_after a), parse_rfc3339 now with
  | Some approved_at, Some not_after, Some now =>
      if (not_after <=? approved_at)%Z then Err (Invalid EmptyValidity)
      else if (now + CLOCK_SKEW_SECS * NANOS <? approved_at)%Z then Err (Invalid ApprovedInFuture)
      else if (not_after <=? now)%Z then Err Expired
      else Ok tt
  | _, _, _ => Err (Invalid BadTimes)
  end.

Definition check_approval (a : Approval) (c : ApprovalCheck) (signers : list string) : result ApprovalError unit :=
  if negb (bool_decide (a_approver a ∈ signers)) then Err (Invalid ApproverNotSigner)
  else if negb (bool_decide (a_release a = c_release c)) then Err (Invalid OtherRelease)
  else if negb (bool_decide (a_tool a = c_tool c)) then Err (Invalid OtherTool)
  else if negb (bool_decide (a_task_id a = c_task_id c)) then Err (Invalid OtherTask)
  else if negb (is_valid_operation_id (a_operation_id a)) then Err (Invalid BadOperationId)
  else check_times a (c_now c).

Definition read_statement (c : ApprovalCheck) (data : bytes) : result ApprovalError Approval :=
  let? statement := ok_or (if json_no_duplicates data then json_from_slice data else None) (Invalid NotJson) in
  if negb (bool_decide (string_member "_type" statement = Some STATEMENT_TYPE)) then Err (Invalid BadStatementType)
  else if negb (bool_decide (string_member "predicateType" statement = Some Namespace.APPROVAL_PREDICATE_TYPE))
  then Err (Invalid BadPredicateType)
  else if negb (subject_ok (c_fingerprint c) statement) then Err (Invalid BadSubject)
  else ok_or (let! p := vget "predicate" statement else None in approval_of_json p) (Invalid BadPredicate).

(** [verify_approval] *)
Definition verify_approval (e : Envelope) (c : ApprovalCheck) : result ApprovalError Approval :=
  if negb (bool_decide (payload_type e = PAYLOAD_TYPE)) then Err (Invalid BadPayloadType)
  else
    let? data := ok_or (base64_decode (payload e)) (Invalid BadPayload) in
    let signers := verified_keyids e data (c_approvers c) in
    if bool_decide (signers = []) then Err (Invalid NoSignature)
    else
      let? a := read_statement c data in
      let? _ := check_approval a c signers in
      Ok a.

(** ** Specification *)

(** [kid] signed [data] in the envelope, under a trusted key of that name. *)
Definition signed_by (e : Envelope) (data : bytes) (trusted : list TrustedKey) (kid : string) : Prop :=
  exists s k b, s ∈ signatures e /\ keyid s = kid /\ k ∈ trusted /\ trusted_keyid k = kid /\
    base64_decode (sig s) = Some b /\ length b = 64 /\
    ed25519_verify_strict (public_key k) (pae (payload_type e) data) b = true.

(** The receipt is an approval [a] of exactly the call in [c]. *)
Definition states_approval (e : Envelope) (c : ApprovalCheck) (a : Approval) : Prop :=
  payload_type e = PAYLOAD_TYPE /\
  exists data statement, base64_decode (payload e) = Some data /\ json_no_duplicates data = true /\
    json_from_slice data = Some statement /\
    string_member "_type" statement = Some STATEMENT_TYPE /\
    string_member "predicateType" statement = Some Namespace.APPROVAL_PREDICATE_TYPE /\
    subject_ok (c_fingerprint c) statement = true /\
    (exists p, vget "predicate" statement = Some p /\ approval_of_json p = Some a) /\
    signed_by e data (c_approvers c) (a_approver a) /\
    a_release a = c_release c /\ a_tool a = c_tool c /\ a_task_id a = c_task_id c /\
    is_valid_operation_id (a_operation_id a) = true.

(** Its validity at [now]: [Lt] not yet, [Eq] in force, [Gt] expired. *)
Definition in_force (a : Approval) (now : string) : Prop :=
  exists f n t, parse_rfc3339 (a_approved_at a) = Some f /\ parse_rfc3339 (a_not_after a) = Some n /\
    parse_rfc3339 now = Some t /\ (f < n)%Z /\ (f <= t + CLOCK_SKEW_SECS * NANOS)%Z /\ (t < n)%Z.
Definition has_expired (a : Approval) (now : string) : Prop :=
  exists f n t, parse_rfc3339 (a_approved_at a) = Some f /\ parse_rfc3339 (a_not_after a) = Some n /\
    parse_rfc3339 now = Some t /\ (f < n)%Z /\ (f <= t + CLOCK_SKEW_SECS * NANOS)%Z /\ (n <= t)%Z.

(** ** Lemmas *)

Lemma check_signature_spec s message trusted :
  check_signature s message trusted = true <->
  exists k b, k ∈ trusted /\ trusted_keyid k = keyid s /\ base64_decode (sig s) = Some b /\ length b = 64 /\
    ed25519_verify_strict (public_key k) message b = true.
Proof.
  unfold check_signature. case_bool_decide as Hc.
  { split; [done|]. intros (k & b & Hk & Hid & _).
    assert (k ∈ filter (fun k => trusted_keyid k = keyid s) trusted) as Hin by (by apply list_elem_of_filter).
    rewrite Hc in Hin. by apply elem_of_nil in Hin. }
  destruct (base64_decode (sig s)) as [b|]; [|split; [done|by intros (k & b & _ & _ & ? & _)]].
  rewrite andb_true_iff, Nat.eqb_eq, existsb_exists. split.
  - intros (Hl & k & [Hid Hk]%list_elem_of_In%list_elem_of_filter & Hv). by exists k, b.
  - intros (k & b' & Hk & Hid & [= <-] & Hl & Hv). split; [done|]. exists k. split; [|done].
    apply list_elem_of_In, list_elem_of_filter. done.
Qed.

Lemma verified_keyids_spec e data trusted kid :
  kid ∈ verified_keyids e data trusted <-> signed_by e data trusted kid.
Proof.
  unfold verified_keyids, signed_by. rewrite list_elem_of_fmap. setoid_rewrite list_elem_of_filter.
  setoid_rewrite check_signature_spec. split.
  - intros (s & -> & (k & b & ? & ? & ? & ? & ?) & ?). by exists s, k, b.
  - intros (s & k & b & Hs & <- & Hk & Hid & Hd & Hl & Hv). exists s. split; [done|]. split; [|done]. by exists k, b.
Qed.

Lemma check_times_spec a now :
  (check_times a now = Ok tt <-> in_force a now) /\ (check_times a now = Err Expired <-> has_expired a now).
Proof.
  unfold check_times, in_force, has_expired.
  destruct (parse_rfc3339 (a_approved_at a)) as [f|]; [|split; (split; [done|by intros (? & ? & ? & ? & _)])].
  destruct (parse_rfc3339 (a_not_after a)) as [n|]; [|split; (split; [done|by intros (? & ? & ? & _ & ? & _)])].
  destruct (parse_rfc3339 now) as [t|]; [|split; (split; [done|by intros (? & ? & ? & _ & _ & ? & _)])].
  destruct (n <=? f)%Z eqn:H1; [apply Z.leb_le in H1; split; (split; [done|intros (? & ? & ? & [= <-] & [= <-] & [= <-] & ?); lia])|].
  destruct (t + CLOCK_SKEW_SECS * NANOS <? f)%Z eqn:H2;
    [apply Z.ltb_lt in H2; split; (split; [done|intros (? & ? & ? & [= <-] & [= <-] & [= <-] & ?); lia])|].
  apply Z.leb_gt in H1. apply Z.ltb_ge in H2.
  destruct (n <=? t)%Z eqn:H3; [apply Z.leb_le in H3|apply Z.leb_gt in H3].
  - split; [split; [done|intros (? & ? & ? & [= <-] & [= <-] & [= <-] & ?); lia]|].
    split; [intros _; by exists f, n, t|done].
  - split; [split; [intros _; by exists f, n, t|done]|].
    split; [done|intros (? & ? & ? & [= <-] & [= <-] & [= <-] & ?); lia].
Qed.

(** The outcome of the last stage, given the statement it reads. *)
Lemma verify_stages e c a :
  states_approval e c a ->
  verify_approval e c = (let? _ := check_times a (c_now c) in Ok a).
Proof.
  intros (Hty & data & st & Hdata & Hdup & Hst & Hst1 & Hst2 & Hsub & (p & Hp & Ha) & Hsig & Hr & Ht & Hk & Hop).
  unfold verify_approval. rewrite bool_decide_eq_true_2 by done. cbn [negb]. rewrite Hdata. unfold ok_or at 1.
  apply verified_keyids_spec in Hsig.
  rewrite bool_decide_eq_false_2 by (intros He; rewrite He in Hsig; by apply elem_of_nil in Hsig).
  unfold read_statement. rewrite Hdup, Hst. unfold ok_or at 1.
  rewrite (bool_decide_eq_true_2 _ Hst1), (bool_decide_eq_true_2 _ Hst2), Hsub, Hp, Ha. cbn [negb ok_or].
  unfold check_approval. rewrite !bool_decide_eq_true_2 by done. rewrite Hop. done.
Qed.

Lemma verify_sound e c (out : result ApprovalError Approval) :
  verify_approval e c = out -> (out = Err Expired \/ exists a, out = Ok a) ->
  exists a, states_approval e c a /\ out = (let? _ := check_times a (c_now c) in Ok a).
Proof.
  unfold verify_approval. case_bool_decide as Hty; cbn [negb]; [|intros <- [?|[a ?]]; discriminate].
  destruct (base64_decode (payload e)) as [data|] eqn:Hdata; [|intros <- [?|[a ?]]; discriminate]. cbn [ok_or].
  case_bool_decide as Hs; [intros <- [?|[a ?]]; discriminate|]. unfold read_statement.
  destruct (json_no_duplicates data) eqn:Hdup; [|intros <- [?|[a ?]]; discriminate].
  destruct (json_from_slice data) as [st|] eqn:Hst; [|intros <- [?|[a ?]]; discriminate]. cbn [ok_or].
  case_bool_decide as Hst1; cbn [negb]; [|intros <- [?|[a ?]]; discriminate].
  case_bool_decide as Hst2; cbn [negb]; [|intros <- [?|[a ?]]; discriminate].
  destruct (subject_ok _ st) eqn:Hsub; cbn [negb]; [|intros <- [?|[a ?]]; discriminate].
  destruct (vget "predicate" st) as [p|] eqn:Hp; [|intros <- [?|[a ?]]; discriminate].
  destruct (approval_of_json p) as [a|] eqn:Ha; [|intros <- [?|[a ?]]; discriminate]. cbn [ok_or].
  unfold check_approval.
  case_bool_decide as Hsig; cbn [negb]; [|intros <- [?|[b ?]]; discriminate].
  case_bool_decide as Hr; cbn [negb]; [|intros <- [?|[b ?]]; discriminate].
  case_bool_decide as Ht; cbn [negb]; [|intros <- [?|[b ?]]; discriminate].
  case_bool_decide as Hk; cbn [negb]; [|intros <- [?|[b ?]]; discriminate].
  destruct (is_valid_operation_id _) eqn:Hop; cbn [negb]; [|intros <- [?|[b ?]]; discriminate].
  intros <- _. exists a. split; [|reflexivity]. apply verified_keyids_spec in Hsig.
  split; [exact Hty|]. exists data, st. eauto 20.
Qed.
End Approval.

Section SignVerify.
Context {HC : HashCrates} {JC : JsonCrates} {JL : JsonLaws} {SC : SignatureCrates} {SL : SignatureLaws} {TC : TimeCrate}.

Lemma approval_of_predicate a : approval_of_json (predicate_json a) = Some a.
Proof. by destruct a. Qed.

Lemma subject_ok_statement f a : subject_ok f (approval_statement f a) = true.
Proof.
  unfold subject_ok, approval_statement, string_member, vget. simpl. by rewrite bool_decide_eq_true_2.
Qed.

Lemma sign_states_approval f a key kid c :
  mkTrustedKey kid (verifying_key key) ∈ c_approvers c -> a_approver a = kid -> c_fingerprint c = f ->
  a_release a = c_release c -> a_tool a = c_tool c -> a_task_id a = c_task_id c ->
  is_valid_operation_id (a_operation_id a) = true ->
  states_approval (sign_approval f a key kid) c a.
Proof.
  intros Hkey Hkid Hf Hr Ht Hk Hop. split; [done|].
  exists (as_bytes (jcs (approval_statement f a))), (approval_statement f a).
  destruct (json_reads_jcs (approval_statement f a)) as [Hread Hdup]; [reflexivity|reflexivity|].
  split; [apply base64_round_trip|]. split; [exact Hdup|]. split; [exact Hread|].
  split; [reflexivity|]. split; [reflexivity|]. split; [subst f; apply subject_ok_statement|].
  split; [exists (predicate_json a); split; [reflexivity|apply approval_of_predicate]|].
  split; [|auto]. eexists _, _, _. split; [left|]. split; [by simpl|]. split; [exact Hkey|]. split; [done|].
  split; [apply base64_round_trip|]. split; [apply ed25519_sign_length|apply ed25519_sign_verifies].
Qed.
End SignVerify.

(** ** Properties *)

(** C23: [verify_approval] accepts exactly a receipt that states an approval of
    this call, signed under the key of the approver it names by a trusted
    key of that keyid, for this release, tool and task, with a valid operation
    id, and in force now; it answers "expired" exactly for such a receipt past
    its [notAfter], and "invalid" for everything else, so invalid takes
    precedence over expired. *)
Theorem verify_approval_exactly {HC : HashCrates} {JC : JsonCrates} {SC : SignatureCrates} {TC : TimeCrate}
    (e : Envelope) (c : ApprovalCheck) :
  (forall a, verify_approval e c = Ok a <-> states_approval e c a /\ in_force a (c_now c)) /\
  (verify_approval e c = Err Expired <-> exists a, states_approval e c a /\ has_expired a (c_now c)).
Proof.
  split.
  - intros a. split.
    + intros H. pose proof (verify_sound e c _ H) as (a' & Hst & Heq); [eauto|].
      destruct (check_times a' (c_now c)) as [[]|] eqn:Ht; [|discriminate]. injection Heq as ->.
      split; [done|]. by apply check_times_spec.
    + intros [Hst Hf%check_times_spec]. rewrite (verify_stages e c a Hst), Hf. done.
  - split.
    + intros H. pose proof (verify_sound e c _ H) as (a' & Hst & Heq); [auto|].
      destruct (check_times a' (c_now c)) as [[]|] eqn:Ht; [discriminate|]. injection Heq as <-.
      exists a'. split; [done|]. by apply check_times_spec.
    + intros (a & Hst & He%check_times_spec). rewrite (verify_stages e c a Hst), He. done.
Qed.

(** What [sign_approval] makes for a call verifies for that call, as the
    same approval, while it is in force, and expires afterwards. *)
Theorem sign_then_verify {HC : HashCrates} {JC : JsonCrates} {JL : JsonLaws} {SC : SignatureCrates} {SL : SignatureLaws}
    {TC : TimeCrate} (a : Approval) (key : SigningKey) (c : ApprovalCheck)
    (trusted : mkTrustedKey (a_approver a) (verifying_key key) ∈ c_approvers c)
    (about : a_release a = c_release c /\ a_tool a = c_tool c /\ a_task_id a = c_task_id c)
    (valid_id : is_valid_operation_id (a_operation_id a) = true) :
  let e := sign_approval (c_fingerprint c) a key (a_approver a) in
  (in_force a (c_now c) -> verify_approval e c = Ok a) /\
  (has_expired a (c_now c) -> verify_approval e c = Err Expired).
Proof.
  destruct about as (Hr & Ht & Hk). cbv zeta.
  rewrite (verify_stages _ c a) by (apply sign_states_approval; auto).
  split; intros H%check_times_spec; by rewrite H.
Qed.

(** *** Concrete instances *)

Section Witnesses.
Import Toy.

Definition alice_key : SigningKey (SignatureCrates := toy_signatures) := repeat "a"%char 32.
Definition refund_approval : Approval :=
  mkApproval (hash_to_string zero_release) "refund" "task-7" "op-1" "alice" "1000000000T00" "9000000000T00".
Definition refund_check : ApprovalCheck :=
  mkApprovalCheck (fingerprint zero_release "refund" VNull) (hash_to_string zero_release) "refund" "task-7"
    [mkTrustedKey "alice" (verifying_key alice_key)] "5000000000T00".

(** Times as [<decimal nanoseconds>T..]. *)
#[local] Instance t_time : TimeCrate :=
  {| parse_from_rfc3339 s := let! (d, _) := split_once "T"%char s else None in decimal_text d |}.

Lemma sign_then_verify_witness :
  verify_approval (sign_approval (c_fingerprint refund_check) refund_approval alice_key "alice") refund_check
    = Ok refund_approval.
Proof.
  apply (sign_then_verify refund_approval alice_key refund_check).
  - left.
  - repeat split.
  - reflexivity.
  - exists 1000000000%Z, 9000000000%Z, 5000000000%Z.
    repeat split; vm_compute; try reflexivity; discriminate.
Qed.
End Witnesses.
