(* ===== verification/Gate.v ===== *)
(** * The runtime tool gate

    [crates/cloakpipe-mcp/src/gate.rs] (default features, so without the
    legacy [certification] stage), with [is_denied] and [denial_in_force] of
    [broker.rs].  The approvals directory is the files it holds when a call is
    checked; the broker is what it remembers as denied; the counter store is
    its rows and whether it answers; the lock around each is a sequence of
    steps. *)

From S2P Require Import Prelude BTree Json Crates Concrete Reference Action Constraint Rules Contract Manifest.
From S2P Require Import Operations Counters Policy Approval.

Module Gate.

Inductive GateMode := Enforce | Shadow.

Inductive Denial :=
| UndeclaredTool
| ArgumentMissing (p : option string)
| UndeclaredArgument (p : option string)
| ArgumentInvalid (p : option string)
| ScopeMismatch (p : option string)
| TaskContextMissing (p : option string)
| ApprovalRequired
| ApprovalInvalid
| ApprovalExpired
| ApprovalDenied
| ContractMissing
| OperationConflict (operation_id : string)
| ReconcileBeforeRetry (operation_id : string)
| OperationsUnavailable
| RequestIdMissing
| RequestIdInUse
| PolicyDenied (policies : list string)
| FailClosed
| ToolDrift (server : string)
| ToolUnavailable.

(** [Denial::code] *)
Definition code (d : Denial) : string :=
  match d with
  | UndeclaredTool => "undeclared_tool"
  | ArgumentMissing _ => violation_code_str Constraint.ArgumentMissing
  | UndeclaredArgument _ => violation_code_str Constraint.UndeclaredArgument
  | ArgumentInvalid _ => violation_code_str Constraint.ArgumentInvalid
  | ScopeMismatch _ => violation_code_str Constraint.ScopeMismatch
  | TaskContextMissing _ => violation_code_str Constraint.TaskContextMissing
  | ApprovalRequired => "approval_required"
  | ApprovalInvalid => "approval_invalid"
  | ApprovalExpired => "approval_expired"
  | ApprovalDenied => "approval_denied"
  | ContractMissing => "contract_missing"
  | OperationConflict _ => "operation_conflict"
  | ReconcileBeforeRetry _ => "reconcile_before_retry"
  | OperationsUnavailable => "operations_unavailable"
  | RequestIdMissing => "request_id_missing"
  | RequestIdInUse => "request_id_in_use"
  | PolicyDenied _ => "policy_denied"
  | FailClosed => "fail_closed"
  | ToolDrift _ => "tool_drift"
  | ToolUnavailable => "tool_unavailable"
  end.

(** [Denial::server], [is_upstream], [operation_id], [policies], [path] *)
Definition server (d : Denial) : option string := match d with ToolDrift s => Some s | _ => None end.
Definition is_upstream (d : Denial) : bool := match d with ToolDrift _ | ToolUnavailable => true | _ => false end.
Definition denial_operation_id (d : Denial) : option string :=
  match d with OperationConflict id | ReconcileBeforeRetry id => Some id | _ => None end.
Definition denial_policies (d : Denial) : option (list string) :=
  match d with PolicyDenied ps => Some ps | _ => None end.
Definition denial_path (d : Denial) : option string :=
  match d with
  | ArgumentMissing p | UndeclaredArgument p | ArgumentInvalid p | ScopeMismatch p | TaskContextMissing p => p
  | _ => None
  end.

(** [impl From<contract::Violation> for Denial] *)
Definition of_violation (v : Violation) : Denial :=
  match Constraint.code v with
  | Constraint.ArgumentMissing => ArgumentMissing (path v)
  | Constraint.UndeclaredArgument => UndeclaredArgument (path v)
  | Constraint.ArgumentInvalid => ArgumentInvalid (path v)
  | Constraint.ScopeMismatch => ScopeMismatch (path v)
  | Constraint.TaskContextMissing => TaskContextMissing (path v)
  end.

Inductive GateConfigError :=
| NotInRelease (policy_ref : string)
| NotSupplied (policy_ref : string)
| AmbiguousTool (tool : string)
| OperationsRequired (tool : string)
| OperationsStore (e : operations_error)
| TaskContextNotObject
| BadPolicy
| PolicyNotLoaded.

Inductive file := Absent | Unreadable | Contents (b : bytes).

Inductive PolicyVerdict := VAllow | VRequireApproval (routes : list string).

Section Gate.
Context {RC : RegexCrate} {HC : HashCrates} {JC : JsonCrates} {UC : UnicodeCrate} {SC : SignatureCrates}
        {TC : TimeCrate} {CC : CedarCrate}.
(** [serde_json::from_slice::<Envelope>]. *)
Variable read_envelope : bytes -> option Envelope.

Record ApprovedCall := mkApprovedCall {
  receipt_digest : bytes;
  approved_operation : string;
  approved_fingerprint : ToolCallFingerprint;
}.
Record OperationKey := mkOperationKey { key_operation : string; key_fingerprint : ToolCallFingerprint }.
Record Authorization := mkAuthorization { auth_approval : option ApprovedCall; auth_operation : option OperationKey }.
Record ApprovalRequest := mkApprovalRequest { req_approvers : list string; req_fingerprint : string }.

Record Approvals := mkApprovals { dir : string -> file; trusted : list TrustedKey }.
Record PolicyState := mkPolicyState { engine : PolicySet; counters : Counters; store_answers : bool }.

Record ToolGate := mkToolGate {
  mode : GateMode;
  release : string;
  release_name : string;
  version : string;
  policy_digest : option string;
  policy_source : option (string * bytes);
  policy : option PolicyState;
  tools : list string;
  contract_refs : list string;
  contracts_loaded : bool;
  rules : btree ToolRule;
  task : option value;
  approvals : option Approvals;
  broker : option (gmap string Z);
  operations : option db;
  recovered : list string;
  operation_id_key : option bytes;
}.

(** [ToolGate::new] *)
Definition new (m : GateMode) (manifest : Release.AgentRelease) : ToolGate :=
  let s := Release.spec manifest in
  let refs := sorted_set (filter (fun r => is_tool_contract_ref r = true) (Release.policies s)) in
  {| mode := m; release := hash_to_string (Release.manifest_hash manifest); release_name := Release.agent manifest;
     version := Release.version manifest; policy_digest := None; policy_source := None; policy := None;
     tools := sorted_set (omap (fun t => Reference.name <$> res_ok (Reference.parse t)) (Release.spec_tools s));
     contract_refs := refs; contracts_loaded := bool_decide (refs = []); rules := []; task := None;
     approvals := None; broker := None; operations := None; recovered := []; operation_id_key := None |}.

(** [ToolGate::from_manifest] *)
Definition from_manifest (m : GateMode) (manifest : V1.Manifest) : ToolGate :=
  {| mode := m; release := hash_to_string (V1.manifest_digest manifest); release_name := V1.release manifest;
     version := V1.version manifest;
     policy_digest := (fun p => hash_to_string (V1.policy_file_digest p)) <$> V1.policy manifest;
     policy_source := (fun p => (V1.declared p, V1.source p)) <$> V1.policy manifest; policy := None;
     tools := BTree.keys (V1.tools manifest); contract_refs := []; contracts_loaded := true;
     rules := V1.tools manifest; task := None; approvals := None; broker := None; operations := None;
     recovered := []; operation_id_key := None |}.

Definition set_task (t : option value) (g : ToolGate) : ToolGate :=
  mkToolGate (mode g) (release g) (release_name g) (version g) (policy_digest g) (policy_source g) (policy g)
    (tools g) (contract_refs g) (contracts_loaded g) (rules g) t (approvals g) (broker g) (operations g)
    (recovered g) (operation_id_key g).
Definition set_policy (p : option PolicyState) (g : ToolGate) : ToolGate :=
  mkToolGate (mode g) (release g) (release_name g) (version g) (policy_digest g) (policy_source g) p
    (tools g) (contract_refs g) (contracts_loaded g) (rules g) (task g) (approvals g) (broker g) (operations g)
    (recovered g) (operation_id_key g).

Definition task_not_object (t : option value) : bool := is_some_and t (fun v => negb (is_object v)).

(** [ToolGate::with_task_context] *)
Definition with_task_context (t : option value) (g : ToolGate) : result GateConfigError ToolGate :=
  if task_not_object t then Err TaskContextNotObject else Ok (set_task t g).

(** [ToolGate::with_policy] *)
Definition with_policy (c : Counters) (answers : bool) (g : ToolGate) : result GateConfigError ToolGate :=
  match policy_source g with
  | None => Ok g
  | Some (_, src) =>
      if negb (valid_utf8 src) then Err BadPolicy
      else
        let? e := map_err (fun _ => BadPolicy) (parse_policies src) in
        Ok (set_policy (Some (mkPolicyState e c answers)) g)
  end.

(** The tool table of [with_contracts]: one rule per tool. *)
Fixpoint add_rules (new : btree ToolRule) (by_tool : btree ToolRule) : result GateConfigError (btree ToolRule) :=
  match new with
  | [] => Ok by_tool
  | (tool, r) :: new =>
      if BTree.contains_key tool by_tool then Err (AmbiguousTool tool) else add_rules new (BTree.insert tool r by_tool)
  end.
Fixpoint add_contracts (refs : list string) (cs : list ToolContract) (supplied : list string) (by_tool : btree ToolRule)
    : result GateConfigError (list string * btree ToolRule) :=
  match cs with
  | [] => Ok (supplied, by_tool)
  | c :: cs =>
      let r := policy_ref c in
      if negb (bool_decide (r ∈ refs)) then Err (NotInRelease r)
      else
        let? by_tool := add_rules (Contract.tools c) by_tool in
        add_contracts refs cs (r :: supplied) by_tool
  end.

(** [ToolGate::with_contracts] *)
Definition with_contracts (cs : list ToolContract) (t : option value) (g : ToolGate) : result GateConfigError ToolGate :=
  if task_not_object t then Err TaskContextNotObject
  else
    let? (supplied, by_tool) := add_contracts (contract_refs g) cs [] [] in
    match filter (fun r => r ∉ supplied) (contract_refs g) with
    | missing :: _ => Err (NotSupplied missing)
    | [] =>
        Ok (mkToolGate (mode g) (release g) (release_name g) (version g) (policy_digest g) (policy_source g) (policy g)
              (tools g) (contract_refs g) true by_tool t (approvals g) (broker g) (operations g)
              (recovered g) (operation_id_key g))
    end.

(** [ToolGate::with_operations]; [key] is the store's stored key. *)
Definition with_operations (now : string) (h : nat) (d : db) (key : bytes) (g : ToolGate)
    : result GateConfigError ToolGate :=
  let? (ids, d) := map_err OperationsStore (recover now h d) in
  Ok (mkToolGate (mode g) (release g) (release_name g) (version g) (policy_digest g) (policy_source g) (policy g)
        (tools g) (contract_refs g) (contracts_loaded g) (rules g) (task g) (approvals g) (broker g) (Some d)
        ids (Some key)).

(** [ToolGate::ready] *)
Definition ready (g : ToolGate) : result GateConfigError unit :=
  let? _ :=
    match operations g with
    | Some _ => Ok tt
    | None =>
        match List.find (fun tr => side_effect tr.2) (rules g) with
        | Some (tool, _) => Err (OperationsRequired tool)
        | None => Ok tt
        end
    end in
  if is_some (policy_source g) && is_none (policy g) then Err PolicyNotLoaded else Ok tt.

(** [unix] and [within_ttl] *)
Definition timestamp (t : Z) : Z := t / NANOS.
Definition unix (now : string) : result Denial Z := ok_or (timestamp <$> parse_rfc3339 now) FailClosed.

Definition within_ttl (r : ToolRule) (approved_at not_after : string) : bool :=
  match (let! a := approval r else None in ttl_secs a) with
  | None => true
  | Some ttl =>
      match parse_rfc3339 approved_at, parse_rfc3339 not_after with
      | Some from, Some to => (Z.quot (to - from) NANOS <=? Z.min ttl I64_MAX)%Z
      | _, _ => false
      end
  end.

(** [ToolGate::evaluate_policy] *)
Definition policy_input (g : ToolGate) (tool : string) (args : option value) (cs : btree Window) (rel : ReleaseHash)
    (now_unix : Z) : CallInput :=
  mkCallInput (release_name g) tool (fingerprint_to_string (fingerprint rel tool (default VNull args))) args (task g)
    cs now_unix.
Definition evaluate_policy (g : ToolGate) (tool : string) (args : option value) (now : string)
    : result Denial PolicyVerdict :=
  match policy g with
  | None => if is_some (policy_source g) then Err FailClosed else Ok VAllow
  | Some p =>
      let? now_unix := unix now in
      let? rel := ok_or (hash_parse (release g)) FailClosed in
      if negb (store_answers p) then Err FailClosed
      else
        let cs := snapshot (release_name g) (tools g) now_unix (counters p) in
        match evaluate (engine p) (policy_input g tool args cs rel now_unix) with
        | Ok (Allow _) => Ok VAllow
        | Ok (RequireApproval approvers _) => Ok (VRequireApproval approvers)
        | Ok (Deny policies) => Err (PolicyDenied policies)
        | Err _ => Err FailClosed
        end
  end.

(** [ToolGate::record_forwarded] and [forget_forwarded] *)
Definition record_forwarded (tool now : string) (g : ToolGate) : result Denial (option Z * ToolGate) :=
  match policy g with
  | None => if is_some (policy_source g) then Err FailClosed else Ok (None, g)
  | Some p =>
      let? now_unix := unix now in
      if negb (store_answers p) then Err FailClosed
      else
        let '(id, c) := record (release_name g) tool now_unix (counters p) in
        Ok (Some id, set_policy (Some (mkPolicyState (engine p) c true)) g)
  end.
Definition forget_forwarded (id : Z) (g : ToolGate) : ToolGate :=
  match policy g with
  | Some p =>
      if store_answers p then set_policy (Some (mkPolicyState (engine p) (forget id (counters p)) true)) g else g
  | None => g
  end.

(** [ToolGate::approval_needed] *)
Definition approval_needed (r : ToolRule) (args : option value) (v : PolicyVerdict) : option (list string) :=
  let manifest := needs_approval r args in
  let routes := if manifest then default [] (approvers <$> approval r) else [] in
  match v with
  | VRequireApproval cedar =>
      Some (fold_left (fun rs x => if bool_decide (x ∈ rs) then rs else rs ++ [x]) cedar routes)
  | VAllow => if manifest then Some routes else None
  end.

Definition task_id (g : ToolGate) : option string :=
  let! t := task g else None in let! v := vget "taskId" t else None in as_str v.

(** [denial_in_force] of [broker.rs], and the broker's own memory. *)
Definition is_hex64 (s : string) : bool := (String.length s =? 64) && str_all is_hex_char s.
Definition denial_in_force (files : string -> file) (hex : string) (now : Z) : bool :=
  if negb (is_hex64 hex) then false
  else
    match files (hex +:+ ".denied.json") with
    | Contents b =>
        match json_from_slice b with
        | Some marker =>
            bool_decide (string_member "fingerprint" marker = Some ("sha256:" +:+ hex))
            && is_some_and (vget "status" marker) (fun s => value_eqb s (VString "denied"))
            && is_some_and (let! s := string_member "notAfter" marker else None in parse_rfc3339 s)
                 (fun t => (now <? timestamp t)%Z)
        | None => false
        end
    | _ => false
    end.
Definition is_denied (b : gmap string Z) (hex : string) (now : Z) : bool :=
  is_some_and (b !! hex) (fun until => (now <? until)%Z).

(** [ToolGate::approve] *)
Definition denied_now (g : ToolGate) (a : Approvals) (hex now : string) : bool :=
  is_some_and (timestamp <$> parse_rfc3339 now) (fun t =>
    is_some_and (broker g) (fun b => is_denied b hex t) || denial_in_force (dir a) hex t).
Definition approve (g : ToolGate) (r : ToolRule) (tool : string) (args : value) (now : string)
    : result Denial ApprovedCall :=
  let? a := ok_or (approvals g) ApprovalRequired in
  let? rel := ok_or (hash_parse (release g)) ApprovalInvalid in
  let fp := fingerprint rel tool args in
  if denied_now g a (fingerprint_hex fp) now then Err ApprovalDenied
  else
    let? b :=
      match dir a (fingerprint_hex fp +:+ ".approval.json") with
      | Contents b => Ok b
      | Absent => Err ApprovalRequired
      | Unreadable => Err ApprovalInvalid
      end in
    let? tid := ok_or (task_id g) (TaskContextMissing None) in
    let? e := ok_or (read_envelope b) ApprovalInvalid in
    match verify_approval e (mkApprovalCheck fp (release g) tool tid (trusted a) now) with
    | Ok ap =>
        if negb (within_ttl r (a_approved_at ap) (a_not_after ap)) then Err ApprovalInvalid
        else Ok (mkApprovedCall (sha256 b) (a_operation_id ap) fp)
    | Err Expired => Err ApprovalExpired
    | Err (Invalid _) => Err ApprovalInvalid
    end.

(** [ToolGate::operation_key] *)
Definition operation_key (g : ToolGate) (r : ToolRule) (tool : string) (raw : option value) (a : option ApprovedCall)
    : result Denial OperationKey :=
  match a with
  | Some a => Ok (mkOperationKey (approved_operation a) (approved_fingerprint a))
  | None =>
      let? rel := ok_or (hash_parse (release g)) OperationsUnavailable in
      let fp := fingerprint rel tool (default VNull raw) in
      match idempotency_key r with
      | Some template =>
          let? rendered := map_err of_violation (render template raw (task g)) in
          let? key := ok_or (operation_id_key g) OperationsUnavailable in
          Ok (mkOperationKey (derive_idempotent_operation_id key (release_name g) tool rendered) fp)
      | None =>
          let? tid := ok_or (task_id g) (TaskContextMissing None) in
          let? key := ok_or (operation_id_key g) OperationsUnavailable in
          Ok (mkOperationKey (derive_operation_id key tid fp) fp)
      end
  end.

(** [ToolGate::authorize] and [check] *)
Definition authorize (g : ToolGate) (tool : string) (args : option value) (now : string) : result Denial Authorization :=
  if negb (bool_decide (tool ∈ tools g)) then Err UndeclaredTool
  else if negb (contracts_loaded g) then Err ContractMissing
  else
    match BTree.get tool (rules g) with
    | None => Ok (mkAuthorization None None)
    | Some r =>
        let? _ := map_err of_violation (rule_check r args (task g)) in
        let? verdict := evaluate_policy g tool args now in
        let? ap :=
          if is_some (approval_needed r args verdict)
          then let? a := approve g r tool (default VNull args) now in Ok (Some a) else Ok None in
        let? op :=
          if side_effect r then let? k := operation_key g r tool args ap in Ok (Some k) else Ok None in
        Ok (mkAuthorization ap op)
    end.
Definition check (g : ToolGate) (tool : string) (args : option value) (now : string) : result Denial unit :=
  let? _ := authorize g tool args now in Ok tt.

(** [ToolGate::operation] *)
Definition operation (g : ToolGate) (tool : string) (args : option value) (now : string)
    : result Denial (option OperationKey) :=
  match BTree.get tool (rules g) with
  | None => Ok None
  | Some r =>
      if negb (side_effect r) then Ok None
      else
        let verdict := match evaluate_policy g tool args now with Ok v => v | Err _ => VAllow end in
        let ap :=
          if is_some (approval_needed r args verdict)
          then res_ok (approve g r tool (default VNull args) now) else None in
        let? k := operation_key g r tool args ap in Ok (Some k)
  end.

(** [ToolGate::approval_request] at time [now], and [approval_ttls] *)
Definition approval_request (g : ToolGate) (tool : string) (args : option value) (now : string) : option ApprovalRequest :=
  let! r := (if bool_decide (tool ∈ tools g) then BTree.get tool (rules g) else None) else None in
  let! v := res_ok (evaluate_policy g tool args now) else None in
  let! routes := approval_needed r args v else None in
  let! rel := hash_parse (release g) else None in
  Some (mkApprovalRequest routes (fingerprint_to_string (fingerprint rel tool (default VNull args)))).
Definition approval_ttls (g : ToolGate) : list (string * option Z) :=
  map (fun tr => (tr.1, let! a := approval tr.2 else None in ttl_secs a))
    (filter (fun tr => tr.1 ∈ tools g) (rules g)).

(** ** Specification: on what grounds a call is allowed *)

(** A receipt on disk approves this exact call, now, within the tool's
    ttl, and nobody denied it. *)
Definition approved (g : ToolGate) (r : ToolRule) (tool : string) (args : value) (now : string) (a : ApprovedCall) : Prop :=
  exists ap rel tid b e receipt,
    approvals g = Some ap /\ hash_parse (release g) = Some rel /\ task_id g = Some tid /\
    let fp := fingerprint rel tool args in
    denied_now g ap (fingerprint_hex fp) now = false /\
    dir ap (fingerprint_hex fp +:+ ".approval.json") = Contents b /\ read_envelope b = Some e /\
    states_approval e (mkApprovalCheck fp (release g) tool tid (trusted ap) now) receipt /\ in_force receipt now /\
    within_ttl r (a_approved_at receipt) (a_not_after receipt) = true /\
    a = mkApprovedCall (sha256 b) (a_operation_id receipt) fp.

(** ** Lemmas *)

Lemma approve_ok g r tool args now a : approve g r tool args now = Ok a <-> approved g r tool args now a.
Proof.
  unfold approve, approved. split.
  - destruct (approvals g) as [ap|]; [|discriminate]. cbn [ok_or].
    destruct (hash_parse (release g)) as [rel|]; [|discriminate]. cbn [ok_or].
    destruct (denied_now _ _ _ _) eqn:Hden; [discriminate|].
    destruct (dir ap _) as [| |b] eqn:Hdir; [discriminate|discriminate|].
    destruct (task_id g) as [tid|]; [|discriminate]. cbn [ok_or].
    destruct (read_envelope b) as [e|] eqn:He; [|discriminate]. cbn [ok_or].
    destruct (verify_approval e _) as [receipt|[]] eqn:Hv; [|discriminate|discriminate].
    destruct (within_ttl _ _ _) eqn:Httl; [|discriminate]. intros [= <-].
    pose proof (verify_sound _ _ _ Hv ltac:(eauto)) as (a' & Hst & Heq).
    destruct (check_times a' _) as [[]|] eqn:Ht; [|discriminate]. injection Heq as <-.
    apply check_times_spec in Ht. exists ap, rel, tid, b, e, receipt. by repeat (split; [done|]).
  - intros (ap & rel & tid & b & e & receipt & Hap & Hrel & Htid & Hden & Hdir & He & Hst & Hf & Httl & ->).
    rewrite Hap. cbn [ok_or]. rewrite Hrel. cbn [ok_or]. rewrite Hden, Hdir, Htid. cbn [ok_or].
    rewrite He. cbn [ok_or]. apply check_times_spec in Hf.
    rewrite (verify_stages _ _ _ Hst). cbn [c_now]. rewrite Hf, Httl. done.
Qed.

Lemma approval_needed_spec r args v :
  is_some (approval_needed r args v) = needs_approval r args || match v with VRequireApproval _ => true | VAllow => false end.
Proof. unfold approval_needed. by destruct v, (needs_approval r args). Qed.

(** What [authorize] may answer [auth] on. *)
Definition grounds (g : ToolGate) (tool : string) (args : option value) (now : string) (auth : Authorization) : Prop :=
  tool ∈ tools g /\ contracts_loaded g = true /\
  match BTree.get tool (rules g) with
  | None => auth = mkAuthorization None None
  | Some r =>
      (exists o, call_arguments args = Some o /\
         (forall k, k ∈ BTree.keys o -> k ∈ BTree.keys (arguments r)) /\
         (forall k, k ∈ rule_required r -> k ∈ BTree.keys o) /\
         (forall k c v, (k, c) ∈ arguments r -> BTree.get k o = Some v -> conforms (task g) c v)) /\
      exists verdict, evaluate_policy g tool args now = Ok verdict /\
      (if needs_approval r args || match verdict with VRequireApproval _ => true | VAllow => false end
       then exists a, auth_approval auth = Some a /\ approved g r tool (default VNull args) now a
       else auth_approval auth = None) /\
      if side_effect r
      then exists k, auth_operation auth = Some k /\ operation_key g r tool args (auth_approval auth) = Ok k
      else auth_operation auth = None
  end.

(** The last stage, for whatever approval [a] was found. *)
Lemma operation_part g r tool args ap a op :
  (let? o := if side_effect r then let? k := operation_key g r tool args a in Ok (Some k) else Ok None in
   Ok (mkAuthorization a o)) = (Ok (mkAuthorization ap op) : result Denial Authorization) <->
  ap = a /\ if side_effect r then exists k, op = Some k /\ operation_key g r tool args ap = Ok k else op = None.
Proof.
  destruct (side_effect r).
  - destruct (operation_key g r tool args a) as [k|] eqn:Hk; split.
    + intros [= <- <-]. eauto.
    + intros [-> (k' & -> & Hk')]. congruence.
    + discriminate.
    + intros [-> (k' & -> & Hk')]. congruence.
  - split; [by intros [= <- <-]|by intros [-> ->]].
Qed.

Lemma authorize_grounds g tool args now auth : authorize g tool args now = Ok auth <-> grounds g tool args now auth.
Proof.
  unfold authorize, grounds. case_bool_decide as Htool; cbn [negb]; [|split; [discriminate|by intros [? _]]].
  destruct (contracts_loaded g); cbn [negb]; [|split; [discriminate|by intros (_ & ? & _)]].
  destruct (BTree.get tool (rules g)) as [r|]; [|split; [by intros [= <-]|by intros (_ & _ & ->)]].
  rewrite <- rule_check_spec.
  destruct (rule_check r args (task g)) as [[]|]; cbn [map_err];
    [|split; [discriminate|intros (_ & _ & ? & _); discriminate]].
  destruct (evaluate_policy g tool args now) as [v|];
    [|split; [discriminate|intros (_ & _ & _ & ? & ? & _); discriminate]].
  rewrite approval_needed_spec.
  transitivity ((if needs_approval r args || match v with VRequireApproval _ => true | VAllow => false end
       then exists a, auth_approval auth = Some a /\ approved g r tool (default VNull args) now a
       else auth_approval auth = None) /\
      if side_effect r
      then exists k, auth_operation auth = Some k /\ operation_key g r tool args (auth_approval auth) = Ok k
      else auth_operation auth = None);
    [|split; [intros H; split; [done|]; split; [done|]; split; [done|]; by exists v|]; by intros (_ & _ & _ & ? & [= <-] & ?)].
  assert (forall b : bool,
    (if b then exists a, auth_approval auth = Some a /\ approved g r tool (default VNull args) now a
     else auth_approval auth = None) <->
    (if b then exists a, auth_approval auth = Some a /\ approve g r tool (default VNull args) now = Ok a
     else auth_approval auth = None)) as ->
    by (intros []; [split; intros (a & ? & ?%approve_ok); eauto|done]).
  destruct auth as [ap op]. cbn [auth_approval auth_operation].
  destruct (needs_approval r args || _); [|apply operation_part].
  destruct (approve g r tool _ now) as [a|]; [|split; [discriminate|intros [(? & _ & ?) _]; discriminate]].
  transitivity (ap = Some a /\ if side_effect r
                then exists k, op = Some k /\ operation_key g r tool args ap = Ok k else op = None);
    [apply operation_part|].
  split; intros [H1 H2]; (split; [|exact H2]); [by exists a|]. destruct H1 as (? & -> & H1). congruence.
Qed.

(** The tables [with_contracts] builds. *)
Lemma add_rules_ok new by_tool out :
  BTree.wf by_tool -> add_rules new by_tool = Ok out ->
  BTree.wf out /\ NoDup (BTree.keys new) /\ (forall t, t ∈ BTree.keys new -> t ∉ BTree.keys by_tool) /\
  forall t r, BTree.get t out = Some r <-> (t, r) ∈ new \/ BTree.get t by_tool = Some r.
Proof.
  revert by_tool. induction new as [|[t r] new IH]; intros by_tool Hwf; simpl.
  - intros [= <-]. split; [done|]. split; [constructor|]. split; [by intros t ?%elem_of_nil|].
    intros t r. split; [by right|]. by intros [?%elem_of_nil|?].
  - destruct (BTree.contains_key t by_tool) eqn:Hc; [discriminate|].
    assert (t ∉ BTree.keys by_tool) as Hnot by (intros H%BTree.contains_key_elem; congruence).
    intros H. apply IH in H as (Hout & Hnd & Hfresh & Hget); [|by apply BTree.wf_insert].
    setoid_rewrite BTree.keys_insert in Hfresh. split; [done|]. split.
    { apply NoDup_cons. split; [|done]. intros Hin. apply (Hfresh t Hin). by left. }
    split.
    { intros t' [->|Hin]%elem_of_cons; [done|]. intros Hk. apply (Hfresh t' Hin). by right. }
    intros t' r'. rewrite Hget, BTree.get_insert by done. rewrite elem_of_cons. case_decide as Ht.
    + subst t'. split.
      * intros [Hin|[= <-]]; [by left; right|by left; left].
      * intros [[[= <-]|Hin]|Hg]; [by right|by left|]. exfalso. apply Hnot.
        destruct (BTree.get t by_tool) eqn:Hg'; [|done]. apply BTree.get_Some_elem in Hg'.
        by apply list_elem_of_fmap_2 with (f := fst) in Hg'.
    + split; [intros [?|?]; auto|]. intros [[[= -> ->]|?]|?]; auto; done.
Qed.

Lemma add_contracts_ok refs cs supplied by_tool out :
  BTree.wf by_tool -> add_contracts refs cs supplied by_tool = Ok out ->
  BTree.wf out.2 /\ (forall x, x ∈ out.1 <-> x ∈ supplied \/ exists c, c ∈ cs /\ policy_ref c = x) /\
  (forall c, c ∈ cs -> policy_ref c ∈ refs) /\ NoDup (cs ≫= fun c => BTree.keys (Contract.tools c)) /\
  (forall t, t ∈ (cs ≫= fun c => BTree.keys (Contract.tools c)) -> t ∉ BTree.keys by_tool) /\
  forall t r, BTree.get t out.2 = Some r <->
    (exists c, c ∈ cs /\ (t, r) ∈ Contract.tools c) \/ BTree.get t by_tool = Some r.
Proof.
  revert supplied by_tool. induction cs as [|c cs IH]; intros supplied by_tool Hwf.
  - intros [= <-]. cbn [fst snd]. split; [done|]. split.
    { intros x. split; [by left|]. by intros [?|(? & ?%elem_of_nil & _)]. }
    split; [by intros c ?%elem_of_nil|]. split; [constructor|]. split; [by intros t ?%elem_of_nil|].
    intros t r. split; [by right|]. by intros [(? & ?%elem_of_nil & _)|?].
  - cbn [add_contracts]. case_bool_decide as Hin; cbn [negb]; [|discriminate].
    destruct (add_rules _ by_tool) as [by_tool'|] eqn:Hadd; [|discriminate].
    apply add_rules_ok in Hadd as (Hwf' & Hnd & Hfresh & Hget); [|done].
    intros (Hwf2 & Hsup & Hrefs & Hnd2 & Hfresh2 & Hget2)%IH; [|done]. rewrite bind_cons.
    assert (forall t, t ∈ BTree.keys by_tool' <-> t ∈ BTree.keys (Contract.tools c) \/ t ∈ BTree.keys by_tool) as Hkeys.
    { intros t. rewrite <- !BTree.contains_key_elem. unfold BTree.contains_key at 1 3.
      split.
      - intros (r & Hr & _)%is_some_and_true. apply Hget in Hr as [Hr|Hr].
        + left. apply BTree.contains_key_elem. by apply list_elem_of_fmap_2 with (f := fst) in Hr.
        + right. apply is_some_and_true. by exists r.
      - intros [Ht|(r & Hr & _)%is_some_and_true]; apply is_some_and_true.
        + apply BTree.contains_key_elem in Ht. apply list_elem_of_fmap in Ht as ([t' r] & -> & Hr).
          exists r. split; [|done]. apply Hget. by left.
        + exists r. split; [|done]. apply Hget. by right. }
    split; [done|]. split.
    { intros x. rewrite Hsup. setoid_rewrite elem_of_cons. split.
      - intros [[->|?]|(c' & ? & ?)]; [right; by exists c; auto|by left|right; exists c'; auto].
      - intros [?|(c' & [->|?] & <-)]; [by left; right|by left; left|right; by exists c']. }
    split; [by intros c' [->|?]%elem_of_cons; [|apply Hrefs]|]. split.
    { apply NoDup_app. split; [done|]. split; [|done]. intros t Ht Ht2. apply (Hfresh2 t Ht2), Hkeys. by left. }
    split.
    { intros t [Ht|Ht]%elem_of_app; [by apply Hfresh|]. intros Hk. apply (Hfresh2 t Ht), Hkeys. by right. }
    intros t r. rewrite Hget2, Hget. setoid_rewrite elem_of_cons. split.
    + intros [(c' & ? & ?)|[?|?]]; [left; exists c'; auto|left; exists c; auto|by right].
    + intros [(c' & [->|?] & ?)|?]; [by right; left|left; by exists c'|by right; right].
Qed.
End Gate.
End Gate.

(** ** Properties *)

Section GateProperties.
Context {RC : RegexCrate} {HC : HashCrates} {JC : JsonCrates} {UC : UnicodeCrate} {SC : SignatureCrates}
        {TC : TimeCrate} {CC : CedarCrate}.
Variable read_envelope : bytes -> option Envelope.
Import Gate.

(** C1: [ToolGate::authorize] allows a call exactly on its grounds: the
    release declares the tool, its contracts are loaded, and, when the tool
    has rules, the arguments are closed and conform under the task context,
    Cedar permits, a needed approval is a receipt on disk for this exact
    call that is signed by a trusted approver, in force, within the tool's
    ttl and not denied, and a side effect has an operation key. *)
Theorem authorize_exactly (g : ToolGate) (tool : string) (args : option value) (now : string) (auth : Authorization) :
  authorize read_envelope g tool args now = Ok auth <-> grounds read_envelope g tool args now auth.
Proof. apply authorize_grounds. Qed.

(** The decision order is contract, then Cedar, then approval, and the
    first refusal is the answer; nothing about a call that breaks its
    contract depends on the policy, the receipts or the time. *)
Theorem first_refusal_wins (g : ToolGate) (tool : string) (args : option value) (now : string) (r : ToolRule)
    (declared : tool ∈ tools g) (loaded : contracts_loaded g = true) (ruled : BTree.get tool (rules g) = Some r) :
  authorize read_envelope g tool args now =
    match rule_check r args (task g) with
    | Err v => Err (of_violation v)
    | Ok _ =>
        match evaluate_policy g tool args now with
        | Err d => Err d
        | Ok verdict =>
            if needs_approval r args || match verdict with VRequireApproval _ => true | VAllow => false end
            then
              match approve read_envelope g r tool (default VNull args) now with
              | Err d => Err d
              | Ok a =>
                  if side_effect r
                  then Ok (mkAuthorization (Some a) (Some (mkOperationKey (approved_operation a) (approved_fingerprint a))))
                  else Ok (mkAuthorization (Some a) None)
              end
            else if side_effect r
            then match operation_key g r tool args None with
                 | Err d => Err d
                 | Ok k => Ok (mkAuthorization None (Some k))
                 end
            else Ok (mkAuthorization None None)
        end
    end.
Proof.
  unfold authorize. rewrite bool_decide_eq_true_2 by done. rewrite loaded, ruled. cbn [negb].
  destruct (rule_check r args (task g)) as [[]|]; [|reflexivity]. cbn [map_err].
  destruct (evaluate_policy g tool args now) as [v|]; [|reflexivity]. rewrite approval_needed_spec.
  destruct (needs_approval r args || _).
  - destruct (approve read_envelope g r tool _ now) as [a|]; [|reflexivity]. by destruct (side_effect r).
  - destruct (side_effect r); [|reflexivity]. by destruct (operation_key g r tool args None).
Qed.

(** A manifest that references a Cedar policy fails closed until the
    policy is loaded: the gate built from it is not ready, and refuses every
    call, as undeclared, for its arguments, or as [fail_closed]. *)
Theorem unloaded_policy_fails_closed (m : GateMode) (manifest : V1.Manifest) (p : V1.Policy)
    (referenced : V1.policy manifest = Some p) (tool : string) (args : option value) (now : string) :
  ready (from_manifest m manifest) <> Ok tt /\
  exists d, authorize read_envelope (from_manifest m manifest) tool args now = Err d /\
    (d = UndeclaredTool \/ d = FailClosed \/ exists v, d = of_violation v).
Proof.
  split.
  - unfold ready, from_manifest. cbn [operations rules policy_source policy]. rewrite referenced. cbn [fmap option_fmap option_map].
    by destruct (List.find _ _) as [[]|].
  - unfold authorize, from_manifest. cbn [tools contracts_loaded rules task negb].
    case_bool_decide as Hin; cbn [negb]; [|by eauto].
    destruct (BTree.get tool (V1.tools manifest)) as [r|] eqn:Hg; [|by apply BTree.get_None in Hg].
    destruct (rule_check r args None) as [[]|v]; cbn [map_err];
      [|exists (of_violation v); split; [reflexivity|do 2 right; by exists v]].
    unfold evaluate_policy. cbn [policy policy_source]. rewrite referenced.
    exists FailClosed. split; [reflexivity|by right; left].
Qed.

(** [with_contracts] accepts exactly the contracts the release binds:
    if it succeeds, the supplied references are the bound ones, no tool is
    covered twice, and the rule for a tool is the one its contract states. *)
Theorem contracts_are_the_bound_ones (cs : list ToolContract) (t : option value) (g g' : ToolGate)
    (accepted : with_contracts cs t g = Ok g') :
  (forall x, x ∈ contract_refs g <-> exists c, c ∈ cs /\ policy_ref c = x) /\
  NoDup (cs ≫= fun c => BTree.keys (Contract.tools c)) /\
  (forall tool r, BTree.get tool (rules g') = Some r <-> exists c, c ∈ cs /\ (tool, r) ∈ Contract.tools c) /\
  tools g' = tools g /\ contracts_loaded g' = true /\ task g' = t /\ task_not_object t = false.
Proof.
  revert accepted. unfold with_contracts. destruct (task_not_object t); [discriminate|].
  destruct (add_contracts _ _ _ _) as [[supplied by_tool]|] eqn:Hadd; [|discriminate].
  apply add_contracts_ok in Hadd as (_ & Hsup & Hrefs & Hnd & _ & Hget); [|constructor].
  destruct (filter _ _) as [|x l] eqn:Hf; [|discriminate]. intros [= <-].
  cbn [rules tools contracts_loaded task fst snd] in *. split; [|split; [done|split]].
  - intros x. split.
    + intros Hx. destruct (decide (x ∈ supplied)) as [Hs|Hs].
      * apply (proj1 (Hsup x)) in Hs as [Hs%elem_of_nil|Hs]; [destruct Hs|exact Hs].
      * assert (x ∈ filter (fun r => r ∉ supplied) (contract_refs g)) as Hin by (by apply list_elem_of_filter).
        rewrite Hf in Hin. by apply elem_of_nil in Hin.
    + intros (c & Hc & <-). by apply Hrefs.
  - intros tool r. rewrite Hget. split; [by intros [?|?]|by left].
  - done.
Qed.

(** Shadow mode tracks the same operations: for a call the gate allows,
    [operation] names the operation [authorize] named, and the id never
    depends on anything the caller controls but the call itself. *)
Theorem operation_agrees_with_authorize (g : ToolGate) (tool : string) (args : option value) (now : string)
    (auth : Authorization) (allowed_call : authorize read_envelope g tool args now = Ok auth) :
  operation read_envelope g tool args now = Ok (auth_operation auth).
Proof.
  revert allowed_call. unfold authorize, operation. case_bool_decide; cbn [negb]; [|discriminate].
  destruct (contracts_loaded g); cbn [negb]; [|discriminate].
  destruct (BTree.get tool (rules g)) as [r|]; [|by intros [= <-]].
  destruct (rule_check r args (task g)) as [[]|]; cbn [map_err]; [|discriminate].
  destruct (evaluate_policy g tool args now) as [v|]; [|discriminate].
  destruct (is_some (approval_needed r args v)).
  - destruct (approve read_envelope g r tool _ now) as [a|]; cbn [res_ok]; [|discriminate].
    destruct (side_effect r); cbn [negb]; [|by intros [= <-]].
    destruct (operation_key g r tool args (Some a)) as [k|]; [|discriminate]. by intros [= <-].
  - destruct (side_effect r); cbn [negb]; [|by intros [= <-]].
    destruct (operation_key g r tool args None) as [k|]; [|discriminate]. by intros [= <-].
Qed.

(** A forwarded call is seen by the policy of the next one: recording
    it either fails closed or adds one to the call's own windows, as Cedar
    is given them at any later time inside the window, and nothing else
    of the gate changes. *)
Theorem forwarded_calls_are_counted (g g' : ToolGate) (tool now : string) (id : Z) (p : PolicyState)
    (t later : Z)
    (recorded : record_forwarded tool now g = Ok (Some id, g')) (loaded : policy g = Some p)
    (at_ : unix now = Ok t) (after : (t <= later < t + HOUR)%Z) (declared : tool ∈ tools g) :
  exists p' w, policy g' = Some p' /\ engine p' = engine p /\
    BTree.get tool (snapshot (release_name g) (tools g) later (Gate.counters p)) = Some w /\
    BTree.get tool (snapshot (release_name g) (tools g) later (Gate.counters p')) =
      Some (mkWindow (last_1h w + 1) (last_24h w + 1)) /\
    g' = set_policy (Some p') g.
Proof.
  revert recorded. unfold record_forwarded. rewrite loaded, at_. destruct (store_answers p) eqn:Hs; [|discriminate].
  cbn [negb]. destruct (record (release_name g) tool t (Gate.counters p)) as [id' c] eqn:Hr. intros [= -> <-].
  exists (mkPolicyState (engine p) c true). eexists. split; [reflexivity|]. split; [reflexivity|].
  rewrite !snapshot_get, !bool_decide_eq_true_2 by done. split; [reflexivity|]. split; [|reflexivity].
  cbn [Gate.counters last_1h last_24h].
  assert (c = (record (release_name g) tool t (Gate.counters p)).2) as -> by (by rewrite Hr).
  rewrite !record_calls_in by (unfold HOUR, DAY in *; lia).
  rewrite !bool_decide_eq_true_2 by (unfold HOUR, DAY in *; repeat split; lia). reflexivity.
Qed.
End GateProperties.

(** *** Concrete instances *)

Section Witnesses.
Import Toy Gate.
#[local] Existing Instance toy_cedar.
#[local] Existing Instance t_time.

Definition no_envelope (_ : bytes) : option Envelope := None.
Definition demo_policy : PolicyState := mkPolicyState (CC := toy_cedar) [("any", None)] no_calls true.
Definition demo_task : value := VObject [("taskId", VString "task-7")].
Definition demo_gate : ToolGate :=
  mkToolGate Enforce (hash_to_string zero_release) "support" "1" None (Some ("p.cedar", [])) (Some demo_policy)
    ["refund"] [] true [("refund", refund_rule)] (Some demo_task) None None None [] (Some []).
Definition demo_args : option value := Some (VObject [("amount/usd", VNumber (PosInt 50))]).
Definition demo_now : string := "5000000000T00".
Definition demo_auth : Authorization :=
  match authorize no_envelope demo_gate "refund" demo_args demo_now with
  | Ok a => a | Err _ => mkAuthorization None None end.

Lemma first_refusal_wins_witness :
  check no_envelope demo_gate "refund" (Some (VObject [])) demo_now = Err (ArgumentMissing (Some "/amount~1usd")) /\
  authorize no_envelope demo_gate "refund" (Some (VObject [])) demo_now =
    Err (of_violation (mkViolation Constraint.ArgumentMissing (Some "/amount~1usd"))).
Proof.
  split; [vm_compute; reflexivity|].
  rewrite (first_refusal_wins no_envelope demo_gate "refund" (Some (VObject [])) demo_now refund_rule); [|left|reflexivity..].
  vm_compute. reflexivity.
Qed.

Definition policy_manifest : V1.Manifest :=
  V1.mkManifest "support" "1" (Some (V1.mkPolicy "p.cedar" [] zero_release)) [("refund", refund_rule)] zero_release.

Lemma unloaded_policy_fails_closed_witness :
  ready (from_manifest Enforce policy_manifest) <> Ok tt.
Proof.
  apply (unloaded_policy_fails_closed no_envelope Enforce policy_manifest (V1.mkPolicy "p.cedar" [] zero_release) eq_refl
           "refund" None "").
Qed.

Definition contract_gate : ToolGate :=
  mkToolGate Enforce (hash_to_string zero_release) "support" "1" None None None ["refund"] [policy_ref refund_contract]
    false [] None None None None [] None.

Definition loaded_gate : ToolGate :=
  mkToolGate Enforce (hash_to_string zero_release) "support" "1" None None None ["refund"] [policy_ref refund_contract]
    true [("refund", refund_rule)] None None None None [] None.

Lemma contracts_are_the_bound_ones_witness :
  policy_ref refund_contract ∈ contract_refs contract_gate <->
  exists c, c ∈ [refund_contract] /\ policy_ref c = policy_ref refund_contract.
Proof.
  apply (contracts_are_the_bound_ones [refund_contract] None contract_gate loaded_gate).
  vm_cast_no_check (@eq_refl (result GateConfigError ToolGate) (Ok loaded_gate)).
Qed.

Lemma operation_agrees_with_authorize_witness :
  operation no_envelope demo_gate "refund" demo_args demo_now = Ok (auth_operation demo_auth).
Proof.
  apply (operation_agrees_with_authorize no_envelope demo_gate "refund" demo_args demo_now demo_auth).
  vm_compute. reflexivity.
Defined.

Lemma forwarded_calls_are_counted_witness :
  exists p' w, policy (set_policy (Some (mkPolicyState (CC := toy_cedar) [("any", None)] (record "support" "refund" 5 no_calls).2 true)) demo_gate)
      = Some p' /\ engine p' = engine demo_policy /\
    BTree.get "refund" (snapshot "support" ["refund"] 6 (Gate.counters demo_policy)) = Some w /\
    BTree.get "refund" (snapshot "support" ["refund"] 6 (Gate.counters p')) =
      Some (mkWindow (last_1h w + 1) (last_24h w + 1)) /\
    set_policy (Some (mkPolicyState (CC := toy_cedar) [("any", None)] (record "support" "refund" 5 no_calls).2 true)) demo_gate
      = set_policy (Some p') demo_gate.
Proof.
  apply (forwarded_calls_are_counted demo_gate
    (set_policy (Some (mkPolicyState (CC := toy_cedar) [("any", None)] (record "support" "refund" 5 no_calls).2 true)) demo_gate)
    "refund" demo_now 1 demo_policy 5 6); [reflexivity|reflexivity|reflexivity|unfold HOUR; lia|left].
Defined.
End Witnesses.
