(* ===== verification/Ledger.v ===== *)
(** * The privacy ledger ([cloakpipe-ledger/src]: [record.rs],
    [canonical.rs], [chain.rs], [sign.rs])

    Records and their builder, the canonical bytes a record hash covers, the
    hash chain, its verification, and record signatures.  UUIDs are their 16
    bytes, instants nanoseconds since the Unix epoch. *)

From stdpp Require Import pretty.
From S2P Require Import Prelude Text BTree Json Crates Concrete Action.

(** ** The record schema *)

Inductive Hop :=
| LlmPrompt | LlmResponse | McpToolCall | McpToolResult | SubAgentMsg | MemoryWrite | RetrievalResult
| Unmask | ReleaseRegistered | ReleasePromoted | ReleaseCertified | CertificationRevoked | OperationReconciled.

Definition hop_tag (h : Hop) : string :=
  match h with
  | LlmPrompt => "llm_prompt"
  | LlmResponse => "llm_response"
  | McpToolCall => "mcp_tool_call"
  | McpToolResult => "mcp_tool_result"
  | SubAgentMsg => "sub_agent_msg"
  | MemoryWrite => "memory_write"
  | RetrievalResult => "retrieval_result"
  | Unmask => "unmask"
  | ReleaseRegistered => "release_registered"
  | ReleasePromoted => "release_promoted"
  | ReleaseCertified => "release_certified"
  | CertificationRevoked => "certification_revoked"
  | OperationReconciled => "operation_reconciled"
  end.

Inductive Detector := DRegex | Checksum | OnnxBert | Gliner | Custom.

Definition detector_tag (d : Detector) : string :=
  match d with
  | DRegex => "regex" | Checksum => "checksum" | OnnxBert => "onnx_bert" | Gliner => "gliner" | Custom => "custom"
  end.

Inductive ActionKind := Pseudonymize | Block | Passthrough | FpeToken.

Definition action_kind_tag (k : ActionKind) : string :=
  match k with
  | Pseudonymize => "pseudonymize" | Block => "block" | Passthrough => "passthrough" | FpeToken => "fpe_token"
  end.

Record Action := mkAction {
  action_entity_type : string;
  kind : ActionKind;
  token_ref : option string;
}.

(** [count] is a [u32]. *)
Record Detection := mkDetection {
  detection_entity_type : string;
  count : Z;
  detector : Detector;
}.

Inductive PolicyDecision := PAllow | PDeny | PFlag.

Definition policy_decision_tag (d : PolicyDecision) : string :=
  match d with PAllow => "allow" | PDeny => "deny" | PFlag => "flag" end.

Record Policy := mkPolicy {
  pack_id : string;
  pack_version : string;
  rule_id : string;
  decision : PolicyDecision;
}.

Record Identity := mkIdentity {
  agent_id : bytes;
  human_principal : option bytes;
  upstream : string;
  region : string;
}.

Record Egress := mkEgress {
  destination : string;
  bytes_out_hash : bytes;
}.

Inductive MetadataValue :=
| MBool (b : bool)
| MInteger (n : Z)
| MHash (h : bytes)
| OpaqueId (s : string).

Record LedgerRecord := mkLedgerRecord {
  seq : Z;
  ts : Z;
  tenant_id : bytes;
  hop : Hop;
  detections : list Detection;
  actions : list Action;
  policy : Policy;
  identities : Identity;
  egress : Egress;
  metadata : btree MetadataValue;
  prev_hash : bytes;
  record_hash : bytes;
}.

Definition RELEASE_HASH_KEY : string := "release_hash".

(** The manifest hash the record is bound to. *)
Definition release_hash (r : LedgerRecord) : option bytes :=
  match BTree.get RELEASE_HASH_KEY (metadata r) with Some (MHash h) => Some h | _ => None end.

(** ** The builder *)

Inductive RecordError :=
| PiiInMetadata (key why : string)
| OpaqueIdTooLong (key : string)
| MetadataDelimiter (key : string)
| BadMetadataKey (key : string).

Record RecordBuilder := mkRecordBuilder {
  b_seq : option Z;
  b_ts : option Z;
  b_tenant_id : option bytes;
  b_hop : option Hop;
  b_detections : list Detection;
  b_actions : list Action;
  b_policy : option Policy;
  b_identities : option Identity;
  b_egress : option Egress;
  b_metadata : btree MetadataValue;
}.

Definition new : RecordBuilder := mkRecordBuilder None None None None [] [] None None None [].

Definition with_seq (n : Z) (b : RecordBuilder) : RecordBuilder :=
  mkRecordBuilder (Some n) (b_ts b) (b_tenant_id b) (b_hop b) (b_detections b) (b_actions b)
    (b_policy b) (b_identities b) (b_egress b) (b_metadata b).
Definition with_ts (t : Z) (b : RecordBuilder) : RecordBuilder :=
  mkRecordBuilder (b_seq b) (Some t) (b_tenant_id b) (b_hop b) (b_detections b) (b_actions b)
    (b_policy b) (b_identities b) (b_egress b) (b_metadata b).
Definition with_tenant (u : bytes) (b : RecordBuilder) : RecordBuilder :=
  mkRecordBuilder (b_seq b) (b_ts b) (Some u) (b_hop b) (b_detections b) (b_actions b)
    (b_policy b) (b_identities b) (b_egress b) (b_metadata b).
Definition with_hop (h : Hop) (b : RecordBuilder) : RecordBuilder :=
  mkRecordBuilder (b_seq b) (b_ts b) (b_tenant_id b) (Some h) (b_detections b) (b_actions b)
    (b_policy b) (b_identities b) (b_egress b) (b_metadata b).
Definition with_detections (ds : list Detection) (b : RecordBuilder) : RecordBuilder :=
  mkRecordBuilder (b_seq b) (b_ts b) (b_tenant_id b) (b_hop b) (b_detections b ++ ds) (b_actions b)
    (b_policy b) (b_identities b) (b_egress b) (b_metadata b).
Definition with_detection (d : Detection) (b : RecordBuilder) : RecordBuilder := with_detections [d] b.
Definition with_action (a : Action) (b : RecordBuilder) : RecordBuilder :=
  mkRecordBuilder (b_seq b) (b_ts b) (b_tenant_id b) (b_hop b) (b_detections b) (b_actions b ++ [a])
    (b_policy b) (b_identities b) (b_egress b) (b_metadata b).
Definition with_policy (p : Policy) (b : RecordBuilder) : RecordBuilder :=
  mkRecordBuilder (b_seq b) (b_ts b) (b_tenant_id b) (b_hop b) (b_detections b) (b_actions b)
    (Some p) (b_identities b) (b_egress b) (b_metadata b).
Definition with_identities (i : Identity) (b : RecordBuilder) : RecordBuilder :=
  mkRecordBuilder (b_seq b) (b_ts b) (b_tenant_id b) (b_hop b) (b_detections b) (b_actions b)
    (b_policy b) (Some i) (b_egress b) (b_metadata b).
Definition with_egress (e : Egress) (b : RecordBuilder) : RecordBuilder :=
  mkRecordBuilder (b_seq b) (b_ts b) (b_tenant_id b) (b_hop b) (b_detections b) (b_actions b)
    (b_policy b) (b_identities b) (Some e) (b_metadata b).
Definition with_metadata (k : string) (v : MetadataValue) (b : RecordBuilder) : RecordBuilder :=
  mkRecordBuilder (b_seq b) (b_ts b) (b_tenant_id b) (b_hop b) (b_detections b) (b_actions b)
    (b_policy b) (b_identities b) (b_egress b) (BTree.insert k v (b_metadata b)).
Definition release (manifest_hash : bytes) (b : RecordBuilder) : RecordBuilder :=
  with_metadata RELEASE_HASH_KEY (MHash manifest_hash) b.

(** [u8::is_ascii_graphic]. *)
Definition is_ascii_graphic (c : ascii) : bool := in_range "!"%char c "~"%char.

Definition validate_metadata_key (key : string) : result RecordError unit :=
  let plain :=
    negb (str_is_empty key) &&
    str_all (fun b => is_ascii_graphic b && negb (bool_decide (b = ";"%char)) && negb (bool_decide (b = "="%char))) key in
  if plain then Ok tt else Err (BadMetadataKey key).

Definition pii_markers : list string :=
  ["@"; "aadhaar"; "pan"; "ifsc"; "upi://"; "gstin"; "ssn"; "phone"; "email"; "name="].

(** [s.chars().any(|c| c.is_whitespace())]: some character of valid UTF-8
    text is blank exactly if a suffix starts with the bytes of one. *)
Fixpoint has_whitespace (b : bytes) : bool :=
  match b with
  | [] => false
  | _ :: b' =>
      is_blank (from_bytes (take 1 b)) || is_blank (from_bytes (take 2 b)) || is_blank (from_bytes (take 3 b))
      || has_whitespace b'
  end.

Definition validate_opaque_id (key s : string) : result RecordError unit :=
  if (128 <? Z.of_nat (String.length s))%Z then Err (OpaqueIdTooLong key)
  else
    let lowered := to_ascii_lowercase s in
    let? _ := try_each (fun marker =>
      if str_contains marker lowered then Err (PiiInMetadata key ("contains marker `" +:+ marker +:+ "`"))
      else Ok tt) pii_markers in
    if has_whitespace (as_bytes s) then Err (PiiInMetadata key "contains whitespace")
    else if str_contains ";" s || str_contains "=" s then Err (MetadataDelimiter key)
    else Ok tt.

Definition validate_metadata (kv : string * MetadataValue) : result RecordError unit :=
  let? _ := validate_metadata_key kv.1 in
  match kv.2 with OpaqueId s => validate_opaque_id kv.1 s | _ => Ok tt end.

Definition nil_uuid : bytes := repeat "000"%char 16.
Definition zero_hash : bytes := repeat "000"%char 32.

(** [now] is the clock's reading, used when no time was set. *)
Definition build (now : Z) (b : RecordBuilder) : result RecordError LedgerRecord :=
  let? _ := try_each validate_metadata (b_metadata b) in
  Ok {| seq := default 0%Z (b_seq b);
        ts := default now (b_ts b);
        tenant_id := default nil_uuid (b_tenant_id b);
        hop := default LlmPrompt (b_hop b);
        detections := b_detections b;
        actions := b_actions b;
        policy := default (mkPolicy "default" "0000000" "default-allow" PAllow) (b_policy b);
        identities := default (mkIdentity nil_uuid None "unknown" "unknown") (b_identities b);
        egress := default (mkEgress "unknown" zero_hash) (b_egress b);
        metadata := b_metadata b;
        prev_hash := zero_hash;
        record_hash := zero_hash |}.

(** ** Canonical bytes *)

Definition NL : string := String (ascii_of_N 10) "".

(** [for x in l { write!(s, ..) }] *)
Definition concat_text {A} (f : A -> string) (l : list A) : string := foldr (fun x s => f x +:+ s) "" l.

Definition detection_text (d : Detection) : string :=
  "(" +:+ detection_entity_type d +:+ "|" +:+ pretty (count d) +:+ "|" +:+ detector_tag (detector d) +:+ "|<confidence>)".

Definition action_text (a : Action) : string :=
  "(" +:+ action_entity_type a +:+ "|" +:+ action_kind_tag (kind a) +:+ "|" +:+ default "" (token_ref a) +:+ ")".

Definition policy_text (p : Policy) : string :=
  "(" +:+ pack_id p +:+ "|" +:+ pack_version p +:+ "|" +:+ rule_id p +:+ "|" +:+ policy_decision_tag (decision p) +:+ ")".

Definition metadata_value_text (v : MetadataValue) : string :=
  match v with
  | MBool b => "bool:" +:+ (if b then "true" else "false")
  | MInteger i => "int:" +:+ pretty i
  | MHash h => "hash:" +:+ hex_lower h
  | OpaqueId o => "id:" +:+ o
  end.

Definition metadata_text (m : btree MetadataValue) : string :=
  concat_text (fun kv => kv.1 +:+ "=" +:+ metadata_value_text kv.2 +:+ ";") m.

Section Canonical.
Context {CK : ClockCrate} {UC : UuidCrate}.

Definition identities_text (i : Identity) : string :=
  "(" +:+ hyphenated (agent_id i) +:+ "|" +:+ default "-" (hyphenated <$> human_principal i) +:+ "|"
  +:+ upstream i +:+ "|" +:+ region i +:+ ")".

Definition egress_text (e : Egress) : string :=
  "(" +:+ destination e +:+ "|" +:+ hex_lower (bytes_out_hash e) +:+ ")".

(** The bytes the record hash covers: every field but [record_hash]. *)
Definition canonicalize (r : LedgerRecord) : bytes :=
  as_bytes
    ("seq=" +:+ pretty (seq r)
     +:+ NL +:+ "ts=" +:+ to_rfc3339_secs (ts r)
     +:+ NL +:+ "tenant_id=" +:+ hyphenated (tenant_id r)
     +:+ NL +:+ "hop=" +:+ hop_tag (hop r)
     +:+ NL +:+ "detections=" +:+ concat_text detection_text (detections r)
     +:+ NL +:+ "actions=" +:+ concat_text action_text (actions r)
     +:+ NL +:+ "policy=" +:+ policy_text (policy r)
     +:+ NL +:+ "identities=" +:+ identities_text (identities r)
     +:+ NL +:+ "egress=" +:+ egress_text (egress r)
     +:+ NL +:+ "prev_hash=" +:+ hex_lower (prev_hash r)
     +:+ NL +:+ "metadata=" +:+ metadata_text (metadata r)).
End Canonical.

(** ** The hash chain *)

Definition GENESIS_HASH : bytes := zero_hash.

Inductive ChainLinkError :=
| SeqMismatch (expected actual : Z)
| PrevHashMismatch.

Section Chain.
Context {CK : ClockCrate} {UC : UuidCrate} {HC : HashCrates}.

Definition compute_hash (r : LedgerRecord) : bytes := sha256 (canonicalize r).
Definition hash_record (r : LedgerRecord) : bytes := compute_hash r.

Definition set_prev_hash (h : bytes) (r : LedgerRecord) : LedgerRecord :=
  mkLedgerRecord (seq r) (ts r) (tenant_id r) (hop r) (detections r) (actions r) (policy r)
    (identities r) (egress r) (metadata r) h (record_hash r).
Definition set_record_hash (h : bytes) (r : LedgerRecord) : LedgerRecord :=
  mkLedgerRecord (seq r) (ts r) (tenant_id r) (hop r) (detections r) (actions r) (policy r)
    (identities r) (egress r) (metadata r) (prev_hash r) h.

(** The record after the call and the hash it returns. *)
Definition link_and_hash (prev : bytes) (record : LedgerRecord) : LedgerRecord * bytes :=
  let record := set_prev_hash prev record in
  let record := set_record_hash (compute_hash record) record in
  (record, record_hash record).

(** The loop of [verify_chain], from sequence number [expected_seq] and
    previous hash [prev] on. *)
Fixpoint verify_from (expected_seq : Z) (prev : bytes) (records : list LedgerRecord) : result ChainLinkError bytes :=
  match records with
  | [] => Ok prev
  | r :: rest =>
      if negb (seq r =? expected_seq)%Z then Err (SeqMismatch expected_seq (seq r))
      else if negb (bool_decide (prev_hash r = prev)) then Err PrevHashMismatch
      else
        let h := compute_hash r in
        if negb (bool_decide (h = record_hash r)) then Err PrevHashMismatch
        else verify_from (expected_seq + 1) h rest
  end.

Definition verify_chain (records : list LedgerRecord) : result ChainLinkError bytes :=
  verify_from 0 GENESIS_HASH records.
End Chain.

(** ** Signatures *)

Inductive SignError := Ed25519Error | VerificationFailed.

Inductive RecordSignature := Ed25519 (pk sig : bytes).

Definition signature_algorithm (s : RecordSignature) : string := match s with Ed25519 _ _ => "ed25519" end.

Section Sign.
Context {CK : ClockCrate} {UC : UuidCrate} {SC : SignatureCrates}.

(** [Ed25519Signer] is its key. *)
Definition signer_sign (key : SigningKey) (record : LedgerRecord) : RecordSignature :=
  Ed25519 (verifying_key key) (ed25519_sign key (canonicalize record)).
Definition sign_bytes (key : SigningKey) (payload : bytes) : bytes := ed25519_sign key payload.
Definition public_key (key : SigningKey) : bytes := verifying_key key.

(** [key_ok]: [VerifyingKey::from_bytes] reads the key (a curve point). *)
Definition verify (key_ok : bytes -> bool) (record : LedgerRecord) (sig : RecordSignature) : result SignError unit :=
  match sig with
  | Ed25519 pk sig_bytes =>
      if negb (key_ok pk) then Err Ed25519Error
      else if ed25519_verify_strict pk (canonicalize record) sig_bytes then Ok tt
      else Err VerificationFailed
  end.
End Sign.

(** ** The text of metadata *)

(** The text of an integer is digits and a minus sign. *)
Lemma pretty_Z_chars (z : Z) (c : ascii) : c ∈ as_bytes (pretty z) -> is_ascii_digit c = true \/ c = "-"%char.
Proof.
  assert (Hn : forall n : N, c ∈ as_bytes (pretty n) -> is_ascii_digit c = true).
  { intros n Hc. pose proof (pretty_N_digits n) as H. unfold str_all in H. rewrite forallb_forall in H.
    by apply H, list_elem_of_In. }
  unfold pretty, pretty_Z. destruct z as [|p|p]; [intros H; left; by apply (Hn 0%N)|intros H; left; by apply (Hn (Npos p))|].
  change (c ∈ "-"%char :: as_bytes (pretty (Npos p)) -> is_ascii_digit c = true \/ c = "-"%char).
  intros [->|H]%elem_of_cons; [by right|left; by eapply Hn].
Qed.

Lemma hex_lower_chars b c : c ∈ as_bytes (hex_lower b) -> is_hex_char c = true.
Proof.
  unfold hex_lower. rewrite as_from_bytes. induction b as [|x b IH]; [by intros ?%elem_of_nil|].
  rewrite bind_cons, elem_of_app. intros [H|H]; [|auto].
  assert (Hx : forallb is_hex_char (hex_byte x) = true) by by destruct x as [[] [] [] [] [] [] [] []].
  rewrite forallb_forall in Hx. by apply Hx, list_elem_of_In.
Qed.

Lemma hex_lower_inj a b : hex_lower a = hex_lower b -> a = b.
Proof.
  intros H%(inj from_bytes). revert b H. induction a as [|x a IH]; intros [|y b] H; try done.
  rewrite !bind_cons in H. simpl in H. injection H as H1 H2 H. apply IH in H as ->. f_equal.
  pose proof (hex_pair_byte x) as Hx. rewrite H1, H2, hex_pair_byte in Hx. by injection Hx.
Qed.

Lemma str_contains_char c s : str_contains (String c "") s = false -> c ∉ as_bytes s.
Proof.
  induction s as [|a s IH]; [by intros _ ?%elem_of_nil|]. intros H. simpl in H.
  apply orb_false_iff in H as [H1 H2]. intros [->|Hc]%elem_of_cons; [|by apply IH].
  unfold starts_with in H1. simpl in H1. by rewrite decide_True in H1.
Qed.

Lemma has_whitespace_newline b : has_whitespace b = false -> ascii_of_N 10 ∉ b.
Proof.
  induction b as [|a b IH]; [by intros _ ?%elem_of_nil|]. cbn [has_whitespace].
  rewrite !orb_false_iff. intros [[[H _] _] Hb] [<-|Hc]%elem_of_cons; [done|by apply IH].
Qed.

(** What the builder's checks give: an entry's key and value hold none of the
    characters that delimit entries or lines. *)
Lemma validate_metadata_ok kv : validate_metadata kv = Ok tt ->
  (forall c, c ∈ as_bytes kv.1 -> c <> ";"%char /\ c <> "="%char /\ c <> ascii_of_N 10) /\
  (forall c, c ∈ as_bytes (metadata_value_text kv.2) -> c <> ";"%char /\ c <> ascii_of_N 10).
Proof.
  destruct kv as [k v]. unfold validate_metadata. cbn [fst snd]. intros H.
  destruct (validate_metadata_key k) as [[]|] eqn:Hk; [|done]. split.
  - unfold validate_metadata_key in Hk. cbv zeta in Hk. destruct (_ && _) eqn:Hp; [|done]. apply andb_true_iff in Hp as [_ Hp].
    unfold str_all in Hp. rewrite forallb_forall in Hp. intros c Hc. apply list_elem_of_In, Hp in Hc.
    apply andb_true_iff in Hc as [[Hg H1]%andb_true_iff H2].
    apply negb_true_iff, bool_decide_eq_false in H1, H2. split_and!; [done..|by intros ->].
  - destruct v as [b|i|h|s]; cbn [metadata_value_text]; intros c Hc; rewrite as_bytes_app, elem_of_app in Hc;
      (destruct Hc as [Hc|Hc]; [repeat (apply elem_of_cons in Hc as [->|Hc]; [done|]); by apply elem_of_nil in Hc|]).
    + destruct b; repeat (apply elem_of_cons in Hc as [->|Hc]; [done|]); by apply elem_of_nil in Hc.
    + apply pretty_Z_chars in Hc as [Hc| ->]; [|done]. split; by intros ->.
    + apply hex_lower_chars in Hc. split; by intros ->.
    + unfold validate_opaque_id in H. case_match; [done|]. destruct (try_each _ _) as [[]|]; [|done].
      destruct (has_whitespace _) eqn:Hw; [done|]. destruct (_ || _) eqn:Hd; [done|].
      apply orb_false_iff in Hd as [Hd _]. apply has_whitespace_newline in Hw. apply str_contains_char in Hd.
      split; by intros ->.
Qed.

Definition metadata_ok (m : btree MetadataValue) : Prop := try_each validate_metadata m = Ok tt.

Lemma metadata_value_text_inj v w : metadata_value_text v = metadata_value_text w -> v = w.
Proof.
  destruct v as [b|i|h|s], w as [b'|i'|h'|s']; cbn [metadata_value_text]; intros H%(f_equal as_bytes);
    rewrite !as_bytes_app in H; try discriminate H; apply app_inv_head in H; apply (inj as_bytes) in H.
  - by destruct b, b'.
  - by apply (inj pretty) in H as ->.
  - by apply hex_lower_inj in H as ->.
  - by subst.
Qed.

Lemma metadata_text_cons kv m :
  as_bytes (metadata_text (kv :: m)) =
  (as_bytes kv.1 ++ "="%char :: as_bytes (metadata_value_text kv.2)) ++ ";"%char :: as_bytes (metadata_text m).
Proof.
  unfold metadata_text. cbn [concat_text foldr]. unfold concat_text. cbn [foldr].
  rewrite !as_bytes_app, <- !app_assoc. change (as_bytes "=") with ["="%char]. change (as_bytes ";") with [";"%char].
  reflexivity.
Qed.

Lemma metadata_text_inj m m' : metadata_ok m -> metadata_ok m' -> metadata_text m = metadata_text m' -> m = m'.
Proof.
  unfold metadata_ok. rewrite !try_each_ok. intros Hm. revert m'.
  induction Hm as [|kv m Hkv Hm IH]; intros [|kv' m'] Hm' H; [done| | |].
  - apply (f_equal as_bytes) in H. rewrite metadata_text_cons in H.
    change (as_bytes (metadata_text [])) with (@nil ascii) in H. by destruct (as_bytes kv'.1).
  - apply (f_equal as_bytes) in H. rewrite metadata_text_cons in H.
    change (as_bytes (metadata_text [])) with (@nil ascii) in H. by destruct (as_bytes kv.1).
  - apply Forall_cons in Hm' as [Hkv' Hm'].
    apply (f_equal as_bytes) in H. rewrite !metadata_text_cons in H.
    apply validate_metadata_ok in Hkv as [Hk Hv], Hkv' as [Hk' Hv'].
    apply sep_inj in H as [He H].
    + apply (inj as_bytes) in H. rewrite (IH _ Hm' H). f_equal.
      apply sep_inj in He as [He1 He2]; [|intros ?; naive_solver..].
      apply (inj as_bytes) in He1, He2. apply metadata_value_text_inj in He2.
      destruct kv, kv'. simpl in *. congruence.
    + rewrite elem_of_app, elem_of_cons. intros [?|[?|?]]; naive_solver.
    + rewrite elem_of_app, elem_of_cons. intros [?|[?|?]]; naive_solver.
Qed.

Lemma metadata_text_one_line m : metadata_ok m -> ascii_of_N 10 ∉ as_bytes (metadata_text m).
Proof.
  unfold metadata_ok. rewrite try_each_ok. induction 1 as [|kv m Hkv Hm IH]; [by apply not_elem_of_nil|].
  apply validate_metadata_ok in Hkv as [Hk Hv]. rewrite metadata_text_cons, !elem_of_app, !elem_of_cons.
  intros [[?|[?|?]]|[?|?]]; naive_solver.
Qed.

(** ** Canonical bytes *)

Section CanonicalLemmas.
Context {CK : ClockCrate} {UC : UuidCrate}.

Lemma no_newline_in s : str_contains NL s = false -> ascii_of_N 10 ∉ as_bytes s.
Proof. apply str_contains_char. Qed.

Lemma hex_line_one_line b : ascii_of_N 10 ∉ as_bytes "prev_hash=" ++ as_bytes (hex_lower b).
Proof.
  rewrite elem_of_app. intros [Hc|Hc%hex_lower_chars]; [by apply no_newline_in in Hc|done].
Qed.

(** The lines before the last two. *)
Definition canonical_front (r : LedgerRecord) : string :=
  "seq=" +:+ pretty (seq r)
  +:+ NL +:+ "ts=" +:+ to_rfc3339_secs (ts r)
  +:+ NL +:+ "tenant_id=" +:+ hyphenated (tenant_id r)
  +:+ NL +:+ "hop=" +:+ hop_tag (hop r)
  +:+ NL +:+ "detections=" +:+ concat_text detection_text (detections r)
  +:+ NL +:+ "actions=" +:+ concat_text action_text (actions r)
  +:+ NL +:+ "policy=" +:+ policy_text (policy r)
  +:+ NL +:+ "identities=" +:+ identities_text (identities r)
  +:+ NL +:+ "egress=" +:+ egress_text (egress r).

Lemma canonicalize_split r :
  canonicalize r =
  (as_bytes (canonical_front r) ++ ascii_of_N 10 :: (as_bytes "prev_hash=" ++ as_bytes (hex_lower (prev_hash r))))
  ++ ascii_of_N 10 :: (as_bytes "metadata=" ++ as_bytes (metadata_text (metadata r))).
Proof.
  unfold canonicalize, canonical_front. rewrite !as_bytes_app.
  change (as_bytes NL) with [ascii_of_N 10]. rewrite <- ?app_assoc. cbn [app]. rewrite <- ?app_assoc. reflexivity.
Qed.

Lemma canonicalize_tail r r' : metadata_ok (metadata r) -> metadata_ok (metadata r') ->
  canonicalize r = canonicalize r' -> prev_hash r = prev_hash r' /\ metadata r = metadata r'.
Proof.
  intros Hm Hm' H. rewrite !canonicalize_split in H.
  assert (Hnl : forall m, metadata_ok m -> ascii_of_N 10 ∉ as_bytes "metadata=" ++ as_bytes (metadata_text m)).
  { intros m Hok. rewrite elem_of_app. intros [Hc|Hc]; [by apply no_newline_in in Hc|by eapply metadata_text_one_line]. }
  apply last_sep_inj in H as [Hp Hmt]; [|by apply Hnl..].
  apply app_inv_head, (inj as_bytes), metadata_text_inj in Hmt; [|done..].
  apply last_sep_inj in Hp as [_ Hp].
  - by apply app_inv_head, (inj as_bytes), hex_lower_inj in Hp.
  - apply hex_line_one_line.
  - apply hex_line_one_line.
Qed.
End CanonicalLemmas.

(** ** The chain *)

Section ChainLemmas.
Context {CK : ClockCrate} {UC : UuidCrate} {HC : HashCrates}.
Implicit Types (r : LedgerRecord) (rs : list LedgerRecord) (h : bytes).

(** What [verify_from] checks of one record. *)
Definition linked (n : Z) (prev : bytes) r : Prop :=
  seq r = n /\ prev_hash r = prev /\ record_hash r = compute_hash r.

Lemma verify_from_cons n prev r rs h :
  verify_from n prev (r :: rs) = Ok h <-> linked n prev r /\ verify_from (n + 1) (record_hash r) rs = Ok h.
Proof.
  unfold linked. simpl. destruct (Z.eqb_spec (seq r) n); simpl; [|naive_solver].
  destruct (bool_decide_reflect (prev_hash r = prev)); simpl; [|naive_solver].
  destruct (bool_decide_reflect (compute_hash r = record_hash r)) as [<-|]; simpl; naive_solver.
Qed.

Lemma verify_from_app n prev rs rs' h :
  verify_from n prev (rs ++ rs') = Ok h <->
  exists m, verify_from n prev rs = Ok m /\ verify_from (n + Z.of_nat (length rs)) m rs' = Ok h.
Proof.
  revert n prev. induction rs as [|r rs IH]; intros n prev.
  - simpl. rewrite Z.add_0_r. naive_solver.
  - cbn [app length]. rewrite verify_from_cons, IH. setoid_rewrite verify_from_cons.
    replace (n + 1 + Z.of_nat (length rs))%Z with (n + Z.of_nat (S (length rs)))%Z by lia. naive_solver.
Qed.

(** The hashes of a verified chain: each record's predecessor hash. *)
Lemma verify_from_ok n prev rs h :
  verify_from n prev rs = Ok h <->
  (forall i r, rs !! i = Some r ->
     seq r = (n + Z.of_nat i)%Z /\ (prev :: map record_hash rs) !! i = Some (prev_hash r) /\
     record_hash r = compute_hash r) /\
  last (prev :: map record_hash rs) = Some h.
Proof.
  revert n prev. induction rs as [|r rs IH]; intros n prev.
  - simpl. split; [intros [= ->]; by split|by intros [_ [= ->]]].
  - rewrite verify_from_cons, IH. unfold linked. split.
    + intros [(Hs & Hp & Hr) [Hrs Hl]]. split; [|done]. intros [|i] r' Hi.
      * injection Hi as <-. simpl. split_and!; [lia|by rewrite Hp|done].
      * destruct (Hrs i r' Hi) as (? & ? & ?). split_and!; [lia|done|done].
    + intros [Hrs Hl]. destruct (Hrs 0 r eq_refl) as (? & Hp & ?). injection Hp as Hp.
      split; [split_and!; [lia|done|done]|]. split; [|done]. intros i r' Hi.
      destruct (Hrs (S i) r' Hi) as (? & ? & ?). split_and!; [lia|done|done].
Qed.

(** The first record that breaks the chain decides the error. *)
Lemma verify_from_err n prev rs e :
  verify_from n prev rs = Err e <->
  exists rs1 r rs2 m, rs = rs1 ++ r :: rs2 /\ verify_from n prev rs1 = Ok m /\
    let k := (n + Z.of_nat (length rs1))%Z in
    (seq r <> k /\ e = SeqMismatch k (seq r)) \/
    (seq r = k /\ (prev_hash r <> m \/ record_hash r <> compute_hash r) /\ e = PrevHashMismatch).
Proof.
  revert n prev. induction rs as [|r rs IH]; intros n prev.
  - split; [done|]. intros (rs1 & r & rs2 & m & H & _). by destruct rs1.
  - assert (Hhead : forall x, (exists rs1 r' rs2 m, r :: rs = rs1 ++ r' :: rs2 /\ verify_from n prev rs1 = Ok m /\ x (Z.of_nat (length rs1)) r' m) <->
      x 0%Z r prev \/ (linked n prev r /\ exists rs1 r' rs2 m, rs = rs1 ++ r' :: rs2 /\
        verify_from (n + 1) (record_hash r) rs1 = Ok m /\ x (1 + Z.of_nat (length rs1))%Z r' m)).
    { intros x. split.
      - intros ([|r1 rs1] & r' & rs2 & m & Heq & Hv & Hx); simplify_eq/=; [by left|right].
        apply verify_from_cons in Hv as [Hl Hv]. split; [done|]. exists rs1, r', rs2, m.
        split_and!; [done..|]. by replace (1 + Z.of_nat (length rs1))%Z with (Z.of_nat (S (length rs1))) by lia.
      - intros [Hx|(Hl & rs1 & r' & rs2 & m & -> & Hv & Hx)]; [by exists [], r, rs, prev|].
        exists (r :: rs1), r', rs2, m. split_and!; [done|by apply verify_from_cons|].
        cbn [length]. by replace (Z.of_nat (S (length rs1))) with (1 + Z.of_nat (length rs1))%Z by lia. }
    rewrite (Hhead (fun i r' m => let k := (n + i)%Z in (seq r' <> k /\ e = SeqMismatch k (seq r')) \/
      (seq r' = k /\ (prev_hash r' <> m \/ record_hash r' <> compute_hash r') /\ e = PrevHashMismatch))).
    cbv zeta. setoid_rewrite Z.add_assoc. rewrite Z.add_0_r, <- IH. unfold linked. simpl.
    destruct (Z.eqb_spec (seq r) n); simpl; [|naive_solver].
    destruct (bool_decide_reflect (prev_hash r = prev)); simpl; [|naive_solver].
    destruct (bool_decide_reflect (compute_hash r = record_hash r)) as [<-|]; simpl; naive_solver.
Qed.
End ChainLemmas.

(** ** Properties *)

(** The canonical metadata reads one way only: two maps that pass the
    builder's checks and have the same canonical text are equal, and the
    canonical bytes of a record determine its link to the chain and its
    metadata, whatever text the other fields hold. *)
Theorem metadata_reads_one_way {CK : ClockCrate} {UC : UuidCrate} (now now' : Z) (b b' : RecordBuilder) (r r' : LedgerRecord)
    (Hb : build now b = Ok r) (Hb' : build now' b' = Ok r') (p p' : bytes) :
  (metadata_text (metadata r) = metadata_text (metadata r') -> metadata r = metadata r') /\
  (canonicalize (set_prev_hash p r) = canonicalize (set_prev_hash p' r') ->
   p = p' /\ metadata r = metadata r' /\ release_hash r = release_hash r').
Proof.
  assert (Hok : forall t x y, build t x = Ok y -> metadata_ok (metadata y)).
  { intros t x y H. unfold build in H. destruct (try_each _ _) as [[]|] eqn:He; [|done].
    injection H as <-. exact He. }
  apply Hok in Hb, Hb'. split; [by apply metadata_text_inj|]. intros H.
  apply canonicalize_tail in H as [? Hm]; [|done..]. simpl in *. unfold release_hash. by rewrite Hm.
Qed.

(** [verify_chain] accepts exactly the linked chains: record [i] has
    sequence number [i], the hash of the record before it (the genesis hash
    for the first) as [prev_hash], and the hash of its own canonical bytes;
    the result is the last record's hash.  Otherwise the first record that
    breaks the chain decides the error. *)
Theorem verify_chain_exactly {CK : ClockCrate} {UC : UuidCrate} {HC : HashCrates} (rs : list LedgerRecord) :
  (forall h, verify_chain rs = Ok h <->
     (forall i r, rs !! i = Some r ->
        seq r = Z.of_nat i /\ (GENESIS_HASH :: map record_hash rs) !! i = Some (prev_hash r) /\
        record_hash r = compute_hash r) /\
     last (GENESIS_HASH :: map record_hash rs) = Some h) /\
  (forall e, verify_chain rs = Err e <->
     exists rs1 r rs2 m, rs = rs1 ++ r :: rs2 /\ verify_chain rs1 = Ok m /\
       let k := Z.of_nat (length rs1) in
       (seq r <> k /\ e = SeqMismatch k (seq r)) \/
       (seq r = k /\ (prev_hash r <> m \/ record_hash r <> compute_hash r) /\ e = PrevHashMismatch)).
Proof.
  split; intros x; unfold verify_chain.
  - rewrite verify_from_ok. by setoid_rewrite Z.add_0_l.
  - rewrite verify_from_err. by setoid_rewrite Z.add_0_l.
Qed.

(** A chain is tamper evident: two verified chains of the same length
    with the same final hash agree, record by record, on the hashed bytes,
    on the links and on the metadata (the release binding among it), unless
    SHA-256 collides among the canonical texts of the records. *)
Theorem chain_binds_history {CK : ClockCrate} {UC : UuidCrate} {HC : HashCrates} (rs rs' : list LedgerRecord) (h : bytes)
    (Hlen : length rs = length rs') (Hv : verify_chain rs = Ok h) (Hv' : verify_chain rs' = Ok h)
    (Hm : Forall (fun r => metadata_ok (metadata r)) rs) (Hm' : Forall (fun r => metadata_ok (metadata r)) rs') :
  Forall2 (fun r r' => canonicalize r = canonicalize r' /\ record_hash r = record_hash r' /\
                       prev_hash r = prev_hash r' /\ metadata r = metadata r') rs rs' \/
  collision_among sha256 (map canonicalize rs ++ map canonicalize rs').
Proof.
  revert rs' h Hlen Hv Hv' Hm Hm'. induction rs as [|r rs IH] using rev_ind; intros rs' h Hlen Hv Hv' Hm Hm'.
  { destruct rs'; [by left; constructor|done]. }
  destruct rs' as [|r' rs' _] using rev_ind; [rewrite length_app in Hlen; simpl in Hlen; lia|].
  rewrite !length_app in Hlen. simpl in Hlen.
  apply Forall_app in Hm as [Hm [Hr _]%Forall_cons]. apply Forall_app in Hm' as [Hm' [Hr' _]%Forall_cons].
  apply verify_from_app in Hv as (m & Hv & [(_ & Hp & Hh) Hl]%verify_from_cons).
  apply verify_from_app in Hv' as (m' & Hv' & [(_ & Hp' & Hh') Hl']%verify_from_cons).
  injection Hl as Hl. injection Hl' as Hl'. rewrite <- Hl, Hh, Hh' in Hl'.
  rewrite !map_app. apply (same_or_collision sha256 ((map canonicalize rs ++ map canonicalize [r]) ++ map canonicalize rs' ++ map canonicalize [r'])) in Hl'
    as [Hc|]; [|by right|cbn [map]; set_solver..].
  symmetry in Hc. pose proof (canonicalize_tail _ _ Hr Hr' Hc) as [Hpp Hmm].
  destruct (IH rs' m) as [Hall|]; [lia|done|by rewrite <- Hp, Hpp, Hp'|done..| |right; eapply collision_among_mono; [|done]; set_solver].
  left. apply Forall2_app; [done|]. constructor; [|constructor].
  split_and!; [done| |done..]. rewrite Hh, Hh'. unfold compute_hash. by rewrite Hc.
Qed.

(** Linking the next record after the tail of a verified chain gives a
    verified chain with the new record's hash as tail. *)
Theorem link_extends_chain {CK : ClockCrate} {UC : UuidCrate} {HC : HashCrates} (rs : list LedgerRecord) (h : bytes)
    (r : LedgerRecord) (Hv : verify_chain rs = Ok h) (Hs : seq r = Z.of_nat (length rs)) :
  verify_chain (rs ++ [(link_and_hash h r).1]) = Ok (link_and_hash h r).2.
Proof.
  apply verify_from_app. exists h. split; [done|]. apply verify_from_cons. split; [|done].
  unfold linked. by rewrite Z.add_0_l.
Qed.

(** A record of one detection, with this entity type and the default of every
    other member. *)
Definition detection_record (types : list string) : RecordBuilder :=
  with_detections (map (fun t => mkDetection t 1 DRegex) types) new.

(** Apart from that, canonical bytes read two ways: entity types are
    written without escaping, so one detection whose type holds the
    delimiters has the bytes, and the record hash, of two detections. *)
Theorem detections_read_two_ways {CK : ClockCrate} {UC : UuidCrate} {HC : HashCrates} (now : Z) :
  exists r r', build now (detection_record ["PAN"; "EMAIL"]) = Ok r /\
    build now (detection_record ["PAN|1|regex|<confidence>)(EMAIL"]) = Ok r' /\
    detections r <> detections r' /\ canonicalize r = canonicalize r' /\ compute_hash r = compute_hash r'.
Proof.
  do 2 eexists. split; [reflexivity|]. split; [reflexivity|]. split; [discriminate|].
  enough (H : forall a b, canonicalize a = canonicalize b -> canonicalize a = canonicalize b /\ compute_hash a = compute_hash b).
  { apply H. reflexivity. }
  intros a b H. unfold compute_hash. by rewrite H.
Qed.

(** *** Concrete instances *)

Section Witnesses.
Import Toy.

Definition hop_builder (n : Z) : RecordBuilder :=
  with_metadata "gate" (OpaqueId "undeclared_tool") (release zero_hash (with_seq n new)).

(** The chain of the first [n] records of [hop_builder]. *)
Definition built (n : Z) : LedgerRecord :=
  match build 0 (hop_builder n) with Ok r => r | Err _ => mkLedgerRecord 0 0 [] LlmPrompt [] [] (mkPolicy "" "" "" PAllow) (mkIdentity [] None "" "") (mkEgress "" []) [] [] [] end.
Definition first_record : LedgerRecord := (link_and_hash GENESIS_HASH (built 0)).1.
Definition second_record : LedgerRecord := (link_and_hash (record_hash first_record) (built 1)).1.

Lemma metadata_reads_one_way_witness : metadata (built 0) = metadata (built 1).
Proof. refine (proj1 (metadata_reads_one_way 0 0 (hop_builder 0) (hop_builder 1) _ _ _ _ [] []) _); reflexivity. Qed.

Lemma chain_binds_history_witness :
  Forall2 (fun r r' => canonicalize r = canonicalize r' /\ record_hash r = record_hash r' /\
                       prev_hash r = prev_hash r' /\ metadata r = metadata r') [first_record] [first_record]
  \/ collision_among sha256 (map canonicalize [first_record] ++ map canonicalize [first_record]).
Proof.
  apply (chain_binds_history [first_record] [first_record] (record_hash first_record)).
  - reflexivity.
  - vm_compute. reflexivity.
  - vm_compute. reflexivity.
  - constructor; [reflexivity|constructor].
  - constructor; [reflexivity|constructor].
Qed.

Lemma link_extends_chain_witness :
  verify_chain ([first_record] ++ [second_record]) = Ok (link_and_hash (record_hash first_record) (built 1)).2.
Proof. apply (link_extends_chain [first_record] (record_hash first_record) (built 1)); vm_compute; reflexivity. Defined.
End Witnesses.
