(* ===== verification/CanonicalJson.v ===== *)
(** * The ledger's canonical JSON ([cloakpipe-ledger/src/decision.rs],
    [canonical_json])

    Sorted keys, no whitespace, [serde_json]'s text for names and scalars.
    The text determines the value ([canonical_json_inj]), so a hash over it
    covers every member. *)

From stdpp Require Import pretty.
From S2P Require Import Prelude Text BTree Json Crates Ledger.

Definition quote : ascii := ascii_of_N 34.

(** [serde_json::to_string] of a name or a scalar. *)
Class SerdeText := { serde_text : value -> bytes }.

(** Documented JSON text: literals, decimal integers, and strings in quotes,
    where the closing quote can be told from a quote in the text. *)
Class SerdeTextLaws `{SerdeText} := {
  serde_null : serde_text VNull = as_bytes "null";
  serde_bool b : serde_text (VBool b) = as_bytes (if b then "true" else "false");
  serde_pos_int n : serde_text (VNumber (PosInt n)) = as_bytes (pretty n);
  serde_neg_int n : serde_text (VNumber (NegInt n)) = as_bytes (pretty n);
  serde_string_quoted s : exists r, serde_text (VString s) = quote :: r;
  serde_string_delimited s t x y : serde_text (VString s) ++ x = serde_text (VString t) ++ y -> s = t /\ x = y;
}.

(** The loops' comma before every element but the first. *)
Fixpoint comma_separated (l : list bytes) : bytes :=
  match l with
  | [] => []
  | [x] => x
  | x :: l => x ++ ","%char :: comma_separated l
  end.

(** A map iterates in key order, which is the sorted order of the keys. *)
Fixpoint canonical_json `{SerdeText} (v : value) : bytes :=
  match v with
  | VObject o =>
      "{"%char :: comma_separated (map (fun kv => serde_text (VString kv.1) ++ ":"%char :: canonical_json kv.2) o)
      ++ ["}"%char]
  | VArray a => "["%char :: comma_separated (map canonical_json a) ++ ["]"%char]
  | other => serde_text other
  end.

(** Numbers are 64-bit integers. *)
Fixpoint float_free (v : value) : bool :=
  match v with
  | VNumber (Float _) => false
  | VArray a => forallb float_free a
  | VObject o => forallb (fun kv => float_free kv.2) o
  | _ => true
  end.

(** [serde_json::to_vec_pretty], which reads back with a newline after it. *)
Class PrettyCrate := { to_vec_pretty : value -> bytes }.
Class PrettyReads `{JsonCrates} `{PrettyCrate} := {
  pretty_reads_back v : value_wf v = true -> float_free v = true -> json_from_slice (to_vec_pretty v ++ as_bytes NL) = Some v;
}.

(** What ends an element. *)
Definition is_stop (c : ascii) : bool := bool_decide (c ∈ [","%char; "]"%char; "}"%char]).
Definition stops (x : bytes) : Prop := forall c, head x = Some c -> is_stop c = true.

(** ** Delimited texts *)

Lemma span_inj (p : ascii -> bool) l l' x y :
  Forall (fun c => p c = true) l -> Forall (fun c => p c = true) l' ->
  (forall c, head x = Some c -> p c = false) -> (forall c, head y = Some c -> p c = false) ->
  l ++ x = l' ++ y -> l = l' /\ x = y.
Proof.
  intros Hl. revert l'. induction Hl as [|a l Ha Hl IH]; intros l' Hl' Hx Hy H.
  - destruct l' as [|b l']; [by split|]. apply Forall_cons in Hl' as [Hb _]. simpl in H.
    specialize (Hx b). rewrite H in Hx. specialize (Hx eq_refl). congruence.
  - destruct Hl' as [|b l' Hb Hl'].
    + specialize (Hy a). simpl in H. rewrite <- H in Hy. specialize (Hy eq_refl). congruence.
    + injection H as -> H. by destruct (IH l' Hl' Hx Hy H) as [-> ->].
Qed.

Section Items.
Context {A : Type} (enc : A -> bytes) (ok : A -> Prop) (close : ascii).
Hypothesis close_stop : is_stop close = true.
Hypothesis close_comma : close <> ","%char.
Hypothesis enc_head : forall a, ok a -> exists c r, enc a = c :: r /\ is_stop c = false.

(** The text of [a] can be told from that of any other element. *)
Definition delimited (a : A) : Prop :=
  forall b x y, ok b -> stops x -> stops y -> enc a ++ x = enc b ++ y -> a = b /\ x = y.

(** What follows an element. *)
Definition rest (l : list A) (x : bytes) : bytes :=
  match l with [] => close :: x | _ => ","%char :: comma_separated (map enc l) ++ close :: x end.

Lemma comma_rest a l x : comma_separated (map enc (a :: l)) ++ close :: x = enc a ++ rest l x.
Proof. destruct l; simpl; [done|]. by rewrite <- app_assoc. Qed.

Lemma rest_stops l x : stops (rest l x).
Proof. intros c. destruct l; simpl; by intros [= <-]. Qed.

Lemma items_inj l l' x y : Forall ok l -> Forall ok l' -> Forall delimited l ->
  comma_separated (map enc l) ++ close :: x = comma_separated (map enc l') ++ close :: y -> l = l' /\ x = y.
Proof.
  intros Hok Hok' Hd. revert l' Hok'.
  assert (Hne : forall a l z w, ok a -> close :: z = comma_separated (map enc (a :: l)) ++ close :: w -> False).
  { intros a k z w Ha H. rewrite comma_rest in H. destruct (enc_head a Ha) as (c & r & He & Hc).
    rewrite He in H. injection H as -> _. congruence. }
  induction Hd as [|a l Ha Hd IH]; intros l' Hok' H.
  - destruct Hok' as [|b l' Hb _]; [by injection H as ->|]. by apply Hne in H.
  - apply Forall_cons in Hok as [Hoka Hok]. destruct Hok' as [|b l' Hb Hok'].
    { symmetry in H. by apply Hne in H. }
    rewrite !comma_rest in H. apply Ha in H as [-> H]; [|done|apply rest_stops..].
    destruct l as [|a' l], l' as [|b' l']; simpl in H.
    + by injection H as ->.
    + by injection H as H _.
    + injection H as H _. by symmetry in H.
    + injection H as H. by destruct (IH Hok _ Hok' H) as [-> ->].
Qed.
End Items.

(** ** The text determines the value *)

Section Injective.
Context {ST : SerdeText} {SL : SerdeTextLaws}.

(** What the first byte of a value's text tells. *)
Definition kind_of_char (c : ascii) : nat :=
  if bool_decide (c = "n"%char) then 0
  else if bool_decide (c ∈ ["t"%char; "f"%char]) then 1
  else if is_ascii_digit c || bool_decide (c = "-"%char) then 2
  else if bool_decide (c = quote) then 3
  else if bool_decide (c = "["%char) then 4
  else if bool_decide (c = "{"%char) then 5
  else 6.
Definition kind_of (v : value) : nat :=
  match v with
  | VNull => 0 | VBool _ => 1 | VNumber _ => 2 | VString _ => 3 | VArray _ => 4 | VObject _ => 5
  end.

Definition integer_char (c : ascii) : bool := is_ascii_digit c || bool_decide (c = "-"%char).

Lemma pretty_integer (z : Z) : Forall (fun c => integer_char c = true) (as_bytes (pretty z)).
Proof.
  apply Forall_forall. intros c Hc. unfold integer_char.
  apply pretty_Z_chars in Hc as [Hd| ->]; [by rewrite Hd|done].
Qed.

Lemma pretty_Z_nonempty (z : Z) : exists c r, as_bytes (pretty z) = c :: r.
Proof.
  destruct (as_bytes (pretty z)) as [|c r] eqn:H; [|eauto]. exfalso.
  assert (Hz : pretty z = "") by (by rewrite <- (from_as_bytes (pretty z)), H).
  destruct z as [|p|p]; [done| |done]. change (pretty_N_go (Npos p) "" = "") in Hz. revert Hz.
  rewrite pretty_N_go_step by lia. by apply pretty_N_go_nonempty.
Qed.

Lemma kind_integer c : integer_char c = true -> kind_of_char c = 2.
Proof.
  intros H. unfold kind_of_char. fold (integer_char c). rewrite H.
  rewrite !bool_decide_false; [done|..].
  - by intros [->|[->|?%elem_of_nil]%elem_of_cons]%elem_of_cons.
  - by intros ->.
Qed.

Lemma canonical_head v : float_free v = true ->
  exists c r, canonical_json v = c :: r /\ kind_of_char c = kind_of v.
Proof.
  destruct v as [|b|n|s|a|o]; intros Hf; cbn [canonical_json kind_of].
  - rewrite serde_null. by do 2 eexists.
  - rewrite serde_bool. by destruct b; do 2 eexists.
  - assert (Hn : exists z : Z, serde_text (VNumber n) = as_bytes (pretty z)).
    { destruct n; [rewrite serde_pos_int|rewrite serde_neg_int|done]; eauto. }
    destruct Hn as [z ->]. pose proof (pretty_integer z) as Hi.
    destruct (pretty_Z_nonempty z) as (c & r & Hc). rewrite Hc in Hi |- *.
    apply Forall_cons in Hi as [Hi _]. do 2 eexists. split; [done|]. by apply kind_integer.
  - destruct (serde_string_quoted s) as [r ->]. by do 2 eexists.
  - by do 2 eexists.
  - by do 2 eexists.
Qed.

Lemma kind_not_stop c v : kind_of_char c = kind_of v -> is_stop c = false.
Proof.
  intros H. apply bool_decide_eq_false. intros Hc.
  repeat (apply elem_of_cons in Hc as [->|Hc]; [by destruct v|]). by apply elem_of_nil in Hc.
Qed.

Lemma stops_not_integer x c : stops x -> head x = Some c -> integer_char c = false.
Proof.
  intros Hx Hc. apply Hx in Hc. unfold is_stop in Hc. apply bool_decide_eq_true in Hc.
  repeat (apply elem_of_cons in Hc as [->|Hc]; [done|]). by apply elem_of_nil in Hc.
Qed.

Definition plain (v : value) : Prop := value_wf v = true /\ float_free v = true.

Lemma forallb_Forall {A} (f : A -> bool) l : forallb f l = true <-> Forall (fun x => f x = true) l.
Proof. rewrite forallb_forall, Forall_forall. by setoid_rewrite list_elem_of_In. Qed.

Lemma plain_array a : plain (VArray a) <-> Forall plain a.
Proof. unfold plain. simpl. by rewrite !forallb_Forall, Forall_and. Qed.

Lemma plain_object o : plain (VObject o) -> Forall (fun kv => plain kv.2) o.
Proof.
  unfold plain. simpl. rewrite andb_true_iff, !forallb_Forall. intros [[_ Hw] Hf]. by apply Forall_and.
Qed.

Definition member_text (kv : string * value) : bytes :=
  serde_text (VString kv.1) ++ ":"%char :: canonical_json kv.2.

Lemma member_head kv : exists c r, member_text kv = c :: r /\ is_stop c = false.
Proof. unfold member_text. destruct (serde_string_quoted kv.1) as [r ->]. by do 2 eexists. Qed.

Lemma plain_head v : plain v -> exists c r, canonical_json v = c :: r /\ is_stop c = false.
Proof.
  intros [_ Hf]. destruct (canonical_head v Hf) as (c & r & ? & Hk). exists c, r. split; [done|]. by eapply kind_not_stop.
Qed.

Lemma number_text_inj n n' x y : plain (VNumber n) -> plain (VNumber n') -> stops x -> stops y ->
  serde_text (VNumber n) ++ x = serde_text (VNumber n') ++ y -> n = n' /\ x = y.
Proof.
  intros [Hw Hf] [Hw' Hf'] Hx Hy H.
  assert (Hn : forall m, float_free (VNumber m) = true -> number_wf m = true -> exists z : Z,
    serde_text (VNumber m) = as_bytes (pretty z) /\ m = if (z <? 0)%Z then NegInt z else PosInt z).
  { intros [z|z|] Hff Hm; [| |done]; exists z; rewrite ?serde_pos_int, ?serde_neg_int; (split; [done|]); simpl in Hm.
    - unfold in_u64 in Hm. by destruct (Z.ltb_spec z 0); [lia|].
    - by destruct (Z.ltb_spec z 0); [|lia]. }
  destruct (Hn n Hf Hw) as (z & Hz & ->), (Hn n' Hf' Hw') as (z' & Hz' & ->). rewrite Hz, Hz' in H.
  apply (span_inj integer_char) in H as [H ->]; [|apply pretty_integer|apply pretty_integer|
    intros c; by apply stops_not_integer|intros c; by apply stops_not_integer].
  by apply (inj as_bytes), (inj pretty) in H as ->.
Qed.

(** The text of a value can be told from that of any other, followed by a
    comma, a closing bracket or the end. *)
Lemma canonical_json_delimited v : plain v -> delimited canonical_json plain v.
Proof.
  induction v as [|b|n|s|a IH|o IH] using value_ind; intros Hv w x y Hw Hx Hy H.
  all: destruct (canonical_head _ (proj2 Hv)) as (c & r & Hc & Hk);
    destruct (canonical_head w (proj2 Hw)) as (c' & r' & Hc' & Hk');
    assert (Heq : c = c') by (rewrite Hc, Hc' in H; by injection H as ->); rewrite Heq, Hk' in Hk; clear Heq Hc Hc' Hk';
    destruct w as [|b'|n'|s'|a'|o']; try discriminate Hk; clear Hk c r c' r'; cbn [canonical_json] in H.
  - by apply app_inv_head in H.
  - rewrite !serde_bool in H. destruct b, b'; try discriminate H; by apply app_inv_head in H.
  - by destruct (number_text_inj _ _ _ _ Hv Hw Hx Hy H) as [-> ->].
  - by apply serde_string_delimited in H as [-> ->].
  - injection H as H. rewrite <- !app_assoc in H.
    rewrite plain_array in Hv, Hw.
    apply (items_inj canonical_json plain "]"%char) in H as [-> ->]; [done|done|done|apply plain_head|done|done|].
    clear -SL IH Hv. induction IH; constructor; inversion Hv; subst; auto.
  - injection H as H. rewrite <- !app_assoc in H.
    apply (items_inj member_text (fun kv => plain kv.2) "}"%char) in H as [-> ->]; [done|done|done| | | |].
    + intros kv _. apply member_head.
    + by apply plain_object.
    + by apply plain_object.
    + apply plain_object in Hv. clear -SL IH Hv. induction IH as [|[k v] o Hd _ IHo]; constructor; inversion Hv; subst; auto.
      intros [k' v'] x y Hok Hx Hy H. unfold member_text in H. cbn [fst snd] in *. rewrite <- !app_assoc in H.
      apply serde_string_delimited in H as [-> H]. injection H as H.
      by apply Hd in H as [-> ->].
Qed.

Lemma canonical_json_inj v w : plain v -> plain w -> canonical_json v = canonical_json w -> v = w.
Proof.
  intros Hv Hw H. apply (canonical_json_delimited v Hv w [] []); [done|done|done|]. by rewrite !app_nil_r.
Qed.
End Injective.

(** *** A concrete text: strings in hexadecimal, between quotes *)

Module ToySerde.
#[export] Instance toy_serde : SerdeText := {|
  serde_text v :=
    match v with
    | VNull => as_bytes "null"
    | VBool b => as_bytes (if b then "true" else "false")
    | VNumber (PosInt n) | VNumber (NegInt n) => as_bytes (pretty n)
    | VString s => quote :: as_bytes (hex_lower (as_bytes s)) ++ [quote]
    | _ => []
    end;
|}.

#[export] Instance toy_serde_laws : SerdeTextLaws.
Proof.
  constructor; try done.
  - intros s. by eexists.
  - intros s t x y H. cbn [serde_text toy_serde] in H. injection H as H. rewrite <- !app_assoc in H. cbn [app] in H.
    assert (Hq : forall u, quote ∉ as_bytes (hex_lower (as_bytes u))) by (by intros u Hc%hex_lower_chars).
    apply sep_inj in H as [H ->]; [|by apply Hq..].
    by apply (inj as_bytes), hex_lower_inj, (inj as_bytes) in H as ->.
Qed.
End ToySerde.
