(* ===== verification/Decisions.v ===== *)
(** * The decision ledger ([cloakpipe-ledger/src]: [decision.rs], [epoch.rs],
    [gate_key.rs], [store.rs])

    Decision entries chained and signed as they are appended, epoch heads
    that seal ranges of them, and the two tables of the ledger database that
    hold them.  An SQLite transaction is one step; a panic is [None]. *)

From stdpp Require Import countable.
From S2P Require Import Prelude BTree Json Crates Concrete Action Ledger CanonicalJson.

(** ** Entries *)

Definition DECISION_KIND : string := "cloakpipe.decision/v1".
Definition DECISION_HASH_DOMAIN : string := "cloakpipe.decision.v1".
Definition GENESIS : string := "0000000000000000000000000000000000000000000000000000000000000000".

Inductive Decision := Allow | Deny | RequireApproval.
Inductive Mode := Enforce | Shadow.
Inductive Outcome := Committed | Failed | OutcomeUnknown.
Inductive Event := Call | Replay | OutcomeEvent | Reconcile.

(** [#\[serde(rename_all = "snake_case")\]] *)
Definition decision_text (d : Decision) : string :=
  match d with Allow => "allow" | Deny => "deny" | RequireApproval => "require_approval" end.
Definition mode_text (m : Mode) : string := match m with Enforce => "enforce" | Shadow => "shadow" end.
Definition outcome_text (o : Outcome) : string :=
  match o with Committed => "committed" | Failed => "failed" | OutcomeUnknown => "unknown" end.
Definition event_text (e : Event) : string :=
  match e with Call => "call" | Replay => "replay" | OutcomeEvent => "outcome" | Reconcile => "reconcile" end.

Record DecisionDraft := mkDecisionDraft {
  d_ts : option Z;
  d_event : Event;
  d_release : option string;
  d_tool : option string;
  d_args_fingerprint : option string;
  d_decision : Decision;
  d_reason : string;
  d_path : option string;
  d_policy_version : option string;
  d_policy_digest : option string;
  d_mode : option Mode;
  d_task_id : option string;
  d_operation_id : option string;
  d_approval : option string;
  d_outcome : option Outcome;
  d_forwarded : bool;
  d_tools_lock : option string;
}.

Definition new_draft (event : Event) (reason : string) : DecisionDraft :=
  {| d_ts := None; d_event := event; d_release := None; d_tool := None; d_args_fingerprint := None;
     d_decision := Allow; d_reason := reason; d_path := None; d_policy_version := None; d_policy_digest := None;
     d_mode := None; d_task_id := None; d_operation_id := None; d_approval := None; d_outcome := None;
     d_forwarded := false; d_tools_lock := None |}.
Definition draft_call : DecisionDraft := new_draft Call "ok".
Definition draft_outcome : DecisionDraft := new_draft OutcomeEvent "ok".
Definition draft_reconcile : DecisionDraft := new_draft Reconcile "reconciled".

Record DecisionEntry := mkDecisionEntry {
  kind : string;
  seq : Z;
  ts : string;
  event : Event;
  release : option string;
  tool : option string;
  args_fingerprint : option string;
  decision : Decision;
  reason : string;
  path : option string;
  policy_version : option string;
  policy_digest : option string;
  mode : option Mode;
  task_id : option string;
  operation_id : option string;
  approval : option string;
  outcome : option Outcome;
  forwarded : bool;
  tools_lock : option string;
  signer : string;
  prev_hash : string;
  entry_hash : string;
  sig : string;
}.

(** [Option]'s JSON: the value or [null]. *)
Definition opt_value {A} (f : A -> string) (o : option A) : value :=
  match o with Some a => VString (f a) | None => VNull end.

(** [serde_json::to_value]: every member, in the order of the struct;
    [tools_lock] only when it is set. *)
Definition entry_members (e : DecisionEntry) : list (string * value) :=
  [("kind", VString (kind e)); ("seq", VNumber (PosInt (seq e))); ("ts", VString (ts e));
   ("event", VString (event_text (event e))); ("release", opt_value id (release e)); ("tool", opt_value id (tool e));
   ("args_fingerprint", opt_value id (args_fingerprint e)); ("decision", VString (decision_text (decision e)));
   ("reason", VString (reason e)); ("path", opt_value id (path e)); ("policy_version", opt_value id (policy_version e));
   ("policy_digest", opt_value id (policy_digest e)); ("mode", opt_value mode_text (mode e));
   ("task_id", opt_value id (task_id e)); ("operation_id", opt_value id (operation_id e));
   ("approval", opt_value id (approval e)); ("outcome", opt_value outcome_text (outcome e));
   ("forwarded", VBool (forwarded e))]
  ++ match tools_lock e with Some l => [("tools_lock", VString l)] | None => [] end
  ++ [("signer", VString (signer e)); ("prev_hash", VString (prev_hash e));
      ("entry_hash", VString (entry_hash e)); ("sig", VString (sig e))].
Definition entry_value (e : DecisionEntry) : value := VObject (BTree.of_list (entry_members e)).

Definition set_entry_hash (h : string) (e : DecisionEntry) : DecisionEntry :=
  mkDecisionEntry (kind e) (seq e) (ts e) (event e) (release e) (tool e) (args_fingerprint e) (decision e)
    (reason e) (path e) (policy_version e) (policy_digest e) (mode e) (task_id e) (operation_id e) (approval e)
    (outcome e) (forwarded e) (tools_lock e) (signer e) (prev_hash e) h (sig e).
Definition set_sig (s : string) (e : DecisionEntry) : DecisionEntry :=
  mkDecisionEntry (kind e) (seq e) (ts e) (event e) (release e) (tool e) (args_fingerprint e) (decision e)
    (reason e) (path e) (policy_version e) (policy_digest e) (mode e) (task_id e) (operation_id e) (approval e)
    (outcome e) (forwarded e) (tools_lock e) (signer e) (prev_hash e) (entry_hash e) s.

(** What a hash covers: every member except the hash itself and [sig]. *)
Definition covered (hash_member : string) (v : value) : value :=
  match v with
  | VObject o => VObject (BTree.remove "sig" (BTree.remove hash_member o))
  | other => other
  end.

Section Hashes.
Context {ST : SerdeText} {HC : HashCrates}.

Definition domain_text (domain : string) (v : value) : bytes := as_bytes (domain +:+ NL) ++ canonical_json v.
Definition domain_hash (domain : string) (v : value) : bytes := sha256 (domain_text domain v).

(** The text an entry's hash is of. *)
Definition entry_hash_text (entry : value) : bytes := domain_text DECISION_HASH_DOMAIN (covered "entry_hash" entry).
Definition entry_hash_of (entry : value) : bytes := domain_hash DECISION_HASH_DOMAIN (covered "entry_hash" entry).

Definition compute_hash (e : DecisionEntry) : string := hex_encode (entry_hash_of (entry_value e)).

(** [now] is [Utc::now()], used when the draft has no time. *)
Definition link {CK : ClockCrate} (now : Z) (draft : DecisionDraft) (seq : Z) (prev_hash signer : string) : DecisionEntry :=
  let entry := {|
    kind := DECISION_KIND;
    seq := seq;
    ts := to_rfc3339_secs (default now (d_ts draft));
    event := d_event draft;
    release := d_release draft;
    tool := d_tool draft;
    args_fingerprint := d_args_fingerprint draft;
    decision := d_decision draft;
    reason := d_reason draft;
    path := d_path draft;
    policy_version := match d_policy_version draft with Some v => Some v | None => d_release draft end;
    policy_digest := d_policy_digest draft;
    mode := d_mode draft;
    task_id := d_task_id draft;
    operation_id := d_operation_id draft;
    approval := d_approval draft;
    outcome := d_outcome draft;
    forwarded := d_forwarded draft;
    tools_lock := d_tools_lock draft;
    signer := signer;
    prev_hash := prev_hash;
    entry_hash := "";
    sig := "" |} in
  set_entry_hash (compute_hash entry) entry.
End Hashes.

(** ** Epoch heads *)

Definition EPOCH_KIND : string := "cloakpipe.epoch/v1".
Definition EPOCH_HASH_DOMAIN : string := "cloakpipe.epoch.v1".
Definition EPOCH_GENESIS : string := GENESIS.

Record EpochHead := mkEpochHead {
  h_kind : string;
  epoch : Z;
  first_seq : Z;
  last_seq : Z;
  entries_head : string;
  prev_epoch : string;
  sealed_at : string;
  h_signer : string;
  epoch_hash : string;
  h_sig : string;
}.

Definition head_value (h : EpochHead) : value :=
  VObject (BTree.of_list
    [("kind", VString (h_kind h)); ("epoch", VNumber (PosInt (epoch h)));
     ("first_seq", VNumber (PosInt (first_seq h))); ("last_seq", VNumber (PosInt (last_seq h)));
     ("entries_head", VString (entries_head h)); ("prev_epoch", VString (prev_epoch h));
     ("sealed_at", VString (sealed_at h)); ("signer", VString (h_signer h));
     ("epoch_hash", VString (epoch_hash h)); ("sig", VString (h_sig h))]).

Definition set_head_hashes (hash s : string) (h : EpochHead) : EpochHead :=
  mkEpochHead (h_kind h) (epoch h) (first_seq h) (last_seq h) (entries_head h) (prev_epoch h) (sealed_at h)
    (h_signer h) hash s.

(** A receipt from an external anchor. *)
Inductive ExternalReceipt :=
| Rfc3161 (batch_id subject_hash tsa_url nonce tsr : string)
| Rekor (batch_id subject_hash rekor_url entry_uuid : string) (entry : value).

Definition receipt_kind (r : ExternalReceipt) : string :=
  match r with Rfc3161 _ _ _ _ _ => "rfc3161" | Rekor _ _ _ _ _ => "rekor" end.

Record StoredEpoch := mkStoredEpoch {
  stored_head : EpochHead;
  anchors : list ExternalReceipt;
  stored_error : option string;
}.

Definition kinds (e : StoredEpoch) : list string := sort_dedup (map receipt_kind (anchors e)).

Section EpochHashes.
Context {ST : SerdeText} {HC : HashCrates}.

Definition epoch_hash_text (head : value) : bytes := domain_text EPOCH_HASH_DOMAIN (covered "epoch_hash" head).
Definition epoch_hash_of (head : value) : bytes := domain_hash EPOCH_HASH_DOMAIN (covered "epoch_hash" head).
Definition compute_epoch_hash (h : EpochHead) : string := hex_encode (epoch_hash_of (head_value h)).

(** The bytes anchored externally. *)
Definition artifact (h : EpochHead) : bytes := canonical_json (head_value h).
End EpochHashes.

(** ** The gate signing key *)

Definition ARGS_FINGERPRINT_DOMAIN : string := "cloakpipe.args-fingerprint.v1".

Module GateKey.
Section GateKey.
Context {SC : SignatureCrates} {HC : HashCrates}.

Definition from_seed (seed : bytes) : SigningKey := signing_key_from_bytes seed.
Definition public_key (k : SigningKey) : bytes := verifying_key k.
Definition public_hex (k : SigningKey) : string := hex_encode (public_key k).
Definition keyid (k : SigningKey) : string :=
  "ed25519:" +:+ from_bytes (take 16 (as_bytes (hex_encode (sha256 (public_key k))))).
Definition sign (k : SigningKey) (message : bytes) : bytes := ed25519_sign k message.

Definition args_fingerprint (k : SigningKey) (fingerprint : bytes) : string :=
  let derived := sha256 (as_bytes ARGS_FINGERPRINT_DOMAIN ++ as_bytes NL ++ signing_key_to_bytes k) in
  "hmac-sha256:" +:+ hex_encode (hmac_sha256 derived fingerprint).
End GateKey.
End GateKey.

(** ** The store *)

(** [i64] and [u64] casts. *)
Definition as_i64 (n : Z) : Z := if (n <=? I64_MAX)%Z then n else (n - 2^64)%Z.
Definition as_u64 (n : Z) : Z := if (n <? 0)%Z then (n + 2^64)%Z else n.

(** [n as u64 + 1], which wraps in a release build. *)
Definition succ_u64 (n : Z) : Z := ((as_u64 n + 1) mod 2^64)%Z.

(** [decode_hex_32]: [Some None] is its [None]; slicing inside a character
    panics. *)
Fixpoint decode_pairs (b : bytes) : option (option bytes) :=
  match b with
  | [] => Some (Some [])
  | [_] => Some None
  | x :: y :: b' =>
      if match b' with c :: _ => is_continuation c | [] => false end then None
      else
        match hex_pair_value x y with
        | None => Some None
        | Some c => option_map (fun r => option_map (cons c) r) (decode_pairs b')
        end
  end.
Definition decode_hex_32 (s : string) : option (option bytes) :=
  if decide (length (as_bytes s) = 64) then decode_pairs (as_bytes s) else Some None.

(** The errors of the store, without their messages. *)
Inductive StoreError :=
| Sqlite
| JsonError
| SeqOutOfOrder (expected : Z)
| PrevHashMismatch
| RecordHashMismatch
| CorruptDecision (seq : Z)
| CorruptEpoch (epoch : Z)
| NoEpoch (epoch : Z).

(** The derived [serde] text of stored values. *)
Class StoreText := {
  entry_to_json : DecisionEntry -> string;
  entry_from_json : string -> option DecisionEntry;
  head_to_json : EpochHead -> string;
  head_from_json : string -> option EpochHead;
  receipts_to_json : list ExternalReceipt -> string;
  receipts_from_json : string -> option (list ExternalReceipt);
}.

(** Values in range read back as they were written. *)
Class StoreTextLaws `{StoreText} := {
  entry_json_round_trip e : in_u64 (seq e) = true -> entry_from_json (entry_to_json e) = Some e;
  head_json_round_trip h : in_u64 (epoch h) && in_u64 (first_seq h) && in_u64 (last_seq h) = true ->
    head_from_json (head_to_json h) = Some h;
  receipts_json_round_trip l :
    forallb (fun r => match r with Rekor _ _ _ _ v => value_wf v && float_free v | _ => true end) l = true ->
    receipts_from_json (receipts_to_json l) = Some l;
  receipts_json_empty : receipts_from_json "[]" = Some [];
}.

(** Rows of the tables [decisions] and [epochs]; the first column is the
    primary key. *)
Record DecisionRow := mkDecisionRow {
  row_seq : Z;
  row_entry_hash : string;
  row_prev_hash : string;
  entry_json : string;
}.
Record EpochRow := mkEpochRow {
  row_epoch : Z;
  row_first_seq : Z;
  row_last_seq : Z;
  epoch_json : string;
  anchors_json : string;
  last_error : option string;
}.
Record LedgerStore := mkLedgerStore {
  decision_rows : list DecisionRow;
  epoch_rows : list EpochRow;
}.

(** [INSERT]: a constraint violation if the key is there. *)
Definition insert_row {A} (key : A -> Z) (row : A) (t : list A) : result StoreError (list A) :=
  if existsb (fun r => (key r =? key row)%Z) t then Err Sqlite else Ok (t ++ [row]).

(** [ORDER BY key DESC LIMIT 1] *)
Fixpoint max_by {A} (key : A -> Z) (t : list A) : option A :=
  match t with
  | [] => None
  | x :: t =>
      match max_by key t with
      | Some y => if (key x <? key y)%Z then Some y else Some x
      | None => Some x
      end
  end.

(** [ORDER BY key ASC] *)
Fixpoint insert_by {A} (key : A -> Z) (x : A) (l : list A) : list A :=
  match l with
  | [] => [x]
  | y :: l' => if (key x <=? key y)%Z then x :: l else y :: insert_by key x l'
  end.
Definition order_by {A} (key : A -> Z) (t : list A) : list A := foldr (insert_by key) [] t.

Fixpoint take_while {A} (p : A -> bool) (l : list A) : list A :=
  match l with [] => [] | x :: l => if p x then x :: take_while p l else [] end.

Section Store.
Context {ST : SerdeText} {TX : StoreText} {CK : ClockCrate} {SC : SignatureCrates} {HC : HashCrates}.

(** The entry appended and the store after it. *)
Definition append_decision (now : Z) (draft : DecisionDraft) (key : SigningKey) (st : LedgerStore) :
    option (result StoreError (DecisionEntry * LedgerStore)) :=
  let (seq, prev) :=
    match max_by row_seq (decision_rows st) with
    | Some row => (succ_u64 (row_seq row), row_entry_hash row)
    | None => (0%Z, GENESIS)
    end in
  let entry := link now draft seq prev (GateKey.keyid key) in
  match decode_hex_32 (entry_hash entry) with
  | Some (Some digest) =>
      let entry := set_sig (hex_lower (GateKey.sign key digest)) entry in
      Some
        (let? rows := insert_row row_seq
           (mkDecisionRow (as_i64 seq) (entry_hash entry) (prev_hash entry) (entry_to_json entry)) (decision_rows st) in
         Ok (entry, mkLedgerStore rows (epoch_rows st)))
  | _ => None
  end.

Definition decisions_from (seq : Z) (st : LedgerStore) : result StoreError (list DecisionEntry) :=
  try_map (fun row => ok_or (entry_from_json (entry_json row)) (CorruptDecision (as_u64 (row_seq row))))
    (order_by row_seq (filter (fun row => (as_i64 seq <=? row_seq row)%Z = true) (decision_rows st))).

Definition decisions (st : LedgerStore) : result StoreError (list DecisionEntry) := decisions_from 0 st.

Definition decision_head_seq (st : LedgerStore) : option Z :=
  (fun row => as_u64 (row_seq row)) <$> max_by row_seq (decision_rows st).

Definition decisions_between (first last : Z) (st : LedgerStore) : result StoreError (list DecisionEntry) :=
  let? es := decisions_from first st in Ok (take_while (fun e => (seq e <=? last)%Z) es).

(** [SELECT MAX(last_seq) FROM epochs] *)
Definition next_unsealed_seq (st : LedgerStore) : Z :=
  match max_by row_last_seq (epoch_rows st) with Some row => succ_u64 (row_last_seq row) | None => 0%Z end.

(** The epoch sealed, if there was anything new, and the store after it. *)
Definition seal_epoch (key : SigningKey) (now : Z) (st : LedgerStore) :
    option (result StoreError (option EpochHead * LedgerStore)) :=
  let next : result StoreError (Z * Z * string) :=
    match max_by row_epoch (epoch_rows st) with
    | None => Ok (0%Z, 0%Z, EPOCH_GENESIS)
    | Some row =>
        let! head := head_from_json (epoch_json row) else Err (CorruptEpoch (as_u64 (row_epoch row))) in
        Ok (succ_u64 (row_epoch row), succ_u64 (row_last_seq row), epoch_hash head)
    end in
  match next with
  | Err e => Some (Err e)
  | Ok (epoch, first_seq, prev_epoch) =>
      match max_by row_seq (decision_rows st) with
      | Some tail =>
          if (first_seq <=? as_u64 (row_seq tail))%Z then
            let head := mkEpochHead EPOCH_KIND epoch first_seq (as_u64 (row_seq tail)) (row_entry_hash tail) prev_epoch
              (to_rfc3339_secs now) (GateKey.keyid key) "" "" in
            let hash := compute_epoch_hash head in
            match decode_hex_32 hash with
            | Some (Some digest) =>
                let head := set_head_hashes hash (hex_lower (GateKey.sign key digest)) head in
                Some
                  (let? rows := insert_row row_epoch
                     (mkEpochRow (as_i64 epoch) (as_i64 first_seq) (row_seq tail) (head_to_json head) "[]" None)
                     (epoch_rows st) in
                   Ok (Some head, mkLedgerStore (decision_rows st) rows))
            | _ => None
            end
          else Some (Ok (None, st))
      | None => Some (Ok (None, st))
      end
  end.

Definition epochs (st : LedgerStore) : result StoreError (list StoredEpoch) :=
  try_map (fun row =>
    let corrupt := CorruptEpoch (as_u64 (row_epoch row)) in
    let? head := ok_or (head_from_json (epoch_json row)) corrupt in
    let? anchors := ok_or (receipts_from_json (anchors_json row)) corrupt in
    Ok (mkStoredEpoch head anchors (last_error row))) (order_by row_epoch (epoch_rows st)).

(** A receipt of a kind held already is dropped. *)
Fixpoint add_receipts (anchors receipts : list ExternalReceipt) : list ExternalReceipt :=
  match receipts with
  | [] => anchors
  | r :: receipts =>
      if existsb (fun a => bool_decide (receipt_kind a = receipt_kind r)) anchors
      then add_receipts anchors receipts
      else add_receipts (anchors ++ [r]) receipts
  end.

Definition set_anchors (epoch : Z) (anchors : string) (error : option string) (t : list EpochRow) : list EpochRow :=
  map (fun row => if (row_epoch row =? epoch)%Z
    then mkEpochRow (row_epoch row) (row_first_seq row) (row_last_seq row) (epoch_json row) anchors error
    else row) t.

Definition add_epoch_anchors (epoch : Z) (receipts : list ExternalReceipt) (error : option string) (st : LedgerStore) :
    result StoreError LedgerStore :=
  let! row := List.find (fun row => (row_epoch row =? as_i64 epoch)%Z) (epoch_rows st) else Err (NoEpoch epoch) in
  let! anchors := receipts_from_json (anchors_json row) else Err (CorruptEpoch epoch) in
  Ok (mkLedgerStore (decision_rows st)
        (set_anchors (as_i64 epoch) (receipts_to_json (add_receipts anchors receipts)) error (epoch_rows st))).
End Store.

(** ** What the ledger promises

    The abstract state of a ledger is its list of entries and its list of
    epoch heads. *)

Section Spec.
Context {ST : SerdeText} {TX : StoreText} {CK : ClockCrate} {SC : SignatureCrates} {HC : HashCrates}.

(** An entry signed by some gate key. *)
Definition entry_signed (e : DecisionEntry) : Prop :=
  exists k, signer e = GateKey.keyid k /\ sig e = hex_lower (GateKey.sign k (entry_hash_of (entry_value e))).

(** The entries continue a chain from sequence number [n] after [prev]. *)
Fixpoint chained (n : Z) (prev : string) (es : list DecisionEntry) : Prop :=
  match es with
  | [] => True
  | e :: es =>
      seq e = n /\ prev_hash e = prev /\ entry_hash e = compute_hash e /\ entry_signed e /\
      chained (n + 1) (entry_hash e) es
  end.

Definition head_signed (h : EpochHead) : Prop :=
  exists k, h_signer h = GateKey.keyid k /\ h_sig h = hex_lower (GateKey.sign k (epoch_hash_of (head_value h))).

(** The epochs from number [n] seal the entries from [first] on, without gap
    or overlap; each commits to its last entry and to the epoch before. *)
Fixpoint sealed (es : list DecisionEntry) (n first : Z) (prev : string) (hs : list EpochHead) : Prop :=
  match hs with
  | [] => (first <= Z.of_nat (length es))%Z
  | h :: hs =>
      epoch h = n /\ first_seq h = first /\ (0 <= first <= last_seq h)%Z /\
      (exists e, es !! Z.to_nat (last_seq h) = Some e /\ entries_head h = entry_hash e) /\
      prev_epoch h = prev /\ epoch_hash h = compute_epoch_hash h /\ head_signed h /\
      sealed es (n + 1) (last_seq h + 1) (epoch_hash h) hs
  end.

Definition row_of (e : DecisionEntry) : DecisionRow :=
  mkDecisionRow (seq e) (entry_hash e) (prev_hash e) (entry_to_json e).

(** An epoch's row; its anchors and last error change after it is sealed. *)
Definition row_of_head (row : EpochRow) (h : EpochHead) : Prop :=
  row_epoch row = epoch h /\ row_first_seq row = first_seq h /\ row_last_seq row = last_seq h /\
  epoch_json row = head_to_json h /\
  exists anchors, receipts_from_json (anchors_json row) = Some anchors.

Record ledger_ok (st : LedgerStore) (es : list DecisionEntry) (hs : list EpochHead) : Prop := {
  ok_rows : decision_rows st = map row_of es;
  ok_chain : chained 0 GENESIS es;
  ok_bound : (Z.of_nat (length es) <= I64_MAX + 1)%Z;
  ok_epoch_rows : Forall2 row_of_head (epoch_rows st) hs;
  ok_epochs : sealed es 0 0 EPOCH_GENESIS hs;
}.

(** The first entry no epoch covers. *)
Fixpoint sealed_up_to (first : Z) (hs : list EpochHead) : Z :=
  match hs with [] => first | h :: hs => sealed_up_to (last_seq h + 1) hs end.
End Spec.

(** ** Tables in key order *)

Section Tables.
Context {A : Type} (key : A -> Z).

Lemma max_by_snoc t x : Forall (fun y => (key y < key x)%Z) t -> max_by key (t ++ [x]) = Some x.
Proof.
  induction 1 as [|y t Hy _ IH]; [done|]. simpl. rewrite IH. by destruct (Z.ltb_spec (key y) (key x)); [|lia].
Qed.

Lemma insert_row_fresh t x : Forall (fun y => (key y < key x)%Z) t -> insert_row key x t = Ok (t ++ [x]).
Proof.
  intros Ht. unfold insert_row. replace (existsb _ t) with false; [done|]. symmetry.
  apply existsb_false. eapply Forall_impl; [exact Ht|]. simpl. intros y Hy. apply Z.eqb_neq. lia.
Qed.

Lemma order_by_sorted l : StronglySorted (fun x y => (key x <= key y)%Z) l -> order_by key l = l.
Proof.
  induction 1 as [|x l _ IH Hx]; [done|]. simpl. rewrite IH.
  destruct Hx as [|y l Hy _]; [done|]. simpl. by destruct (Z.leb_spec (key x) (key y)); [|lia].
Qed.
End Tables.

Lemma last_cons_default {A B} (f : A -> B) b x (l : list A) : default b (f <$> last (x :: l)) = default (f x) (f <$> last l).
Proof. destruct l as [|y l _] using rev_ind; [done|]. by rewrite app_comm_cons, !last_snoc. Qed.

(** ** Hexadecimal digests *)

Lemma decode_pairs_lower b : decode_pairs (as_bytes (hex_lower b)) = Some (Some b).
Proof.
  unfold hex_lower. rewrite as_from_bytes. induction b as [|c b IH]; [done|]. rewrite bind_cons.
  cbn [hex_byte app decode_pairs]. rewrite hex_pair_byte, IH. cbn [option_map].
  destruct b as [|d b]; [done|]. rewrite bind_cons. cbn [hex_byte app]. unfold is_continuation.
  pose proof (hex_digit_ascii d) as Hd. by destruct (Z.leb_spec 128 (byte_val (hex_digit (N_of_ascii d / 16)))); [lia|].
Qed.

Lemma decode_hex_encode `{HashLaws} b : length b = 32 -> decode_hex_32 (hex_encode b) = Some (Some b).
Proof.
  intros Hb. unfold decode_hex_32. rewrite hex_encode_is_lower, hex_lower_length, Hb.
  rewrite decide_True by done. apply decode_pairs_lower.
Qed.

(** ** What an entry's hash covers *)

Definition covered_members (e : DecisionEntry) : btree value :=
  [("approval", opt_value id (approval e)); ("args_fingerprint", opt_value id (args_fingerprint e));
   ("decision", VString (decision_text (decision e))); ("event", VString (event_text (event e)));
   ("forwarded", VBool (forwarded e)); ("kind", VString (kind e)); ("mode", opt_value mode_text (mode e));
   ("operation_id", opt_value id (operation_id e)); ("outcome", opt_value outcome_text (outcome e));
   ("path", opt_value id (path e)); ("policy_digest", opt_value id (policy_digest e));
   ("policy_version", opt_value id (policy_version e)); ("prev_hash", VString (prev_hash e));
   ("reason", VString (reason e)); ("release", opt_value id (release e)); ("seq", VNumber (PosInt (seq e)));
   ("signer", VString (signer e)); ("task_id", opt_value id (task_id e)); ("tool", opt_value id (tool e))]
  ++ match tools_lock e with Some l => [("tools_lock", VString l)] | None => [] end
  ++ [("ts", VString (ts e))].

Lemma covered_entry e : covered "entry_hash" (entry_value e) = VObject (covered_members e).
Proof. unfold covered_members, entry_value, entry_members. destruct (tools_lock e); vm_compute; reflexivity. Qed.

(** An entry without the members its hash leaves out. *)
Definition strip (e : DecisionEntry) : DecisionEntry := set_sig "" (set_entry_hash "" e).

Lemma opt_value_inj {A} (f : A -> string) `{!Inj (=) (=) f} a b : opt_value f a = opt_value f b -> a = b.
Proof. destruct a, b; simpl; intros [=]; [f_equal; by apply (inj f)|done]. Qed.

#[local] Instance decision_text_inj : Inj (=) (=) decision_text.
Proof. by intros [] []. Qed.
#[local] Instance mode_text_inj : Inj (=) (=) mode_text.
Proof. by intros [] []. Qed.
#[local] Instance outcome_text_inj : Inj (=) (=) outcome_text.
Proof. by intros [] []. Qed.
#[local] Instance event_text_inj : Inj (=) (=) event_text.
Proof. by intros [] []. Qed.

Lemma covered_members_inj e e' : covered_members e = covered_members e' -> strip e = strip e'.
Proof.
  destruct e, e'. unfold covered_members, strip, set_sig, set_entry_hash. cbn -[opt_value]. intros H.
  injection H. clear H. intros Hl. intros.
  repeat match goal with
  | H : opt_value _ _ = opt_value _ _ |- _ => apply opt_value_inj in H; [|apply _]
  | H : decision_text _ = _ |- _ => apply (inj decision_text) in H
  | H : event_text _ = _ |- _ => apply (inj event_text) in H
  end. subst.
  destruct tools_lock0, tools_lock1; cbn in Hl; injection Hl; intros; by subst.
Qed.

Lemma opt_value_plain {A} (f : A -> string) o : value_wf (opt_value f o) = true /\ float_free (opt_value f o) = true.
Proof. by destruct o. Qed.

Lemma covered_plain e : in_u64 (seq e) = true -> plain (VObject (covered_members e)).
Proof.
  intros Hs. unfold plain. cbn [value_wf float_free]. rewrite andb_true_iff, !forallb_Forall. split_and!.
  - unfold covered_members. destruct (tools_lock e); vm_compute; reflexivity.
  - unfold covered_members. destruct (tools_lock e); repeat constructor; try done; apply opt_value_plain.
  - unfold covered_members. destruct (tools_lock e); repeat constructor; try done; apply opt_value_plain.
Qed.

Lemma remove_elem {A} k (o : btree A) x : x ∈ BTree.remove k o -> x ∈ o.
Proof. induction o as [|[k' v] o IH]; simpl; [done|]. case_decide; set_solver. Qed.

Lemma covered_is_plain k v : plain v -> plain (covered k v).
Proof.
  destruct v as [| | | | |o]; try done. unfold plain. cbn [value_wf float_free covered].
  rewrite !andb_true_iff, !bool_decide_eq_true, !forallb_Forall, !Forall_forall. intros [[Hs Hw] Hf]. split_and!.
  - by apply BTree.wf_remove, BTree.wf_remove.
  - intros x Hx%remove_elem%remove_elem. by apply Hw.
  - intros x Hx%remove_elem%remove_elem. by apply Hf.
Qed.

(** ** Chains of entries *)

Section Chains.
Context {ST : SerdeText} {SL : SerdeTextLaws} {SC : SignatureCrates} {HC : HashCrates} {HL : HashLaws}.
Implicit Types (e : DecisionEntry) (es : list DecisionEntry).

Lemma chained_app n prev es es' :
  chained n prev (es ++ es') <->
  chained n prev es /\ chained (n + Z.of_nat (length es)) (default prev (entry_hash <$> last es)) es'.
Proof.
  revert n prev. induction es as [|e es IH]; intros n prev.
  - simpl. rewrite Z.add_0_r. naive_solver.
  - cbn [app chained length]. rewrite IH.
    replace (n + 1 + Z.of_nat (length es))%Z with (n + Z.of_nat (S (length es)))%Z by lia.
    rewrite last_cons_default.
    naive_solver.
Qed.

Lemma chained_lookup n prev es i e : chained n prev es -> es !! i = Some e -> seq e = (n + Z.of_nat i)%Z.
Proof.
  revert n prev i. induction es as [|e0 es IH]; intros n prev i; [done|]. intros (Hs & _ & _ & _ & Hes).
  destruct i as [|i]; simpl; [intros [= <-]; lia|]. intros Hi. rewrite (IH _ _ _ Hes Hi). lia.
Qed.

Lemma chained_bounds n prev es : chained n prev es -> Forall (fun e => (n <= seq e < n + Z.of_nat (length es))%Z) es.
Proof.
  intros Hc. apply Forall_lookup. intros i e Hi. rewrite (chained_lookup _ _ _ _ _ Hc Hi).
  apply lookup_lt_Some in Hi. lia.
Qed.

Lemma chained_sorted n prev es : chained n prev es -> StronglySorted (fun x y => (seq x <= seq y)%Z) es.
Proof.
  revert n prev. induction es as [|e es IH]; intros n prev; [constructor|]. intros (Hs & _ & _ & _ & Hes).
  constructor; [by eapply IH|]. eapply Forall_impl; [by eapply chained_bounds|]. simpl. lia.
Qed.

(** Two entries with the same hash agree on every member it covers. *)
Lemma entry_hash_binds e e' : in_u64 (seq e) = true -> in_u64 (seq e') = true ->
  compute_hash e = compute_hash e' ->
  strip e = strip e' \/ collision_among sha256 [entry_hash_text (entry_value e); entry_hash_text (entry_value e')].
Proof.
  intros Hs Hs' H%hex_encode_inj. apply (same_or_pair sha256) in H as [H|]; [left|by right].
  unfold domain_text in H. rewrite !covered_entry in H. apply app_inv_head, canonical_json_inj in H; [|by apply covered_plain..].
  apply covered_members_inj. congruence.
Qed.

Lemma compute_hash_strip e e' : strip e = strip e' -> compute_hash e = compute_hash e'.
Proof.
  intros H. unfold compute_hash, entry_hash_of. rewrite !covered_entry.
  change (covered_members e) with (covered_members (strip e)). by rewrite H.
Qed.

Lemma chained_bind n prev es es' : (0 <= n)%Z -> (n + Z.of_nat (length es) <= 2 ^ 64)%Z -> length es = length es' ->
  chained n prev es -> chained n prev es' ->
  default prev (entry_hash <$> last es) = default prev (entry_hash <$> last es') ->
  Forall2 (fun e e' => strip e = strip e' /\ entry_hash e = entry_hash e') es es' \/
  collision_among sha256 (map (entry_hash_text ∘ entry_value) (es ++ es')).
Proof.
  intros Hn. revert es'. induction es as [|e es IH] using rev_ind; intros es' Hb Hlen Hc Hc' Hh.
  { destruct es'; [by left; constructor|done]. }
  destruct es' as [|e' es' _] using rev_ind; [rewrite length_app in Hlen; simpl in Hlen; lia|].
  rewrite !length_app in *. simpl in Hlen, Hb. rewrite !last_snoc in Hh. simpl in Hh.
  apply chained_app in Hc as [Hc (Hs & Hp & He & _)], Hc' as [Hc' (Hs' & Hp' & He' & _)].
  assert (Hu : forall z, z = (n + Z.of_nat (length es))%Z -> in_u64 z = true).
  { intros z ->. unfold in_u64, U64_MAX. lia. }
  rewrite He, He' in Hh. destruct (entry_hash_binds e e') as [Hst|]; [by apply Hu|apply Hu; rewrite Hs'; lia|done| |right; eapply collision_among_mono; [|done]; rewrite !map_app; cbn [map compose]; set_solver].
  assert (Hpp : prev_hash e = prev_hash e') by (change (prev_hash (strip e) = prev_hash (strip e')); by rewrite Hst).
  rewrite Hp, Hp' in Hpp.
  destruct (IH es') as [Hall|]; [lia|lia|done..| |right; eapply collision_among_mono; [|done]; rewrite !map_app; set_solver].
  left. apply Forall2_app; [done|]. constructor; [|constructor]. split; [done|congruence].
Qed.
End Chains.

(** ** Appending *)

Section Append.
Context {ST : SerdeText} {TX : StoreText} {TL : StoreTextLaws} {CK : ClockCrate} {SC : SignatureCrates}
        {HC : HashCrates} {HL : HashLaws}.

Lemma set_sig_hash s e : compute_hash (set_sig s e) = compute_hash e /\ entry_hash_of (entry_value (set_sig s e)) = entry_hash_of (entry_value e).
Proof. unfold compute_hash, entry_hash_of. by rewrite !covered_entry. Qed.

Lemma set_entry_hash_hash h e : entry_hash_of (entry_value (set_entry_hash h e)) = entry_hash_of (entry_value e).
Proof. unfold entry_hash_of. by rewrite !covered_entry. Qed.

Lemma link_hash now d n prev k :
  entry_hash (link now d n prev k) = hex_encode (entry_hash_of (entry_value (link now d n prev k))).
Proof. unfold link at 2. rewrite set_entry_hash_hash. reflexivity. Qed.

Lemma link_chained now d n prev k :
  let e := link now d n prev (GateKey.keyid k) in
  chained n prev [set_sig (hex_lower (GateKey.sign k (entry_hash_of (entry_value e)))) e].
Proof.
  intros e. cbn [chained]. split; [done|]. split; [done|]. split; [|split; [|done]].
  - unfold compute_hash. rewrite (proj2 (set_sig_hash _ e)). apply link_hash.
  - exists k. split; [done|]. by rewrite (proj2 (set_sig_hash _ e)).
Qed.

(** The rows of entries whose numbers the table can hold. *)
Lemma ledger_keys st es hs : ledger_ok st es hs ->
  Forall (fun r => (row_seq r < Z.of_nat (length es))%Z) (decision_rows st).
Proof.
  intros [Hr Hc _ _ _]. rewrite Hr. apply Forall_fmap. eapply Forall_impl; [by eapply chained_bounds|]. simpl. lia.
Qed.

Lemma ledger_tail st es hs : ledger_ok st es hs ->
  max_by row_seq (decision_rows st) = row_of <$> last es /\
  (forall e, last es = Some e -> seq e = (Z.of_nat (length es) - 1)%Z).
Proof.
  intros [Hr Hc _ _ _]. rewrite Hr. destruct es as [|e es _] using rev_ind; [done|].
  apply chained_app in Hc as [Hc (Hs & _)]. rewrite last_snoc, map_app. split.
  - apply max_by_snoc. apply Forall_fmap. eapply Forall_impl; [by eapply chained_bounds|]. simpl. lia.
  - intros e' [= <-]. rewrite length_app. simpl. lia.
Qed.

Lemma sealed_more es es' n first prev hs : sealed es n first prev hs -> sealed (es ++ es') n first prev hs.
Proof.
  revert n first prev. induction hs as [|h hs IH]; intros n first prev; simpl; [rewrite length_app; lia|].
  intros (? & ? & [? ?] & (e & He & ?) & ? & ? & ? & ?). split_and!; try done; [|auto].
  exists e. split; [by apply lookup_app_l_Some|done].
Qed.

(** A typed entry of the chain is read back from its row. *)
Lemma read_rows (p : Z) n prev es : chained n prev es -> (0 <= n)%Z -> (n + Z.of_nat (length es) <= I64_MAX + 1)%Z ->
  try_map (fun row => ok_or (entry_from_json (entry_json row)) (CorruptDecision (as_u64 (row_seq row))))
    (order_by row_seq (filter (fun row => (p <=? row_seq row)%Z = true) (map row_of es))) =
  Ok (filter (fun e => (p <=? seq e)%Z = true) es).
Proof.
  intros Hc Hn Hb. pose proof (chained_sorted _ _ _ Hc) as Hsort. pose proof (chained_bounds _ _ _ Hc) as Hbd.
  assert (Hin : Forall (fun e => in_u64 (seq e) = true) es).
  { eapply Forall_impl; [exact Hbd|]. simpl. intros e He. unfold in_u64, U64_MAX, I64_MAX in *. lia. }
  clear Hc Hbd Hb. rewrite order_by_sorted.
  - clear Hsort. induction Hin as [|e es He _ IH]; [done|]. cbn [map]. rewrite !filter_cons. cbn [row_of row_seq].
    destruct (decide (_ = true)); [|done]. cbn [try_map]. cbn [row_of entry_json]. rewrite entry_json_round_trip by done.
    simpl. by rewrite IH.
  - clear Hin. induction Hsort as [|e es _ IH He]; [constructor|]. cbn [map]. rewrite filter_cons.
    case_decide; [|done]. constructor; [done|]. apply Forall_forall. intros r [_ Hr]%list_elem_of_filter.
    apply list_elem_of_fmap in Hr as (e' & -> & He'). rewrite Forall_forall in He. by apply He.
Qed.

Lemma read_all st es hs : ledger_ok st es hs -> decisions st = Ok es.
Proof.
  intros [Hr Hc Hb _ _]. unfold decisions, decisions_from. rewrite Hr, (read_rows _ 0 GENESIS) by (done || lia).
  f_equal. apply filter_all. apply chained_bounds in Hc. rewrite Forall_forall in Hc |- *.
  intros e He. apply Hc in He. change (as_i64 0) with 0%Z. lia.
Qed.

(** The next sequence number, in the range of the table. *)
Lemma next_seq st es hs : ledger_ok st es hs -> (Z.of_nat (length es) <= I64_MAX)%Z ->
  match max_by row_seq (decision_rows st) with
  | Some row => (succ_u64 (row_seq row), row_entry_hash row)
  | None => (0%Z, GENESIS)
  end = (Z.of_nat (length es), default GENESIS (entry_hash <$> last es)) /\ as_i64 (Z.of_nat (length es)) = Z.of_nat (length es).
Proof.
  intros Hok Hb. destruct (ledger_tail _ _ _ Hok) as [-> Hs]. split.
  - destruct (last es) as [e|] eqn:Hl; simpl.
    + rewrite (Hs e eq_refl). f_equal. unfold succ_u64, as_u64, I64_MAX in *.
      assert (length es <> 0) by (destruct es; [done|simpl; lia]).
      destruct (Z.ltb_spec (Z.of_nat (length es) - 1) 0); [lia|]. rewrite Z.mod_small; lia.
    + by apply last_None in Hl as ->.
  - unfold as_i64. by destruct (Z.leb_spec (Z.of_nat (length es)) I64_MAX); [|lia].
Qed.

(** The entry a draft becomes: linked, then signed. *)
Definition signed_link (now : Z) (draft : DecisionDraft) (n : Z) (prev : string) (key : SigningKey) : DecisionEntry :=
  let e := link now draft n prev (GateKey.keyid key) in
  set_sig (hex_lower (GateKey.sign key (entry_hash_of (entry_value e)))) e.

Lemma append_decision_step now draft key st es hs : ledger_ok st es hs -> (Z.of_nat (length es) <= I64_MAX)%Z ->
  let e := signed_link now draft (Z.of_nat (length es)) (default GENESIS (entry_hash <$> last es)) key in
  let st' := mkLedgerStore (decision_rows st ++ [row_of e]) (epoch_rows st) in
  append_decision now draft key st = Some (Ok (e, st')) /\ ledger_ok st' (es ++ [e]) hs.
Proof.
  intros Hok Hroom e st'. destruct (next_seq _ _ _ Hok Hroom) as [Hn Hi]. split.
  - unfold append_decision. rewrite Hn. cbv beta iota zeta. rewrite link_hash, decode_hex_encode by apply sha256_length.
    fold (signed_link now draft (Z.of_nat (length es)) (default GENESIS (entry_hash <$> last es)) key). fold e.
    rewrite insert_row_fresh; [by rewrite Hi|].
    eapply Forall_impl; [by eapply ledger_keys|]. cbn [row_seq]. by rewrite Hi.
  - destruct Hok as [Hr Hc Hb He Hse]. constructor; [cbn; by rewrite Hr, map_app| | |done|by apply sealed_more].
    + apply chained_app. split; [done|]. rewrite Z.add_0_l. apply link_chained.
    + rewrite length_app. simpl. lia.
Qed.
End Append.

(** ** Sealing *)

Section Seal.
Context {ST : SerdeText} {TX : StoreText} {TL : StoreTextLaws} {CK : ClockCrate} {SC : SignatureCrates}
        {HC : HashCrates} {HL : HashLaws}.

Lemma epoch_head_hash a b h : epoch_hash_of (head_value (set_head_hashes a b h)) = epoch_hash_of (head_value h).
Proof. unfold epoch_hash_of. f_equal. Qed.

Lemma sealed_app es n first prev hs h :
  sealed es n first prev hs ->
  sealed es (n + Z.of_nat (length hs)) (sealed_up_to first hs) (default prev (epoch_hash <$> last hs)) [h] ->
  sealed es n first prev (hs ++ [h]).
Proof.
  revert n first prev. induction hs as [|h0 hs IH]; intros n first prev.
  - intros _ H. cbn [app length Z.of_nat sealed_up_to last fmap option_fmap option_map default] in *. by rewrite Z.add_0_r in H.
  - cbn [app length sealed_up_to]. intros (? & ? & [? ?] & He & ? & ? & ? & Hs) Hh.
    cbn [sealed]. split_and!; try done. apply IH; [done|].
    replace (n + 1 + Z.of_nat (length hs))%Z with (n + Z.of_nat (S (length hs)))%Z by lia.
    by rewrite last_cons_default in Hh.
Qed.

(** The numbers in the heads of a sealed list. *)
Lemma sealed_bounds es n first prev hs : sealed es n first prev hs -> (0 <= first)%Z ->
  (first + Z.of_nat (length hs) <= sealed_up_to first hs <= Z.of_nat (length es))%Z /\
  Forall (fun h => (n <= epoch h < n + Z.of_nat (length hs))%Z /\ (first <= first_seq h <= last_seq h)%Z /\
                   (last_seq h < sealed_up_to first hs)%Z) hs.
Proof.
  revert n first prev. induction hs as [|h hs IH]; intros n first prev Hs H0; simpl in *; [split; [lia|constructor]|].
  destruct Hs as (He & Hf & Hl & _ & _ & _ & _ & Hs). destruct (IH _ _ _ Hs) as [Hb Hall]; [lia|].
  split; [lia|]. constructor; [lia|]. eapply Forall_impl; [exact Hall|]. simpl. lia.
Qed.

Lemma sealed_last es n first prev hs h : sealed es n first prev (hs ++ [h]) ->
  epoch h = (n + Z.of_nat (length hs))%Z /\ sealed_up_to first (hs ++ [h]) = (last_seq h + 1)%Z /\
  Forall (fun h' => (epoch h' < epoch h)%Z /\ (last_seq h' < last_seq h)%Z) hs.
Proof.
  revert n first prev. induction hs as [|h0 hs IH]; intros n first prev.
  - simpl. intros (-> & _). split_and!; [lia|done|constructor].
  - cbn [app sealed sealed_up_to length]. intros (He & _ & Hl & _ & _ & _ & _ & Hs).
    destruct (IH _ _ _ Hs) as (Hh & Hu & Hall). split_and!; [lia|done|]. constructor; [|done].
    apply sealed_bounds in Hs as [_ Hs]; [|lia]. split; [lia|].
    apply Forall_app in Hs as [_ [Hs _]%Forall_cons].
    lia.
Qed.

(** Where the next epoch starts, from the table. *)
Lemma next_epoch st es hs : ledger_ok st es hs ->
  next_unsealed_seq st = sealed_up_to 0 hs /\
  match max_by row_epoch (epoch_rows st) with
  | None => Ok (0%Z, 0%Z, EPOCH_GENESIS)
  | Some row =>
      let! head := head_from_json (epoch_json row) else Err (CorruptEpoch (as_u64 (row_epoch row))) in
      Ok (succ_u64 (row_epoch row), succ_u64 (row_last_seq row), epoch_hash head)
  end = Ok (Z.of_nat (length hs), sealed_up_to 0 hs, default EPOCH_GENESIS (epoch_hash <$> last hs)) /\
  Forall (fun row => (row_epoch row < Z.of_nat (length hs))%Z) (epoch_rows st).
Proof.
  intros [_ _ Hb Hrows Hs]. pose proof (sealed_bounds _ _ _ _ _ Hs ltac:(lia)) as [Hu Hall].
  assert (Hlt : Forall (fun row => (row_epoch row < Z.of_nat (length hs))%Z) (epoch_rows st)).
  { clear -Hrows Hall. apply Forall_lookup. intros i row Hi.
    destruct (Forall2_lookup_l _ _ _ _ _ Hrows Hi) as (h & Hh & -> & _).
    rewrite Forall_lookup in Hall. destruct (Hall _ _ Hh) as [? _]. lia. }
  destruct hs as [|h hs _] using rev_ind; 
    [apply Forall2_nil_inv_r in Hrows; unfold next_unsealed_seq; by rewrite Hrows|].
  apply Forall2_app_inv_r in Hrows as (rows & top & Hrows & Hlast & Hst). rewrite Hst in *.
  apply Forall2_cons_inv_r in Hlast as (row & ? & Hrow & Hnil & ->). inversion Hnil; subst; clear Hnil.
  apply sealed_last in Hs as (Hn & Hup & Hbefore). rewrite Hup in *.
  destruct Hrow as (Hre & _ & Hrl & Hj & _).
  assert (Hkeys : Forall (fun r => (row_epoch r < row_epoch row)%Z /\ (row_last_seq r < row_last_seq row)%Z) rows).
  { rewrite Hre, Hrl. apply Forall_lookup. intros i r Hi.
    destruct (Forall2_lookup_l _ _ _ _ _ Hrows Hi) as (h' & Hh' & -> & _ & -> & _).
    rewrite Forall_lookup in Hbefore. by apply (Hbefore i). }
  apply Forall_and in Hkeys as [Hk1 Hk2]. unfold next_unsealed_seq.
  rewrite ?Hst, (max_by_snoc row_last_seq), (max_by_snoc row_epoch) by done.
  apply Forall_app in Hall as [_ [(He & Hf & Hl) _]%Forall_cons]. rewrite length_app in *. simpl in *.
  assert (Hnum : forall z, (0 <= z <= I64_MAX)%Z -> succ_u64 z = (z + 1)%Z /\ in_u64 z = true).
  { unfold succ_u64, as_u64, in_u64, U64_MAX, I64_MAX. intros z Hz. destruct (Z.ltb_spec z 0); [lia|].
    split; [apply Z.mod_small; lia|lia]. }
  destruct (Hnum (epoch h) ltac:(lia)) as [Hs1 Hu1], (Hnum (last_seq h) ltac:(lia)) as [Hs2 Hu2],
    (Hnum (first_seq h) ltac:(lia)) as [_ Hu3].
  rewrite Hj, head_json_round_trip, Hre, !Hrl, Hs1, !Hs2, last_snoc by by rewrite Hu1, Hu2, Hu3.
  split_and!; [done| |done]. simpl. repeat f_equal; lia.
Qed.
(** The head of the entries no epoch covers yet. *)
Definition sealed_head (key : SigningKey) (now : Z) (es : list DecisionEntry) (hs : list EpochHead) : EpochHead :=
  let h := mkEpochHead EPOCH_KIND (Z.of_nat (length hs)) (sealed_up_to 0 hs) (Z.of_nat (length es) - 1)
    (default "" (entry_hash <$> last es)) (default EPOCH_GENESIS (epoch_hash <$> last hs)) (to_rfc3339_secs now)
    (GateKey.keyid key) "" "" in
  set_head_hashes (compute_epoch_hash h) (hex_lower (GateKey.sign key (epoch_hash_of (head_value h)))) h.

Definition head_row (h : EpochHead) : EpochRow := mkEpochRow (epoch h) (first_seq h) (last_seq h) (head_to_json h) "[]" None.

Lemma seal_epoch_step key now st es hs (h := sealed_head key now es hs)
    (st' := mkLedgerStore (decision_rows st) (epoch_rows st ++ [head_row h])) : ledger_ok st es hs ->
  (sealed_up_to 0 hs = Z.of_nat (length es) -> seal_epoch key now st = Some (Ok (None, st))) /\
  ((sealed_up_to 0 hs < Z.of_nat (length es))%Z ->
   seal_epoch key now st = Some (Ok (Some h, st')) /\ ledger_ok st' es (hs ++ [h])).
Proof.
  intros Hok. destruct (next_epoch _ _ _ Hok) as (Hu & Hnext & Hkeys), (ledger_tail _ _ _ Hok) as [Htail Hlast].
  pose proof Hok as [Hr Hc Hb Hrows Hs]. pose proof (sealed_bounds _ _ _ _ _ Hs ltac:(lia)) as [Hb' _].
  unfold seal_epoch. rewrite Hnext, Htail. cbv beta iota zeta.
  destruct (last es) as [e|] eqn:Hle; cbn [fmap option_fmap option_map];
    [|by apply last_None in Hle as ->; split; [done|simpl; lia]].
  specialize (Hlast e eq_refl). assert (Hz : as_u64 (row_seq (row_of e)) = seq e).
  { unfold as_u64. cbn [row_of row_seq]. destruct (Z.ltb_spec (seq e) 0); [|done].
    apply last_Some_elem_of in Hle. apply chained_bounds in Hc. rewrite Forall_forall in Hc. apply Hc in Hle. lia. }
  rewrite Hz, Hlast. split.
  - intros ->. by destruct (Z.leb_spec (Z.of_nat (length es)) (Z.of_nat (length es) - 1)); [lia|].
  - intros Hlt. destruct (Z.leb_spec (sealed_up_to 0 hs) (Z.of_nat (length es) - 1)); [|lia].
    unfold compute_epoch_hash. rewrite decode_hex_encode by apply sha256_length.
    assert (Hi : forall z, (z <= Z.of_nat (length es) - 1)%Z -> as_i64 z = z).
    { intros z Hz'. unfold as_i64. by destruct (Z.leb_spec z I64_MAX); [|lia]. }
    rewrite insert_row_fresh by (eapply Forall_impl; [exact Hkeys|]; cbn [row_epoch]; rewrite Hi by lia; done).
    rewrite !Hi by lia. subst st'. unfold head_row, h, sealed_head. rewrite Hle. cbn [fmap option_fmap option_map default].
    split; [by rewrite <- Hlast|].
    constructor; [done..| |].
    + apply Forall2_app; [done|]. constructor; [|constructor]. split_and!; try done. by exists []; apply receipts_json_empty.
    + apply sealed_app; [done|]. cbn [sealed]. split_and!; try done; try (cbn; lia).
      * exists e. split; [|done]. rewrite last_lookup in Hle. cbn [set_head_hashes last_seq]. rewrite <- Hle. f_equal. lia.
      * exists key. split; [done|]. by rewrite epoch_head_hash.
Qed.
End Seal.

(** ** Properties *)

(** Appending a decision to a well-formed ledger never panics and never
    fails: the entry holds the draft, its number is the number of entries
    before it, it carries the hash of the entry before it and a signature of
    its own hash under the given key, and the ledger stays well formed, so it
    reads back as the entries before followed by the new one, and the epochs
    still seal what they sealed. *)
Theorem append_decision_chains {ST : SerdeText} {TX : StoreText} {TL : StoreTextLaws} {CK : ClockCrate}
    {SC : SignatureCrates} {HC : HashCrates} {HL : HashLaws} (now : Z) (draft : DecisionDraft) (key : SigningKey)
    (st : LedgerStore) (es : list DecisionEntry) (hs : list EpochHead)
    (Hok : ledger_ok st es hs) (Hroom : (Z.of_nat (length es) <= I64_MAX)%Z) :
  exists e st', append_decision now draft key st = Some (Ok (e, st')) /\
    ledger_ok st' (es ++ [e]) hs /\ decisions st = Ok es /\ decisions st' = Ok (es ++ [e]) /\
    seq e = Z.of_nat (length es) /\ prev_hash e = default GENESIS (entry_hash <$> last es) /\
    signer e = GateKey.keyid key /\ sig e = hex_lower (GateKey.sign key (entry_hash_of (entry_value e))) /\
    strip e = strip (link now draft (Z.of_nat (length es)) (prev_hash e) (GateKey.keyid key)).
Proof.
  destruct (append_decision_step now draft key st es hs Hok Hroom) as [Happ Hok']. do 2 eexists. split; [exact Happ|].
  split; [exact Hok'|]. split; [by eapply read_all|]. split; [by eapply read_all|]. split_and!; try done.
  unfold signed_link. by rewrite (proj2 (set_sig_hash _ _)).
Qed.

(** C28: the decision ledger is tamper evident: two chains of the same length
    whose last entries have the same hash hold the same entries, up to the
    signature, unless two of the texts these very entries were hashed from
    collide under SHA-256. *)
Theorem decisions_bind_history {ST : SerdeText} {SL : SerdeTextLaws} {SC : SignatureCrates} {HC : HashCrates}
    {HL : HashLaws} (es es' : list DecisionEntry) (Hlen : length es = length es')
    (Hb : (Z.of_nat (length es) <= 2 ^ 64)%Z) (Hc : chained 0 GENESIS es) (Hc' : chained 0 GENESIS es')
    (same : entry_hash <$> last es = entry_hash <$> last es') :
  Forall2 (fun e e' => strip e = strip e' /\ entry_hash e = entry_hash e') es es' \/
  collision_among sha256 (map (entry_hash_text ∘ entry_value) (es ++ es')).
Proof. apply (chained_bind 0 GENESIS); [lia|lia|done..|by rewrite same]. Qed.

(** Sealing covers exactly the entries no epoch covers yet: with nothing
    new it does nothing, and otherwise the new head starts right after the
    last epoch, ends at the newest entry and commits to its hash, and the
    ledger stays well formed, so the epochs cover the whole chain without gap
    or overlap.  It never panics and never fails. *)
Theorem seal_epoch_covers {ST : SerdeText} {TX : StoreText} {TL : StoreTextLaws} {CK : ClockCrate}
    {SC : SignatureCrates} {HC : HashCrates} {HL : HashLaws} (key : SigningKey) (now : Z)
    (st : LedgerStore) (es : list DecisionEntry) (hs : list EpochHead) (Hok : ledger_ok st es hs) :
  next_unsealed_seq st = sealed_up_to 0 hs /\ (sealed_up_to 0 hs <= Z.of_nat (length es))%Z /\
  (sealed_up_to 0 hs = Z.of_nat (length es) -> seal_epoch key now st = Some (Ok (None, st))) /\
  ((sealed_up_to 0 hs < Z.of_nat (length es))%Z ->
   exists h st', seal_epoch key now st = Some (Ok (Some h, st')) /\ ledger_ok st' es (hs ++ [h]) /\
     first_seq h = sealed_up_to 0 hs /\ last_seq h = (Z.of_nat (length es) - 1)%Z /\
     entries_head <$> Some h = entry_hash <$> last es /\ h_signer h = GateKey.keyid key /\
     next_unsealed_seq st' = Z.of_nat (length es)).
Proof.
  destruct (next_epoch _ _ _ Hok) as (Hu & _ & _), (seal_epoch_step key now st es hs Hok) as [Hnone Hsome].
  pose proof (sealed_bounds _ _ _ _ _ (ok_epochs _ _ _ Hok) ltac:(lia)) as [Hb' _].
  split_and!; [done|lia|done|]. intros Hlt. destruct (Hsome Hlt) as [Hseal Hok']. do 2 eexists. split; [exact Hseal|]. split; [exact Hok'|].
  rewrite (proj1 (next_epoch _ _ _ Hok')). destruct (sealed_last _ _ _ _ _ _ (ok_epochs _ _ _ Hok')) as (_ & -> & _).
  split_and!; [done|done| |done|cbn; lia]. cbn. destruct (last es) eqn:Hle; [done|]. apply last_None in Hle as ->. simpl in *. lia.
Qed.

(** An entry's hash covers every member of the entry, also members this
    version does not know, except [entry_hash] and [sig]: unless their two
    texts collide under SHA-256, two entries have the same hash exactly if
    they agree on the rest, and no entry has the hash of an epoch head. *)
Theorem entry_hash_covers_every_member {ST : SerdeText} {SL : SerdeTextLaws} {HC : HashCrates} {HL : HashLaws} (v w : value)
    (Hv : plain v) (Hw : plain w) :
  (covered "entry_hash" v = covered "entry_hash" w -> entry_hash_of v = entry_hash_of w) /\
  (entry_hash_of v = entry_hash_of w ->
     covered "entry_hash" v = covered "entry_hash" w \/ collision_among sha256 [entry_hash_text v; entry_hash_text w]) /\
  (entry_hash_of v = epoch_hash_of w -> collision_among sha256 [entry_hash_text v; epoch_hash_text w]).
Proof.
  split_and!.
  - unfold entry_hash_of. by intros ->.
  - intros [H|]%(same_or_pair sha256); [left|by right].
    apply app_inv_head, canonical_json_inj in H; [done|by apply covered_is_plain..].
  - intros [H|]%(same_or_pair sha256); [|done]. unfold domain_text in H. rewrite !as_bytes_app in H. simpl in H. discriminate H.
Qed.

(** *** Concrete instances *)

Section Witnesses.
Import Toy ToySerde.

Definition entry_tuple (e : DecisionEntry) :=
  ((kind e, seq e, ts e, event_text (event e), release e, tool e, args_fingerprint e, decision_text (decision e)),
   (reason e, path e, policy_version e, policy_digest e, mode_text <$> mode e, task_id e, operation_id e, approval e),
   (outcome_text <$> outcome e, forwarded e, tools_lock e, signer e, prev_hash e, entry_hash e, sig e)).
Definition head_tuple (h : EpochHead) :=
  (h_kind h, epoch h, first_seq h, last_seq h, entries_head h, (prev_epoch h, sealed_at h, h_signer h, epoch_hash h, h_sig h)).

Definition event_of (s : string) : Event :=
  if decide (s = "call") then Call else if decide (s = "replay") then Replay
  else if decide (s = "outcome") then OutcomeEvent else Reconcile.
Definition decision_of (s : string) : Decision :=
  if decide (s = "allow") then Allow else if decide (s = "deny") then Deny else RequireApproval.
Definition mode_of (s : string) : Mode := if decide (s = "enforce") then Enforce else Shadow.
Definition outcome_of (s : string) : Outcome :=
  if decide (s = "committed") then Committed else if decide (s = "failed") then Failed else OutcomeUnknown.

(** Stored values are written as the bits of an injective encoding. *)
#[local] Instance toy_store_text : StoreText := {|
  entry_to_json e := bits (encode (entry_tuple e));
  entry_from_json s :=
    (fun '((a, b, c, d, e, f, g, h), (i, j, k, l, m, n, o, p), (q, r, t, u, v, w, x)) =>
       mkDecisionEntry a b c (event_of d) e f g (decision_of h) i j k l (mode_of <$> m) n o p (outcome_of <$> q) r t u v w x)
    <$> decode (unbits s);
  head_to_json h := bits (encode (head_tuple h));
  head_from_json s := (fun '(a, b, c, d, e, (f, g, h, i, j)) => mkEpochHead a b c d e f g h i j) <$> decode (unbits s);
  receipts_to_json l :=
    bits (encode (map (fun r => match r with
      | Rfc3161 a b c d e => inl (a, b, c, d, e) | Rekor a b c d e => inr (a, b, c, d, value_text e) end) l));
  receipts_from_json s :=
    if decide (s = "[]") then Some [] else
    map (fun r : string * string * string * string * string + string * string * string * string * string =>
      match r with
      | inl (a, b, c, d, e) => Rfc3161 a b c d e
      | inr (a, b, c, d, e) => Rekor a b c d (default VNull (value_of <$> decode (unbits e)))
      end) <$> decode (unbits s);
|}.

Lemma bits_no_bracket p : bits p <> "[]".
Proof. by destruct p. Qed.

#[local] Instance toy_store_text_laws : StoreTextLaws.
Proof.
  constructor.
  - intros [] _. unfold entry_from_json, entry_to_json, toy_store_text. rewrite unbits_bits, decode_encode. cbn.
    f_equal. f_equal; [by destruct event0|by destruct decision0|by destruct mode0 as [[]|]|by destruct outcome0 as [[]|]].
  - intros [] _. unfold head_from_json, head_to_json, toy_store_text. by rewrite unbits_bits, decode_encode.
  - intros l _. unfold receipts_from_json, receipts_to_json, toy_store_text.
    rewrite decide_False by apply bits_no_bracket. rewrite unbits_bits, decode_encode. cbn. f_equal.
    induction l as [|[a b c d e|a b c d e] l IH]; cbn; rewrite ?IH; try done.
    unfold value_text. by rewrite unbits_bits, decode_encode; cbn; rewrite value_of_tree.
  - done.
Qed.

Definition empty_ledger : LedgerStore := mkLedgerStore [] [].
Lemma empty_ledger_ok : ledger_ok empty_ledger [] [].
Proof. constructor; simpl; done || constructor. Qed.

Definition gate_key : SigningKey (SignatureCrates := toy_signatures) := repeat "k"%char 32.
Definition first_entry : DecisionEntry :=
  let e := link 0 draft_call 0 GENESIS (GateKey.keyid gate_key) in
  set_sig (hex_lower (GateKey.sign gate_key (entry_hash_of (entry_value e)))) e.
Lemma first_entry_chained : chained 0 GENESIS [first_entry].
Proof. apply link_chained. Qed.

Definition one_entry_ledger : LedgerStore := mkLedgerStore [row_of first_entry] [].
Lemma single_ok e : chained 0 GENESIS [e] -> ledger_ok (mkLedgerStore [row_of e] []) [e] [].
Proof. intros Hc. constructor; [reflexivity|exact Hc|done|constructor|done]. Qed.
Lemma one_entry_ok : ledger_ok one_entry_ledger [first_entry] [].
Proof. apply single_ok, first_entry_chained. Qed.

Lemma append_decision_chains_witness :
  exists e st', append_decision 0 draft_call gate_key one_entry_ledger = Some (Ok (e, st')) /\
    ledger_ok st' ([first_entry] ++ [e]) [] /\ decisions one_entry_ledger = Ok [first_entry] /\
    decisions st' = Ok ([first_entry] ++ [e]) /\
    seq e = 1%Z /\ prev_hash e = entry_hash first_entry /\
    signer e = GateKey.keyid gate_key /\ sig e = hex_lower (GateKey.sign gate_key (entry_hash_of (entry_value e))) /\
    strip e = strip (link 0 draft_call 1 (prev_hash e) (GateKey.keyid gate_key)).
Proof. apply (append_decision_chains 0 draft_call gate_key one_entry_ledger [first_entry] [] one_entry_ok). done. Qed.

Lemma decisions_bind_history_witness :
  Forall2 (fun e e' => strip e = strip e' /\ entry_hash e = entry_hash e') [first_entry] [first_entry] \/
  collision_among sha256 (map (entry_hash_text ∘ entry_value) ([first_entry] ++ [first_entry])).
Proof.
  apply (decisions_bind_history [first_entry] [first_entry]); [done|done|apply first_entry_chained..|done].
Defined.

Lemma seal_epoch_covers_witness :
  exists h st', seal_epoch gate_key 0 one_entry_ledger = Some (Ok (Some h, st')) /\ ledger_ok st' [first_entry] ([] ++ [h]) /\
     first_seq h = 0%Z /\ last_seq h = 0%Z /\ entries_head <$> Some h = entry_hash <$> last [first_entry] /\
     h_signer h = GateKey.keyid gate_key /\ next_unsealed_seq st' = 1%Z.
Proof. apply (seal_epoch_covers gate_key 0 one_entry_ledger [first_entry] [] one_entry_ok). done. Qed.

Lemma entry_hash_covers_every_member_witness :
  entry_hash_of (entry_value first_entry) = entry_hash_of (entry_value (set_sig "" first_entry)).
Proof.
  apply (entry_hash_covers_every_member (entry_value first_entry) (entry_value (set_sig "" first_entry)));
    [split; vm_compute; reflexivity|split; vm_compute; reflexivity|by rewrite !covered_entry].
Defined.
End Witnesses.
