(* ===== verification/ReleaseDiff.v ===== *)
(** * Certifiability and differences of releases
    ([cloakpipe-release/src/validate.rs], [diff.rs])

    What a manifest must pin to be certifiable, and the assurance a candidate
    needs for what changed against a baseline.  An issue is its code and its
    path; the text shown with it is left out. *)

From stdpp Require Import pretty.
From S2P Require Import Prelude BTree Json Text Crates Concrete Reference Action Constraint Rules Contract Manifest CanonicalJson.

(** ** Validation *)

Inductive IssueCode :=
| UnsupportedApiVersion | UnsupportedKind | MalformedReference | MutableReference | WrongReferenceKind | DuplicateEntry
| InvalidCommit | UnpinnedImage | EmptyField | InvalidName | NormalizationCollision.
Record Issue := mkIssue { issue_code : IssueCode; issue_path : string }.

Definition KIND : string := "AgentRelease".

(** [format!("{path}[{i}]")] *)
Definition at_index (path : string) (i : nat) : string := path +:+ "[" +:+ pretty (Z.of_nat i) +:+ "]".

(** [s.rsplit_once(m)] *)
Definition rsplit_once_str (m s : string) : option (string * string) :=
  match bytes_find (reverse (as_bytes m)) (reverse (as_bytes s)) with
  | Some j => Some (from_bytes (take (str_len s - j - str_len m) (as_bytes s)), from_bytes (drop (str_len s - j) (as_bytes s)))
  | None => None
  end.
Definition is_pinned (image : string) : bool :=
  match rsplit_once_str "@sha256:" image with
  | Some (repo, hex) => negb (str_is_empty repo) && Reference.is_lower_hex hex 64 64
  | None => false
  end.

Section Validate.
Context {UC : UnicodeCrate}.

(** [Validator::reference] *)
Definition check_reference (path r : string) (expected : Reference.RefKind) : option Reference.Reference * list Issue :=
  match Reference.parse r with
  | Ok parsed =>
      if decide (Reference.kind parsed = expected) then (Some parsed, []) else (None, [mkIssue WrongReferenceKind path])
  | Err Reference.Mutable => (None, [mkIssue MutableReference path])
  | Err Reference.Malformed => (None, [mkIssue MalformedReference path])
  end.

(** [Validator::set], from the [i]-th reference on. *)
Fixpoint check_set (field : string) (i : nat) (seen : gset string) (refs : list string) (kind : Reference.RefKind) : list Issue :=
  match refs with
  | [] => []
  | r :: refs =>
      let path := at_index field i +:+ ".ref" in
      match check_reference path r kind with
      | (Some parsed, issues) =>
          issues ++ (if decide (Reference.key parsed ∈ seen) then [mkIssue DuplicateEntry path] else [])
          ++ check_set field (S i) ({[Reference.key parsed]} ∪ seen) refs kind
      | (None, issues) => issues ++ check_set field (S i) seen refs kind
      end
  end.

(** [Validator::nfc_collisions] *)
Fixpoint nfc_collisions (path : string) (v : value) : list Issue :=
  match v with
  | VObject o =>
      (fix members (normalised : gset string) (o : btree value) : list Issue :=
        match o with
        | [] => []
        | (k, child) :: o =>
            (if decide (nfc_string k ∈ normalised) then [mkIssue NormalizationCollision (path +:+ "." +:+ k)] else [])
            ++ nfc_collisions (path +:+ "." +:+ k) child
            ++ members ({[nfc_string k]} ∪ normalised) o
        end) ∅ o
  | VArray a =>
      (fix elements (i : nat) (a : list value) : list Issue :=
        match a with [] => [] | child :: a => nfc_collisions (at_index path i) child ++ elements (S i) a end) 0 a
  | _ => []
  end.

(** The [for (i, ..) in ..iter().enumerate()] loops. *)
Fixpoint check_prompts (i : nat) (refs : list string) : list Issue :=
  match refs with
  | [] => []
  | r :: refs => (check_reference (at_index "spec.prompts" i +:+ ".ref") r Reference.Prompt).2 ++ check_prompts (S i) refs
  end.
Fixpoint check_dependencies (i : nat) (seen : gset string) (l : list Release.Dependency) : list Issue :=
  match l with
  | [] => []
  | d :: l =>
      (if str_is_empty (trim (Release.dep_name d)) || str_is_empty (trim (Release.dep_version d))
       then [mkIssue EmptyField (at_index "spec.dependencies" i)] else [])
      ++ (if decide (Release.dep_name d ∈ seen) then [mkIssue DuplicateEntry (at_index "spec.dependencies" i +:+ ".name")] else [])
      ++ check_dependencies (S i) ({[Release.dep_name d]} ∪ seen) l
  end.

Definition issue_if (b : bool) (code : IssueCode) (path : string) : list Issue := if b then [mkIssue code path] else [].
Definition identity_issues (m : Release.AgentRelease) : list Issue :=
  issue_if (negb (Namespace.is_known_api_version (Release.api_version m))) UnsupportedApiVersion "apiVersion"
  ++ issue_if (negb (bool_decide (Release.kind m = KIND))) UnsupportedKind "kind"
  ++ issue_if (negb (Reference.is_valid_name (Release.agent m))) InvalidName "metadata.agent".

(** [AgentRelease::validate] *)
Definition validate (m : Release.AgentRelease) : list Issue :=
  let s := Release.spec m in
  identity_issues m
  ++ issue_if (str_is_empty (trim (Release.repository s))) EmptyField "spec.code.repository"
  ++ issue_if (negb (Reference.is_lower_hex (Release.commit s) 7 40)) InvalidCommit "spec.code.commit"
  ++ issue_if (match Release.prompts s with [] => true | _ => false end) EmptyField "spec.prompts"
  ++ check_prompts 0 (Release.prompts s)
  ++ (check_reference "spec.model.ref" (Release.model s) Reference.Model).2
  ++ check_set "spec.tools" 0 ∅ (Release.spec_tools s) Reference.Tool
  ++ check_set "spec.mcpServers" 0 ∅ (Release.mcp_servers s) Reference.Mcp
  ++ match Release.retrieval s with Some r => (check_reference "spec.retrieval.ref" r Reference.Retrieval).2 | None => [] end
  ++ check_set "spec.policies" 0 ∅ (Release.policies s) Reference.Policy
  ++ issue_if (negb (is_pinned (Release.image s))) UnpinnedImage "spec.runtime.image"
  ++ issue_if (str_is_empty (trim (Release.region s))) EmptyField "spec.runtime.region"
  ++ nfc_collisions "spec.parameters" (VObject (Release.parameters s))
  ++ nfc_collisions "spec.featureFlags" (VObject (Release.feature_flags s))
  ++ check_dependencies 0 ∅ (Release.dependencies s).

(** [AgentRelease::gate_issues] *)
Definition gate_issues (m : Release.AgentRelease) : list Issue :=
  identity_issues m
  ++ check_set "spec.tools" 0 ∅ (Release.spec_tools (Release.spec m)) Reference.Tool
  ++ check_set "spec.policies" 0 ∅ (Release.policies (Release.spec m)) Reference.Policy.
End Validate.

(** ** Components and the assurance they need *)

Inductive Component :=
| CCode | CPrompt | CModel | CParameters | CTool | CMcpServer | CRetrieval | CPolicy | CRuntime | CDependency | CFeatureFlag.
Definition component_str (c : Component) : string :=
  match c with
  | CCode => "code" | CPrompt => "prompt" | CModel => "model" | CParameters => "parameters" | CTool => "tool"
  | CMcpServer => "mcp_server" | CRetrieval => "retrieval" | CPolicy => "policy" | CRuntime => "runtime"
  | CDependency => "dependency" | CFeatureFlag => "feature_flag"
  end.

Inductive Suite :=
| PromptContract | Functional | Regression | Safety | Privacy | ToolUse | Performance | Cost | Trajectory | Authorization
| SideEffect | PublisherTrust | CapabilityDiff | Adversarial | Grounding | AccessControl | Freshness | Representative
| PolicyStaticAnalysis | DecisionReplay.
#[global] Instance suite_eq_dec : EqDecision Suite.
Proof. solve_decision. Defined.
#[global] Instance component_eq_dec : EqDecision Component.
Proof. solve_decision. Defined.

Definition ALL : list Suite :=
  [PromptContract; Functional; Regression; Safety; Privacy; ToolUse; Performance; Cost; Trajectory; Authorization;
   SideEffect; PublisherTrust; CapabilityDiff; Adversarial; Grounding; AccessControl; Freshness; Representative;
   PolicyStaticAnalysis; DecisionReplay].
Definition suite_str (s : Suite) : string :=
  match s with
  | PromptContract => "prompt_contract" | Functional => "functional" | Regression => "regression" | Safety => "safety"
  | Privacy => "privacy" | ToolUse => "tool_use" | Performance => "performance" | Cost => "cost" | Trajectory => "trajectory"
  | Authorization => "authorization" | SideEffect => "side_effect" | PublisherTrust => "publisher_trust"
  | CapabilityDiff => "capability_diff" | Adversarial => "adversarial" | Grounding => "grounding"
  | AccessControl => "access_control" | Freshness => "freshness" | Representative => "representative"
  | PolicyStaticAnalysis => "policy_static_analysis" | DecisionReplay => "decision_replay"
  end.
(** [Suite::from_str] *)
Definition suite_parse (s : string) : option Suite := List.find (fun x => bool_decide (suite_str x = s)) ALL.

(** [Component::required_suites] and [requires_approval] *)
Definition component_suites (c : Component) : list Suite :=
  match c with
  | CPrompt => [PromptContract; Functional; Safety; Privacy; Regression]
  | CModel => [Functional; ToolUse; Safety; Privacy; Regression; Performance; Cost]
  | CParameters => [Functional; Regression; Performance; Cost]
  | CTool => [Trajectory; Authorization; SideEffect; Regression]
  | CMcpServer => [PublisherTrust; CapabilityDiff; Authorization; Adversarial; Regression]
  | CRetrieval => [Grounding; AccessControl; Freshness; Representative]
  | CPolicy => [PolicyStaticAnalysis; DecisionReplay]
  | CCode | CRuntime | CDependency | CFeatureFlag => [Functional; Regression]
  end.
Definition needs_approval_for (c : Component) : bool :=
  match c with CTool | CMcpServer | CPolicy => true | _ => false end.

#[global] Instance release_hash_eq_dec : EqDecision ReleaseHash.
Proof. solve_decision. Defined.

(** ** Differences *)

Inductive DiffKind := DiffAdded | DiffRemoved | DiffChanged.
Definition diff_kind_str (k : DiffKind) : string :=
  match k with DiffAdded => "added" | DiffRemoved => "removed" | DiffChanged => "changed" end.
Record Change := mkChange {
  component : Component;
  change_kind : DiffKind;
  change_name : string;
  change_before : option string;
  change_after : option string;
}.
(** The set of suites in the order of [Suite]. *)
Record Diff := mkDiff {
  comparable : bool;
  same_hash : bool;
  changes : list Change;
  required_suites : list Suite;
  requires_approval : bool;
}.

(** [v[key]] *)
Definition vindex (v : value) (key : string) : value := default VNull (vget key v).

Section Diff.
Context {UC : UnicodeCrate} {HC : HashCrates} {JC : JsonCrates} {ST : SerdeText}.

Definition same_format (a b : string) : bool :=
  bool_decide (a = b) || (Namespace.is_known_api_version a && Namespace.is_known_api_version b).

Definition render (v : value) : option string :=
  match v with VNull => None | VString s => Some s | other => Some (from_bytes (serde_text other)) end.

(** [push] *)
Definition change_of (c : Component) (name : string) (before after : option string) : Change :=
  mkChange c
    match before, after with None, Some _ => DiffAdded | Some _, None => DiffRemoved | _, _ => DiffChanged end
    name before after.

Definition scalar (c : Component) (name : string) (a b : value) : list Change :=
  if value_eqb a b then [] else [change_of c name (render a) (render b)].

(** The keys of two maps, each once, in order. *)
Definition all_keys {A} (a b : btree A) : list string := sort_dedup (BTree.keys a ++ BTree.keys b).

(** [map] *)
Definition diff_map (c : Component) (a b : value) : list Change :=
  let a := default [] (as_object a) in
  let b := default [] (as_object b) in
  flat_map (fun k => scalar c k (default VNull (BTree.get k a)) (default VNull (BTree.get k b))) (all_keys a b).

Definition strings (v : value) : list string := omap as_str (default [] (as_array v)).

(** What [ref_set] and [dependencies] do with their indexes. *)
Definition diff_index (c : Component) (a b : btree string) : list Change :=
  flat_map (fun k =>
    let (ra, rb) := (BTree.get k a, BTree.get k b) in
    if decide (ra = rb) then [] else [change_of c k ra rb]) (all_keys a b).
Definition ref_index (v : value) : btree string := BTree.of_list (map (fun r => (Reference.key_of r, r)) (strings v)).
Definition ref_set (c : Component) (a b : value) : list Change := diff_index c (ref_index a) (ref_index b).

(** [prompts] *)

Definition diff_prompts (a b : value) : list Change :=
  match ref_set CPrompt a b with
  | [] =>
      if decide (strings a = strings b) then []
      else [change_of CPrompt "order" (Some (str_join "," (strings a))) (Some (str_join "," (strings b)))]
  | found => found
  end.

(** [dependencies] *)
Definition dependency_of (d : value) : option (string * string) :=
  let! n := as_str (vindex d "name") else None in
  let! v := as_str (vindex d "version") else None in Some (n, v).
Definition dependency_index (v : value) : btree string := BTree.of_list (omap dependency_of (default [] (as_array v))).
Definition diff_dependencies (a b : value) : list Change := diff_index CDependency (dependency_index a) (dependency_index b).

(** The differences of two [spec] views. *)
Definition spec_changes (sa sb : value) : list Change :=
  flat_map (fun field => scalar CCode field (vindex (vindex sa "code") field) (vindex (vindex sb "code") field)) ["repository"; "commit"]
  ++ diff_prompts (vindex sa "prompts") (vindex sb "prompts")
  ++ scalar CModel "model" (vindex sa "model") (vindex sb "model")
  ++ diff_map CParameters (vindex sa "parameters") (vindex sb "parameters")
  ++ ref_set CTool (vindex sa "tools") (vindex sb "tools")
  ++ ref_set CMcpServer (vindex sa "mcpServers") (vindex sb "mcpServers")
  ++ scalar CRetrieval "retrieval" (vindex sa "retrieval") (vindex sb "retrieval")
  ++ ref_set CPolicy (vindex sa "policies") (vindex sb "policies")
  ++ flat_map (fun field => scalar CRuntime field (vindex (vindex sa "runtime") field) (vindex (vindex sb "runtime") field)) ["image"; "region"]
  ++ diff_dependencies (vindex sa "dependencies") (vindex sb "dependencies")
  ++ diff_map CFeatureFlag (vindex sa "featureFlags") (vindex sb "featureFlags").

(** [diff] *)
Definition diff (baseline candidate : Release.AgentRelease) : Diff :=
  let a := Release.canonical_view baseline in
  let b := Release.canonical_view candidate in
  let found := spec_changes (vindex a "spec") (vindex b "spec") in
  mkDiff (value_eqb (vindex a "agent") (vindex b "agent") && same_format (Release.api_version baseline) (Release.api_version candidate))
    (bool_decide (Release.manifest_hash baseline = Release.manifest_hash candidate))
    found
    (filter (fun s => s ∈ flat_map (fun c => component_suites (component c)) found) ALL)
    (existsb (fun c => needs_approval_for (component c)) found).
End Diff.

(** ** What the views hold *)

(** ASCII text is already in normal form C. *)
Class UnicodeLaws `{UnicodeCrate} := { nfc_ascii s : is_ascii s = true -> nfc_string s = s }.

Section Views.
Context {UC : UnicodeCrate} {UL : UnicodeLaws}.

Definition nfc_strings (l : list string) : list string := map nfc_string l.
Definition nfc_map (m : btree value) : btree value := BTree.of_list (map (fun kv => (nfc_string kv.1, Release.nfc kv.2)) m).
Definition nfc_dep (d : Release.Dependency) : string * string := (nfc_string (Release.dep_name d), nfc_string (Release.dep_version d)).
Definition spec_view (m : Release.AgentRelease) : value := vindex (Release.canonical_view m) "spec".

Lemma nfc_object (l : list (string * value)) : forallb (fun kv => is_ascii kv.1) l = true ->
  Release.nfc (VObject l) = VObject (BTree.of_list (map (fun kv => (kv.1, Release.nfc kv.2)) l)).
Proof.
  intros H. cbn [Release.nfc]. do 2 f_equal. apply map_ext_in. intros [k v] Hin. cbn. rewrite forallb_forall in H. by rewrite nfc_ascii by exact (H _ Hin).
Qed.

Lemma nfc_sorted_refs l : Release.nfc (Release.sorted_refs l) = VArray (map VString (nfc_strings (merge_sort String.le l))).
Proof. unfold Release.sorted_refs, nfc_strings. cbn [Release.nfc]. by rewrite !map_map. Qed.
Lemma nfc_dep_json d : Release.nfc (Release.dep_json d) = VObject [("name", VString (nfc_dep d).1); ("version", VString (nfc_dep d).2)].
Proof. unfold Release.dep_json. rewrite nfc_object by done. reflexivity. Qed.

Lemma spec_view_eq m : let s := Release.spec m in spec_view m = VObject [
    ("code", VObject [("commit", VString (nfc_string (Release.commit s))); ("repository", VString (nfc_string (Release.repository s)))]);
    ("dependencies", VArray (map (fun d => VObject [("name", VString (nfc_dep d).1); ("version", VString (nfc_dep d).2)])
       (merge_sort Release.dep_le (Release.dependencies s))));
    ("featureFlags", VObject (nfc_map (Release.feature_flags s)));
    ("mcpServers", VArray (map VString (nfc_strings (merge_sort String.le (Release.mcp_servers s)))));
    ("model", VString (nfc_string (Release.model s)));
    ("parameters", VObject (nfc_map (Release.parameters s)));
    ("policies", VArray (map VString (nfc_strings (merge_sort String.le (Release.policies s)))));
    ("prompts", VArray (map VString (nfc_strings (Release.prompts s))));
    ("retrieval", match Release.retrieval s with Some r => VString (nfc_string r) | None => VNull end);
    ("runtime", VObject [("image", VString (nfc_string (Release.image s))); ("region", VString (nfc_string (Release.region s)))]);
    ("tools", VArray (map VString (nfc_strings (merge_sort String.le (Release.spec_tools s)))))].
Proof.
  cbv zeta. unfold spec_view, Release.canonical_view, Release.canonical_json. rewrite nfc_object by done.
  match goal with |- vindex (VObject (BTree.of_list (map _ [_; _; _; ("spec", ?v)]))) "spec" = _ => transitivity (Release.nfc v); [reflexivity|] end.
  rewrite nfc_object by done. cbn [map fst snd]. rewrite !nfc_sorted_refs, (nfc_object [("commit", _); _]), (nfc_object [("image", _); _]) by done.
  assert (Hd : Release.nfc (VArray (map Release.dep_json (merge_sort Release.dep_le (Release.dependencies (Release.spec m))))) =
    VArray (map (fun d => VObject [("name", VString (nfc_dep d).1); ("version", VString (nfc_dep d).2)])
       (merge_sort Release.dep_le (Release.dependencies (Release.spec m))))).
  { cbn [Release.nfc]. rewrite map_map. f_equal. apply map_ext. intros d. apply nfc_dep_json. }
  rewrite Hd. assert (Hp : Release.nfc (VArray (map VString (Release.prompts (Release.spec m)))) = VArray (map VString (nfc_strings (Release.prompts (Release.spec m))))).
  { cbn [Release.nfc]. unfold nfc_strings. by rewrite !map_map. }
  rewrite Hp. destruct (Release.retrieval (Release.spec m)); reflexivity.
Qed.

(** The references of an unordered list as the diff sees them. *)
Definition seen_refs (l : list string) : list string := nfc_strings (merge_sort String.le l).
Lemma seen_refs_perm l : seen_refs l ≡ₚ nfc_strings l.
Proof. unfold seen_refs, nfc_strings. by rewrite merge_sort_Permutation. Qed.
End Views.

(** ** Indexes *)


Lemma all_keys_elem {A} (a b : btree A) k : k ∈ all_keys a b <-> k ∈ BTree.keys a \/ k ∈ BTree.keys b.
Proof. unfold all_keys. by rewrite sort_dedup_elem, elem_of_app. Qed.
Lemma absent {A} (a b : btree A) k : k ∉ all_keys a b -> BTree.get k a = None /\ BTree.get k b = None.
Proof. rewrite all_keys_elem. intros H. split; apply BTree.get_None; tauto. Qed.

Lemma diff_index_nil c a b : BTree.wf a -> BTree.wf b -> diff_index c a b = [] <-> a = b.
Proof.
  intros Ha Hb. unfold diff_index. rewrite flat_map_nil. split.
  - intros H. apply BTree.ext; [done..|]. intros k. destruct (decide (k ∈ all_keys a b)) as [Hk|[-> ->]%absent]; [|done].
    specialize (H k Hk). cbn in H. by case_decide.
  - intros -> k _. cbn. by rewrite decide_True.
Qed.

Lemma of_list_perm_eq {A} (l l' : list (string * A)) : NoDup (map fst l) -> NoDup (map fst l') ->
  BTree.of_list l = BTree.of_list l' <-> l ≡ₚ l'.
Proof.
  intros Hd Hd'. split.
  - intros H. by rewrite <- (btree_of_list_perm l Hd), H, btree_of_list_perm.
  - intros Hp. apply BTree.ext; [apply BTree.wf_of_list..|]. intros k.
    assert (H : forall x, BTree.get k (BTree.of_list l) = Some x <-> BTree.get k (BTree.of_list l') = Some x).
    { assert (He : forall (m : list (string * A)) x, NoDup (map fst m) -> BTree.get k (BTree.of_list m) = Some x <-> (k, x) ∈ m).
      { intros m x Hm. rewrite <- (btree_of_list_perm m Hm) at 2. split; [apply BTree.get_Some_elem|apply BTree.elem_get, BTree.wf_of_list]. }
      intros x. by rewrite !He, Hp. }
    destruct (BTree.get k (BTree.of_list l)) as [x|] eqn:Hx; [by symmetry; apply H|].
    destruct (BTree.get k (BTree.of_list l')) as [x|] eqn:Hx'; [|done]. by apply H.
Qed.

Lemma strings_of l : strings (VArray (map VString l)) = l.
Proof. unfold strings. cbn. induction l as [|s l IH]; [done|]. cbn. by rewrite IH. Qed.

(** Each reference names its artifact once. *)
Definition distinct (l : list string) : Prop := NoDup (map Reference.key_of l).

Lemma ref_set_nil c l l' : distinct l -> distinct l' -> ref_set c (VArray (map VString l)) (VArray (map VString l')) = [] <-> l ≡ₚ l'.
Proof.
  intros Hd Hd'. unfold ref_set. rewrite diff_index_nil by apply BTree.wf_of_list. unfold ref_index. rewrite !strings_of.
  rewrite of_list_perm_eq by (rewrite map_map; done). split; [|by intros ->].
  intros H%(Permutation_map snd). by rewrite !map_map, !map_id in H.
Qed.

(** The parts of two specifications that a component compares. *)
Section Same.
Context {UC : UnicodeCrate} {UL : UnicodeLaws} {HC : HashCrates} {JC : JsonCrates} {ST : SerdeText}.

(** The same keys, with values JSON compares equal. *)
Definition same_values (a b : btree value) : Prop :=
  forall k, match BTree.get k a, BTree.get k b with
            | Some x, Some y => value_eqb x y = true
            | None, None => True
            | _, _ => False
            end.
(** No parameter and no flag is set to null. *)
Definition no_null (m : btree value) : Prop := Forall (fun kv => kv.2 <> VNull) m.
Definition values_set (s : Release.Spec) : Prop := no_null (Release.parameters s) /\ no_null (Release.feature_flags s).
Lemma nfc_no_null m k : no_null m -> BTree.get k (nfc_map m) <> Some VNull.
Proof.
  intros Hm Hk. apply get_of_list_Some in Hk. change (map ?f m) with (f <$> m) in Hk. apply list_elem_of_fmap in Hk as ([k' x] & He & Hin).
  unfold no_null in Hm. rewrite Forall_forall in Hm. apply Hm in Hin. cbn in He, Hin. by destruct x.
Qed.
Definition same_component (c : Component) (a b : Release.Spec) : Prop :=
  match c with
  | CCode => nfc_string (Release.repository a) = nfc_string (Release.repository b) /\ nfc_string (Release.commit a) = nfc_string (Release.commit b)
  | CPrompt => nfc_strings (Release.prompts a) = nfc_strings (Release.prompts b)
  | CModel => nfc_string (Release.model a) = nfc_string (Release.model b)
  | CParameters => same_values (nfc_map (Release.parameters a)) (nfc_map (Release.parameters b))
  | CTool => nfc_strings (Release.spec_tools a) ≡ₚ nfc_strings (Release.spec_tools b)
  | CMcpServer => nfc_strings (Release.mcp_servers a) ≡ₚ nfc_strings (Release.mcp_servers b)
  | CRetrieval => nfc_string <$> Release.retrieval a = nfc_string <$> Release.retrieval b
  | CPolicy => nfc_strings (Release.policies a) ≡ₚ nfc_strings (Release.policies b)
  | CRuntime => nfc_string (Release.image a) = nfc_string (Release.image b) /\ nfc_string (Release.region a) = nfc_string (Release.region b)
  | CDependency => map nfc_dep (Release.dependencies a) ≡ₚ map nfc_dep (Release.dependencies b)
  | CFeatureFlag => same_values (nfc_map (Release.feature_flags a)) (nfc_map (Release.feature_flags b))
  end.

(** Unordered lists that list each artifact, each dependency, once. *)
Definition lists_once (s : Release.Spec) : Prop :=
  distinct (nfc_strings (Release.spec_tools s)) /\ distinct (nfc_strings (Release.mcp_servers s)) /\
  distinct (nfc_strings (Release.policies s)) /\ NoDup (map (fun d => (nfc_dep d).1) (Release.dependencies s)).

Lemma scalar_nil c name a b : scalar c name (VString a) (VString b) = [] <-> a = b.
Proof. unfold scalar. cbn [value_eqb]. by case_bool_decide. Qed.

Lemma null_eqb : value_eqb VNull VNull = true.
Proof. done. Qed.

Lemma diff_map_nil c a b : no_null a -> no_null b ->
  diff_map c (VObject (nfc_map a)) (VObject (nfc_map b)) = [] <-> same_values (nfc_map a) (nfc_map b).
Proof.
  intros Ha Hb. unfold diff_map. cbn [as_object default from_option]. unfold id. rewrite flat_map_nil. split.
  - intros H k. destruct (decide (k ∈ all_keys (nfc_map a) (nfc_map b))) as [Hk|[-> ->]%absent]; [|done]. specialize (H k Hk). unfold scalar in H.
    pose proof (nfc_no_null a k Ha). pose proof (nfc_no_null b k Hb).
    destruct (BTree.get k (nfc_map a)) as [x|], (BTree.get k (nfc_map b)) as [y|]; cbn [default from_option] in H; unfold id in H; [| | |done].
    + by destruct (value_eqb x y).
    + by destruct x.
    + by destruct y.
  - intros H k _. specialize (H k). unfold scalar.
    destruct (BTree.get k (nfc_map a)) as [x|], (BTree.get k (nfc_map b)) as [y|]; cbn [default]; [by rewrite H|done..].
Qed.

Lemma seen_distinct l : distinct (nfc_strings l) -> distinct (seen_refs l).
Proof. unfold distinct. intros H. by rewrite seen_refs_perm. Qed.

Lemma refs_nil c l l' : distinct (nfc_strings l) -> distinct (nfc_strings l') ->
  ref_set c (VArray (map VString (seen_refs l))) (VArray (map VString (seen_refs l'))) = [] <-> nfc_strings l ≡ₚ nfc_strings l'.
Proof. intros H H'. rewrite ref_set_nil by by apply seen_distinct. by rewrite !seen_refs_perm. Qed.

Lemma prompts_nil l l' : diff_prompts (VArray (map VString l)) (VArray (map VString l')) = [] <-> l = l'.
Proof.
  unfold diff_prompts, ref_set, ref_index. rewrite !strings_of. destruct (decide (l = l')) as [->|Hne].
  - by rewrite (proj2 (diff_index_nil CPrompt _ _ (BTree.wf_of_list _) (BTree.wf_of_list _))).
  - split; [|done]. by destruct (diff_index _ _ _).
Qed.

Definition deps_view (l : list Release.Dependency) : value :=
  VArray (map (fun d => VObject [("name", VString (nfc_dep d).1); ("version", VString (nfc_dep d).2)]) (merge_sort Release.dep_le l)).
Lemma dependency_index_of l : dependency_index (deps_view l) = BTree.of_list (map nfc_dep (merge_sort Release.dep_le l)).
Proof.
  unfold dependency_index, deps_view. cbn [as_array default]. f_equal. induction (merge_sort Release.dep_le l) as [|d m IH]; [done|].
  cbn [map omap list_omap]. change (dependency_of _) with (Some (nfc_dep d)). cbv iota. by rewrite <- IH.
Qed.
Lemma deps_nil l l' : NoDup (map (fun d => (nfc_dep d).1) l) -> NoDup (map (fun d => (nfc_dep d).1) l') ->
  diff_dependencies (deps_view l) (deps_view l') = [] <-> map nfc_dep l ≡ₚ map nfc_dep l'.
Proof.
  intros H H'. unfold diff_dependencies. rewrite !dependency_index_of, diff_index_nil by apply BTree.wf_of_list.
  assert (Hs : forall m, NoDup (map (fun d => (nfc_dep d).1) m) -> NoDup (map fst (map nfc_dep (merge_sort Release.dep_le m)))).
  { intros m Hm. rewrite map_map. by rewrite merge_sort_Permutation. }
  rewrite of_list_perm_eq by by apply Hs. by rewrite (merge_sort_Permutation _ l), (merge_sort_Permutation _ l').
Qed.

(** ** Which components differ *)

(** Every change of a block is of one component. *)
Definition only (c : Component) (l : list Change) : Prop := Forall (fun ch => component ch = c) l.
Lemma only_flat_map {A} c (f : A -> list Change) l : (forall x, only c (f x)) -> only c (flat_map f l).
Proof. intros H. induction l as [|x l IH]; [constructor|]. cbn. apply Forall_app. split; [apply H|exact IH]. Qed.
Lemma only_scalar c name a b : only c (scalar c name a b).
Proof. unfold scalar. destruct (value_eqb a b); [constructor|constructor; [done|constructor]]. Qed.
Lemma only_index c a b : only c (diff_index c a b).
Proof. apply only_flat_map. intros k. cbn. destruct (decide _); [constructor|constructor; [done|constructor]]. Qed.
Lemma only_prompts a b : only CPrompt (diff_prompts a b).
Proof.
  unfold diff_prompts. pose proof (only_index CPrompt (ref_index a) (ref_index b)) as H. unfold ref_set.
  destruct (diff_index _ _ _); [|done]. destruct (decide _); [constructor|constructor; [done|constructor]].
Qed.
Lemma only_elem c c' l : only c l -> c' ∈ map component l <-> c' = c /\ l <> [].
Proof.
  intros H. unfold only in H. rewrite Forall_forall in H. split.
  - intros (ch & -> & Hin)%list_elem_of_fmap. split; [by apply H|]. by intros ->; apply elem_of_nil in Hin.
  - intros [-> Hl]. destruct l as [|ch l]; [done|]. apply list_elem_of_fmap. exists ch. split; [symmetry; apply H|]; by left.
Qed.

(** The block of a component. *)
Definition block (sa sb : value) (c : Component) : list Change :=
  match c with
  | CCode => flat_map (fun field => scalar CCode field (vindex (vindex sa "code") field) (vindex (vindex sb "code") field)) ["repository"; "commit"]
  | CPrompt => diff_prompts (vindex sa "prompts") (vindex sb "prompts")
  | CModel => scalar CModel "model" (vindex sa "model") (vindex sb "model")
  | CParameters => diff_map CParameters (vindex sa "parameters") (vindex sb "parameters")
  | CTool => ref_set CTool (vindex sa "tools") (vindex sb "tools")
  | CMcpServer => ref_set CMcpServer (vindex sa "mcpServers") (vindex sb "mcpServers")
  | CRetrieval => scalar CRetrieval "retrieval" (vindex sa "retrieval") (vindex sb "retrieval")
  | CPolicy => ref_set CPolicy (vindex sa "policies") (vindex sb "policies")
  | CRuntime => flat_map (fun field => scalar CRuntime field (vindex (vindex sa "runtime") field) (vindex (vindex sb "runtime") field)) ["image"; "region"]
  | CDependency => diff_dependencies (vindex sa "dependencies") (vindex sb "dependencies")
  | CFeatureFlag => diff_map CFeatureFlag (vindex sa "featureFlags") (vindex sb "featureFlags")
  end.
Lemma only_block sa sb c : only c (block sa sb c).
Proof.
  destruct c; cbn [block]; first [apply only_prompts|apply only_scalar|apply only_index|apply only_flat_map; intros; apply only_scalar].
Qed.

Lemma spec_changes_components sa sb c : c ∈ map component (spec_changes sa sb) <-> block sa sb c <> [].
Proof.
  change (spec_changes sa sb) with (block sa sb CCode ++ block sa sb CPrompt ++ block sa sb CModel ++ block sa sb CParameters
    ++ block sa sb CTool ++ block sa sb CMcpServer ++ block sa sb CRetrieval ++ block sa sb CPolicy ++ block sa sb CRuntime
    ++ block sa sb CDependency ++ block sa sb CFeatureFlag).
  rewrite !map_app, !elem_of_app, !(only_elem _ c _ (only_block sa sb _)). destruct c; naive_solver.
Qed.

Lemma two_scalars c x y sa sb : flat_map (fun field => scalar c field (sa field) (sb field)) [x; y] = [] <->
  scalar c x (sa x) (sb x) = [] /\ scalar c y (sa y) (sb y) = [].
Proof. cbn [flat_map]. rewrite app_nil_r. split; [apply app_nil|]. by intros [-> ->]. Qed.

Lemma and_iff (A B C D : Prop) : (A <-> B) -> (C <-> D) -> A /\ C <-> B /\ D.
Proof. tauto. Qed.

Lemma block_nil a b c : lists_once (Release.spec a) -> lists_once (Release.spec b) ->
  values_set (Release.spec a) -> values_set (Release.spec b) ->
  block (spec_view a) (spec_view b) c = [] <-> same_component c (Release.spec a) (Release.spec b).
Proof.
  intros (Ht & Hm & Hp & Hd) (Ht' & Hm' & Hp' & Hd') [Hv Hf] [Hv' Hf']. rewrite !spec_view_eq. destruct c; cbn [block same_component].
  - rewrite two_scalars. apply and_iff; apply scalar_nil.
  - apply prompts_nil.
  - apply scalar_nil.
  - by apply diff_map_nil.
  - by apply refs_nil.
  - by apply refs_nil.
  - destruct (Release.retrieval (Release.spec a)) as [r|], (Release.retrieval (Release.spec b)) as [r'|]; [|by split..].
    transitivity (nfc_string r = nfc_string r'); [apply scalar_nil|cbn; split; congruence].
  - by apply refs_nil.
  - rewrite two_scalars. apply and_iff; apply scalar_nil.
  - by apply deps_nil.
  - by apply diff_map_nil.
Qed.

(** ** What validation says of the lists *)

Lemma check_reference_ok path r kind : (check_reference path r kind).2 = [] ->
  exists p, check_reference path r kind = (Some p, []) /\ r = Reference.print p /\ Reference.is_valid_name (Reference.name p) = true /\
    Reference.is_valid_version (Reference.version p) = true.
Proof.
  unfold check_reference. destruct (Reference.parse r) as [p|[]] eqn:Hp; [|done..]. case_decide; [|done]. intros _. exists p. split; [done|].
  by apply Reference.parse_sound in Hp as (? & ? & ? & _).
Qed.

Lemma check_set_ok field i seen refs kind : check_set field i seen refs kind = [] ->
  exists ps, refs = map Reference.print ps /\ NoDup (map Reference.key ps) /\ Forall (fun p => Reference.key p ∉ seen) ps /\
    Forall (fun p => Reference.is_valid_name (Reference.name p) = true /\ Reference.is_valid_version (Reference.version p) = true) ps.
Proof.
  revert i seen. induction refs as [|r refs IH]; intros i seen; cbn [check_set].
  { intros _. exists []. by repeat constructor. }
  destruct (check_reference (at_index field i +:+ ".ref") r kind) as [[p|] issues] eqn:Hc; intros H.
  2:{ exfalso. apply app_nil in H as [-> _]. destruct (check_reference_ok _ _ _ (f_equal snd Hc)) as (p & Hp & _). congruence. }
  apply app_nil in H as [-> [Hd H]%app_nil]. destruct (check_reference_ok _ _ _ (f_equal snd Hc)) as (p' & Hp & Hr & Hn & Hv).
  rewrite Hc in Hp. injection Hp as <-. case_decide as Hs; [done|]. destruct (IH _ _ H) as (ps & -> & Hnd & Hsn & Hok).
  rewrite Forall_forall in Hsn. exists (p :: ps). split; [by rewrite Hr|]. split; [|split; constructor; try done].
  - constructor; [|done]. intros (q & Hq & Hin)%list_elem_of_fmap. apply (Hsn q Hin). rewrite <- Hq. set_solver.
  - apply Forall_forall. intros q Hq. specialize (Hsn q Hq). set_solver.
Qed.

Lemma str_all_app p s t : str_all p (s +:+ t) = str_all p s && str_all p t.
Proof. unfold str_all. by rewrite as_bytes_app, forallb_app. Qed.
Lemma str_all_impl p q s : (forall c, p c = true -> q c = true) -> str_all p s = true -> str_all q s = true.
Proof. unfold str_all. rewrite !forallb_forall. auto. Qed.

Definition ascii_char (c : ascii) : bool := (byte_val c <? 128)%Z.
Lemma all_ascii p s : forallb (fun c => implb (p c) (ascii_char c)) (map ascii_of_N (map N.of_nat (List.seq 0 256))) = true ->
  str_all p s = true -> is_ascii s = true.
Proof.
  intros H. apply str_all_impl. intros c Hc. rewrite forallb_forall in H. specialize (H c). rewrite Hc in H. apply H.
  apply in_map_iff. exists (N_of_ascii c). split; [apply ascii_N_embedding|]. apply in_map_iff. exists (N.to_nat (N_of_ascii c)).
  rewrite N2Nat.id. split; [done|]. apply in_seq. pose proof (N_ascii_bounded c). lia.
Qed.

Lemma name_ascii s : Reference.is_valid_name s = true -> is_ascii s = true.
Proof.
  destruct s as [|c s]; [done|]. intros [Hc Hs]%andb_true_iff. apply (all_ascii Reference.name_char); [by vm_compute|].
  unfold str_all in *. cbn. apply andb_true_iff. split; [|done]. unfold Reference.name_char. by rewrite Hc.
Qed.
Lemma version_ascii s : Reference.is_valid_version s = true -> is_ascii s = true.
Proof.
  unfold Reference.is_valid_version. destruct (strip_prefix "sha256:" s) as [hex|] eqn:Hs.
  - apply strip_prefix_Some in Hs as ->. unfold Reference.is_lower_hex. intros [_ H]%andb_true_iff.
    unfold is_ascii. rewrite str_all_app. apply andb_true_iff. split; [done|]. by apply (all_ascii is_hex_char); [vm_compute|].
  - intros [_ H]%andb_true_iff. by apply (all_ascii Reference.version_char); [vm_compute|].
Qed.
Lemma print_ascii p : Reference.is_valid_name (Reference.name p) = true -> Reference.is_valid_version (Reference.version p) = true ->
  is_ascii (Reference.print p) = true.
Proof.
  intros Hn%name_ascii Hv%version_ascii. unfold Reference.print, Reference.key, is_ascii in *. rewrite !str_all_app.
  rewrite Hn, Hv. by destruct (Reference.kind p).
Qed.
Lemma key_of_print p : Reference.is_valid_name (Reference.name p) = true -> Reference.key_of (Reference.print p) = Reference.key p.
Proof.
  intros Hn. unfold Reference.key_of, Reference.print. 
  change ("@" +:+ Reference.version p) with (String "@" (Reference.version p)). rewrite split_once_lacks; [done|]. unfold Reference.key.
  unfold lacks. rewrite as_bytes_app, not_elem_of_app. split; [apply Reference.kind_lacks; by right|]. change (":" +:+ Reference.name p) with (String ":" (Reference.name p)).
  apply lacks_cons. split; [done|]. apply Reference.name_lacks; [done|by right].
Qed.

Lemma checked_refs_distinct field refs kind : check_set field 0 ∅ refs kind = [] -> nfc_strings refs = refs /\ distinct refs.
Proof.
  intros (ps & -> & Hd & _ & Hok)%check_set_ok. rewrite Forall_forall in Hok. split.
  - unfold nfc_strings. rewrite map_map. apply map_ext_in. intros p Hin%list_elem_of_In. destruct (Hok p Hin). by apply nfc_ascii, print_ascii.
  - unfold distinct. rewrite map_map. replace (map (fun p => Reference.key_of (Reference.print p)) ps) with (map Reference.key ps); [done|].
    apply map_ext_in. intros p Hin%list_elem_of_In. symmetry. by apply key_of_print, Hok.
Qed.

(** No two dependencies have one name after normalisation; [validate]
    compares the names as they are written. *)
Definition distinct_dependencies (m : Release.AgentRelease) : Prop :=
  NoDup (map (fun d => nfc_string (Release.dep_name d)) (Release.dependencies (Release.spec m))).

Lemma valid_lists_once m : validate m = [] -> distinct_dependencies m -> lists_once (Release.spec m).
Proof.
  unfold validate. intros H Hd.
  apply app_nil in H as [_ [_ [_ [_ [_ [_ [Ht [Hm [_ [Hp _]%app_nil]%app_nil]%app_nil]%app_nil]%app_nil]%app_nil]%app_nil]%app_nil]%app_nil].
  destruct (checked_refs_distinct _ _ _ Ht) as [Et Ht'], (checked_refs_distinct _ _ _ Hm) as [Em Hm'], (checked_refs_distinct _ _ _ Hp) as [Ep Hp'].
  unfold lists_once. rewrite Et, Em, Ep. by repeat split.
Qed.
End Same.

(** ** Certifiable manifests *)

(** An immutable reference to an artifact of kind [k]. *)
Definition pins (k : Reference.RefKind) (r : string) : Prop :=
  exists p, Reference.kind p = k /\ Reference.parse r = Ok p.

(** A list of distinct artifacts, each pinned. *)
Definition pins_once (k : Reference.RefKind) (refs : list string) : Prop :=
  exists ps, Forall2 (fun r p => Reference.parse r = Ok p /\ Reference.kind p = k) refs ps /\ NoDup (map Reference.key ps).

(** An image pinned by digest. *)
Definition pinned_image (image : string) : Prop :=
  exists repo hex, image = repo +:+ "@sha256:" +:+ hex /\ repo <> "" /\ Reference.is_lower_hex hex 64 64 = true.

(** No object of the value has two keys that normalise to one. *)
Fixpoint no_collision `{UnicodeCrate} (v : value) : Prop :=
  match v with
  | VObject o =>
      NoDup (map (fun kv => nfc_string kv.1) o) /\
      (fix members (o : btree value) := match o with [] => True | kv :: o => no_collision kv.2 /\ members o end) o
  | VArray a => (fix elements (a : list value) := match a with [] => True | x :: a => no_collision x /\ elements a end) a
  | _ => True
  end.

Definition known_identity (m : Release.AgentRelease) : Prop :=
  Namespace.is_known_api_version (Release.api_version m) = true /\ Release.kind m = KIND /\
  Reference.is_valid_name (Release.agent m) = true.

(** What a certifiable release pins. *)
Record certifiable `{UnicodeCrate} (m : Release.AgentRelease) : Prop := {
  certifiable_identity : known_identity m;
  certifiable_repository : trim (Release.repository (Release.spec m)) <> "";
  certifiable_commit : Reference.is_lower_hex (Release.commit (Release.spec m)) 7 40 = true;
  certifiable_some_prompt : Release.prompts (Release.spec m) <> [];
  certifiable_prompts : Forall (pins Reference.Prompt) (Release.prompts (Release.spec m));
  certifiable_model : pins Reference.Model (Release.model (Release.spec m));
  certifiable_tools : pins_once Reference.Tool (Release.spec_tools (Release.spec m));
  certifiable_servers : pins_once Reference.Mcp (Release.mcp_servers (Release.spec m));
  certifiable_retrieval : forall r, Release.retrieval (Release.spec m) = Some r -> pins Reference.Retrieval r;
  certifiable_policies : pins_once Reference.Policy (Release.policies (Release.spec m));
  certifiable_image : pinned_image (Release.image (Release.spec m));
  certifiable_region : trim (Release.region (Release.spec m)) <> "";
  certifiable_parameters : no_collision (VObject (Release.parameters (Release.spec m)));
  certifiable_flags : no_collision (VObject (Release.feature_flags (Release.spec m)));
  certifiable_dependencies :
    Forall (fun d => trim (Release.dep_name d) <> "" /\ trim (Release.dep_version d) <> "") (Release.dependencies (Release.spec m));
  certifiable_once : NoDup (map Release.dep_name (Release.dependencies (Release.spec m)));
}.

Section Certifiable.
Context {UC : UnicodeCrate}.

Lemma issue_if_nil b code path : issue_if b code path = [] <-> b = false.
Proof. by destruct b. Qed.

Lemma check_reference_nil path r k : (check_reference path r k).2 = [] <-> pins k r.
Proof.
  unfold check_reference, pins. split.
  - destruct (Reference.parse r) as [p|[]] eqn:Hp; [|done..]. case_decide; [|done]. by exists p.
  - intros (p & Hk & ->). by rewrite decide_True.
Qed.

Lemma check_prompts_nil i refs : check_prompts i refs = [] <-> Forall (pins Reference.Prompt) refs.
Proof.
  revert i. induction refs as [|r refs IH]; intros i; cbn [check_prompts]; [by split|].
  by rewrite app_nil_iff, check_reference_nil, IH, Forall_cons.
Qed.

Lemma check_set_nil field i seen refs k : check_set field i seen refs k = [] <->
  exists ps, Forall2 (fun r p => Reference.parse r = Ok p /\ Reference.kind p = k) refs ps /\ NoDup (map Reference.key ps) /\
    Forall (fun p => Reference.key p ∉ seen) ps.
Proof.
  revert i seen. induction refs as [|r refs IH]; intros i seen; cbn [check_set].
  { split; [|done]. intros _. exists []. by repeat constructor. }
  set (path := at_index field i +:+ ".ref"). assert (Hcons : forall p, Reference.parse r = Ok p -> Reference.kind p = k ->
    ((if decide (Reference.key p ∈ seen) then [mkIssue DuplicateEntry path] else []) ++
      check_set field (S i) ({[Reference.key p]} ∪ seen) refs k = [] <->
     exists ps, Forall2 (fun r p => Reference.parse r = Ok p /\ Reference.kind p = k) (r :: refs) ps /\ NoDup (map Reference.key ps) /\
       Forall (fun p => Reference.key p ∉ seen) ps)).
  { intros p Hp Hk. rewrite app_nil_iff, IH. split.
    - intros [Hs (ps & Hf & Hnd & Hns)]. rewrite Forall_forall in Hns. exists (p :: ps). case_decide as Hin; [done|]. split; [by constructor|]. split.
      + constructor; [|done]. intros (q & Hq & Hi)%list_elem_of_fmap. apply (Hns q Hi). rewrite <- Hq. set_solver.
      + constructor; [done|]. apply Forall_forall. intros q Hq. specialize (Hns q Hq). set_solver.
    - intros (ps & Hf & Hnd & Hns). apply Forall2_cons_inv_l in Hf as (p' & ps' & [Hp' _] & Hf & ->). assert (p' = p) as -> by congruence.
      cbn [map] in Hnd. apply NoDup_cons in Hnd as [Hni Hnd]. apply Forall_cons in Hns as [Hin Hns]. rewrite decide_False by done. split; [done|].
      exists ps'. split; [done|]. split; [done|]. rewrite Forall_forall in Hns |- *. intros q Hq. specialize (Hns q Hq).
      assert (Reference.key q <> Reference.key p); [|set_solver]. intros He. apply Hni. rewrite <- He. by apply list_elem_of_fmap_2. }
  unfold check_reference. destruct (Reference.parse r) as [p|e] eqn:Hp.
  - case_decide as Hk; [by apply Hcons|]. split; [done|]. intros (ps & Hf & _). apply Forall2_cons_inv_l in Hf as (p' & ? & [Hp' ?] & _). congruence.
  - split; [by destruct e|]. intros (ps & Hf & _). apply Forall2_cons_inv_l in Hf as (p' & ? & [Hp' ?] & _). congruence.
Qed.
Lemma check_set_pins field refs k : check_set field 0 ∅ refs k = [] <-> pins_once k refs.
Proof.
  rewrite check_set_nil. unfold pins_once. split; [naive_solver|]. intros (ps & Hf & Hnd). exists ps. split; [done|]. split; [done|].
  apply Forall_forall. intros p _. apply not_elem_of_empty.
Qed.

Lemma nfc_collisions_nil v : forall path, nfc_collisions path v = [] <-> no_collision v.
Proof.
  induction v as [|b|n|s|a IH|o IH] using value_ind; intros path; cbn [nfc_collisions no_collision]; try done.
  - generalize 0%nat as i. induction IH as [|x a Hx _ IHa]; intros i; [done|]. by rewrite app_nil_iff, Hx, IHa.
  - assert (H : forall seen : gset string,
      (fix members (normalised : gset string) (o : btree value) : list Issue :=
        match o with
        | [] => []
        | (k, child) :: o =>
            (if decide (nfc_string k ∈ normalised) then [mkIssue NormalizationCollision (path +:+ "." +:+ k)] else [])
            ++ nfc_collisions (path +:+ "." +:+ k) child ++ members ({[nfc_string k]} ∪ normalised) o
        end) seen o = [] <->
      (NoDup (map (fun kv => nfc_string kv.1) o) /\ Forall (fun kv => nfc_string kv.1 ∉ seen) o) /\
      (fix members (o : btree value) := match o with [] => True | kv :: o => no_collision kv.2 /\ members o end) o).
    { induction IH as [|[k x] o Hx _ IHo]; intros seen; [by repeat constructor|].
      rewrite !app_nil_iff, (Hx _), (IHo _), Forall_cons. cbn [map fst snd]. rewrite NoDup_cons, list_elem_of_fmap, !Forall_forall.
      case_decide as Hs; [split; [by intros [? _]|tauto]|]. split.
      - intros (_ & Hc & [Hnd Hns] & Hm). split; [|done]. split; [split; [|done]|split; [done|]].
        + intros ([k' x'] & He & Hin). specialize (Hns _ Hin). cbn in *. set_solver.
        + intros kv Hin. specialize (Hns _ Hin). set_solver.
      - intros ([[Hni Hnd] [_ Hns]] & Hc & Hm). split; [done|]. split; [done|]. split; [|done]. split; [done|]. intros kv Hin.
        specialize (Hns _ Hin). assert (nfc_string kv.1 <> nfc_string k); [|set_solver]. intros He. apply Hni. by exists kv. }
    rewrite H. split; [tauto|]. intros [Hnd Hm]. split; [split; [done|]|done]. apply Forall_forall. intros kv _. apply not_elem_of_empty.
Qed.

Lemma check_dependencies_nil i seen l : check_dependencies i seen l = [] <->
  Forall (fun d => trim (Release.dep_name d) <> "" /\ trim (Release.dep_version d) <> "") l /\
  NoDup (map Release.dep_name l) /\ Forall (fun d => Release.dep_name d ∉ seen) l.
Proof.
  revert i seen. induction l as [|d l IH]; intros i seen; cbn [check_dependencies]; [by repeat constructor|].
  rewrite !app_nil_iff, IH, !Forall_cons. cbn [map]. rewrite NoDup_cons, list_elem_of_fmap, !Forall_forall. unfold str_is_empty.
  assert (He : (if bool_decide (trim (Release.dep_name d) = "") || bool_decide (trim (Release.dep_version d) = "")
      then [mkIssue EmptyField (at_index "spec.dependencies" i)] else []) = [] <->
      trim (Release.dep_name d) <> "" /\ trim (Release.dep_version d) <> "").
  { repeat case_bool_decide; cbn; intuition congruence. }
  rewrite He. destruct (decide (Release.dep_name d ∈ seen)) as [Hs|Hs]; [split; [intros (_ & Hx & _); discriminate Hx|tauto]|]. split.
  - intros (Ht & _ & Hf & Hnd & Hns). split; [done|]. split; [split; [|done]|split; [done|]].
    + intros (d' & Hd & Hin). specialize (Hns _ Hin). set_solver.
    + intros d' Hin. specialize (Hns _ Hin). set_solver.
  - intros ((Ht & Hf) & (Hni & Hnd) & _ & Hns). split; [done|]. split; [done|]. split; [done|]. split; [done|]. intros d' Hin.
    specialize (Hns _ Hin). assert (Release.dep_name d' <> Release.dep_name d); [|set_solver]. intros Hd. apply Hni. by exists d'.
Qed.

(** A search passes over text without the first byte of what it looks for. *)
Lemma bytes_find_over c m x y : c ∉ x -> bytes_find (c :: m) (x ++ y) = (fun i => length x + i) <$> bytes_find (c :: m) y.
Proof.
  induction x as [|d x IH]; intros Hx; [cbn [app]; by destruct (bytes_find (c :: m) y)|]. apply not_elem_of_cons in Hx as [Hd Hx].
  cbn [app bytes_find bytes_strip]. rewrite decide_False by done. cbn [is_some]. rewrite (IH Hx). by destruct (bytes_find _ y).
Qed.
Lemma bytes_find_here m y : bytes_find m (m ++ y) = Some 0.
Proof. assert (H : bytes_strip m (m ++ y) = Some y) by apply bytes_strip_app. destruct (m ++ y); cbn [bytes_find]; by rewrite H. Qed.
Lemma hex_no_colon hex lo hi : Reference.is_lower_hex hex lo hi = true -> ":"%char ∉ as_bytes hex.
Proof. intros [_ H]%andb_true_iff. by apply (Reference.str_all_lacks is_hex_char hex ":"). Qed.

Lemma is_pinned_spec image : is_pinned image = true <-> pinned_image image.
Proof.
  unfold is_pinned, rsplit_once_str, pinned_image, str_len. split.
  - destruct (bytes_find _ _) as [j|] eqn:Hf; [|done]. intros [Hr Hh]%andb_true_iff.
    apply bytes_find_Some in Hf as (x & y & He & <-). apply (f_equal reverse) in He. rewrite reverse_involutive, !reverse_app, reverse_involutive in He.
    revert Hr Hh. rewrite He. set (m := as_bytes "@sha256:"). rewrite !length_app, !length_reverse.
    replace (length y + length m + length x - length x - length m) with (length (reverse y)) by (rewrite length_reverse; lia).
    replace (length y + length m + length x - length x) with (length (reverse y ++ m)) by (rewrite length_app, length_reverse; lia).
    rewrite <- app_assoc, take_app_length, app_assoc, drop_app_length. intros Hr Hh. exists (from_bytes (reverse y)), (from_bytes (reverse x)).
    split; [|split; [|done]].
    + rewrite <- (from_as_bytes image), He. apply (inj as_bytes). by rewrite !as_bytes_app, !as_from_bytes, <- app_assoc.
    + intros E. by rewrite E in Hr.
  - intros (repo & hex & -> & Hr & Hh). rewrite !as_bytes_app, !reverse_app, <- app_assoc.
    assert (Hf : bytes_find (reverse (as_bytes "@sha256:")) (reverse (as_bytes hex) ++ reverse (as_bytes "@sha256:") ++ reverse (as_bytes repo)) =
      Some (length (as_bytes hex))).
    { change (reverse (as_bytes "@sha256:")) with (":"%char :: as_bytes "652ahs@") at 1. rewrite bytes_find_over.
      - change (":"%char :: as_bytes "652ahs@") with (reverse (as_bytes "@sha256:")). rewrite bytes_find_here, length_reverse. cbn. f_equal. lia.
      - rewrite elem_of_reverse. by apply (hex_no_colon hex 64 64). }
    rewrite Hf. rewrite !length_app.
    replace (length (as_bytes repo) + (length (as_bytes "@sha256:") + length (as_bytes hex)) - length (as_bytes hex) - length (as_bytes "@sha256:"))
      with (length (as_bytes repo)) by lia.
    replace (length (as_bytes repo) + (length (as_bytes "@sha256:") + length (as_bytes hex)) - length (as_bytes hex))
      with (length (as_bytes repo ++ as_bytes "@sha256:")) by (rewrite length_app; lia).
    rewrite take_app_length, app_assoc, drop_app_length, !from_as_bytes. apply andb_true_iff. split; [|done].
    unfold str_is_empty. by rewrite bool_decide_eq_false_2.
Qed.
End Certifiable.

(** ** The theorems *)

Section Theorems.
Context {UC : UnicodeCrate}.

Lemma identity_issues_nil m : identity_issues m = [] <-> known_identity m.
Proof.
  unfold identity_issues, known_identity. rewrite !app_nil_iff, !issue_if_nil, !negb_false_iff. by rewrite bool_decide_eq_true.
Qed.
Lemma str_empty_false s : str_is_empty s = false <-> s <> "".
Proof. unfold str_is_empty. by rewrite bool_decide_eq_false. Qed.

(** Validation is exact: no issue is found in a manifest if and only if it
    is certifiable: it has a known version, kind and agent name, every prompt
    (one at least), the model, the retrieval configuration, and every tool,
    server and policy (each once) is pinned to an immutable reference of its
    kind, the commit is hexadecimal, the image is pinned by digest, no two
    keys of the parameters or flags become one after normalisation, at any
    depth, and the dependencies are named, versioned and listed once. *)
Theorem validate_exactly (m : Release.AgentRelease) : validate m = [] <-> certifiable m.
Proof.
  unfold validate. rewrite !app_nil_iff, identity_issues_nil, !issue_if_nil, !negb_false_iff, !str_empty_false, check_prompts_nil, !check_reference_nil,
    !check_set_pins, !nfc_collisions_nil, is_pinned_spec, check_dependencies_nil.
  assert (Hr : match Release.retrieval (Release.spec m) with
      Some r => (check_reference "spec.retrieval.ref" r Reference.Retrieval).2 | None => [] end = [] <->
      forall r, Release.retrieval (Release.spec m) = Some r -> pins Reference.Retrieval r).
  { destruct (Release.retrieval _) as [r|]; [|done]. rewrite check_reference_nil. split; [by intros Hp ? [= <-]|]. intros H. by apply H. }
  assert (Hp : match Release.prompts (Release.spec m) with [] => true | _ => false end = false <-> Release.prompts (Release.spec m) <> []).
  { by destruct (Release.prompts _). }
  rewrite Hr, Hp. split.
  - intros (? & ? & ? & ? & ? & ? & ? & ? & ? & ? & ? & ? & ? & ? & ? & ? & _). by constructor.
  - intros []. repeat (split; [done|]). apply Forall_forall. intros d _. apply not_elem_of_empty.
Qed.

(** What makes a release certifiable is enough for the gate to run on it. *)
Lemma certifiable_gate m : validate m = [] -> gate_issues m = [].
Proof.
  intros [H _ _ _ _ _ Ht _ _ Hp _ _ _ _ _ _]%validate_exactly. unfold gate_issues.
  by rewrite !app_nil_iff, identity_issues_nil, !check_set_pins.
Qed.

Context {UL : UnicodeLaws} {HC : HashCrates} {JC : JsonCrates} {ST : SerdeText}.

Lemma component_elem c l : c ∈ map component l <-> exists ch, ch ∈ l /\ component ch = c.
Proof. rewrite list_elem_of_fmap. naive_solver. Qed.
Lemma suites_elem s l : s ∈ flat_map (fun c => component_suites (component c)) l <->
  exists c, c ∈ map component l /\ s ∈ component_suites c.
Proof.
  rewrite list_elem_of_In, in_flat_map. setoid_rewrite component_elem. split.
  - intros (ch & Hin%list_elem_of_In & Hs%list_elem_of_In). eauto.
  - intros (c & (ch & Hin & <-) & Hs). exists ch. by rewrite <- !list_elem_of_In.
Qed.

(** C29: between two certifiable releases whose dependencies have distinct
    names after normalisation, and none of whose parameters and feature flags
    is set to null, the diff reports a change of a component exactly when the pinned
    component differs (the order counts for prompts only, and normalisation,
    labels and the release number count for nothing); the assurance required is
    exactly the suites of the components that differ, and an approval is
    required exactly when a tool, an MCP server or a policy differs. *)
Theorem diff_exactly (a b : Release.AgentRelease) (valid_a : validate a = []) (valid_b : validate b = [])
    (distinct_a : distinct_dependencies a) (distinct_b : distinct_dependencies b)
    (set_a : values_set (Release.spec a)) (set_b : values_set (Release.spec b)) :
  let differs c := ~ same_component c (Release.spec a) (Release.spec b) in
  (forall c, c ∈ map component (changes (diff a b)) <-> differs c) /\
  (forall s, s ∈ required_suites (diff a b) <-> exists c, differs c /\ s ∈ component_suites c) /\
  (requires_approval (diff a b) = true <-> differs CTool \/ differs CMcpServer \/ differs CPolicy).
Proof.
  cbn zeta. assert (Hc : forall c, c ∈ map component (changes (diff a b)) <-> ~ same_component c (Release.spec a) (Release.spec b)).
  { intros c. change (changes (diff a b)) with (spec_changes (spec_view a) (spec_view b)). rewrite spec_changes_components.
    by rewrite block_nil by (done || by apply valid_lists_once). }
  split; [exact Hc|]. split.
  - intros s. setoid_rewrite <- Hc. rewrite <- suites_elem. unfold diff. cbn [required_suites changes]. rewrite list_elem_of_filter.
    split; [by intros [? _]|]. intros H. split; [done|]. destruct s; vm_compute; repeat constructor.
  - rewrite <- !Hc. unfold diff. cbn [requires_approval changes]. rewrite existsb_exists. setoid_rewrite component_elem. split.
    + intros (ch & Hin%list_elem_of_In & Hn). destruct (component ch) eqn:He; try discriminate; eauto.
    + intros [(ch & Hin & He)|[(ch & Hin & He)|(ch & Hin & He)]]; exists ch; by rewrite <- list_elem_of_In, He.
Qed.
End Theorems.

(** ** Concrete instances *)

Section Witnesses.
Import Toy ToySerde.

#[local] Instance toy_unicode_laws : UnicodeLaws.
Proof. by constructor. Qed.

Definition release_with (tools : list string) (parameters : btree value) (deps : list Release.Dependency) : Release.AgentRelease :=
  Release.mkAgentRelease "cloakpipe.co/v1alpha1" KIND "support-agent" "1.4.0" []
    (Release.mkSpec "github.com/acme/support" "abc1234" ["prompt:support/system@3"] "model:claude@2025-06-01" parameters tools [] None
      ["policy:refunds@7"] ("acme/support@sha256:0123456789abcdef0123456789abcdef0123456789abcdef0123456789abcdef") "eu" deps []).
Definition baseline : Release.AgentRelease := release_with ["tool:refund@1"; "tool:lookup@2"] [] [Release.mkDependency "serde" "1.0.200"].
Definition candidate : Release.AgentRelease := release_with ["tool:lookup@2"; "tool:refund@2"] [] [Release.mkDependency "serde" "1.0.200"].

Example candidate_valid : validate candidate = [].
Proof. by vm_compute. Qed.
Example mutable_tool : map issue_code (validate (release_with ["tool:refund@latest"] [] [])) = [MutableReference].
Proof. by vm_compute. Qed.

Lemma diff_exactly_witness :
  ~ same_component CTool (Release.spec baseline) (Release.spec candidate) /\ requires_approval (diff baseline candidate) = true.
Proof.
  pose proof (diff_exactly baseline candidate ltac:(vm_compute; reflexivity) ltac:(vm_compute; reflexivity)
    ltac:(repeat constructor; set_solver) ltac:(repeat constructor; set_solver)
    ltac:(split; constructor) ltac:(split; constructor)) as (Hc & _ & Ha).
  assert (Ht : ~ same_component CTool (Release.spec baseline) (Release.spec candidate)).
  { apply Hc. vm_compute. left. }
  split; [exact Ht|]. apply Ha. left. exact Ht.
Defined.

Example reordered_tool_upgrade : changes (diff baseline candidate) =
  [mkChange CTool DiffChanged "tool:refund" (Some "tool:refund@1") (Some "tool:refund@2")].
Proof. by vm_compute. Qed.

(** A parameter set to null where the baseline has none changes the hash, and
    is reported as no change. *)
Example null_parameter_unreported :
  let d := diff baseline (release_with ["tool:refund@1"; "tool:lookup@2"] [("temperature", VNull)] [Release.mkDependency "serde" "1.0.200"]) in
  same_hash d = false /\ changes d = [] /\ required_suites d = [].
Proof. split; [by vm_compute|]. by split; vm_compute. Qed.

(** Two dependency names that normalise to one pass the validation, and a
    change of the first is not reported. *)
Definition composing : UnicodeCrate := {| nfc_string s := if bool_decide (s = "é") then "é" else s |}.
Example composed_dependency_unreported :
  let deps v := [Release.mkDependency "é" v; Release.mkDependency "é" "2"] in
  let a := release_with [] [] (deps "1") in let b := release_with [] [] (deps "3") in
  @validate composing a = [] /\ @validate composing b = [] /\
  let d := @diff composing _ _ _ a b in same_hash d = false /\ changes d = [].
Proof. repeat (split; [by vm_compute|]). by vm_compute. Qed.
End Witnesses.
