(* ===== verification/Ordering.v ===== *)
(** * [Ord] and [slice::sort_by]

    Comparison functions as the source writes them ([cmp], [then_with],
    derived [Ord]s, [f64::total_cmp]) with the laws sorting relies on, and the
    stable sort.  A sorted list depends only on what it holds when values that
    compare equal are equal ([sort_by_unique]). *)

From S2P Require Import Prelude BTree Json.
From Stdlib Require Import SpecFloat.

(** [Ordering::then_with] *)
Definition then_with (c d : comparison) : comparison := match c with Eq => d | _ => c end.
Lemma then_with_assoc a b c : then_with (then_with a b) c = then_with a (then_with b c).
Proof. by destruct a. Qed.

(** A total comparison that is [Eq] on equal values only. *)
Class Ordered {A} (cmp : A -> A -> comparison) : Prop := {
  cmp_eq x y : cmp x y = Eq <-> x = y;
  cmp_opp x y : cmp y x = CompOpp (cmp x y);
  cmp_lt_trans x y z : cmp x y = Lt -> cmp y z = Lt -> cmp x z = Lt;
}.

Arguments cmp_eq {A} cmp {_}.
Arguments cmp_opp {A} cmp {_}.
Arguments cmp_lt_trans {A} cmp {_}.

Section Laws.
Context {A : Type} (cmp : A -> A -> comparison) {O : Ordered cmp}.

Lemma cmp_refl x : cmp x x = Eq.
Proof. by apply (cmp_eq cmp). Qed.
Lemma cmp_same x y : cmp x y = Eq -> x = y.
Proof. apply (cmp_eq cmp). Qed.

(** Not after. *)
Lemma cmp_le_trans x y z : cmp x y <> Gt -> cmp y z <> Gt -> cmp x z <> Gt.
Proof.
  destruct (cmp x y) eqn:Hxy; [apply cmp_same in Hxy as ->; done| |done].
  destruct (cmp y z) eqn:Hyz; [apply cmp_same in Hyz as <-; congruence| |done].
  intros _ _. by rewrite (cmp_lt_trans cmp x y z).
Qed.
Lemma cmp_le_antisym x y : cmp x y <> Gt -> cmp y x <> Gt -> x = y.
Proof. rewrite (cmp_opp cmp x y). destruct (cmp x y) eqn:H; [by intros; apply cmp_same|done..]. Qed.

(** Values compared by a key that tells them apart. *)
Lemma ordered_on {B} (f : B -> A) : Inj (=) (=) f -> Ordered (fun x y => cmp (f x) (f y)).
Proof.
  intros Hf. constructor.
  - intros x y. rewrite (cmp_eq cmp). split; [apply (inj f)|congruence].
  - intros x y. apply (cmp_opp cmp).
  - intros x y z. apply (cmp_lt_trans cmp).
Qed.
End Laws.

(** ** The orders of the standard types *)

#[export] Instance Z_ordered : Ordered Z.compare.
Proof.
  constructor.
  - apply Z.compare_eq_iff.
  - intros x y. apply Z.compare_antisym.
  - intros x y z. rewrite !Z.compare_lt_iff. lia.
Qed.

(** Tuples. *)
Definition pair_cmp {A B} (c : A -> A -> comparison) (d : B -> B -> comparison) (x y : A * B) : comparison :=
  then_with (c x.1 y.1) (d x.2 y.2).
#[export] Instance pair_ordered {A B} (c : A -> A -> comparison) (d : B -> B -> comparison) :
  Ordered c -> Ordered d -> Ordered (pair_cmp c d).
Proof.
  intros Hc Hd. constructor.
  - intros [x x'] [y y']. unfold pair_cmp. cbn. destruct (c x y) eqn:H.
    + apply (cmp_same c) in H as ->. cbn. rewrite (cmp_eq d). split; congruence.
    + split; [done|]. intros [= -> _]. by rewrite (cmp_refl c) in H.
    + split; [done|]. intros [= -> _]. by rewrite (cmp_refl c) in H.
  - intros [x x'] [y y']. unfold pair_cmp. cbn. rewrite (cmp_opp c x y). destruct (c x y); cbn; [apply (cmp_opp d)|done..].
  - intros [x x'] [y y'] [z z']. unfold pair_cmp. cbn. destruct (c x y) eqn:Hxy; [|destruct (c y z) eqn:Hyz|].
    + apply (cmp_same c) in Hxy as ->. destruct (c y z) eqn:Hyz; cbn; [apply (cmp_lt_trans d)|done|done].
    + apply (cmp_same c) in Hyz as ->. by rewrite Hxy.
    + by rewrite (cmp_lt_trans c x y z).
    + done.
    + done.
Qed.

(** [Option]: [None] first. *)
Definition option_cmp {A} (c : A -> A -> comparison) (x y : option A) : comparison :=
  match x, y with Some x, Some y => c x y | None, None => Eq | None, Some _ => Lt | Some _, None => Gt end.
#[export] Instance option_ordered {A} (c : A -> A -> comparison) : Ordered c -> Ordered (option_cmp c).
Proof.
  intros Hc. constructor.
  - intros [x|] [y|]; cbn; [rewrite (cmp_eq c); split; congruence|done..].
  - intros [x|] [y|]; cbn; [apply (cmp_opp c)|done..].
  - intros [x|] [y|] [z|]; cbn; [apply (cmp_lt_trans c)|done..].
Qed.

(** Slices, and [Iterator::cmp]: lexicographic. *)
Fixpoint list_cmp {A} (c : A -> A -> comparison) (x y : list A) : comparison :=
  match x, y with
  | [], [] => Eq
  | [], _ :: _ => Lt
  | _ :: _, [] => Gt
  | a :: x, b :: y => then_with (c a b) (list_cmp c x y)
  end.
#[export] Instance list_ordered {A} (c : A -> A -> comparison) : Ordered c -> Ordered (list_cmp c).
Proof.
  intros Hc. constructor.
  - intros x. induction x as [|a x IH]; intros [|b y]; cbn; [done..|]. destruct (c a b) eqn:H; cbn.
    + apply (cmp_same c) in H as ->. rewrite IH. split; congruence.
    + split; [done|]. intros [= -> _]. by rewrite (cmp_refl c) in H.
    + split; [done|]. intros [= -> _]. by rewrite (cmp_refl c) in H.
  - intros x. induction x as [|a x IH]; intros [|b y]; cbn; [done..|]. rewrite (cmp_opp c a b). destruct (c a b); cbn; [apply IH|done..].
  - intros x. induction x as [|a x IH]; intros [|b y] [|d z]; cbn; try done. destruct (c a b) eqn:Hab; cbn; [|destruct (c b d) eqn:Hbd; cbn|done].
    + apply (cmp_same c) in Hab as ->. destruct (c b d); cbn; [apply IH|done..].
    + apply (cmp_same c) in Hbd as ->. by rewrite Hab.
    + by rewrite (cmp_lt_trans c a b d).
    + done.
Qed.

(** [str]: by bytes. *)
Definition byte_cmp (a b : ascii) : comparison := Z.compare (byte_val a) (byte_val b).
Definition str_cmp (x y : string) : comparison := list_cmp byte_cmp (as_bytes x) (as_bytes y).
#[export] Instance byte_val_inj : Inj (=) (=) byte_val.
Proof. intros a b H%N2Z.inj. by rewrite <- (ascii_N_embedding a), H, ascii_N_embedding. Qed.
#[export] Instance byte_ordered : Ordered byte_cmp.
Proof. apply (ordered_on Z.compare byte_val). apply _. Qed.
#[export] Instance str_ordered : Ordered str_cmp.
Proof. apply (ordered_on (list_cmp byte_cmp) as_bytes). apply _. Qed.

(** [bool]: [false] first. *)
Definition bool_cmp (x y : bool) : comparison := Z.compare (Z.b2z x) (Z.b2z y).
#[export] Instance bool_ordered : Ordered bool_cmp.
Proof. apply (ordered_on Z.compare Z.b2z). by intros [] []. Qed.

(** ** [f64::total_cmp] and [to_bits] *)

(** The bit pattern of a double, most significant part first: the sign, then
    the class and the exponent, then the mantissa.  There is one NaN. *)
Definition f64_bits (f : f64) : Z * (Z * (Z * Z)) :=
  match f with
  | S754_zero s => (Z.b2z s, (0, (0, 0)))
  | S754_finite s m e => (Z.b2z s, (1, (e, Z.pos m)))
  | S754_infinity s => (Z.b2z s, (2, (0, 0)))
  | S754_nan => (0, (3, (0, 0)))
  end%Z.
#[export] Instance f64_bits_inj : Inj (=) (=) f64_bits.
Proof.
  intros x y. destruct x as [[]|[]| |[] m e], y as [[]|[]| |[] m' e']; cbn; intros H; try congruence; injection H; intros; by subst.
Qed.
(** [a.to_bits().cmp(&b.to_bits())]: the patterns as unsigned integers. *)
Definition bits_cmp (a b : f64) : comparison :=
  pair_cmp Z.compare (pair_cmp Z.compare (pair_cmp Z.compare Z.compare)) (f64_bits a) (f64_bits b).
#[export] Instance bits_ordered : Ordered bits_cmp.
Proof. apply (ordered_on (pair_cmp _ _) f64_bits). apply _. Qed.

(** Negative patterns are ordered backwards, and come before the others. *)
Definition total_key (f : f64) : Z * (Z * (Z * Z)) :=
  let '(s, (c, (e, m))) := f64_bits f in
  if (s =? 1)%Z then (- 1, (- c, (- e, - m)))%Z else (0, (c, (e, m)))%Z.
#[export] Instance total_key_inj : Inj (=) (=) total_key.
Proof.
  intros x y. destruct x as [[]|[]| |[] m e], y as [[]|[]| |[] m' e']; cbn; intros H; try congruence; injection H; intros; f_equal; lia.
Qed.
Definition total_cmp (a b : f64) : comparison :=
  pair_cmp Z.compare (pair_cmp Z.compare (pair_cmp Z.compare Z.compare)) (total_key a) (total_key b).
#[export] Instance total_ordered : Ordered total_cmp.
Proof. apply (ordered_on (pair_cmp _ _) total_key). apply _. Qed.

(** ** [slice::sort_by] *)

Section SortBy.
Context {A : Type} (cmp : A -> A -> comparison).

Fixpoint insert_by (x : A) (l : list A) : list A :=
  match l with
  | [] => [x]
  | y :: l' => match cmp x y with Gt => y :: insert_by x l' | _ => x :: l end
  end.
(** Ascending and stable. *)
Fixpoint sort_by (l : list A) : list A := match l with [] => [] | x :: l => insert_by x (sort_by l) end.

Lemma insert_by_perm x l : insert_by x l ≡ₚ x :: l.
Proof.
  induction l as [|y l IH]; cbn; [done|]. destruct (cmp x y); [done..|]. rewrite IH. apply Permutation_swap.
Qed.
Lemma sort_by_perm l : sort_by l ≡ₚ l.
Proof. induction l as [|x l IH]; cbn; [done|]. by rewrite insert_by_perm, IH. Qed.
End SortBy.

Section SortOn.
Context {A K : Type} {cmp : K -> K -> comparison} {O : Ordered cmp} (k : A -> K).
Let by_k (x y : A) : comparison := cmp (k x) (k y).
Definition sorted_on (l : list A) : Prop := StronglySorted (fun x y => cmp (k x) (k y) <> Gt) l.

Lemma insert_by_sorted x l : sorted_on l -> sorted_on (insert_by by_k x l).
Proof.
  unfold sorted_on, by_k. induction l as [|y l IH]; cbn; intros Hs; [by repeat constructor|].
  apply StronglySorted_inv in Hs as [Hs Hy]. destruct (cmp (k x) (k y)) eqn:H.
  - constructor; [by constructor|]. constructor; [congruence|]. eapply Forall_impl; [exact Hy|]. intros z. apply (cmp_le_trans cmp). congruence.
  - constructor; [by constructor|]. constructor; [congruence|]. eapply Forall_impl; [exact Hy|]. intros z. apply (cmp_le_trans cmp). congruence.
  - constructor; [by apply IH|]. rewrite insert_by_perm. constructor; [|done]. by rewrite (cmp_opp cmp (k x) (k y)), H.
Qed.
Lemma sort_by_sorted l : sorted_on (sort_by by_k l).
Proof. induction l as [|x l IH]; cbn; [constructor|by apply insert_by_sorted]. Qed.

(** Sorting by a key depends on the values only, if those with one key are
    equal. *)
Lemma sort_by_unique l l' : l ≡ₚ l' -> (forall x y, x ∈ l -> y ∈ l -> k x = k y -> x = y) -> sort_by by_k l = sort_by by_k l'.
Proof.
  intros Hp Hk. apply (StronglySorted_unique_strong (fun x y => cmp (k x) (k y) <> Gt)); [|apply sort_by_sorted..|by rewrite !sort_by_perm].
  intros x y Hx Hy Hxy Hyx. rewrite sort_by_perm in Hx, Hy. rewrite <- Hp in Hy. apply Hk; [done..|]. by apply (cmp_le_antisym cmp).
Qed.
End SortOn.

Lemma sort_by_ordered {A} {cmp : A -> A -> comparison} {O : Ordered cmp} l l' : l ≡ₚ l' -> sort_by cmp l = sort_by cmp l'.
Proof. intros Hp. apply (sort_by_unique (O := O) id); [done|]. by intros x y _ _. Qed.
