(* ===== verification/Certification.v ===== *)
(** * The certification decision
    ([cloakpipe-cert/src/model.rs], [policy.rs])

    Evaluation runs and certification policies with their hashes and their
    structural checks, and [decide], which applies a policy to the evidence
    about one release.  [decide] is a pure function of its input; the theorems
    say which evidence certifies, and that neither the order of the runs nor
    the order within a run matters. *)

From stdpp Require Import pretty.
From S2P Require Import Prelude BTree Json Text Crates Concrete Reference Action Ordering ReleaseDiff.
From Stdlib Require Import SpecFloat.

(** [format!]'s text of a quoted string ([{:?}]), of a double ([{}]) and of a
    double with four decimals ([{:.4}]). *)
Class FmtText := {
  debug_str : string -> string;
  display_f64 : f64 -> string;
  fixed4_f64 : f64 -> string;
}.

(** ** Arithmetic on doubles *)

Definition f64_add : f64 -> f64 -> f64 := SFadd f64_prec f64_emax.
Definition f64_sub : f64 -> f64 -> f64 := SFsub f64_prec f64_emax.
Definition f64_mul : f64 -> f64 -> f64 := SFmul f64_prec f64_emax.
Definition f64_div : f64 -> f64 -> f64 := SFdiv f64_prec f64_emax.
Definition f64_of_nat (n : nat) : f64 := f64_of_Z (Z.of_nat n).

(** [at_least], [at_most]: false on a NaN. *)
Definition at_least (x min : f64) : bool := match f64_cmp x min with Some Gt | Some Eq => true | _ => false end.
Definition at_most (x max : f64) : bool := match f64_cmp x max with Some Lt | Some Eq => true | _ => false end.
(** [(0.0..=1.0).contains(&v)] *)
Definition in_unit (v : f64) : bool := at_most (f64_of_Z 0) v && at_most v (f64_of_Z 1).

(** ** Evaluation runs *)

Inductive CaseStatus := Pass | Fail | Error | Skipped.
#[global] Instance status_eq_dec : EqDecision CaseStatus.
Proof. solve_decision. Defined.
Definition status_str (s : CaseStatus) : string :=
  match s with Pass => "pass" | Fail => "fail" | Error => "error" | Skipped => "skipped" end.
(** The derived order. *)
Definition status_rank (s : CaseStatus) : Z := match s with Pass => 0 | Fail => 1 | Error => 2 | Skipped => 3 end.
Definition is_failure (s : CaseStatus) : bool := match s with Fail | Error => true | _ => false end.

Inductive Expect := Allow | Deny.
#[global] Instance expect_eq_dec : EqDecision Expect.
Proof. solve_decision. Defined.
Definition expect_str (e : Expect) : string := match e with Allow => "allow" | Deny => "deny" end.
Definition expect_rank (e : Expect) : Z := match e with Allow => 0 | Deny => 1 end.

Record CaseResult := mkCase {
  case_id : string;
  critical : bool;
  status : CaseStatus;
  score : option f64;
  metrics : btree f64;
  duration_ms : option Z;
  expect : option Expect;
}.
Record NamedVersion := mkNamed { nv_name : string; nv_version : string }.
Inductive SourceKind := Junit | JsonSource | Braintrust | Langfuse | Native.
Definition source_kind_str (k : SourceKind) : string :=
  match k with Junit => "junit" | JsonSource => "json" | Braintrust => "braintrust" | Langfuse => "langfuse" | Native => "native" end.
Record RunSource := mkSource { source_kind : SourceKind; source_tool : option string }.

Record EvaluationRun := mkRun {
  run_api_version : string;
  run_kind : string;
  run_id : string;
  run_release : string;
  suite : NamedVersion;
  covers : list string;
  dataset : option string;
  evaluators : list NamedVersion;
  source : RunSource;
  cases : list CaseResult;
}.
Definition RUN_KIND : string := "EvaluationRun".
Definition POLICY_KIND : string := "CertificationPolicy".

(** *** [serde_json::to_value]: members of no value are left out; a double
    that is not finite is null. *)

Definition f64_value (f : f64) : value := if f64_is_finite f then VNumber (Float f) else VNull.
Definition member {A} (k : string) (f : A -> value) (x : option A) : list (string * value) :=
  match x with Some x => [(k, f x)] | None => [] end.
Definition members {A} (k : string) (f : A -> value) (l : list A) : list (string * value) :=
  match l with [] => [] | _ => [(k, VArray (map f l))] end.
Definition object (l : list (string * value)) : value := VObject (BTree.of_list l).

Definition named_json (n : NamedVersion) : value := object [("name", VString (nv_name n)); ("version", VString (nv_version n))].
Definition case_json (c : CaseResult) : value :=
  object ([("id", VString (case_id c)); ("critical", VBool (critical c)); ("status", VString (status_str (status c)))]
    ++ member "score" f64_value (score c)
    ++ match metrics c with [] => [] | ms => [("metrics", VObject (map (fun kv => (kv.1, f64_value kv.2)) ms))] end
    ++ member "durationMs" (fun d => VNumber (PosInt d)) (duration_ms c)
    ++ member "expect" (fun e => VString (expect_str e)) (expect c)).
Definition source_json (s : RunSource) : value :=
  object ([("kind", VString (source_kind_str (source_kind s)))] ++ member "tool" VString (source_tool s)).
Definition run_json (r : EvaluationRun) : value :=
  object ([("apiVersion", VString (run_api_version r)); ("kind", VString (run_kind r)); ("runId", VString (run_id r));
           ("release", VString (run_release r)); ("suite", named_json (suite r)); ("covers", VArray (map VString (covers r)))]
    ++ member "dataset" VString (dataset r) ++ members "evaluators" named_json (evaluators r)
    ++ [("source", source_json (source r)); ("cases", VArray (map case_json (cases r)))]).

(** *** Orders *)

Definition named_cmp (a b : NamedVersion) : comparison := then_with (str_cmp (nv_name a) (nv_name b)) (str_cmp (nv_version a) (nv_version b)).

(** The [score] of [compare_cases], the [num] of [compare_reasons]. *)
Definition num_cmp (x y : option f64) : comparison :=
  match x, y with Some x, Some y => total_cmp x y | x, y => bool_cmp (is_some x) (is_some y) end.

Definition compare_cases (a b : CaseResult) : comparison :=
  then_with (then_with (then_with (then_with (then_with (then_with
    (str_cmp (case_id a) (case_id b))
    (Z.compare (status_rank (status a)) (status_rank (status b))))
    (bool_cmp (critical a) (critical b)))
    (num_cmp (score a) (score b)))
    (option_cmp Z.compare (duration_ms a) (duration_ms b)))
    (option_cmp Z.compare (expect_rank <$> expect a) (expect_rank <$> expect b)))
    (list_cmp (pair_cmp str_cmp bits_cmp) (metrics a) (metrics b)).

Section Model.
Context {HC : HashCrates} {JC : JsonCrates} {FT : FmtText}.

(** [domain_hash] *)
Definition domain_hash (domain : string) (v : value) : string :=
  "sha256:" +:+ hex_encode (sha256 (line domain ++ as_bytes (jcs v))).

(** [EvaluationRun::canonical_view] and [run_hash] *)
Definition canonical_view (r : EvaluationRun) : value :=
  run_json (mkRun (run_api_version r) (run_kind r) (run_id r) (run_release r) (suite r) (sort_by str_cmp (covers r)) (dataset r)
    (sort_by named_cmp (evaluators r)) (source r) (sort_by (fun a b => str_cmp (case_id a) (case_id b)) (cases r))).
Definition run_hash (r : EvaluationRun) : string :=
  domain_hash (Namespace.evaluation_run_hash_domain (Namespace.for_hashing (run_api_version r))) (canonical_view r).

(** *** [EvaluationRun::validate] *)

Definition issue_when (b : bool) (text : string) : list string := if b then [text] else [].
Definition blank (s : string) : bool := str_is_empty (trim s).
Definition at_case (i : nat) : string := "cases[" +:+ pretty (Z.of_nat i) +:+ "]".

Definition api_version_issue (v : string) : list string :=
  issue_when (negb (Namespace.is_known_api_version v))
    ("apiVersion: expected " +:+ Namespace.api_version Namespace.Current +:+ " (or legacy " +:+ Namespace.api_version Namespace.Legacy +:+ ")").

Fixpoint case_issues (i : nat) (ids : gset string) (l : list CaseResult) : list string :=
  match l with
  | [] => []
  | c :: l =>
      let '(found, ids) :=
        if blank (case_id c) then ([at_case i +:+ ".id: must not be empty"], ids)
        else (issue_when (bool_decide (case_id c ∈ ids)) (at_case i +:+ ".id: duplicate case id " +:+ debug_str (case_id c)), {[case_id c]} ∪ ids) in
      found
      ++ issue_when (match score c with Some s => negb (f64_is_finite s) | None => false end) (at_case i +:+ ".score: must be finite")
      ++ flat_map (fun kv => issue_when (negb (f64_is_finite kv.2)) (at_case i +:+ ".metrics." +:+ kv.1 +:+ ": must be finite")) (metrics c)
      ++ case_issues (S i) ids l
  end.

Definition run_validate (r : EvaluationRun) : list string :=
  api_version_issue (run_api_version r)
  ++ issue_when (negb (bool_decide (run_kind r = RUN_KIND))) ("kind: expected " +:+ RUN_KIND)
  ++ issue_when (blank (run_id r)) "runId: must not be empty"
  ++ issue_when (negb (is_some (hash_parse (run_release r)))) ("release: " +:+ debug_str (run_release r) +:+ " is not a sha256:<hex> manifest hash")
  ++ issue_when (blank (nv_name (suite r)) || blank (nv_version (suite r))) "suite: name and version are required"
  ++ issue_when (match covers r with [] => true | _ => false end) "covers: at least one assurance suite is required"
  ++ flat_map (fun c => issue_when (negb (is_some (suite_parse c))) ("covers: unknown assurance suite " +:+ debug_str c)) (covers r)
  ++ case_issues 0 ∅ (cases r).
End Model.

(** ** Certification policies *)

Inductive Aggregate := Mean | P50 | P95 | Min | Max.
Definition aggregate_name (a : Aggregate) : string :=
  match a with Mean => "mean" | P50 => "p50" | P95 => "p95" | Min => "min" | Max => "max" end.
Inductive Comparison := Lte | Gte.
Definition comparison_str (c : Comparison) : string := match c with Lte => "lte" | Gte => "gte" end.

Record MetricRule := mkMetricRule {
  metric : string;
  rule_aggregate : Aggregate;
  op : Comparison;
  threshold : f64;
  rule_suite : option string;
}.
Record BoundaryRule := mkBoundary { suites : list string; min_deny_rate : f64; min_allow_rate : f64 }.
Record Rules := mkRules {
  max_new_critical_failures : Z;
  block_persisting_critical_failures : bool;
  min_pass_rate : option f64;
  max_pass_rate_regression : option f64;
  min_coverage : f64;
  metric_rules : list MetricRule;
  boundary : option BoundaryRule;
}.
Record CertificationPolicy := mkPolicy {
  policy_api_version : string;
  policy_kind : string;
  policy_name : string;
  policy_version : string;
  rules : Rules;
  validity_days : Z;
}.

Definition metric_rule_json (m : MetricRule) : value :=
  object ([("metric", VString (metric m)); ("aggregate", VString (aggregate_name (rule_aggregate m)));
           ("op", VString (comparison_str (op m))); ("value", f64_value (threshold m))] ++ member "suite" VString (rule_suite m)).
Definition boundary_json (b : BoundaryRule) : value :=
  object [("suites", VArray (map VString (suites b))); ("minDenyRate", f64_value (min_deny_rate b)); ("minAllowRate", f64_value (min_allow_rate b))].
Definition rules_json (r : Rules) : value :=
  object ([("maxNewCriticalFailures", VNumber (PosInt (max_new_critical_failures r)));
           ("blockPersistingCriticalFailures", VBool (block_persisting_critical_failures r))]
    ++ member "minPassRate" f64_value (min_pass_rate r) ++ member "maxPassRateRegression" f64_value (max_pass_rate_regression r)
    ++ [("minCoverage", f64_value (min_coverage r))] ++ members "metrics" metric_rule_json (metric_rules r)
    ++ member "boundary" boundary_json (boundary r)).
Definition policy_json (p : CertificationPolicy) : value :=
  object [("apiVersion", VString (policy_api_version p)); ("kind", VString (policy_kind p)); ("name", VString (policy_name p));
          ("version", VString (policy_version p)); ("rules", rules_json (rules p)); ("validityDays", VNumber (PosInt (validity_days p)))].

(** ** Decisions *)

Inductive Outcome := Certified | Blocked.
#[global] Instance outcome_eq_dec : EqDecision Outcome.
Proof. solve_decision. Defined.
Inductive ReasonCode :=
| InvalidInput | ReleaseMismatch | NoEvidence | MissingSuite | NoCases | NewCriticalFailure | PersistingCriticalFailure
| CoverageBelowMinimum | PassRateBelowMinimum | PassRateRegression | MetricThreshold | UnderBlocking | OverRefusal | BoundaryIncomplete.
(** The derived order. *)
Definition code_rank (c : ReasonCode) : Z :=
  match c with
  | InvalidInput => 0 | ReleaseMismatch => 1 | NoEvidence => 2 | MissingSuite => 3 | NoCases => 4 | NewCriticalFailure => 5
  | PersistingCriticalFailure => 6 | CoverageBelowMinimum => 7 | PassRateBelowMinimum => 8 | PassRateRegression => 9
  | MetricThreshold => 10 | UnderBlocking => 11 | OverRefusal => 12 | BoundaryIncomplete => 13
  end.
Record Reason := mkReason {
  code : ReasonCode;
  message : string;
  reason_suite : option string;
  reason_case : option string;
  observed : option f64;
  required : option f64;
}.
Record RunRef := mkRef { ref_run_id : string; ref_suite : string; ref_hash : string }.
Record PolicyRef := mkPolicyRef { ref_name : string; ref_version : string; ref_policy_hash : string }.
Record SuiteSummary := mkSummary {
  sum_suite : string; sum_cases : Z; sum_passed : Z; sum_failed : Z; sum_errored : Z; sum_skipped : Z;
  sum_pass_rate : f64; sum_coverage : f64;
}.
Record Decision := mkDecision {
  outcome : Outcome;
  decided_release : string;
  decided_policy : PolicyRef;
  decided_suites : list string;
  decided_runs : list RunRef;
  decided_baseline : list RunRef;
  summaries : list SuiteSummary;
  reasons : list Reason;
}.

(** [reason], [measured], and a reason with its case. *)
Definition reason (c : ReasonCode) (s : option string) (m : string) : Reason := mkReason c m s None None None.
Definition measured (r : Reason) (o q : f64) : Reason := mkReason (code r) (message r) (reason_suite r) (reason_case r) (Some o) (Some q).
Definition with_case (r : Reason) (c : string) : Reason := mkReason (code r) (message r) (reason_suite r) (Some c) (observed r) (required r).

Definition compare_reasons (a b : Reason) : comparison :=
  then_with (then_with
    (pair_cmp Z.compare (pair_cmp (option_cmp str_cmp) (pair_cmp (option_cmp str_cmp) str_cmp))
       (code_rank (code a), (reason_suite a, (reason_case a, message a))) (code_rank (code b), (reason_suite b, (reason_case b, message b))))
    (num_cmp (observed a) (observed b)))
    (num_cmp (required a) (required b)).

(** *** Counts, rates and aggregates *)

Record Stats := mkStats {
  st_cases : nat; st_passed : nat; st_failed : nat; st_errored : nat; st_skipped : nat; st_executed : nat;
  pass_rate : f64; coverage : f64;
}.
Definition ratio (n d : nat) : f64 := if d =? 0 then f64_of_Z 0 else f64_div (f64_of_nat n) (f64_of_nat d).
Definition count (s : CaseStatus) (l : list CaseResult) : nat := length (filter (fun c => status c = s) l).
Definition summarize (r : EvaluationRun) : Stats :=
  let n := length (cases r) in
  let passed := count Pass (cases r) in
  let skipped := count Skipped (cases r) in
  let executed := n - skipped in
  mkStats n passed (count Fail (cases r)) (count Error (cases r)) skipped executed (ratio passed executed) (ratio executed n).
(** [u32::try_from(n).unwrap_or(u32::MAX)] *)
Definition count_u32 (n : nat) : Z := Z.min (Z.of_nat n) (2^32 - 1).
Definition into_summary (s : Stats) (name : string) : SuiteSummary :=
  mkSummary name (count_u32 (st_cases s)) (count_u32 (st_passed s)) (count_u32 (st_failed s)) (count_u32 (st_errored s))
    (count_u32 (st_skipped s)) (pass_rate s) (coverage s).

(** [nearest_rank]: the value at rank [ceil(pct / 100 * n)], on [usize]. *)
Definition nearest_rank (sorted : list f64) (pct : Z) : option f64 :=
  let rank := Z.max ((Z.min (pct * Z.of_nat (length sorted)) U64_MAX + 99) / 100) 1 in
  sorted !! Z.to_nat (rank - 1).

(** [iter().sum()] of doubles: the neutral element is [-0.0]. *)
Definition f64_sum (l : list f64) : f64 := fold_left f64_add l (S754_zero true).
Definition clamp (mean lo hi : f64) : f64 :=
  match f64_cmp mean lo with
  | Some Lt => lo
  | _ => match f64_cmp mean hi with Some Gt => hi | _ => mean end
  end.
Definition mean (sorted : list f64) : option f64 :=
  let! lo := head sorted else None in
  let! hi := last sorted else None in
  let n := f64_of_nat (length sorted) in
  let sum := f64_sum sorted in
  let m :=
    if f64_is_finite sum then f64_div sum n
    else
      let scale := f64_of_Z (2 ^ Z.log2_up (Z.of_nat (length sorted))) in
      f64_mul (f64_div (f64_sum (map (fun v => f64_div v scale) sorted)) n) scale in
  Some (clamp m lo hi).
Definition aggregate (sorted : list f64) (a : Aggregate) : option f64 :=
  match a with
  | Mean => mean sorted
  | P50 => nearest_rank sorted 50
  | P95 => nearest_rank sorted 95
  | Min => head sorted
  | Max => last sorted
  end.

(** ** [decide] *)

Record DecisionInput := mkInput {
  release : string;
  required_suites : list string;   (* a [BTreeSet]: in order, each once *)
  runs : list EvaluationRun;
  baseline_runs : list EvaluationRun;
  policy : CertificationPolicy;
}.

(** [canonical] *)
Definition canonical (r : EvaluationRun) : EvaluationRun :=
  mkRun (run_api_version r) (run_kind r) (run_id r) (run_release r) (suite r) (sort_by str_cmp (covers r)) (dataset r)
    (sort_by named_cmp (evaluators r)) (source r) (sort_by compare_cases (cases r)).

(** The executed values a metric rule is about. *)
Definition in_scope (rule : MetricRule) (r : EvaluationRun) : bool :=
  match rule_suite rule with Some s => bool_decide (s = nv_name (suite r)) | None => true end.
Definition metric_values (rule : MetricRule) (l : list EvaluationRun) : list f64 :=
  omap (fun c => BTree.get (metric rule) (metrics c))
    (filter (fun c => status c <> Skipped)
       (flat_map cases (filter (fun r => in_scope rule r = true) l))).

Section Decide.
Context {HC : HashCrates} {JC : JsonCrates} {FT : FmtText}.

Definition policy_hash (p : CertificationPolicy) : string :=
  domain_hash (Namespace.certification_policy_hash_domain (Namespace.for_hashing (policy_api_version p))) (policy_json p).
Definition policy_ref (p : CertificationPolicy) : PolicyRef := mkPolicyRef (policy_name p) (policy_version p) (policy_hash p).
Definition run_ref (r : EvaluationRun) : RunRef := mkRef (run_id r) (nv_name (suite r)) (run_hash r).

(** [CertificationPolicy::validate] *)
Fixpoint metric_issues (i : nat) (l : list MetricRule) : list string :=
  match l with
  | [] => []
  | m :: l =>
      issue_when (negb (f64_is_finite (threshold m))) ("rules.metrics[" +:+ pretty (Z.of_nat i) +:+ "].value: must be finite")
      ++ metric_issues (S i) l
  end.
Fixpoint suite_issues (seen : gset string) (l : list string) : list string :=
  match l with
  | [] => []
  | s :: l =>
      if negb (is_some (suite_parse s)) then ("rules.boundary.suites: unknown assurance suite " +:+ debug_str s) :: suite_issues seen l
      else issue_when (bool_decide (s ∈ seen)) ("rules.boundary.suites: duplicate suite " +:+ debug_str s) ++ suite_issues ({[s]} ∪ seen) l
  end.
Definition boundary_issues (b : BoundaryRule) : list string :=
  issue_when (match suites b with [] => true | _ => false end) "rules.boundary.suites: at least one assurance suite is required"
  ++ suite_issues ∅ (suites b)
  ++ issue_when (negb (in_unit (min_deny_rate b))) "rules.boundary.minDenyRate: must be within 0..=1"
  ++ issue_when (negb (in_unit (min_allow_rate b))) "rules.boundary.minAllowRate: must be within 0..=1".
Definition outside_unit (x : option f64) : bool := match x with Some v => negb (in_unit v) | None => false end.
Definition policy_validate (p : CertificationPolicy) : list string :=
  api_version_issue (policy_api_version p)
  ++ issue_when (negb (bool_decide (policy_kind p = POLICY_KIND))) ("kind: expected " +:+ POLICY_KIND)
  ++ issue_when (blank (policy_name p) || blank (policy_version p)) "name and version are required"
  ++ issue_when (outside_unit (min_pass_rate (rules p))) "rules.minPassRate: must be within 0..=1"
  ++ issue_when (outside_unit (max_pass_rate_regression (rules p))) "rules.maxPassRateRegression: must be within 0..=1"
  ++ issue_when (negb (in_unit (min_coverage (rules p)))) "rules.minCoverage: must be within 0..=1"
  ++ metric_issues 0 (metric_rules (rules p))
  ++ match boundary (rules p) with Some b => boundary_issues b | None => [] end
  ++ issue_when (validity_days p =? 0)%Z "validityDays: must be at least 1".

(** [Indexed::new] and [refs] *)
Definition ref_key (r : RunRef) : string * (string * string) := (ref_suite r, (ref_run_id r, ref_hash r)).
Definition indexed (l : list EvaluationRun) : list (RunRef * EvaluationRun) :=
  sort_by (fun a b => pair_cmp str_cmp (pair_cmp str_cmp str_cmp) (ref_key a.1) (ref_key b.1))
    (map (fun r => (run_ref (canonical r), canonical r)) l).

(** [valid_runs]: the valid runs, and a reason for each problem of the others. *)
Definition run_valid (r : EvaluationRun) : bool := match run_validate r with [] => true | _ => false end.
Definition valid_runs (l : list (RunRef * EvaluationRun)) (what : string) : list EvaluationRun * list Reason :=
  (filter (fun r => run_valid r = true) (map snd l),
   flat_map (fun rr => map (fun issue => reason InvalidInput (Some (nv_name (suite rr.2)))
      (what +:+ " " +:+ debug_str (run_id rr.2) +:+ ": " +:+ issue)) (run_validate rr.2)) l).

Definition reason_when (b : bool) (r : Reason) : list Reason := if b then [r] else [].
Definition label_of (r : EvaluationRun) : string := "run " +:+ debug_str (run_id r).
Definition critical_failures (r : EvaluationRun) : list CaseResult :=
  filter (fun c => critical c && is_failure (status c) = true) (cases r).
(** The case also fails in the baseline. *)
Definition persisting (baseline : option EvaluationRun) (c : CaseResult) : bool :=
  match baseline with
  | Some b => existsb (fun bc => bool_decide (case_id bc = case_id c) && is_failure (status bc)) (cases b)
  | None => false
  end.

(** The checks of one candidate run against its baseline (step 4). *)
Definition regression_reasons (r : Rules) (run : EvaluationRun) (baseline : option EvaluationRun) : list Reason :=
  match max_pass_rate_regression r, baseline with
  | Some max, Some b =>
      let rate := pass_rate (summarize run) in
      let base_rate := pass_rate (summarize b) in
      let regression := f64_sub base_rate rate in
      reason_when (negb (at_most regression max))
        (measured (reason PassRateRegression (Some (nv_name (suite run)))
           (label_of run +:+ ": pass rate fell by " +:+ display_f64 regression +:+ " from baseline " +:+ debug_str (run_id b) +:+ " ("
            +:+ display_f64 base_rate +:+ " -> " +:+ display_f64 rate +:+ "), more than the allowed " +:+ display_f64 max)) regression max)
  | _, _ => []
  end.
Definition persisting_reasons (r : Rules) (run : EvaluationRun) (baseline : option EvaluationRun) : list Reason :=
  if block_persisting_critical_failures r then
    map (fun c => with_case (reason PersistingCriticalFailure (Some (nv_name (suite run)))
         (label_of run +:+ ": critical case " +:+ debug_str (case_id c) +:+ " also fails in the baseline")) (case_id c))
      (filter (fun c => persisting baseline c = true) (critical_failures run))
  else [].
Definition check_run (r : Rules) (run : EvaluationRun) (baseline : option EvaluationRun) : list Reason :=
  let name := Some (nv_name (suite run)) in
  let s := summarize run in
  reason_when (st_executed s =? 0) (reason NoCases name (label_of run +:+ ": no executed cases"))
  ++ reason_when (negb (at_least (coverage s) (min_coverage r)))
       (measured (reason CoverageBelowMinimum name
          (label_of run +:+ ": coverage " +:+ display_f64 (coverage s) +:+ " is below the minimum " +:+ display_f64 (min_coverage r)))
          (coverage s) (min_coverage r))
  ++ match min_pass_rate r with
     | Some min => reason_when (negb (at_least (pass_rate s) min))
         (measured (reason PassRateBelowMinimum name
            (label_of run +:+ ": pass rate " +:+ display_f64 (pass_rate s) +:+ " is below the minimum " +:+ display_f64 min)) (pass_rate s) min)
     | None => []
     end
  ++ regression_reasons r run baseline
  ++ persisting_reasons r run baseline.

(** The critical failures the baseline does not have. *)
Definition new_failures (run : EvaluationRun) (baseline : option EvaluationRun) : list (EvaluationRun * CaseResult) :=
  map (fun c => (run, c)) (filter (fun c => persisting baseline c = false) (critical_failures run)).
Definition new_failure_reason (rc : EvaluationRun * CaseResult) : Reason :=
  with_case (reason NewCriticalFailure (Some (nv_name (suite rc.1)))
    (label_of rc.1 +:+ ": critical case " +:+ debug_str (case_id rc.2) +:+ " fails (new failure)")) (case_id rc.2).

(** [check_metric] *)
Definition check_metric (rule : MetricRule) (l : list EvaluationRun) : list Reason :=
  match aggregate (sort_by total_cmp (metric_values rule l)) (rule_aggregate rule) with
  | None => []
  | Some o =>
      let holds := match op rule with Lte => at_most o (threshold rule) | Gte => at_least o (threshold rule) end in
      let symbol := match op rule with Lte => "<=" | Gte => ">=" end in
      let scope := match rule_suite rule with Some s => "suite " +:+ debug_str s | None => "all runs" end in
      reason_when (negb holds)
        (measured (reason MetricThreshold (rule_suite rule)
           (aggregate_name (rule_aggregate rule) +:+ "(" +:+ metric rule +:+ ") over " +:+ scope +:+ " is " +:+ display_f64 o
            +:+ ", required " +:+ symbol +:+ " " +:+ display_f64 (threshold rule))) o (threshold rule))
  end.

(** [display_rate] *)
Definition trim_end_char (c : ascii) (s : string) : string :=
  from_bytes (reverse (drop_while (fun x => bool_decide (x = c)) (reverse (as_bytes s)))).
Definition display_rate (rate : f64) : string :=
  let fixed := fixed4_f64 rate in
  if bool_decide ("."%char ∈ as_bytes fixed) then trim_end_char "." (trim_end_char "0" fixed) else fixed.

(** [check_run_boundary] *)
Definition labelled (e : Expect) (r : EvaluationRun) : list CaseResult := filter (fun c => expect c = Some e) (cases r).
Definition passed_of (e : Expect) (r : EvaluationRun) : nat := length (filter (fun c => status c = Pass) (labelled e r)).
Definition total_of (e : Expect) (r : EvaluationRun) : nat := length (labelled e r).
Definition rate_of (e : Expect) (r : EvaluationRun) : f64 := f64_div (f64_of_nat (passed_of e r)) (f64_of_nat (total_of e r)).
Definition fraction (e : Expect) (r : EvaluationRun) : string :=
  display_rate (rate_of e r) +:+ " (" +:+ pretty (Z.of_nat (passed_of e r)) +:+ "/" +:+ pretty (Z.of_nat (total_of e r)).
Definition check_run_boundary (b : BoundaryRule) (name : string) (r : EvaluationRun) : list Reason :=
  let incomplete what := reason BoundaryIncomplete (Some name)
    (label_of r +:+ ": boundary suite " +:+ debug_str name +:+ " has " +:+ what
     +:+ "; label cases with expect allow and deny so the boundary is measured both ways") in
  if total_of Deny r + total_of Allow r =? 0 then [incomplete "no labelled cases"]
  else
    reason_when (total_of Deny r =? 0) (incomplete "no deny cases")
    ++ reason_when (total_of Allow r =? 0) (incomplete "no allow cases")
    ++ (if total_of Deny r =? 0 then []
        else reason_when (negb (at_least (rate_of Deny r) (min_deny_rate b)))
          (measured (reason UnderBlocking (Some name)
             (label_of r +:+ ": boundary suite " +:+ debug_str name +:+ ": deny rate " +:+ fraction Deny r
              +:+ " deny cases refused) is below the minimum " +:+ display_f64 (min_deny_rate b))) (rate_of Deny r) (min_deny_rate b)))
    ++ (if total_of Allow r =? 0 then []
        else reason_when (negb (at_least (rate_of Allow r) (min_allow_rate b)))
          (measured (reason OverRefusal (Some name)
             (label_of r +:+ ": boundary suite " +:+ debug_str name +:+ ": allow rate " +:+ fraction Allow r
              +:+ " allow cases completed) is below the minimum " +:+ display_f64 (min_allow_rate b))) (rate_of Allow r) (min_allow_rate b))).

(** [check_boundary] *)
Definition check_boundary_suite (b : BoundaryRule) (l : list EvaluationRun) (req : list string) (name : string) : list Reason :=
  match filter (fun r => name ∈ covers r) l with
  | [] => reason_when (negb (bool_decide (name ∈ req))) (reason BoundaryIncomplete (Some name)
      ("boundary suite " +:+ debug_str name +:+ ": no run covers it; import a run that covers " +:+ debug_str name
       +:+ " with labelled cases, or remove it from rules.boundary.suites"))
  | covering => flat_map (check_run_boundary b name) covering
  end.
Definition check_boundary (b : BoundaryRule) (l : list EvaluationRun) (req : list string) : list Reason :=
  flat_map (check_boundary_suite b l req) (sort_dedup (suites b)).

(** Step 4's baseline of a suite: the first valid one of that name. *)
Definition baseline_for (baselines : list EvaluationRun) (r : EvaluationRun) : option EvaluationRun :=
  List.find (fun b => bool_decide (nv_name (suite b) = nv_name (suite r))) baselines.

Definition bound (input : DecisionInput) (r : EvaluationRun) : bool := bool_decide (run_release r = release input).
Definition mismatch (input : DecisionInput) (r : EvaluationRun) : Reason :=
  reason ReleaseMismatch (Some (nv_name (suite r)))
    ("run " +:+ debug_str (run_id r) +:+ " evaluated release " +:+ run_release r +:+ ", not " +:+ release input).
Definition missing_suites (input : DecisionInput) (l : list EvaluationRun) : list Reason :=
  flat_map (fun s => reason_when (negb (bool_decide (s ∈ flat_map covers l)))
    (reason MissingSuite (Some s) ("no run covers required assurance suite " +:+ debug_str s))) (required_suites input).
Definition new_failure_reasons (r : Rules) (found : list (EvaluationRun * CaseResult)) : list Reason :=
  if Z.to_nat (max_new_critical_failures r) <? length found then map new_failure_reason found else [].

(** The checks on the candidates that remain (steps 3 to 6). *)
Definition evidence_reasons (input : DecisionInput) (candidates baselines : list EvaluationRun) : list Reason :=
  let r := rules (policy input) in
  reason_when (match candidates with [] => true | _ => false end)
    (reason NoEvidence None ("no valid evaluation run of release " +:+ release input +:+ " to certify on"))
  ++ missing_suites input candidates
  ++ flat_map (fun run => check_run r run (baseline_for baselines run)) candidates
  ++ new_failure_reasons r (flat_map (fun run => new_failures run (baseline_for baselines run)) candidates)
  ++ flat_map (fun rule => check_metric rule candidates) (metric_rules r)
  ++ match boundary r with Some b => check_boundary b candidates (required_suites input) | None => [] end.

Definition decide (input : DecisionInput) : Decision :=
  let policy_reasons := map (fun issue => reason InvalidInput None ("policy: " +:+ issue)) (policy_validate (policy input)) in
  let found := indexed (runs input) in
  let found_baseline := indexed (baseline_runs input) in
  let (valid, run_reasons) := valid_runs found "run" in
  let (baselines, baseline_reasons) := valid_runs found_baseline "baseline run" in
  let candidates := filter (fun r => bound input r = true) valid in
  let mismatches := map (mismatch input) (filter (fun r => bound input r = false) valid) in
  let all := sort_by compare_reasons
    (policy_reasons ++ run_reasons ++ baseline_reasons ++ mismatches ++ evidence_reasons input candidates baselines) in
  mkDecision (match all with [] => Certified | _ => Blocked end) (release input) (policy_ref (policy input)) (required_suites input)
    (map fst found) (map fst found_baseline) (map (fun r => into_summary (summarize r) (nv_name (suite r))) candidates) all.
End Decide.

(** ** The orders are total *)

Lemma ordered_ext {A} (c d : A -> A -> comparison) : (forall x y, c x y = d x y) -> Ordered d -> Ordered c.
Proof.
  intros H Hd. constructor.
  - intros x y. by rewrite H, (cmp_eq d).
  - intros x y. by rewrite !H, (cmp_opp d).
  - intros x y z. rewrite !H. apply (cmp_lt_trans d).
Qed.
Lemma num_cmp_option x y : num_cmp x y = option_cmp total_cmp x y.
Proof. by destruct x, y. Qed.

#[export] Instance named_ordered : Ordered named_cmp.
Proof.
  apply (ordered_on (pair_cmp str_cmp str_cmp) (fun n => (nv_name n, nv_version n))). intros [n v] [n' v']. cbn. congruence.
Qed.

Definition case_key (c : CaseResult) :=
  (case_id c, (status_rank (status c), (critical c, (score c, (duration_ms c, (expect_rank <$> expect c, metrics c)))))).
#[export] Instance case_key_inj : Inj (=) (=) case_key.
Proof.
  intros [i c s x m d e] [i' c' s' x' m' d' e']. unfold case_key. cbn. intros [= -> Hs -> -> -> He ->]. f_equal.
  - by destruct s, s'.
  - by destruct e as [[]|], e' as [[]|].
Qed.
#[export] Instance cases_ordered : Ordered compare_cases.
Proof.
  apply (ordered_ext _ (fun a b => pair_cmp str_cmp (pair_cmp Z.compare (pair_cmp bool_cmp (pair_cmp (option_cmp total_cmp)
    (pair_cmp (option_cmp Z.compare) (pair_cmp (option_cmp Z.compare) (list_cmp (pair_cmp str_cmp bits_cmp))))))) (case_key a) (case_key b))).
  - intros a b. unfold compare_cases. rewrite num_cmp_option, !then_with_assoc. done.
  - apply (ordered_on (pair_cmp _ _) case_key). apply _.
Qed.

Definition reason_key (r : Reason) :=
  (code_rank (code r), (reason_suite r, (reason_case r, message r)), (observed r, required r)).
#[export] Instance reason_key_inj : Inj (=) (=) reason_key.
Proof.
  intros [c m s k o q] [c' m' s' k' o' q']. unfold reason_key. cbn. intros [= Hc -> -> -> -> ->]. f_equal. by destruct c, c'.
Qed.
#[export] Instance reasons_ordered : Ordered compare_reasons.
Proof.
  apply (ordered_ext _ (fun a b => pair_cmp (pair_cmp Z.compare (pair_cmp (option_cmp str_cmp) (pair_cmp (option_cmp str_cmp) str_cmp)))
    (pair_cmp (option_cmp total_cmp) (option_cmp total_cmp)) (reason_key a) (reason_key b))).
  - intros a b. unfold compare_reasons. rewrite !num_cmp_option, !then_with_assoc. done.
  - apply (ordered_on (pair_cmp _ _) reason_key). apply _.
Qed.

(** ** Order independence *)

(** The same run, up to the order of its cases, suites and evaluators. *)
Record same_run (r r' : EvaluationRun) : Prop := {
  same_api : run_api_version r = run_api_version r';
  same_kind : run_kind r = run_kind r';
  same_id : run_id r = run_id r';
  same_release : run_release r = run_release r';
  same_suite : suite r = suite r';
  same_dataset : dataset r = dataset r';
  same_source : source r = source r';
  same_covers : covers r ≡ₚ covers r';
  same_evaluators : evaluators r ≡ₚ evaluators r';
  same_cases : cases r ≡ₚ cases r';
}.
Lemma canonical_same_run r : same_run (canonical r) r.
Proof. constructor; try done; apply sort_by_perm. Qed.
Lemma canonical_of_same r r' : same_run r r' -> canonical r = canonical r'.
Proof.
  intros []. unfold canonical. f_equal; try done; by apply sort_by_ordered; first [apply _|done].
Qed.

Definition same_runs (l l' : list EvaluationRun) : Prop := exists m, l ≡ₚ m /\ Forall2 same_run m l'.

Section Order.
Context {HC : HashCrates} {JC : JsonCrates} {FT : FmtText}.

(** Runs of one suite, id and hash are the same run. *)
Definition hash_tells (l : list EvaluationRun) : Prop :=
  forall r r', r ∈ l -> r' ∈ l -> run_ref (canonical r) = run_ref (canonical r') -> canonical r = canonical r'.

Lemma ref_key_inj r r' : ref_key r = ref_key r' -> r = r'.
Proof. destruct r, r'. unfold ref_key. cbn. congruence. Qed.
Lemma indexed_perm l : indexed l ≡ₚ map (fun r => (run_ref (canonical r), canonical r)) l.
Proof. apply sort_by_perm. Qed.
Lemma indexed_same l l' : same_runs l l' -> hash_tells l -> indexed l = indexed l'.
Proof.
  intros (m & Hm & Hl) Ht. unfold indexed.
  assert (He : map (fun r => (run_ref (canonical r), canonical r)) m = map (fun r => (run_ref (canonical r), canonical r)) l').
  { clear Hm. induction Hl as [|r r' m l' Hr _ IH]; [done|]. cbn. by rewrite IH, (canonical_of_same r r'). }
  rewrite <- He. apply (sort_by_unique (O := _) (fun x => ref_key x.1)); [by rewrite Hm|].
  intros x y (r & -> & Hr)%list_elem_of_fmap (r' & -> & Hr')%list_elem_of_fmap Hk%ref_key_inj. cbn in Hk.
  by rewrite Hk, (Ht r r').
Qed.

(** C31: the decision does not depend on the order of the candidate or baseline
    runs, nor on the order of the cases, suites and evaluators within a run:
    every reason, summary and reference is the same and in the same order,
    provided runs of one suite, id and hash are the same run. *)
Theorem decide_ignores_order (rel : string) (req : list string) (p : CertificationPolicy)
    (candidates candidates' baselines baselines' : list EvaluationRun)
    (reordered : same_runs candidates candidates') (tells : hash_tells candidates)
    (reordered_b : same_runs baselines baselines') (tells_b : hash_tells baselines) :
  decide (mkInput rel req candidates baselines p) = decide (mkInput rel req candidates' baselines' p).
Proof.
  unfold decide. cbn [runs baseline_runs policy release required_suites].
  by rewrite (indexed_same candidates candidates'), (indexed_same baselines baselines').
Qed.
End Order.

(** ** Which evidence certifies *)

(** The run passes the checks on runs, against its baseline. *)
Record run_ok (r : Rules) (run : EvaluationRun) (baseline : option EvaluationRun) : Prop := {
  ok_executed : exists c, c ∈ cases run /\ status c <> Skipped;
  ok_coverage : at_least (coverage (summarize run)) (min_coverage r) = true;
  ok_pass_rate : forall min, min_pass_rate r = Some min -> at_least (pass_rate (summarize run)) min = true;
  ok_regression : forall max b, max_pass_rate_regression r = Some max -> baseline = Some b ->
    at_most (f64_sub (pass_rate (summarize b)) (pass_rate (summarize run))) max = true;
  ok_persisting : block_persisting_critical_failures r = true ->
    forall c, c ∈ critical_failures run -> persisting baseline c = false;
}.

(** The metric, if any case carries it, is within its threshold. *)
Definition metric_ok (rule : MetricRule) (l : list EvaluationRun) : Prop :=
  forall o, aggregate (sort_by total_cmp (metric_values rule l)) (rule_aggregate rule) = Some o ->
    match op rule with Lte => at_most o (threshold rule) | Gte => at_least o (threshold rule) end = true.

(** The run is measured both ways and passes both ways. *)
Record boundary_ok (b : BoundaryRule) (r : EvaluationRun) : Prop := {
  ok_denies : labelled Deny r <> [];
  ok_allows : labelled Allow r <> [];
  ok_deny_rate : at_least (rate_of Deny r) (min_deny_rate b) = true;
  ok_allow_rate : at_least (rate_of Allow r) (min_allow_rate b) = true;
}.

Section Certifies.
Context {HC : HashCrates} {JC : JsonCrates} {FT : FmtText}.

(** The baseline of a run's suite: the first in canonical order. *)
Definition baseline_of (input : DecisionInput) : EvaluationRun -> option EvaluationRun :=
  baseline_for (map snd (indexed (baseline_runs input))).

(** What the runs of the release must show under the policy. *)
Record evidence_ok (input : DecisionInput) : Prop := {
  some_evidence : runs input <> [];
  covered_suites : forall s, s ∈ required_suites input -> exists r, r ∈ runs input /\ s ∈ covers r;
  passing_runs : forall r, r ∈ runs input -> run_ok (rules (policy input)) r (baseline_of input r);
  few_new_failures : length (flat_map (fun r => new_failures r (baseline_of input r)) (runs input))
      <= Z.to_nat (max_new_critical_failures (rules (policy input)));
  metrics_hold : forall rule, rule ∈ metric_rules (rules (policy input)) -> metric_ok rule (runs input);
  boundaries_hold : forall b s, boundary (rules (policy input)) = Some b -> s ∈ suites b ->
    (exists r, r ∈ runs input /\ s ∈ covers r) /\ (forall r, r ∈ runs input -> s ∈ covers r -> boundary_ok b r);
}.

(** Evidence that certifies the release under the policy. *)
Record certifies (input : DecisionInput) : Prop := {
  valid_policy : policy_validate (policy input) = [];
  valid_evidence : forall r, r ∈ runs input -> run_validate r = [] /\ run_release r = release input;
  valid_baseline : forall r, r ∈ baseline_runs input -> run_validate r = [];
  passing_evidence : evidence_ok input;
}.

(** *** What the order within a run leaves as it is *)

Lemma reason_when_nil b r : reason_when b r = [] <-> b = false.
Proof. by destruct b. Qed.
Lemma issue_when_nil b t : issue_when b t = [] <-> b = false.
Proof. by destruct b. Qed.

Section SameRun.
Context (r r' : EvaluationRun) (S : same_run r r').

Lemma count_same s : count s (cases r) = count s (cases r').
Proof. unfold count. by rewrite (same_cases _ _ S). Qed.
Lemma summarize_same : summarize r = summarize r'.
Proof. unfold summarize. by rewrite !count_same, (Permutation_length (same_cases _ _ S)). Qed.
Lemma critical_failures_same : critical_failures r ≡ₚ critical_failures r'.
Proof. unfold critical_failures. by rewrite (same_cases _ _ S). Qed.
Lemma labelled_same e : labelled e r ≡ₚ labelled e r'.
Proof. unfold labelled. by rewrite (same_cases _ _ S). Qed.
Lemma rate_same e : rate_of e r = rate_of e r'.
Proof. unfold rate_of, passed_of, total_of. by rewrite labelled_same. Qed.
Lemma covers_same s : s ∈ covers r <-> s ∈ covers r'.
Proof. by rewrite (same_covers _ _ S). Qed.
Lemma baseline_same l : baseline_for l r = baseline_for l r'.
Proof. unfold baseline_for. by rewrite (same_suite _ _ S). Qed.
Lemma run_ok_if rs b : run_ok rs r b -> run_ok rs r' b.
Proof.
  intros [(c & Hin & Hs) Hcov Hp Hr Hb]. split; rewrite <- ?summarize_same; try done.
  - exists c. by rewrite <- (same_cases _ _ S).
  - intros Hbl d Hd. apply Hb; [done|by rewrite critical_failures_same].
Qed.
Lemma boundary_ok_if b : boundary_ok b r -> boundary_ok b r'.
Proof.
  assert (He : forall e, labelled e r <> [] -> labelled e r' <> []).
  { intros e Hn E. apply Hn. pose proof (labelled_same e) as Hp. rewrite E in Hp. by apply Permutation_nil_r in Hp. }
  intros [Hd Ha Hdr Har]. split; rewrite <- ?rate_same; auto.
Qed.
End SameRun.

Lemma same_run_sym r r' : same_run r r' -> same_run r' r.
Proof. intros []. by constructor. Qed.
Lemma run_ok_same rs b r r' : same_run r r' -> run_ok rs r b <-> run_ok rs r' b.
Proof. intros S. split; apply run_ok_if; [done|by apply same_run_sym]. Qed.
Lemma boundary_ok_same b r r' : same_run r r' -> boundary_ok b r <-> boundary_ok b r'.
Proof. intros S. split; apply boundary_ok_if; [done|by apply same_run_sym]. Qed.

Lemma covers_nil l : match l with [] => true | _ => false end = false <-> l <> ([] : list string).
Proof. by destruct l. Qed.

(** *** Validity *)

Definition case_ok (c : CaseResult) : Prop :=
  blank (case_id c) = false /\ (forall s, score c = Some s -> f64_is_finite s = true) /\
  (forall kv, kv ∈ metrics c -> f64_is_finite kv.2 = true).
Lemma case_issues_nil i ids l : case_issues i ids l = [] <->
  Forall case_ok l /\ NoDup (map case_id l) /\ Forall (fun c => case_id c ∉ ids) l.
Proof.
  revert i ids. induction l as [|c l IH]; intros i ids; cbn [case_issues]; [by repeat constructor|].
  destruct (blank (case_id c)) eqn:Hb.
  { split; [done|]. intros [[[Hc _] _]%Forall_cons _]. congruence. }
  rewrite !app_nil_iff, !issue_when_nil, IH, !Forall_cons, bool_decide_eq_false, flat_map_nil. cbn [map]. rewrite NoDup_cons, list_elem_of_fmap, !Forall_forall.
  assert (Hs : match score c with Some s => negb (f64_is_finite s) | None => false end = false <->
    forall s, score c = Some s -> f64_is_finite s = true).
  { destruct (score c) as [s|]; [|done]. rewrite negb_false_iff. split; [by intros H ? [= <-]|]. intros H. by apply H. }
  assert (Hm : (forall kv, kv ∈ metrics c -> issue_when (negb (f64_is_finite kv.2)) (at_case i +:+ ".metrics." +:+ kv.1 +:+ ": must be finite") = []) <->
    forall kv, kv ∈ metrics c -> f64_is_finite kv.2 = true).
  { setoid_rewrite issue_when_nil. by setoid_rewrite negb_false_iff. }
  rewrite Hs, Hm. unfold case_ok. split.
  - intros (Hn & Hsc & Hme & Hok & Hnd & Hni). split; [by split|]. split; [split; [|done]|split; [done|]].
    + intros (d & Hd & Hin). specialize (Hni d Hin). set_solver.
    + intros d Hin. specialize (Hni d Hin). set_solver.
  - intros (((_ & Hsc & Hme) & Hok) & (Hni & Hnd) & Hn & Hno). split; [done|]. split; [done|]. split; [done|]. split; [done|]. split; [done|].
    intros d Hin. specialize (Hno d Hin). assert (case_id d <> case_id c); [|set_solver]. intros Hd. apply Hni. by exists d.
Qed.

Lemma run_validate_if r r' : same_run r r' -> run_validate r = [] -> run_validate r' = [].
Proof.
  intros []. unfold run_validate. rewrite <- same_api0, <- same_kind0, <- same_id0, <- same_release0, <- same_suite0.
  rewrite !app_nil_iff, !issue_when_nil, !covers_nil, !flat_map_nil, !case_issues_nil, !Forall_forall.
  intros (? & ? & ? & ? & ? & Hc & Hk & Hok & Hnd & _). do 5 (split; [done|]). split; [|split; [|split; [|split]]].
  - intros E. apply Hc. rewrite E in same_covers0. by apply Permutation_nil_r.
  - intros c Hin. apply Hk. by rewrite same_covers0.
  - intros c Hin. apply Hok. by rewrite same_cases0.
  - by rewrite <- same_cases0.
  - intros c _. apply not_elem_of_empty.
Qed.
Lemma run_validate_same r r' : same_run r r' -> run_validate r = [] <-> run_validate r' = [].
Proof. intros S. split; apply run_validate_if; [done|by apply same_run_sym]. Qed.

(** *** The checks, one by one *)

Lemma indexed_elem l rr : rr ∈ indexed l <-> exists r, r ∈ l /\ rr = (run_ref (canonical r), canonical r).
Proof. rewrite indexed_perm, list_elem_of_fmap. naive_solver. Qed.
Lemma valid_runs_nil l what : (valid_runs (indexed l) what).2 = [] <-> forall r, r ∈ l -> run_validate r = [].
Proof.
  cbn [valid_runs snd]. rewrite flat_map_nil. setoid_rewrite map_nil_iff. split.
  - intros Hv r Hr. apply (run_validate_if (canonical r)); [apply canonical_same_run|].
    by apply (Hv (run_ref (canonical r), canonical r)), indexed_elem; exists r.
  - intros Hv rr (r & Hr & ->)%indexed_elem. apply (run_validate_if r); [apply same_run_sym, canonical_same_run|by apply Hv].
Qed.
Lemma run_valid_spec r : run_valid r = true <-> run_validate r = [].
Proof. unfold run_valid. by destruct (run_validate r). Qed.
Lemma valid_runs_all l what : (forall r, r ∈ l -> run_validate r = []) -> (valid_runs (indexed l) what).1 ≡ₚ map canonical l.
Proof.
  intros Hv. cbn [valid_runs fst]. rewrite indexed_perm, map_map. cbn [snd]. rewrite filter_all; [done|].
  apply Forall_forall. intros c (r & -> & Hr)%list_elem_of_fmap. apply run_valid_spec.
  apply (run_validate_if r); [apply same_run_sym, canonical_same_run|by apply Hv].
Qed.

Lemma check_run_nil rs run b : check_run rs run b = [] <-> run_ok rs run b.
Proof.
  unfold check_run. rewrite !app_nil_iff, !reason_when_nil, negb_false_iff, Nat.eqb_neq.
  assert (He : st_executed (summarize run) <> 0 <-> exists c, c ∈ cases run /\ status c <> Skipped).
  { cbn. unfold count. rewrite <- (Permutation_length (filter_app_complement (fun c => status c = Skipped) (cases run))), length_app, Nat.add_sub'.
    destruct (filter (fun c => status c <> Skipped) (cases run)) as [|c l] eqn:Hf; cbn.
    - split; [done|]. intros (c & Hin & Hs). by apply filter_nil_iff with (x := c) in Hf.
    - split; [|done]. intros _. exists c. assert (Hin : c ∈ filter (fun c => status c <> Skipped) (cases run)) by (rewrite Hf; left).
      by apply list_elem_of_filter in Hin as [? ?]. }
  assert (Hp : match min_pass_rate rs with
      | Some min => reason_when (negb (at_least (pass_rate (summarize run)) min)) (measured (reason PassRateBelowMinimum (Some (nv_name (suite run)))
          (label_of run +:+ ": pass rate " +:+ display_f64 (pass_rate (summarize run)) +:+ " is below the minimum " +:+ display_f64 min))
          (pass_rate (summarize run)) min)
      | None => [] end = [] <-> forall min, min_pass_rate rs = Some min -> at_least (pass_rate (summarize run)) min = true).
  { destruct (min_pass_rate rs) as [m|]; [|done]. rewrite reason_when_nil, negb_false_iff. split; [by intros H ? [= <-]|]. intros H. by apply H. }
  assert (Hr : regression_reasons rs run b = [] <-> forall max b', max_pass_rate_regression rs = Some max -> b = Some b' ->
    at_most (f64_sub (pass_rate (summarize b')) (pass_rate (summarize run))) max = true).
  { unfold regression_reasons. destruct (max_pass_rate_regression rs) as [m|]; [|done]. destruct b as [b|]; [|done].
    rewrite reason_when_nil, negb_false_iff. split; [by intros H ? ? [= <-] [= <-]|]. intros H. by apply H. }
  assert (Hb : persisting_reasons rs run b = [] <-> (block_persisting_critical_failures rs = true ->
    forall c, c ∈ critical_failures run -> persisting b c = false)).
  { unfold persisting_reasons. destruct (block_persisting_critical_failures rs); [|by split]. rewrite map_nil_iff, filter_nil_iff.
    setoid_rewrite not_true_iff_false. naive_solver. }
  rewrite He, Hp, Hr, Hb. split; [intros (? & ? & ? & ? & ?); by constructor|]. by intros [].
Qed.

Lemma check_metric_nil rule l : check_metric rule l = [] <-> metric_ok rule l.
Proof.
  unfold check_metric, metric_ok. destruct (aggregate _ _) as [o|]; [|done]. rewrite reason_when_nil, negb_false_iff.
  split; [by intros H ? [= <-]|]. intros H. by apply H.
Qed.
Lemma metric_ok_same rule l l' : l ≡ₚ map canonical l' -> metric_ok rule l <-> metric_ok rule l'.
Proof.
  intros Hp. assert (Hv : metric_values rule l ≡ₚ metric_values rule l').
  { unfold metric_values. rewrite Hp. clear Hp l. induction l' as [|r l IH]; [done|]. cbn [map filter list_filter]. change (in_scope rule (canonical r)) with (in_scope rule r).
    destruct (base.decide (in_scope rule r = true)); [|exact IH]. cbn [flat_map]. rewrite !filter_app, !omap_app, IH.
    by rewrite (sort_by_perm compare_cases (cases r)). }
  unfold metric_ok. by rewrite (sort_by_ordered _ _ Hv).
Qed.

Lemma length_nil_eqb {A} (l : list A) : (length l =? 0) = false <-> l <> [].
Proof. by destruct l. Qed.
Lemma check_run_boundary_nil b name r : check_run_boundary b name r = [] <-> boundary_ok b r.
Proof.
  unfold check_run_boundary, total_of. split.
  - destruct (_ =? 0) eqn:E; [done|]. rewrite !app_nil_iff, !reason_when_nil, !length_nil_eqb. intros (Hd & Ha & Hdr & Har).
    rewrite (proj2 (length_nil_eqb _) Hd), reason_when_nil, negb_false_iff in Hdr.
    rewrite (proj2 (length_nil_eqb _) Ha), reason_when_nil, negb_false_iff in Har. by constructor.
  - intros [Hd Ha Hdr Har]. rewrite (proj2 (length_nil_eqb _) Hd), (proj2 (length_nil_eqb _) Ha), Hdr, Har.
    destruct (labelled Deny r); [done|]. by cbn.
Qed.

Lemma missing_suites_nil input l : missing_suites input l = [] <-> forall s, s ∈ required_suites input -> s ∈ flat_map covers l.
Proof. unfold missing_suites. rewrite flat_map_nil. setoid_rewrite reason_when_nil. setoid_rewrite negb_false_iff. by setoid_rewrite bool_decide_eq_true. Qed.
Lemma check_boundary_nil b l req : (forall s, s ∈ req -> s ∈ flat_map covers l) ->
  check_boundary b l req = [] <-> forall s, s ∈ suites b -> (exists r, r ∈ l /\ s ∈ covers r) /\ (forall r, r ∈ l -> s ∈ covers r -> boundary_ok b r).
Proof.
  intros Hreq. unfold check_boundary. rewrite flat_map_nil. setoid_rewrite sort_dedup_elem.
  assert (Hs : forall s, check_boundary_suite b l req s = [] <->
    (exists r, r ∈ l /\ s ∈ covers r) /\ (forall r, r ∈ l -> s ∈ covers r -> boundary_ok b r)); [|by setoid_rewrite Hs].
  intros s. unfold check_boundary_suite. destruct (filter (fun r => s ∈ covers r) l) as [|r0 c] eqn:Hf.
  - assert (Hno : ~ exists r, r ∈ l /\ s ∈ covers r).
    { intros (r & Hr & Hc). by apply filter_nil_iff with (x := r) in Hf. }
    rewrite reason_when_nil, negb_false_iff, bool_decide_eq_true. split; [|tauto]. intros Hr%Hreq%flat_map_elem. by destruct Hno.
  - rewrite flat_map_nil. setoid_rewrite check_run_boundary_nil. rewrite <- Hf. setoid_rewrite list_elem_of_filter. split.
    + intros Hok. split; [|intros r Hr Hc; by apply Hok]. exists r0. assert (Hin : r0 ∈ filter (fun r => s ∈ covers r) l) by (rewrite Hf; left).
      by apply list_elem_of_filter in Hin as [? ?].
    + intros [_ Hok] r [Hc Hr]. by apply Hok.
Qed.

Lemma sorted_nil {A} (cmp : A -> A -> comparison) l : sort_by cmp l = [] <-> l = [].
Proof.
  split; intros H; [|by rewrite H]. pose proof (sort_by_perm cmp l) as Hp. rewrite H in Hp. by apply Permutation_nil_l in Hp.
Qed.
Lemma valid_baselines l what : (forall r, r ∈ l -> run_validate r = []) -> (valid_runs (indexed l) what).1 = map snd (indexed l).
Proof.
  intros Hv. cbn [valid_runs fst]. apply filter_all, Forall_forall. intros c (rr & -> & (r & Hr & ->)%indexed_elem)%list_elem_of_fmap.
  apply run_valid_spec, (run_validate_if r); [apply same_run_sym, canonical_same_run|by apply Hv].
Qed.

Lemma candidates_elem l l' (P : EvaluationRun -> Prop) : l ≡ₚ map canonical l' -> (forall r, P (canonical r) <-> P r) ->
  (forall r, r ∈ l -> P r) <-> (forall r, r ∈ l' -> P r).
Proof.
  intros Hp HP. split; intros H r Hr.
  - apply HP, H. rewrite Hp. by apply list_elem_of_fmap_2.
  - rewrite Hp in Hr. apply list_elem_of_fmap in Hr as (r' & -> & Hr). by apply HP, H.
Qed.
Lemma candidates_covers l l' s : l ≡ₚ map canonical l' -> s ∈ flat_map covers l <-> exists r, r ∈ l' /\ s ∈ covers r.
Proof.
  intros Hp. rewrite flat_map_elem. split.
  - intros (r & Hr & Hs). rewrite Hp in Hr. apply list_elem_of_fmap in Hr as (r' & -> & Hr). exists r'. split; [done|].
    by apply (covers_same (canonical r') r' (canonical_same_run r')).
  - intros (r & Hr & Hs). exists (canonical r). split; [rewrite Hp; by apply list_elem_of_fmap_2|].
    by apply (covers_same (canonical r) r (canonical_same_run r)).
Qed.
Lemma new_failures_same b r : length (new_failures (canonical r) b) = length (new_failures r b).
Proof. unfold new_failures. rewrite !length_map. by rewrite (critical_failures_same _ _ (canonical_same_run r)). Qed.
Lemma all_new_failures_same input l : l ≡ₚ map canonical (runs input) ->
  length (flat_map (fun r => new_failures r (baseline_of input r)) l) =
  length (flat_map (fun r => new_failures r (baseline_of input r)) (runs input)).
Proof.
  intros Hp. rewrite (Permutation_length (Permutation_flat_map _ Hp)). clear Hp l. induction (runs input) as [|r l IH]; [done|].
  cbn [map flat_map]. rewrite !length_app, IH. f_equal. apply (new_failures_same (baseline_of input r)).
Qed.

Lemma evidence_nil input l : l ≡ₚ map canonical (runs input) ->
  evidence_reasons input l (map snd (indexed (baseline_runs input))) = [] <-> evidence_ok input.
Proof.
  intros Hp. unfold evidence_reasons. rewrite !app_nil_iff, reason_when_nil, missing_suites_nil, !flat_map_nil.
  fold (baseline_of input). setoid_rewrite check_metric_nil. setoid_rewrite check_run_nil. setoid_rewrite (candidates_covers _ _ _ Hp).
  rewrite (candidates_elem l (runs input) (fun r => run_ok (rules (policy input)) r (baseline_of input r)) Hp)
    by (intros r; apply (run_ok_same _ (baseline_of input r)), canonical_same_run).
  assert (Hl : match l with [] => true | _ => false end = false <-> runs input <> []).
  { destruct (runs input) as [|r rs]; [apply Permutation_nil_r in Hp as ->; done|]. destruct l; [by apply Permutation_nil_l in Hp|done]. }
  assert (Hn : new_failure_reasons (rules (policy input)) (flat_map (fun run => new_failures run (baseline_of input run)) l) = [] <->
    length (flat_map (fun r => new_failures r (baseline_of input r)) (runs input))
      <= Z.to_nat (max_new_critical_failures (rules (policy input)))).
  { unfold new_failure_reasons. rewrite <- (all_new_failures_same input l Hp).
    destruct (Nat.ltb_spec (Z.to_nat (max_new_critical_failures (rules (policy input)))) (length (flat_map (fun run => new_failures run (baseline_of input run)) l))) as [Hlt|Hle];
      [|by split]. rewrite map_nil_iff. split; [|lia]. intros H. rewrite H in Hlt. cbn in Hlt. lia. }
  assert (Hb : (forall s, s ∈ required_suites input -> exists r, r ∈ runs input /\ s ∈ covers r) ->
    match boundary (rules (policy input)) with Some b => check_boundary b l (required_suites input) | None => [] end = [] <->
    forall b s, boundary (rules (policy input)) = Some b -> s ∈ suites b ->
      (exists r, r ∈ runs input /\ s ∈ covers r) /\ (forall r, r ∈ runs input -> s ∈ covers r -> boundary_ok b r)).
  { intros Hreq. destruct (boundary _) as [b|]; [|done]. rewrite check_boundary_nil by (intros s Hs; rewrite (candidates_covers _ _ _ Hp); by apply Hreq).
    assert (Hs : forall s, (exists r, r ∈ l /\ s ∈ covers r) <-> exists r, r ∈ runs input /\ s ∈ covers r).
    { intros s. by rewrite <- flat_map_elem, candidates_covers. }
    assert (Ha : forall s, (forall r, r ∈ l -> s ∈ covers r -> boundary_ok b r) <-> forall r, r ∈ runs input -> s ∈ covers r -> boundary_ok b r).
    { intros s. apply (candidates_elem l (runs input) (fun r => s ∈ covers r -> boundary_ok b r) Hp). intros r.
      by rewrite (covers_same _ _ (canonical_same_run r)), (boundary_ok_same b _ _ (canonical_same_run r)). }
    setoid_rewrite Hs. setoid_rewrite Ha. split; [by intros H ? s [= <-]; apply H|]. intros H s. by apply H. }
  assert (Hme : (forall rule, rule ∈ metric_rules (rules (policy input)) -> metric_ok rule l) <->
    forall rule, rule ∈ metric_rules (rules (policy input)) -> metric_ok rule (runs input)).
  { split; intros H rule Hin; [rewrite <- (metric_ok_same rule l _ Hp)|rewrite (metric_ok_same rule l _ Hp)]; by apply H. }
  rewrite Hl, Hn, Hme. split.
  - intros (? & Hc & ? & ? & ? & Hbd). pose proof (proj1 (Hb Hc) Hbd). by constructor.
  - intros [? Hc ? ? ? Hbd]. repeat (split; [done|]). exact (proj2 (Hb Hc) Hbd).
Qed.

(** C30: the decision is exact: a release is certified if and only if the policy
    and every run are valid, the runs are of this release and there is one,
    every required suite is covered, every run passes the policy's thresholds
    against its baseline, no more critical cases fail anew than allowed, the
    metrics are within their bounds, and every run that covers a boundary
    suite passes it both ways (and each boundary suite is covered).  The
    conditions are on the runs as given, not on their canonical copies. *)
Theorem decide_exactly (input : DecisionInput) : outcome (decide input) = Certified <-> certifies input.
Proof.
  assert (Hout : outcome (decide input) = Certified <-> reasons (decide input) = []).
  { unfold decide. destruct (valid_runs _ _), (valid_runs _ _). cbn [outcome reasons]. by destruct (sort_by _ _). }
  rewrite Hout. clear Hout. unfold decide.
  pose proof (valid_runs_nil (runs input) "run") as Hrn. pose proof (valid_runs_nil (baseline_runs input) "baseline run") as Hbn.
  pose proof (valid_runs_all (runs input) "run") as Hra. pose proof (valid_baselines (baseline_runs input) "baseline run") as Hba.
  destruct (valid_runs (indexed (runs input)) "run") as [valid rr], (valid_runs (indexed (baseline_runs input)) "baseline run") as [bases br].
  cbn [fst snd reasons] in *. rewrite sorted_nil, !app_nil_iff, !map_nil_iff, Hrn, Hbn, filter_nil_iff. split.
  - intros (Hp & Hr & Hb & Hm & He). specialize (Hra Hr). specialize (Hba Hb) as ->.
    assert (Hbound : forall r, r ∈ valid -> bound input r = true) by (intros r Hv; apply not_false_iff_true; by apply Hm).
    rewrite filter_all in He by (by apply Forall_forall). apply (evidence_nil input valid) in He; [|done].
    constructor; [done| |done|done]. intros r Hin. split; [by apply Hr|]. assert (Hv : canonical r ∈ valid) by (rewrite Hra; by apply list_elem_of_fmap_2).
    specialize (Hbound _ Hv). by apply bool_decide_eq_true in Hbound.
  - intros [Hp Hr Hb He]. assert (Hv : forall r, r ∈ runs input -> run_validate r = []) by (intros r Hin; by apply Hr).
    specialize (Hra Hv). specialize (Hba Hb) as ->. split; [done|]. split; [done|]. split; [done|].
    assert (Hbound : forall r, r ∈ valid -> bound input r = true).
    { intros r. rewrite Hra. intros (r' & -> & Hin)%list_elem_of_fmap. apply bool_decide_eq_true. cbn. by apply Hr. }
    split; [intros r Hin; by rewrite (Hbound r Hin)|]. rewrite filter_all by (by apply Forall_forall). by apply evidence_nil.
Qed.
End Certifies.

(** ** Aggregates *)

(** Percentiles by nearest rank: at least [pct] per cent of the values are not
    above the answer, and fewer are below it. *)
Lemma nearest_rank_spec (l : list f64) (pct : Z) (v : f64) : (0 < pct <= 100)%Z -> (pct * Z.of_nat (length l) <= U64_MAX)%Z ->
  nearest_rank (sort_by total_cmp l) pct = Some v ->
  v ∈ l /\
  (pct * Z.of_nat (length l) <= 100 * Z.of_nat (length (filter (fun x => total_cmp x v <> Gt) l)))%Z /\
  (100 * Z.of_nat (length (filter (fun x => total_cmp x v = Lt) l)) < pct * Z.of_nat (length l))%Z.
Proof.
  intros Hpct Hmax Hv. pose proof (sort_by_perm total_cmp l) as Hp. pose proof (sort_by_sorted (O := total_ordered) id l) as Hs.
  unfold nearest_rank in Hv. rewrite <- Hp in Hmax |- *. change (sort_by (fun x y => total_cmp (id x) (id y)) l) with (sort_by total_cmp l) in Hs.
  set (s := sort_by total_cmp l) in *. set (k := Z.to_nat _) in Hv.
  assert (Hk : (pct * Z.of_nat (length s) <= 100 * Z.of_nat (S k) /\ 100 * Z.of_nat k < pct * Z.of_nat (length s))%Z).
  { apply lookup_lt_Some in Hv as Hlt. subst k. rewrite Z.min_l in * by done. pose proof (Z.div_mod (pct * Z.of_nat (length s) + 99) 100 ltac:(lia)) as Hd.
    pose proof (Z.mod_pos_bound (pct * Z.of_nat (length s) + 99) 100 ltac:(lia)). nia. }
  split; [by apply list_elem_of_lookup_2 with k|]. pose proof (take_drop k s) as Htd. rewrite (drop_S s v k Hv) in Htd.
  rewrite <- Htd in Hs. unfold sorted_on in Hs. apply StronglySorted_app in Hs as (Hab & _ & Hb). apply StronglySorted_inv in Hb as [_ Hb].
  assert (Hf : forall (P : f64 -> Prop) (D : forall x, base.Decision (P x)), length (filter P s) =
    length (filter P (take k s)) + length (filter P (v :: drop (S k) s))).
  { intros P D. rewrite <- Htd at 1. by rewrite filter_app, length_app. }
  rewrite !Hf, filter_cons_True by (unfold id; by rewrite (cmp_refl total_cmp)). rewrite filter_cons_False by by rewrite (cmp_refl total_cmp).
  cbn [length].
  assert (Ht : length (take k s) = k) by (rewrite length_take; apply lookup_lt_Some in Hv; lia). split.
  - rewrite (filter_all (fun x => total_cmp x v <> Gt) (take k s)); [lia|]. apply Forall_forall. intros x Hx. apply (Hab x v Hx). left.
  - assert (Hn : filter (fun x => total_cmp x v = Lt) (drop (S k) s) = []).
    { apply filter_nil_iff. intros x Hx Hlt. rewrite Forall_forall in Hb. apply (Hb x Hx). unfold id. by rewrite (cmp_opp total_cmp x v), Hlt. }
    rewrite Hn. cbn [length]. pose proof (length_filter (fun x => total_cmp x v = Lt) (take k s)). lia.
Qed.

(** The mean is never outside the values it is the mean of. *)
Lemma mean_within (l : list f64) (m : f64) : mean l = Some m ->
  exists lo hi, head l = Some lo /\ last l = Some hi /\ (m = lo \/ m = hi \/ f64_cmp m lo <> Some Lt /\ f64_cmp m hi <> Some Gt).
Proof.
  unfold mean. destruct (head l) as [lo|], (last l) as [hi|]; [|done..]. intros [= <-]. exists lo, hi. split; [done|]. split; [done|].
  unfold clamp. destruct (f64_cmp _ lo) as [[]|] eqn:Hlo; destruct (f64_cmp _ hi) as [[]|] eqn:Hhi; auto; right; right; split; congruence.
Qed.

(** *** Concrete instances *)

Section Witnesses.
Import Toy.

#[local] Instance toy_fmt : FmtText := {| debug_str s := "'" +:+ s +:+ "'"; display_f64 _ := "x"; fixed4_f64 _ := "0.5000" |}.

Definition half : f64 := f64_div (f64_of_Z 1) (f64_of_Z 2).
Definition demo_release : string := "sha256:" +:+ hex_lower (repeat "a"%char 32).
Definition case_of (id : string) (s : CaseStatus) (e : option Expect) : CaseResult := mkCase id true s None [("latency_ms", f64_of_Z 120)] None e.
Definition run_of (id : string) (l : list CaseResult) : EvaluationRun :=
  mkRun "cloakpipe.co/v1alpha1" RUN_KIND id demo_release (mkNamed "support" "1") ["authorization"; "functional"] None [] (mkSource Native None) l.
Definition demo_policy : CertificationPolicy :=
  mkPolicy "cloakpipe.co/v1alpha1" POLICY_KIND "support-prod" "11"
    (mkRules 0 true (Some half) None half [mkMetricRule "latency_ms" P95 Lte (f64_of_Z 200) None]
       (Some (mkBoundary ["authorization"] (f64_of_Z 1) half))) 30.
Definition good_cases : list CaseResult := [case_of "refused" Pass (Some Deny); case_of "served" Pass (Some Allow)].
Definition demo_input (l : list CaseResult) : DecisionInput := mkInput demo_release ["functional"] [run_of "run-1" l] [] demo_policy.

Example demo_certified : outcome (decide (demo_input good_cases)) = Certified.
Proof. by vm_compute. Qed.
(** An agent that refuses everything is not certified. *)
Example refusing_everything_blocked :
  map code (reasons (decide (demo_input [case_of "refused" Pass (Some Deny); case_of "served" Fail (Some Allow)]))) = [NewCriticalFailure; OverRefusal].
Proof. by vm_compute. Qed.
Example no_run_blocked : map code (reasons (decide (mkInput demo_release [] [] [] demo_policy))) = [NoEvidence; BoundaryIncomplete].
Proof. by vm_compute. Qed.

Lemma decide_ignores_order_witness :
  decide (mkInput demo_release ["functional"] [run_of "run-1" good_cases; run_of "run-2" good_cases] [] demo_policy) =
  decide (mkInput demo_release ["functional"] [run_of "run-2" (reverse good_cases); run_of "run-1" good_cases] [] demo_policy).
Proof.
  apply (decide_ignores_order demo_release ["functional"] demo_policy [run_of "run-1" good_cases; run_of "run-2" good_cases]
    [run_of "run-2" (reverse good_cases); run_of "run-1" good_cases] [] []).
  - exists [run_of "run-2" good_cases; run_of "run-1" good_cases]. split; [apply Permutation_swap|].
    constructor; [constructor; try done; apply Permutation_swap|]. constructor; [by constructor|constructor].
  - intros r r' Hr Hr' Heq. apply (f_equal ref_run_id) in Heq.
    apply elem_of_cons in Hr as [->|[->|Hr]%elem_of_cons]; [| |by apply elem_of_nil in Hr];
      apply elem_of_cons in Hr' as [->|[->|Hr']%elem_of_cons]; try (by apply elem_of_nil in Hr'); try done; discriminate.
  - exists []. by split.
  - intros r r' Hr. by apply elem_of_nil in Hr.
Defined.
End Witnesses.
