(* ===== verification/Attestation.v ===== *)
(** * Certification attestations ([cloakpipe-cert/src/statement.rs])

    A certification is an in-toto statement about a release, signed in a DSSE
    envelope of [Approval]; [verify] checks one offline, against trusted and
    revoked keys, the caller's time and what the caller expects.  The texts of
    the reasons are left out: a report lists the problems found. *)

From S2P Require Import Prelude BTree Json Text Crates Concrete Reference Action Approval Certification.
From Stdlib Require Import SpecFloat.

(** ** Certifications *)

Record Certification := mkCertification {
  c_id : string;
  c_release : string;
  c_agent : option string;
  c_environment : string;
  c_decision : Decision;
  c_issued_at : string;
  c_valid_until : string;
  c_issuer : string;
  c_limitations : list string;
}.

Definition outcome_str (o : Outcome) : string := match o with Certified => "certified" | Blocked => "blocked" end.
Definition code_str (c : ReasonCode) : string :=
  match c with
  | InvalidInput => "invalid_input" | ReleaseMismatch => "release_mismatch" | NoEvidence => "no_evidence" | MissingSuite => "missing_suite"
  | NoCases => "no_cases" | NewCriticalFailure => "new_critical_failure" | PersistingCriticalFailure => "persisting_critical_failure"
  | CoverageBelowMinimum => "coverage_below_minimum" | PassRateBelowMinimum => "pass_rate_below_minimum"
  | PassRateRegression => "pass_rate_regression" | MetricThreshold => "metric_threshold" | UnderBlocking => "under_blocking"
  | OverRefusal => "over_refusal" | BoundaryIncomplete => "boundary_incomplete"
  end.
Definition CODES : list ReasonCode :=
  [InvalidInput; ReleaseMismatch; NoEvidence; MissingSuite; NoCases; NewCriticalFailure; PersistingCriticalFailure; CoverageBelowMinimum;
   PassRateBelowMinimum; PassRateRegression; MetricThreshold; UnderBlocking; OverRefusal; BoundaryIncomplete].

(** *** [to_value] *)

Definition policy_ref_json (p : PolicyRef) : value :=
  object [("name", VString (ref_name p)); ("version", VString (ref_version p)); ("hash", VString (ref_policy_hash p))].
Definition run_ref_json (r : RunRef) : value :=
  object [("runId", VString (ref_run_id r)); ("suite", VString (ref_suite r)); ("hash", VString (ref_hash r))].
Definition summary_json (s : SuiteSummary) : value :=
  let n k x : string * value := (k, VNumber (PosInt x)) in
  object [("suite", VString (sum_suite s)); n "cases" (sum_cases s); n "passed" (sum_passed s); n "failed" (sum_failed s);
          n "errored" (sum_errored s); n "skipped" (sum_skipped s); ("passRate", f64_value (sum_pass_rate s)); ("coverage", f64_value (sum_coverage s))].
Definition reason_json (r : Reason) : value :=
  object ([("code", VString (code_str (code r))); ("message", VString (message r))] ++ member "suite" VString (reason_suite r)
    ++ member "case" VString (reason_case r) ++ member "observed" f64_value (observed r) ++ member "required" f64_value (required r)).
Definition decision_json (d : Decision) : value :=
  object [("outcome", VString (outcome_str (outcome d))); ("release", VString (decided_release d)); ("policy", policy_ref_json (decided_policy d));
          ("requiredSuites", VArray (map VString (decided_suites d))); ("runs", VArray (map run_ref_json (decided_runs d)));
          ("baselineRuns", VArray (map run_ref_json (decided_baseline d))); ("summaries", VArray (map summary_json (summaries d)));
          ("reasons", VArray (map reason_json (reasons d)))].
Definition certification_json (c : Certification) : value :=
  object ([("id", VString (c_id c)); ("release", VString (c_release c))] ++ member "agent" VString (c_agent c)
    ++ [("environment", VString (c_environment c)); ("decision", decision_json (c_decision c)); ("issuedAt", VString (c_issued_at c));
        ("validUntil", VString (c_valid_until c)); ("issuer", VString (c_issuer c))] ++ members "limitations" VString (c_limitations c)).

(** [subject_name] and [statement] *)
Definition subject_name (agent : option string) : string := "agent-release:" +:+ default "unknown" agent.
Definition statement (c : Certification) : value :=
  VObject [("_type", VString STATEMENT_TYPE);
           ("predicate", VObject [("certification", certification_json c)]);
           ("predicateType", VString (Namespace.certification_predicate_type Namespace.Current));
           ("subject", VArray [VObject [("digest", VObject [("sha256", VString (default (c_release c) (strip_prefix "sha256:" (c_release c))))]);
                                        ("name", VString (subject_name (c_agent c)))]])].

(** ** Reading

    A derived [Deserialize] reads an object with the struct's members and no
    others, or the array of its fields in order; a field with a default may be
    missing from the object, or from the end of the array. *)

Definition struct_fields (names : list (string * bool)) (v : value) : option (list (option value)) :=
  match v with
  | VObject o =>
      if forallb (fun k => bool_decide (k ∈ map fst names)) (BTree.keys o)
         && forallb (fun nd => nd.2 || is_some (BTree.get nd.1 o)) names
      then Some (map (fun nd => BTree.get nd.1 o) names) else None
  | VArray a =>
      if (length a <=? length names) && forallb snd (drop (length a) names)
      then Some (map Some a ++ replicate (length names - length a) None) else None
  | _ => None
  end.

Definition read_list {A} (f : value -> option A) (v : value) : option (list A) := let! a := as_array v else None in mapM f a.
(** [Option] with a default: absent and null are [None]. *)
Definition read_option {A} (f : value -> option A) (v : option value) : option (option A) :=
  match v with None | Some VNull => Some None | Some v => Some <$> f v end.
Definition read_default_list {A} (f : value -> option A) (v : option value) : option (list A) :=
  match v with None => Some [] | Some v => read_list f v end.
Definition read_f64 (v : value) : option f64 := match v with VNumber n => as_f64 n | _ => None end.
Definition read_u32 (v : value) : option Z :=
  match v with VNumber (PosInt n) => if (n <? 2^32)%Z then Some n else None | _ => None end.
(** A unit variant: its name, or an object that maps it to null. *)
Definition read_variant (v : value) : option string :=
  match v with VString s => Some s | VObject [(s, VNull)] => Some s | _ => None end.

Definition read_outcome (v : value) : option Outcome :=
  let! s := read_variant v else None in
  List.find (fun o => bool_decide (outcome_str o = s)) [Certified; Blocked].
Definition read_code (v : value) : option ReasonCode :=
  let! s := read_variant v else None in
  List.find (fun c => bool_decide (code_str c = s)) CODES.

Definition read_policy_ref (v : value) : option PolicyRef :=
  match struct_fields [("name", false); ("version", false); ("hash", false)] v with
  | Some [Some n; Some r; Some h] =>
      let! n := as_str n else None in let! r := as_str r else None in let! h := as_str h else None in Some (mkPolicyRef n r h)
  | _ => None
  end.
Definition read_run_ref (v : value) : option RunRef :=
  match struct_fields [("runId", false); ("suite", false); ("hash", false)] v with
  | Some [Some n; Some s; Some h] =>
      let! n := as_str n else None in let! s := as_str s else None in let! h := as_str h else None in Some (mkRef n s h)
  | _ => None
  end.
Definition read_summary (v : value) : option SuiteSummary :=
  match struct_fields [("suite", false); ("cases", false); ("passed", false); ("failed", false); ("errored", false); ("skipped", false);
                       ("passRate", false); ("coverage", false)] v with
  | Some [Some s; Some n; Some p; Some f; Some e; Some k; Some r; Some c] =>
      let! s := as_str s else None in let! n := read_u32 n else None in let! p := read_u32 p else None in let! f := read_u32 f else None in
      let! e := read_u32 e else None in let! k := read_u32 k else None in let! r := read_f64 r else None in let! c := read_f64 c else None in
      Some (mkSummary s n p f e k r c)
  | _ => None
  end.
Definition read_reason (v : value) : option Reason :=
  match struct_fields [("code", false); ("message", false); ("suite", true); ("case", true); ("observed", true); ("required", true)] v with
  | Some [Some c; Some m; s; k; o; q] =>
      let! c := read_code c else None in let! m := as_str m else None in let! s := read_option as_str s else None in
      let! k := read_option as_str k else None in let! o := read_option read_f64 o else None in let! q := read_option read_f64 q else None in
      Some (mkReason c m s k o q)
  | _ => None
  end.
Definition read_decision (v : value) : option Decision :=
  match struct_fields [("outcome", false); ("release", false); ("policy", false); ("requiredSuites", false); ("runs", false);
                       ("baselineRuns", false); ("summaries", false); ("reasons", false)] v with
  | Some [Some o; Some r; Some p; Some q; Some rs; Some bs; Some ss; Some es] =>
      let! o := read_outcome o else None in let! r := as_str r else None in let! p := read_policy_ref p else None in
      let! q := read_list as_str q else None in let! rs := read_list read_run_ref rs else None in let! bs := read_list read_run_ref bs else None in
      let! ss := read_list read_summary ss else None in let! es := read_list read_reason es else None in
      Some (mkDecision o r p q rs bs ss es)
  | _ => None
  end.
Definition read_certification (v : value) : option Certification :=
  match struct_fields [("id", false); ("release", false); ("agent", true); ("environment", false); ("decision", false); ("issuedAt", false);
                       ("validUntil", false); ("issuer", false); ("limitations", true)] v with
  | Some [Some i; Some r; a; Some e; Some d; Some t; Some u; Some s; l] =>
      let! i := as_str i else None in let! r := as_str r else None in let! a := read_option as_str a else None in
      let! e := as_str e else None in let! d := read_decision d else None in let! t := as_str t else None in
      let! u := as_str u else None in let! s := as_str s else None in let! l := read_default_list as_str l else None in
      Some (mkCertification i r a e d t u s l)
  | _ => None
  end.
(** [Predicate::deserialize] *)
Definition read_predicate (v : value) : option Certification :=
  match struct_fields [("certification", false)] v with Some [Some c] => read_certification c | _ => None end.

(** ** Verification *)

Record VerifyContext := mkContext {
  trusted : list TrustedKey;
  revoked_statements : gset string;
  revoked_keys : gset string;
  context_now : string;
  expected_release : option string;
  required_runs : option (list string);
}.

Inductive Status := Valid | ValidWithLimitations | Incomplete | Expired | Revoked | Invalid.
(** The derived order: the most severe last. *)
Definition severity (s : Status) : Z :=
  match s with Valid => 0 | ValidWithLimitations => 1 | Incomplete => 2 | Expired => 3 | Revoked => 4 | Invalid => 5 end.

(** What a reason says. *)
Inductive Problem :=
| PPayloadType | PNotBase64 | PNoSignature | PStatementRevoked | PKeyRevoked (keyid : string) | PNotJson | PNotObject
| PStatementType | PPredicateType | PSubject | POtherRelease | PNoPredicate | PMalformed | PNoId | PRelease | PDigestMismatch
| PDecisionMismatch | PBadTime (field : string) | PEmptyValidity | PNotYetValid | PExpired | PMissingRun (hash : string) | PLimitation (text : string).
Definition status_of (p : Problem) : Status :=
  match p with
  | PStatementRevoked | PKeyRevoked _ => Revoked
  | PExpired => Expired
  | PMissingRun _ => Incomplete
  | PLimitation _ => ValidWithLimitations
  | _ => Invalid
  end.

Record Report := mkReport {
  report_status : Status;
  problems : list Problem;
  statement_digest : option string;
  report_release : option string;
  report_outcome : option Outcome;
  certified : bool;
}.

Definition worse (a b : Status) : Status := if (severity a <? severity b)%Z then b else a.
Definition worst (ps : list Problem) : Status := fold_right (fun p s => worse (status_of p) s) Valid ps.

(** [Findings::finish] *)
Definition finish (ps : list Problem) (digest release : option string) (o : option Outcome) : Report :=
  let s := worst ps in
  mkReport s ps digest release o ((severity s <=? severity ValidWithLimitations)%Z && bool_decide (o = Some Certified)).

Definition problem_when (b : bool) (p : Problem) : list Problem := if b then [p] else [].

Section Verify.
Context {HC : HashCrates} {JC : JsonCrates} {SC : SignatureCrates} {TC : TimeCrate}.

(** [check_signatures]: what is revoked, or the failure; the further problems
    of the single signatures have the failure's status. *)
Definition check_signatures (e : Envelope) (data : bytes) (ctx : VerifyContext) : list Problem :=
  match verified_keyids e data (trusted ctx) with
  | [] => [PNoSignature]
  | verified => map PKeyRevoked (filter (fun k => k ∈ revoked_keys ctx) verified)
  end.

(** [parse_subject]: the release of the single subject. *)
Definition parse_subject (s : option value) : option ReleaseHash :=
  match (let! v := s else None in as_array v) with
  | Some [entry] =>
      let! _ := string_member "name" entry else None in
      let! d := vget "digest" entry else None in
      let! hex := string_member "sha256" d else None in
      hash_parse ("sha256:" +:+ hex)
  | _ => None
  end.

(** [check_validity_window] *)
Definition check_validity_window (c : Certification) (ctx : VerifyContext) : list Problem :=
  let parse field text := match parse_rfc3339 text with Some t => (Some t, []) | None => (None, [PBadTime field]) end in
  let '(issued_at, p1) := parse "issuedAt" (c_issued_at c) in
  let '(valid_until, p2) := parse "validUntil" (c_valid_until c) in
  let '(now, p3) := parse "now" (context_now ctx) in
  p1 ++ p2 ++ p3
  ++ match issued_at, valid_until with Some i, Some u => problem_when (u <=? i)%Z PEmptyValidity | _, _ => [] end
  ++ match now with
     | None => []
     | Some n =>
         match issued_at with Some i => problem_when (n <? i)%Z PNotYetValid | None => [] end
         ++ match valid_until with Some u => problem_when (u <=? n)%Z PExpired | None => [] end
     end.

(** [check_certification] *)
Definition check_certification (c : Certification) (subject : option ReleaseHash) (ctx : VerifyContext) : list Problem :=
  problem_when (blank (c_id c)) PNoId
  ++ problem_when (negb (is_some (hash_parse (c_release c)))) PRelease
  ++ match subject with Some s => problem_when (negb (bool_decide (hash_to_string s = c_release c))) PDigestMismatch | None => [] end
  ++ problem_when (negb (bool_decide (decided_release (c_decision c) = c_release c))) PDecisionMismatch
  ++ check_validity_window c ctx
  ++ match required_runs ctx with
     | Some hs => map PMissingRun (filter (fun h => h ∉ map ref_hash (decided_runs (c_decision c))) hs)
     | None => []
     end
  ++ map PLimitation (c_limitations c).

(** [check_statement] before the predicate is read. *)
Definition check_header (v : value) (subject : option ReleaseHash) (ctx : VerifyContext) : list Problem :=
  problem_when (negb (bool_decide (string_member "_type" v = Some STATEMENT_TYPE))) PStatementType
  ++ problem_when (negb (match string_member "predicateType" v with
       Some t => Namespace.is_known_certification_predicate_type t | None => false end)) PPredicateType
  ++ problem_when (negb (is_some subject)) PSubject
  ++ match expected_release ctx, subject with
     | Some r, Some s => problem_when (negb (bool_decide (r = hash_to_string s))) POtherRelease | _, _ => []
     end.

(** [check_statement]: the problems, and what the report says of the release
    and the outcome. *)
Definition check_statement (v : value) (ctx : VerifyContext) : list Problem * option string * option Outcome :=
  match as_object v with
  | None => ([PNotObject], None, None)
  | Some _ =>
      let subject := parse_subject (vget "subject" v) in
      let header := check_header v subject ctx in
      let release := hash_to_string <$> subject in
      match vget "predicate" v with
      | None => (header ++ [PNoPredicate], release, None)
      | Some p =>
          match read_predicate p with
          | None => (header ++ [PMalformed], release, None)
          | Some c => (header ++ check_certification c subject ctx, release, Some (outcome (c_decision c)))
          end
      end
  end.

(** [verify] *)
Definition verify (e : Envelope) (ctx : VerifyContext) : Report :=
  let typed := problem_when (negb (bool_decide (payload_type e = PAYLOAD_TYPE))) PPayloadType in
  match base64_decode (payload e) with
  | None => finish (typed ++ [PNotBase64]) None None None
  | Some data =>
      let digest := hex_encode (sha256 data) in
      let before := typed ++ check_signatures e data ctx
        ++ problem_when (bool_decide (digest ∈ revoked_statements ctx)) PStatementRevoked in
      match (if json_no_duplicates data then json_from_slice data else None) with
      | None => finish (before ++ [PNotJson]) (Some digest) None None
      | Some v =>
          let '(ps, release, o) := check_statement v ctx in
          finish (before ++ ps) (Some digest) release o
      end
  end.

(** ** What an accepted attestation states *)

(** [verify] finds nothing worse than declared limitations. *)
Definition accepted (r : Report) : Prop := (severity (report_status r) <= severity ValidWithLimitations)%Z.

Record attests (e : Envelope) (ctx : VerifyContext) (data : bytes) (v : value) (s : ReleaseHash) (c : Certification) : Prop := {
  typed_payload : payload_type e = PAYLOAD_TYPE;
  decoded : base64_decode (payload e) = Some data;
  signed : exists k, signed_by e data (trusted ctx) k;
  no_key_revoked : forall k, signed_by e data (trusted ctx) k -> k ∉ revoked_keys ctx;
  not_revoked : hex_encode (sha256 data) ∉ revoked_statements ctx;
  one_reading : json_no_duplicates data = true;
  stated : json_from_slice data = Some v;
  statement_type : string_member "_type" v = Some STATEMENT_TYPE;
  predicate_type : exists t, string_member "predicateType" v = Some t /\ Namespace.is_known_certification_predicate_type t = true;
  about : parse_subject (vget "subject" v) = Some s;
  expected : forall r, expected_release ctx = Some r -> r = hash_to_string s;
  predicate : exists p, vget "predicate" v = Some p /\ read_predicate p = Some c;
  identified : blank (c_id c) = false;
  same_subject : c_release c = hash_to_string s;
  valid_release : is_some (hash_parse (c_release c)) = true;
  same_decision : decided_release (c_decision c) = c_release c;
  in_time : exists i u n, parse_rfc3339 (c_issued_at c) = Some i /\ parse_rfc3339 (c_valid_until c) = Some u /\
    parse_rfc3339 (context_now ctx) = Some n /\ (i <= n < u)%Z;
  cites_runs : forall hs, required_runs ctx = Some hs -> forall h, h ∈ hs -> h ∈ map ref_hash (decided_runs (c_decision c));
}.
End Verify.

(** ** Severity *)

Definition harmless (p : Problem) : Prop := (severity (status_of p) <= severity ValidWithLimitations)%Z.
Lemma worse_severity a b : severity (worse a b) = Z.max (severity a) (severity b).
Proof. unfold worse. destruct (Z.ltb_spec (severity a) (severity b)); lia. Qed.
Lemma worst_harmless ps : (severity (worst ps) <= severity ValidWithLimitations)%Z <-> Forall harmless ps.
Proof.
  induction ps as [|p ps IH]; cbn [worst fold_right]; [by split; [constructor|]|].
  rewrite worse_severity, Forall_cons, <- IH. unfold harmless, worst. lia.
Qed.
Lemma worst_valid ps : worst ps = Valid <-> ps = [].
Proof.
  split; [|by intros ->]. destruct ps as [|p ps]; [done|]. intros H. apply (f_equal severity) in H. cbn [worst fold_right] in H.
  rewrite worse_severity in H. destruct p; cbn in H; lia.
Qed.
Lemma problem_when_harmless b p : ~ harmless p -> Forall harmless (problem_when b p) <-> b = false.
Proof. intros Hp. destruct b; cbn; [rewrite Forall_singleton; by split|]. by split; [|constructor]. Qed.
Lemma map_harmful {A} (f : A -> Problem) l : (forall x, ~ harmless (f x)) -> Forall harmless (map f l) <-> l = [].
Proof. intros Hf. destruct l as [|x l]; [by split; [|constructor]|]. cbn. rewrite Forall_cons. split; [|done]. by intros [Hx%Hf _]. Qed.
Lemma map_harmless {A} (f : A -> Problem) l : (forall x, harmless (f x)) -> Forall harmless (map f l) <-> True.
Proof. intros Hf. split; [done|]. intros _. induction l; constructor; auto. Qed.
Lemma harm p : severity (status_of p) = 5%Z \/ severity (status_of p) = 4%Z \/ severity (status_of p) = 3%Z \/ severity (status_of p) = 2%Z -> ~ harmless p.
Proof. unfold harmless. cbn. lia. Qed.

Section Exactly.
Context {HC : HashCrates} {JC : JsonCrates} {SC : SignatureCrates} {TC : TimeCrate}.

Ltac harmful := by apply harm; vm_compute; tauto.

Lemma signatures_harmless e data ctx : Forall harmless (check_signatures e data ctx) <->
  (exists k, signed_by e data (trusted ctx) k) /\ (forall k, signed_by e data (trusted ctx) k -> k ∉ revoked_keys ctx).
Proof.
  unfold check_signatures. setoid_rewrite <- verified_keyids_spec. destruct (verified_keyids e data (trusted ctx)) as [|k ks] eqn:Hv.
  - rewrite Forall_singleton. split; [intros H; by destruct (harm PNoSignature ltac:(vm_compute; tauto))|]. intros [(k & Hk) _]. by apply elem_of_nil in Hk.
  - rewrite map_harmful by (intros x; harmful). rewrite filter_nil_iff. split; [intros H; split; [exists k; left|exact H]|by intros [_ H]].
Qed.

Lemma window_harmless c ctx : Forall harmless (check_validity_window c ctx) <->
  exists i u n, parse_rfc3339 (c_issued_at c) = Some i /\ parse_rfc3339 (c_valid_until c) = Some u /\
    parse_rfc3339 (context_now ctx) = Some n /\ (i <= n < u)%Z.
Proof.
  unfold check_validity_window.
  destruct (parse_rfc3339 (c_issued_at c)) as [i|], (parse_rfc3339 (c_valid_until c)) as [u|], (parse_rfc3339 (context_now ctx)) as [n|];
    try (cbn [app]; rewrite Forall_cons; split; [intros [[] _]; done|naive_solver]).
  cbn [app]. rewrite !Forall_app, !problem_when_harmless by harmful. rewrite !Z.leb_gt, Z.ltb_ge. split.
  - intros (? & ? & ?). exists i, u, n. repeat split; try done; lia.
  - intros (? & ? & ? & [= <-] & [= <-] & [= <-] & ?). repeat split; lia.
Qed.

Lemma negb_is_some_false {A} (o : option A) : negb (is_some o) = false <-> is_some o = true.
Proof. apply negb_false_iff. Qed.

Lemma certification_harmless c s ctx : Forall harmless (check_certification c (Some s) ctx) <->
  blank (c_id c) = false /\ is_some (hash_parse (c_release c)) = true /\ hash_to_string s = c_release c /\
  decided_release (c_decision c) = c_release c /\
  (exists i u n, parse_rfc3339 (c_issued_at c) = Some i /\ parse_rfc3339 (c_valid_until c) = Some u /\
    parse_rfc3339 (context_now ctx) = Some n /\ (i <= n < u)%Z) /\
  (forall hs, required_runs ctx = Some hs -> forall h, h ∈ hs -> h ∈ map ref_hash (decided_runs (c_decision c))).
Proof.
  unfold check_certification. rewrite !Forall_app, !problem_when_harmless by harmful.
  rewrite window_harmless, (map_harmless PLimitation) by done. rewrite !negb_false_iff, !bool_decide_eq_true.
  assert (Hr : Forall harmless (match required_runs ctx with
      | Some hs => map PMissingRun (filter (fun h => h ∉ map ref_hash (decided_runs (c_decision c))) hs) | None => [] end) <->
    forall hs, required_runs ctx = Some hs -> forall h, h ∈ hs -> h ∈ map ref_hash (decided_runs (c_decision c))).
  { destruct (required_runs ctx) as [hs|]; [|by split; [|constructor]]. rewrite map_harmful by (intros x; harmful). rewrite filter_nil_iff. split.
    - intros H ? [= <-] h Hh. destruct (base.decide (h ∈ map ref_hash (decided_runs (c_decision c)))) as [|Hn]; [done|]. by destruct (H h Hh).
    - intros H h Hh Hn. apply Hn. by apply (H hs). }
  rewrite Hr. tauto.
Qed.

Lemma header_harmless v subject ctx : Forall harmless (check_header v subject ctx) <->
  string_member "_type" v = Some STATEMENT_TYPE /\
  (exists t, string_member "predicateType" v = Some t /\ Namespace.is_known_certification_predicate_type t = true) /\
  exists s, subject = Some s /\ forall r, expected_release ctx = Some r -> r = hash_to_string s.
Proof.
  unfold check_header. rewrite !Forall_app, !problem_when_harmless by harmful. rewrite !negb_false_iff, bool_decide_eq_true.
  assert (Ht : match string_member "predicateType" v with Some t => Namespace.is_known_certification_predicate_type t | None => false end = true <->
    exists t, string_member "predicateType" v = Some t /\ Namespace.is_known_certification_predicate_type t = true).
  { destruct (string_member "predicateType" v) as [t|]; [|split; [done|naive_solver]]. split; [by exists t|]. by intros (? & [= <-] & ?). }
  rewrite Ht. destruct subject as [s|]; [|cbn; split; [by intros (_ & _ & ? & _)|naive_solver]].
  assert (Hr : Forall harmless (match expected_release ctx with
      | Some r => problem_when (negb (bool_decide (r = hash_to_string s))) POtherRelease | None => [] end) <->
    forall r, expected_release ctx = Some r -> r = hash_to_string s).
  { destruct (expected_release ctx) as [r|]; [|by split; [|constructor]]. rewrite problem_when_harmless by harmful.
    rewrite negb_false_iff, bool_decide_eq_true. split; [by intros -> ? [= <-]|]. intros H. by apply H. }
  rewrite Hr. cbn. split; [intros (? & ? & _ & ?); split; [done|]; split; [done|]; by exists s|].
  intros (? & ? & ? & [= <-] & ?). tauto.
Qed.

(** Lists without limitations: harmless only when empty. *)
Definition severe (ps : list Problem) : Prop := Forall (fun p => ~ harmless p) ps.
Lemma severe_nil ps : severe ps -> Forall harmless ps -> ps = [].
Proof. intros [|p ps' Hp _]; [done|]. by intros [? _]%Forall_cons. Qed.
Lemma severe_app ps qs : severe ps -> severe qs -> severe (ps ++ qs).
Proof. intros. by apply Forall_app. Qed.
Lemma severe_when b p : ~ harmless p -> severe (problem_when b p).
Proof. intros. destruct b; repeat constructor; done. Qed.
Lemma severe_map {A} (f : A -> Problem) l : (forall x, ~ harmless (f x)) -> severe (map f l).
Proof. intros Hf. induction l; constructor; auto. Qed.
Ltac severe := repeat first [apply severe_app|apply severe_when; harmful|apply severe_map; intros; harmful|constructor; [harmful|]|constructor].

Lemma signatures_severe e data ctx : severe (check_signatures e data ctx).
Proof. unfold check_signatures. destruct (verified_keyids _ _ _); severe. Qed.
Lemma header_severe v subject ctx : severe (check_header v subject ctx).
Proof. unfold check_header. destruct (expected_release ctx), subject; severe. Qed.
Lemma window_severe c ctx : severe (check_validity_window c ctx).
Proof.
  unfold check_validity_window. destruct (parse_rfc3339 (c_issued_at c)), (parse_rfc3339 (c_valid_until c)), (parse_rfc3339 (context_now ctx)); cbn [app]; severe.
Qed.
Lemma certification_limits c s ctx : Forall harmless (check_certification c (Some s) ctx) ->
  check_certification c (Some s) ctx = map PLimitation (c_limitations c).
Proof.
  unfold check_certification. rewrite !app_assoc. intros [H _]%Forall_app.
  rewrite (severe_nil _) with (2 := H); [done|]. pose proof (window_severe c ctx). destruct (required_runs ctx); severe; done.
Qed.

Lemma not_harmless_app p ps : ~ harmless p -> ~ Forall harmless (ps ++ [p]).
Proof. intros Hp [_ [H _]%Forall_cons]%Forall_app. done. Qed.

(** What the report is made of. *)
Lemma verify_cases e ctx : exists ps dg rel o, verify e ctx = finish ps dg rel o /\
  (Forall harmless ps -> exists data v s c, attests e ctx data v s c) /\
  (forall data v s c, attests e ctx data v s c ->
     Forall harmless ps /\ o = Some (outcome (c_decision c)) /\ (worst ps = Valid <-> c_limitations c = [])).
Proof.
  unfold verify. destruct (base64_decode (payload e)) as [data|] eqn:Hdata.
  2:{ eexists _, _, _, _. split; [reflexivity|]. split; [intros H; by destruct (not_harmless_app PNotBase64 _ ltac:(harmful) H)|].
      intros data v s c Ha. by rewrite (decoded _ _ _ _ _ _ Ha) in Hdata. }
  destruct (if json_no_duplicates data then json_from_slice data else None) as [v|] eqn:Hv.
  2:{ eexists _, _, _, _. split; [reflexivity|]. split; [intros H; by destruct (not_harmless_app PNotJson _ ltac:(harmful) H)|].
      intros data' v s c Ha. rewrite (decoded _ _ _ _ _ _ Ha) in Hdata. injection Hdata as ->.
      by rewrite (one_reading _ _ _ _ _ _ Ha), (stated _ _ _ _ _ _ Ha) in Hv. }
  destruct (json_no_duplicates data) eqn:Hdup; [|done].
  assert (Hsame : forall data' v' s c, attests e ctx data' v' s c -> data' = data /\ v' = v).
  { intros data' v' s c Ha. pose proof (decoded _ _ _ _ _ _ Ha) as Hd. rewrite Hdata in Hd. injection Hd as <-.
    pose proof (stated _ _ _ _ _ _ Ha). split; [done|congruence]. }
  unfold check_statement. destruct (as_object v) as [o|] eqn:Ho.
  2:{ eexists _, _, _, _. split; [reflexivity|]. split; [intros H; by destruct (not_harmless_app PNotObject _ ltac:(harmful) H)|].
      intros data' v' s c Ha. destruct (Hsame _ _ _ _ Ha) as [-> ->]. pose proof (statement_type _ _ _ _ _ _ Ha) as Ht.
      unfold string_member, vget in Ht. by rewrite Ho in Ht. }
  destruct (vget "predicate" v) as [p|] eqn:Hp.
  2:{ eexists _, _, _, _. split; [reflexivity|]. rewrite app_assoc. split; [intros H; by destruct (not_harmless_app PNoPredicate _ ltac:(harmful) H)|].
      intros data' v' s c Ha. destruct (Hsame _ _ _ _ Ha) as [-> ->]. destruct (predicate _ _ _ _ _ _ Ha) as (p & Hp' & _). congruence. }
  destruct (read_predicate p) as [c|] eqn:Hc.
  2:{ eexists _, _, _, _. split; [reflexivity|]. rewrite app_assoc. split; [intros H; by destruct (not_harmless_app PMalformed _ ltac:(harmful) H)|].
      intros data' v' s c Ha. destruct (Hsame _ _ _ _ Ha) as [-> ->]. destruct (predicate _ _ _ _ _ _ Ha) as (p' & Hp' & Hc'). congruence. }
  eexists _, _, _, _. split; [reflexivity|].
  match goal with |- (Forall harmless ?l -> _) /\ _ => set (ps := l) end.
  assert (Hps : Forall harmless ps <-> payload_type e = PAYLOAD_TYPE /\
    ((exists k, signed_by e data (trusted ctx) k) /\ (forall k, signed_by e data (trusted ctx) k -> k ∉ revoked_keys ctx)) /\
    hex_encode (sha256 data) ∉ revoked_statements ctx /\ Forall harmless (check_header v (parse_subject (vget "subject" v)) ctx) /\
    Forall harmless (check_certification c (parse_subject (vget "subject" v)) ctx)).
  { subst ps. rewrite !Forall_app, !problem_when_harmless by harmful.
    rewrite negb_false_iff, bool_decide_eq_true, bool_decide_eq_false, signatures_harmless. tauto. }
  split.
  - intros (Ht & (Hk & Hnk) & Hnr & (Hty & Hpt & s & Hs & Hex)%header_harmless & Hch)%Hps. rewrite Hs in Hch.
    apply certification_harmless in Hch as (? & ? & ? & ? & ? & ?). exists data, v, s, c. constructor; eauto.
  - intros data' v' s c' Ha. destruct (Hsame _ _ _ _ Ha) as [-> ->]. destruct Ha as [? _ ? ? ? _ _ ? ? Hs ? (p' & Hp' & Hc') ? ? ? ? ? ?].
    assert (c' = c) as -> by congruence.
    assert (Hh : Forall harmless (check_header v (parse_subject (vget "subject" v)) ctx)) by (apply header_harmless; eauto).
    assert (Hch : Forall harmless (check_certification c (Some s) ctx)) by by apply certification_harmless.
    rewrite <- Hs in Hch. split; [by apply Hps|]. split; [done|]. rewrite worst_valid. subst ps. rewrite Hs in *.
    rewrite (certification_limits _ _ _ Hch), (severe_nil (check_header v (Some s) ctx)) by (done || apply header_severe).
    rewrite (severe_nil (check_signatures e data ctx)) by (by apply signatures_harmless || apply signatures_severe).
    rewrite bool_decide_eq_true_2, bool_decide_eq_false_2 by done. cbn [negb problem_when app]. apply map_nil_iff.
Qed.

(** C32: an attestation is accepted (nothing worse than declared limitations is
    found) if and only if it is what it claims to be: a statement signed under
    a trusted key, no signing key and no statement revoked, read one way only,
    about the release in its subject, which is the one certified, the one
    decided on and the one expected, in force now, and citing every required
    run.  The report certifies exactly the accepted attestations of a decision
    that certifies, and is [Valid] exactly when no limitation is declared. *)
Theorem verify_exactly (e : Envelope) (ctx : VerifyContext) :
  (accepted (verify e ctx) <-> exists data v s c, attests e ctx data v s c) /\
  (certified (verify e ctx) = true <-> exists data v s c, attests e ctx data v s c /\ outcome (c_decision c) = Certified) /\
  (report_status (verify e ctx) = Valid <-> exists data v s c, attests e ctx data v s c /\ c_limitations c = []).
Proof.
  destruct (verify_cases e ctx) as (ps & dg & rel & o & -> & Hin & Hout). unfold accepted, finish. cbn [report_status certified].
  rewrite worst_harmless, andb_true_iff, Z.leb_le, worst_harmless, bool_decide_eq_true. split; [|split].
  - split; [exact Hin|]. intros (data & v & s & c & Ha). by apply Hout in Ha as [? _].
  - split.
    + intros [(data & v & s & c & Ha)%Hin Ho]. exists data, v, s, c. split; [done|]. apply Hout in Ha as (_ & Ho' & _). congruence.
    + intros (data & v & s & c & Ha & Hc). apply Hout in Ha as (? & -> & _). by rewrite Hc.
  - split.
    + intros Hw. assert (Hh : Forall harmless ps) by by rewrite (proj1 (worst_valid ps) Hw). apply Hin in Hh as (data & v & s & c & Ha).
      exists data, v, s, c. split; [done|]. apply Hout in Ha as (_ & _ & Hl). by apply Hl.
    + intros (data & v & s & c & Ha & Hc). apply Hout in Ha as (_ & _ & Hl). by apply Hl.
Qed.
End Exactly.

(** ** Reading back what was written

    RFC 8785 writes a number as the shortest text of its double, so the number
    read may be of another kind ([1.0] is written [1]) but stands for the same
    value; whole numbers below 2^53 and all texts are read as they were. *)

Definition num_reads (n m : number) : Prop :=
  match n with
  | PosInt n => (n < 2^53)%Z -> m = PosInt n
  | NegInt _ => True
  | Float f => exists g, as_f64 m = Some g /\ f64_eqb f g = true
  end.
Fixpoint reads (v w : value) : Prop :=
  match v, w with
  | VNull, VNull => True
  | VBool a, VBool b => a = b
  | VString a, VString b => a = b
  | VNumber n, VNumber m => num_reads n m
  | VArray a, VArray b =>
      (fix elements (a b : list value) := match a, b with [], [] => True | x :: a, y :: b => reads x y /\ elements a b | _, _ => False end) a b
  | VObject o, VObject p =>
      (fix fields (o p : btree value) :=
        match o, p with [], [] => True | (k, x) :: o, (l, y) :: p => k = l /\ reads x y /\ fields o p | _, _ => False end) o p
  | _, _ => False
  end.
Class JsonNumberLaws `{JsonCrates} := {
  json_reads_back v : value_wf v = true ->
    exists w, json_from_slice (as_bytes (jcs v)) = Some w /\ json_no_duplicates (as_bytes (jcs v)) = true /\ reads v w;
}.

Lemma reads_array a w : reads (VArray a) w -> exists b, w = VArray b /\ Forall2 reads a b.
Proof.
  destruct w as [| | | |b|]; try done. intros H. exists b. split; [done|]. cbn in H. revert b H.
  induction a as [|x a IH]; intros [|y b] H; try done. destruct H as [Hx Ha]. constructor; [done|by apply IH].
Qed.
Lemma reads_object o w : reads (VObject o) w -> exists p, w = VObject p /\ Forall2 (fun kx ly => kx.1 = ly.1 /\ reads kx.2 ly.2) o p.
Proof.
  destruct w as [| | | | |p]; try done. intros H. exists p. split; [done|]. cbn in H. revert p H.
  induction o as [|[k x] o IH]; intros [|[l y] p] H; try done. destruct H as (Hk & Hx & Ho). constructor; [done|by apply IH].
Qed.

Lemma struct_reads names v w l : reads v w -> struct_fields names v = Some l ->
  exists l', struct_fields names w = Some l' /\ Forall2 (option_Forall2 reads) l l'.
Proof.
  destruct v as [| | | |a|o]; try done; cbn [struct_fields].
  - intros (b & -> & Hab)%reads_array. cbn [struct_fields]. rewrite (Forall2_length _ _ _ Hab).
    destruct (_ && _); [|done]. intros [= <-]. eexists. split; [done|]. apply Forall2_app.
    + apply Forall2_fmap. eapply Forall2_impl; [exact Hab|]. by constructor.
    + apply Forall2_same_length_lookup. split; [done|]. intros i x y Hx%lookup_replicate Hy%lookup_replicate. destruct Hx as [-> _], Hy as [-> _]. constructor.
  - intros (p & -> & Hop)%reads_object. cbn [struct_fields].
    assert (Hk : BTree.keys p = BTree.keys o).
    { unfold BTree.keys. induction Hop as [|[k x] [l' y] o p [Hk _] _ IH]; [done|]. cbn in *. by rewrite IH, Hk. }
    assert (Hg : forall k, option_Forall2 reads (BTree.get k o) (BTree.get k p)).
    { intros k. clear Hk. induction Hop as [|[k' x] [l' y] o p [Hk Hx] _ IH]; [constructor|]. cbn in Hk, Hx |- *. subst l'.
      case_decide; [by constructor|exact IH]. }
    rewrite Hk. assert (Hs : forall k, is_some (BTree.get k p) = is_some (BTree.get k o)) by (intros k; by destruct (Hg k)).
    replace (forallb (fun nd => nd.2 || is_some (BTree.get nd.1 p)) names) with (forallb (fun nd => nd.2 || is_some (BTree.get nd.1 o)) names)
      by (clear -Hs; induction names as [|nd ns IH]; [done|]; cbn; by rewrite IH, Hs).
    destruct (_ && _); [|done]. intros [= <-]. eexists. split; [done|].
    clear -Hg. induction names as [|nd ns IH]; [constructor|]. cbn. by constructor.
Qed.

(** A decoder gives related results on related values. *)
Definition respects {A} (f : value -> option A) (R : A -> A -> Prop) : Prop :=
  forall v w x, reads v w -> f v = Some x -> exists y, f w = Some y /\ R x y.
Lemma respects_str : respects as_str eq.
Proof. intros v w s Hr Hs. destruct v, w; try done. cbn in Hr. subst. eauto. Qed.
Lemma respects_list {A} (f : value -> option A) R : respects f R -> respects (read_list f) (Forall2 R).
Proof.
  intros Hf v w l Hr. unfold read_list. destruct v as [| | | |a|]; try done. apply reads_array in Hr as (b & -> & Hab). cbn [as_array].
  intros Hl%mapM_Some. revert b Hab. induction Hl as [|x z a zs Hx _ IH]; intros b Hab.
  - apply Forall2_nil_inv_l in Hab as ->. exists []. by split.
  - apply Forall2_cons_inv_l in Hab as (y & b' & Hxy & Hab & ->). destruct (Hf _ _ _ Hxy Hx) as (z' & Hz' & HR).
    destruct (IH _ Hab) as (zs' & Hzs'%mapM_Some & HRs). exists (z' :: zs'). split; [|by constructor]. apply mapM_Some. by constructor.
Qed.
Lemma respects_option {A} (f : value -> option A) R : respects f R ->
  forall v w x, option_Forall2 reads v w -> read_option f v = Some x -> exists y, read_option f w = Some y /\ option_Forall2 R x y.
Proof.
  intros Hf v w x Hr. destruct Hr as [v w Hr|]; [|intros [= <-]; exists None; by split; [|constructor]].
  assert (Hn : v = VNull <-> w = VNull) by (destruct v, w; done).
  assert (Hdec : v = VNull \/ v <> VNull) by (destruct v; auto). destruct Hdec as [->|Hv]; [rewrite (proj1 Hn eq_refl); intros [= <-]; exists None; by split; [|constructor]|].
  assert (Hw : w <> VNull) by tauto. assert (E : forall u, u <> VNull -> read_option f (Some u) = Some <$> f u) by (intros []; done).
  rewrite !E by done. intros (a & Ha & ->)%fmap_Some. destruct (Hf _ _ _ Hr Ha) as (b & Hb & HR). exists (Some b). rewrite Hb. by split; [|constructor].
Qed.
Definition related {A} (_ _ : A) : Prop := True.
Lemma respects_u32 : respects read_u32 eq.
Proof.
  intros v w n Hr. destruct v as [| |[m| |]| | |]; try done. cbn [read_u32]. destruct (Z.ltb_spec m (2^32)) as [Hm|]; [|done]. intros [= <-].
  destruct w as [| |k| | |]; try done. cbn in Hr. rewrite Hr by lia. exists m. cbn [read_u32]. by rewrite (proj2 (Z.ltb_lt m (2^32))).
Qed.
Lemma respects_f64 : respects read_f64 related.
Proof. intros v w f Hr. destruct v as [| |n| | |]; try done. destruct w as [| |m| | |]; try done. intros _. by exists (match m with PosInt k | NegInt k => f64_of_Z k | Float g => g end). Qed.
Lemma respects_variant : respects read_variant eq.
Proof.
  intros v w s Hr. destruct v as [| | |t| |[|[t []] [|? ?]]]; try done.
  - destruct w; try done. intros [= <-]. cbn in Hr. subst. eauto.
  - intros [= <-]. apply reads_object in Hr as (p & -> & Hp). apply Forall2_cons_inv_l in Hp as ([l1 y] & p' & [Hk Hy] & Hp & ->).
    apply Forall2_nil_inv_l in Hp as ->. cbn in Hk, Hy. subst l1. destruct y; try done. eauto.
Qed.
Lemma respects_outcome : respects read_outcome eq.
Proof.
  intros v w o Hr. unfold read_outcome. destruct (read_variant v) as [s|] eqn:Hv; [|done]. destruct (respects_variant _ _ _ Hr Hv) as (s' & -> & <-). eauto.
Qed.
Lemma respects_code : respects read_code eq.
Proof.
  intros v w o Hr. unfold read_code. destruct (read_variant v) as [s|] eqn:Hv; [|done]. destruct (respects_variant _ _ _ Hr Hv) as (s' & -> & <-). eauto.
Qed.

(** Reads the fields of a struct one by one. *)
Ltac struct_shape Hr Hx :=
  match type of Hx with
  | context [struct_fields ?names ?v] =>
      let Hs := fresh "Hs" in let l0 := fresh "l" in let l' := fresh "m" in let Hl := fresh "Hl" in
      destruct (struct_fields names v) as [l0|] eqn:Hs; [|done];
      destruct (struct_reads _ _ _ _ Hr Hs) as (l' & -> & Hl); clear Hs;
      repeat (let Ho := fresh "Ho" in destruct Hl as [|? ? ? ? Ho Hl]; [try done|try done; try (destruct Ho as [? ? Ho|]; [|done])])
  end.
Ltac read_field Hx lem :=
  match type of Hx with
  | (match ?e with _ => _ end) = _ =>
      let E := fresh "E" in let L := fresh "L" in destruct e eqn:E; [|done];
      pose proof (fun w H => lem _ w _ H E) as L; edestruct L as (? & -> & ?);
      [first [eassumption|constructor; eassumption|constructor]|clear E L]
  end.

Lemma respects_run_ref : respects read_run_ref eq.
Proof.
  intros v w x Hr Hx. unfold read_run_ref in *. struct_shape Hr Hx. do 3 read_field Hx respects_str. injection Hx as <-. subst. eauto.
Qed.
Lemma respects_policy_ref : respects read_policy_ref related.
Proof. intros v w x Hr Hx. unfold read_policy_ref in *. struct_shape Hr Hx. do 3 read_field Hx respects_str. by eexists. Qed.
Lemma respects_summary : respects read_summary related.
Proof.
  intros v w x Hr Hx. unfold read_summary in *. struct_shape Hr Hx. read_field Hx respects_str. do 5 read_field Hx respects_u32.
  do 2 read_field Hx respects_f64. by eexists.
Qed.
Lemma respects_reason : respects read_reason related.
Proof.
  intros v w x Hr Hx. unfold read_reason in *. struct_shape Hr Hx.
  all: read_field Hx respects_code; read_field Hx respects_str; do 2 (read_field Hx (respects_option as_str eq respects_str)).
  all: do 2 (read_field Hx (respects_option read_f64 related respects_f64)); by eexists.
Qed.

(** The same outcome, release and runs. *)
Definition same_decision_read (d d' : Decision) : Prop :=
  outcome d = outcome d' /\ decided_release d = decided_release d' /\ decided_runs d = decided_runs d'.
Lemma respects_decision : respects read_decision same_decision_read.
Proof.
  intros v w x Hr Hx. unfold read_decision in *. struct_shape Hr Hx. read_field Hx respects_outcome. read_field Hx respects_str.
  read_field Hx respects_policy_ref. read_field Hx (respects_list as_str eq respects_str). do 2 read_field Hx (respects_list read_run_ref eq respects_run_ref).
  read_field Hx (respects_list read_summary related respects_summary). read_field Hx (respects_list read_reason related respects_reason).
  injection Hx as <-. eexists. split; [reflexivity|]. split; [done|]. split; [done|]. by apply list_eq_Forall2.
Qed.

(** The same identity, release, times and limitations, about such a decision. *)
Record same_certification (c c' : Certification) : Prop := {
  same_c_id : c_id c = c_id c';
  same_c_release : c_release c = c_release c';
  same_c_issued : c_issued_at c = c_issued_at c';
  same_c_until : c_valid_until c = c_valid_until c';
  same_c_limits : c_limitations c = c_limitations c';
  same_c_decision : same_decision_read (c_decision c) (c_decision c');
}.
Lemma respects_limits v w l : option_Forall2 reads v w -> read_default_list as_str v = Some l -> read_default_list as_str w = Some l.
Proof.
  intros [x y Hr|]; [|done]. intros Hl. destruct (respects_list as_str eq respects_str _ _ _ Hr Hl) as (l' & Hl' & He).
  by apply list_eq_Forall2 in He as ->.
Qed.
Lemma respects_certification : respects read_certification same_certification.
Proof.
  intros v w x Hr Hx. unfold read_certification in *. struct_shape Hr Hx. do 2 read_field Hx respects_str.
  read_field Hx (respects_option as_str eq respects_str). read_field Hx respects_str. read_field Hx respects_decision. do 3 read_field Hx respects_str.
  destruct (read_default_list as_str _) as [lims|] eqn:E in Hx; [|done]. injection Hx as <-. erewrite respects_limits; [|eassumption..].
  eexists. split; [reflexivity|]. by constructor.
Qed.

(** *** What is written reads back *)

Definition finite_opt (x : option f64) : bool := match x with Some f => f64_is_finite f | None => true end.
Definition in_u32 (n : Z) : bool := (0 <=? n)%Z && (n <? 2^32)%Z.
(** Every double is finite, every count in range. *)
Definition writable_decision (d : Decision) : bool :=
  forallb (fun s => forallb in_u32 [sum_cases s; sum_passed s; sum_failed s; sum_errored s; sum_skipped s]
    && f64_is_finite (sum_pass_rate s) && f64_is_finite (sum_coverage s)) (summaries d)
  && forallb (fun r => finite_opt (observed r) && finite_opt (required r)) (reasons d).

Lemma read_list_written {A} (f : value -> option A) (g : A -> value) l : Forall (fun x => f (g x) = Some x) l -> read_list f (VArray (map g l)) = Some l.
Proof. intros H. unfold read_list. cbn. apply mapM_Some. induction H; constructor; auto. Qed.
Lemma read_f64_written x : f64_is_finite x = true -> read_f64 (f64_value x) = Some x.
Proof. intros H. unfold f64_value. by rewrite H. Qed.
Lemma read_u32_written n : in_u32 n = true -> read_u32 (VNumber (PosInt n)) = Some n.
Proof. unfold in_u32. intros [_ H]%andb_true_iff. cbn [read_u32]. by rewrite H. Qed.
Lemma read_strings_written l : read_list as_str (VArray (map VString l)) = Some l.
Proof. apply read_list_written, Forall_forall. done. Qed.
Lemma run_ref_written r : read_run_ref (run_ref_json r) = Some r.
Proof. by destruct r. Qed.
Lemma policy_ref_written p : read_policy_ref (policy_ref_json p) = Some p.
Proof. by destruct p. Qed.
Lemma code_written c : read_code (VString (code_str c)) = Some c.
Proof. by destruct c. Qed.
Lemma outcome_written o : read_outcome (VString (outcome_str o)) = Some o.
Proof. by destruct o. Qed.
Lemma reason_written r : finite_opt (observed r) && finite_opt (required r) = true -> read_reason (reason_json r) = Some r.
Proof.
  destruct r as [c m s k o q]. intros [Ho Hq]%andb_true_iff. cbn in Ho, Hq.
  assert (Hf : struct_fields [("code", false); ("message", false); ("suite", true); ("case", true); ("observed", true); ("required", true)]
    (reason_json (mkReason c m s k o q)) =
    Some [Some (VString (code_str c)); Some (VString m); VString <$> s; VString <$> k; f64_value <$> o; f64_value <$> q]).
  { unfold reason_json. cbn [code message reason_suite reason_case observed required].
    destruct s, k, o, q; reflexivity. }
  assert (Hn : forall x, finite_opt x = true -> read_option read_f64 (f64_value <$> x) = Some x).
  { intros [x|] Hx; [|done]. cbn in Hx |- *. unfold f64_value. by rewrite Hx. }
  unfold read_reason. rewrite Hf. cbv iota. rewrite code_written, (Hn o), (Hn q) by done. by destruct s, k.
Qed.
Lemma summary_written s : forallb in_u32 [sum_cases s; sum_passed s; sum_failed s; sum_errored s; sum_skipped s]
    && f64_is_finite (sum_pass_rate s) && f64_is_finite (sum_coverage s) = true -> read_summary (summary_json s) = Some s.
Proof.
  destruct s as [n a b c d e r v]. cbn [sum_cases sum_passed sum_failed sum_errored sum_skipped sum_pass_rate sum_coverage forallb].
  rewrite !andb_true_iff. intros [[(Ha & Hb & Hc & Hd & He & _) Hr] Hv].
  assert (Hf : struct_fields [("suite", false); ("cases", false); ("passed", false); ("failed", false); ("errored", false); ("skipped", false);
      ("passRate", false); ("coverage", false)] (summary_json (mkSummary n a b c d e r v)) =
    Some [Some (VString n); Some (VNumber (PosInt a)); Some (VNumber (PosInt b)); Some (VNumber (PosInt c)); Some (VNumber (PosInt d));
      Some (VNumber (PosInt e)); Some (f64_value r); Some (f64_value v)]) by reflexivity.
  unfold read_summary. rewrite Hf. cbv iota. by rewrite !read_u32_written, !read_f64_written.
Qed.
Lemma decision_written d : writable_decision d = true -> read_decision (decision_json d) = Some d.
Proof.
  destruct d as [o r p q rs bs ss es]. unfold writable_decision. cbn [summaries reasons]. rewrite andb_true_iff, !forallb_forall. intros [Hs He].
  assert (Hf : struct_fields [("outcome", false); ("release", false); ("policy", false); ("requiredSuites", false); ("runs", false);
      ("baselineRuns", false); ("summaries", false); ("reasons", false)] (decision_json (mkDecision o r p q rs bs ss es)) =
    Some [Some (VString (outcome_str o)); Some (VString r); Some (policy_ref_json p); Some (VArray (map VString q)); Some (VArray (map run_ref_json rs));
      Some (VArray (map run_ref_json bs)); Some (VArray (map summary_json ss)); Some (VArray (map reason_json es))]) by reflexivity.
  unfold read_decision. rewrite Hf. cbv iota. rewrite outcome_written, policy_ref_written, read_strings_written. cbn [as_str].
  rewrite !(read_list_written read_run_ref) by (apply Forall_forall; intros; apply run_ref_written).
  rewrite (read_list_written read_summary) by (apply Forall_forall; intros x Hx; apply summary_written, Hs; by apply list_elem_of_In).
  by rewrite (read_list_written read_reason) by (apply Forall_forall; intros x Hx; apply reason_written, He; by apply list_elem_of_In).
Qed.
Lemma certification_written c : writable_decision (c_decision c) = true -> read_certification (certification_json c) = Some c.
Proof.
  destruct c as [i r a e d t u s l]. cbn [c_decision]. intros Hd.
  assert (Hf : struct_fields [("id", false); ("release", false); ("agent", true); ("environment", false); ("decision", false); ("issuedAt", false);
      ("validUntil", false); ("issuer", false); ("limitations", true)] (certification_json (mkCertification i r a e d t u s l)) =
    Some [Some (VString i); Some (VString r); VString <$> a; Some (VString e); Some (decision_json d); Some (VString t); Some (VString u);
      Some (VString s); match l with [] => None | _ => Some (VArray (map VString l)) end]).
  { unfold certification_json. cbn [c_id c_release c_agent c_environment c_decision c_issued_at c_valid_until c_issuer c_limitations].
    generalize (decision_json d) as v. intros v. destruct a, l; reflexivity. }
  unfold read_certification. rewrite Hf. cbv iota. cbn [as_str]. rewrite decision_written by done.
  assert (Hl : read_default_list as_str (match l with [] => None | _ => Some (VArray (map VString l)) end) = Some l).
  { destruct l; [done|]. apply read_strings_written. }
  rewrite Hl. by destruct a.
Qed.

(** *** A statement is well-formed JSON *)

Definition all_wf (l : list (string * value)) : Prop := Forall (fun kx => value_wf kx.2 = true) l.
Lemma object_wf l : all_wf l -> value_wf (object l) = true.
Proof.
  intros H. unfold object. cbn [value_wf]. apply andb_true_iff. split; [apply bool_decide_eq_true; apply (BTree.wf_of_list l)|].
  apply forallb_forall. intros [k x] Hin%list_elem_of_In. apply BTree.elem_get in Hin; [|apply BTree.wf_of_list]. apply get_of_list_Some in Hin.
  unfold all_wf in H. rewrite Forall_forall in H. by apply (H (k, x)).
Qed.
Lemma array_wf {A} (f : A -> value) l : (forall x, x ∈ l -> value_wf (f x) = true) -> value_wf (VArray (map f l)) = true.
Proof. intros H. cbn [value_wf]. apply forallb_forall. intros v (x & <- & Hx)%in_map_iff. apply H. by apply list_elem_of_In. Qed.
Lemma member_wf {A} k (f : A -> value) o : (forall x, o = Some x -> value_wf (f x) = true) -> all_wf (member k f o).
Proof. intros H. destruct o; constructor; [by apply H|constructor]. Qed.
Lemma members_wf {A} k (f : A -> value) l : (forall x, x ∈ l -> value_wf (f x) = true) -> all_wf (members k f l).
Proof. intros H. destruct l as [|x l]; constructor; [by apply (array_wf f (x :: l))|constructor]. Qed.
Lemma f64_value_wf x : value_wf (f64_value x) = true.
Proof. unfold f64_value. destruct (f64_is_finite x) eqn:H; [by cbn; rewrite H|done]. Qed.
Lemma u32_wf n : in_u32 n = true -> value_wf (VNumber (PosInt n)) = true.
Proof. unfold in_u32. cbn. unfold in_u64, U64_MAX. rewrite !andb_true_iff, !Z.leb_le, Z.ltb_lt. lia. Qed.
Lemma strings_wf l : value_wf (VArray (map VString l)) = true.
Proof. by apply array_wf. Qed.

Lemma decision_wf d : writable_decision d = true -> value_wf (decision_json d) = true.
Proof.
  unfold writable_decision. rewrite andb_true_iff, !forallb_forall. intros [Hs _]. apply object_wf.
  repeat (apply Forall_cons; split; [cbn [snd]|]); try apply strings_wf; try done.
  - apply array_wf. intros r _. by apply object_wf; repeat constructor.
  - apply array_wf. intros r _. by apply object_wf; repeat constructor.
  - apply array_wf. intros x Hx%list_elem_of_In%Hs. cbn [forallb] in Hx. rewrite !andb_true_iff in Hx. destruct Hx as [[(? & ? & ? & ? & ? & _) _] _].
    apply object_wf. repeat (apply Forall_cons; split; [first [by apply u32_wf|apply f64_value_wf|done]|]). constructor.
  - apply array_wf. intros r _. apply object_wf. apply Forall_app. split; [by repeat constructor|]. repeat (apply Forall_app; split).
    all: apply member_wf; intros; first [apply f64_value_wf|done].
Qed.
Lemma certification_wf c : writable_decision (c_decision c) = true -> value_wf (certification_json c) = true.
Proof.
  intros Hd%decision_wf. apply object_wf. repeat (apply Forall_app; split); [by repeat constructor|by apply member_wf| |by apply members_wf].
  repeat (apply Forall_cons; split; [done|]). constructor.
Qed.
Lemma statement_wf c : writable_decision (c_decision c) = true -> value_wf (statement c) = true.
Proof.
  intros H%certification_wf. unfold statement. generalize dependent (certification_json c). intros v H.
  match goal with |- value_wf (VObject ?l) = true => change (VObject l) with (object l) end.
  apply object_wf. repeat (apply Forall_cons; split; [cbn [snd]|]); try done.
  apply (object_wf [("certification", v)]). by repeat constructor.
Qed.

Lemma reads_member k v w x : reads v w -> vget k v = Some x -> exists y, vget k w = Some y /\ reads x y.
Proof.
  destruct v as [| | | | |o]; try done. intros (p & -> & Hop)%reads_object. unfold vget. cbn [as_object]. intros Hx.
  induction Hop as [|[k' z] [l y] o p [Hk Hz] _ IH]; [done|]. cbn in Hk, Hz, Hx |- *. subst l. case_decide; [|by apply IH].
  injection Hx as ->. eauto.
Qed.
Lemma reads_string k v w t : reads v w -> string_member k v = Some t -> string_member k w = Some t.
Proof.
  unfold string_member. intros Hr Hs. destruct (vget k v) as [x|] eqn:Hx; [|done]. destruct (reads_member _ _ _ _ Hr Hx) as (y & -> & Hy).
  by destruct (respects_str _ _ _ Hy Hs) as (? & -> & <-).
Qed.

Section RoundTrip.
Context {HC : HashCrates} {HL : HashLaws} {JC : JsonCrates} {JL : JsonNumberLaws} {SC : SignatureCrates} {SL : SignatureLaws} {TC : TimeCrate}.

Lemma subject_reads v w h : reads v w -> parse_subject (Some v) = Some h -> parse_subject (Some w) = Some h.
Proof.
  unfold parse_subject. destruct v as [| | | |[|x [|]]|]; try done. intros (b & -> & Hb)%reads_array. apply Forall2_cons_inv_l in Hb as (y & b' & Hxy & Hb & ->).
  apply Forall2_nil_inv_l in Hb as ->. cbn [as_array]. destruct (string_member "name" x) as [nm|] eqn:Hn; [|done].
  rewrite (reads_string _ _ _ _ Hxy Hn). destruct (vget "digest" x) as [d|] eqn:Hd; [|done]. destruct (reads_member _ _ _ _ Hxy Hd) as (d' & -> & Hdd).
  destruct (string_member "sha256" d) as [hex|] eqn:Hh; [|done]. by rewrite (reads_string _ _ _ _ Hdd Hh).
Qed.

(** The subject of a statement about a release hash. *)
Lemma statement_subject c h : hash_parse (c_release c) = Some h -> parse_subject (vget "subject" (statement c)) = Some h.
Proof.
  intros Hh. pose proof Hh as Hp. unfold hash_parse in Hh. destruct (strip_prefix "sha256:" (c_release c)) as [hex|] eqn:Hs; [|done].
  change (vget "subject" (statement c)) with (Some (VArray [VObject [("digest", VObject [("sha256",
    VString (default (c_release c) (strip_prefix "sha256:" (c_release c))))]); ("name", VString (subject_name (c_agent c)))]])).
  rewrite Hs. cbn [default]. unfold parse_subject. change (hash_parse ("sha256:" +:+ hex) = Some h). apply strip_prefix_Some in Hs. by rewrite <- Hs.
Qed.

(** C33: a certification that is issued and signed as documented verifies: if
    its release is a hash and the one decided on, its id is not blank and its
    numbers are writable, then under the signer's key and while it is in force,
    not revoked, and what the caller expects, [verify] accepts it, reports it
    certified exactly when the decision certifies, and [Valid] exactly when no
    limitation is declared. *)
Theorem issued_then_verified (c : Certification) (key : SigningKey) (kid : string) (ctx : VerifyContext) (h : ReleaseHash) (i u n : Z)
    (release : hash_parse (c_release c) = Some h) (decided : decided_release (c_decision c) = c_release c)
    (named : blank (c_id c) = false) (writable : writable_decision (c_decision c) = true)
    (issued : parse_rfc3339 (c_issued_at c) = Some i) (until : parse_rfc3339 (c_valid_until c) = Some u)
    (now : parse_rfc3339 (context_now ctx) = Some n) (in_force : (i <= n < u)%Z)
    (trusts : mkTrustedKey kid (verifying_key key) ∈ trusted ctx) (key_stands : kid ∉ revoked_keys ctx)
    (statement_stands : hex_encode (sha256 (as_bytes (jcs (statement c)))) ∉ revoked_statements ctx)
    (expects : forall r, expected_release ctx = Some r -> r = c_release c)
    (needs : forall hs, required_runs ctx = Some hs -> forall x, x ∈ hs -> x ∈ map ref_hash (decided_runs (c_decision c))) :
  let r := verify (dsse_sign (statement c) key kid) ctx in
  accepted r /\ (certified r = true <-> outcome (c_decision c) = Certified) /\ (report_status r = Valid <-> c_limitations c = []).
Proof.
  cbv zeta. set (e := dsse_sign (statement c) key kid). set (data := as_bytes (jcs (statement c))).
  destruct (json_reads_back (statement c) (statement_wf c writable)) as (w & Hw & Hdup & Hr).
  assert (Hp : exists p, vget "predicate" w = Some p /\ exists c', read_predicate p = Some c' /\ same_certification c c').
  { destruct (reads_member "predicate" (statement c) w (VObject [("certification", certification_json c)]) Hr eq_refl) as (p & Hp & Hrp).
    exists p. split; [done|]. apply reads_object in Hrp as (p' & -> & Hpp). apply Forall2_cons_inv_l in Hpp as ([k y] & q & [Hk Hy] & Hq & ->).
    apply Forall2_nil_inv_l in Hq as ->. cbn [fst snd] in Hk, Hy. subst k.
    destruct (respects_certification _ _ _ Hy (certification_written c writable)) as (c' & Hc' & Hs). by exists c'. }
  destruct Hp as (p & Hp & c' & Hc' & [Hid Hrel Hi Hu Hl (Ho & Hd & Hrs)]).
  assert (Hsig : forall k, signed_by e data (trusted ctx) k <-> k = kid).
  { intros k. split.
    - intros (s & ? & ? & Hs & <- & _). apply list_elem_of_singleton in Hs as ->. done.
    - intros ->. eexists _, _, _. split; [by left|]. split; [done|]. split; [exact trusts|]. split; [done|].
      split; [apply base64_round_trip|]. split; [apply ed25519_sign_length|apply ed25519_sign_verifies]. }
  assert (Hsub : parse_subject (vget "subject" w) = Some h).
  { pose proof (statement_subject c h release) as Hs.
    destruct (reads_member "subject" (statement c) w _ Hr eq_refl) as (y & -> & Hy). by apply (subject_reads _ _ _ Hy). }
  apply hash_parse_sound in release as Hh. destruct Hh as [_ Hh].
  assert (Ha : attests e ctx data w h c').
  { constructor; try done.
    - apply base64_round_trip.
    - exists kid. by apply Hsig.
    - by intros k ->%Hsig.
    - by apply (reads_string _ _ _ _ Hr).
    - eexists. split; [by apply (reads_string _ _ _ _ Hr)|done].
    - intros r Hx. rewrite (expects r Hx). congruence.
    - exists p. done.
    - by rewrite <- Hid.
    - congruence.
    - by rewrite <- Hrel, release.
    - congruence.
    - exists i, u, n. rewrite <- Hi, <- Hu. done.
    - rewrite <- Hrs. exact needs. }
  destruct (verify_cases e ctx) as (ps & dg & rel & o & -> & _ & Hout). destruct (Hout _ _ _ _ Ha) as (Hps & Hoc & Hv). rewrite Hoc.
  unfold accepted, finish. cbn [report_status certified]. pose proof (proj2 (worst_harmless ps) Hps) as Hok. split; [done|]. split.
  - rewrite (proj2 (Z.leb_le _ _) Hok), andb_true_l, bool_decide_eq_true, <- Ho. split; congruence.
  - by rewrite Hl.
Qed.
End RoundTrip.

(** *** Concrete instances *)

Section Witnesses.
Import Toy.

(** Times as [<decimal nanoseconds>T..]. *)
#[local] Instance toy_times : TimeCrate :=
  {| parse_from_rfc3339 s := let! (d, _) := split_once "T"%char s else None in decimal_text d |}.
#[local] Instance toy_fmt : FmtText := {| debug_str s := s; display_f64 _ := "x"; fixed4_f64 _ := "0.5000" |}.

Definition issuer_key : SigningKey (SignatureCrates := toy_signatures) := repeat "a"%char 32.
Definition demo_certification (limits : list string) : Certification :=
  mkCertification "cert-1" demo_release (Some "support-agent") "production" (decide (demo_input good_cases)) "1000000000T" "9000000000T" "ci" limits.
Definition demo_context (now : string) : VerifyContext :=
  mkContext [mkTrustedKey "ci-key" (verifying_key issuer_key)] ∅ ∅ now (Some demo_release) None.
Definition demo_envelope (limits : list string) : Envelope := dsse_sign (statement (demo_certification limits)) issuer_key "ci-key".

Lemma reads_same v : value_wf v = true -> reads v v.
Proof.
  induction v as [|b|n|s|a IH|o IH] using value_ind; intros Hw; try done.
  - destruct n as [n|n|f]; try done. exists f. split; [done|by apply f64_eqb_refl].
  - cbn in Hw |- *. induction IH as [|x a Hx _ IHa]; [done|]. cbn in Hw. apply andb_true_iff in Hw as [? ?]. split; [by apply Hx|by apply IHa].
  - cbn in Hw |- *. apply andb_true_iff in Hw as [_ Hw]. induction IH as [|[k x] o Hx _ IHo]; [done|]. cbn in Hw. apply andb_true_iff in Hw as [? ?]. split; [done|]. split; [by apply Hx|by apply IHo].
Qed.
#[local] Instance toy_number_laws : JsonNumberLaws.
Proof.
  constructor. intros v Hw. exists v. split; [|split; [done|by apply reads_same]].
  cbn [json_from_slice jcs toy_json]. unfold value_text. by rewrite from_as_bytes, unbits_bits, decode_encode; cbn; rewrite value_of_tree.
Qed.

Example demo_verifies : report_status (verify (demo_envelope []) (demo_context "5000000000T")) = Valid.
Proof. by vm_compute. Qed.
Example demo_expired : report_status (verify (demo_envelope []) (demo_context "9000000000T")) = Expired.
Proof. by vm_compute. Qed.
Example demo_limited : report_status (verify (demo_envelope ["locale en only"]) (demo_context "5000000000T")) = ValidWithLimitations.
Proof. by vm_compute. Qed.

Lemma issued_then_verified_witness : certified (verify (demo_envelope []) (demo_context "5000000000T")) = true.
Proof.
  refine (proj2 (proj1 (proj2 (issued_then_verified (demo_certification []) issuer_key "ci-key" (demo_context "5000000000T")
    (mkReleaseHash (repeat "a"%char 32)) 1000000000 9000000000 5000000000 _ _ _ _ _ _ _ _ _ _ _ _ _))) _).
  1-7: vm_compute; reflexivity.
  - lia.
  - left.
  - apply not_elem_of_empty.
  - apply not_elem_of_empty.
  - by intros r [= <-].
  - done.
  - vm_compute. reflexivity.
Defined.
End Witnesses.
