(* ===== verification/ToolsLock.v ===== *)
(** * Tool pinning ([cloakpipe-mcp/src/tools_lock.rs])

    The hash of a tool definition, the lock that pins the tools of each
    server, reading and writing it, and the differences of two locks. *)

From S2P Require Import Prelude BTree Json Crates Concrete Action Ledger CanonicalJson.

Definition TOOLS_LOCK_SCHEMA : string := "cloakpipe.tools-lock/v1".

(** What one server said at start-up ([servers.rs]). *)
Record ServerTools := mkServerTools {
  st_name : string;
  st_init : value;
  st_tools : list value;
}.

(** A lock that does not read; the parser's message is left out. *)
Inductive LockError := Syntax | Schema (s : string) | LockDigest (recorded computed : string).

(** Pinned hashes, per server, per tool. *)
Record ToolsLock := mkToolsLock { pins : btree (btree string) }.

Inductive ChangeKind := Added | Removed | Changed.
Record LockChange := mkLockChange {
  change_server : string;
  change_tool : string;
  change : ChangeKind;
  before : option string;
  after : option string;
}.

Definition tool_name (tool : value) : option string := let! v := vget "name" tool else None in as_str v.

Section Lock.
Context {HC : HashCrates} {JC : JsonCrates} {PP : PrettyCrate}.

(** [PINNED_MEMBERS], [tool_hash] and [sha256]. *)
Definition PINNED_MEMBERS : list string := ["name"; "description"; "inputSchema"; "annotations"].
Definition sha256_text (b : bytes) : string := "sha256:" +:+ hex_lower (sha256 b).
Definition pinned (tool : value) : btree value :=
  fold_left (fun m member => match vget member tool with Some v => BTree.insert member v m | None => m end) PINNED_MEMBERS [].
Definition tool_hash (tool : value) : string := sha256_text (as_bytes (jcs (VObject (pinned tool)))).

(** [ToolsLock::from_servers] *)
Definition pin_tools (tools : list value) (t : btree string) : btree string :=
  fold_left (fun t tool => match tool_name tool with Some name => BTree.insert name (tool_hash tool) t | None => t end) tools t.
Definition pin_server (m : btree (btree string)) (s : ServerTools) : btree (btree string) :=
  BTree.insert (st_name s) (pin_tools (st_tools s) (default [] (BTree.get (st_name s) m))) m.
Definition from_servers (servers : list ServerTools) : ToolsLock := mkToolsLock (fold_left pin_server servers []).

(** [body], [digest] and [to_json_string]. *)
Definition tools_value (t : btree string) : value := VObject (map (fun th => (th.1, VString th.2)) t).
Definition pins_value (m : btree (btree string)) : value := VObject (map (fun kv => (kv.1, tools_value kv.2)) m).
Definition lock_body (l : ToolsLock) : value :=
  VObject (BTree.of_list [("schema", VString TOOLS_LOCK_SCHEMA); ("servers", pins_value (pins l))]).
Definition lock_digest (l : ToolsLock) : string := sha256_text (as_bytes (jcs (lock_body l))).
Definition lock_value (l : ToolsLock) : value :=
  VObject (BTree.of_list [("schema", VString TOOLS_LOCK_SCHEMA); ("servers", pins_value (pins l)); ("digest", VString (lock_digest l))]).
Definition lock_to_json_string (l : ToolsLock) : string := from_bytes (to_vec_pretty (lock_value l)) +:+ NL.

(** [serde_json::from_value] of a map of maps of strings. *)
Definition read_tools (v : value) : option (btree string) :=
  let! o := as_object v else None in
  mapM (fun kv => let! h := as_str kv.2 else None in Some (kv.1, h)) o.
Definition read_pins (v : value) : option (btree (btree string)) :=
  let! o := as_object v else None in
  mapM (fun kv => let! t := read_tools kv.2 else None in Some (kv.1, t)) o.

(** [ToolsLock::parse] *)
Definition lock_parse (text : string) : result LockError ToolsLock :=
  let! v := json_from_slice (as_bytes text) else Err Syntax in
  let schema := default "" (let! s := vget "schema" v else None in as_str s) in
  if negb (bool_decide (schema = TOOLS_LOCK_SCHEMA)) then Err (Schema schema)
  else
    let! servers := read_pins (default VNull (vget "servers" v)) else Err Syntax in
    let l := mkToolsLock servers in
    let recorded := default "" (let! s := vget "digest" v else None in as_str s) in
    if negb (bool_decide (recorded = lock_digest l)) then Err (LockDigest recorded (lock_digest l)) else Ok l.
End Lock.

(** [hash_of], [has_server], [servers] and [tool_count]. *)
Definition hash_of (l : ToolsLock) (server tool : string) : option string :=
  let! t := BTree.get server (pins l) else None in BTree.get tool t.
Definition has_server (l : ToolsLock) (server : string) : bool := BTree.contains_key server (pins l).
Definition lock_servers (l : ToolsLock) : list string := BTree.keys (pins l).
Definition tool_count (l : ToolsLock) : nat := list_sum (map (fun kv => length kv.2) (pins l)).

(** [diff] *)
Definition change_kind (b a : option string) : option ChangeKind :=
  match b, a with
  | None, Some _ => Some Added
  | Some _, None => Some Removed
  | Some b, Some a => if decide (b = a) then None else Some Changed
  | None, None => None
  end.
Definition names {A} (b a : btree A) : list string := sort_dedup (BTree.keys b ++ BTree.keys a).
Definition diff_server (server : string) (b a : btree string) : list LockChange :=
  omap (fun tool =>
    let! kind := change_kind (BTree.get tool b) (BTree.get tool a) else None in
    Some (mkLockChange server tool kind (BTree.get tool b) (BTree.get tool a))) (names b a).
Definition lock_diff (l newer : ToolsLock) : list LockChange :=
  names (pins l) (pins newer) ≫= fun server =>
    diff_server server (default [] (BTree.get server (pins l))) (default [] (BTree.get server (pins newer))).

(** The representation invariant. *)
Definition lock_wf (l : ToolsLock) : Prop := BTree.wf (pins l) /\ Forall (fun kv => BTree.wf kv.2) (pins l).

(** ** Lemmas *)

Lemma get_map {A B} (f : A -> B) k (m : btree A) : BTree.get k (map (fun kv => (kv.1, f kv.2)) m) = f <$> BTree.get k m.
Proof. induction m as [|[k' v] m IH]; [done|]. cbn. by case_decide. Qed.

Lemma map_inj_btree {A B} (f : A -> B) (m n : btree A) :
  (forall k x y, (k, x) ∈ m -> (k, y) ∈ n -> f x = f y -> x = y) ->
  map (fun kv => (kv.1, f kv.2)) m = map (fun kv => (kv.1, f kv.2)) n -> m = n.
Proof.
  revert n. induction m as [|[k x] m IH]; intros [|[k' y] n] Hf H; try done. cbn in H. injection H as <- Hxy Hr.
  assert (x = y) as <- by (eapply Hf; [left|left|done]). f_equal. apply IH; [|done]. intros j a b Ha Hb. eapply Hf; by right.
Qed.

Section LockLemmas.
Context {HC : HashCrates} {JC : JsonCrates} {JL : JsonLaws}.

Lemma sha256_text_inj a b : sha256_text a = sha256_text b -> a = b \/ collision_among sha256 [a; b].
Proof.
  unfold sha256_text. intros H. apply (f_equal (strip_prefix "sha256:")) in H. rewrite !strip_prefix_app in H. injection H as H.
  by apply hex_lower_inj, same_or_pair in H.
Qed.

Lemma jcs_members o p : BTree.wf o -> BTree.wf p -> jcs (VObject o) = jcs (VObject p) ->
  map (fun kv => (kv.1, jcs kv.2)) o = map (fun kv => (kv.1, jcs kv.2)) p.
Proof. apply jcs_object_inj. Qed.

Lemma pinned_spec tool l m k : BTree.wf m ->
  let m' := fold_left (fun m member => match vget member tool with Some v => BTree.insert member v m | None => m end) l m in
  BTree.wf m' /\ BTree.get k m' = (if decide (k ∈ l) then match vget k tool with Some v => Some v | None => BTree.get k m end else BTree.get k m).
Proof.
  revert m. induction l as [|x l IH]; intros m Hm; cbn [fold_left]; [split; [done|]; by rewrite decide_False by apply not_elem_of_nil|].
  destruct (vget x tool) as [v|] eqn:Hv.
  - destruct (IH (BTree.insert x v m)) as [Hw ->]; [auto with cloakpipe|]. split; [done|]. rewrite BTree.get_insert by done.
    destruct (decide (k = x)) as [->|Hne]; [rewrite (decide_True (P := x ∈ x :: l)), Hv by left; by case_decide|].
    repeat case_decide; set_solver.
  - destruct (IH m Hm) as [Hw ->]. split; [done|]. destruct (decide (k = x)) as [->|Hne]; [rewrite Hv; by repeat case_decide|].
    repeat case_decide; set_solver.
Qed.

Lemma pinned_wf tool : BTree.wf (pinned tool).
Proof. by apply (pinned_spec tool PINNED_MEMBERS [] "" BTree.wf_nil). Qed.
Lemma pinned_get tool k : k ∈ PINNED_MEMBERS -> BTree.get k (pinned tool) = vget k tool.
Proof.
  intros Hk. destruct (pinned_spec tool PINNED_MEMBERS [] k BTree.wf_nil) as [_ H]. unfold pinned. rewrite H, decide_True by done.
  by destruct (vget k tool).
Qed.
End LockLemmas.

(** ** What is pinned *)

(** The definitions a server of that name lists for a tool, in order. *)
Definition listed (servers : list ServerTools) (server tool : string) : list value :=
  filter (fun t => tool_name t = Some tool) (filter (fun s => st_name s = server) servers ≫= st_tools).

Lemma pin_tools_spec `{HashCrates, JsonCrates} tools t name : BTree.wf t -> BTree.wf (pin_tools tools t) /\
  BTree.get name (pin_tools tools t) =
    match last (filter (fun x => tool_name x = Some name) tools) with Some x => Some (tool_hash x) | None => BTree.get name t end.
Proof.
  intros Ht. induction tools as [|x tools [IHw IH]] using rev_ind; [done|]. unfold pin_tools in *. rewrite fold_left_app, filter_app. cbn [fold_left].
  destruct (tool_name x) as [n|] eqn:Hn.
  - split; [auto with cloakpipe|]. rewrite BTree.get_insert by done. rewrite filter_cons, Hn, filter_nil.
    destruct (decide (name = n)) as [->|Hne]; [by rewrite decide_True, last_snoc by done|].
    by rewrite decide_False, app_nil_r by congruence.
  - split; [done|]. by rewrite filter_cons, Hn, decide_False, filter_nil, app_nil_r by done.
Qed.

Lemma insert_Forall {A} (P : A -> Prop) k v (m : btree A) : P v -> Forall (fun kv => P kv.2) m -> Forall (fun kv => P kv.2) (BTree.insert k v m).
Proof.
  intros Hv. induction m as [|[k' v'] m IH]; intros Hm; [by repeat constructor|]. apply Forall_cons in Hm as [? ?]. cbn.
  repeat case_decide; repeat constructor; auto.
Qed.

Lemma get_Forall {A} (P : A -> Prop) k (m : btree A) v : Forall (fun kv => P kv.2) m -> BTree.get k m = Some v -> P v.
Proof. intros Hm Hk%BTree.get_Some_elem. rewrite Forall_forall in Hm. by apply (Hm _ Hk). Qed.

Lemma listed_snoc servers s server tool : listed (servers ++ [s]) server tool =
  listed servers server tool ++ (if decide (st_name s = server) then filter (fun t => tool_name t = Some tool) (st_tools s) else []).
Proof.
  unfold listed. rewrite filter_app, bind_app, filter_app. f_equal. rewrite filter_cons, filter_nil. case_decide; [|done].
  by rewrite bind_singleton || (cbn; by rewrite app_nil_r).
Qed.

Lemma pin_servers_spec `{HashCrates, JsonCrates} servers : let m := fold_left pin_server servers [] in
  lock_wf (mkToolsLock m) /\ forall server tool, hash_of (mkToolsLock m) server tool = tool_hash <$> last (listed servers server tool).
Proof.
  cbv zeta. induction servers as [|s servers [[Hw Hf] IH]] using rev_ind; [split; [split; [apply BTree.wf_nil|constructor]|done]|].
  rewrite fold_left_app. cbn [fold_left]. unfold pin_server at 1 3. set (m := fold_left pin_server servers []) in *. cbn [pins] in *.
  set (t := default [] (BTree.get (st_name s) m)).
  assert (Ht : BTree.wf t).
  { unfold t. destruct (BTree.get (st_name s) m) eqn:E; [by eapply get_Forall in E|apply BTree.wf_nil]. }
  split.
  { split; cbn [pins]; [by apply BTree.wf_insert|apply insert_Forall; [by apply (pin_tools_spec (st_tools s) t "")|done]]. }
  intros server tool. specialize (IH server tool). unfold hash_of in *. cbn [pins] in *. rewrite listed_snoc, BTree.get_insert by done.
  destruct (decide (server = st_name s)) as [->|Hne]; [rewrite decide_True by done|by rewrite decide_False, app_nil_r by done].
  destruct (pin_tools_spec (st_tools s) t tool Ht) as [_ ->]. rewrite last_app. destruct (last (filter _ (st_tools s))); [done|].
  rewrite <- IH. unfold t. by destruct (BTree.get (st_name s) m).
Qed.

(** A lock pins each listed tool under its last definition, and nothing
    else. *)
Theorem from_servers_pins_what_is_listed {HC : HashCrates} {JC : JsonCrates} (servers : list ServerTools) (server tool : string) :
  lock_wf (from_servers servers) /\ hash_of (from_servers servers) server tool = tool_hash <$> last (listed servers server tool).
Proof. destruct (pin_servers_spec servers) as [Hw Hh]. split; [exact Hw|apply Hh]. Qed.

(** A pin covers the members of a definition a model reads: two
    definitions with one hash agree on name, description, schema and
    annotations, unless their two texts collide under SHA-256. *)
Theorem tool_hash_binds {HC : HashCrates} {JC : JsonCrates} {JL : JsonLaws} (a b : value) (same : tool_hash a = tool_hash b) :
  (forall member, member ∈ PINNED_MEMBERS -> jcs <$> vget member a = jcs <$> vget member b) \/
  collision_among sha256 [as_bytes (jcs (VObject (pinned a))); as_bytes (jcs (VObject (pinned b)))].
Proof.
  unfold tool_hash in same. apply sha256_text_inj in same as [H|H]; [left|by right]. apply (inj as_bytes) in H.
  apply jcs_members in H; [|apply pinned_wf..]. intros member Hm. rewrite <- !(pinned_get _ _ Hm), <- !get_map. by rewrite H.
Qed.

(** ** Round trip *)

Lemma map_plain {A} (f : A -> value) m : BTree.wf m -> Forall (fun kv => plain (f kv.2)) m ->
  plain (VObject (map (fun kv => (kv.1, f kv.2)) m)).
Proof.
  intros Hw Hf. unfold plain. cbn [value_wf float_free]. rewrite (keys_map f), bool_decide_eq_true_2, andb_true_l by exact Hw.
  rewrite !forallb_Forall, !Forall_fmap, <- Forall_and. exact Hf.
Qed.

Lemma pins_plain m : BTree.wf m -> Forall (fun kv : string * btree string => BTree.wf kv.2) m -> plain (pins_value m).
Proof.
  intros Hw Hf. apply (map_plain tools_value); [done|]. eapply Forall_impl; [exact Hf|]. intros [s t] Ht.
  apply (map_plain VString); [done|]. by apply Forall_true.
Qed.

Lemma read_tools_back t : read_tools (tools_value t) = Some t.
Proof. unfold read_tools. cbn. induction t as [|[k h] t IH]; [done|]. cbn. by rewrite IH. Qed.
Lemma read_pins_back m : read_pins (pins_value m) = Some m.
Proof. unfold read_pins. cbn. induction m as [|[s t] m IH]; [done|]. cbn -[tools_value]. rewrite read_tools_back. cbn -[tools_value]. by rewrite IH. Qed.

(** A written lock reads back as the same lock. *)
Theorem lock_round_trip {HC : HashCrates} {JC : JsonCrates} {PP : PrettyCrate} {PR : PrettyReads} (l : ToolsLock) (ok : lock_wf l) :
  lock_parse (lock_to_json_string l) = Ok l.
Proof.
  destruct ok as [Hw Hf]. unfold lock_parse, lock_to_json_string. rewrite as_bytes_app, as_from_bytes.
  destruct (pins_plain (pins l) Hw Hf) as [H1 H2].
  set (v := VObject [("digest", VString (lock_digest l)); ("schema", VString TOOLS_LOCK_SCHEMA); ("servers", pins_value (pins l))]).
  change (lock_value l) with v. rewrite pretty_reads_back.
  - change (vget "schema" v) with (Some (VString TOOLS_LOCK_SCHEMA)). change (vget "servers" v) with (Some (pins_value (pins l))).
    change (vget "digest" v) with (Some (VString (lock_digest l))). cbn [as_str default from_option]. rewrite bool_decide_eq_true_2 by done.
    cbn [negb]. unfold default. cbn [from_option id]. rewrite read_pins_back. destruct l as [m]. by rewrite bool_decide_eq_true_2.
  - unfold v. cbn [value_wf forallb snd]. rewrite H1. done.
  - unfold v. cbn [float_free forallb snd]. by rewrite H2.
Qed.

(** The digest of a lock determines its pins, unless the two texts collide
    under SHA-256: an edited lock does not read back under the digest it had. *)
Theorem lock_digest_binds {HC : HashCrates} {JC : JsonCrates} {JL : JsonLaws} (l n : ToolsLock) (ok_l : lock_wf l) (ok_n : lock_wf n)
    (same : lock_digest l = lock_digest n) :
  l = n \/ collision_among sha256 [as_bytes (jcs (lock_body l)); as_bytes (jcs (lock_body n))].
Proof.
  unfold lock_digest in same. apply sha256_text_inj in same as [H|H]; [left|by right]. apply (inj as_bytes) in H.
  apply jcs_members in H; [|apply BTree.wf_of_list..]. cbn -[pins_value TOOLS_LOCK_SCHEMA] in H. injection H as H.
  destruct l as [m], n as [m'], ok_l as [Hm Hm'], ok_n as [Hn Hn']. cbn [pins] in *. f_equal. unfold pins_value in H.
  apply jcs_members in H; [|unfold BTree.wf; by rewrite (keys_map tools_value)..]. rewrite !map_map in H. cbn in H.
  apply (map_inj_btree (fun t => jcs (tools_value t))) in H; [done|]. intros k x y Hx Hy Hxy.
  rewrite Forall_forall in Hm', Hn'. apply jcs_members in Hxy; [|unfold BTree.wf; rewrite (keys_map VString); by apply (Hm' (k, x)) || by apply (Hn' (k, y))..].
  rewrite !map_map in Hxy. cbn in Hxy. apply (map_inj_btree (fun h => jcs (VString h))) in Hxy; [done|]. intros ? ? ? _ _. apply jcs_string_inj.
Qed.

(** ** Differences *)

Lemma contains_key_some {A} k (m : btree A) : k ∈ BTree.keys m <-> is_Some (BTree.get k m).
Proof. rewrite <- BTree.contains_key_elem. unfold BTree.contains_key. destruct (BTree.get k m); cbn; naive_solver. Qed.

Lemma names_elem {A} (b a : btree A) x : x ∈ names b a <-> is_Some (BTree.get x b) \/ is_Some (BTree.get x a).
Proof. unfold names. by rewrite sort_dedup_elem, elem_of_app, !contains_key_some. Qed.

Lemma change_kind_some b a k : change_kind b a = Some k -> is_Some b \/ is_Some a.
Proof. destruct b, a; naive_solver. Qed.

Lemma change_kind_none b a : change_kind b a = None <-> b = a.
Proof. destruct b, a; cbn; try case_decide; naive_solver. Qed.

Lemma diff_server_elem server b a c : c ∈ diff_server server b a <->
  change_server c = server /\ before c = BTree.get (change_tool c) b /\ after c = BTree.get (change_tool c) a /\
  change_kind (before c) (after c) = Some (change c).
Proof.
  unfold diff_server. rewrite list_elem_of_omap. split.
  - intros (tool & _ & H). destruct (change_kind _ _) eqn:Hk; [|done]. by injection H as <-.
  - destruct c as [s tool k be af]. cbn. intros (-> & -> & -> & Hk). exists tool. rewrite Hk, names_elem. split; [by eapply change_kind_some|done].
Qed.

Lemma hash_of_default l server tool : hash_of l server tool = BTree.get tool (default [] (BTree.get server (pins l))).
Proof. unfold hash_of. by destruct (BTree.get server (pins l)). Qed.

(** Where a change stands in the report. *)
Definition change_lt (c d : LockChange) : Prop :=
  str_lt (change_server c) (change_server d) \/ change_server c = change_server d /\ str_lt (change_tool c) (change_tool d).

Lemma omap_sorted {A B} (R : relation A) (S : relation B) (f : A -> option B) l :
  (forall x y a b, R x y -> f x = Some a -> f y = Some b -> S a b) -> StronglySorted R l -> StronglySorted S (omap f l).
Proof.
  intros Hf. induction 1 as [|x l _ IH Hx]; [constructor|]. cbn. destruct (f x) eqn:E; [|done]. constructor; [done|].
  apply Forall_forall. intros b' (y & Hy & Hb)%list_elem_of_omap. rewrite Forall_forall in Hx. eapply Hf; eauto.
Qed.

Lemma bind_sorted {A B} (R : relation A) (S : relation B) (f : A -> list B) l :
  (forall x, StronglySorted S (f x)) -> (forall x y a b, R x y -> a ∈ f x -> b ∈ f y -> S a b) ->
  StronglySorted R l -> StronglySorted S (l ≫= f).
Proof.
  intros Hf Hr. induction 1 as [|x l _ IH Hx]; [constructor|]. rewrite bind_cons. apply StronglySorted_app_2; [|done..].
  intros a b Ha (y & Hb & Hy)%list_elem_of_bind. rewrite Forall_forall in Hx. eapply Hr; eauto.
Qed.

(** The differences of two locks are exactly the tools whose pins differ,
    each once, by server and then by tool. *)
Theorem lock_diff_exactly (l newer : ToolsLock) :
  (forall c, c ∈ lock_diff l newer <->
     before c = hash_of l (change_server c) (change_tool c) /\ after c = hash_of newer (change_server c) (change_tool c) /\
     change_kind (before c) (after c) = Some (change c)) /\
  StronglySorted change_lt (lock_diff l newer) /\
  (lock_diff l newer = [] <-> forall server tool, hash_of l server tool = hash_of newer server tool).
Proof.
  assert (He : forall c, c ∈ lock_diff l newer <->
     before c = hash_of l (change_server c) (change_tool c) /\ after c = hash_of newer (change_server c) (change_tool c) /\
     change_kind (before c) (after c) = Some (change c)).
  { intros c. unfold lock_diff. rewrite list_elem_of_bind, !hash_of_default. split.
    - intros (server & (<- & Hc)%diff_server_elem & _). exact Hc.
    - intros Hc. exists (change_server c). rewrite diff_server_elem. split; [by split|]. rewrite names_elem. destruct Hc as (Hb & Ha & Hk).
      apply change_kind_some in Hk as [Hk|Hk]; [left; rewrite Hb in Hk|right; rewrite Ha in Hk].
      + destruct (BTree.get _ (pins l)); [by eexists|by destruct Hk].
      + destruct (BTree.get _ (pins newer)); [by eexists|by destruct Hk]. }
  split; [exact He|]. split.
  - apply (bind_sorted str_lt); [|intros x y a b Hxy (<- & _)%diff_server_elem (<- & _)%diff_server_elem; by left|apply sort_dedup_sorted].
    intros server. apply (omap_sorted str_lt); [|apply sort_dedup_sorted]. intros x y a b Hxy Ha Hb.
    destruct (change_kind _ _); [|done]. destruct (change_kind (BTree.get y _) _); [|done]. injection Ha as <-. injection Hb as <-. by right.
  - split.
    + intros Hn server tool. apply change_kind_none. destruct (change_kind _ _) as [k|] eqn:Hk; [|done].
      assert (Hin : mkLockChange server tool k (hash_of l server tool) (hash_of newer server tool) ∈ lock_diff l newer) by by apply He.
      rewrite Hn in Hin. by apply elem_of_nil in Hin.
    + intros Hall. destruct (lock_diff l newer) as [|c d]; [done|]. destruct (proj1 (He c)) as (Hb & Ha & Hk); [left|].
      rewrite Hb, Ha, Hall in Hk. by rewrite (proj2 (change_kind_none _ _)) in Hk.
Qed.
