(* ===== verification/Catalog.v ===== *)
(** * Which server serves which tool ([cloakpipe-mcp/src/catalog.rs],
    [servers.rs])

    Server names, tool names two servers list, and the catalog: each listed
    definition is held against its pin, or the first one seen, and routed by
    the agent's name of the tool.  Messages to the operator are left out. *)

From S2P Require Import Prelude BTree Json Crates Concrete Reference Action Constraint Rules Contract Manifest.
From S2P Require Import Operations Counters Policy Approval Gate Ledger CanonicalJson ToolsLock.

Definition DEFAULT_SERVER : string := "default".

(** ** Server names *)

Inductive name_error := EmptyName | NameChars | NameSeparator.

(** [check_server_name] *)
Definition check_server_name (name : string) : result name_error unit :=
  if str_is_empty name then Err EmptyName
  else if negb (str_all (fun b => is_ascii_alphanumeric b || bool_decide (b = "-"%char) || bool_decide (b = "_"%char)) name) then Err NameChars
  else if str_contains "__" name then Err NameSeparator
  else Ok tt.

(** [format!("{}__{tool}", server)] *)
Definition per_server (server tool : string) : string := server +:+ "__" +:+ tool.

(** ** Collisions *)

(** A tool two servers list: the names it would have per server. *)
Record Collision := mkCollision { col_tool : string; col_servers : list string; col_names : list string }.

(** [owners]: who lists each name, each server once. *)
Definition add_owner (i : nat) (owners : btree (list nat)) (name : string) : btree (list nat) :=
  let o := default [] (BTree.get name owners) in
  BTree.insert name (if decide (i ∈ o) then o else o ++ [i]) owners.
Fixpoint owners_from (i : nat) (listing : list ServerTools) (owners : btree (list nat)) : btree (list nat) :=
  match listing with
  | [] => owners
  | s :: listing => owners_from (S i) listing (fold_left (add_owner i) (omap tool_name (st_tools s)) owners)
  end.
Definition server_at (listing : list ServerTools) (i : nat) : string := default "" (st_name <$> listing !! i).

(** [collisions] *)
Definition collide (listing : list ServerTools) (declares : string -> bool) (acc : gset string * list Collision)
    (owner : string * list nat) : gset string * list Collision :=
  let '(namespaced, refused) := acc in
  let '(tool, o) := owner in
  if 1 <? length o then
    let names := map (fun i => per_server (server_at listing i) tool) o in
    if existsb declares names then ({[tool]} ∪ namespaced, refused)
    else (namespaced, refused ++ [mkCollision tool (map (server_at listing) o) names])
  else (namespaced, refused).
Definition collisions (listing : list ServerTools) (declares : string -> bool) : gset string * list Collision :=
  fold_left (collide listing declares) (owners_from 0 listing []) (∅, []).

(** ** The catalog *)

(** A tool found drifted, by the name the agent knows it by. *)
Record Drift := mkDrift { drift_server : string; drift_tool : string }.

Record Catalog := mkCatalog {
  servers : list string;
  routed : bool;
  lock : option ToolsLock;
  baseline : gmap (nat * string) string;
  blocked : gset (nat * string);
  exposed : gmap string (nat * string);
  namespaced : gset string;
}.
Definition set_blocked (b : gset (nat * string)) (c : Catalog) : Catalog :=
  mkCatalog (servers c) (routed c) (lock c) (baseline c) b (exposed c) (namespaced c).
Definition set_baseline (b : gmap (nat * string) string) (c : Catalog) : Catalog :=
  mkCatalog (servers c) (routed c) (lock c) b (blocked c) (exposed c) (namespaced c).
Definition set_exposed (e : gmap string (nat * string)) (c : Catalog) : Catalog :=
  mkCatalog (servers c) (routed c) (lock c) (baseline c) (blocked c) e (namespaced c).

(** [servers[i]]; every index comes from the list. *)
Definition server_name (c : Catalog) (i : nat) : string := default "" (servers c !! i).

(** [Catalog::passthrough] *)
Definition passthrough : Catalog := mkCatalog [DEFAULT_SERVER] false None ∅ ∅ ∅ ∅.

Definition agent_name (c : Catalog) (server : nat) (tool : string) : string :=
  if routed c && bool_decide (tool ∈ namespaced c) then per_server (server_name c server) tool else tool.

(** [tool["name"] = ...] *)
Definition rename (name : string) (tool : value) : value :=
  match tool with VObject m => VObject (BTree.insert "name" (VString name) m) | v => v end.

Section Catalog.
Context {HC : HashCrates} {JC : JsonCrates}.

(** What becomes of one listed definition. *)
Inductive Seen := Unnamed | Clash (name : string) | Hidden | Drifted (d : Drift) | Shown (tool : value).

(** Whether another server serves the name; if none does, this one will. *)
Definition expose (server : nat) (name : string) (c : Catalog) : bool * Catalog :=
  let a := agent_name c server name in
  if routed c then
    match exposed c !! a with
    | Some (owner, _) => (negb (owner =? server), c)
    | None => (false, set_exposed (<[a := (server, name)]> (exposed c)) c)
    end
  else (false, c).

(** Whether the definition is not the one pinned or first seen. *)
Definition drifted (server : nat) (name hash : string) (c : Catalog) : bool * Catalog :=
  match lock c with
  | Some l => (negb (bool_decide (hash_of l (server_name c server) name = Some hash)), c)
  | None =>
      match baseline c !! (server, name) with
      | Some first => (negb (bool_decide (first = hash)), c)
      | None => (false, set_baseline (<[(server, name) := hash]> (baseline c)) c)
      end
  end.

Definition observe_tool (server : nat) (tool : value) (c : Catalog) : Seen * Catalog :=
  let! name := tool_name tool else (Unnamed, c) in
  let a := agent_name c server name in
  let '(clash, c) := expose server name c in
  if clash then (Clash a, c)
  else if decide ((server, name) ∈ blocked c) then (Hidden, c)
  else
    let '(bad, c) := drifted server name (tool_hash tool) c in
    if bad then (Drifted (mkDrift (server_name c server) a), set_blocked ({[(server, name)]} ∪ blocked c) c)
    else (Shown (if decide (a = name) then tool else rename a tool), c).

(** [observe_all]: the visible tools, the drifts and the clashes. *)
Fixpoint observe_all (server : nat) (tools : list value) (c : Catalog) : list value * list Drift * list string * Catalog :=
  match tools with
  | [] => ([], [], [], c)
  | tool :: tools =>
      let '(seen, c) := observe_tool server tool c in
      let '(visible, drifts, clashes, c) := observe_all server tools c in
      match seen with
      | Shown t => (t :: visible, drifts, clashes, c)
      | Drifted d => (visible, d :: drifts, clashes, c)
      | Clash n => (visible, drifts, n :: clashes, c)
      | Unnamed | Hidden => (visible, drifts, clashes, c)
      end
  end.

(** [observe] *)
Definition observe (server : nat) (tools : list value) (c : Catalog) : list value * list Drift * Catalog :=
  let '(visible, drifts, _, c) := observe_all server tools c in (visible, drifts, c).

(** [Catalog::routed] *)
Inductive catalog_error := NoServer | BadName (e : name_error) | GivenTwice (name : string) | Collides (l : list Collision) | ServedTwice (name : string).

Fixpoint check_names (listing : list ServerTools) (seen : gset string) : result catalog_error unit :=
  match listing with
  | [] => Ok tt
  | s :: listing =>
      let? _ := map_err BadName (check_server_name (st_name s)) in
      if decide (st_name s ∈ seen) then Err (GivenTwice (st_name s)) else check_names listing ({[st_name s]} ∪ seen)
  end.
Fixpoint observe_servers (i : nat) (listing : list ServerTools) (c : Catalog) : result catalog_error (Catalog * list Drift) :=
  match listing with
  | [] => Ok (c, [])
  | s :: listing =>
      match observe_all i (st_tools s) c with
      | (_, _, name :: _, _) => Err (ServedTwice name)
      | (_, found, [], c) => let? (c, drifts) := observe_servers (S i) listing c in Ok (c, found ++ drifts)
      end
  end.
Definition routed_catalog (listing : list ServerTools) (l : option ToolsLock) (declares : string -> bool) :
    result catalog_error (Catalog * list Drift) :=
  match listing with
  | [] => Err NoServer
  | _ =>
      let? _ := check_names listing ∅ in
      match collisions listing declares with
      | (namespaced, []) => observe_servers 0 listing (mkCatalog (map st_name listing) true l ∅ ∅ ∅ namespaced)
      | (_, found) => Err (Collides found)
      end
  end.
End Catalog.

(** [index] *)
Definition index (c : Catalog) (server : string) : option nat := fst <$> list_find (fun s => s = server) (servers c).

(** [route] *)
Definition route (c : Catalog) (tool : string) : option (nat * string) :=
  if routed c then exposed c !! tool else Some (0, tool).

(** [refuse] *)
Definition refuse (c : Catalog) (tool : string) : option Gate.Denial :=
  match route c tool with
  | None => Some Gate.ToolUnavailable
  | Some (server, name) => if decide ((server, name) ∈ blocked c) then Some (Gate.ToolDrift (server_name c server)) else None
  end.

(** ** What listings do to a catalog *)

(** A catalog only learns: names, pins and routes stay, and what is blocked
    stays blocked. *)
Record grows (c c' : Catalog) : Prop := mkGrows {
  grows_servers : servers c' = servers c;
  grows_routed : routed c' = routed c;
  grows_lock : lock c' = lock c;
  grows_namespaced : namespaced c' = namespaced c;
  grows_baseline : baseline c ⊆ baseline c';
  grows_blocked : blocked c ⊆ blocked c';
  grows_exposed : exposed c ⊆ exposed c';
}.

#[global] Instance grows_preorder : PreOrder grows.
Proof.
  split; [by intros c; constructor|]. intros a b c [] []. constructor; try congruence; by etrans.
Qed.

Lemma grows_agent_name c c' s t : grows c c' -> agent_name c' s t = agent_name c s t.
Proof. intros [H1 H2 _ H3 _ _ _]. unfold agent_name, server_name. by rewrite H1, H2, H3. Qed.
Lemma grows_server_name c c' s : grows c c' -> server_name c' s = server_name c s.
Proof. intros [H1 _ _ _ _ _ _]. unfold server_name. by rewrite H1. Qed.
Lemma grows_route c c' t r : grows c c' -> route c t = Some r -> route c' t = Some r.
Proof. intros [_ H _ _ _ _ He]. unfold route. rewrite H. destruct (routed c); [|done]. intros Hx. by eapply lookup_weaken. Qed.
Lemma grows_drift c c' t s : grows c c' -> refuse c t = Some (Gate.ToolDrift s) -> refuse c' t = Some (Gate.ToolDrift s).
Proof.
  intros Hg. unfold refuse. destruct (route c t) as [[i n]|] eqn:Hr; [|done]. rewrite (grows_route _ _ _ _ Hg Hr), (grows_server_name _ _ _ Hg).
  case_decide as Hb; [|done]. by rewrite decide_True by by apply (grows_blocked _ _ Hg).
Qed.

(** The definition a tool must have, and whether one is known to differ. *)
Definition expected (c : Catalog) (server : nat) (name : string) : option string :=
  match lock c with Some l => hash_of l (server_name c server) name | None => baseline c !! (server, name) end.
Definition unexpected (c : Catalog) (server : nat) (name hash : string) : Prop :=
  expected c server name <> Some hash /\ (lock c = None -> is_Some (expected c server name)).
(** Another server serves the name. *)
Definition clashes_with (c : Catalog) (server : nat) (name : string) : Prop :=
  routed c = true /\ exists owner n, exposed c !! agent_name c server name = Some (owner, n) /\ owner <> server.

Lemma unexpected_grows c c' s n h : grows c c' -> unexpected c s n h -> unexpected c' s n h.
Proof.
  intros Hg [Hn Hk]. unfold unexpected, expected in *. rewrite (grows_lock _ _ Hg), (grows_server_name _ _ _ Hg). destruct (lock c); [done|].
  destruct Hk as [h' Hh]; [done|]. rewrite (lookup_weaken _ _ _ _ Hh (grows_baseline _ _ Hg)). split; [congruence|by eexists].
Qed.

(** Every exposed name is one server's name for one of its tools. *)
Definition catalog_ok (c : Catalog) : Prop :=
  forall a s n, exposed c !! a = Some (s, n) -> s < length (servers c) /\ agent_name c s n = a.

Section CatalogLemmas.
Context {HC : HashCrates} {JC : JsonCrates}.

Definition shown_as (c : Catalog) (server : nat) (tool : value) : value :=
  match tool_name tool with
  | Some name => if decide (agent_name c server name = name) then tool else rename (agent_name c server name) tool
  | None => tool
  end.

(** What is known of a tool that is shown. *)
Definition vouched (c c' : Catalog) (server : nat) (tool : value) : Prop :=
  exists name, tool_name tool = Some name /\ (server, name) ∉ blocked c /\ expected c' server name = Some (tool_hash tool) /\
    (routed c = true -> exists n, exposed c' !! agent_name c server name = Some (server, n)).

Lemma expose_spec server name c clash c' : expose server name c = (clash, c') ->
  grows c c' /\ blocked c' = blocked c /\ baseline c' = baseline c /\ (catalog_ok c -> server < length (servers c) -> catalog_ok c') /\
  (clash = true -> clashes_with c server name /\ c' = c) /\
  (clash = false -> ~ clashes_with c server name /\ (routed c = true -> exists n, exposed c' !! agent_name c server name = Some (server, n))).
Proof.
  unfold expose. destruct (routed c) eqn:Hr; [|intros [= <- <-]; split_and!; try done; intros _; split; [by intros [Hx _]; congruence|done]].
  destruct (exposed c !! agent_name c server name) as [[owner n]|] eqn:He.
  - intros [= <- <-]. split_and!; [done..| |].
    + intros Hn%negb_true_iff%Nat.eqb_neq. split; [|done]. split; [done|]. by exists owner, n.
    + intros Hn%negb_false_iff%Nat.eqb_eq. subst owner. split; [|eauto]. intros (_ & o & n' & Ho & Hne). rewrite He in Ho. by injection Ho as <-.
  - intros [= <- <-]. split_and!; [constructor; try done; by apply insert_subseteq|done|done| |done|].
    + intros Hok Hs a s n. cbn. rewrite lookup_insert. case_decide as Ha; [|by apply Hok]. intros [= <- <-]. split; [done|exact Ha].
    + intros _. split; [by intros (_ & o & n & Ho & _); rewrite He in Ho|]. intros _. exists name. apply lookup_insert_eq.
Qed.

Lemma drifted_spec server name hash c bad c' : drifted server name hash c = (bad, c') ->
  grows c c' /\ blocked c' = blocked c /\ exposed c' = exposed c /\
  (bad = true -> unexpected c server name hash /\ c' = c) /\ (bad = false -> expected c' server name = Some hash /\ ~ unexpected c server name hash).
Proof.
  unfold drifted, unexpected, expected. destruct (lock c) as [l|] eqn:Hl.
  - intros [= <- <-]. rewrite Hl. split_and!; [done..| |].
    + by intros Hn%negb_true_iff%bool_decide_eq_false.
    + intros Hn%negb_false_iff%bool_decide_eq_true. split; [done|]. by intros [H _].
  - destruct (baseline c !! (server, name)) as [first|] eqn:Hb.
    + intros [= <- <-]. rewrite Hl, Hb. split_and!; [done..| |].
      * intros Hn%negb_true_iff%bool_decide_eq_false. split; [|done]. split; [congruence|by eexists].
      * intros Hn%negb_false_iff%bool_decide_eq_true. split; [by subst|]. intros [H _]. by subst.
    + intros [= <- <-]. split_and!; [constructor; try done; by apply insert_subseteq|done..|]. intros _. cbn. rewrite Hl, lookup_insert_eq.
      split; [done|]. intros [_ H]. by destruct H.
Qed.

Lemma observe_tool_spec server tool c seen c' : observe_tool server tool c = (seen, c') ->
  grows c c' /\ (catalog_ok c -> server < length (servers c) -> catalog_ok c') /\
  (forall name, tool_name tool = Some name -> (forall a, seen <> Clash a) ->
     routed c = true -> exists n, exposed c' !! agent_name c server name = Some (server, n)) /\
  (forall name, tool_name tool = Some name -> unexpected c server name (tool_hash tool) -> ~ clashes_with c server name -> (server, name) ∈ blocked c') /\
  (forall t, seen = Shown t -> t = shown_as c server tool /\ vouched c c' server tool).
Proof.
  unfold observe_tool, shown_as. destruct (tool_name tool) as [name|] eqn:Hn; [|by intros [= <- <-]; split_and!].
  destruct (expose server name c) as [clash c1] eqn:He. apply expose_spec in He as (Hg & Hb & Hba & Hok & Hc & Hnc). destruct clash.
  - intros [= <- <-]. destruct Hc as [Hc ->]; [done|]. split_and!; [done..| | |].
    + intros n _ H. by destruct (H (agent_name c server name)).
    + intros n [= <-] _ H. by destruct H.
    + done.
  - destruct Hnc as [Hnc Hexp]; [done|]. destruct (decide ((server, name) ∈ blocked c1)) as [Hbl|Hbl].
    + intros [= <- <-]. split_and!; [done..| | |done]; [by intros n [= <-] _|by intros n [= <-]].
    + destruct (drifted server name (tool_hash tool) c1) as [bad c2] eqn:Hd. apply drifted_spec in Hd as (Hg2 & Hb2 & He2 & Hbad & Hgood).
      destruct bad; intros [= <- <-].
      * destruct Hbad as [Hu ->]; [done|]. assert (Hg3 : grows c1 (set_blocked ({[(server, name)]} ∪ blocked c1) c1)) by (constructor; try done; cbn; set_solver).
        split_and!; [by etrans|by intros; apply Hok|by intros n [= <-] _| |done]. intros n [= <-] _ _. cbn. set_solver.
      * destruct Hgood as [Hex Hnu]; [done|]. split_and!; [by etrans| | | |].
        -- intros Hk Hs a s n. rewrite He2, (grows_servers _ _ Hg2), (grows_agent_name _ _ _ _ Hg2). by apply Hok.
        -- intros n [= <-] _. by rewrite He2.
        -- intros n [= <-] Hu. exfalso. apply Hnu. by eapply unexpected_grows.
        -- intros t [= <-]. split; [done|]. exists name. rewrite He2, <- Hb. by split_and!.
Qed.

Lemma clashes_grows c c' s n : grows c c' -> clashes_with c s n -> clashes_with c' s n.
Proof.
  intros Hg (Hr & o & m & Ho & Hne). split; [by rewrite (grows_routed _ _ Hg)|]. exists o, m. rewrite (grows_agent_name _ _ _ _ Hg).
  split; [|done]. by eapply lookup_weaken, grows_exposed.
Qed.

Lemma vouched_grows c1 c2 c3 s t : grows c2 c3 -> vouched c1 c2 s t -> vouched c1 c3 s t.
Proof.
  intros Hg (name & Hn & Hb & He & Hx). exists name. split; [done|]. split; [done|]. split.
  - unfold expected in *. rewrite (grows_lock _ _ Hg), (grows_server_name _ _ _ Hg). destruct (lock c2); [done|]. by eapply lookup_weaken, grows_baseline.
  - intros Hr. destruct (Hx Hr) as [n Hx']. exists n. by eapply lookup_weaken, grows_exposed.
Qed.

Lemma vouched_earlier c1 c2 c3 s t : grows c1 c2 -> vouched c2 c3 s t -> vouched c1 c3 s t.
Proof.
  intros Hg (name & Hn & Hb & He & Hx). exists name. split; [done|]. split; [intros H; by apply Hb, (grows_blocked _ _ Hg)|]. split; [done|].
  by rewrite <- (grows_routed _ _ Hg), <- (grows_agent_name _ _ _ _ Hg).
Qed.

Lemma observe_all_spec server tools c visible drifts clashes c' : observe_all server tools c = (visible, drifts, clashes, c') ->
  grows c c' /\ (catalog_ok c -> server < length (servers c) -> catalog_ok c') /\
  (clashes = [] -> routed c = true -> forall tool name, tool ∈ tools -> tool_name tool = Some name ->
     exists n, exposed c' !! agent_name c server name = Some (server, n)) /\
  (forall tool name, tool ∈ tools -> tool_name tool = Some name -> unexpected c server name (tool_hash tool) ->
     ~ clashes_with c' server name -> (server, name) ∈ blocked c') /\
  (exists shown, shown `sublist_of` tools /\ visible = map (shown_as c server) shown /\ Forall (vouched c c' server) shown).
Proof.
  revert c visible drifts clashes c'. induction tools as [|tool tools IH]; intros c visible drifts clashes c'; cbn [observe_all].
  { intros [= <- <- <- <-]. split_and!; [done..| | |by exists []]; intros; by match goal with H : _ ∈ [] |- _ => apply elem_of_nil in H end. }
  destruct (observe_tool server tool c) as [seen c1] eqn:Ht. apply observe_tool_spec in Ht as (Hg & Hok & Hexp & Hbl & Hsh).
  destruct (observe_all server tools c1) as [[[vis1 dr1] cl1] c2] eqn:Hr. apply IH in Hr as (Hg2 & Hok2 & Hexp2 & Hbl2 & shown & Hsub & -> & Hv).
  assert (Hmap : map (shown_as c1 server) shown = map (shown_as c server) shown).
  { apply map_ext. intros t. unfold shown_as. destruct (tool_name t); [|done]. by rewrite (grows_agent_name _ _ _ _ Hg). }
  assert (Hv1 : Forall (vouched c c2 server) shown) by (eapply Forall_impl; [exact Hv|]; intros t; by apply vouched_earlier).
  assert (Hall : grows c c2 /\ (catalog_ok c -> server < length (servers c) -> catalog_ok c2) /\
    (forall t name, t ∈ tool :: tools -> tool_name t = Some name -> unexpected c server name (tool_hash t) ->
       ~ clashes_with c2 server name -> (server, name) ∈ blocked c2)).
  { split; [by etrans|]. split; [intros H1 H2; apply Hok2; [by apply Hok|by rewrite (grows_servers _ _ Hg)]|].
    intros t name [->|Hin]%elem_of_cons Hn Hu Hc.
    - apply (grows_blocked _ _ Hg2), Hbl; [done..|]. intros Hc'. apply Hc. eapply clashes_grows; [|done]. by etrans.
    - apply (Hbl2 t); [done..|by eapply unexpected_grows|done]. }
  destruct Hall as (Hg3 & Hok3 & Hbl3).
  assert (Hexp3 : (forall a, seen <> Clash a) -> cl1 = [] -> routed c = true -> forall t name, t ∈ tool :: tools -> tool_name t = Some name ->
     exists n, exposed c2 !! agent_name c server name = Some (server, n)).
  { intros Hs Hcl Hro t name [->|Hin]%elem_of_cons Hn.
    - destruct (Hexp name Hn Hs Hro) as [n Hx]. exists n. by eapply lookup_weaken, grows_exposed.
    - rewrite <- (grows_agent_name _ _ _ _ Hg). apply (Hexp2 Hcl) with t; [by rewrite (grows_routed _ _ Hg)|done..]. }
  destruct seen as [|n| |d|t]; intros [= <- <- <- <-]; (split; [done|]; split; [done|]; split; [try (by apply Hexp3)|split; [done|]]); try done;
    try (exists shown; split; [by apply sublist_cons|split; [exact Hmap|exact Hv1]]).
  exists (tool :: shown). destruct (Hsh t eq_refl) as [-> Hvt]. split; [by apply sublist_skip|]. cbn [map]. rewrite Hmap. split; [done|].
  constructor; [exact (vouched_grows _ _ _ _ _ Hg2 Hvt)|exact Hv1].
Qed.

(** ** Start *)

Lemma check_names_spec listing seen : check_names listing seen = Ok tt ->
  Forall (fun s => check_server_name (st_name s) = Ok tt /\ st_name s ∉ seen) listing /\ NoDup (map st_name listing).
Proof.
  revert seen. induction listing as [|s listing IH]; intros seen; cbn [check_names map]; [by split; constructor|].
  destruct (check_server_name (st_name s)) as [[]|] eqn:Hc; [|done]. cbn [map_err]. case_decide as Hs; [done|]. intros [Hf Hd]%IH.
  rewrite Forall_forall in Hf. split.
  - constructor; [done|]. apply Forall_forall. intros x Hx. destruct (Hf x Hx) as [? ?]. set_solver.
  - constructor; [|done]. intros (x & Hn & Hx)%list_elem_of_fmap. destruct (Hf x Hx). set_solver.
Qed.

Lemma observe_servers_spec i listing c c' drifts : observe_servers i listing c = Ok (c', drifts) ->
  grows c c' /\ (catalog_ok c -> i + length listing <= length (servers c) -> catalog_ok c') /\
  (routed c = true -> forall j s tool name, listing !! j = Some s -> tool ∈ st_tools s -> tool_name tool = Some name ->
     exists n, exposed c' !! agent_name c (i + j) name = Some (i + j, n)).
Proof.
  revert i c c' drifts. induction listing as [|s listing IH]; intros i c c' drifts; cbn [observe_servers].
  { intros [= <- <-]. by split_and!. }
  destruct (observe_all i (st_tools s) c) as [[[vis found] clashes] c1] eqn:Ho. apply observe_all_spec in Ho as (Hg & Hok & Hexp & _).
  destruct clashes; [|done]. destruct (observe_servers (S i) listing c1) as [[c2 ds]|] eqn:Hr; [|done]. intros [= <- <-].
  apply IH in Hr as (Hg2 & Hok2 & Hexp2). split; [by etrans|]. split.
  - intros Hk Hl. cbn [length] in Hl. apply Hok2; [apply Hok; [done|lia]|rewrite (grows_servers _ _ Hg); lia].
  - intros Hro [|j] s' tool name Hj Hin Hn; cbn in Hj.
    + injection Hj as <-. rewrite Nat.add_0_r. destruct (Hexp eq_refl Hro tool name Hin Hn) as [n Hx]. exists n. by eapply lookup_weaken, grows_exposed.
    + rewrite <- (grows_agent_name _ _ _ _ Hg). replace (i + S j) with (S i + j) by lia. apply (Hexp2) with s' tool; [by rewrite (grows_routed _ _ Hg)|done..].
Qed.
End CatalogLemmas.

(** ** Collisions, exactly *)

Definition lists (s : ServerTools) (tool : string) : Prop := tool ∈ omap tool_name (st_tools s).
Definition owners_of (owners : btree (list nat)) (tool : string) : list nat := default [] (BTree.get tool owners).

Lemma add_owners_spec i names owners : BTree.wf owners -> let owners' := fold_left (add_owner i) names owners in
  BTree.wf owners' /\ (forall t, NoDup (owners_of owners t) -> NoDup (owners_of owners' t)) /\
  (forall t j, j ∈ owners_of owners' t <-> j ∈ owners_of owners t \/ j = i /\ t ∈ names).
Proof.
  cbv zeta. revert owners. induction names as [|n names IH]; intros owners Hw; cbn [fold_left].
  { split_and!; [done..|]. intros t j. set_solver. }
  destruct (IH (add_owner i owners n)) as (H1 & H2 & H3); [by apply BTree.wf_insert|].
  assert (Hget : forall t, owners_of (add_owner i owners n) t = if decide (t = n)
    then (if decide (i ∈ owners_of owners n) then owners_of owners n else owners_of owners n ++ [i]) else owners_of owners t).
  { intros t. unfold owners_of at 1, add_owner. rewrite BTree.get_insert by done. by case_decide. }
  split; [done|]. split.
  - intros t Ht. apply H2. rewrite Hget. destruct (decide (t = n)) as [->|]; [|done]. case_decide; [done|].
    apply NoDup_app. split_and!; [done|set_solver|apply NoDup_singleton].
  - intros t j. rewrite H3, Hget. destruct (decide (t = n)) as [->|]; [case_decide|]; set_solver.
Qed.

Lemma owners_from_spec i listing owners : BTree.wf owners -> let owners' := owners_from i listing owners in
  BTree.wf owners' /\ (forall t, NoDup (owners_of owners t) -> NoDup (owners_of owners' t)) /\
  (forall t j, j ∈ owners_of owners' t <-> j ∈ owners_of owners t \/ exists k s, listing !! k = Some s /\ j = i + k /\ lists s t).
Proof.
  cbv zeta. revert i owners. induction listing as [|s listing IH]; intros i owners Hw; cbn [owners_from].
  { split_and!; [done..|]. intros t j. split; [by left|]. intros [|(k & s & Hk & _)]; [done|by destruct k]. }
  destruct (add_owners_spec i (omap tool_name (st_tools s)) owners Hw) as (H1 & H2 & H3).
  destruct (IH (S i) _ H1) as (H4 & H5 & H6). split; [done|]. split; [intros t Ht; by apply H5, H2|].
  intros t j. rewrite H6, H3. split.
  - intros [[|[-> ?]]|(k & s' & ? & -> & ?)]; [by left|right; exists 0, s; rewrite Nat.add_0_r; done|right; exists (S k), s'; split_and!; [done|lia|done]].
  - intros [|([|k] & s' & Hk & -> & ?)]; [by left; left| |].
    + left. right. injection Hk as <-. by rewrite Nat.add_0_r.
    + right. exists k, s'. split_and!; [done|lia|done].
Qed.

(** Two servers list the tool; it is declared under a server's name. *)
Definition served_twice (listing : list ServerTools) (tool : string) : Prop :=
  exists i j s s', i <> j /\ listing !! i = Some s /\ listing !! j = Some s' /\ lists s tool /\ lists s' tool.
Definition declared_per_server (listing : list ServerTools) (declares : string -> bool) (tool : string) : Prop :=
  exists s, s ∈ listing /\ lists s tool /\ declares (per_server (st_name s) tool) = true.

#[export] Instance lists_dec s tool : base.Decision (lists s tool).
Proof. unfold lists. apply _. Defined.
#[export] Instance declared_dec listing declares tool : base.Decision (declared_per_server listing declares tool).
Proof.
  destruct (decide (Exists (fun s => lists s tool /\ declares (per_server (st_name s) tool) = true) listing)) as [H|H];
    rewrite Exists_exists in H; [left|right]; exact H.
Defined.

Lemma two_elements {A} (l : list A) : NoDup l -> 1 < length l <-> exists x y, x <> y /\ x ∈ l /\ y ∈ l.
Proof.
  intros Hd. split.
  - destruct l as [|x [|y l]]; cbn; try lia. intros _. exists x, y. apply NoDup_cons in Hd as [Hx _]. set_solver.
  - intros (x & y & Hne & Hx & Hy). destruct l as [|a [|b l]]; cbn; [by apply elem_of_nil in Hx| |lia].
    apply list_elem_of_singleton in Hx, Hy. congruence.
Qed.

Section Collisions.
Variables (listing : list ServerTools) (declares : string -> bool).
Let owners := owners_from 0 listing [].
Let twice (o : list nat) (tool : string) : bool := existsb declares (map (fun i => per_server (server_at listing i) tool) o).

Lemma owners_listed tool o : (tool, o) ∈ owners -> NoDup o /\ forall j, j ∈ o <-> exists s, listing !! j = Some s /\ lists s tool.
Proof.
  destruct (owners_from_spec 0 listing [] BTree.wf_nil) as (Hw & Hd & He). intros Hin%BTree.elem_get; [|done].
  specialize (Hd tool (NoDup_nil_2)). specialize (He tool). unfold owners_of in Hd, He. fold owners in Hd, He. rewrite Hin in Hd, He. cbn in Hd, He.
  split; [done|]. intros j. rewrite He. split.
  - intros [H%elem_of_nil|(k & s & Hk & -> & Hs)]; [done|]. by exists s.
  - intros (s & Hk & Hs). right. by exists j, s.
Qed.

Lemma owners_twice tool o : (tool, o) ∈ owners -> 1 < length o <-> served_twice listing tool.
Proof.
  intros [Hd He]%owners_listed. rewrite two_elements by done. unfold served_twice. setoid_rewrite He. naive_solver.
Qed.
Lemma owners_declared tool o : (tool, o) ∈ owners -> twice o tool = true <-> declared_per_server listing declares tool.
Proof.
  intros [Hd He]%owners_listed. unfold twice, declared_per_server. rewrite existsb_exists. split.
  - intros (n & (i & <- & (s & Hi & Hs)%list_elem_of_In%He)%in_map_iff & Hn). exists s. unfold server_at in Hn. rewrite Hi in Hn.
    split_and!; [by eapply list_elem_of_lookup_2|done..].
  - intros (s & [i Hi]%list_elem_of_lookup & Hs & Hn). exists (per_server (st_name s) tool). split; [|done]. apply in_map_iff. exists i.
    unfold server_at. rewrite Hi. split; [done|]. apply list_elem_of_In, He. by exists s.
Qed.
Lemma owners_complete tool : served_twice listing tool -> exists o, (tool, o) ∈ owners.
Proof.
  intros (i & _ & s & _ & _ & Hi & _ & Hs & _). destruct (owners_from_spec 0 listing [] BTree.wf_nil) as (_ & _ & He).
  assert (Hin : i ∈ owners_of owners tool) by (apply He; right; by exists i, s). unfold owners_of in Hin.
  destruct (BTree.get tool owners) as [o|] eqn:Ho; [|by apply elem_of_nil in Hin]. exists o. by apply BTree.get_Some_elem.
Qed.

Lemma owned_cons (P : list nat -> string -> Prop) t o l t' :
  (exists o', (t', o') ∈ (t, o) :: l /\ P o' t') <-> (t' = t /\ P o t) \/ exists o', (t', o') ∈ l /\ P o' t'.
Proof.
  split.
  - intros (o' & [[= -> ->]|H]%elem_of_cons & HP); [by left|right; by exists o'].
  - intros [[-> HP]|(o' & H & HP)]; [exists o; split; [left|done]|exists o'; split; [by right|done]].
Qed.

Lemma collide_spec l ns rf t :
  (t ∈ (fold_left (collide listing declares) l (ns, rf)).1 <->
   t ∈ ns \/ exists o, (t, o) ∈ l /\ 1 < length o /\ twice o t = true) /\
  (t ∈ map col_tool (fold_left (collide listing declares) l (ns, rf)).2 <->
   t ∈ map col_tool rf \/ exists o, (t, o) ∈ l /\ 1 < length o /\ twice o t = false).
Proof.
  revert ns rf. induction l as [|[t1 o1] l IH]; intros ns rf; cbn [fold_left].
  { split; (split; [by left|]); (intros [|(o & H & _)]; [done|by apply elem_of_nil in H]). }
  rewrite !(owned_cons (fun o t => 1 < length o /\ twice o t = _)). unfold collide at 2 4. fold (twice o1 t1).
  destruct (Nat.ltb_spec 1 (length o1)) as [Hl|Hl]; [destruct (twice o1 t1) eqn:Ht|]; rewrite (proj1 (IH _ _)), (proj2 (IH _ _)).
  - rewrite elem_of_union, elem_of_singleton. intuition congruence.
  - rewrite map_app, elem_of_app. cbn [map col_tool]. rewrite list_elem_of_singleton. intuition congruence.
  - intuition lia.
Qed.

(** A name is served per server exactly when two servers list it and the
    manifest declares it so for one of them, and refused exactly when two
    list it and the manifest declares it for none. *)
Theorem collisions_exactly (tool : string) :
  (tool ∈ (collisions listing declares).1 <-> served_twice listing tool /\ declared_per_server listing declares tool) /\
  (tool ∈ map col_tool (collisions listing declares).2 <-> served_twice listing tool /\ ~ declared_per_server listing declares tool).
Proof.
  destruct (collide_spec owners ∅ [] tool) as [H1 H2]. change (fold_left (collide listing declares) owners (∅, [])) with (collisions listing declares) in H1, H2.
  rewrite H1, H2. split; split.
  - intros [[]%elem_of_empty|(o & Ho & Hl & Ht)]. by rewrite (owners_twice _ _ Ho) in Hl; rewrite (owners_declared _ _ Ho) in Ht.
  - intros [Hs Hd]. right. destruct (owners_complete _ Hs) as [o Ho]. exists o. by rewrite (owners_twice _ _ Ho), (owners_declared _ _ Ho).
  - intros [[]%elem_of_nil|(o & Ho & Hl & Ht)]. rewrite (owners_twice _ _ Ho) in Hl. split; [done|]. by rewrite <- (owners_declared _ _ Ho), Ht.
  - intros [Hs Hd]. right. destruct (owners_complete _ Hs) as [o Ho]. exists o. rewrite (owners_twice _ _ Ho).
    split_and!; [done..|]. apply not_true_iff_false. by rewrite (owners_declared _ _ Ho).
Qed.
End Collisions.

(** A catalog that starts keeps one server's tool under each name. *)
Lemma start_catalog_ok {HC : HashCrates} {JC : JsonCrates} listing l declares c drifts : routed_catalog listing l declares = Ok (c, drifts) ->
  routed c = true /\ catalog_ok c /\ servers c = map st_name listing.
Proof.
  unfold routed_catalog. destruct listing as [|s0 listing0]; [done|]. destruct (check_names _ _); [|done].
  destruct (collisions _ declares) as [ns [|]]; [|done]. intros (Hg & Hok & _)%observe_servers_spec.
  rewrite (grows_routed _ _ Hg), (grows_servers _ _ Hg). split; [done|]. split; [|done]. apply Hok; [done|]. cbn [servers]. by rewrite length_map.
Qed.

(** ** Properties *)

(** C34: a catalog that starts serves every tool its servers list, each under one
    server: a listed tool's agent name is routed to the server that lists
    it; names are changed exactly where two servers list the tool and the
    manifest declares it per server; and no two servers share a name. *)
Theorem start_serves_every_tool {HC : HashCrates} {JC : JsonCrates} (listing : list ServerTools) (l : option ToolsLock)
    (declares : string -> bool) (c : Catalog) (drifts : list Drift) (started : routed_catalog listing l declares = Ok (c, drifts)) :
  servers c = map st_name listing /\ NoDup (servers c) /\ routed c = true /\ lock c = l /\ catalog_ok c /\
  (forall tool, tool ∈ namespaced c <-> served_twice listing tool) /\
  (forall tool, served_twice listing tool -> declared_per_server listing declares tool) /\
  (forall i s tool name, listing !! i = Some s -> tool ∈ st_tools s -> tool_name tool = Some name ->
     exists n, route c (agent_name c i name) = Some (i, n) /\ agent_name c i n = agent_name c i name).
Proof.
  revert started. unfold routed_catalog. destruct listing as [|s0 listing0]; [done|]. set (listing := s0 :: listing0).
  destruct (check_names listing ∅) as [[]|] eqn:Hn; [|done]. apply check_names_spec in Hn as [_ Hn].
  pose proof (collisions_exactly listing declares) as Hcol. destruct (collisions listing declares) as [ns [|]]; [|done]. cbn [fst snd map] in Hcol.
  intros (Hg & Hok & Hexp)%observe_servers_spec. specialize (Hok ltac:(done)). cbn [servers] in Hok. rewrite length_map in Hok. specialize (Hok (le_n _)).
  specialize (Hexp eq_refl). rewrite (grows_servers _ _ Hg), (grows_routed _ _ Hg), (grows_lock _ _ Hg), (grows_namespaced _ _ Hg).
  assert (Hd : forall tool, served_twice listing tool -> declared_per_server listing declares tool).
  { intros tool Hs.
    destruct (decide (declared_per_server listing declares tool)) as [|Hnd]; [done|]. destruct (proj2 (Hcol tool)) as [_ Hc]. exfalso. by apply elem_of_nil in Hc. }
  split_and!; [done..| |done|].
  - intros tool. cbn [namespaced]. rewrite (proj1 (Hcol tool)). split; [by intros [? _]|]. intros Hs. split; [done|by apply Hd].
  - intros i s tool name Hi Hin Hname. destruct (Hexp i s tool name Hi Hin Hname) as [n Hx]. exists n. unfold route. rewrite (grows_routed _ _ Hg).
    rewrite (grows_agent_name _ _ _ name Hg). split; [exact Hx|]. by destruct (Hok _ _ _ Hx).
Qed.

(** What an agent sees of a listing: a subsequence of it under the agent's
    names, each definition the one pinned (or first seen), routed back to
    this server and never blocked before; a definition known to differ is
    blocked, unless another server serves its name; and the catalog only
    learns. *)
Lemma observe_spec {HC : HashCrates} {JC : JsonCrates} (server : nat) (tools visible : list value) (drifts : list Drift)
    (c c' : Catalog) (observed : observe server tools c = (visible, drifts, c')) :
  grows c c' /\
  (exists shown, shown `sublist_of` tools /\ visible = map (shown_as c server) shown /\ Forall (vouched c c' server) shown) /\
  (forall tool name, tool ∈ tools -> tool_name tool = Some name -> unexpected c server name (tool_hash tool) ->
     ~ clashes_with c' server name -> (server, name) ∈ blocked c').
Proof.
  unfold observe in observed. destruct (observe_all server tools c) as [[[v d] cl] c1] eqn:Ho. injection observed as <- <- <-.
  apply observe_all_spec in Ho as (Hg & _ & _ & Hb & Hs). by split_and!.
Qed.

Section Witnesses.
Import Toy.

(** One server lists [t] and [a__t], another [t], and the manifest declares
    [a__t]: the agent sees two tools of one name, and calls to either go to
    [t]. *)
Definition named (name : string) : value := VObject [("name", VString name)].
Definition two_servers : list ServerTools :=
  [mkServerTools "a" VNull [named "t"; named "a__t"]; mkServerTools "b" VNull [named "t"]].

Example two_tools_one_name :
  match routed_catalog two_servers None (fun n => bool_decide (n = "a__t")) with
  | Ok (c, drifts) => drifts = [] /\ (observe 0 [named "t"; named "a__t"] c).1.1 = [named "a__t"; named "a__t"] /\ route c "a__t" = Some (0, "t")
  | Err _ => False
  end.
Proof. vm_compute. by split_and!. Qed.

Lemma start_serves_every_tool_witness :
  exists c, NoDup (servers c) /\ exists n, route c (agent_name c 1 "t") = Some (1, n).
Proof.
  assert (H : exists r, routed_catalog two_servers None (fun n => bool_decide (n = "a__t")) = Ok r) by (eexists; vm_compute; reflexivity).
  destruct H as [[c drifts] H]. destruct (start_serves_every_tool _ _ _ _ _ H) as (_ & Hd & _ & _ & _ & _ & _ & Hr).
  exists c. split; [exact Hd|]. destruct (Hr 1 (mkServerTools "b" VNull [named "t"]) (named "t") "t") as (n & Hn & _); [reflexivity|left|reflexivity|].
  exists n. exact Hn.
Defined.
End Witnesses.
