(* ===== verification/Proxy.v ===== *)
(** * The interceptor ([cloakpipe-mcp/src/proxy.rs])

    The message filter around the gate, over one upstream ([Router] puts it
    in front of several) and without the opt-in PII transform: screening,
    request-id bookkeeping, the decision of a [tools/call] with its ledger
    entry, the coordination of side effects with the operations store, the
    settling of replies, drift of listed tools, and the exit sweep.

    A handler is one step on the interceptor's state; [Env] is what the world
    answers during it (clocks, whether the ledger and the operations database
    take a write, whether the exit sweep begins meanwhile, what the broker
    says).  Events,
    tracing and poisoned locks are left out.  A JSON-RPC id is known by its
    text. *)

From S2P Require Import Prelude BTree Json Crates Concrete Reference Action Constraint Rules Contract Manifest.
From S2P Require Import Operations Counters Policy Approval Gate Ledger CanonicalJson Decisions ToolsLock.
From S2P Require Catalog.

(** ** Messages *)

Definition TOOL_REFUSED : Z := -32001.
Definition RECONCILE_REQUIRED : Z := -32002.
Definition UPSTREAM_UNAVAILABLE : Z := -32003.
Definition APPROVAL_REQUESTED_HINT : string := "approval requested; retry the same call after approval".
Definition APPROVAL_DENIED_HINT : string := "an approver denied this exact call; it will not be approved".
Definition FAIL_CLOSED : string := "fail_closed".
Abbreviation DEFAULT_SERVER := Catalog.DEFAULT_SERVER.

Inductive Action :=
| ToAgent (message : string)
| ToUpstream (server message : string).

(** [serde_json::json!] of an object; a negative or positive integer. *)
Definition json_obj (l : list (string * value)) : value := VObject (BTree.of_list l).
Definition json_int (n : Z) : value := VNumber (if (n <? 0)%Z then NegInt n else PosInt n).

(** [Value]'s [Display] and [from_str::<Value>]. *)
Definition to_text `{SerdeText} (v : value) : string := from_bytes (serde_text v).
Definition from_str `{JsonCrates} (s : string) : option value := json_from_slice (as_bytes s).

(** [msg.pointer("/params/<name>")] and [msg.pointer("/result/<name>")]: no
    array index is spelled like these. *)
Definition pointer (outer name : string) (msg : value) : option value :=
  let! v := vget outer msg else None in vget name v.

Definition method_is (m : string) (msg : value) : bool :=
  bool_decide ((let! v := vget "method" msg else None in as_str v) = Some m).

(** [id.filter(|id| !id.is_null())] *)
Definition non_null (id : option value) : option value :=
  match id with Some VNull => None | id => id end.

(** ** Screening *)

Definition CANONICAL_KEYS : list string := ["jsonrpc"; "id"; "method"; "params"; "result"; "error"].
Definition CANONICAL_PARAMS : list string := ["name"; "arguments"].

(** [fold]: U+017F and U+212A as the letters they fold to, then lower case.
    Other non-ASCII characters stay non-ASCII, so they are left alone: the
    result is only compared with ASCII names. *)
Fixpoint fold_bytes (b : bytes) : bytes :=
  match b with
  | [] => []
  | c :: b1 =>
      match b1 with
      | d :: b2 =>
          if decide (c = ascii_of_N 197 /\ d = ascii_of_N 191) then "s"%char :: fold_bytes b2
          else
            match b2 with
            | e :: b3 =>
                if decide (c = ascii_of_N 226 /\ d = ascii_of_N 132 /\ e = ascii_of_N 170)
                then "k"%char :: fold_bytes b3 else c :: fold_bytes b1
            | [] => c :: fold_bytes b1
            end
      | [] => [c]
      end
  end.
Definition fold (s : string) : string := to_ascii_lowercase (from_bytes (fold_bytes (as_bytes s))).

Definition noncanonical (m : btree value) (canonical : list string) : bool :=
  existsb (fun k => existsb (fun c => bool_decide (fold k = c) && negb (bool_decide (k = c))) canonical) (BTree.keys m).

(** [screen]: the refusal's reason and JSON-RPC code. *)
Definition screen `{JsonCrates} (line : string) : result (string * Z) unit :=
  let! msg := from_str line else Err ("unreadable", -32700)%Z in
  match msg with
  | VObject obj =>
      if noncanonical obj CANONICAL_KEYS then Err ("noncanonical", -32600)%Z
      else
        match BTree.get "params" obj with
        | Some (VObject params) =>
            if noncanonical params CANONICAL_PARAMS then Err ("noncanonical", -32600)%Z else Ok tt
        | _ => Ok tt
        end
  | VArray _ => Err ("batch", -32600)%Z
  | _ => Err ("not_an_object", -32600)%Z
  end.

(** [identifier] *)
Definition identifier (tool : string) : bool :=
  negb (str_is_empty tool) && (Z.of_nat (String.length tool) <=? 128)%Z &&
  str_all (fun b => is_ascii_alphanumeric b || bool_decide (b ∈ as_bytes "_-.:/@")) tool.

(** ** State *)

(** A side-effecting call forwarded and not yet answered. *)
Record InFlightCall := mkInFlight {
  if_operation : string;
  if_tool : string;
  if_fingerprint : bytes;
}.

Record PendingOps := mkPendingOps {
  by_request : gmap string InFlightCall;
  outstanding : gmap string nat;
  closed : bool;
}.

(** What every entry of one gate run shares. *)
Record EntryBase := mkEntryBase {
  base_release : string;
  base_release_name : string;
  base_policy_digest : option string;
  base_mode : Decisions.Mode;
  base_task_id : option string;
  base_tools_lock : option string;
}.

Inductive RequestStatus := Requested | RequestPending | RequestDenied.
Definition status_str (s : RequestStatus) : string :=
  match s with Requested => "requested" | RequestPending => "pending" | RequestDenied => "denied" end.

(** Whether the operations database takes a write or answers a read. *)
Record StoreAnswers := mkStoreAnswers {
  begins_commit : bool;               (* the start of an operation is recorded *)
  settles_commit : string -> bool;    (* so is the settlement of this request's operation *)
  row_reads : string -> bool;         (* and its row can be read *)
}.
Definition healthy : StoreAnswers := mkStoreAnswers true (fun _ => true) (fun _ => true).

(** What the world answers while one message is handled. *)
Record Env := mkEnv {
  now : string;              (* the gate's clock, RFC 3339 *)
  stamp : string;            (* the operations store's clock *)
  clock : Z;                 (* the ledger's clock *)
  writable : bool;           (* the ledger database takes the entry *)
  closing : bool;            (* the exit sweep begins while a call is coordinated *)
  filed : RequestStatus;     (* what the broker answers a request for approval *)
  store : StoreAnswers;      (* the operations database *)
}.

Inductive Coordinated :=
| CForward
| CReplay (result : value)
| CDeny (d : Gate.Denial).

Section Proxy.
Context {RC : RegexCrate} {HC : HashCrates} {JC : JsonCrates} {UC : UnicodeCrate} {SC : SignatureCrates}
        {TC : TimeCrate} {CC : CedarCrate} {ST : SerdeText} {TX : StoreText} {CK : ClockCrate}.
Variable read_envelope : bytes -> option Envelope.

(** [Interceptor], with the operations database it shares with operators,
    its own handle on it, and the open decision ledger. *)
Record Interceptor := mkInterceptor {
  gate : option Gate.ToolGate;
  base : option EntryBase;
  operations : option db;
  handle : nat;
  decision_log : option (LedgerStore * SigningKey);
  pending : PendingOps;
  catalog : Catalog.Catalog;
  list_requests : gset string;
}.

Definition set_gate (g : option Gate.ToolGate) (w : Interceptor) : Interceptor :=
  mkInterceptor g (base w) (operations w) (handle w) (decision_log w) (pending w) (catalog w) (list_requests w).
Definition set_operations (d : option db) (w : Interceptor) : Interceptor :=
  mkInterceptor (gate w) (base w) d (handle w) (decision_log w) (pending w) (catalog w) (list_requests w).
Definition set_log (l : option (LedgerStore * SigningKey)) (w : Interceptor) : Interceptor :=
  mkInterceptor (gate w) (base w) (operations w) (handle w) l (pending w) (catalog w) (list_requests w).
Definition set_pending (p : PendingOps) (w : Interceptor) : Interceptor :=
  mkInterceptor (gate w) (base w) (operations w) (handle w) (decision_log w) p (catalog w) (list_requests w).
Definition set_catalog (c : Catalog.Catalog) (w : Interceptor) : Interceptor :=
  mkInterceptor (gate w) (base w) (operations w) (handle w) (decision_log w) (pending w) c (list_requests w).
Definition set_list_requests (l : gset string) (w : Interceptor) : Interceptor :=
  mkInterceptor (gate w) (base w) (operations w) (handle w) (decision_log w) (pending w) (catalog w) l.

(** ** Entries *)

(** [EntryBase::of], [call] and [outcome]. *)
Definition base_of (g : Gate.ToolGate) : EntryBase :=
  mkEntryBase (Gate.release g) (Gate.release_name g) (Gate.policy_digest g)
    (match Gate.mode g with Gate.Enforce => Decisions.Enforce | Gate.Shadow => Decisions.Shadow end)
    (Gate.task_id g) None.
Definition with_lock (digest : option string) (b : EntryBase) : EntryBase :=
  mkEntryBase (base_release b) (base_release_name b) (base_policy_digest b) (base_mode b) (base_task_id b) digest.

Definition base_call (b : EntryBase) (tool : option string) : DecisionDraft :=
  {| d_ts := None; d_event := Call; d_release := Some (base_release b); d_tool := tool; d_args_fingerprint := None;
     d_decision := Decisions.Allow; d_reason := "ok"; d_path := None; d_policy_version := None;
     d_policy_digest := base_policy_digest b; d_mode := Some (base_mode b); d_task_id := base_task_id b;
     d_operation_id := None; d_approval := None; d_outcome := None; d_forwarded := false;
     d_tools_lock := base_tools_lock b |}.

Definition base_outcome (b : EntryBase) (op : InFlightCall) (o : Outcome) : DecisionDraft :=
  {| d_ts := None; d_event := OutcomeEvent; d_release := Some (base_release b);
     d_tool := if str_is_empty (if_tool op) then None else Some (if_tool op); d_args_fingerprint := None;
     d_decision := Decisions.Allow; d_reason := "ok"; d_path := None; d_policy_version := None;
     d_policy_digest := base_policy_digest b; d_mode := Some (base_mode b); d_task_id := base_task_id b;
     d_operation_id := Some (if_operation op); d_approval := None; d_outcome := Some o; d_forwarded := true;
     d_tools_lock := base_tools_lock b |}.

(** A draft with some of its members set. *)
Definition set_verdict (decision : Decision) (reason : string) (path operation_id : option string) (d : DecisionDraft) :
    DecisionDraft :=
  mkDecisionDraft (d_ts d) (d_event d) (d_release d) (d_tool d) (d_args_fingerprint d) decision reason path
    (d_policy_version d) (d_policy_digest d) (d_mode d) (d_task_id d) operation_id (d_approval d) (d_outcome d)
    (d_forwarded d) (d_tools_lock d).
Definition set_grounds (approval operation_id : option string) (d : DecisionDraft) : DecisionDraft :=
  mkDecisionDraft (d_ts d) (d_event d) (d_release d) (d_tool d) (d_args_fingerprint d) (d_decision d) (d_reason d)
    (d_path d) (d_policy_version d) (d_policy_digest d) (d_mode d) (d_task_id d) operation_id approval (d_outcome d)
    (d_forwarded d) (d_tools_lock d).
Definition set_effect (event : Event) (outcome : option Outcome) (forwarded : bool) (d : DecisionDraft) : DecisionDraft :=
  mkDecisionDraft (d_ts d) event (d_release d) (d_tool d) (d_args_fingerprint d) (d_decision d) (d_reason d)
    (d_path d) (d_policy_version d) (d_policy_digest d) (d_mode d) (d_task_id d) (d_operation_id d) (d_approval d)
    outcome forwarded (d_tools_lock d).
Definition set_fingerprint (fp : option string) (d : DecisionDraft) : DecisionDraft :=
  mkDecisionDraft (d_ts d) (d_event d) (d_release d) (d_tool d) fp (d_decision d) (d_reason d)
    (d_path d) (d_policy_version d) (d_policy_digest d) (d_mode d) (d_task_id d) (d_operation_id d) (d_approval d)
    (d_outcome d) (d_forwarded d) (d_tools_lock d).

(** [DecisionLog::append]: the entry and the store after it. *)
Definition log_append (env : Env) (draft : DecisionDraft) (raw_fingerprint : option bytes) (st : LedgerStore)
    (key : SigningKey) : result unit (DecisionEntry * LedgerStore) :=
  if negb (writable env) then Err tt
  else
    let draft :=
      match raw_fingerprint with
      | Some fp => set_fingerprint (Some (GateKey.args_fingerprint key fp)) draft
      | None => draft
      end in
    match append_decision (clock env) draft key st with
    | Some (Ok r) => Ok r
    | _ => Err tt
    end.

(** [record_decision] *)
Definition record_decision (env : Env) (draft : DecisionDraft) (raw_fingerprint : option bytes) (w : Interceptor) :
    result unit (option DecisionEntry) * Interceptor :=
  match decision_log w with
  | None => (Ok None, w)
  | Some (st, key) =>
      match log_append env draft raw_fingerprint st key with
      | Ok (e, st) => (Ok (Some e), set_log (Some (st, key)) w)
      | Err e => (Err e, w)
      end
  end.

(** [call_fingerprint], [recordable_tool] *)
Definition call_fingerprint (g : Gate.ToolGate) (tool : string) (arguments : option value) : option bytes :=
  let! rel := hash_parse (Gate.release g) else None in
  Some (fingerprint_bytes (fingerprint rel tool (default VNull arguments))).
Definition declares (g : Gate.ToolGate) (tool : string) : bool := bool_decide (tool ∈ Gate.tools g).
Definition recordable_tool (g : Gate.ToolGate) (tool : string) : option string :=
  if declares g tool || identifier tool then Some tool else None.

(** [refusal_message], with the members added to its [data] afterwards. *)
Definition refusal_message (id : value) (code : string) (tool : string) (g : Gate.ToolGate) (path operation_id : option string)
    (rpc_code : Z) (extra : list (string * value)) : string :=
  let data := [("reason", VString code); ("tool", VString tool); ("release", VString (Gate.release g))]
    ++ match path with Some p => [("path", VString p)] | None => [] end
    ++ match operation_id with Some o => [("operationId", VString o)] | None => [] end
    ++ extra in
  to_text (json_obj [("jsonrpc", VString "2.0"); ("id", id);
    ("error", json_obj [("code", json_int rpc_code);
       ("message", VString ("tool call refused by CloakPipe: " +:+ code)); ("data", json_obj data)])]).

(** [Catalog::refuse] *)
Definition refuse (w : Interceptor) (tool : string) : option Gate.Denial := Catalog.refuse (catalog w) tool.

(** ** Side effects *)

Definition lookup_request (request : string) (w : Interceptor) : option InFlightCall := by_request (pending w) !! request.

(** [UPDATE] through the interceptor's handle: the table after it. *)
Definition with_rows (t : table) (w : Interceptor) : Interceptor :=
  match operations w with Some d => set_operations (Some (mkDb t (lock d))) w | None => w end.

(** [store.settle(id, state, result)] for [request]; an error changes nothing. *)
Definition settle (env : Env) (request id : string) (s : OperationState) (res : option string) (w : Interceptor) :
    result operations_error bool * Interceptor :=
  match operations w with
  | None => (Ok false, w)
  | Some d =>
      match stored (settles_commit (store env) request) (settle_with (stamp env) id s res false (rows d)) with
      | Ok (changed, t) => (Ok changed, with_rows t w)
      | Err e => (Err e, w)
      end
  end.

(** [replayed], without a vault. *)
Definition replayed (stored : option string) (operation_id : string) : option value :=
  let! result :=
    match stored with
    | Some stored => let! v := from_str stored else None in if is_object v then Some v else None
    | None =>
        Some (json_obj [("content", VArray [json_obj [("type", VString "text");
          ("text", VString ("This call already completed (operation " +:+ operation_id
                            +:+ ", reconciled by an operator); it was not run again."))]])])
    end else None in
  let! o := as_object result else None in
  let! meta := as_object (default (VObject []) (BTree.get "_meta" o)) else None in
  let! cloakpipe := as_object (default (VObject []) (BTree.get "cloakpipe" meta)) else None in
  let cloakpipe := BTree.insert "operationId" (VString operation_id) (BTree.insert "replayed" (VBool true) cloakpipe) in
  Some (VObject (BTree.insert "_meta" (VObject (BTree.insert "cloakpipe" (VObject cloakpipe) meta)) o)).

Definition register (request : string) (call : InFlightCall) (w : Interceptor) : Interceptor :=
  let p := pending w in
  set_pending (mkPendingOps (<[request := call]> (by_request p)) (outstanding p) (closed p)) w.
Definition unregister (request : string) (w : Interceptor) : Interceptor :=
  let p := pending w in
  set_pending (mkPendingOps (delete request (by_request p)) (outstanding p) (closed p)) w.
Definition close (w : Interceptor) : Interceptor :=
  let p := pending w in set_pending (mkPendingOps (by_request p) (outstanding p) true) w.

(** [coordinate] *)
Definition coordinate (env : Env) (id : option value) (tool : string) (op : Gate.OperationKey) (w : Interceptor) :
    Coordinated * Interceptor :=
  match operations w with
  | None => (CDeny Gate.OperationsUnavailable, w)
  | Some d =>
      match non_null id with
      | None => (CDeny Gate.RequestIdMissing, w)
      | Some id =>
          let request := to_text id in
          if closed (pending w) then (CDeny Gate.OperationsUnavailable, w)
          else if is_some (lookup_request request w) || is_some (outstanding (pending w) !! request)
          then (CDeny Gate.RequestIdInUse, w)
          else
            let opid := Gate.key_operation op in
            let digest := fingerprint_bytes (Gate.key_fingerprint op) in
            match stored (begins_commit (store env)) (begin (stamp env) opid tool digest (rows d)) with
            | Ok (Forward, t) =>
                let w := with_rows t w in
                if closing env
                then (CDeny Gate.OperationsUnavailable, (settle env request opid Operations.Failed None (close w)).2)
                else (CForward, register request (mkInFlight opid tool digest) w)
            | Ok (Operations.Replay res masked, _) =>
                if masked then (CDeny Gate.OperationsUnavailable, w)
                else
                  match replayed res opid with
                  | Some result => (CReplay result, w)
                  | None => (CDeny Gate.OperationsUnavailable, w)
                  end
            | Ok (Conflict, _) => (CDeny (Gate.OperationConflict opid), w)
            | Ok (ReconcileBeforeRetry _, _) => (CDeny (Gate.ReconcileBeforeRetry opid), w)
            | Err _ => (CDeny Gate.OperationsUnavailable, w)
            end
      end
  end.

(** [unstart] *)
Definition unstart (env : Env) (request : string) (w : Interceptor) : Interceptor :=
  match lookup_request request w with
  | Some call => (settle env request (if_operation call) Operations.Failed None (unregister request w)).2
  | None => w
  end.

(** ** One [tools/call] *)

(** A refusal, and whether it holds in shadow mode too; the operation the
    call is; its approval. *)
Definition judge (env : Env) (g : Gate.ToolGate) (tool : string) (args : option value) (w : Interceptor) :
    option (Gate.Denial * bool) * option Gate.OperationKey * option Gate.ApprovedCall :=
  let upstream := if declares g tool then refuse w tool else None in
  match (match upstream with Some d => Err d | None => Gate.authorize read_envelope g tool args (now env) end) with
  | Ok auth => (None, Gate.auth_operation auth, Gate.auth_approval auth)
  | Err denial =>
      let always := Gate.is_upstream denial in
      match Gate.mode g, always with
      | Gate.Shadow, false =>
          match Gate.operation read_envelope g tool args (now env) with
          | Ok op => (Some (denial, always), op, None)
          | Err d => (Some (d, true), None, None)
          end
      | _, _ => (Some (denial, always), None, None)
      end
  end.

Definition is_shadow (g : Gate.ToolGate) : bool := match Gate.mode g with Gate.Shadow => true | Gate.Enforce => false end.

(** Whether a refusal keeps the call from the tool. *)
Definition stops_call (g : Gate.ToolGate) (refusal : option (Gate.Denial * bool)) : bool :=
  is_some_and refusal (fun da => da.2 || negb (is_shadow g)).

(** [gate.forget_forwarded(counted.take())] *)
Definition uncount (counted : option Z) (w : Interceptor) : Interceptor :=
  match counted, gate w with
  | Some id, Some g => set_gate (Some (Gate.forget_forwarded id g)) w
  | _, _ => w
  end.

(** The call's entry: what the gate decided. *)
Definition call_draft (b : EntryBase) (g : Gate.ToolGate) (tool : string) (refusal : option (Gate.Denial * bool))
    (operation : option Gate.OperationKey) (approval : option Gate.ApprovedCall) (replay : option value)
    : DecisionDraft :=
  let draft := base_call b (recordable_tool g tool) in
  let draft :=
    match refusal with
    | Some (denial, _) =>
        set_verdict (match denial with Gate.ApprovalRequired => Decisions.RequireApproval | _ => Decisions.Deny end)
          (Gate.code denial) (Gate.denial_path denial) (Gate.denial_operation_id denial) draft
    | None => draft
    end in
  let operation_id :=
    match d_operation_id draft with
    | Some id => Some id
    | None =>
        match operation with
        | Some op => Some (Gate.key_operation op)
        | None => Gate.approved_operation <$> approval
        end
    end in
  let draft := set_grounds ((fun a => "sha256:" +:+ hex_lower (Gate.receipt_digest a)) <$> approval) operation_id draft in
  match replay with
  | Some _ => set_effect Decisions.Replay (Some Committed) false draft
  | None => set_effect Call None (negb (stops_call g refusal)) draft
  end.

(** [ToolGate::request_approval] *)
Definition request_approval (env : Env) (g : Gate.ToolGate) (tool : string) (args : option value) : option RequestStatus :=
  let! _ := Gate.broker g else None in
  let! _ := Gate.approval_request g tool args (now env) else None in
  let! _ := BTree.get tool (Gate.rules g) else None in
  let! _ := hash_parse (Gate.release g) else None in
  Some (filed env).

(** What the agent is told about a refusal besides its reason. *)
Definition refusal_extra (env : Env) (g : Gate.ToolGate) (tool : string) (args : option value) (denial : Gate.Denial) :
    list (string * value) :=
  match Gate.denial_policies denial with
  | Some policies => [("policies", VArray (map VString policies))]
  | None => []
  end ++
  match denial with
  | Gate.ApprovalRequired =>
      match Gate.approval_request g tool args (now env) with
      | Some req =>
          [("approvers", VArray (map VString (Gate.req_approvers req))); ("fingerprint", VString (Gate.req_fingerprint req))]
      | None => []
      end ++
      match request_approval env g tool args with
      | Some s =>
          [("approval_request", VString (status_str s));
           ("hint", VString (match s with RequestDenied => APPROVAL_DENIED_HINT | _ => APPROVAL_REQUESTED_HINT end))]
      | None => []
      end
  | Gate.ApprovalDenied =>
      [("approval_request", VString (status_str RequestDenied)); ("hint", VString APPROVAL_DENIED_HINT)]
  | _ => []
  end.

(** An answer is given to a request, not to a notification. *)
Definition answer (id : option value) (reply : value -> string) : list Action :=
  match id with Some id => [ToAgent (reply id)] | None => [] end.

(** The end of a [tools/call]: the decision is recorded, or the call is
    refused and its start undone; then it is answered from the store, refused,
    or goes on. *)
Definition undo (env : Env) (counted : option Z) (started : option string) (w : Interceptor) : Interceptor :=
  let w := uncount counted w in
  match started with Some request => unstart env request w | None => w end.
Definition conclude (env : Env) (g : Gate.ToolGate) (b : EntryBase) (tool : string) (args id : option value)
    (refusal : option (Gate.Denial * bool)) (operation : option Gate.OperationKey) (approval : option Gate.ApprovedCall)
    (replay : option value) (counted : option Z) (started : option string) (w : Interceptor) :
    option (list Action) * Interceptor :=
  match record_decision env (call_draft b g tool refusal operation approval replay) (call_fingerprint g tool args) w with
  | (Err _, w) =>
      (Some (answer id (fun id => refusal_message id FAIL_CLOSED tool g None None TOOL_REFUSED [])),
       undo env counted started w)
  | (Ok _, w) =>
      match replay with
      | Some result =>
          (Some (answer id (fun id => to_text (json_obj [("jsonrpc", VString "2.0"); ("id", id); ("result", result)]))), w)
      | None =>
          match refusal with
          | Some (denial, _) =>
              if stops_call g refusal then
                let rpc_code := match denial with Gate.ReconcileBeforeRetry _ => RECONCILE_REQUIRED | _ => TOOL_REFUSED end in
                (Some (answer id (fun id => refusal_message id (Gate.code denial) tool g (Gate.denial_path denial)
                    (Gate.denial_operation_id denial) rpc_code (refusal_extra env g tool args denial))), w)
              else (None, w)
          | None => (None, w)
          end
      end
  end.

(** A [tools/call] under a gate: the actions that end it here, or [None]
    when it goes on to the upstream. *)
Definition decide_call (env : Env) (g : Gate.ToolGate) (b : EntryBase) (msg : value) (w : Interceptor) :
    option (list Action) * Interceptor :=
  let tool := default "" (let! v := pointer "params" "name" msg else None in as_str v) in
  let args := pointer "params" "arguments" msg in
  let id := vget "id" msg in
  let '(refusal, operation, approval) := judge env g tool args w in
  let forwarding := negb (stops_call g refusal) in
  let '(refusal, forwarding, counted, w) :=
    if forwarding then
      match Gate.record_forwarded tool (now env) g with
      | Ok (counted, g) => (refusal, true, counted, set_gate (Some g) w)
      | Err d => (Some (d, true), false, None, w)
      end
    else (refusal, false, None, w) in
  let '(refusal, replay, started, w) :=
    match operation with
    | Some op =>
        if forwarding then
          match coordinate env id tool op w with
          | (CForward, w) => (refusal, None, to_text <$> id, w)
          | (CReplay result, w) => (refusal, Some result, None, w)
          | (CDeny d, w) => (Some (d, true), None, None, w)
          end
        else (refusal, None, None, w)
    | None => (refusal, None, None, w)
    end in
  let not_forwarded := is_some replay || is_some_and refusal (fun da => da.2) in
  let w := if not_forwarded then uncount counted w else w in
  let counted := if not_forwarded then None else counted in
  conclude env g b tool args id refusal operation approval replay counted started w.

(** ** Messages from the agent *)

(** A message refused before it is read as a call. *)
Definition refuse_message (env : Env) (g : Gate.ToolGate) (b : EntryBase) (id : value) (reason : string) (code : Z)
    (w : Interceptor) : list Action * Interceptor :=
  let '(recorded, w) := record_decision env (set_verdict Decisions.Deny reason None None (base_call b None)) None w in
  let reason := match recorded with Ok _ => reason | Err _ => FAIL_CLOSED end in
  ([ToAgent (to_text (json_obj [("jsonrpc", VString "2.0"); ("id", id);
      ("error", json_obj [("code", json_int code); ("message", VString ("message refused by CloakPipe: " +:+ reason));
         ("data", json_obj [("reason", VString reason); ("release", VString (Gate.release g))])])]))], w).

(** [refuse_ungated] *)
Definition refuse_ungated (id : option value) (tool : string) (d : Gate.Denial) : list Action :=
  answer id (fun id => to_text (json_obj [("jsonrpc", VString "2.0"); ("id", id);
    ("error", json_obj [("code", json_int TOOL_REFUSED);
       ("message", VString ("tool call refused by CloakPipe: " +:+ Gate.code d));
       ("data", json_obj [("reason", VString (Gate.code d)); ("tool", VString tool)])])])).

(** The id of an agent request, as it is spelled; a notification has none. *)
Definition request_id (msg : value) : option string :=
  let! _ := vget "method" msg else None in to_text <$> non_null (vget "id" msg).

(** The gate and what its entries share. *)
Definition gated (w : Interceptor) : option (Gate.ToolGate * EntryBase) :=
  match gate w, base w with Some g, Some b => Some (g, b) | _, _ => None end.

(** An agent request whose id a side-effecting call in flight already uses. *)
Definition id_in_use (msg : value) (w : Interceptor) : bool :=
  is_some (operations w) &&
  is_some_and (request_id msg) (fun request => is_some (lookup_request request w)).

(** Every other forwarded request is outstanding until answered. *)
Definition note_outstanding (msg : value) (w : Interceptor) : Interceptor :=
  match operations w, request_id msg with
  | Some _, Some request =>
      if is_some (lookup_request request w) then w
      else
        let p := pending w in
        set_pending (mkPendingOps (by_request p)
          (<[request := S (default 0 (outstanding p !! request))]> (outstanding p)) (closed p)) w
  | _, _ => w
  end.

(** A [tools/call]: what ends it here. *)
Definition decide_tools_call (env : Env) (msg : value) (w : Interceptor) : option (list Action) * Interceptor :=
  match gated w with
  | Some (g, b) => decide_call env g b msg w
  | None =>
      let tool := default "" (let! v := pointer "params" "name" msg else None in as_str v) in
      match refuse w tool with
      | Some d => (Some (refuse_ungated (vget "id" msg) tool d), w)
      | None => (None, w)
      end
  end.

(** One readable message. *)
Definition decide_message (env : Env) (msg : value) (w : Interceptor) : list Action * Interceptor :=
  match gated w, id_in_use msg w with
  | Some (g, b), true =>
      refuse_message env g b (default VNull (vget "id" msg)) (Gate.code Gate.RequestIdInUse) TOOL_REFUSED w
  | _, _ =>
      let '(done, w) := if method_is "tools/call" msg then decide_tools_call env msg w else (None, w) in
      match done with
      | Some actions => (actions, w)
      | None => ([ToUpstream DEFAULT_SERVER (to_text msg)], note_outstanding msg w)
      end
  end.

(** [decide_agent] *)
Definition decide_agent (env : Env) (line : string) (w : Interceptor) : list Action * Interceptor :=
  match gated w, screen line with
  | Some (g, b), Err (reason, code) => refuse_message env g b VNull reason code w
  | _, _ =>
      match from_str line with
      | Some msg => decide_message env msg w
      | None => ([ToUpstream DEFAULT_SERVER line], w)
      end
  end.

(** [note_list_request] *)
Definition note_list_request (message : string) (w : Interceptor) : Interceptor :=
  if negb (str_contains "tools/list" message) then w
  else
    match from_str message with
    | Some msg =>
        if method_is "tools/list" msg then
          match non_null (vget "id" msg) with
          | Some id => set_list_requests ({[to_text id]} ∪ list_requests w) w
          | None => w
          end
        else w
    | None => w
    end.

(** [on_agent_line] *)
Definition on_agent_line (env : Env) (line : string) (w : Interceptor) : list Action * Interceptor :=
  let '(actions, w) := decide_agent env line w in
  (actions, fold_left (fun w a => match a with ToUpstream _ m => note_list_request m w | ToAgent _ => w end) actions w).

(** ** Messages from the upstream *)

(** A reply leaves the ids still outstanding. *)
Definition take_outstanding (request : string) (w : Interceptor) : Interceptor :=
  let p := pending w in
  match outstanding p !! request with
  | Some n =>
      let left := n - 1 in
      set_pending (mkPendingOps (by_request p)
        (if left =? 0 then delete request (outstanding p) else <[request := left]> (outstanding p)) (closed p)) w
  | None => w
  end.

Definition is_reply (msg : value) : bool :=
  negb (is_some (vget "method" msg)) && (is_some (vget "result" msg) || is_some (vget "error" msg)).

(** The state a reply settles its call in, and the result stored. *)
Definition reply_state (msg : value) : OperationState * option string :=
  match (if is_some (vget "error" msg) then None else vget "result" msg) with
  | Some r =>
      if is_some_and (vget "isError" r) (fun e => value_eqb e (VBool true)) then (Operations.Failed, None)
      else (Done, Some (to_text r))
  | None => (Operations.Failed, None)
  end.

(** [settle_reply] *)
Definition settle_reply (env : Env) (msg : value) (w : Interceptor) : option (InFlightCall * OperationState) * Interceptor :=
  match operations w, is_reply msg, vget "id" msg with
  | Some _, true, Some id =>
      let request := to_text id in
      match lookup_request request w with
      | None => (None, take_outstanding request w)
      | Some call =>
          let '(state, stored) := reply_state msg in
          match settle env request (if_operation call) state stored (unregister request w) with
          | (Ok true, w) => (Some (call, state), w)
          | (_, w) => (None, w)
          end
      end
  | _, _, _ => (None, w)
  end.

(** [relay] *)
Definition relay (env : Env) (line : string) (w : Interceptor) : list Action * Interceptor :=
  match from_str line with
  | None => ([ToAgent line], w)
  | Some msg =>
      let '(answered, w) := settle_reply env msg w in
      let w :=
        match answered, base w with
        | Some (op, state), Some b =>
            let outcome := if decide (state = Done) then Committed else Decisions.Failed in
            (record_decision env (base_outcome b op outcome) (Some (if_fingerprint op)) w).2
        | _, _ => w
        end in
      ([ToAgent (to_text msg)], w)
  end.

(** [msg.pointer_mut("/result/tools")], written back. *)
Definition set_tools (tools : list value) (msg : value) : value :=
  match msg, vget "result" msg with
  | VObject m, Some (VObject r) => VObject (BTree.insert "result" (VObject (BTree.insert "tools" (VArray tools) r)) m)
  | _, _ => msg
  end.

(** [check_listing] *)
Definition check_listing (line : string) (w : Interceptor) : option string * Interceptor :=
  if decide (list_requests w = ∅) then (None, w)
  else
    match from_str line with
    | None => (None, w)
    | Some msg =>
        match vget "method" msg, vget "id" msg with
        | None, Some id =>
            let request := to_text id in
            if decide (request ∈ list_requests w) then
              let w := set_list_requests (list_requests w ∖ {[request]}) w in
              match (let! t := pointer "result" "tools" msg else None in as_array t) with
              | None => (None, w)
              | Some tools =>
                  let '(visible, _, c) := Catalog.observe 0 tools (catalog w) in
                  (Some (to_text (set_tools visible msg)), set_catalog c w)
              end
            else (None, w)
        | _, _ => (None, w)
        end
    end.

(** [on_upstream_line] *)
Definition on_upstream_line (env : Env) (line : string) (w : Interceptor) : list Action * Interceptor :=
  match check_listing line w with
  | (Some filtered, w) => relay env filtered w
  | (None, w) => relay env line w
  end.

(** ** The upstream is gone *)

Definition UNKNOWN_OUTCOME : string := "the tool server went away before answering: the outcome of this call is unknown".

(** What [abandon] finds: [Ok (Some s)] when an operator reconciled it. *)
Definition swept (env : Env) (request opid : string) (w : Interceptor) :
    result operations_error (option OperationState) * Interceptor :=
  match settle env request opid Unknown None w with
  | (Ok true, w) => (Ok None, w)
  | (Ok false, w) =>
      (match operations w with
       | Some d => let? r := stored (row_reads (store env) request) (get opid (rows d)) in Ok (op_state <$> r)
       | None => Err GateInUse
       end, w)
  | (Err e, w) => (Err e, w)
  end.

(** [abandon] *)
Definition abandon (env : Env) (request : string) (call : InFlightCall) (w : Interceptor) : Action * Interceptor :=
  let opid := if_operation call in
  let '(found, w) := swept env request opid w in
  let '(reason, message, state, w) :=
    match found with
    | Ok (Some s) =>
        ("operation_reconciled",
         "the tool server went away before answering; an operator reconciled this call as " +:+ state_str s, Some s, w)
    | Ok None =>
        let w := match base w with
                 | Some b => (record_decision env (base_outcome b call OutcomeUnknown) (Some (if_fingerprint call)) w).2
                 | None => w
                 end in
        ("operation_unknown", UNKNOWN_OUTCOME, None, w)
    | Err _ => ("operation_unknown", UNKNOWN_OUTCOME, None, w)
    end in
  let data := [("reason", VString reason); ("operationId", VString opid)]
    ++ match state with Some s => [("state", VString (state_str s))] | None => [] end in
  (ToAgent (to_text (json_obj [("jsonrpc", VString "2.0"); ("id", default VNull (from_str request));
     ("error", json_obj [("code", json_int RECONCILE_REQUIRED); ("message", VString message); ("data", json_obj data)])])), w).

Fixpoint abandon_all (env : Env) (calls : list (string * InFlightCall)) (w : Interceptor) : list Action * Interceptor :=
  match calls with
  | [] => ([], w)
  | (request, call) :: calls =>
      let '(a, w) := abandon env request call w in
      let '(actions, w) := abandon_all env calls w in (a :: actions, w)
  end.

(** [finish]; [drain] is the order a hash map is drained in. *)
Definition finish (drain : gmap string InFlightCall -> list (string * InFlightCall)) (env : Env) (w : Interceptor) :
    list Action * Interceptor :=
  let calls := drain (by_request (pending w)) in
  let '(actions, w) := abandon_all env calls (set_pending (mkPendingOps ∅ (outstanding (pending w)) true) w) in
  (actions, match operations w with Some d => set_operations (Some (release_gate (handle w) d)) w | None => w end).

(** [on_upstream_error] *)
Definition on_upstream_error (env : Env) (message : string) (w : Interceptor) : list Action * Interceptor :=
  match from_str message with
  | None => ([], w)
  | Some msg =>
      match vget "method" msg, vget "id" msg with
      | Some _, Some id =>
          let request := to_text id in
          match lookup_request request w with
          | Some call => let '(a, w) := abandon env request call (unregister request w) in ([a], w)
          | None =>
              ([ToAgent (to_text (json_obj [("jsonrpc", VString "2.0"); ("id", id);
                 ("error", json_obj [("code", json_int UPSTREAM_UNAVAILABLE);
                    ("message", VString "the upstream MCP server did not answer this request (transport error); it failed closed");
                    ("data", json_obj [("reason", VString "upstream_unavailable")])])]))], take_outstanding request w)
          end
      | _, _ => ([], w)
      end
  end.

(** ** Start *)

Inductive start_error := NotReady (e : Gate.GateConfigError) | MaskedResults (n : nat) | CannotRecord.

(** [refuse_masked_results] *)
Definition refuse_masked_results (g : Gate.ToolGate) : result start_error unit :=
  match Gate.operations g with
  | None => Ok tt
  | Some d => match masked_results (rows d) with [] => Ok tt | ids => Err (MaskedResults (length ids)) end
  end.

(** Evidence of the start-up sweep. *)
Definition recovered_call (d : option db) (id : string) : InFlightCall :=
  let row := let! d := d else None in let! r := res_ok (get id (rows d)) else None in r in
  mkInFlight id (default "" (op_tool <$> row)) (default (repeat "000"%char 32) (call_digest <$> row)).
Fixpoint record_recovered (env : Env) (b : EntryBase) (ids : list string) (w : Interceptor) : result start_error Interceptor :=
  match ids with
  | [] => Ok w
  | id :: ids =>
      let call := recovered_call (operations w) id in
      match record_decision env (base_outcome b call OutcomeUnknown) (Some (if_fingerprint call)) w with
      | (Ok _, w) => record_recovered env b ids w
      | (Err _, _) => Err CannotRecord
      end
  end.

(** [Interceptor::build]; [Interceptor::new] passes [Catalog.passthrough]. *)
Definition build (env : Env) (c : Catalog.Catalog) (g : option Gate.ToolGate) (h : nat) (log : option (LedgerStore * SigningKey)) :
    result start_error Interceptor :=
  let? _ :=
    match g with
    | Some g => let? _ := map_err NotReady (Gate.ready g) in refuse_masked_results g
    | None => Ok tt
    end in
  let w := mkInterceptor g (with_lock (lock_digest <$> Catalog.lock c) ∘ base_of <$> g) (let! g := g else None in Gate.operations g) h log
    (mkPendingOps ∅ ∅ false) c ∅ in
  match gated w with
  | Some (g, b) => record_recovered env b (Gate.recovered g) w
  | None => Ok w
  end.

(** [reconcile_operation]: the table and the ledger after it.  [reads]: the
    row can be read before the transaction; [commits]: the verdict is written
    after the evidence. *)
Definition reconcile_draft (id : string) (outcome : OperationState) (rel tool : option string) : DecisionDraft :=
  {| d_ts := None; d_event := Reconcile; d_release := rel; d_tool := tool; d_args_fingerprint := None;
     d_decision := Decisions.Allow; d_reason := "reconciled"; d_path := None; d_policy_version := None;
     d_policy_digest := None; d_mode := None; d_task_id := None; d_operation_id := Some id; d_approval := None;
     d_outcome := Some (if decide (outcome = Done) then Committed else Decisions.Failed); d_forwarded := false;
     d_tools_lock := None |}.
Definition reconcile_evidence (env : Env) (draft : DecisionDraft) (digest : option bytes) (log : option (LedgerStore * SigningKey)) :
    result string unit * option (LedgerStore * SigningKey) :=
  match log with
  | None => (Ok tt, None)
  | Some (st, key) =>
      match log_append env draft digest st key with
      | Ok (_, st) => (Ok tt, Some (st, key))
      | Err _ => (Err "not recorded", Some (st, key))
      end
  end.
Definition reconcile_operation (env : Env) (reads commits : bool) (id : string) (outcome : OperationState) (force : bool)
    (log : option (LedgerStore * SigningKey)) (rel : option string) (t : table) :
    result reconcile_error unit * table * option (LedgerStore * SigningKey) :=
  let row := let! r := res_ok (stored reads (get id t)) else None in r in
  reconcile (stamp env) id outcome force
    (reconcile_evidence env (reconcile_draft id outcome rel (op_tool <$> row)) (call_digest <$> row)) commits t log.
End Proxy.
