(* ===== verification/Mediation.v ===== *)
(** * What the interceptor guarantees

    Properties of [Proxy]: complete mediation (nothing is forwarded that the
    gate did not authorize, the operations store did not admit and the ledger
    did not record), at-most-once execution across whole histories of
    messages, and what replies, drift and the exit sweep do. *)

From S2P Require Import Prelude BTree Json Crates Concrete Reference Action Constraint Rules Contract Manifest.
From S2P Require Import Operations Counters Policy Approval Gate Ledger CanonicalJson Decisions Proxy.

(** ** Histories *)

Section Mediation.
Context {RC : RegexCrate} {HC : HashCrates} {JC : JsonCrates} {UC : UnicodeCrate} {SC : SignatureCrates}
        {TC : TimeCrate} {CC : CedarCrate} {ST : SerdeText} {TX : StoreText} {CK : ClockCrate}.
Variable read_envelope : bytes -> option Envelope.
Variable drain : gmap string InFlightCall -> list (string * InFlightCall).

(** What happens around one interceptor: its transports' callbacks, and the
    commands operators and other processes run on the same database. *)
Inductive happening :=
| FromAgent (env : Env) (line : string)
| FromUpstream (env : Env) (line : string)
| TransportError (env : Env) (message : string)
| Exit (env : Env)
| Elsewhere (c : command).

Definition step (ev : happening) (w : Interceptor) : list Proxy.Action * Interceptor :=
  match ev with
  | FromAgent env line => on_agent_line read_envelope env line w
  | FromUpstream env line => on_upstream_line env line w
  | TransportError env message => on_upstream_error env message w
  | Exit env => finish drain env w
  | Elsewhere c => ([], match operations w with Some d => set_operations (Some (exec c d).2) w | None => w end)
  end.

Inductive history : Interceptor -> list (happening * Interceptor) -> Interceptor -> Prop :=
| history_nil w : history w [] w
| history_cons ev w evs w' : history (step ev w).2 evs w' -> history w ((ev, w) :: evs) w'.

(** The call of operation [op] goes out: a message is forwarded, and the
    request is now in flight for [op]. *)
Definition sends (op : string) (e : happening * Interceptor) : Prop :=
  exists env line request call message, e.1 = FromAgent env line /\
    ToUpstream DEFAULT_SERVER message ∈ (step e.1 e.2).1 /\
    lookup_request request e.2 = None /\ lookup_request request (step e.1 e.2).2 = Some call /\ if_operation call = op.

(** The reply a line of the upstream is, after the drift check, and the call
    it settles. *)
Definition reply_of (line : string) (w : Interceptor) : option value * Interceptor :=
  let '(filtered, w) := check_listing line w in (from_str (default line filtered), w).
Definition settles (env : Env) (line : string) (w : Interceptor) : option (InFlightCall * OperationState) :=
  match reply_of line w with
  | (Some msg, w) => (settle_reply env msg w).1
  | (None, _) => None
  end.

(** The call of [op] is known not to have happened: its reply is an error, or
    someone at the database settled or reconciled it so. *)
Definition upstream_failed (op : string) (e : happening * Interceptor) : Prop :=
  exists env line call, e.1 = FromUpstream env line /\ settles env line e.2 = Some (call, Operations.Failed) /\
    if_operation call = op.
Definition database_licence (op : string) (e : happening * Interceptor) : Prop :=
  exists c d, e.1 = Elsewhere c /\ operations e.2 = Some d /\ retry_licence op (c, (exec c d).1).

(** ** Frames *)

Lemma record_decision_frame env dr fp w r w' : record_decision env dr fp w = (r, w') ->
  (exists l, w' = set_log l w) /\
  match r with
  | Ok (Some e) => exists st key st', decision_log w = Some (st, key) /\ log_append env dr fp st key = Ok (e, st') /\
      decision_log w' = Some (st', key)
  | Ok None => decision_log w = None /\ w' = w
  | Err _ => is_some (decision_log w) = true /\ w' = w
  end.
Proof.
  unfold record_decision. destruct w as [g b o h [[st key]|] p ca lr]; cbn [decision_log].
  - destruct (log_append env dr fp st key) as [[e st']|] eqn:E; intros [= <- <-]; (split; [eexists; reflexivity|]); [|done].
    exists st, key, st'. by rewrite E.
  - intros [= <- <-]. split; [by eexists|done].
Qed.

(** Everything but the gate, the store, the log and the pending requests. *)
Definition same_catalog (w w' : Interceptor) : Prop :=
  base w' = base w /\ handle w' = handle w /\ catalog w' = catalog w /\
  list_requests w' = list_requests w.

#[local] Instance same_catalog_preorder : PreOrder same_catalog.
Proof. split; [by intros w|]. unfold same_catalog. intros w1 w2 w3 H1 H2. intuition congruence. Qed.

Lemma uncount_frame c w : exists g, uncount c w = set_gate g w.
Proof. unfold uncount. destruct c; [|exists (gate w); by destruct w]. destruct (gate w) as [g|] eqn:E; [by eexists|]. exists None. rewrite <- E. by destruct w. Qed.

(** [begin] said forward, and [settle] undoes it. *)
Lemma unsent now now' id tool dg t t' : begin now id tool dg t = Ok (Forward, t') ->
  exists t2, settle_with now' id Operations.Failed None false t' = Ok (true, t2) /\
    (forall id', id' <> id -> t2 !! id' = t !! id') /\ state_of id t2 = Some "failed" /\ ~ committed (state_of id t).
Proof.
  intros H. pose proof (begin_spec now id tool dg t) as Hs. rewrite H in Hs. destruct Hs as (r & -> & Hr & _ & _ & Hor).
  unfold settle_with. rewrite bool_decide_eq_true_2 by set_solver. cbn [negb]. rewrite lookup_insert_eq, Hr.
  rewrite bool_decide_eq_true_2 by done. eexists. split; [reflexivity|]. split.
  - intros id' Hne. by rewrite !lookup_insert_ne.
  - split; [unfold state_of; by rewrite lookup_insert_eq|]. unfold committed, state_of in *.
    destruct Hor as [Hn|[Hn|Hn]]; rewrite Hn; simpl; intuition congruence.
Qed.

(** An operation begun and given up again; a store that does not take the
    second write keeps it in flight. *)
Definition undone (o o' : option db) : Prop :=
  exists now id tool dg d t t2, o = Some d /\ begin now id tool dg (rows d) = Ok (Forward, t) /\
    (settle_with now id Operations.Failed None false t = Ok (true, t2) \/ t2 = t) /\ o' = Some (mkDb t2 (lock d)).

Lemma settle_frame env request id s res w : exists o, (settle env request id s res w).2 = set_operations o w.
Proof.
  unfold settle, with_rows. destruct (operations w) as [d|] eqn:Hd; [|exists None; rewrite <- Hd; by destruct w].
  destruct (stored _ _) as [[c t]|]; [by eexists|]. exists (Some d). rewrite <- Hd. by destruct w.
Qed.

(** Giving up an operation just begun. *)
Lemma settle_undone env request id tool dg d t w : begin (stamp env) id tool dg (rows d) = Ok (Forward, t) ->
  operations w = Some (mkDb t (lock d)) -> undone (Some d) (operations (settle env request id Operations.Failed None w).2).
Proof.
  intros Hb Hw. destruct (unsent _ (stamp env) _ _ _ _ _ Hb) as (t2 & Hs & _). unfold settle, with_rows. rewrite Hw. cbn [rows].
  rewrite Hs. destruct (settles_commit (store env) request); cbn [stored snd operations set_operations lock].
  - exists (stamp env), id, tool, dg, d, t, t2. auto.
  - rewrite Hw. exists (stamp env), id, tool, dg, d, t, t. auto.
Qed.

(** Nothing goes out: what a message that is not forwarded may change. *)
Record quiet (w w' : Interceptor) : Prop := mkQuiet {
  quiet_catalog : same_catalog w w';
  quiet_by_request : by_request (pending w') = by_request (pending w);
  quiet_outstanding : outstanding (pending w') = outstanding (pending w);
  quiet_closed : closed (pending w) = true -> closed (pending w') = true;
  quiet_operations : operations w' = operations w \/ undone (operations w) (operations w');
}.

Lemma quiet_refl w : quiet w w.
Proof. constructor; by try left. Qed.
Lemma quiet_log l w w' : quiet w w' -> quiet w (set_log l w').
Proof. intros [(? & ? & ? & ?) ? ? ? ?]. by constructor. Qed.
Lemma quiet_gate g w w' : quiet w w' -> quiet w (set_gate g w').
Proof. intros [(? & ? & ? & ?) ? ? ? ?]. by constructor. Qed.
Lemma quiet_gate_l g w w' : quiet (set_gate g w) w' -> quiet w w'.
Proof. intros [(? & ? & ? & ?) ? ? ? ?]. by constructor. Qed.
Lemma quiet_uncount c w w' : quiet w w' -> quiet w (uncount c w').
Proof. destruct (uncount_frame c w') as [g ->]. apply quiet_gate. Qed.

Definition begins (env : Env) (tool : string) (op : Gate.OperationKey) (d : db) : result operations_error (Begin * table) :=
  stored (begins_commit (store env))
    (begin (stamp env) (Gate.key_operation op) tool (fingerprint_bytes (Gate.key_fingerprint op)) (rows d)).
Lemma begins_begin env tool op d r : begins env tool op d = Ok r ->
  begin (stamp env) (Gate.key_operation op) tool (fingerprint_bytes (Gate.key_fingerprint op)) (rows d) = Ok r.
Proof. intros H. by apply stored_Ok in H as [_ H]. Qed.
Definition in_flight_call (tool : string) (op : Gate.OperationKey) : InFlightCall :=
  mkInFlight (Gate.key_operation op) tool (fingerprint_bytes (Gate.key_fingerprint op)).

Lemma coordinate_spec env id tool op w :
  match coordinate env id tool op w with
  | (CForward, w') => exists d idv t, operations w = Some d /\ non_null id = Some idv /\ closed (pending w) = false /\
      lookup_request (to_text idv) w = None /\ outstanding (pending w) !! to_text idv = None /\
      begins env tool op d = Ok (Forward, t) /\
      w' = register (to_text idv) (in_flight_call tool op) (set_operations (Some (mkDb t (lock d))) w)
  | (CReplay v, w') => w' = w /\ exists d res t, operations w = Some d /\
      begins env tool op d = Ok (Operations.Replay res false, t) /\ replayed res (Gate.key_operation op) = Some v
  | (CDeny _, w') => quiet w w' /\ gate w' = gate w /\ decision_log w' = decision_log w
  end.
Proof.
  unfold coordinate. pose proof (quiet_refl w) as Hq. destruct (operations w) as [d|] eqn:Hd; [|done].
  destruct (non_null id) as [idv|]; [|done]. destruct (closed (pending w)) eqn:Hcl; [done|].
  destruct (lookup_request (to_text idv) w) eqn:Hl; [done|]. destruct (outstanding (pending w) !! to_text idv) eqn:Ho; [done|].
  cbn [is_some is_some_and orb]. fold (begins env tool op d).
  destruct (begins env tool op d) as [[[|res []| |] t]|] eqn:Hb; try done.
  - destruct (closing env).
    + apply begins_begin in Hb. unfold with_rows. rewrite Hd. set (w1 := close _).
      pose proof (settle_undone env (to_text idv) _ _ _ d t w1 Hb eq_refl) as Hu.
      destruct (settle_frame env (to_text idv) (Gate.key_operation op) Operations.Failed None w1) as [o Ho'].
      rewrite Ho' in Hu |- *. split; [|done]. constructor; [done..|]. right. rewrite Hd. exact Hu.
    + exists d, idv, t. unfold with_rows. rewrite Hd. by split_and!.
  - destruct (replayed res _) eqn:Hr; [|done]. split; [done|]. by exists d, res, t.
Qed.

Lemma unstart_spec env request call d t w : lookup_request request w = None ->
  begin (stamp env) (if_operation call) (if_tool call) (if_fingerprint call) (rows d) = Ok (Forward, t) ->
  operations w = Some d ->
  forall w1, by_request (pending w1) = <[request := call]> (by_request (pending w)) -> same_catalog w w1 ->
  outstanding (pending w1) = outstanding (pending w) -> closed (pending w1) = closed (pending w) ->
  operations w1 = Some (mkDb t (lock d)) ->
  quiet w (unstart env request w1) /\ gate (unstart env request w1) = gate w1.
Proof.
  intros Hl Hb Hd w1 H1 Hcat Hout Hclosed Hops. unfold unstart, lookup_request in *. rewrite H1, lookup_insert_eq.
  assert (Hops' : operations (unregister request w1) = Some (mkDb t (lock d))) by done.
  pose proof (settle_undone env request _ _ _ d t _ Hb Hops') as Hu.
  destruct (settle_frame env request (if_operation call) Operations.Failed None (unregister request w1)) as [o Ho].
  rewrite Ho in Hu |- *. split; [|done].
  constructor; cbn [set_operations unregister set_pending pending by_request outstanding closed operations].
  - destruct Hcat as (? & ? & ? & ?). by split_and!.
  - by rewrite H1, delete_insert_eq, delete_id.
  - done.
  - by rewrite Hclosed.
  - right. rewrite Hd. exact Hu.
Qed.

(** The call of a [tools/call] message. *)
Definition call_tool_of (msg : value) : string := default "" (let! v := pointer "params" "name" msg else None in as_str v).
Definition call_args_of (msg : value) : option value := pointer "params" "arguments" msg.

(** The counters after a call that does not go out. *)
Definition taken_back (env : Env) (g : Gate.ToolGate) (tool : string) (w w' : Interceptor) : Prop :=
  gate w' = gate w \/
  exists counted g1, Gate.record_forwarded tool (now env) g = Ok (counted, g1) /\
    gate w' = Some (match counted with Some id => Gate.forget_forwarded id g1 | None => g1 end).

(** The store admits an operation: it is in flight under the request. *)
Definition admitted (env : Env) (id : option value) (tool : string) (op : Gate.OperationKey) (w w' : Interceptor) : Prop :=
  exists d idv t, operations w = Some d /\ non_null id = Some idv /\ closed (pending w) = false /\
    lookup_request (to_text idv) w = None /\ outstanding (pending w) !! to_text idv = None /\
    begins env tool op d = Ok (Forward, t) /\
    w' = register (to_text idv) (in_flight_call tool op) (set_operations (Some (mkDb t (lock d))) w).

(** A call that goes out: judged, counted, admitted and recorded. *)
Definition goes_out (env : Env) (g : Gate.ToolGate) (b : EntryBase) (msg : value) (w w' : Interceptor) : Prop :=
  exists refusal op appr counted g1 w1 e,
    judge read_envelope env g (call_tool_of msg) (call_args_of msg) w = (refusal, op, appr) /\
    stops_call g refusal = false /\
    Gate.record_forwarded (call_tool_of msg) (now env) g = Ok (counted, g1) /\
    match op with
    | None => w1 = set_gate (Some g1) w
    | Some op => admitted env (vget "id" msg) (call_tool_of msg) op (set_gate (Some g1) w) w1
    end /\
    record_decision env (call_draft b g (call_tool_of msg) refusal op appr None)
      (call_fingerprint g (call_tool_of msg) (call_args_of msg)) w1 = (Ok e, w').

Lemma answer_agent id reply : Forall (fun a => exists m, a = ToAgent m) (answer id reply) /\ length (answer id reply) <= 1.
Proof. destruct id; cbn; split; try lia; repeat constructor. by eexists. Qed.

Lemma uncount_gate c g w : gate w = Some g ->
  uncount c w = set_gate (Some (match c with Some id => Gate.forget_forwarded id g | None => g end)) w.
Proof. intros H. unfold uncount. rewrite H. destruct c; [done|]. destruct w. cbn in *. by rewrite H. Qed.

Lemma conclude_spec env g b tool args id refusal op appr replay counted started w :
  match conclude env g b tool args id refusal op appr replay counted started w with
  | (Some actions, w') => (Forall (fun a => exists m, a = ToAgent m) actions /\ length actions <= 1) /\
      (w' = undo env counted started w \/ (exists l, w' = set_log l w) /\ is_some replay || stops_call g refusal = true)
  | (None, w') => stops_call g refusal = false /\ replay = None /\
      exists e, record_decision env (call_draft b g tool refusal op appr None) (call_fingerprint g tool args) w = (Ok e, w')
  end.
Proof.
  unfold conclude. set (dr := call_draft _ _ _ _ _ _ _). set (fp := call_fingerprint _ _ _).
  destruct (record_decision env dr fp w) as [[e|] w'] eqn:Hr; pose proof (record_decision_frame _ _ _ _ _ _ Hr) as HF.
  - destruct HF as [Hl _]. destruct replay as [v|]; [split; [apply answer_agent|by right]|].
    destruct refusal as [[d always]|]; [|by eauto].
    destruct (stops_call g (Some (d, always))) eqn:Hs; [|by eauto]. split; [apply answer_agent|]. by right.
  - destruct HF as [_ [_ ->]]. split; [apply answer_agent|by left].
Qed.
Lemma stops_false g refusal : stops_call g refusal = false -> is_some_and refusal (fun da => da.2) = false.
Proof. destruct refusal as [[d []]|]; [discriminate|done..]. Qed.

(** A call that ends here, from a state in which nothing of it is left. *)
Lemma conclude_stopped env g b msg refusal op appr replay counted w w0 :
  quiet w0 w -> taken_back env g (call_tool_of msg) w0 w -> is_some replay || stops_call g refusal = true -> counted = None ->
  match conclude env g b (call_tool_of msg) (call_args_of msg) (vget "id" msg) refusal op appr replay counted None w with
  | (Some actions, w') => Forall (fun a => exists m, a = ToAgent m) actions /\ length actions <= 1 /\ quiet w0 w' /\
      taken_back env g (call_tool_of msg) w0 w'
  | (None, w') => goes_out env g b msg w0 w'
  end.
Proof.
  intros Hq Ht Hs ->. pose proof (conclude_spec env g b (call_tool_of msg) (call_args_of msg) (vget "id" msg) refusal op appr
    replay None None w) as H. destruct (conclude _ _ _ _ _ _ _ _ _ _ _ _ _) as [[actions|] w'].
  - destruct H as ([? ?] & [-> |([l ->] & _)]); split_and!; [done..|by apply quiet_log|done].
  - destruct H as (? & -> & _). rewrite H in Hs. discriminate.
Qed.

Lemma decide_call_spec env g b msg w : gate w = Some g ->
  match decide_call read_envelope env g b msg w with
  | (Some actions, w') => Forall (fun a => exists m, a = ToAgent m) actions /\ length actions <= 1 /\ quiet w w' /\
      taken_back env g (call_tool_of msg) w w'
  | (None, w') => goes_out env g b msg w w'
  end.
Proof.
  intros Hg. unfold decide_call. cbv zeta. fold (call_tool_of msg) (call_args_of msg).
  destruct (judge read_envelope env g (call_tool_of msg) (call_args_of msg) w) as [[refusal op] appr] eqn:Hj.
  pose proof (quiet_refl w) as Hq. assert (Ht : taken_back env g (call_tool_of msg) w w) by by left.
  destruct (stops_call g refusal) eqn:Hs; cbn [negb].
  { destruct op as [op|]; cbn [is_some is_some_and orb]; destruct (is_some_and refusal _);
      apply conclude_stopped; auto; rewrite Hs; done. }
  destruct (Gate.record_forwarded (call_tool_of msg) (now env) g) as [[counted g1]|d] eqn:Hf.
  2:{ destruct op as [op|]; cbn [is_some is_some_and orb snd]; apply conclude_stopped; auto. }
  set (w1 := set_gate (Some g1) w).
  assert (Hu : forall w2, gate w2 = Some g1 -> quiet w w2 ->
    quiet w (uncount counted w2) /\ taken_back env g (call_tool_of msg) w (uncount counted w2)).
  { intros w2 Hg2 Hq2. split; [by apply quiet_uncount|]. right. exists counted, g1. by rewrite (uncount_gate _ _ _ Hg2). }
  assert (Hq1 : quiet w w1) by by apply quiet_gate.
  destruct op as [op|].
  - pose proof (coordinate_spec env (vget "id" msg) (call_tool_of msg) op w1) as Hc.
    destruct (coordinate env (vget "id" msg) (call_tool_of msg) op w1) as [[|v|d] w2].
    + cbn [is_some is_some_and orb]. rewrite (stops_false _ _ Hs).
      pose proof (conclude_spec env g b (call_tool_of msg) (call_args_of msg) (vget "id" msg) refusal (Some op) appr
        None counted (to_text <$> vget "id" msg) w2) as H.
      destruct (conclude _ _ _ _ _ _ _ _ _ _ _ _ _) as [[actions|] w'].
      * destruct H as ([? ?] & [-> |(_ & H)]); [|by rewrite Hs in H]. split; [done|]. split; [done|].
        destruct Hc as (d & idv & t & Hd & Hid & _ & Hl & Ho & Hb & ->).
        unfold undo. replace (to_text <$> vget "id" msg) with (Some (to_text idv))
          by (destruct (vget "id" msg) as [[]|]; cbn in *; congruence).
        set (w2 := register _ _ _). rewrite (uncount_gate counted g1 w2) by done.
        set (w3 := set_gate _ w2).
        destruct (unstart_spec env (to_text idv) (in_flight_call (call_tool_of msg) op) d t w1 Hl (begins_begin _ _ _ _ _ Hb) Hd w3) as [Hu1 Hu2]; [done..|].
        split; [by eapply quiet_gate_l|]. right. exists counted, g1. by rewrite Hu2.
      * destruct H as (_ & _ & e & He). exists refusal, (Some op), appr, counted, g1, w2, e. by split_and!.
    + destruct Hc as [-> _]. cbn [is_some is_some_and orb]. destruct (Hu w1) as [? ?]; [done..|]. by apply conclude_stopped.
    + destruct Hc as (H1 & H2 & _). cbn [is_some is_some_and orb snd]. destruct (Hu w2) as [? ?]; [done|by eapply quiet_gate_l|].
      by apply conclude_stopped.
  - cbn [is_some is_some_and orb]. rewrite (stops_false _ _ Hs).
    pose proof (conclude_spec env g b (call_tool_of msg) (call_args_of msg) (vget "id" msg) refusal None appr
      None counted None w1) as H.
    destruct (conclude _ _ _ _ _ _ _ _ _ _ _ _ _) as [[actions|] w'].
    + destruct H as ([? ?] & [-> |(_ & H)]); [|by rewrite Hs in H]. split_and!; [done..| |]; by apply Hu.
    + destruct H as (_ & _ & e & He). exists refusal, None, appr, counted, g1, w1, e. by split_and!.
Qed.

(** ** One message of the agent *)

Lemma gated_gate w g b : gated w = Some (g, b) -> gate w = Some g /\ base w = Some b.
Proof. unfold gated. destruct (gate w), (base w); by intros [= <- <-]. Qed.

(** A readable message that goes on to the upstream. *)
Definition passes (env : Env) (msg : value) (w w' : Interceptor) : Prop :=
  match gated w with
  | Some (g, b) => id_in_use msg w = false /\ if method_is "tools/call" msg then goes_out env g b msg w w' else w' = w
  | None => w' = w /\ (method_is "tools/call" msg = true -> refuse w (call_tool_of msg) = None)
  end.

(** The gate, but for a call counted and taken back. *)
Definition uncounted (env : Env) (w w' : Interceptor) : Prop :=
  gate w' = gate w \/ exists g tool, gate w = Some g /\ taken_back env g tool w w'.

Inductive agent_outcome (env : Env) (line : string) (w : Interceptor) : list Proxy.Action -> Interceptor -> Prop :=
| Kept actions w' : Forall (fun a => exists m, a = ToAgent m) actions -> length actions <= 1 -> quiet w w' ->
    uncounted env w w' -> agent_outcome env line w actions w'
| Passed msg w' : from_str line = Some msg -> (is_some (gated w) = true -> screen line = Ok tt) -> passes env msg w w' ->
    agent_outcome env line w [ToUpstream DEFAULT_SERVER (to_text msg)]
      (note_list_request (to_text msg) (note_outstanding msg w'))
| Verbatim : gated w = None -> from_str line = None ->
    agent_outcome env line w [ToUpstream DEFAULT_SERVER line] (note_list_request line w).

(** The same, before the message is sent. *)
Inductive agent_decision (env : Env) (line : string) (w : Interceptor) : list Proxy.Action -> Interceptor -> Prop :=
| DecidedKept actions w' : Forall (fun a => exists m, a = ToAgent m) actions -> length actions <= 1 -> quiet w w' ->
    uncounted env w w' -> agent_decision env line w actions w'
| DecidedPassed msg w' : from_str line = Some msg -> (is_some (gated w) = true -> screen line = Ok tt) -> passes env msg w w' ->
    agent_decision env line w [ToUpstream DEFAULT_SERVER (to_text msg)] (note_outstanding msg w')
| DecidedVerbatim : gated w = None -> from_str line = None ->
    agent_decision env line w [ToUpstream DEFAULT_SERVER line] w.

Lemma refuse_message_quiet env g b id reason code w actions w' : refuse_message env g b id reason code w = (actions, w') ->
  Forall (fun a => exists m, a = ToAgent m) actions /\ length actions <= 1 /\ quiet w w' /\ uncounted env w w'.
Proof.
  unfold refuse_message. set (dr := set_verdict _ _ _ _ _). destruct (record_decision env dr None w) as [r w1] eqn:Hr.
  apply record_decision_frame in Hr as [[l ->] _]. intros [= <- <-].
  split_and!; [repeat constructor; by eexists|done|by apply quiet_log, quiet_refl|by left].
Qed.

Lemma decide_message_spec env msg w :
  match decide_message read_envelope env msg w with
  | (actions, w') =>
      (Forall (fun a => exists m, a = ToAgent m) actions /\ length actions <= 1 /\ quiet w w' /\ uncounted env w w') \/
      exists w1, passes env msg w w1 /\ actions = [ToUpstream DEFAULT_SERVER (to_text msg)] /\ w' = note_outstanding msg w1
  end.
Proof.
  unfold decide_message, passes. destruct (gated w) as [[g b]|] eqn:Hg.
  - destruct (id_in_use msg w).
    { destruct (refuse_message _ _ _ _ _ _ _) as [actions w'] eqn:Hr. left. by eapply refuse_message_quiet. }
    destruct (method_is "tools/call" msg); [|right; eauto]. unfold decide_tools_call. rewrite Hg.
    apply gated_gate in Hg as [Hg _]. pose proof (decide_call_spec env g b msg w Hg) as H.
    destruct (decide_call _ _ _ _ _ _) as [[actions|] w']; [left|right; eauto 10].
    destruct H as (? & ? & ? & ?). split_and!; [done..|]. right. by exists g, (call_tool_of msg).
  - destruct (method_is "tools/call" msg); [|right; exists w; done]. unfold decide_tools_call. rewrite Hg.
    fold (call_tool_of msg). destruct (refuse w _) eqn:Hr; [|right; exists w; done].
    left. split_and!; [apply answer_agent..|apply quiet_refl|by left].
Qed.

Lemma decide_agent_spec env line w :
  agent_decision env line w (decide_agent read_envelope env line w).1 (decide_agent read_envelope env line w).2.
Proof.
  destruct (decide_agent read_envelope env line w) as [actions w'] eqn:Hd. cbn [fst snd].
  assert (Hmsg : forall msg, from_str line = Some msg -> (is_some (gated w) = true -> screen line = Ok tt) ->
    decide_message read_envelope env msg w = (actions, w') -> agent_decision env line w actions w').
  { intros msg Hm Hs He. pose proof (decide_message_spec env msg w) as H. rewrite He in H.
    destruct H as [(H1 & H2 & H3 & H4)|(w1 & H1 & -> & ->)]; [by apply DecidedKept|by apply DecidedPassed]. }
  unfold decide_agent in Hd. destruct (gated w) as [[g b]|] eqn:Hg.
  - destruct (screen line) as [[]|[reason code]] eqn:Hs.
    + destruct (from_str line) as [msg|] eqn:Hm; [by eapply Hmsg|]. unfold screen in Hs. by rewrite Hm in Hs.
    + apply refuse_message_quiet in Hd as (H1 & H2 & H3 & H4). by apply DecidedKept.
  - assert (Hv : match from_str line with Some msg => decide_message read_envelope env msg w
                 | None => ([ToUpstream DEFAULT_SERVER line], w) end = (actions, w')) by by destruct (screen line) as [|[]].
    destruct (from_str line) as [msg|] eqn:Hm; [by eapply Hmsg|]. injection Hv as <- <-. by apply DecidedVerbatim.
Qed.

Lemma on_agent_line_spec env line w :
  agent_outcome env line w (on_agent_line read_envelope env line w).1 (on_agent_line read_envelope env line w).2.
Proof.
  unfold on_agent_line. pose proof (decide_agent_spec env line w) as H.
  destruct (decide_agent read_envelope env line w) as [actions w']. cbn [fst snd] in *.
  assert (Hk : forall a, Forall (fun a => exists m, a = ToAgent m) a -> forall w0, fold_left (fun w a =>
      match a with ToUpstream _ m => note_list_request m w | ToAgent _ => w end) a w0 = w0)
    by (induction 1 as [|? ? [? ->]]; done).
  destruct H; [rewrite Hk by done; by apply Kept|by apply Passed|by apply Verbatim].
Qed.

Lemma note_outstanding_frame msg w :
  exists out, note_outstanding msg w = set_pending (mkPendingOps (by_request (pending w)) out (closed (pending w))) w.
Proof.
  unfold note_outstanding. assert (Hw : exists out, w =
    set_pending (mkPendingOps (by_request (pending w)) out (closed (pending w))) w)
    by (exists (outstanding (pending w)); by destruct w as [? ? ? ? ? []]).
  destruct (operations w); [|done]. destruct (request_id msg); [|done]. destruct (is_some _); [done|]. by eexists.
Qed.

Lemma note_list_request_frame m w : exists l, note_list_request m w = set_list_requests l w.
Proof.
  unfold note_list_request. assert (Hw : exists l, w = set_list_requests l w) by (exists (list_requests w); by destruct w).
  destruct (negb _); [done|]. destruct (from_str m) as [msg|]; [|done]. destruct (method_is _ msg); [|done].
  destruct (non_null _); [|done]. by eexists.
Qed.

(** What the bookkeeping after a forwarded message leaves alone. *)
Lemma noted_frame m msg w : let w' := note_list_request m (note_outstanding msg w) in
  gate w' = gate w /\ operations w' = operations w /\ decision_log w' = decision_log w /\
  by_request (pending w') = by_request (pending w) /\ closed (pending w') = closed (pending w) /\
  base w' = base w /\ handle w' = handle w /\ catalog w' = catalog w.
Proof.
  cbv zeta. destruct (note_outstanding_frame msg w) as [out ->], (note_list_request_frame m
    (set_pending (mkPendingOps (by_request (pending w)) out (closed (pending w))) w)) as [l ->]. done.
Qed.

Lemma judge_enforced env g tool args w refusal op appr : Gate.mode g = Gate.Enforce ->
  judge read_envelope env g tool args w = (refusal, op, appr) -> stops_call g refusal = false ->
  exists auth, Gate.authorize read_envelope g tool args (now env) = Ok auth /\ refusal = None /\
    op = Gate.auth_operation auth /\ appr = Gate.auth_approval auth /\ refuse w tool = None.
Proof.
  intros Hm Hj Hs. unfold judge in Hj. rewrite Hm in Hj.
  assert (Hall : forall d a, stops_call g (Some (d, a)) = true) by (intros d []; [done|]; unfold stops_call, is_shadow; by rewrite Hm).
  destruct (if declares g tool then refuse w tool else None) as [d|] eqn:Hu.
  { injection Hj as <- _ _. by rewrite Hall in Hs. }
  destruct (Gate.authorize read_envelope g tool args (now env)) as [auth|d] eqn:Ha; injection Hj as <- <- <-;
    [|by rewrite Hall in Hs].
  exists auth. split_and!; [done..|].
  apply Gate.authorize_grounds in Ha as Hg.
  unfold declares in Hu. rewrite bool_decide_eq_true_2 in Hu; [exact Hu|].
  unfold Gate.authorize in Ha. case_bool_decide; [done|discriminate].
Qed.

(** The policy's view of a call taken back. *)
Lemma taken_back_counts env g tool w w' p : gate w = Some g -> taken_back env g tool w w' -> Gate.policy g = Some p ->
  ids_fresh (Gate.counters p) ->
  exists g' p', gate w' = Some g' /\ Gate.policy g' = Some p' /\
    forall at_unix release t width later, Gate.unix (now env) = Ok at_unix -> (width <= DAY)%Z -> (at_unix <= later)%Z ->
      calls_in release t width later (Gate.counters p') = calls_in release t width later (Gate.counters p).
Proof.
  intros Hg [->|(counted & g1 & Hf & ->)] Hp Hfr; [by eauto 10|]. unfold Gate.record_forwarded in Hf. rewrite Hp in Hf.
  destruct (Gate.unix (now env)) as [at_|] eqn:Hu; [|discriminate]. destruct (Gate.store_answers p) eqn:Hs; [|discriminate].
  cbn [negb] in Hf. destruct (record (Gate.release_name g) tool at_ (Gate.counters p)) as [id c] eqn:Hr.
  injection Hf as <- <-. eexists _, _. split; [reflexivity|]. split; [reflexivity|].
  intros at_unix release t width later [= <-] Hw Hl. cbn [Gate.counters].
  pose proof (forget_record (Gate.release_name g) tool release t width later at_ (Gate.counters p) Hfr Hw Hl) as H.
  by rewrite Hr in H.
Qed.

Lemma undone_states o o' d : undone o o' -> o = Some d -> exists d', o' = Some d' /\ lock d' = lock d /\
  forall id, state_of id (rows d') = state_of id (rows d) \/
    (~ committed (state_of id (rows d)) /\ (state_of id (rows d') = Some "failed" \/ state_of id (rows d') = Some "in_flight")).
Proof.
  intros (now & id & tool & dg & d0 & t & t2 & -> & Hb & Hs & ->) [= ->]. eexists. split; [done|]. split; [done|].
  intros id'. destruct (unsent _ now _ _ _ _ _ Hb) as (t3 & Hs' & Hsame & Hf & Hc). destruct Hs as [Hs| ->].
  - rewrite Hs in Hs'. injection Hs' as <-.
    destruct (decide (id' = id)) as [->|Hne]; [right; auto|left]. unfold state_of. cbn [rows]. by rewrite Hsame.
  - pose proof (begin_spec now id tool dg (rows d)) as Hbs. rewrite Hb in Hbs. destruct Hbs as (r & -> & Hr & _). cbn [rows].
    rewrite state_of_insert. case_decide as Hid; [subst id'|by left]. right. rewrite Hr. auto.
Qed.

(** ** Operations over a history *)

Definition committed_at (op : string) (w : Interceptor) : Prop :=
  exists d, operations w = Some d /\ committed (state_of op (rows d)).

Lemma committed_at_same op w w' : operations w' = operations w -> committed_at op w -> committed_at op w'.
Proof. intros H (d & Hd & Hc). exists d. by rewrite H. Qed.

Lemma record_decision_operations env dr fp w : operations (record_decision env dr fp w).2 = operations w.
Proof.
  destruct (record_decision env dr fp w) as [r w'] eqn:H. by apply record_decision_frame in H as [[l ->] _].
Qed.

Lemma settle_committed op env request id s res w : committed_at op w ->
  (s = Operations.Failed -> id = op -> (settle env request id s res w).1 <> Ok true) ->
  committed_at op (settle env request id s res w).2.
Proof.
  intros (d & Hd & Hc) Hf. unfold settle, with_rows in *. rewrite Hd in *.
  destruct (settles_commit (store env) request); cbn [stored] in *; [|by exists d].
  pose proof (settle_spec (stamp env) id s res false (rows d)) as H.
  destruct (settle_with (stamp env) id s res false (rows d)) as [[[] t]|]; cbn [fst snd] in *; [|subst t|by exists d].
  - destruct H as (raw & _ & _ & Hs & ->). eexists. split; [done|]. cbn [rows]. rewrite state_of_insert. case_decide as Hid; [|done].
    cbn [set_row raw_state]. destruct s; unfold committed; cbn; auto; [|set_solver]. exfalso. by apply Hf.
  - exists (mkDb (rows d) (lock d)). done.
Qed.

Lemma abandon_committed op env request call w : committed_at op w -> committed_at op (abandon env request call w).2.
Proof.
  intros H. unfold abandon, swept.
  pose proof (settle_committed op env request (if_operation call) Unknown None w H ltac:(discriminate)) as Hs.
  destruct (settle env request (if_operation call) Unknown None w) as [[[]|] w1]; cbn [snd] in *.
  - cbn. destruct (base w1); [|done]. by eapply committed_at_same; [apply record_decision_operations|].
  - destruct (operations w1) as [d|]; [|done]. destruct (stored _ (get (if_operation call) (rows d))) as [[r|]|]; cbn; try done.
    destruct (base w1); [|done]. by eapply committed_at_same; [apply record_decision_operations|].
  - done.
Qed.

Lemma abandon_all_committed op env calls w : committed_at op w -> committed_at op (abandon_all env calls w).2.
Proof.
  revert w. induction calls as [|[request call] calls IH]; intros w H; [done|]. cbn.
  pose proof (abandon_committed op env request call w H) as Ha. destruct (abandon env request call w) as [a w1].
  specialize (IH w1 Ha). by destruct (abandon_all env calls w1).
Qed.

Lemma check_listing_frame line w : let w' := (check_listing line w).2 in
  gate w' = gate w /\ base w' = base w /\ operations w' = operations w /\ handle w' = handle w /\
  decision_log w' = decision_log w /\ pending w' = pending w.
Proof.
  unfold check_listing. repeat case_match; simplify_eq; done.
Qed.

Lemma take_outstanding_frame request w :
  exists out, take_outstanding request w = set_pending (mkPendingOps (by_request (pending w)) out (closed (pending w))) w.
Proof.
  unfold take_outstanding. destruct (outstanding (pending w) !! request); [by eexists|].
  exists (outstanding (pending w)). by destruct w as [? ? ? ? ? []].
Qed.

Lemma settle_reply_committed op env msg w : committed_at op w ->
  (forall call, (settle_reply env msg w).1 = Some (call, Operations.Failed) -> if_operation call <> op) ->
  committed_at op (settle_reply env msg w).2.
Proof.
  intros H Hf. unfold settle_reply in *. destruct (operations w) as [d|]; [|done]. destruct (is_reply msg); [|done].
  destruct (vget "id" msg) as [id|]; [|done]. destruct (lookup_request (to_text id) w) as [call|].
  2:{ destruct (take_outstanding_frame (to_text id) w) as [out ->]. done. }
  destruct (reply_state msg) as [s stored]. assert (H1 : committed_at op (unregister (to_text id) w)) by done.
  pose proof (settle_committed op env (to_text id) (if_operation call) s stored _ H1) as Hs.
  destruct (settle env (to_text id) (if_operation call) s stored (unregister (to_text id) w)) as [[[]|] w1]; cbn [fst snd] in *;
    apply Hs; intros -> Hop; try done. by specialize (Hf call eq_refl).
Qed.

Lemma on_upstream_line_settles env line w : let w' := (on_upstream_line env line w).2 in
  operations w' = operations match reply_of line w with (Some msg, w1) => (settle_reply env msg w1).2 | (None, w1) => w1 end.
Proof.
  unfold on_upstream_line, reply_of, relay. destruct (check_listing line w) as [[f|] w1]; cbn [default];
    (destruct (from_str _) as [msg|]; [|done]); destruct (settle_reply env msg w1) as [[[call s]|] w2]; cbn [snd]; try done;
    destruct (base w2); try done; apply record_decision_operations.
Qed.

Lemma goes_out_effect env g b msg w w' op : goes_out env g b msg w w' ->
  (exists k d t, Gate.key_operation k = op /\ operations w = Some d /\ begins env (call_tool_of msg) k d = Ok (Forward, t) /\
     operations w' = Some (mkDb t (lock d))) \/
  ((committed_at op w -> committed_at op w') /\
   forall request call, lookup_request request w = None -> lookup_request request w' = Some call -> if_operation call <> op).
Proof.
  intros (refusal & k & appr & counted & g1 & w1 & e & _ & _ & _ & Hop & Hr). apply record_decision_frame in Hr as [[l ->] _].
  destruct k as [k|]; [|subst w1; right; split; [done|]].
  2:{ unfold lookup_request. cbn. intros request call -> [=]. }
  destruct Hop as (d & idv & t & Hd & _ & _ & Hl & _ & Hb & ->).
  destruct (decide (Gate.key_operation k = op)) as [Hk|Hk]; [left; by exists k, d, t|right]. split.
  - intros (d' & Hd' & Hc). cbn in Hd. rewrite Hd in Hd'. injection Hd' as <-. eexists. split; [done|]. cbn [rows].
    pose proof (begin_spec (stamp env) (Gate.key_operation k) (call_tool_of msg) (fingerprint_bytes (Gate.key_fingerprint k)) (rows d)) as Hs.
    apply begins_begin in Hb. rewrite Hb in Hs. destruct Hs as (r & -> & _). by rewrite state_of_insert, decide_False.
  - intros request call. unfold lookup_request. cbn. rewrite lookup_insert. case_decide; [|intros -> [=]].
    intros _ [= <-]. done.
Qed.

Lemma sends_committed op e : sends op e -> committed_at op (step e.1 e.2).2.
Proof.
  intros (env & line & request & call & m & He & Hin & Hbefore & Hafter & Hop). rewrite He in *. cbn [step] in *.
  destruct (on_agent_line_spec env line e.2) as [actions w' Hk _ _ _|msg w1 _ _ Hp|_ _].
  - apply (proj1 (Forall_forall _ _) Hk) in Hin as [? [=]].
  - destruct (noted_frame (to_text msg) msg w1) as (_ & Hops & _ & Hby & _).
    unfold lookup_request in *. rewrite Hby in Hafter. apply (committed_at_same op w1); [done|]. unfold passes in Hp.
    destruct (gated e.2) as [[g b]|]; [|destruct Hp as [-> _]; congruence]. destruct Hp as [_ Hp].
    destruct (method_is "tools/call" msg); [|subst w1; congruence].
    destruct (goes_out_effect env g b msg _ _ op Hp) as [(k & d & t & Hk & Hd & Hb & Hd')|[_ H]]; [|by destruct (H request call)].
    eexists. split; [done|]. cbn [rows].
    pose proof (begin_spec (stamp env) (Gate.key_operation k) (call_tool_of msg) (fingerprint_bytes (Gate.key_fingerprint k)) (rows d)) as Hs.
    apply begins_begin in Hb. rewrite Hb in Hs. destruct Hs as (r & -> & Hr & _). rewrite state_of_insert, decide_True by done.
    rewrite Hr. by left.
  - destruct (note_list_request_frame line e.2) as [l Hl]. unfold lookup_request in *. rewrite Hl in Hafter. cbn in Hafter. congruence.
Qed.

Lemma step_committed op e : committed_at op e.2 -> ~ upstream_failed op e -> ~ database_licence op e ->
  committed_at op (step e.1 e.2).2 /\ ~ sends op e.
Proof.
  destruct e as [ev w]. cbn [fst snd]. intros Hc Hu Hl. destruct ev as [env line|env line|env m|env|c]; cbn [step].
  2-5: (split; [|by intros (? & ? & ? & ? & ? & [=] & _)]).
  - assert (H : committed_at op (on_agent_line read_envelope env line w).2 /\
      ((exists server m, ToUpstream server m ∈ (on_agent_line read_envelope env line w).1) ->
       forall request call, lookup_request request w = None ->
         lookup_request request (on_agent_line read_envelope env line w).2 = Some call -> if_operation call <> op)).
    2:{ destruct H as [H1 H2]. split; [done|]. intros (env' & line' & request & call & m & He & Hin & Hb & Ha & Ho).
        injection He as <- <-. cbn [step fst snd] in *. by eapply H2; eauto. }
    destruct (on_agent_line_spec env line w) as [actions w' Hk _ Hq _|msg w1 _ _ Hp|_ _].
    + split; [|intros (? & ? & Hin); by apply (proj1 (Forall_forall _ _) Hk) in Hin as [? [=]]].
      destruct Hq as [_ _ _ _ [Ho|Ho]]; [by eapply committed_at_same|]. destruct Hc as (d & Hd & Hc).
      destruct (undone_states _ _ d Ho Hd) as (d' & Hd' & _ & Hs). exists d'. split; [done|].
      destruct (Hs op) as [->|[? _]]; done.
    + destruct (noted_frame (to_text msg) msg w1) as (_ & Hops & _ & Hby & _). unfold lookup_request. rewrite Hby.
      assert (H : committed_at op w1 /\ forall request call, lookup_request request w = None ->
        lookup_request request w1 = Some call -> if_operation call <> op).
      2:{ destruct H as [H1 H2]. split; [by apply (committed_at_same op w1)|]. intros _. apply H2. }
      unfold passes in Hp. destruct (gated w) as [[g b]|]; [|destruct Hp as [-> _]; split; [done|congruence]].
      destruct Hp as [_ Hp]. destruct (method_is "tools/call" msg); [|subst w1; split; [done|congruence]].
      destruct (goes_out_effect env g b msg w w1 op Hp) as [(k & d & t & Hk & Hd & Hb & _)|[H1 H2]]; [exfalso|auto].
      destruct Hc as (d' & Hd' & Hc). rewrite Hd in Hd'. injection Hd' as <-. subst op.
      apply begins_begin in Hb. by destruct (unsent _ "" _ _ _ _ _ Hb) as (_ & _ & _ & _ & Hn).
    + destruct (note_list_request_frame line w) as [l ->]. split; [done|]. intros _ request call. unfold lookup_request. cbn. congruence.
  - eapply committed_at_same; [apply on_upstream_line_settles|]. unfold upstream_failed, settles in Hu. cbn [fst snd] in Hu.
    assert (Hw : (reply_of line w).2 = (check_listing line w).2) by (unfold reply_of; by destruct (check_listing line w)).
    destruct (check_listing_frame line w) as (_ & _ & Hops & _). rewrite <- Hw in Hops.
    destruct (reply_of line w) as [[msg|] w1] eqn:Hr; cbn [snd] in Hops; [|by eapply committed_at_same].
    apply settle_reply_committed; [by eapply committed_at_same|]. intros call Hs Hop. apply Hu. exists env, line, call.
    by rewrite Hr.
  - unfold on_upstream_error. destruct (from_str m) as [msg|]; [|done]. destruct (vget "method" msg); [|done].
    destruct (vget "id" msg) as [id|]; [|done]. destruct (lookup_request (to_text id) w) as [call|].
    + pose proof (abandon_committed op env (to_text id) call (unregister (to_text id) w) Hc) as Ha. by destruct (abandon _ _ _ _).
    + cbn [snd]. by destruct (take_outstanding_frame (to_text id) w) as [out ->].
  - unfold finish. set (calls := drain _). set (w0 := set_pending _ w).
    pose proof (abandon_all_committed op env calls w0 Hc) as Ha. destruct (abandon_all env calls w0) as [actions w1]. cbn [snd] in *.
    destruct Ha as (d & Hd & Ha). rewrite Hd. eexists. split; [done|]. unfold release_gate. by case_decide.
  - destruct Hc as (d & Hd & Hc). cbn [snd]. rewrite Hd. eexists. split; [done|].
    apply exec_committed; [done|]. intros Hr. apply Hl. by exists c, d.
Qed.

#[local] Instance upstream_failed_dec op e : base.Decision (upstream_failed op e).
Proof.
  destruct e as [[?|env line|?|?|?] w]; try (right; by intros (? & ? & ? & [=] & _)).
  destruct (settles env line w) as [[call s]|] eqn:Hs; [destruct (decide (s = Operations.Failed /\ if_operation call = op)) as [[-> Hop]|Hn]|].
  - left. by exists env, line, call.
  - right. intros (? & ? & call' & [= <- <-] & Hs' & Hop). cbn [snd] in Hs'. rewrite Hs in Hs'. injection Hs' as <- ->. by apply Hn.
  - right. intros (? & ? & ? & [= <- <-] & Hs' & _). cbn [snd] in Hs'. congruence.
Defined.

#[local] Instance database_licence_dec op e : base.Decision (database_licence op e).
Proof.
  destruct e as [[?|?|?|?|c] w]; try (right; by intros (? & ? & [=] & _)).
  destruct (operations w) as [d|] eqn:Hd; [|right; intros (? & ? & _ & H & _); cbn in H; congruence].
  destruct (decide (retry_licence op (c, (exec c d).1))) as [H|H]; [left; by exists c, d|].
  right. intros (? & ? & [= <-] & Hd' & H'). cbn in Hd'. congruence.
Defined.

Lemma history_committed op w evs w' : history w evs w' -> committed_at op w ->
  Forall (fun e => ~ (upstream_failed op e \/ database_licence op e)) evs ->
  committed_at op w' /\ Forall (fun e => ~ sends op e) evs.
Proof.
  induction 1 as [w|ev w evs w' _ IH]; [done|]. intros Hc [Hn Hall]%Forall_cons.
  destruct (step_committed op (ev, w) Hc) as [Hc' Hs]; [tauto..|]. destruct (IH Hc' Hall) as [? ?]. by split; [|constructor].
Qed.

Lemma history_app w evs evs' w' : history w (evs ++ evs') w' -> exists m, history w evs m /\ history m evs' w'.
Proof.
  revert w. induction evs as [|[ev w0] evs IH]; intros w H; [exists w; by split; [constructor|]|].
  inversion H as [|? ? ? ? Hr]; subst. destruct (IH _ Hr) as (m & ? & ?). exists m. by split; [constructor|].
Qed.

(** *** Properties *)

(** C2: complete mediation: in enforce mode whatever reaches the upstream is a
    message the gate could read in full, as it re-serialized it, and if it
    is a [tools/call], then the gate authorized exactly that call, its tool
    is served and has not drifted, a side effect is in flight in the operations store under
    this request for the authorized operation, and, when there is a ledger,
    its entry (an allowed, forwarded call) was appended first. *)
Theorem complete_mediation (env : Env) (line server m : string) (w w' : Interceptor) (actions : list Proxy.Action)
    (g : Gate.ToolGate) (b : EntryBase) (gate_in_force : gated w = Some (g, b)) (enforcing : Gate.mode g = Gate.Enforce)
    (handled : on_agent_line read_envelope env line w = (actions, w')) (sent : ToUpstream server m ∈ actions) :
  exists msg, from_str line = Some msg /\ screen line = Ok tt /\ m = to_text msg /\ actions = [ToUpstream server m] /\
    (method_is "tools/call" msg = true ->
     let tool := call_tool_of msg in
     let args := call_args_of msg in
     exists auth, Gate.authorize read_envelope g tool args (now env) = Ok auth /\ refuse w tool = None /\
       match Gate.auth_operation auth with
       | None => operations w' = operations w
       | Some op => exists id d', vget "id" msg = Some id /\ lookup_request (to_text id) w = None /\
           lookup_request (to_text id) w' = Some (in_flight_call tool op) /\ operations w' = Some d' /\
           state_of (Gate.key_operation op) (rows d') = Some "in_flight"
       end /\
       let draft := call_draft b g tool None (Gate.auth_operation auth) (Gate.auth_approval auth) None in
       d_decision draft = Decisions.Allow /\ d_forwarded draft = true /\
       match decision_log w with
       | None => decision_log w' = None
       | Some (st, key) => exists e st', log_append env draft (call_fingerprint g tool args) st key = Ok (e, st') /\
           decision_log w' = Some (st', key)
       end).
Proof.
  pose proof (on_agent_line_spec env line w) as H. rewrite handled in H. cbn [fst snd] in H. clear handled.
  destruct H as [actions w' Hk _ _ _|msg w1 Hm Hs Hp|Hn _]; [|exists msg|by rewrite gate_in_force in Hn].
  { apply (proj1 (Forall_forall _ _) Hk) in sent as [? [=]]. }
  apply list_elem_of_singleton in sent as [= -> ->]. split_and!; [done|apply Hs; by rewrite gate_in_force|done..|].
  unfold passes in Hp. rewrite gate_in_force in Hp. destruct Hp as [_ Hp]. intros Hcall. rewrite Hcall in Hp.
  destruct Hp as (refusal & op & appr & counted & g1 & w2 & e & Hj & Hst & _ & Hop & Hr).
  destruct (judge_enforced _ _ _ _ _ _ _ _ enforcing Hj Hst) as (auth & Ha & -> & -> & -> & Hbl).
  destruct (noted_frame (to_text msg) msg w1) as (_ & Hops & Hlog & Hby & _).
  apply record_decision_frame in Hr as [[l Hw1] Hrec].
  exists auth. split; [done|]. split; [done|]. split; [|split; [done|split; [done|]]].
  - destruct (Gate.auth_operation auth) as [op|].
    + destruct Hop as (d & id & t & Hd & Hid & _ & Hl & _ & Hb & ->).
      exists id, (mkDb t (lock d)). unfold lookup_request. rewrite Hops, Hby, Hw1.
      split; [by destruct (vget "id" msg) as [[]|]; cbn in *; congruence|]. split; [done|].
      split; [apply lookup_insert_eq|]. split; [done|].
      pose proof (begin_spec (stamp env) (Gate.key_operation op) (call_tool_of msg)
        (fingerprint_bytes (Gate.key_fingerprint op)) (rows d)) as Hbs.
      apply begins_begin in Hb. rewrite Hb in Hbs. destruct Hbs as (r & -> & Hr & _). cbn [rows].
      rewrite state_of_insert, decide_True by done. by rewrite Hr.
    + rewrite Hops, Hw1, Hop. done.
  - rewrite Hlog. assert (Hsame : decision_log w2 = decision_log w).
    { destruct (Gate.auth_operation auth); [destruct Hop as (? & ? & ? & _ & _ & _ & _ & _ & _ & ->)|rewrite Hop]; done. }
    rewrite Hsame in Hrec. destruct e as [e|].
    + destruct Hrec as (st & key & st' & -> & Hap & ->). eauto.
    + destruct Hrec as [Hn ->]. by rewrite Hsame, Hn.
Qed.

(** C4: no record, no call: when the ledger cannot be written, no
    [tools/call] is forwarded, in either mode, and the agent gets at most one
    answer. *)
Theorem unrecorded_call_fails_closed (env : Env) (line : string) (msg : value) (w : Interceptor)
    (gate_in_force : is_some (gated w) = true) (ledger : is_some (decision_log w) = true) (full_disk : writable env = false)
    (readable : from_str line = Some msg) (call : method_is "tools/call" msg = true) :
  let actions := (on_agent_line read_envelope env line w).1 in
  Forall (fun a => exists m, a = ToAgent m) actions /\ length actions <= 1.
Proof.
  cbv zeta. destruct (on_agent_line_spec env line w) as [actions w' Hk Hl _ _|msg' w1 Hm _ Hp|Hn _]; [done| |by rewrite Hn in gate_in_force].
  rewrite readable in Hm. injection Hm as <-. exfalso. unfold passes in Hp.
  destruct (gated w) as [[g b]|]; [|discriminate]. rewrite call in Hp.
  destruct Hp as [_ (refusal & op & appr & counted & g1 & w2 & e & _ & _ & _ & Hop & Hr)].
  assert (Hsame : decision_log w2 = decision_log w).
  { destruct op; [destruct Hop as (? & ? & ? & _ & _ & _ & _ & _ & _ & ->)|rewrite Hop]; done. }
  apply record_decision_frame in Hr as [_ Hr]. destruct e as [e|]; rewrite Hsame in Hr.
  - destruct Hr as (st & key & st' & _ & Ha & _). unfold log_append in Ha. by rewrite full_disk in Ha.
  - destruct Hr as [Hr _]. by rewrite Hr in ledger.
Qed.

(** A message that is not forwarded leaves nothing behind: the requests in
    flight and outstanding are the ones before, an operation keeps its state
    or, if it was about to start, is free to be retried ([failed]; still in
    flight if the store does not take that write), the drift
    watch is unchanged, and the policy counts no call it did not count
    before. *)
Theorem refused_message_leaves_nothing (env : Env) (line : string) (w w' : Interceptor) (actions : list Proxy.Action)
    (handled : on_agent_line read_envelope env line w = (actions, w'))
    (kept : forall server m, ToUpstream server m ∉ actions) :
  by_request (pending w') = by_request (pending w) /\ outstanding (pending w') = outstanding (pending w) /\
  same_catalog w w' /\
  (forall d, operations w = Some d -> exists d', operations w' = Some d' /\ lock d' = lock d /\
     forall id, state_of id (rows d') = state_of id (rows d) \/
       (~ committed (state_of id (rows d)) /\
        (state_of id (rows d') = Some "failed" \/ state_of id (rows d') = Some "in_flight"))) /\
  (forall g p, gate w = Some g -> Gate.policy g = Some p -> ids_fresh (Gate.counters p) ->
     exists g' p', gate w' = Some g' /\ Gate.policy g' = Some p' /\
       forall at_unix release tool width later, Gate.unix (now env) = Ok at_unix -> (width <= DAY)%Z -> (at_unix <= later)%Z ->
         calls_in release tool width later (Gate.counters p') = calls_in release tool width later (Gate.counters p)).
Proof.
  pose proof (on_agent_line_spec env line w) as H. rewrite handled in H. cbn [fst snd] in H. clear handled.
  destruct H as [actions w' _ _ Hq Hu|? ? ? ? ?|? ?]; [|exfalso; by eapply kept, list_elem_of_here..].
  destruct Hq as [Hc Hb Ho _ Hops]. split; [done|]. split; [done|]. split; [done|]. split.
  - intros d Hd. destruct Hops as [->|Hun]; [exists d; split_and!; [done..|]; by left|]. by eapply undone_states.
  - intros g p Hg Hp Hf. destruct Hu as [Hu|(g0 & tool & Hg0 & Ht)].
    + eapply taken_back_counts; [done|by left|done..].
    + rewrite Hg in Hg0. injection Hg0 as <-. by eapply taken_back_counts.
      Unshelve. exact "".
Qed.

(** C3: a side effect goes out at most once, end to end: over any history of
    agent messages, upstream replies, transport failures, exits, and commands
    other gates and operators run on the same database, an operation that was
    sent is sent again only after its reply settled it as [failed], or the
    database answered in between that it failed or was not applied. *)
Theorem sent_at_most_once (op : string) (w w' : Interceptor) (evs1 evs2 evs3 : list (happening * Interceptor))
    (e1 e2 : happening * Interceptor) (happened : history w (evs1 ++ e1 :: evs2 ++ e2 :: evs3) w')
    (first : sends op e1) (second : sends op e2) :
  Exists (fun e => upstream_failed op e \/ database_licence op e) evs2.
Proof.
  destruct (decide (Exists (fun e => upstream_failed op e \/ database_licence op e) evs2)) as [|Hno]; [done|exfalso].
  apply not_Exists_Forall in Hno; [|intros e; apply _]. apply history_app in happened as (m & _ & H).
  inversion H as [|ev ? ? ? Hr]; subst. apply history_app in Hr as (m' & Hr & H').
  destruct (history_committed op _ _ _ Hr (sends_committed _ _ first) Hno) as [Hc _].
  inversion H' as [|ev' ? ? ? _]; subst.
  destruct (decide (upstream_failed op (ev', m') \/ database_licence op (ev', m'))) as [[(? & ? & ? & Hf & _)|(? & ? & Hf & _)]|Hn].
  1-2: cbn in Hf; subst ev'; by destruct second as (? & ? & ? & ? & ? & [=] & _).
  apply (step_committed op (ev', m') Hc); tauto.
Qed.
End Mediation.

(** *** Concrete instances *)

Section Witnesses.
Import Toy.
#[local] Existing Instance toy_cedar.
#[local] Existing Instance t_time.
#[local] Existing Instance toy_store_text.
#[local] Instance toy_text : SerdeText := {| serde_text v := as_bytes (value_text v) |}.

(** One agent asks the tool [refund] for a refund under request 7. *)
Definition demo_env : Env := mkEnv demo_now "t" 0 true false Requested healthy.
Definition full_disk_env : Env := mkEnv demo_now "t" 0 false false Requested healthy.
Definition rpc (members : list (string * value)) : value := VObject (BTree.of_list (("jsonrpc", VString "2.0") :: members)).
Definition demo_id : value := VNumber (PosInt 7).
Definition refund_call : value :=
  rpc [("id", demo_id); ("method", VString "tools/call");
       ("params", VObject (BTree.of_list [("name", VString "refund"); ("arguments", default VNull demo_args)]))].
Definition error_reply : value := rpc [("id", demo_id); ("error", VObject [("code", VNumber (NegInt (-1)))])].
Definition demo_interceptor : Interceptor :=
  mkInterceptor (Some demo_gate) (Some (base_of demo_gate)) (Some empty_db) 0 (Some (empty_ledger, gate_key))
    (mkPendingOps ∅ ∅ false) Catalog.passthrough ∅.
Definition ask : happening := FromAgent demo_env (value_text refund_call).
Definition fail_it : happening := FromUpstream demo_env (value_text error_reply).
Definition asked : Interceptor := (on_agent_line no_envelope demo_env (value_text refund_call) demo_interceptor).2.
Definition failed : Interceptor := (on_upstream_line demo_env (value_text error_reply) asked).2.
Definition demo_op : string :=
  match Gate.auth_operation demo_auth with Some op => Gate.key_operation op | None => "" end.
Definition demo_call : InFlightCall :=
  match lookup_request (to_text demo_id) asked with Some c => c | None => mkInFlight "" "" [] end.

Lemma complete_mediation_witness :
  exists auth, Gate.authorize no_envelope demo_gate "refund" demo_args demo_now = Ok auth /\ refuse demo_interceptor "refund" = None.
Proof.
  destruct (complete_mediation no_envelope demo_env (value_text refund_call) "default" (to_text refund_call) demo_interceptor
    asked
    (on_agent_line no_envelope demo_env (value_text refund_call) demo_interceptor).1 demo_gate (base_of demo_gate)) as (msg & Hm & _ & _ & _ & H);
    [reflexivity|reflexivity|apply surjective_pairing|vm_compute; left|].
  assert (Some msg = Some refund_call) as [= ->] by (rewrite <- Hm; vm_compute; reflexivity).
  destruct H as (auth & Ha & Hb & _); [vm_compute; reflexivity|]. exists auth. split; [exact Ha|exact Hb].
Defined.

Lemma unrecorded_call_fails_closed_witness :
  length (on_agent_line no_envelope full_disk_env (value_text refund_call) demo_interceptor).1 <= 1.
Proof.
  apply (unrecorded_call_fails_closed no_envelope full_disk_env (value_text refund_call) refund_call demo_interceptor);
    vm_compute; reflexivity.
Defined.

Lemma refused_message_leaves_nothing_witness :
  by_request (pending (on_agent_line no_envelope full_disk_env (value_text refund_call) demo_interceptor).2) = ∅.
Proof.
  apply (refused_message_leaves_nothing no_envelope full_disk_env (value_text refund_call) demo_interceptor
    (on_agent_line no_envelope full_disk_env (value_text refund_call) demo_interceptor).2
    (on_agent_line no_envelope full_disk_env (value_text refund_call) demo_interceptor).1); [apply surjective_pairing|].
  intros server m Hin. vm_compute in Hin. apply list_elem_of_singleton in Hin. discriminate.
Qed.

Lemma ask_sends w : (step no_envelope map_to_list ask w).1 = [ToUpstream DEFAULT_SERVER (to_text refund_call)] -> lookup_request (to_text demo_id) w = None ->
  lookup_request (to_text demo_id) (step no_envelope map_to_list ask w).2 = Some demo_call ->
  if_operation demo_call = demo_op -> sends no_envelope map_to_list demo_op (ask, w).
Proof.
  intros Ha Hb Hc Ho. exists demo_env, (value_text refund_call), (to_text demo_id), demo_call, (to_text refund_call).
  cbn [fst snd]. split_and!; [done| |done..]. rewrite Ha. left.
Qed.

Lemma sent_at_most_once_witness :
  Exists (fun e => upstream_failed demo_op e \/ database_licence demo_op e) [(fail_it, asked)].
Proof.
  apply (sent_at_most_once no_envelope map_to_list demo_op demo_interceptor (step no_envelope map_to_list ask failed).2 []
    [(fail_it, asked)] [] (ask, demo_interceptor) (ask, failed)).
  - apply history_cons, history_cons, history_cons, history_nil.
  - apply ask_sends; vm_compute; reflexivity.
  - apply ask_sends; vm_compute; reflexivity.
Defined.
End Witnesses.
