(* ===== verification/Router.v ===== *)
(** * The gate in front of several servers ([cloakpipe-mcp/src/proxy.rs],
    [Router] and the routing half of [Interceptor])

    Routing is a layer over [Proxy]: what the gate lets through is sent to
    the server that owns the tool, under a request id of the gate's own;
    listings are collected page by page and checked against the catalog;
    replies get the agent's id back.  Request and job numbers count up from
    where they start (64-bit counters in the code, here without a bound).
    Hash maps are walked in an order that is an argument. *)

From S2P Require Import Prelude BTree Json Crates Concrete Reference Action Constraint Rules Contract Manifest.
From S2P Require Import Operations Counters Policy Approval Gate Ledger CanonicalJson Decisions ToolsLock Proxy Mediation.
From S2P Require Import Lifecycle.
From S2P Require Catalog.

Definition METHOD_NOT_FOUND : Z := -32601.
Definition PROTOCOL_VERSION : string := "2025-06-18".
Definition GATE_NAME : string := "cloakpipe-gate".
Definition CARGO_PKG_VERSION : string := "0.14.0".
Definition MAX_PAGES : nat := 1000.

(** What a request of the gate's own waits for. *)
Inductive Waiting :=
| WaitAgent (id : value) (server : nat)
| WaitList (job : Z) (server : nat).
Definition waits_at (w : Waiting) : nat := match w with WaitAgent _ s | WaitList _ s => s end.

(** Listing tools: the agent's request, or a listing again. *)
Record ListJob := mkListJob {
  job_agent : option value;
  remaining : gset nat;
  job_tools : gmap nat (list value);
  pages : nat;
}.

Record RouterState := mkRouterState {
  next_id : Z;
  next_job : Z;
  waiting : gmap Z Waiting;
  jobs : gmap Z ListJob;
  gone : gset nat;
}.
Definition set_waiting (m : gmap Z Waiting) (st : RouterState) : RouterState :=
  mkRouterState (next_id st) (next_job st) m (jobs st) (gone st).
Definition set_jobs (m : gmap Z ListJob) (st : RouterState) : RouterState :=
  mkRouterState (next_id st) (next_job st) (waiting st) m (gone st).

(** The next id, taken for what it waits for. *)
Definition await (w : Waiting) (st : RouterState) : Z * RouterState :=
  (next_id st, mkRouterState (next_id st + 1) (next_job st) (<[next_id st := w]> (waiting st)) (jobs st) (gone st)).

(** [serde_json]'s [msg[key] = v] on an object. *)
Definition set_member (key : string) (v msg : value) : value :=
  match msg with VObject m => VObject (BTree.insert key v m) | other => other end.
(** [msg["params"][key] = v]: a missing or null [params] becomes an object;
    indexing any other value with a key panics ([None]). *)
Definition set_param (key : string) (v msg : value) : option value :=
  match default VNull (vget "params" msg) with
  | VNull => Some (set_member "params" (json_obj [(key, v)]) msg)
  | VObject p => Some (set_member "params" (VObject (BTree.insert key v p)) msg)
  | _ => None
  end.

Section Router.
Context {RC : RegexCrate} {HC : HashCrates} {JC : JsonCrates} {UC : UnicodeCrate} {SC : SignatureCrates}
        {TC : TimeCrate} {CC : CedarCrate} {ST : SerdeText} {TX : StoreText} {CK : ClockCrate}.
Variable read_envelope : bytes -> option Envelope.
Variable walk : gmap Z Waiting -> list (Z * Waiting).
Variable walk_jobs : gset Z -> list Z.

(** An [Interceptor] with a router. *)
Record Gateway := mkGateway {
  inner : Interceptor;
  router_init : value;
  router_default : option nat;
  rstate : RouterState;
}.
Definition set_inner (w : Interceptor) (gw : Gateway) : Gateway := mkGateway w (router_init gw) (router_default gw) (rstate gw).
Definition set_rstate (st : RouterState) (gw : Gateway) : Gateway := mkGateway (inner gw) (router_init gw) (router_default gw) st.
Definition server_list (gw : Gateway) : list string := Catalog.servers (catalog (inner gw)).
Definition name_of (gw : Gateway) (i : nat) : string := Catalog.server_name (catalog (inner gw)) i.

(** [Router::new] *)
Definition default_index (listing : list ServerTools) : option nat :=
  match list_find (fun s => st_name s = Catalog.DEFAULT_SERVER) listing with
  | Some (i, _) => Some i
  | None => if length listing =? 1 then Some 0 else None
  end.
Definition forwarded_capabilities : list string := ["resources"; "prompts"; "completions"; "logging"].
Definition capabilities_of (listing : list ServerTools) : value :=
  let base := BTree.of_list [("tools", json_obj [("listChanged", VBool true)])] in
  VObject
    match default_index listing with
    | Some d =>
        fold_left (fun m c =>
          match (let! s := listing !! d else None in pointer "capabilities" c (st_init s)) with
          | Some v => BTree.insert c v m
          | None => m
          end) forwarded_capabilities base
    | None => base
    end.
Definition init_of (listing : list ServerTools) : value :=
  let primary := default VNull (st_init <$> listing !! default 0 (default_index listing)) in
  json_obj [("protocolVersion", default (VString PROTOCOL_VERSION) (vget "protocolVersion" primary));
            ("capabilities", capabilities_of listing);
            ("serverInfo", json_obj [("name", VString GATE_NAME); ("version", VString CARGO_PKG_VERSION)])].

Inductive servers_error := CatalogError (e : Catalog.catalog_error) | StartError (e : start_error).

(** [Interceptor::with_servers] *)
Definition with_servers (env : Env) (g : option Gate.ToolGate) (h : nat) (log : option (LedgerStore * SigningKey))
    (listing : list ServerTools) (l : option ToolsLock) : result servers_error (Gateway * list Catalog.Drift) :=
  let declares_tool (tool : string) := is_some_and g (fun g => declares g tool) in
  let? (c, drifts) := map_err CatalogError (Catalog.routed_catalog listing l declares_tool) in
  let? w := map_err StartError (build env c g h log) in
  Ok (mkGateway w (init_of listing) (default_index listing) (mkRouterState 1 0 ∅ ∅ ∅), drifts).

(** [idle] *)
Definition is_list (w : Waiting) : bool := match w with WaitList _ _ => true | WaitAgent _ _ => false end.
Definition idle (gw : Gateway) : bool := negb (existsb (fun nw => is_list nw.2) (walk (waiting (rstate gw)))).

(** [Interceptor::route]: the server a message of the agent is for. *)
Definition route_message (msg : value) (gw : Gateway) : string :=
  let fallback := name_of gw (default 0 (router_default gw)) in
  if method_is "tools/call" msg then
    match (let! t := pointer "params" "name" msg else None in let! t := as_str t else None in Catalog.route (catalog (inner gw)) t) with
    | Some (i, _) => name_of gw i
    | None => fallback
    end
  else fallback.

(** [answer] and [answer_error] *)
Definition relayed (env : Env) (line : string) (gw : Gateway) : list Proxy.Action * Gateway :=
  let '(actions, w) := relay env line (inner gw) in (actions, set_inner w gw).
Definition result_message (id result : value) : string :=
  to_text (json_obj [("jsonrpc", VString "2.0"); ("id", id); ("result", result)]).
Definition error_value (id : value) (code : Z) (message : string) (reason : option string) : value :=
  json_obj [("jsonrpc", VString "2.0"); ("id", id);
    ("error", json_obj ([("code", json_int code); ("message", VString message)]
       ++ match reason with Some r => [("data", json_obj [("reason", VString r)])] | None => [] end))].
Definition error_message (id : value) (code : Z) (message : string) (reason : option string) : string :=
  to_text (error_value id code message reason).
Definition answer_agent (env : Env) (id result : value) (gw : Gateway) : list Proxy.Action * Gateway :=
  relayed env (result_message id result) gw.
Definition answer_error (env : Env) (id : value) (code : Z) (message : string) (reason : option string) (gw : Gateway) :
    list Proxy.Action * Gateway :=
  relayed env (error_message id code message reason) gw.

(** [send_routed] *)
Definition send_routed (env : Env) (server : nat) (msg : value) (gw : Gateway) : list Proxy.Action * Gateway :=
  let id := non_null (vget "id" msg) in
  if decide (server ∈ gone (rstate gw)) then
    match id with
    | Some id => answer_error env id UPSTREAM_UNAVAILABLE ("upstream MCP server " +:+ name_of gw server +:+ " went away")
                   (Some "upstream_unavailable") gw
    | None => ([], gw)
    end
  else
    match id with
    | Some id =>
        let '(n, st) := await (WaitAgent id server) (rstate gw) in
        ([ToUpstream (name_of gw server) (to_text (set_member "id" (json_int n) msg))], set_rstate st gw)
    | None => ([ToUpstream (name_of gw server) (to_text msg)], gw)
    end.

(** [cancel] *)
Definition cancel (msg : value) (gw : Gateway) : option (list Proxy.Action) :=
  match pointer "params" "requestId" msg with
  | None => Some []
  | Some request =>
      match List.find (fun nw => match nw.2 with WaitAgent id _ => value_eqb id request | WaitList _ _ => false end) (walk (waiting (rstate gw))) with
      | Some (n, w) =>
          let! msg := set_param "requestId" (json_int n) msg else None in
          Some [ToUpstream (name_of gw (waits_at w)) (to_text msg)]
      | None => Some []
      end
  end.

(** ** Listings *)

(** [page_request] *)
Definition page_request (name : string) (job : Z) (server : nat) (cursor : option string) (st : RouterState) : Proxy.Action * RouterState :=
  let '(n, st) := await (WaitList job server) st in
  (ToUpstream name (to_text (json_obj ([("jsonrpc", VString "2.0"); ("id", json_int n); ("method", VString "tools/list")]
     ++ match cursor with Some c => [("params", json_obj [("cursor", VString c)])] | None => [] end))), st).

(** [finish_listing]: the tools of each server in order of the servers. *)
Definition observe_listing (tools : gmap nat (list value)) (n : nat) (w : Interceptor) : list value * Interceptor :=
  fold_left (fun '(merged, w) server =>
    match tools !! server with
    | Some ts => let '(visible, _, c) := Catalog.observe server ts (catalog w) in (merged ++ visible, set_catalog c w)
    | None => (merged, w)
    end) (List.seq 0 n) ([], w).
Definition finish_listing (env : Env) (listing : ListJob) (gw : Gateway) : list Proxy.Action * Gateway :=
  let '(merged, w) := observe_listing (job_tools listing) (length (server_list gw)) (inner gw) in
  let gw := set_inner w gw in
  match job_agent listing with
  | Some id => answer_agent env id (json_obj [("tools", VArray merged)]) gw
  | None => ([], gw)
  end.

(** [start_listing] *)
Fixpoint request_pages (gw : Gateway) (job : Z) (servers : list nat) (st : RouterState) : list Proxy.Action * RouterState :=
  match servers with
  | [] => ([], st)
  | s :: servers =>
      let '(a, st) := page_request (name_of gw s) job s None st in
      let '(actions, st) := request_pages gw job servers st in (a :: actions, st)
  end.
Definition start_listing (env : Env) (agent : option value) (servers : list nat) (gw : Gateway) : list Proxy.Action * Gateway :=
  let st := rstate gw in
  let live := filter (fun s => s ∉ gone st) servers in
  let job := next_job st in
  let listing := mkListJob agent (list_to_set live) ∅ 0 in
  let st := mkRouterState (next_id st) (job + 1) (waiting st) (jobs st) (gone st) in
  match live with
  | [] => finish_listing env listing (set_rstate st gw)
  | _ =>
      let '(actions, st) := request_pages gw job live (set_jobs (<[job := listing]> (jobs st)) st) in
      (actions, set_rstate st gw)
  end.

(** What one page adds, and the cursor of the next. *)
Definition take_page (server : nat) (msg : value) (limit : nat) (l : ListJob) : ListJob * option string :=
  let l := mkListJob (job_agent l) (remaining l) (job_tools l) (S (pages l)) in
  match vget "result" msg with
  | Some result =>
      let l :=
        match (let! t := vget "tools" result else None in as_array t) with
        | Some tools =>
            mkListJob (job_agent l) (remaining l) (<[server := default [] (job_tools l !! server) ++ tools]> (job_tools l)) (pages l)
        | None => l
        end in
      let next := let! c := vget "nextCursor" result else None in let! c := as_str c else None in
                  if str_is_empty c then None else Some c in
      (l, if limit <=? pages l then None else next)
  | None => (mkListJob (job_agent l) (remaining l) (delete server (job_tools l)) (pages l), None)
  end.

(** [on_page] *)
Definition on_page (env : Env) (job : Z) (server : nat) (msg : value) (gw : Gateway) : list Proxy.Action * Gateway :=
  let st := rstate gw in
  match jobs st !! job with
  | None => ([], gw)
  | Some l =>
      match take_page server msg (MAX_PAGES * length (server_list gw)) l with
      | (l, Some cursor) =>
          let '(a, st) := page_request (name_of gw server) job server (Some cursor) (set_jobs (<[job := l]> (jobs st)) st) in
          ([a], set_rstate st gw)
      | (l, None) =>
          let l := mkListJob (job_agent l) (remaining l ∖ {[server]}) (job_tools l) (pages l) in
          if decide (remaining l = ∅)
          then finish_listing env l (set_rstate (set_jobs (delete job (jobs st)) st) gw)
          else ([], set_rstate (set_jobs (<[job := l]> (jobs st)) st) gw)
      end
  end.

(** ** Messages from the agent *)

(** [dispatch] *)
Definition dispatch (env : Env) (message : string) (gw : Gateway) : option (list Proxy.Action * Gateway) :=
  match from_str message with
  | None => Some ([], gw)
  | Some msg =>
      let n := length (server_list gw) in
      match (let! m := vget "method" msg else None in as_str m), non_null (vget "id" msg) with
      | None, _ => Some ([], gw)
      | Some method, id =>
          if decide (method = "tools/call") then
            let tool := call_tool_of msg in
            match Catalog.route (catalog (inner gw)) tool with
            | Some (server, name) => let! msg := set_param "name" (VString name) msg else None in Some (send_routed env server msg gw)
            | None =>
                match vget "id" msg with
                | Some id => Some (answer_error env id TOOL_REFUSED "tool call refused by CloakPipe: tool_unavailable" (Some "tool_unavailable") gw)
                | None => Some ([], gw)
                end
            end
          else
            match id with
            | Some id =>
                if decide (method = "initialize") then Some (answer_agent env id (router_init gw) gw)
                else if decide (method = "ping") then Some (answer_agent env id (json_obj []) gw)
                else if decide (method = "tools/list") then Some (start_listing env (Some id) (List.seq 0 n) gw)
                else
                  match router_default gw with
                  | Some server => Some (send_routed env server msg gw)
                  | None =>
                      Some (answer_error env id METHOD_NOT_FOUND
                        (method +:+ " is not routed by the CloakPipe gate in front of several servers: only tools are. Give one server as --upstream (named default) to send other requests to it")
                        None gw)
                  end
            | None =>
                if decide (method = "notifications/initialized") then Some ([], gw)
                else if decide (method = "notifications/cancelled") then let! actions := cancel msg gw else None in Some (actions, gw)
                else Some (map (fun i => ToUpstream (name_of gw i) (to_text msg)) (filter (fun i => i ∉ gone (rstate gw)) (List.seq 0 n)), gw)
            end
      end
  end.

(** [on_agent_line] *)
Fixpoint dispatch_all (env : Env) (actions : list Proxy.Action) (gw : Gateway) : option (list Proxy.Action * Gateway) :=
  match actions with
  | [] => Some ([], gw)
  | a :: actions =>
      let! (out, gw) := (match a with ToUpstream _ message => dispatch env message gw | ToAgent m => Some ([ToAgent m], gw) end) else None in
      let! (rest, gw) := dispatch_all env actions gw else None in
      Some (out ++ rest, gw)
  end.
Definition on_agent_routed (env : Env) (line : string) (gw : Gateway) : option (list Proxy.Action * Gateway) :=
  let '(actions, w) := decide_agent read_envelope env line (inner gw) in dispatch_all env actions (set_inner w gw).

(** ** Messages from the servers *)

(** [on_routed_line] *)
Definition take_waiting (n : Z) (gw : Gateway) : option Waiting * Gateway :=
  (waiting (rstate gw) !! n, set_rstate (set_waiting (delete n (waiting (rstate gw))) (rstate gw)) gw).
Definition id_number (msg : value) : option Z :=
  match vget "id" msg with Some (VNumber n) => Json.as_u64 n | _ => None end.
Definition on_routed_line (env : Env) (server line : string) (gw : Gateway) : list Proxy.Action * Gateway :=
  match Catalog.index (catalog (inner gw)) server, from_str line with
  | Some index, Some msg =>
      match (let! m := vget "method" msg else None in as_str m) with
      | Some method =>
          match non_null (vget "id" msg) with
          | Some id =>
              ([ToUpstream server (error_message id METHOD_NOT_FOUND (method +:+ " is not relayed by the CloakPipe gate") None)], gw)
          | None =>
              if decide (method = "notifications/tools/list_changed") then
                let '(actions, gw) := start_listing env None [index] gw in (actions ++ [ToAgent line], gw)
              else ([ToAgent line], gw)
          end
      | None =>
          match id_number msg with
          | None => ([], gw)
          | Some n =>
              match take_waiting n gw with
              | (Some (WaitAgent id _), gw) => relayed env (to_text (set_member "id" id msg)) gw
              | (Some (WaitList job server), gw) => on_page env job server msg gw
              | (None, _) => ([], gw)
              end
          end
      end
  | _, _ => ([], gw)
  end.

(** [on_upstream_error] *)
Definition on_routed_error (env : Env) (message : string) (gw : Gateway) : list Proxy.Action * Gateway :=
  match from_str message with
  | None => ([], gw)
  | Some msg =>
      match vget "method" msg, id_number msg with
      | Some _, Some n =>
          match take_waiting n gw with
          | (Some (WaitAgent id _), gw) =>
              let request := to_text id in
              match lookup_request request (inner gw) with
              | Some call => let '(a, w) := abandon env request call (unregister request (inner gw)) in ([a], set_inner w gw)
              | None =>
                  ([ToAgent (error_message id UPSTREAM_UNAVAILABLE
                     "the upstream MCP server did not answer this request (transport error); it failed closed" (Some "upstream_unavailable"))],
                   set_inner (take_outstanding request (inner gw)) gw)
              end
          | (Some (WaitList job server), gw) =>
              on_page env job server (json_obj [("jsonrpc", VString "2.0"); ("id", json_int n);
                ("error", json_obj [("code", json_int UPSTREAM_UNAVAILABLE); ("message", VString "transport error")])]) gw
          | (None, _) => ([], gw)
          end
      | _, _ => ([], gw)
      end
  end.

(** [server_gone] *)
Definition leave_job (index : nat) (l : ListJob) : ListJob :=
  mkListJob (job_agent l) (remaining l ∖ {[index]}) (delete index (job_tools l)) (pages l).
Definition leave_one (index : nat) (acc : list ListJob * gmap Z ListJob) (job : Z) : list ListJob * gmap Z ListJob :=
  let '(finished, m) := acc in
  match m !! job with
  | None => (finished, m)
  | Some l =>
      let l := leave_job index l in
      if decide (remaining l = ∅) then (finished ++ [l], delete job m) else (finished, <[job := l]> m)
  end.
Definition leave_jobs (index : nat) (js : list Z) (m : gmap Z ListJob) : list ListJob * gmap Z ListJob :=
  fold_left (leave_one index) js ([], m).
Definition leaving (index : nat) (nws : list (Z * Waiting)) : list value * gset Z :=
  (omap (fun nw => match nw.2 with WaitAgent id s => if decide (s = index) then Some id else None | WaitList _ _ => None end) nws,
   list_to_set (omap (fun nw => match nw.2 with WaitList j s => if decide (s = index) then Some j else None | WaitAgent _ _ => None end) nws)).
Definition failed_request (env : Env) (message : string) (id : value) (gw : Gateway) : list Proxy.Action * Gateway :=
  match lookup_request (to_text id) (inner gw) with
  | Some call => let '(a, w) := abandon env (to_text id) call (unregister (to_text id) (inner gw)) in ([a], set_inner w gw)
  | None => answer_error env id UPSTREAM_UNAVAILABLE message (Some "upstream_unavailable") gw
  end.
Fixpoint fail_requests (env : Env) (message : string) (ids : list value) (gw : Gateway) : list Proxy.Action * Gateway :=
  match ids with
  | [] => ([], gw)
  | id :: ids =>
      let '(a, gw) := failed_request env message id gw in
      let '(actions, gw) := fail_requests env message ids gw in (a ++ actions, gw)
  end.
Fixpoint finish_listings (env : Env) (ls : list ListJob) (gw : Gateway) : list Proxy.Action * Gateway :=
  match ls with
  | [] => ([], gw)
  | l :: ls =>
      let '(a, gw) := finish_listing env l gw in
      let '(actions, gw) := finish_listings env ls gw in (a ++ actions, gw)
  end.
Definition server_gone (env : Env) (server : string) (gw : Gateway) : list Proxy.Action * Gateway :=
  match Catalog.index (catalog (inner gw)) server with
  | None => ([], gw)
  | Some index =>
      let st := rstate gw in
      let '(agents, js) := leaving index (walk (waiting st)) in
      let '(finished, m) := leave_jobs index (walk_jobs js) (jobs st) in
      let st := mkRouterState (next_id st) (next_job st) (filter (fun nw => waits_at nw.2 <> index) (waiting st)) m ({[index]} ∪ gone st) in
      let '(a, gw) := fail_requests env ("upstream MCP server " +:+ server +:+ " went away before answering") agents (set_rstate st gw) in
      let '(b, gw) := finish_listings env finished gw in (a ++ b, gw)
  end.
End Router.

(** ** What the router waits for

    [router_but n job pend st]: request ids are fresh, every awaited page
    belongs to an open listing, and every server an open listing misses has
    its page on the way, but those of [pend] in [job], which are to be asked
    or taken out next. *)
Record router_but (n : nat) (job : Z) (pend : gset nat) (st : RouterState) : Prop := mkRouterBut {
  but_next : (0 < next_id st)%Z;
  but_ids k w : waiting st !! k = Some w -> (0 < k < next_id st)%Z /\ waits_at w < n /\ waits_at w ∉ gone st;
  but_pages k j s : waiting st !! k = Some (WaitList j s) -> exists l, jobs st !! j = Some l /\ s ∈ remaining l;
  but_once k k' j s : waiting st !! k = Some (WaitList j s) -> waiting st !! k' = Some (WaitList j s) -> k = k';
  but_jobs j l : jobs st !! j = Some l -> (j < next_job st)%Z /\ remaining l <> ∅ /\
    forall s, s ∈ remaining l -> (j = job /\ s ∈ pend) \/ exists k, waiting st !! k = Some (WaitList j s);
  but_pend s : s ∈ pend -> s < n /\ s ∉ gone st /\ (exists l, jobs st !! job = Some l /\ s ∈ remaining l) /\
    forall k, waiting st !! k <> Some (WaitList job s);
}.
Definition router_ok (n : nat) (st : RouterState) : Prop := forall job, router_but n job ∅ st.

Lemma router_but_done n job st : router_but n job ∅ st -> router_ok n st.
Proof.
  intros [H1 H2 H3 H4 H5 _] j. constructor; try done. intros j' l Hj. destruct (H5 j' l Hj) as (? & ? & H). split_and!; [done..|].
  intros s Hs. right. by destruct (H s Hs) as [[_ []%elem_of_empty]|].
Qed.

(** A number not taken yet waits for nothing. *)
Lemma fresh_id n job pend st : router_but n job pend st -> waiting st !! next_id st = None.
Proof. intros H. destruct (waiting st !! next_id st) eqn:E; [|done]. apply (but_ids _ _ _ _ H) in E as [? _]. lia. Qed.

Lemma await_agent_ok n st id s : router_ok n st -> s < n -> s ∉ gone st -> router_ok n (await (WaitAgent id s) st).2.
Proof.
  intros Hok Hs Hg. apply (router_but_done n 0). specialize (Hok 0%Z). pose proof (fresh_id _ _ _ _ Hok) as Hf. destruct Hok as [H1 H2 H3 H4 H5 _].
  constructor; cbn; try done.
  - lia.
  - intros k w. rewrite lookup_insert. case_decide as Hk; [intros [= <-]; cbn; split; [lia|done]|]. intros Hw%H2. split; [lia|apply Hw].
  - intros k j s'. rewrite lookup_insert. case_decide; [done|apply H3].
  - intros k k' j s'. rewrite !lookup_insert. repeat case_decide; try done. apply H4.
  - intros j l Hj. destruct (H5 j l Hj) as (? & ? & H). split_and!; [done..|]. intros s' Hs'.
    destruct (H s' Hs') as [[_ []%elem_of_empty]|[k Hk]]. right. exists k. by rewrite lookup_insert_ne by congruence.
Qed.

Lemma await_page_ok n job pend st s : router_but n job pend st -> s ∈ pend -> router_but n job (pend ∖ {[s]}) (await (WaitList job s) st).2.
Proof.
  intros Hok Hs. pose proof (fresh_id _ _ _ _ Hok) as Hf. destruct Hok as [H1 H2 H3 H4 H5 H6]. destruct (H6 s Hs) as (Hsn & Hsg & Hl & Hno).
  constructor; cbn.
  - lia.
  - intros k w. rewrite lookup_insert. case_decide as Hk; [intros [= <-]; cbn; split; [lia|done]|]. intros Hw%H2. split; [lia|apply Hw].
  - intros k j s'. rewrite lookup_insert. case_decide; [by intros [= <- <-]|apply H3].
  - intros k k' j s' [[<- [= <- <-]]|[_ Ha]]%lookup_insert_Some [[<- Hb]|[_ Hb]]%lookup_insert_Some; [done|by apply Hno in Hb| |by eapply H4].
    injection Hb as <- <-. by apply Hno in Ha.
  - intros j l Hj. destruct (H5 j l Hj) as (? & ? & H). split_and!; [done..|]. intros s' Hs'.
    destruct (H s' Hs') as [[-> Hp]|[k Hk]].
    + destruct (decide (s' = s)) as [->|Hne]; [right; exists (next_id st); apply lookup_insert_eq|left; set_solver].
    + right. exists k. by rewrite lookup_insert_ne by congruence.
  - intros s' [Hs' Hne]%elem_of_difference. destruct (H6 s' Hs') as (? & ? & ? & Hno'). split_and!; [done..|].
    intros k. rewrite lookup_insert. case_decide; [|done]. intros [= <-]. set_solver.
Qed.

(** The page of [s] arrived. *)
Lemma page_taken n st k job s : router_ok n st -> waiting st !! k = Some (WaitList job s) ->
  router_but n job {[s]} (set_waiting (delete k (waiting st)) st).
Proof.
  intros Hok Hk. destruct (Hok job) as [H1 H2 H3 H4 H5 _]. constructor; cbn; [done| | | | |].
  - intros k' w [_ Hw]%lookup_delete_Some. by apply H2.
  - intros k' j s' [_ Hw]%lookup_delete_Some. by eapply H3.
  - intros k1 k2 j s' [_ Ha]%lookup_delete_Some [_ Hb]%lookup_delete_Some. by eapply H4.
  - intros j l Hj. destruct (H5 j l Hj) as (? & ? & H). split_and!; [done..|]. intros s' Hs'.
    destruct (H s' Hs') as [[_ []%elem_of_empty]|[k' Hk']]. destruct (decide (k' = k)) as [->|Hne]; [left|right].
    + rewrite Hk in Hk'. injection Hk' as <- <-. set_solver.
    + exists k'. by rewrite lookup_delete_ne.
  - intros s' ->%elem_of_singleton. destruct (H2 _ _ Hk) as (_ & ? & ?). split_and!; [done..|by eapply H3|].
    intros k' [Hne Hk']%lookup_delete_Some. apply Hne. by eapply H4.
Qed.

Lemma agent_taken n st k : router_ok n st -> (forall j s, waiting st !! k <> Some (WaitList j s)) ->
  router_ok n (set_waiting (delete k (waiting st)) st).
Proof.
  intros Hok Hk. apply (router_but_done n 0). destruct (Hok 0%Z) as [H1 H2 H3 H4 H5 _]. constructor; cbn; try done.
  - intros k' w [_ Hw]%lookup_delete_Some. by apply H2.
  - intros k' j s' [_ Hw]%lookup_delete_Some. by eapply H3.
  - intros k1 k2 j s' [_ Ha]%lookup_delete_Some [_ Hb]%lookup_delete_Some. by eapply H4.
  - intros j l Hj. destruct (H5 j l Hj) as (? & ? & H). split_and!; [done..|]. intros s' Hs'.
    destruct (H s' Hs') as [[_ []%elem_of_empty]|[k' Hk']]. right. exists k'. rewrite lookup_delete_ne; [done|]. intros ->. by apply (Hk j s').
Qed.

(** A listing goes on with the same servers missing. *)
Lemma listing_kept n job pend st l l' : router_but n job pend st -> jobs st !! job = Some l -> remaining l' = remaining l ->
  router_but n job pend (set_jobs (<[job := l']> (jobs st)) st).
Proof.
  intros [H1 H2 H3 H4 H5 H6] Hj Hr. constructor; cbn; [done..| |done| |].
  - intros k j s Hw. destruct (H3 k j s Hw) as (l0 & Hl & Hs). rewrite lookup_insert. case_decide as Hjj; [|eauto].
    subst j. rewrite Hj in Hl. injection Hl as <-. exists l'. by rewrite Hr.
  - intros j l0. rewrite lookup_insert. case_decide as Hjj; [|apply H5]. intros [= <-]. subst j. rewrite Hr. by apply H5.
  - intros s Hs. destruct (H6 s Hs) as (? & ? & (l0 & Hl & Hin) & ?). split_and!; [done..| |done].
    rewrite lookup_insert_eq. exists l'. rewrite Hj in Hl. injection Hl as <-. by rewrite Hr.
Qed.

(** A server is done with in a listing. *)
Definition without (s : nat) (l : ListJob) : gset nat := remaining l ∖ {[s]}.
Lemma server_done n job st l l' s : router_but n job {[s]} st -> jobs st !! job = Some l -> remaining l' = without s l ->
  router_ok n (set_jobs (if decide (remaining l' = ∅) then delete job (jobs st) else <[job := l']> (jobs st)) st).
Proof.
  intros [H1 H2 H3 H4 H5 H6] Hj Hr. apply (router_but_done n job). destruct (H6 s) as (_ & _ & _ & Hno); [set_solver|].
  assert (Hpage : forall k s', waiting st !! k = Some (WaitList job s') -> s' ∈ remaining l').
  { intros k s' Hw. destruct (H3 _ _ _ Hw) as (l0 & Hl & Hs). rewrite Hj in Hl. injection Hl as <-. rewrite Hr. unfold without.
    destruct (decide (s' = s)) as [->|]; [by destruct (Hno k)|set_solver]. }
  assert (Hjob : forall s', s' ∈ remaining l' -> exists k, waiting st !! k = Some (WaitList job s')).
  { intros s' Hs'. rewrite Hr in Hs'. unfold without in Hs'. destruct (H5 job l Hj) as (_ & _ & H).
    destruct (H s') as [[_ ?]|?]; [set_solver|set_solver|done]. }
  constructor; cbn; [done..| |done| |intros ? []%elem_of_empty].
  - intros k j s' Hw. destruct (decide (j = job)) as [->|Hjj].
    + exists l'. case_decide as He; [exfalso; specialize (Hpage _ _ Hw); set_solver|]. rewrite lookup_insert_eq. split; [done|by eapply Hpage].
    + destruct (H3 k j s' Hw) as (l0 & Hl & Hs). exists l0. case_decide; [by rewrite lookup_delete_ne|by rewrite lookup_insert_ne].
  - intros j l0 Hl0. destruct (decide (j = job)) as [->|Hjj].
    + case_decide as He; [by rewrite lookup_delete_eq in Hl0|]. rewrite lookup_insert_eq in Hl0. injection Hl0 as <-.
      split_and!; [by apply (H5 job l)|done|]. intros s' Hs'. right. by apply Hjob.
    + assert (Hl : jobs st !! j = Some l0) by (case_decide; [by rewrite lookup_delete_ne in Hl0|by rewrite lookup_insert_ne in Hl0]).
      destruct (H5 j l0 Hl) as (? & ? & H). split_and!; [done..|]. intros s' Hs'. right. by destruct (H s' Hs') as [[? _]|].
Qed.

(** A listing is opened. *)
Lemma listing_opened n st l : router_ok n st -> remaining l <> ∅ -> (forall s, s ∈ remaining l -> s < n /\ s ∉ gone st) ->
  router_but n (next_job st) (remaining l)
    (mkRouterState (next_id st) (next_job st + 1) (waiting st) (<[next_job st := l]> (jobs st)) (gone st)).
Proof.
  intros Hok Hl Hs. destruct (Hok 0%Z) as [H1 H2 H3 H4 H5 _].
  assert (Hno : forall k s, waiting st !! k <> Some (WaitList (next_job st) s)).
  { intros k s Hw. destruct (H3 _ _ _ Hw) as (l0 & Hl0 & _). apply H5 in Hl0 as [? _]. lia. }
  constructor; cbn; [done..| |done| |].
  - intros k j s Hw. rewrite lookup_insert_ne by (intros <-; by eapply Hno). by eapply H3.
  - intros j l0. rewrite lookup_insert. case_decide as Hjj.
    + intros [= <-]. subst j. split_and!; [lia|done|]. intros s Hin. by left.
    + intros Hl0. destruct (H5 j l0 Hl0) as (? & ? & H). split_and!; [lia|done|]. intros s Hin. right.
      by destruct (H s Hin) as [[_ []%elem_of_empty]|].
  - intros s Hin. destruct (Hs s Hin) as [? ?]. split_and!; [done..| |intros k; apply Hno].
    rewrite lookup_insert_eq. by exists l.
Qed.

(** [job] after a server is gone. *)
Definition left_job (index : nat) (l : option ListJob) : option ListJob :=
  let! l := l else None in if decide (remaining (leave_job index l) = ∅) then None else Some (leave_job index l).

Lemma leave_one_spec i fin m job j :
  (leave_one i (fin, m) job).2 !! j = if decide (j = job) then left_job i (m !! j) else m !! j.
Proof.
  unfold leave_one, left_job. destruct (m !! job) as [l|] eqn:Hl; cbv zeta.
  - destruct (decide (j = job)) as [->|Hne].
    + rewrite Hl. case_decide; cbn [snd]; [apply lookup_delete_eq|apply lookup_insert_eq].
    + case_decide; cbn [snd]; [by apply lookup_delete_ne|by apply lookup_insert_ne].
  - destruct (decide (j = job)) as [->|Hne]; [by rewrite Hl|done].
Qed.

Lemma leave_jobs_spec i js m j : NoDup js ->
  (leave_jobs i js m).2 !! j = if decide (j ∈ js) then left_job i (m !! j) else m !! j.
Proof.
  unfold leave_jobs. intros Hd. generalize (@nil ListJob) as fin. revert m.
  induction Hd as [|job js Hn Hd IH]; intros m fin; [by rewrite decide_False by apply not_elem_of_nil|].
  cbn [fold_left]. rewrite (surjective_pairing (leave_one i (fin, m) job)), IH, leave_one_spec. destruct (decide (j = job)) as [->|Hne].
  - rewrite decide_False by done. by rewrite decide_True by left.
  - destruct (decide (j ∈ js)) as [H|H]; [by rewrite decide_True by by right|]. rewrite decide_False; [done|]. by intros [?|?]%elem_of_cons.
Qed.

(** The listings it was the last server of. *)
Definition last_page (index : nat) (l : ListJob) : option ListJob :=
  if decide (remaining (leave_job index l) = ∅) then Some (leave_job index l) else None.
Lemma leave_jobs_finished i js m : NoDup js -> (leave_jobs i js m).1 = omap (fun j => m !! j ≫= last_page i) js.
Proof.
  unfold leave_jobs. intros Hd.
  assert (H : forall fin, (fold_left (leave_one i) js (fin, m)).1 = fin ++ omap (fun j => m !! j ≫= last_page i) js); [|by apply H].
  revert m. induction Hd as [|job js Hn Hd IH]; intros m fin; [by rewrite app_nil_r|]. cbn [fold_left omap list_omap].
  rewrite (surjective_pairing (leave_one i (fin, m) job)), IH.
  assert (Hsame : omap (fun j => (leave_one i (fin, m) job).2 !! j ≫= last_page i) js = omap (fun j => m !! j ≫= last_page i) js).
  { apply list_omap_ext, Forall_Forall2_diag, Forall_forall. intros j Hj. rewrite leave_one_spec, decide_False; [done|]. by intros ->. }
  rewrite Hsame. unfold leave_one, last_page. destruct (m !! job) as [l|]; cbn; [|done]. case_decide; cbn; [by rewrite <- app_assoc|done].
Qed.

(** A server is gone: nothing waits for it any more. *)
Lemma server_left n st i m (js : list Z) : router_ok n st -> (forall j, j ∈ js <-> exists k, waiting st !! k = Some (WaitList j i)) ->
  (forall j, m !! j = if decide (j ∈ js) then left_job i (jobs st !! j) else jobs st !! j) ->
  router_ok n (mkRouterState (next_id st) (next_job st) (filter (fun nw => waits_at nw.2 <> i) (waiting st)) m ({[i]} ∪ gone st)).
Proof.
  intros Hok Hjs Hm. apply (router_but_done n 0). destruct (Hok 0%Z) as [H1 H2 H3 H4 H5 _].
  assert (Hleft : forall j l s, jobs st !! j = Some l -> s ∈ remaining l -> s <> i -> exists l', m !! j = Some l' /\ s ∈ remaining l').
  { intros j l s Hl Hs Hne. rewrite Hm, Hl. case_decide; [|eauto]. unfold left_job. cbn [default].
    assert (s ∈ remaining (leave_job i l)) by (cbn; set_solver). case_decide; [set_solver|eauto]. }
  constructor; cbn; [done| | | | |intros s []%elem_of_empty].
  - intros k w [Hw Hi]%map_lookup_filter_Some. cbn in Hi. destruct (H2 _ _ Hw) as (? & ? & ?). split_and!; [lia..|set_solver].
  - intros k j s [Hw Hi]%map_lookup_filter_Some. cbn in Hi. destruct (H3 _ _ _ Hw) as (l & Hl & Hs). by eapply Hleft.
  - intros k k' j s [Ha _]%map_lookup_filter_Some [Hb _]%map_lookup_filter_Some. by eapply H4.
  - intros j l Hl. rewrite Hm in Hl. assert (Hfrom : exists l0, jobs st !! j = Some l0 /\ remaining l <> ∅ /\ (forall s, s ∈ remaining l -> s ∈ remaining l0 /\ s <> i)).
    { destruct (decide (j ∈ js)) as [Hj|Hj].
      - unfold left_job in Hl. destruct (jobs st !! j) as [l0|]; [|done]. case_decide as He; [done|]. injection Hl as <-. exists l0.
        split_and!; [done..|]. intros s Hs. cbn in Hs. set_solver.
      - exists l. destruct (H5 j l Hl) as (_ & ? & H). split_and!; [done..|]. intros s Hs. split; [done|]. intros ->. apply Hj, Hjs.
        by destruct (H i Hs) as [[_ []%elem_of_empty]|]. }
    destruct Hfrom as (l0 & Hl0 & Hne & Hs). destruct (H5 j l0 Hl0) as (? & _ & H). split_and!; [done..|]. intros s Hin. right.
    destruct (Hs s Hin) as [Hin0 Hi]. destruct (H s Hin0) as [[_ []%elem_of_empty]|[k Hk]]. exists k. by apply map_lookup_filter_Some.
Qed.

(** ** The gateway's steps *)

Section Gateway.
Context {RC : RegexCrate} {HC : HashCrates} {JC : JsonCrates} {UC : UnicodeCrate} {SC : SignatureCrates}
        {TC : TimeCrate} {CC : CedarCrate} {ST : SerdeText} {TX : StoreText} {CK : ClockCrate}.
Variable read_envelope : bytes -> option Envelope.
Variable walk : gmap Z Waiting -> list (Z * Waiting).
Variable walk_jobs : gset Z -> list Z.

(** What the transports report, in front of several servers. *)
Inductive arrival :=
| AgentLine (env : Env) (line : string)
| ServerLine (env : Env) (server line : string)
| SendFailed (env : Env) (message : string)
| ServerGone (env : Env) (server : string).

(** [None]: the handler panics. *)
Definition arrive (ev : arrival) (gw : Gateway) : option (list Proxy.Action * Gateway) :=
  match ev with
  | AgentLine env line => on_agent_routed read_envelope walk env line gw
  | ServerLine env server line => Some (on_routed_line env server line gw)
  | SendFailed env message => Some (on_routed_error env message gw)
  | ServerGone env server => Some (server_gone walk walk_jobs env server gw)
  end.

Inductive arrivals : Gateway -> list (arrival * Gateway) -> Gateway -> Prop :=
| arrivals_nil gw : arrivals gw [] gw
| arrivals_cons ev gw actions gw1 evs gw2 : arrive ev gw = Some (actions, gw1) -> arrivals gw1 evs gw2 ->
    arrivals gw ((ev, gw) :: evs) gw2.

Definition servers_of (gw : Gateway) : nat := length (server_list gw).

(** Every index the router uses is a server's. *)
Record gateway_ok (gw : Gateway) : Prop := mkGatewayOk {
  ok_routed : Catalog.routed (catalog (inner gw)) = true;
  ok_catalog : Catalog.catalog_ok (catalog (inner gw));
  ok_default d : router_default gw = Some d -> d < servers_of gw;
  ok_router : router_ok (servers_of gw) (rstate gw);
}.

(** What the interceptor underneath may do: its catalog only learns. *)
Record follows (gw gw' : Gateway) : Prop := mkFollows {
  follows_grows : Catalog.grows (catalog (inner gw)) (catalog (inner gw'));
  follows_ok : Catalog.catalog_ok (catalog (inner gw)) -> Catalog.catalog_ok (catalog (inner gw'));
  follows_default : router_default gw' = router_default gw;
}.
#[local] Instance follows_preorder : PreOrder follows.
Proof.
  split; [by intros gw; constructor|]. intros a b c [] []. constructor; [by etrans|auto|congruence].
Qed.

Lemma follows_servers gw gw' : follows gw gw' -> servers_of gw' = servers_of gw.
Proof. intros [Hg _ _]. unfold servers_of, server_list. by rewrite (Catalog.grows_servers _ _ Hg). Qed.
Lemma follows_gateway gw gw' : follows gw gw' -> gateway_ok gw -> router_ok (servers_of gw) (rstate gw') -> gateway_ok gw'.
Proof.
  intros Hf [H1 H2 H3 _] H. pose proof (follows_servers _ _ Hf) as Hs. destruct Hf as [Hg Hk Hd]. constructor.
  - by rewrite (Catalog.grows_routed _ _ Hg).
  - by apply Hk.
  - intros d. rewrite Hd, Hs. apply H3.
  - by rewrite Hs.
Qed.
Lemma same_catalog_follows gw w : same_catalog (inner gw) w -> follows gw (set_inner w gw).
Proof. intros (_ & _ & H & _). constructor; cbn; by rewrite ?H. Qed.

Lemma relayed_follows env line gw : follows gw (relayed env line gw).2 /\ rstate (relayed env line gw).2 = rstate gw.
Proof.
  unfold relayed. pose proof (relay_catalog env line (inner gw)) as H. destruct (relay env line (inner gw)) as [a w]. cbn [snd] in *.
  split; [by apply same_catalog_follows|done].
Qed.

Lemma observe_listing_follows tools n gw : n <= servers_of gw -> follows gw (set_inner (observe_listing tools n (inner gw)).2 gw).
Proof.
  unfold observe_listing. intros Hn. assert (H : forall l merged w, Forall (fun s => s < servers_of gw) l -> follows gw (set_inner w gw) ->
    follows gw (set_inner (fold_left (fun '(merged, w) server =>
      match tools !! server with
      | Some ts => let '(visible, _, c) := Catalog.observe server ts (catalog w) in (merged ++ visible, set_catalog c w)
      | None => (merged, w)
      end) l (merged, w)).2 gw)).
  2:{ apply H; [|by destruct gw]. apply Forall_forall. intros s Hs%list_elem_of_In%in_seq. lia. }
  induction l as [|s l IH]; intros merged w Hl Hf; [done|]. apply Forall_cons in Hl as [Hs Hl]. cbn [fold_left].
  destruct (tools !! s) as [ts|]; [|by apply IH]. unfold Catalog.observe.
  destruct (Catalog.observe_all s ts (catalog w)) as [[[vis dr] cl] c] eqn:Ho. apply Catalog.observe_all_spec in Ho as (Hg & Hk & _).
  apply IH; [done|]. etransitivity; [exact Hf|]. constructor; [exact Hg| |done]. intros Hc. apply Hk; [exact Hc|].
  apply follows_servers in Hf. unfold servers_of, server_list in *. cbn in Hf. by rewrite Hf.
Qed.

Lemma finish_listing_follows env l gw : follows gw (finish_listing env l gw).2 /\ rstate (finish_listing env l gw).2 = rstate gw.
Proof.
  unfold finish_listing. pose proof (observe_listing_follows (job_tools l) (length (server_list gw)) gw (le_n _)) as H.
  destruct (observe_listing _ _ _) as [merged w]. cbn [snd] in H. destruct (job_agent l) as [id|]; [|done].
  destruct (relayed_follows env (result_message id (json_obj [("tools", VArray merged)])) (set_inner w gw)) as [H1 H2].
  split; [by etransitivity|exact H2].
Qed.

Lemma finish_listings_follows env ls gw : follows gw (finish_listings env ls gw).2 /\ rstate (finish_listings env ls gw).2 = rstate gw.
Proof.
  revert gw. induction ls as [|l ls IH]; intros gw; [done|]. cbn [finish_listings].
  destruct (finish_listing_follows env l gw) as [H1 H2]. destruct (finish_listing env l gw) as [a gw1]. cbn [snd] in *.
  destruct (IH gw1) as [H3 H4]. destruct (finish_listings env ls gw1) as [b gw2]. cbn [snd] in *. split; [by etransitivity|congruence].
Qed.

Lemma failed_request_follows env m id gw : follows gw (failed_request env m id gw).2 /\ rstate (failed_request env m id gw).2 = rstate gw.
Proof.
  unfold failed_request. destruct (lookup_request (to_text id) (inner gw)) as [call|]; [|apply relayed_follows].
  pose proof (abandon_catalog env (to_text id) call (unregister (to_text id) (inner gw))) as Ha.
  destruct (abandon _ _ _ _) as [a w]. cbn [snd] in *. split; [by apply same_catalog_follows|done].
Qed.
Lemma fail_requests_follows env m ids gw : follows gw (fail_requests env m ids gw).2 /\ rstate (fail_requests env m ids gw).2 = rstate gw.
Proof.
  revert gw. induction ids as [|id ids IH]; intros gw; [done|]. cbn [fail_requests].
  destruct (failed_request_follows env m id gw) as [H1 H2]. destruct (failed_request env m id gw) as [a gw1]. cbn [snd] in *.
  destruct (IH gw1) as [H3 H4]. destruct (fail_requests env m ids gw1) as [b gw2]. cbn [snd] in *. split; [by etransitivity|congruence].
Qed.

(** Request ids count up, and one that nothing waits for stays that way. *)
Record ids_kept (st st' : RouterState) : Prop := mkIdsKept {
  kept_next : (next_id st <= next_id st')%Z;
  kept_waiting k w : (k < next_id st)%Z -> waiting st' !! k = Some w -> waiting st !! k = Some w;
  kept_gone : gone st ⊆ gone st';
}.
#[local] Instance ids_kept_preorder : PreOrder ids_kept.
Proof.
  split; [by intros st; constructor|]. intros a b c [] []. constructor; [lia| |by etrans]. intros k w Hk Hw. auto with lia.
Qed.
Lemma await_kept w st : ids_kept st (await w st).2.
Proof. constructor; cbn; [lia| |done]. intros k w' Hk. by rewrite lookup_insert_ne by lia. Qed.
Lemma taken_kept k st : ids_kept st (set_waiting (delete k (waiting st)) st).
Proof. constructor; cbn; [done| |done]. intros k' w _ [_ Hw]%lookup_delete_Some. done. Qed.
Lemma same_kept st st' : next_id st' = next_id st -> waiting st' = waiting st -> gone st' = gone st -> ids_kept st st'.
Proof. intros H1 H2 H3. constructor; by rewrite ?H1, ?H2, ?H3. Qed.

(** A step from one well-formed state to another. *)
Record steps_to (gw gw' : Gateway) : Prop := mkSteps {
  steps_follow : follows gw gw';
  steps_ok : gateway_ok gw';
  steps_ids : ids_kept (rstate gw) (rstate gw');
}.
Lemma steps_trans gw1 gw2 gw3 : steps_to gw1 gw2 -> steps_to gw2 gw3 -> steps_to gw1 gw3.
Proof. intros [H1 _ H2] [H3 H4 H5]. constructor; [by etransitivity|done|by etransitivity]. Qed.
Lemma quietly gw gw' : gateway_ok gw -> follows gw gw' /\ rstate gw' = rstate gw -> steps_to gw gw'.
Proof. intros Hok [Hf Hr]. constructor; [done| |by rewrite Hr]. apply (follows_gateway _ _ Hf Hok). rewrite Hr. apply Hok. Qed.
Lemma set_rstate_follows st gw : follows gw (set_rstate st gw).
Proof. by constructor. Qed.
Lemma set_rstate_steps st gw : gateway_ok gw -> router_ok (servers_of gw) st -> ids_kept (rstate gw) st -> steps_to gw (set_rstate st gw).
Proof. intros Hok H Hi. constructor; [apply set_rstate_follows| |done]. exact (follows_gateway _ _ (set_rstate_follows st gw) Hok H). Qed.

Lemma send_routed_steps env server msg gw : gateway_ok gw -> server < servers_of gw -> steps_to gw (send_routed env server msg gw).2.
Proof.
  intros Hok Hs. unfold send_routed. assert (H : steps_to gw gw) by by apply quietly.
  destruct (decide (server ∈ gone (rstate gw))) as [Hg|Hg].
  - destruct (non_null (vget "id" msg)) as [id|]; [|done]. by apply quietly, relayed_follows.
  - destruct (non_null (vget "id" msg)) as [id|]; [|done]. apply set_rstate_steps; [done| |apply await_kept]. by apply await_agent_ok; [apply Hok|..].
Qed.

Lemma request_pages_ok n gw job servers st : NoDup servers -> router_but n job (list_to_set servers) st ->
  router_ok n (request_pages gw job servers st).2.
Proof.
  intros Hd. revert st. induction Hd as [|s servers Hs Hd IH]; intros st H; cbn [request_pages]; [by apply (router_but_done _ job)|].
  unfold page_request. pose proof (await_page_ok n job (list_to_set (s :: servers)) st s H) as Ha.
  destruct (await (WaitList job s) st) as [k st1]. specialize (IH st1). destruct (request_pages gw job servers st1) as [actions st2].
  apply IH. cbn [snd] in Ha. replace (list_to_set servers) with (list_to_set (s :: servers) ∖ {[s]} : gset nat) by set_solver.
  apply Ha. set_solver.
Qed.

Lemma request_pages_kept gw job servers st : ids_kept st (request_pages gw job servers st).2.
Proof.
  revert st. induction servers as [|s servers IH]; intros st; cbn [request_pages]; [done|]. unfold page_request.
  pose proof (await_kept (WaitList job s) st) as Ha. destruct (await (WaitList job s) st) as [k st1]. specialize (IH st1).
  destruct (request_pages gw job servers st1). by etransitivity.
Qed.

Lemma start_listing_steps env agent servers gw : gateway_ok gw -> NoDup servers -> Forall (fun s => s < servers_of gw) servers ->
  steps_to gw (start_listing env agent servers gw).2.
Proof.
  intros Hok Hd Hs. unfold start_listing. set (live := filter _ servers). set (st := mkRouterState _ (next_job _ + 1) _ _ _).
  assert (Hst : router_ok (servers_of gw) st).
  { intros j. destruct (ok_router _ Hok j) as [H1 H2 H3 H4 H5 H6]. constructor; try done. intros j' l Hj. destruct (H5 j' l Hj) as (? & ? & ?).
    split_and!; [cbn; lia|done..]. }
  assert (Hl : live = [] \/ live <> []) by (destruct live; [by left|by right]).
  destruct Hl as [->|Hl].
  - pose proof (set_rstate_steps st gw Hok Hst (same_kept (rstate gw) st eq_refl eq_refl eq_refl)) as H. apply (steps_trans _ _ _ H). apply quietly; [apply H|apply finish_listing_follows].
  - set (l := mkListJob _ _ _ _). pose proof (listing_opened (servers_of gw) (rstate gw) l (ok_router _ Hok)) as Ho.
    assert (Hr : steps_to gw (set_rstate (request_pages gw (next_job (rstate gw)) live (set_jobs (<[next_job (rstate gw) := l]> (jobs st)) st)).2 gw)).
    { apply set_rstate_steps; [done| |etransitivity; [|apply request_pages_kept]; by apply same_kept]. apply request_pages_ok; [by apply NoDup_filter|]. apply Ho; cbn.
      - destruct live; [done|]. set_solver.
      - intros s [Hg Hin]%elem_of_list_to_set%list_elem_of_filter. rewrite Forall_forall in Hs. by split; [apply Hs|]. }
    destruct live; [done|]. by destruct (request_pages _ _ _ _).
Qed.

Lemma take_page_remaining server msg limit l : remaining (take_page server msg limit l).1 = remaining l.
Proof. unfold take_page. repeat case_match; done. Qed.

Lemma on_page_steps env job server msg gw st : gateway_ok gw -> router_but (servers_of gw) job {[server]} st ->
  ids_kept (rstate gw) st -> steps_to gw (on_page env job server msg (set_rstate st gw)).2.
Proof.
  intros Hok H Hids. unfold on_page. cbn [rstate set_rstate]. destruct (but_pend _ _ _ _ H server) as (Hs & _ & (l & Hl & Hin) & _); [set_solver|].
  rewrite Hl. pose proof (take_page_remaining server msg (MAX_PAGES * length (server_list (set_rstate st gw))) l) as Hr.
  destruct (take_page _ _ _ _) as [l1 [cursor|]]; cbn [fst] in Hr.
  - unfold page_request. set (st1 := set_jobs _ st).
    assert (H1 : router_but (servers_of gw) job {[server]} st1) by by eapply listing_kept.
    apply (await_page_ok _ _ _ _ server) in H1; [|set_solver]. pose proof (await_kept (WaitList job server) st1) as Hk. destruct (await (WaitList job server) st1) as [k st2]. cbn [snd] in *.
    apply (set_rstate_steps st2 gw Hok); [|etransitivity; [exact Hids|]; etransitivity; [|exact Hk]; by apply same_kept].
    apply (router_but_done _ job). by replace ({[server]} ∖ {[server]} : gset nat) with (∅ : gset nat) in H1 by set_solver.
  - set (l2 := mkListJob _ _ _ _). pose proof (server_done _ _ _ l l2 server H Hl) as Hd. specialize (Hd ltac:(unfold without; cbn; by rewrite Hr)).
    assert (Hk : forall m, ids_kept (rstate gw) (set_jobs m st)) by (intros m; etransitivity; [exact Hids|]; by apply same_kept).
    destruct (decide (remaining l2 = ∅)) as [He|He].
    + pose proof (set_rstate_steps _ gw Hok Hd (Hk _)) as Hst. apply (steps_trans _ _ _ Hst). apply quietly; [apply Hst|].
      apply (finish_listing_follows env l2).
    + exact (set_rstate_steps _ gw Hok Hd (Hk _)).
Qed.

Lemma index_lt gw s i : Catalog.index (catalog (inner gw)) s = Some i -> i < servers_of gw.
Proof.
  unfold Catalog.index, servers_of, server_list. destruct (list_find _ _) as [[j x]|] eqn:Hf; [|done]. intros [= <-].
  apply list_find_Some in Hf as (H & _). by eapply lookup_lt_Some.
Qed.
Lemma route_lt gw tool i name : gateway_ok gw -> Catalog.route (catalog (inner gw)) tool = Some (i, name) -> i < servers_of gw.
Proof. intros [Hr Hc _ _]. unfold Catalog.route. rewrite Hr. intros H. by apply (Hc _ _ _ H). Qed.

Lemma dispatch_steps env message gw actions gw' : gateway_ok gw -> dispatch walk env message gw = Some (actions, gw') -> steps_to gw gw'.
Proof.
  intros Hok. assert (H0 : steps_to gw gw) by by apply quietly. unfold dispatch. destruct (from_str message) as [msg|]; [|by intros [= <- <-]].
  assert (Hsnd : forall r : list Proxy.Action * Gateway, steps_to gw r.2 -> Some r = Some (actions, gw') -> steps_to gw gw') by by intros r H [= ->].
  assert (Hans : forall line, steps_to gw (relayed env line gw).2) by (intros line; apply quietly, relayed_follows; done).
  destruct (let! m := vget "method" msg else None in as_str m) as [method|]; [|by intros [= <- <-]].
  case_decide.
  { destruct (Catalog.route _ _) as [[i name]|] eqn:Hr.
    - destruct (set_param "name" (VString name) msg) as [m|]; [|done]. apply Hsnd, send_routed_steps; [done|]. by eapply route_lt.
    - destruct (vget "id" msg); [|by intros [= <- <-]]. apply Hsnd, Hans. }
  destruct (non_null (vget "id" msg)) as [id|].
  - repeat case_decide; [by apply Hsnd, Hans|by apply Hsnd, Hans| |].
    + apply Hsnd, start_listing_steps; [done|apply NoDup_ListNoDup, seq_NoDup|]. apply Forall_forall. intros s Hs%list_elem_of_In%in_seq. unfold servers_of. lia.
    + destruct (router_default gw) as [d|] eqn:Hd; [|by apply Hsnd, Hans]. apply Hsnd, send_routed_steps; [done|]. by apply Hok.
  - repeat case_decide; [by intros [= <- <-]| |by intros [= <- <-]]. destruct (cancel walk msg gw) as [a|]; [|done]. by intros [= <- <-].
Qed.

Lemma dispatch_all_steps env messages gw actions gw' : gateway_ok gw -> dispatch_all walk env messages gw = Some (actions, gw') -> steps_to gw gw'.
Proof.
  revert gw actions. induction messages as [|a messages IH]; intros gw actions Hok; cbn [dispatch_all]; [intros [= <- <-]; by apply quietly|].
  destruct (match a with ToUpstream _ message => dispatch walk env message gw | ToAgent m => Some ([ToAgent m], gw) end) as [[out gw1]|] eqn:Ha; [|done].
  assert (H1 : steps_to gw gw1).
  { destruct a as [m|server m]; [injection Ha as <- <-; by apply quietly|]. by eapply dispatch_steps. }
  destruct (dispatch_all walk env messages gw1) as [[rest gw2]|] eqn:Hr; [|done]. intros [= <- <-]. apply (steps_trans _ _ _ H1).
  eapply IH; [apply H1|done].
Qed.

Lemma decide_agent_catalog env line w : catalog (decide_agent read_envelope env line w).2 = catalog w.
Proof.
  destruct (decide_agent_spec read_envelope env line w) as [actions w' _ _ Hq _|msg w1 _ _ Hp|_ _].
  - by destruct (quiet_catalog _ _ Hq) as (_ & _ & -> & _).
  - destruct (note_outstanding_frame msg w1) as [out ->]. exact (proj2 (passes_catalog _ _ _ _ _ Hp)).
  - done.
Qed.

Lemma on_agent_routed_steps env line gw actions gw' : gateway_ok gw ->
  on_agent_routed read_envelope walk env line gw = Some (actions, gw') -> steps_to gw gw'.
Proof.
  intros Hok. unfold on_agent_routed. pose proof (decide_agent_catalog env line (inner gw)) as Hc.
  destruct (decide_agent read_envelope env line (inner gw)) as [messages w]. cbn [snd] in Hc. intros H.
  assert (H1 : steps_to gw (set_inner w gw)) by (apply quietly; [done|]; split; [constructor; cbn; by rewrite ?Hc|done]).
  apply (steps_trans _ _ _ H1). eapply dispatch_all_steps; [apply H1|exact H].
Qed.

(** A number is taken out for whoever waits. *)
Lemma taken_steps env n gw : gateway_ok gw ->
  match take_waiting n gw with
  | (Some (WaitAgent id s), gw') => s < servers_of gw /\ steps_to gw gw'
  | (Some (WaitList job s), gw') => forall msg, steps_to gw (on_page env job s msg gw').2
  | (None, gw') => True
  end.
Proof.
  intros Hok. unfold take_waiting. destruct (waiting (rstate gw) !! n) as [[id s|job s]|] eqn:Hw; [| |done].
  - split; [by destruct (but_ids _ _ _ _ (ok_router _ Hok 0%Z) _ _ Hw) as (_ & ? & _)|]. apply set_rstate_steps; [done| |apply taken_kept].
    apply agent_taken; [apply Hok|]. intros j s'. by rewrite Hw.
  - intros msg. apply on_page_steps; [done| |apply taken_kept]. by eapply page_taken; [apply Hok|].
Qed.

Lemma on_routed_line_steps env server line gw : gateway_ok gw -> steps_to gw (on_routed_line env server line gw).2.
Proof.
  intros Hok. assert (H0 : steps_to gw gw) by by apply quietly. unfold on_routed_line.
  destruct (Catalog.index _ _) as [i|] eqn:Hi; [|done]. destruct (from_str line) as [msg|]; [|done].
  destruct (let! m := vget "method" msg else None in as_str m) as [method|].
  - destruct (non_null _); [done|]. case_decide; [|done].
    pose proof (start_listing_steps env None [i] gw Hok) as Hst. destruct (start_listing env None [i] gw) as [a gw1]. apply Hst.
    + apply NoDup_singleton.
    + constructor; [by eapply index_lt|constructor].
  - destruct (id_number msg) as [n|]; [|done]. pose proof (taken_steps env n gw Hok) as Ht.
    destruct (take_waiting n gw) as [[[id s|job s]|] gw1]; [|apply Ht|done]. destruct Ht as [_ Ht].
    apply (steps_trans _ _ _ Ht). apply quietly; [apply Ht|apply relayed_follows].
Qed.

Lemma on_routed_error_steps env message gw : gateway_ok gw -> steps_to gw (on_routed_error env message gw).2.
Proof.
  intros Hok. assert (H0 : steps_to gw gw) by by apply quietly. unfold on_routed_error.
  destruct (from_str message) as [msg|]; [|done]. destruct (vget "method" msg); [|done].
  destruct (id_number msg) as [n|]; [|done]. pose proof (taken_steps env n gw Hok) as Ht.
  destruct (take_waiting n gw) as [[[id s|job s]|] gw1]; [|apply Ht|done]. destruct Ht as [_ Ht]. apply (steps_trans _ _ _ Ht).
  apply quietly; [apply Ht|]. destruct (lookup_request (to_text id) (inner gw1)) as [call|].
  - pose proof (abandon_catalog env (to_text id) call (unregister (to_text id) (inner gw1))) as Ha. destruct (abandon _ _ _ _) as [a w].
    split; [by apply same_catalog_follows|done].
  - split; [apply same_catalog_follows|done]. by destruct (take_outstanding_frame (to_text id) (inner gw1)) as [out ->].
Qed.

(** ** What is left after answers *)

(** Requests in flight only go, and no settled row changes. *)
Definition table_of (w : Interceptor) : table := default ∅ (rows <$> operations w).
Record shrinks (w w' : Interceptor) : Prop := mkShrinks {
  shrinks_by : by_request (pending w') ⊆ by_request (pending w);
  shrinks_rows : keeps_settled (table_of w) (table_of w');
}.
#[local] Instance shrinks_preorder : PreOrder shrinks.
Proof. split; [done|]. intros a b c [] []. constructor; by etrans. Qed.
Lemma shrinks_lookup w w' request : shrinks w w' -> lookup_request request w = None -> lookup_request request w' = None.
Proof. intros [H _] Hn. by eapply lookup_weaken_None. Qed.
Lemma same_rows_shrinks w w' : by_request (pending w') ⊆ by_request (pending w) -> operations w' = operations w -> shrinks w w'.
Proof. intros H1 H2. constructor; [done|]. unfold table_of. by rewrite H2. Qed.

Lemma settle_shrinks env request id s res w : shrinks w (settle env request id s res w).2.
Proof.
  destruct (settle_effect env request id s res w) as [H|(d & raw & _ & Hd & Hr & Hf & _ & ->)].
  - apply same_rows_shrinks; [by rewrite settle_pending|done].
  - constructor; [done|]. unfold table_of. rewrite Hd. cbn. intros op Hop. apply lookup_insert_ne. intros ->. apply Hop.
    unfold state_of. rewrite Hr. cbn. by rewrite Hf.
Qed.
Lemma record_shrinks env dr fp w : shrinks w (record_decision env dr fp w).2.
Proof. apply same_rows_shrinks; [by rewrite record_decision_pending|apply record_decision_operations]. Qed.

Lemma relay_shrinks env line w : shrinks w (relay env line w).2.
Proof.
  unfold relay. destruct (from_str line) as [msg|]; [|done].
  assert (H : shrinks w (settle_reply env msg w).2).
  { unfold settle_reply. destruct (operations w) eqn:Ho; [|done]. destruct (is_reply msg); [|done]. destruct (vget "id" msg) as [id|]; [|done].
    destruct (lookup_request (to_text id) w) as [call|] eqn:Hl;
      [|destruct (take_outstanding_frame (to_text id) w) as [out ->]; by apply same_rows_shrinks].
    destruct (reply_state msg) as [st stored]. set (w1 := unregister (to_text id) w).
    assert (Hs : shrinks w (settle env (to_text id) (if_operation call) st stored w1).2).
    { transitivity w1; [apply same_rows_shrinks; [apply delete_subseteq|done]|apply settle_shrinks]. }
    by destruct (settle _ _ _ _ _ w1) as [[[]|] w2]. }
  destruct (settle_reply env msg w) as [[[call st]|] w1]; cbn [snd] in *; [|done]. destruct (base w1); [|done].
  etransitivity; [done|apply record_shrinks].
Qed.

(** A message as the gate prints it again. *)
Definition reprinted (line : string) : string := match from_str line with Some v => to_text v | None => line end.
Lemma relay_answers env line w : (relay env line w).1 = [ToAgent (reprinted line)].
Proof. unfold relay, reprinted. by destruct (from_str line); [destruct (settle_reply _ _ _)|]. Qed.

(** An answer to a request no call in flight uses. *)
Lemma relay_unanswered env line msg id w : from_str line = Some msg -> vget "id" msg = Some id -> lookup_request (to_text id) w = None ->
  exists w', relay env line w = ([ToAgent (to_text msg)], w') /\ operations w' = operations w /\ by_request (pending w') = by_request (pending w).
Proof.
  intros Hm Hid Hl. unfold relay. rewrite Hm. unfold settle_reply. rewrite Hid.
  destruct (operations w) as [d|] eqn:Ho; [|by exists w]. destruct (is_reply msg); [|by exists w]. rewrite Hl.
  destruct (take_outstanding_frame (to_text id) w) as [out ->]. by eexists.
Qed.

Lemma observe_listing_shrinks tools n w : shrinks w (observe_listing tools n w).2.
Proof.
  unfold observe_listing. generalize (List.seq 0 n) as servers. intros servers.
  assert (H : forall merged w0, shrinks w w0 -> shrinks w (fold_left (fun '(merged, w) server =>
      match tools !! server with
      | Some ts => let '(visible, _, c) := Catalog.observe server ts (catalog w) in (merged ++ visible, set_catalog c w)
      | None => (merged, w)
      end) servers (merged, w0)).2); [|by apply H].
  induction servers as [|s servers IH]; intros merged w0 Hw; [done|]. cbn [fold_left]. destruct (tools !! s); [|by apply IH].
  destruct (Catalog.observe _ _ _) as [[? ?] c]. apply IH. by destruct Hw.
Qed.

(** The answer to a request for the tools. *)
Definition listing_answer (id : value) (a : Proxy.Action) : Prop := exists tools, a = ToAgent (reprinted (result_message id tools)).
Lemma finish_listing_answers env l gw : shrinks (inner gw) (inner (finish_listing env l gw).2) /\
  Forall2 listing_answer (option_list (job_agent l)) (finish_listing env l gw).1.
Proof.
  unfold finish_listing. pose proof (observe_listing_shrinks (job_tools l) (length (server_list gw)) (inner gw)) as H.
  destruct (observe_listing _ _ _) as [merged w]. cbn [snd] in H. destruct (job_agent l) as [id|]; [|by split].
  unfold answer_agent, relayed. set (result := json_obj _). pose proof (relay_shrinks env (result_message id result) w) as Hr.
  pose proof (relay_answers env (result_message id result) w) as Hm. cbn [inner set_inner].
  destruct (relay _ _ _) as [a w1]. cbn [fst snd inner set_inner] in *. subst a. split; [by etransitivity|]. repeat constructor. by eexists.
Qed.

Lemma finish_listings_answers env ls gw : shrinks (inner gw) (inner (finish_listings env ls gw).2) /\
  Forall2 listing_answer (omap job_agent ls) (finish_listings env ls gw).1.
Proof.
  revert gw. induction ls as [|l ls IH]; intros gw; [by split; [|constructor]|]. cbn [finish_listings omap list_omap].
  destruct (finish_listing_answers env l gw) as [H1 H2].
  destruct (finish_listing env l gw) as [a gw1]. destruct (IH gw1) as [H3 H4]. destruct (finish_listings env ls gw1) as [b gw2].
  cbn [fst snd] in *. split; [by etransitivity|].
  destruct (job_agent l) as [id|]; cbn [option_list] in H2.
  - apply Forall2_cons_inv_l in H2 as (x & y & Hx & ->%Forall2_nil_inv_l & ->). by constructor.
  - by apply Forall2_nil_inv_l in H2 as ->.
Qed.

(** The answers to requests a server will not answer: the first of a call in
    flight by its notice, the others by an error, each for its own id. *)
Definition gone_message (server : string) : string := "upstream MCP server " +:+ server +:+ " went away before answering".
Definition unavailable (id : value) (message : string) : value := error_value id UPSTREAM_UNAVAILABLE message (Some "upstream_unavailable").
Inductive answered_gone (env : Env) (message : string) (others : list (string * InFlightCall)) (t t' : table) :
    gmap string InFlightCall -> list value -> list Proxy.Action -> Prop :=
| gone_nil m : answered_gone env message others t t' m [] []
| gone_call m id ids call told actions : m !! to_text id = Some call ->
    told_at_exit env others (to_text id) (if_operation call) t t' told ->
    answered_gone env message others t t' (delete (to_text id) m) ids actions ->
    answered_gone env message others t t' m (id :: ids) (ToAgent (exit_notice id (if_operation call) told) :: actions)
| gone_other m id ids actions : m !! to_text id = None -> answered_gone env message others t t' m ids actions ->
    answered_gone env message others t t' m (id :: ids) (ToAgent (to_text (unavailable id message)) :: actions).

Lemma answered_later env message others t t1 t2 m ids actions : answered_gone env message others t t1 m ids actions ->
  keeps_settled t1 t2 -> answered_gone env message others t t2 m ids actions.
Proof.
  intros H Hk. induction H as [m|m id ids call told actions Hm Ht _ IH|m id ids actions Hm _ IH]; [constructor| |by constructor].
  apply gone_call; [done| |done]. by eapply told_later.
Qed.
Lemma answered_earlier env message others rc t t1 t2 m ids actions : answered_gone env message others t1 t2 m ids actions ->
  swept_rows env [rc] t t1 -> rc ∈ others -> m !! rc.1 = None -> answered_gone env message others t t2 m ids actions.
Proof.
  intros H Hs Hin. induction H as [m|m id ids call told actions Hm Ht _ IH|m id ids actions Hm _ IH]; intros Hn; [constructor| |].
  - apply gone_call; [done| |apply IH; rewrite lookup_delete; by case_decide].
    eapply told_earlier; [reflexivity|exact Hin| |exact Hs|exact Ht]. intros Heq. congruence.
  - apply gone_other; auto.
Qed.

Lemma answered_call env message others t t' m id ids actions opid : answered_gone env message others t t' m (id :: ids) actions ->
  if_operation <$> m !! to_text id = Some opid -> exists told, ToAgent (exit_notice id opid told) ∈ actions.
Proof.
  intros H Hop. inversion H as [|m' id' ids' call told acts Hl _ Hrest|m' id' ids' acts Hl _]; subst; rewrite Hl in Hop; [|done].
  injection Hop as <-. exists told. left.
Qed.

Lemma abandon_gone env request call w : exists told,
  (abandon env request call w).1 = ToAgent (exit_notice (default VNull (from_str request)) (if_operation call) told) /\
  swept_rows env [(request, call)] (table_of w) (table_of (abandon env request call w).2) /\
  told_at_exit env [] request (if_operation call) (table_of w) (table_of (abandon env request call w).2) told.
Proof.
  destruct (operations w) as [d|] eqn:Hd.
  - destruct (abandon_spec env request call w d Hd) as (d' & Hd' & _ & Hs & told & Ha & Ht). exists told. unfold table_of.
    by rewrite Hd, Hd'.
  - exists None. unfold abandon, swept, settle. rewrite Hd. cbn [fst snd]. rewrite Hd. unfold table_of. cbn [fst snd]. rewrite Hd.
    split; [done|]. split; [intros id; by case_decide|].
    destruct (settles_commit (store env) request) eqn:Hst; [|by apply NotWritten]. apply AlreadySettled; [done|done|done|].
    by destruct (row_reads (store env) request).
Qed.

(** One request of a server that is gone. *)
Lemma failed_request_call env message id call gw : lookup_request (to_text id) (inner gw) = Some call -> from_str (to_text id) = Some id ->
  let r := failed_request env message id gw in exists told,
  r.1 = [ToAgent (exit_notice id (if_operation call) told)] /\
  by_request (pending (inner r.2)) = delete (to_text id) (by_request (pending (inner gw))) /\
  swept_rows env [(to_text id, call)] (table_of (inner gw)) (table_of (inner r.2)) /\
  told_at_exit env [] (to_text id) (if_operation call) (table_of (inner gw)) (table_of (inner r.2)) told.
Proof.
  cbv zeta. intros Hl Hid. unfold failed_request. rewrite Hl. set (w0 := unregister (to_text id) (inner gw)).
  destruct (abandon_gone env (to_text id) call w0) as (told & Ha & Hs & Ht). pose proof (abandon_pending env (to_text id) call w0) as Hp.
  destruct (abandon _ _ _ _) as [a w]. cbn [fst snd inner set_inner] in *. subst a. exists told. rewrite Hid. by rewrite Hp.
Qed.
Lemma failed_request_other env message id gw : lookup_request (to_text id) (inner gw) = None ->
  from_str (to_text (unavailable id message)) = Some (unavailable id message) ->
  let r := failed_request env message id gw in
  r.1 = [ToAgent (to_text (unavailable id message))] /\ by_request (pending (inner r.2)) = by_request (pending (inner gw)) /\
  table_of (inner r.2) = table_of (inner gw).
Proof.
  cbv zeta. intros Hl Hb. unfold failed_request. rewrite Hl. unfold answer_error, relayed, error_message. fold (unavailable id message).
  destruct (relay_unanswered env _ _ id (inner gw) Hb eq_refl Hl) as (w' & -> & Ho & Hp). cbn [fst snd inner set_inner].
  unfold table_of. by rewrite Ho.
Qed.

Lemma fail_requests_spec env message others ids gw : map_to_list (by_request (pending (inner gw))) ⊆ others ->
  (forall id, id ∈ ids -> from_str (to_text id) = Some id /\ from_str (to_text (unavailable id message)) = Some (unavailable id message)) ->
  let r := fail_requests env message ids gw in
  answered_gone env message others (table_of (inner gw)) (table_of (inner r.2)) (by_request (pending (inner gw))) ids r.1 /\
  shrinks (inner gw) (inner r.2) /\ forall id, id ∈ ids -> lookup_request (to_text id) (inner r.2) = None.
Proof.
  cbv zeta. revert gw. induction ids as [|id ids IH]; intros gw Hsub Hb; cbn [fail_requests].
  { split_and!; [constructor|done|by intros id ?%elem_of_nil]. }
  destruct (Hb id) as [Hid Herr]; [by left|].
  destruct (lookup_request (to_text id) (inner gw)) as [call|] eqn:Hl.
  - destruct (failed_request_call env message id call gw Hl Hid) as (told & H1 & H2 & H3 & H4).
    destruct (failed_request env message id gw) as [a gw1]. cbn [fst snd] in *. subst a.
    destruct (IH gw1) as (H5 & H6 & H7); [etransitivity; [|exact Hsub]; rewrite H2; intros [r c] [_ Hin]%elem_of_map_to_list%lookup_delete_Some; by apply elem_of_map_to_list|
      intros id' ?; apply Hb; by right|].
    destruct (fail_requests env message ids gw1) as [b gw2]. cbn [fst snd app] in *. split; [|split].
    + apply gone_call; [done|eapply told_later; [apply list_subseteq_nil|exact H4|apply H6]|]. rewrite <- H2.
      eapply answered_earlier; [exact H5|exact H3|apply Hsub; by apply elem_of_map_to_list|]. rewrite H2. apply lookup_delete_eq.
    + transitivity (inner gw1); [|done]. constructor; [rewrite H2; apply delete_subseteq|by eapply swept_keeps].
    + intros id' [->|Hin]%elem_of_cons; [|by apply H7]. eapply shrinks_lookup; [exact H6|]. unfold lookup_request. rewrite H2. apply lookup_delete_eq.
  - destruct (failed_request_other env message id gw Hl Herr) as (H1 & H2 & H3).
    destruct (failed_request env message id gw) as [a gw1]. cbn [fst snd] in *. subst a.
    destruct (IH gw1) as (H5 & H6 & H7); [by rewrite H2|intros id' ?; apply Hb; by right|].
    destruct (fail_requests env message ids gw1) as [b gw2]. cbn [fst snd app] in *. rewrite H2, H3 in H5. split; [|split].
    + by apply gone_other.
    + transitivity (inner gw1); [|done]. constructor; [by rewrite H2|by rewrite H3].
    + intros id' [->|Hin]%elem_of_cons; [|by apply H7]. eapply shrinks_lookup; [exact H6|]. unfold lookup_request. by rewrite H2.
Qed.

(** ** Hash maps walked in some order *)

Hypothesis walk_all : forall m, walk m ≡ₚ map_to_list m.
Hypothesis walk_jobs_all : forall js, walk_jobs js ≡ₚ elements js.

Lemma leaving_jobs i st j : j ∈ walk_jobs (leaving i (walk (waiting st))).2 <-> exists k, waiting st !! k = Some (WaitList j i).
Proof.
  rewrite walk_jobs_all, elem_of_elements. unfold leaving. cbn [snd]. rewrite elem_of_list_to_set, list_elem_of_omap. split.
  - intros ([k w] & Hin & H). rewrite walk_all, elem_of_map_to_list in Hin. cbn [snd] in H. destruct w as [|j' s]; [done|]. case_decide; [|done].
    injection H as ->. subst s. by exists k.
  - intros [k Hk]. exists (k, WaitList j i). rewrite walk_all, elem_of_map_to_list. split; [done|]. cbn. by rewrite decide_True.
Qed.

Lemma server_gone_steps env server gw : gateway_ok gw -> steps_to gw (server_gone walk walk_jobs env server gw).2.
Proof.
  intros Hok. unfold server_gone. destruct (Catalog.index _ _) as [i|]; [|by apply quietly].
  pose proof (leaving_jobs i (rstate gw)) as Hjs. destruct (leaving i (walk (waiting (rstate gw)))) as [agents js]. cbn [snd] in Hjs.
  assert (Hd : NoDup (walk_jobs js)) by (rewrite walk_jobs_all; apply NoDup_elements).
  pose proof (fun j => leave_jobs_spec i (walk_jobs js) (jobs (rstate gw)) j Hd) as Hm.
  destruct (leave_jobs i (walk_jobs js) (jobs (rstate gw))) as [finished m]. cbn [snd] in Hm. set (st := mkRouterState _ _ _ _ _).
  assert (H1 : steps_to gw (set_rstate st gw)).
  { apply set_rstate_steps; [done|by apply (server_left _ _ _ _ (walk_jobs js)); [apply Hok|..]|].
    constructor; cbn; [done| |set_solver]. by intros k w _ [Hw _]%map_lookup_filter_Some. }
  pose proof (fail_requests_follows env ("upstream MCP server " +:+ server +:+ " went away before answering") agents (set_rstate st gw)) as H2.
  destruct (fail_requests _ _ _ _) as [a gw1]. pose proof (finish_listings_follows env finished gw1) as H3.
  destruct (finish_listings _ _ _) as [b gw2]. cbn [snd] in *. apply (steps_trans _ _ _ H1). apply quietly in H2; [|apply H1].
  apply (steps_trans _ _ _ H2). apply quietly; [apply H2|exact H3].
Qed.

Lemma arrive_steps ev gw actions gw' : gateway_ok gw -> arrive ev gw = Some (actions, gw') -> steps_to gw gw'.
Proof.
  intros Hok. destruct ev as [env line|env server line|env m|env server]; cbn [arrive].
  - by apply on_agent_routed_steps.
  - intros [= H]. pose proof (on_routed_line_steps env server line gw Hok) as Hs. by rewrite H in Hs.
  - intros [= H]. pose proof (on_routed_error_steps env m gw Hok) as Hs. by rewrite H in Hs.
  - intros [= H]. pose proof (server_gone_steps env server gw Hok) as Hs. by rewrite H in Hs.
Qed.

Lemma arrivals_steps gw evs gw' : gateway_ok gw -> arrivals gw evs gw' -> steps_to gw gw'.
Proof.
  intros Hok H. induction H as [gw|ev gw actions gw1 evs gw2 Ha _ IH]; [by apply quietly|].
  pose proof (arrive_steps _ _ _ _ Hok Ha) as H1. apply (steps_trans _ _ _ H1), IH, H1.
Qed.

Lemma start_gateway_ok env g h log listing l gw drifts : with_servers env g h log listing l = Ok (gw, drifts) -> gateway_ok gw.
Proof.
  unfold with_servers. destruct (Catalog.routed_catalog listing l _) as [[c ds]|] eqn:Hc; [|done]. cbn [map_err].
  destruct (Catalog.start_catalog_ok _ _ _ _ _ Hc) as (Hr & Hk & Hs).
  destruct (build env c g h log) as [w|] eqn:Hb; [|done]. cbn [map_err]. intros [= <- <-].
  assert (Hw : catalog w = c) by by eapply build_catalog.
  constructor; cbn [inner router_default rstate]; unfold servers_of, server_list; cbn [inner]; rewrite Hw; [done..| |].
  - unfold default_index. intros d. destruct (list_find _ listing) as [[i x]|] eqn:Hf.
    + intros [= <-]. apply list_find_Some in Hf as (Hf & _). rewrite Hs, length_map. by eapply lookup_lt_Some.
    + destruct (length listing =? 1) eqn:Hl; [|done]. apply Nat.eqb_eq in Hl. intros [= <-]. rewrite Hs, length_map. lia.
  - intros job. by constructor.
Qed.

(** The ids of the agent's requests that wait for a server, and the
    listings that wait for no other. *)
Definition waiting_ids (i : nat) (st : RouterState) : list value :=
  omap (fun nw => match nw.2 with WaitAgent id s => if decide (s = i) then Some id else None | WaitList _ _ => None end)
    (map_to_list (waiting st)).
Definition waits_only (i : nat) (st : RouterState) (j : Z) : Prop :=
  exists k l, waiting st !! k = Some (WaitList j i) /\ jobs st !! j = Some l /\ remaining l ⊆ {[i]}.

Lemma leaving_agents i st : (leaving i (walk (waiting st))).1 ≡ₚ waiting_ids i st.
Proof. unfold leaving, waiting_ids. cbn [fst]. by rewrite walk_all. Qed.
Lemma waiting_ids_elem i st id : id ∈ waiting_ids i st <-> exists k, waiting st !! k = Some (WaitAgent id i).
Proof.
  unfold waiting_ids. rewrite list_elem_of_omap. split.
  - intros ([k w] & Hin%elem_of_map_to_list & H). cbn in H. destruct w as [id' s|]; [|done]. case_decide; [|done].
    injection H as ->. subst s. by exists k.
  - intros [k Hk]. exists (k, WaitAgent id i). rewrite elem_of_map_to_list. split; [done|]. cbn. by rewrite decide_True.
Qed.

(** The listings finished, by job. *)
Lemma finished_jobs i st js finished : js = walk_jobs (leaving i (walk (waiting st))).2 ->
  finished = omap (fun j => jobs st !! j ≫= last_page i) js ->
  exists last, NoDup last /\ (forall j, j ∈ last <-> waits_only i st j) /\
    omap job_agent finished = omap (fun j => jobs st !! j ≫= job_agent) last.
Proof.
  intros -> ->. set (js := walk_jobs _). exists (filter (fun j => is_Some (jobs st !! j ≫= last_page i)) js). split; [|split].
  - apply NoDup_filter. unfold js. rewrite walk_jobs_all. apply NoDup_elements.
  - intros j. rewrite list_elem_of_filter. unfold js. rewrite leaving_jobs. unfold waits_only. split.
    + intros [Hs [k Hk]]. destruct (jobs st !! j) as [l|] eqn:Hl; cbn in Hs; [|by destruct Hs]. exists k, l. split_and!; [done..|].
      unfold last_page in Hs. case_decide as He; [|by destruct Hs]. by apply empty_difference_subseteq_L.
    + intros (k & l & Hk & Hl & Hs). split; [|by exists k]. rewrite Hl. cbn. unfold last_page. rewrite decide_True; [by eexists|].
      by apply subseteq_empty_difference_L.
  - induction js as [|j js IH]; [done|]. cbn [omap list_omap]. rewrite filter_cons.
    destruct (jobs st !! j) as [l|] eqn:Hl; cbn [mbind option_bind].
    + unfold last_page at 1. case_decide as He.
      * cbn [omap list_omap]. rewrite decide_True by (unfold last_page; rewrite decide_True by done; by eexists).
        cbn [omap list_omap]. rewrite Hl. cbn [mbind option_bind leave_job job_agent]. destruct (job_agent l); by rewrite IH.
      * rewrite decide_False; [done|]. unfold last_page. rewrite decide_False by done. by intros [? [=]].
    + rewrite decide_False; [done|]. by intros [? [=]].
Qed.

Lemma start_servers env g h log listing l gw drifts : with_servers env g h log listing l = Ok (gw, drifts) -> servers_of gw = length listing.
Proof.
  unfold with_servers. destruct (Catalog.routed_catalog listing l _) as [[c ds]|] eqn:Hc; [|done]. cbn [map_err].
  destruct (Catalog.start_catalog_ok _ _ _ _ _ Hc) as (_ & _ & Hs). destruct (build env c g h log) as [w|] eqn:Hb; [|done]. cbn [map_err].
  intros [= <- <-]. unfold servers_of, server_list. cbn [inner]. by rewrite (build_catalog _ _ _ _ _ _ Hb), Hs, length_map.
Qed.

(** Nothing is dispatched of what ends at the gate. *)
Lemma kept_dispatch env messages gw actions gw' : Forall (fun a => exists m, a = ToAgent m) messages ->
  dispatch_all walk env messages gw = Some (actions, gw') -> Forall (fun a => exists m, a = ToAgent m) actions.
Proof.
  intros Hk. revert gw actions. induction Hk as [|a messages [m ->] _ IH]; intros gw actions; cbn [dispatch_all]; [by intros [= <- <-]|].
  destruct (dispatch_all walk env messages gw) as [[rest gw1]|] eqn:Hr; [|done]. intros [= <- <-]. constructor; [by exists m|]. by eapply IH.
Qed.

Lemma relayed_no_upstream env line gw actions gw' server m : relayed env line gw = (actions, gw') -> ToUpstream server m ∈ actions -> False.
Proof.
  unfold relayed. pose proof (relay_answers env line (inner gw)) as Hm. destruct (relay env line (inner gw)) as [a w]. cbn [fst] in Hm. rewrite Hm.
  intros [= <- _] H. by apply list_elem_of_singleton in H.
Qed.
Lemma get_insert_other {A} k (v : A) k' m : k' <> k -> BTree.get k' (BTree.insert k v m) = BTree.get k' m.
Proof.
  intros Hne. induction m as [|[k1 v1] m IH]; cbn; [by rewrite decide_False|]. repeat (case_decide; simplify_eq/=; try done).
Qed.
Lemma set_param_id key v msg msg' : set_param key v msg = Some msg' -> vget "id" msg' = vget "id" msg.
Proof.
  unfold set_param, set_member. destruct (default VNull (vget "params" msg)); try done; intros [= <-]; (destruct msg; [done..|]);
    apply get_insert_other; discriminate.
Qed.

(** *** Properties *)

(** C8: no listing is ever stuck: from the start of the gateway on, whatever
    the agent, the servers and the transports do, every listing still open has, for each server it misses, exactly
    one page request under way at that server, which has not gone away;
    every page request under way belongs to an open listing; and every
    request under way has an id below the next one, at a live server. *)
Theorem no_listing_is_stuck (env : Env) (g : option Gate.ToolGate) (h : nat) (log : option (LedgerStore * SigningKey))
    (listing : list ServerTools) (l : option ToolsLock) (gw gw' : Gateway) (drifts : list Catalog.Drift) (evs : list (arrival * Gateway))
    (started : with_servers env g h log listing l = Ok (gw, drifts)) (happened : arrivals gw evs gw') :
  let st := rstate gw' in
  (forall j job, jobs st !! j = Some job -> remaining job <> ∅ /\ forall s, s ∈ remaining job ->
     s ∉ gone st /\ exists k, waiting st !! k = Some (WaitList j s) /\ forall k', waiting st !! k' = Some (WaitList j s) -> k' = k) /\
  (forall k j s, waiting st !! k = Some (WaitList j s) -> exists job, jobs st !! j = Some job /\ s ∈ remaining job) /\
  (forall k w, waiting st !! k = Some w -> (0 < k < next_id st)%Z /\ waits_at w < length listing /\ waits_at w ∉ gone st).
Proof.
  apply start_gateway_ok in started as Hok. destruct (arrivals_steps _ _ _ Hok happened) as [Hf [_ _ _ Hr] _].
  destruct (Hr 0%Z) as [_ H2 H3 H4 H5 _]. cbv zeta. split; [|split; [done|]].
  - intros j job Hj. destruct (H5 j job Hj) as (_ & Hne & H). split; [done|]. intros s Hs.
    destruct (H s Hs) as [[_ []%elem_of_empty]|[k Hk]]. split; [by apply (H2 _ _ Hk)|]. exists k. split; [done|]. intros k' Hk'. by eapply H4.
  - intros k w Hw. destruct (H2 _ _ Hw) as (? & Hs & ?). split; [done|]. split; [|done].
    rewrite (follows_servers _ _ Hf) in Hs. by rewrite (start_servers _ _ _ _ _ _ _ _ started) in Hs.
Qed.

(** An answer counts once: after a request of the gate's own has been answered, failed or
    given up, a reply or a transport error with its id, whenever it comes and
    from whichever server, reaches nobody and changes nothing. *)
Theorem answers_count_once (env env' : Env) (g : option Gate.ToolGate) (h : nat) (log : option (LedgerStore * SigningKey))
    (listing : list ServerTools) (l : option ToolsLock) (gw gw1 gw2 : Gateway) (drifts : list Catalog.Drift)
    (evs later : list (arrival * Gateway)) (k : Z) (server line : string) (msg : value)
    (started : with_servers env g h log listing l = Ok (gw, drifts)) (happened : arrivals gw evs gw1)
    (was_sent : (k < next_id (rstate gw1))%Z) (over : waiting (rstate gw1) !! k = None) (goes_on : arrivals gw1 later gw2)
    (readable : from_str line = Some msg) (numbered : id_number msg = Some k) :
  (vget "method" msg = None -> on_routed_line env' server line gw2 = ([], gw2)) /\ on_routed_error env' line gw2 = ([], gw2).
Proof.
  apply start_gateway_ok in started as Hok. pose proof (arrivals_steps _ _ _ Hok happened) as [_ Hok1 _].
  pose proof (arrivals_steps _ _ _ Hok1 goes_on) as [_ _ [_ Hk _]].
  assert (Hn : waiting (rstate gw2) !! k = None).
  { destruct (waiting (rstate gw2) !! k) as [w|] eqn:Hw; [|done]. apply Hk in Hw; [congruence|done]. }
  unfold on_routed_line, on_routed_error, take_waiting. rewrite readable, numbered, Hn. split; [|by destruct (vget "method" msg)].
  intros ->. by destruct (Catalog.index _ _).
Qed.

(** C9: a server that goes away fails closed: the agent's requests that wait
    for it are answered in some order, each exactly once and under its own
    id, the first of a side-effecting call in flight by the
    [RECONCILE_REQUIRED] notice with its operation (which is now [unknown],
    was settled before, or stays in flight if the store took no write), any
    other by the [upstream_unavailable] error; every listing that waited for
    no other server is answered too; then none of those ids is in flight,
    other requests wait on, and nothing is sent anywhere. *)
Theorem gone_server_fails_closed (env : Env) (server : string) (i : nat) (gw : Gateway)
    (known : Catalog.index (catalog (inner gw)) server = Some i)
    (read_back : forall id, id ∈ waiting_ids i (rstate gw) -> from_str (to_text id) = Some id /\
       from_str (to_text (unavailable id (gone_message server))) = Some (unavailable id (gone_message server))) :
  let '(actions, gw') := server_gone walk walk_jobs env server gw in
  exists ids answers last listings, actions = answers ++ listings /\
    ids ≡ₚ waiting_ids i (rstate gw) /\
    answered_gone env (gone_message server) (map_to_list (by_request (pending (inner gw)))) (table_of (inner gw)) (table_of (inner gw'))
      (by_request (pending (inner gw))) ids answers /\
    NoDup last /\ (forall j, j ∈ last <-> waits_only i (rstate gw) j) /\
    Forall2 listing_answer (omap (fun j => jobs (rstate gw) !! j ≫= job_agent) last) listings /\
    (forall id, id ∈ waiting_ids i (rstate gw) -> lookup_request (to_text id) (inner gw') = None) /\
    i ∈ gone (rstate gw') /\
    forall k w, waiting (rstate gw') !! k = Some w <-> waiting (rstate gw) !! k = Some w /\ waits_at w <> i.
Proof.
  unfold server_gone. rewrite known. pose proof (leaving_agents i (rstate gw)) as Hids.
  pose proof (finished_jobs i (rstate gw) _ _ eq_refl eq_refl) as (last & Hnd & Hlast & Hag).
  assert (Hd : NoDup (walk_jobs (leaving i (walk (waiting (rstate gw)))).2)) by (rewrite walk_jobs_all; apply NoDup_elements).
  destruct (leaving i (walk (waiting (rstate gw)))) as [agents js]. cbn [fst snd] in *.
  rewrite <- (leave_jobs_finished i _ _ Hd) in Hag. clear Hd.
  destruct (leave_jobs i (walk_jobs js) (jobs (rstate gw))) as [finished m]. cbn [fst] in Hag. set (st := mkRouterState _ _ _ _ _).
  fold (gone_message server). set (message := gone_message server).
  assert (Hback : forall id, id ∈ agents -> from_str (to_text id) = Some id /\ from_str (to_text (unavailable id message)) = Some (unavailable id message))
    by (intros id Hin; apply read_back; by rewrite <- Hids).
  pose proof (fail_requests_spec env message (map_to_list (by_request (pending (inner gw)))) agents (set_rstate st gw)
    (reflexivity _) Hback) as (H1 & H2 & H3).
  pose proof (fail_requests_follows env message agents (set_rstate st gw)) as [_ H5]. destruct (fail_requests _ _ _ _) as [a gw1].
  pose proof (finish_listings_answers env finished gw1) as [H6 H7]. pose proof (finish_listings_follows env finished gw1) as [_ H8].
  destruct (finish_listings _ _ _) as [b gw2]. cbn [fst snd rstate set_rstate inner] in *.
  assert (Hst : rstate gw2 = st) by congruence. rewrite Hst. exists agents, a, last, b. split; [done|]. split; [done|].
  split; [eapply answered_later; [exact H1|apply H6]|]. split; [done|]. split; [done|]. split; [by rewrite <- Hag|].
  split; [intros id Hin; eapply shrinks_lookup; [exact H6|apply H3; by rewrite Hids]|]. split; [set_solver|].
  intros k w. apply map_lookup_filter_Some.
Qed.

(** C7: complete mediation in front of several servers: when the gateway
    sends a [tools/call] of the agent, it sends it to the one server that
    serves the tool under the agent's name, under that server's own name of it; the server
    has not gone away; the gate let the call through (in enforce mode:
    authorized it, its tool not known to differ from its pin), counted it,
    had the operations store admit it and the ledger record it; and the
    request goes out under a fresh id that waits for this agent's. *)
Theorem routed_call_mediated (env : Env) (line m server : string) (msg : value) (gw gw' : Gateway) (actions : list Proxy.Action)
    (ok : gateway_ok gw) (readable : from_str line = Some msg) (a_call : method_is "tools/call" msg = true)
    (reads_back : from_str (to_text msg) = Some msg)
    (handled : on_agent_routed read_envelope walk env line gw = Some (actions, gw')) (sent : ToUpstream server m ∈ actions) :
  exists i name msg' w',
    Catalog.route (catalog (inner gw)) (call_tool_of msg) = Some (i, name) /\ server = name_of gw i /\ i ∉ gone (rstate gw) /\
    set_param "name" (VString name) msg = Some msg' /\ inner gw' = note_outstanding msg w' /\
    match gated (inner gw) with
    | Some (g, b) => goes_out read_envelope env g b msg (inner gw) w' /\
        (Gate.mode g = Gate.Enforce -> (i, name) ∉ Catalog.blocked (catalog (inner gw)) /\
           exists auth, Gate.authorize read_envelope g (call_tool_of msg) (call_args_of msg) (now env) = Ok auth)
    | None => w' = inner gw /\ (i, name) ∉ Catalog.blocked (catalog (inner gw))
    end /\
    match non_null (vget "id" msg) with
    | Some id => m = to_text (set_member "id" (json_int (next_id (rstate gw))) msg') /\
        waiting (rstate gw) !! next_id (rstate gw) = None /\
        waiting (rstate gw') = <[next_id (rstate gw) := WaitAgent id i]> (waiting (rstate gw))
    | None => m = to_text msg' /\ rstate gw' = rstate gw
    end.
Proof.
  unfold on_agent_routed in handled. pose proof (decide_agent_spec read_envelope env line (inner gw)) as Hd.
  destruct (decide_agent read_envelope env line (inner gw)) as [messages w]. cbn [fst snd] in Hd.
  destruct Hd as [messages w Hk _ _ _|msg0 w' Hm _ Hp|_ Hn]; [|rewrite readable in Hm; injection Hm as <-|congruence].
  { apply kept_dispatch in handled as Hall; [|done]. rewrite Forall_forall in Hall. by destruct (Hall _ sent) as [? [=]]. }
  cbn [dispatch_all] in handled. destruct (dispatch walk env (to_text msg) _) as [[out gw1]|] eqn:Hdi; [|done].
  injection handled as <- <-. rewrite app_nil_r in sent.
  assert (Hcat : catalog (note_outstanding msg w') = catalog (inner gw)).
  { destruct (note_outstanding_frame msg w') as [o ->]. exact (proj2 (passes_catalog _ _ _ _ _ Hp)). }
  unfold dispatch in Hdi. rewrite reads_back in Hdi. unfold method_is in a_call. apply bool_decide_eq_true in a_call as Hcall.
  rewrite Hcall in Hdi. rewrite decide_True in Hdi by done. cbn [inner set_inner] in Hdi. rewrite Hcat in Hdi.
  destruct (Catalog.route (catalog (inner gw)) (call_tool_of msg)) as [[i name]|] eqn:Hr.
  2:{ exfalso. destruct (vget "id" msg) as [id|]; [|injection Hdi as <- _; by apply elem_of_nil in sent].
      injection Hdi as Hdi. unfold answer_error in Hdi. exact (relayed_no_upstream _ _ _ _ _ _ _ Hdi sent). }
  destruct (set_param "name" (VString name) msg) as [msg'|] eqn:Hsp; [|done]. injection Hdi as Hdi.
  assert (Hid : vget "id" msg' = vget "id" msg) by by eapply set_param_id.
  assert (Hsent : i ∉ gone (rstate gw) /\ server = name_of gw i /\ inner gw1 = note_outstanding msg w' /\
    match non_null (vget "id" msg) with
    | Some id => m = to_text (set_member "id" (json_int (next_id (rstate gw))) msg') /\
        waiting (rstate gw1) = <[next_id (rstate gw) := WaitAgent id i]> (waiting (rstate gw))
    | None => m = to_text msg' /\ rstate gw1 = rstate gw
    end).
  { assert (Hname : name_of (set_inner (note_outstanding msg w') gw) i = name_of gw i) by (unfold name_of; cbn [inner set_inner]; by rewrite Hcat).
    unfold send_routed in Hdi. rewrite Hid in Hdi. cbn [rstate set_inner] in Hdi. case_decide as Hg.
    - exfalso. destruct (non_null (vget "id" msg)) as [id|]; [|injection Hdi as <- _; by apply elem_of_nil in sent].
      unfold answer_error in Hdi. exact (relayed_no_upstream _ _ _ _ _ _ _ Hdi sent).
    - split; [done|]. rewrite Hname in Hdi. destruct (non_null (vget "id" msg)) as [id|]; cbn [await] in Hdi; injection Hdi as <- <-;
        apply list_elem_of_singleton in sent; injection sent as -> ->; by split_and!. }
  destruct Hsent as (Hg & Hs & Hin & Hm). exists i, name, msg', w'. split; [done|]. split; [done|]. split; [done|]. split; [done|]. split; [done|].
  split.
  - unfold passes in Hp. destruct (gated (inner gw)) as [[g b]|] eqn:Hgt.
    + destruct Hp as [_ Hp]. unfold method_is in Hp. rewrite bool_decide_eq_true_2 in Hp by done. split; [done|]. intros Hmode.
      destruct Hp as (refusal & op & appr & counted & g1 & w1 & e & Hj & Hst & _).
      destruct (judge_enforced _ _ _ _ _ _ _ _ _ Hmode Hj Hst) as (auth & Ha & _ & _ & _ & Hrf). split; [|by exists auth].
      unfold refuse, Catalog.refuse in Hrf. rewrite Hr in Hrf. by case_decide.
    + destruct Hp as [-> Hrf]. split; [done|]. unfold method_is in Hrf. rewrite bool_decide_eq_true_2 in Hrf by done. specialize (Hrf eq_refl).
      unfold refuse, Catalog.refuse in Hrf. rewrite Hr in Hrf. by case_decide.
  - destruct (non_null (vget "id" msg)); [|done]. destruct Hm as [-> ->]. split; [done|]. split; [|done]. exact (fresh_id _ _ _ _ (ok_router _ ok 0%Z)).
Qed.
End Gateway.

(** *** Concrete instances *)

Section Witnesses.
Import Toy.
#[local] Existing Instance toy_cedar.
#[local] Existing Instance t_time.
#[local] Existing Instance toy_store_text.
#[local] Existing Instance toy_text.

(** Two servers; a gate over one side-effecting tool. *)
Definition refund_tool : value := VObject [("name", VString "refund")].
Definition two : list ServerTools :=
  [mkServerTools "a" VNull [refund_tool]; mkServerTools "b" VNull [VObject [("name", VString "look")]]].
Definition two_gate : Gate.ToolGate :=
  match Gate.with_operations "t" 0 (mkDb ∅ None) [] demo_gate with Ok g => g | Err _ => demo_gate end.
Definition started (g : option Gate.ToolGate) (log : option (LedgerStore * SigningKey)) (listing : list ServerTools) :
  result servers_error (Gateway * list Catalog.Drift) := with_servers demo_env g 0 log listing None.
Definition no_gateway : Gateway := mkGateway demo_interceptor VNull None (mkRouterState 1 0 ∅ ∅ ∅).
Definition gateway_of (r : result servers_error (Gateway * list Catalog.Drift)) : Gateway := match r with Ok (gw, _) => gw | Err _ => no_gateway end.
Definition next (ev : arrival) (gw : Gateway) : list Proxy.Action * Gateway :=
  default ([], gw) (arrive no_envelope map_to_list elements ev gw).
Definition list_call : value := rpc [("id", demo_id); ("method", VString "tools/list")].
Definition ask_list : arrival := AgentLine demo_env (value_text list_call).
Definition page_of (n : Z) : string :=
  value_text (rpc [("id", json_int n); ("result", VObject [("tools", VArray [refund_tool])])]).

Definition open_gateway : Gateway := gateway_of (started None None two).
Definition asked_gateway : Gateway := (next ask_list open_gateway).2.
Definition paged_gateway : Gateway := (next (ServerLine demo_env "a" (page_of 1)) asked_gateway).2.
Lemma open_starts : exists drifts, started None None two = Ok (open_gateway, drifts).
Proof.
  assert (H : match started None None two with Ok _ => True | Err _ => False end) by (vm_compute; exact I).
  unfold open_gateway. destruct (started None None two) as [[gw drifts]|]; [|done]. by exists drifts.
Defined.
Lemma next_step ev gw : is_some (arrive no_envelope map_to_list elements ev gw) = true ->
  arrive no_envelope map_to_list elements ev gw = Some ((next ev gw).1, (next ev gw).2).
Proof. unfold next. by destruct (arrive _ _ _ ev gw) as [[actions gw']|]. Qed.
Lemma next_arrives ev gw : is_some (arrive no_envelope map_to_list elements ev gw) = true ->
  arrivals no_envelope map_to_list elements gw [(ev, gw)] (next ev gw).2.
Proof. intros H%next_step. econstructor; [exact H|constructor]. Qed.

(** The agent lists the tools: both servers are asked. *)
Lemma no_listing_is_stuck_witness : exists k, waiting (rstate asked_gateway) !! k = Some (WaitList 0 1).
Proof.
  destruct open_starts as [drifts Hs].
  destruct (no_listing_is_stuck no_envelope map_to_list elements (fun m => reflexivity _) (fun js => reflexivity _) demo_env None 0 None two None
    open_gateway asked_gateway drifts [(ask_list, open_gateway)] Hs) as (H & _ & _).
  - apply next_arrives. vm_compute. reflexivity.
  - assert (Hj : exists job, jobs (rstate asked_gateway) !! 0%Z = Some job /\ bool_decide (1 ∈ remaining job) = true) by (eexists; vm_compute; split; reflexivity).
    destruct Hj as (job & Hj & Hin%bool_decide_eq_true). destruct (H 0%Z job Hj) as [_ Hr]. destruct (Hr 1 Hin) as (_ & k & Hk & _). exists k. exact Hk.
Defined.

(** A server answers a page twice. *)
Lemma answers_count_once_witness : on_routed_line demo_env "a" (page_of 1) paged_gateway = ([], paged_gateway).
Proof.
  destruct open_starts as [drifts Hs].
  destruct (answers_count_once no_envelope map_to_list elements (fun m => reflexivity _) (fun js => reflexivity _) demo_env demo_env None 0 None two None
    open_gateway paged_gateway paged_gateway drifts [(ask_list, open_gateway); (ServerLine demo_env "a" (page_of 1), asked_gateway)] []
    1%Z "a" (page_of 1) (rpc [("id", json_int 1); ("result", VObject [("tools", VArray [refund_tool])])]) Hs) as [H _].
  - econstructor; [apply next_step; vm_compute; reflexivity|]. apply next_arrives. vm_compute. reflexivity.
  - vm_compute. reflexivity.
  - vm_compute. reflexivity.
  - constructor.
  - vm_compute. reflexivity.
  - vm_compute. reflexivity.
  - apply H. vm_compute. reflexivity.
Defined.

(** The gate forwards a refund to [a], which then goes away. *)
Definition gated_gateway : Gateway := gateway_of (started (Some two_gate) (Some (empty_ledger, gate_key)) two).
Definition refund_gateway : Gateway := (next (AgentLine demo_env (value_text refund_call)) gated_gateway).2.
Lemma gated_ok : gateway_ok gated_gateway.
Proof.
  assert (H : match started (Some two_gate) (Some (empty_ledger, gate_key)) two with Ok _ => True | Err _ => False end) by (vm_compute; exact I).
  unfold gated_gateway. destruct (started _ _ two) as [[gw drifts]|] eqn:Hs; [|done]. by eapply start_gateway_ok.
Qed.

Lemma gone_server_fails_closed_witness :
  exists told, ToAgent (exit_notice demo_id demo_op told) ∈ (server_gone map_to_list elements demo_env "a" refund_gateway).1.
Proof.
  assert (Hids : waiting_ids 0 (rstate refund_gateway) = [demo_id]) by (vm_compute; reflexivity).
  assert (Hcall : if_operation <$> lookup_request (to_text demo_id) (inner refund_gateway) = Some demo_op) by (vm_compute; reflexivity).
  pose proof (gone_server_fails_closed map_to_list elements (fun m => reflexivity _) (fun js => reflexivity _) demo_env "a" 0 refund_gateway) as H.
  destruct (server_gone map_to_list elements demo_env "a" refund_gateway) as [actions gw'].
  destruct H as (ids & answers & last & listings & -> & Hp & Ha & _); [vm_compute; reflexivity| |].
  - rewrite Hids. intros id ->%list_elem_of_singleton. split; vm_compute; reflexivity.
  - rewrite Hids in Hp. apply Permutation_singleton_r in Hp as ->. destruct (answered_call _ _ _ _ _ _ _ _ _ _ Ha Hcall) as [told Hin].
    exists told. apply elem_of_app. left. exact Hin.
Defined.

Lemma routed_call_mediated_witness :
  exists auth, Gate.authorize no_envelope two_gate "refund" demo_args demo_now = Ok auth.
Proof.
  destruct (routed_call_mediated no_envelope map_to_list demo_env (value_text refund_call)
    (to_text (set_member "id" (json_int 1) refund_call)) "a" refund_call gated_gateway refund_gateway
    (next (AgentLine demo_env (value_text refund_call)) gated_gateway).1 gated_ok) as (i & name & msg' & w' & _ & _ & _ & _ & _ & Hg & _).
  - vm_compute. reflexivity.
  - vm_compute. reflexivity.
  - vm_compute. reflexivity.
  - apply (next_step (AgentLine demo_env (value_text refund_call)) gated_gateway). vm_compute. reflexivity.
  - vm_compute. left.
  - assert (Hgt : exists b, gated (inner gated_gateway) = Some (two_gate, b)) by (eexists; vm_compute; reflexivity).
    destruct Hgt as [b Hgt]. rewrite Hgt in Hg. destruct Hg as [_ Hg]. destruct Hg as (_ & auth & Ha); [vm_compute; reflexivity|].
    exists auth. exact Ha.
Defined.

(** Any server may answer any request: [b] answers the refund sent to [a],
    and the agent is told so. *)
Example another_server_answers :
  let reply := rpc [("id", json_int 1); ("result", VObject [("content", VArray [])])] in
  waiting (rstate refund_gateway) !! 1%Z = Some (WaitAgent demo_id 0) /\
  (next (ServerLine demo_env "b" (value_text reply)) refund_gateway).1 =
    [ToAgent (to_text (rpc [("id", demo_id); ("result", VObject [("content", VArray [])])]))].
Proof. vm_compute. by split. Qed.

(** A server that lists a tool without a name makes a call whose [params] is
    no object panic, when there is no gate. *)
Definition nameless_gateway : Gateway := gateway_of (started None None [mkServerTools "a" VNull [VObject [("name", VString "")]]]).
Example unnamed_tool_panics : exists msg, from_str (value_text msg) = Some msg /\ vget "params" msg = Some demo_id /\
  arrive no_envelope map_to_list elements (AgentLine demo_env (value_text msg)) nameless_gateway = None.
Proof.
  exists (rpc [("id", demo_id); ("method", VString "tools/call"); ("params", demo_id)]). split; [vm_compute; reflexivity|].
  split; [reflexivity|]. assert (H : forall x : option (list Proxy.Action * Gateway), is_some x = false -> x = None) by by intros [].
  apply H. vm_compute. reflexivity.
Qed.
End Witnesses.
