(* ===== verification/Vault.v ===== *)
(** * The vault of pseudonyms

    Crate [cloakpipe-core]: the data of [lib.rs], the fuzzy resolver of
    [resolver.rs] and the mapping vault of [vault.rs], with its encrypted
    file.  A vault gives each original one token, [PREFIX_n], and remembers
    both directions.  [vault_ok] is its invariant. *)

From S2P Require Import Prelude Text BTree Json Crates Concrete.
From stdpp Require Import pretty.
From Stdlib Require Import SpecFloat.

(** ** Data ([lib.rs]) *)

Inductive EntityCategory :=
| Person | Organization | Location | Amount | Percentage | Date | Email
| PhoneNumber | IpAddress | Secret | Url | Project | Business | Infra
| Custom (name : string).

#[global] Instance EntityCategory_eq_dec : EqDecision EntityCategory.
Proof. solve_decision. Defined.

Inductive DetectionSource := Pattern | Financial | Ner | CustomRule.

Record DetectedEntity := mkEntity {
  original : string;
  start_ : nat;
  end_ : nat;
  category : EntityCategory;
  confidence : f64;
  source : DetectionSource;
}.

Record PseudoToken := mkToken {
  token : string;
  token_category : EntityCategory;
  token_id : N;
}.

#[global] Instance PseudoToken_eq_dec : EqDecision PseudoToken.
Proof. solve_decision. Defined.

(** ** Fuzzy resolution ([resolver.rs]) *)

Record ResolverConfig := mkResolverConfig {
  enabled : bool;
  threshold : f64;
  min_prefix_len : nat;
  aliases : list (list string);
}.

Record EntityResolver := mkResolver {
  resolver_config : ResolverConfig;
  alias_map : gmap string string;
}.

(** The double nearest to a decimal fraction, [1.0] and [f64::min]. *)
Definition f64_ratio (n d : Z) : f64 := SFdiv f64_prec f64_emax (f64_of_Z n) (f64_of_Z d).
Definition f64_min (a b : f64) : f64 :=
  match f64_cmp a b with
  | Some Gt => b
  | Some _ => a
  | None => match a with S754_nan => b | _ => a end
  end.
Definition f64_gt (a b : f64) : bool := match f64_cmp a b with Some Gt => true | _ => false end.
Definition f64_ge (a b : f64) : bool := match f64_cmp a b with Some Gt | Some Eq => true | _ => false end.

Section Vault.
Context `{CaseMapping, SimilarityCrate, HashOrder}.

Definition add_alias (canonical : string) (m : gmap string string) (variant : string) : gmap string string :=
  <[trim (to_lowercase variant) := canonical]> m.

Definition add_group (m : gmap string string) (group : list string) : gmap string string :=
  match group with
  | canonical :: _ :: _ => fold_left (add_alias canonical) group m
  | _ => m
  end.

Definition resolver_new (config : ResolverConfig) : EntityResolver :=
  mkResolver config (fold_left add_group (aliases config) ∅).

Definition similarity (config : ResolverConfig) (a b : string) : f64 :=
  let a_lower := to_lowercase a in
  let b_lower := to_lowercase b in
  let score := jaro_winkler a_lower b_lower in
  let shorter := Nat.min (str_len a_lower) (str_len b_lower) in
  let score :=
    if bool_decide (min_prefix_len config <= shorter) && (starts_with b_lower a_lower || starts_with a_lower b_lower)
    then SFadd f64_prec f64_emax score (f64_ratio 8 100) else score in
  f64_min score (f64_of_Z 1).

(** One turn of the loop over the existing entries. *)
Definition best_step (config : ResolverConfig) (o : string) (cat : EntityCategory)
    (best : option string * f64) (entry : string * EntityCategory) : option string * f64 :=
  if negb (bool_decide (entry.2 = cat)) then best
  else if bool_decide (entry.1 = o) then best
  else
    let score := similarity config o entry.1 in
    if f64_gt score best.2 && f64_ge score (threshold config) then (Some entry.1, score) else best.

Definition resolve (r : EntityResolver) (o : string) (cat : EntityCategory)
    (existing : gmap string EntityCategory) : option string :=
  if negb (enabled (resolver_config r)) then None
  else
    match alias_map r !! trim (to_lowercase o) with
    | Some canonical => Some canonical
    | None => (fold_left (best_step (resolver_config r) o cat) (hm_iter existing) (None, f64_of_Z 0)).1
    end.

(** ** The vault ([vault.rs]) *)

Record Vault := mkVault {
  forward : gmap string PseudoToken;
  reverse_map : gmap string string;
  counters : gmap string N;
  path : option string;
  key : bytes;
  resolver : option EntityResolver;
}.

Definition category_prefix (c : EntityCategory) : string :=
  match c with
  | Person => "PERSON" | Organization => "ORG" | Location => "LOC" | Amount => "AMOUNT"
  | Percentage => "PCT" | Date => "DATE" | Email => "EMAIL" | PhoneNumber => "PHONE"
  | IpAddress => "IP" | Secret => "SECRET" | Url => "URL" | Project => "PROJECT"
  | Business => "BIZ" | Infra => "INFRA"
  | Custom name => to_uppercase name
  end.

Definition set_forward (o : string) (t : PseudoToken) (v : Vault) : Vault :=
  mkVault (<[o := t]> (forward v)) (reverse_map v) (counters v) (path v) (key v) (resolver v).

(** The fuzzy match: an existing entry under whose token [o] is stored. *)
Definition alias_token (v : Vault) (o : string) (cat : EntityCategory) : option PseudoToken :=
  let! r := resolver v else None in
  let! canonical := resolve r o cat (token_category <$> forward v) else None in
  forward v !! canonical.

(** [*counter += 1] on a [u32], wrapping as a release build does. *)
Definition bump (c : option N) : N := ((default 0 c + 1) mod 2 ^ 32)%N.

(** [format!("{prefix}_{counter}")]. *)
Definition spell (prefix : string) (n : N) : string := prefix +:+ "_" +:+ pretty n.

(** Steps 1 and 2 of both lookups, and step 3 with the text [spelling] makes. *)
Definition get_or_create_with (spelling : string -> N -> string)
    (v : Vault) (o : string) (cat : EntityCategory) : PseudoToken * Vault :=
  match forward v !! o with
  | Some t => (t, v)
  | None =>
      match alias_token v o cat with
      | Some t => (t, set_forward o t v)
      | None =>
          let prefix := category_prefix cat in
          let counter := bump (counters v !! prefix) in
          let t := mkToken (spelling prefix counter) cat counter in
          (t, mkVault (<[o := t]> (forward v)) (<[token t := o]> (reverse_map v))
                (<[prefix := counter]> (counters v)) (path v) (key v) (resolver v))
      end
  end.

Definition get_or_create : Vault -> string -> EntityCategory -> PseudoToken * Vault :=
  get_or_create_with spell.

Definition contains_original (v : Vault) (value : string) : bool := is_some (forward v !! value).
Definition lookup (v : Vault) (t : string) : option string := reverse_map v !! t.
Definition reverse_mappings (v : Vault) : gmap string string := reverse_map v.
Definition stats (v : Vault) : nat * gmap string N := (size (forward v), counters v).
Definition set_resolver (r : EntityResolver) (v : Vault) : Vault :=
  mkVault (forward v) (reverse_map v) (counters v) (path v) (key v) (Some r).
Definition vault_new (p : option string) (k : bytes) : Vault := mkVault ∅ ∅ ∅ p k None.

(** ** The vault file *)

Inductive VaultError :=
| KeyLength | TooShort | InvalidKey | Decryption | Deserialize | Encryption
| CreateDirectory | WriteTemp | Rename.

Record StoredToken := mkStored {
  stored_token : string;
  stored_category : EntityCategory;
  stored_id : N;
  stored_original : string;
}.

Record VaultData := mkVaultData {
  data_forward : list (string * StoredToken);
  data_counters : gmap string N;
}.

Definition store_token (e : string * PseudoToken) : string * StoredToken :=
  (e.1, mkStored (token e.2) (token_category e.2) (token_id e.2) e.1).

Definition to_vault_data (v : Vault) : VaultData :=
  mkVaultData (map store_token (hm_iter (forward v))) (counters v).

(** One turn of [load]'s loop. *)
Definition load_entry (m : gmap string PseudoToken * gmap string string) (e : string * StoredToken) :
    gmap string PseudoToken * gmap string string :=
  let s := e.2 in
  (<[stored_original s := mkToken (stored_token s) (stored_category s) (stored_id s)]> m.1,
   <[stored_token s := stored_original s]> m.2).

End Vault.

(** [derive(Serialize, Deserialize)] of [VaultData] and its JSON text. *)
Class VaultCodec := {
  vault_to_json : VaultData -> bytes;
  vault_from_json : bytes -> option VaultData;
}.
Class VaultCodecLaws `{VaultCodec} := {
  vault_json_round_trip d : vault_from_json (vault_to_json d) = Some d;
}.

Section Persistence.
Context `{AeadCrate, VaultCodec, HashOrder}.

(** [encrypt]: the 12-byte nonce, then the ciphertext. *)
Definition encrypt (k nonce plaintext : bytes) : result VaultError bytes :=
  if negb (bool_decide (length k = 32)) then Err InvalidKey
  else
    let! ciphertext := aead_encrypt k nonce plaintext else Err Encryption in
    Ok (nonce ++ ciphertext).

Definition decrypt_bytes (k data : bytes) : result VaultError bytes :=
  if bool_decide (length data < 12) then Err TooShort
  else if negb (bool_decide (length k = 32)) then Err InvalidKey
  else ok_or (aead_decrypt k (take 12 data) (drop 12 data)) Decryption.

Definition load (p : string) (k encrypted : bytes) : result VaultError Vault :=
  let? json := decrypt_bytes k encrypted in
  let? data := ok_or (vault_from_json json) Deserialize in
  let m := fold_left load_entry (data_forward data) (∅, ∅) in
  Ok (mkVault m.1 m.2 (data_counters data) (Some p) k None).

(** The files, by path. *)
Abbreviation Disk := (gmap string bytes).

Definition vault_open (disk : Disk) (p : string) (k : bytes) : result VaultError Vault :=
  if negb (bool_decide (length k = 32)) then Err KeyLength
  else
    match disk !! p with
    | Some encrypted => load p k encrypted
    | None => Ok (vault_new (Some p) k)
    end.

(** What the file system answers to the three calls of [save]; a write that
    fails may leave the temporary file with any contents. *)
Record SaveIo := mkSaveIo {
  create_dir_all : bool;
  write_fails : option bytes;
  rename_ok : bool;
}.

Definition save (v : Vault) (nonce : bytes) (io : SaveIo) (disk : Disk) : result VaultError unit * Disk :=
  match path v with
  | None => (Ok tt, disk)
  | Some p =>
      match encrypt (key v) nonce (vault_to_json (to_vault_data v)) with
      | Err e => (Err e, disk)
      | Ok encrypted =>
          let tmp := p +:+ ".tmp" in
          if negb (create_dir_all io) then (Err CreateDirectory, disk)
          else match write_fails io with
          | Some partial => (Err WriteTemp, <[tmp := partial]> disk)
          | None =>
              if rename_ok io then (Ok tt, delete tmp (<[p := encrypted]> disk))
              else (Err Rename, <[tmp := encrypted]> disk)
          end
      end
  end.

End Persistence.

(** ** The invariant *)

Section Invariant.
Context `{CaseMapping, SimilarityCrate, HashOrder}.
Implicit Types v : Vault.

(** Every stored token is spelled from its category and its number, its
    number was counted, and the two maps name each other's entries. *)
Record vault_ok v : Prop := {
  ok_spelled o t : forward v !! o = Some t -> token t = spell (category_prefix (token_category t)) (token_id t);
  ok_counted o t : forward v !! o = Some t ->
    exists c, counters v !! category_prefix (token_category t) = Some c /\ (token_id t <= c)%N;
  ok_reversed o t : forward v !! o = Some t -> is_Some (reverse_map v !! token t);
  ok_forwarded s o : reverse_map v !! s = Some o -> exists t, forward v !! o = Some t /\ token t = s;
}.

(** No original is stored as an alias: its token leads back to it. *)
Definition unaliased v : Prop := forall o t, forward v !! o = Some t -> reverse_map v !! token t = Some o.

(** The counter of a category is not at its 32-bit end. *)
Definition room v (cat : EntityCategory) : Prop :=
  (default 0 (counters v !! category_prefix cat) + 1 < 2 ^ 32)%N.

Lemma spell_inj p q n m : spell p n = spell q m -> p = q /\ n = m.
Proof.
  unfold spell. intros Hs%(f_equal as_bytes). rewrite !as_bytes_app in Hs. simpl in Hs.
  assert (Hu : forall k : N, "_"%char ∉ as_bytes (pretty k)).
  { intros k Hk. pose proof (pretty_N_digits k) as Hd. unfold str_all in Hd. rewrite forallb_forall in Hd.
    apply list_elem_of_In in Hk. by specialize (Hd _ Hk). }
  apply last_sep_inj in Hs as [Hp Hn]; [|by apply Hu..].
  split; [by apply (inj as_bytes)|by apply (inj pretty), (inj as_bytes)].
Qed.

Lemma vault_new_ok p k : vault_ok (vault_new p k) /\ unaliased (vault_new p k).
Proof. by split; [split|]; intros ? ?; cbn [vault_new forward reverse_map]; rewrite lookup_empty. Qed.

Lemma bump_room v cat : room v cat -> bump (counters v !! category_prefix cat) = (default 0 (counters v !! category_prefix cat) + 1)%N.
Proof. intros Hr. unfold bump. by rewrite N.mod_small. Qed.

Lemma alias_token_Some v o cat t : alias_token v o cat = Some t -> exists o', forward v !! o' = Some t.
Proof. unfold alias_token. intros. simp_res. eauto. Qed.

(** A counted token is not the next one. *)
Lemma next_is_new v o cat t : vault_ok v -> room v cat -> forward v !! o = Some t ->
  token t <> spell (category_prefix cat) (bump (counters v !! category_prefix cat)).
Proof.
  intros Hok Hr Ho. rewrite (ok_spelled v Hok _ _ Ho), (bump_room v cat Hr). intros [Hp Hn]%spell_inj.
  destruct (ok_counted v Hok _ _ Ho) as (c & Hc & Hle). rewrite Hp in Hc. rewrite Hc in Hn. simpl in Hn. lia.
Qed.

Lemma next_is_unmapped v cat : vault_ok v -> room v cat ->
  reverse_map v !! spell (category_prefix cat) (bump (counters v !! category_prefix cat)) = None.
Proof.
  intros Hok Hr. destruct (reverse_map v !! _) as [o|] eqn:Hs; [|done]. exfalso.
  destruct (ok_forwarded v Hok _ _ Hs) as (t & Ho & Ht). by apply (next_is_new v o cat t) in Ht.
Qed.

(** A lookup of a new original in a vault without a resolver. *)
Lemma get_or_create_with_new sp v o cat : forward v !! o = None -> resolver v = None ->
  get_or_create_with sp v o cat =
    let n := bump (counters v !! category_prefix cat) in
    let t := mkToken (sp (category_prefix cat) n) cat n in
    (t, mkVault (<[o := t]> (forward v)) (<[token t := o]> (reverse_map v))
          (<[category_prefix cat := n]> (counters v)) (path v) (key v) None).
Proof. intros Ho Hr. unfold get_or_create_with, alias_token. by rewrite Ho, Hr. Qed.

(** The three outcomes of a lookup. *)
Inductive looked_up v (o : string) (cat : EntityCategory) : PseudoToken -> Vault -> Prop :=
| Known t : forward v !! o = Some t -> looked_up v o cat t v
| Aliased t o' : forward v !! o = None -> forward v !! o' = Some t -> resolver v <> None ->
    looked_up v o cat t (set_forward o t v)
| Made n v' : forward v !! o = None -> n = bump (counters v !! category_prefix cat) ->
    forward v' = <[o := mkToken (spell (category_prefix cat) n) cat n]> (forward v) ->
    reverse_map v' = <[spell (category_prefix cat) n := o]> (reverse_map v) ->
    counters v' = <[category_prefix cat := n]> (counters v) ->
    path v' = path v -> key v' = key v -> resolver v' = resolver v ->
    looked_up v o cat (mkToken (spell (category_prefix cat) n) cat n) v'.

Lemma get_or_create_looked_up v o cat : looked_up v o cat (get_or_create v o cat).1 (get_or_create v o cat).2.
Proof.
  unfold get_or_create, get_or_create_with. destruct (forward v !! o) as [t|] eqn:Ho; [by apply Known|].
  destruct (alias_token v o cat) as [t|] eqn:Ha.
  - destruct (alias_token_Some _ _ _ _ Ha) as [o' Ho']. apply (Aliased v o cat t o'); [done|done|].
    unfold alias_token in Ha. by destruct (resolver v).
  - by eapply Made.
Qed.

Lemma looked_up_ok v o cat t v' : looked_up v o cat t v' -> vault_ok v -> room v cat ->
  vault_ok v' /\ forward v' !! o = Some t /\ forward v ⊆ forward v' /\ reverse_map v ⊆ reverse_map v'.
Proof.
  intros Hl Hok Hr. destruct Hl as [t Ho|t o' Ho Ho' _|n v' Ho Hn Hf Hrv Hc _ _ _].
  - done.
  - split_and!; [|by apply lookup_insert_eq|by apply insert_subseteq|done].
    split; simpl; try setoid_rewrite lookup_insert_Some.
    + intros o1 t1 [[<- <-]|[_ F1]]; [exact (ok_spelled v Hok _ _ Ho')|exact (ok_spelled v Hok _ _ F1)].
    + intros o1 t1 [[<- <-]|[_ F1]]; [exact (ok_counted v Hok _ _ Ho')|exact (ok_counted v Hok _ _ F1)].
    + intros o1 t1 [[<- <-]|[_ F1]]; [exact (ok_reversed v Hok _ _ Ho')|exact (ok_reversed v Hok _ _ F1)].
    + intros s o1 Hs. destruct (ok_forwarded v Hok _ _ Hs) as (t1 & F1 & <-). exists t1. split; [right; split|]; congruence.
  - rewrite Hf, Hrv. pose proof (next_is_unmapped v cat Hok Hr) as Hun. pose proof (bump_room v cat Hr) as Hb.
    rewrite <- Hn in Hun, Hb. split_and!; [|by apply lookup_insert_eq|by apply insert_subseteq..].
    split; rewrite ?Hf, ?Hrv, ?Hc; setoid_rewrite lookup_insert_Some.
    + intros o1 t1 [[<- <-]|[_ F1]]; [done|exact (ok_spelled v Hok _ _ F1)].
    + intros o1 t1 [[<- <-]|[_ F1]]; simpl; [exists n; split; [by left|done]|].
      destruct (ok_counted v Hok _ _ F1) as (c & Hc1 & Hle).
      destruct (decide (category_prefix cat = category_prefix (token_category t1))) as [He|He].
      * exists n. split; [by left|]. rewrite He, Hc1 in Hb. simpl in Hb. lia.
      * exists c. split; [by right|done].
    + intros o1 t1 [[<- <-]|[_ F1]]; [by rewrite lookup_insert_eq|].
      destruct (ok_reversed v Hok _ _ F1) as [o2 F2]. rewrite lookup_insert_ne; [by eexists|].
      intros He. rewrite <- He, Hun in F2. done.
    + intros s o1 [[<- <-]|[Hne Hs]]; [eexists; split; [by left|done]|].
      destruct (ok_forwarded v Hok _ _ Hs) as (t1 & F1 & <-). exists t1. split; [right; split|]; congruence.
Qed.

Lemma looked_up_unaliased v o cat t v' : looked_up v o cat t v' -> resolver v = None ->
  vault_ok v -> room v cat -> unaliased v -> unaliased v' /\ resolver v' = None.
Proof.
  intros Hl Hn Hok Hr Hu. destruct Hl as [t Ho|t o' Ho Ho' Hres|n v' Ho Hb Hf Hrv Hc _ _ Hres]; [done|done|].
  split; [|congruence]. intros o1 t1. rewrite Hf, Hrv, lookup_insert_Some.
  intros [[<- <-]|[_ F1]]; [by rewrite lookup_insert_eq|].
  rewrite lookup_insert_ne; [by apply Hu|]. subst n. intros He. by apply (next_is_new v o1 cat t1).
Qed.

(** A counter moves by at most one. *)
Lemma looked_up_counter v o cat t v' p : looked_up v o cat t v' -> room v cat ->
  (default 0 (counters v' !! p) <= default 0 (counters v !! p) + 1)%N.
Proof.
  intros Hl Hr. destruct Hl as [t Ho|t o' Ho Ho' _|n v' Ho Hb Hf Hrv Hc _ _ _]; [lia|simpl; lia|].
  rewrite Hc. destruct (decide (category_prefix cat = p)) as [<-|Hne].
  - rewrite lookup_insert_eq, Hb, bump_room by done. simpl. lia.
  - rewrite lookup_insert_ne by done. lia.
Qed.

End Invariant.

(** ** Loading *)

Section Loading.
Implicit Types l : list (string * PseudoToken).

Definition load_all l (m : gmap string PseudoToken * gmap string string) :=
  fold_left load_entry (map store_token l) m.

Lemma load_all_forward l m o :
  (forall t, (load_all l m).1 !! o = Some t -> (o, t) ∈ l \/ m.1 !! o = Some t) /\
  (o ∈ l.*1 \/ is_Some (m.1 !! o) -> is_Some ((load_all l m).1 !! o)).
Proof.
  revert m. induction l as [|[o' t'] l IH]; intros m; [split; [by right|by intros [?%elem_of_nil|?]]|].
  change (load_all ((o', t') :: l) m) with (load_all l (load_entry m (store_token (o', t')))).
  destruct (IH (load_entry m (store_token (o', t')))) as [IH1 IH2]. clear IH. simpl in IH1, IH2.
  split.
  - intros t Ht. destruct (IH1 _ Ht) as [?|[[-> <-]|[_ ?]]%lookup_insert_Some]; [by left; right| |by right].
    left. apply elem_of_cons. left. by destruct t'.
  - intros Ho. apply IH2. rewrite lookup_insert_is_Some'. simpl in Ho. rewrite elem_of_cons in Ho. naive_solver.
Qed.

Lemma load_all_reverse l m s :
  (forall o, (load_all l m).2 !! s = Some o -> (exists t, (o, t) ∈ l /\ token t = s) \/ m.2 !! s = Some o) /\
  ((exists o t, (o, t) ∈ l /\ token t = s) \/ is_Some (m.2 !! s) -> is_Some ((load_all l m).2 !! s)).
Proof.
  revert m. induction l as [|[o' t'] l IH]; intros m; [split; [by right|by intros [(?&?&?%elem_of_nil&_)|?]]|].
  change (load_all ((o', t') :: l) m) with (load_all l (load_entry m (store_token (o', t')))).
  destruct (IH (load_entry m (store_token (o', t')))) as [IH1 IH2]. clear IH. simpl in IH1, IH2.
  split.
  - intros o Ho. destruct (IH1 _ Ho) as [(t & ? & ?)|[[<- <-]|[_ ?]]%lookup_insert_Some]; [| |by right].
    + left. exists t. split; [by right|done].
    + left. exists t'. split; [by left|done].
  - intros Hs. apply IH2. rewrite lookup_insert_is_Some'. setoid_rewrite elem_of_cons in Hs. naive_solver.
Qed.

Context `{CaseMapping, SimilarityCrate, HashOrderLaws}.

(** What the loop of [load] rebuilds from the saved entries. *)
Lemma load_all_vault v : vault_ok v ->
  let m := load_all (hm_iter (forward v)) (∅, ∅) in
  m.1 = forward v /\ dom m.2 = dom (reverse_map v) /\ (unaliased v -> m.2 = reverse_map v).
Proof.
  intros Hok m.
  assert (Hr : forall s o, m.2 !! s = Some o -> exists t, forward v !! o = Some t /\ token t = s).
  { intros s o Ho. destruct (load_all_reverse (hm_iter (forward v)) (∅, ∅) s) as [Hl _].
    destruct (Hl o Ho) as [(t & Ht%elem_of_hm_iter & Hs)|He]; [by eauto|]. cbn in He. by rewrite lookup_empty in He. }
  assert (Hd : forall s, is_Some (reverse_map v !! s) -> is_Some (m.2 !! s)).
  { intros s [o Ho]. destruct (load_all_reverse (hm_iter (forward v)) (∅, ∅) s) as [_ Hl]. apply Hl. left.
    destruct (ok_forwarded v Hok _ _ Ho) as (t & Ht & Hs). exists o, t. by rewrite elem_of_hm_iter. }
  split_and!.
  - apply map_eq. intros o. destruct (load_all_forward (hm_iter (forward v)) (∅, ∅) o) as [F1 F2]. fold m in F1, F2.
    destruct (m.1 !! o) as [t|] eqn:Ho.
    + destruct (F1 t eq_refl) as [Ht%elem_of_hm_iter|He]; [done|]. cbn in He. by rewrite lookup_empty in He.
    + destruct (forward v !! o) as [t|] eqn:Ht; [|done]. apply elem_of_hm_iter in Ht.
      destruct F2 as [? ?]; [|done]. left. by apply (list_elem_of_fmap_2 fst _ (o, t)).
  - apply set_eq. intros s. rewrite !elem_of_dom. split; [|by apply Hd].
    intros [o Ho]. destruct (Hr _ _ Ho) as (t & Ht & <-). exact (ok_reversed v Hok _ _ Ht).
  - intros Hu. apply map_eq. intros s. destruct (m.2 !! s) as [o|] eqn:Ho.
    + destruct (Hr _ _ Ho) as (t & Ht & <-). symmetry. exact (Hu _ _ Ht).
    + destruct (reverse_map v !! s) as [o|] eqn:Hs; [|done].
      destruct (Hd s) as [? ?]; [by rewrite Hs|]. congruence.
Qed.
End Loading.

(** ** What the vault promises *)

Section Promises.
Context `{CaseMapping, SimilarityCrate, HashOrder}.

(** The tokens given to a sequence of originals. *)
Fixpoint pseudonyms (v : Vault) (l : list (string * EntityCategory)) : list PseudoToken * Vault :=
  match l with
  | [] => ([], v)
  | (o, cat) :: l =>
      let '(t, v) := get_or_create v o cat in
      let '(ts, v) := pseudonyms v l in
      (t :: ts, v)
  end.

(** [v] holds its invariant, merges nothing, and counted at most [n]. *)
Definition exact_vault (n : nat) (v : Vault) : Prop :=
  vault_ok v /\ unaliased v /\ resolver v = None /\ forall p, (default 0 (counters v !! p) <= N.of_nat n)%N.

Lemma vault_new_exact p k : exact_vault 0 (vault_new p k).
Proof. destruct (vault_new_ok p k). by split_and!. Qed.

Lemma exact_step n v o cat : exact_vault n v -> (N.of_nat n + 1 < 2 ^ 32)%N ->
  let r := get_or_create v o cat in
  exact_vault (S n) r.2 /\ forward r.2 !! o = Some r.1 /\ forward v ⊆ forward r.2.
Proof.
  intros (Hok & Hu & Hn & Hc) Hlt r. pose proof (get_or_create_looked_up v o cat) as Hl. fold r in Hl.
  assert (Hr : room v cat) by (pose proof (Hc (category_prefix cat)); unfold room; lia).
  destruct (looked_up_ok _ _ _ _ _ Hl Hok Hr) as (? & ? & ? & _).
  destruct (looked_up_unaliased _ _ _ _ _ Hl Hn Hok Hr Hu) as [? ?].
  split_and!; [split_and!|..]; try done. intros p.
  pose proof (looked_up_counter _ _ _ _ _ p Hl Hr). specialize (Hc p). lia.
Qed.

Lemma pseudonyms_spec n v l : exact_vault n v -> (N.of_nat (n + length l) < 2 ^ 32)%N ->
  let r := pseudonyms v l in
  exact_vault (n + length l) r.2 /\ forward v ⊆ forward r.2 /\
  forall i o cat, l !! i = Some (o, cat) -> exists t, r.1 !! i = Some t /\ forward r.2 !! o = Some t.
Proof.
  revert n v. induction l as [|[o cat] l IH]; intros n v Hv Hlt; simpl in *.
  - rewrite Nat.add_0_r. by split_and!.
  - pose proof (exact_step n v o cat Hv ltac:(lia)) as (Hv1 & Ho & Hs). 
    destruct (get_or_create v o cat) as [t v1]. simpl in *.
    pose proof (IH (S n) v1 Hv1 ltac:(lia)) as (Hv2 & Hs2 & Hl). 
    destruct (pseudonyms v1 l) as [ts v2]. simpl in *.
    split_and!; [by replace (n + S (length l)) with (S (n + length l)) by lia|by etrans|].
    intros [|i] o' cat'; simpl; [|by apply Hl]. intros [= <- <-]. exists t. split; [done|].
    by eapply lookup_weaken.
Qed.

End Promises.

(** C14: A lookup in the vault never changes or forgets a mapping: the
    original now has the answered token, every original keeps its token,
    every token keeps its original, and the vault's invariant (tokens are
    spelled from their category and a number that was counted; the two maps
    name each other's entries) is kept.  This holds with and without a fuzzy
    resolver, as long as the category's 32-bit counter is not at its end. *)
Theorem get_or_create_keeps_vault `{CaseMapping, SimilarityCrate, HashOrder} v o cat :
  vault_ok v -> room v cat ->
  let (t, v') := get_or_create v o cat in
  vault_ok v' /\ forward v' !! o = Some t /\ forward v ⊆ forward v' /\ reverse_map v ⊆ reverse_map v'.
Proof.
  intros Hok Hr. pose proof (get_or_create_looked_up v o cat) as Hl. destruct (get_or_create v o cat) as [t v'].
  by apply (looked_up_ok _ _ _ _ _ Hl).
Qed.

(** C15: Without a resolver, the tokens a new vault gives to any sequence of
    fewer than 2^32 - 1 originals are one to one: two positions get the same
    token exactly when they ask for the same original (whatever their
    categories, custom ones included), and each token leads back to its
    original. *)
Theorem pseudonyms_one_to_one `{CaseMapping, SimilarityCrate, HashOrder} p k l i j o o' cat cat' :
  (N.of_nat (length l) < 2 ^ 32 - 1)%N -> l !! i = Some (o, cat) -> l !! j = Some (o', cat') ->
  exists t t', (pseudonyms (vault_new p k) l).1 !! i = Some t /\ (pseudonyms (vault_new p k) l).1 !! j = Some t' /\
    (token t = token t' <-> o = o') /\ lookup (pseudonyms (vault_new p k) l).2 (token t) = Some o.
Proof.
  intros Hlt Hi Hj. pose proof (pseudonyms_spec 0 _ l (vault_new_exact p k) ltac:(simpl; lia)) as ((_ & Hu' & _) & _ & Hl).
  destruct (Hl _ _ _ Hi) as (t & Ht & Ho). destruct (Hl _ _ _ Hj) as (t' & Ht' & Ho').
  exists t, t'. split_and!; [done|done| |by apply Hu']. split.
  - intros He. apply Hu' in Ho, Ho'. rewrite He in Ho. congruence.
  - intros <-. congruence.
Qed.

(** Whatever the file system answers to [save], the vault's file is
    either the old one, untouched, or the complete new one; and opening the
    new one under the same key gives the same tokens, counters and known
    tokens, and, for a vault that merged no spellings, the same originals. *)
Theorem save_then_open `{CaseMapping, SimilarityCrate, AeadLaws, VaultCodecLaws, HashOrderLaws} v p nonce io disk :
  vault_ok v -> path v = Some p -> length (key v) = 32 -> length nonce = 12 ->
  let (r, disk') := save v nonce io disk in
  match r with
  | Err _ => disk' !! p = disk !! p
  | Ok _ => exists v', vault_open disk' p (key v) = Ok v' /\
      forward v' = forward v /\ counters v' = counters v /\ dom (reverse_map v') = dom (reverse_map v) /\
      (unaliased v -> reverse_map v' = reverse_map v)
  end.
Proof.
  intros Hok Hp Hk Hn. unfold save. rewrite Hp.
  assert (Htmp : p +:+ ".tmp" <> p).
  { intros Ht%(f_equal (fun s => length (as_bytes s))). rewrite as_bytes_app, length_app in Ht. simpl in Ht. lia. }
  destruct (aead_round_trip (key v) nonce (vault_to_json (to_vault_data v)) Hk Hn) as (c & He & Hd).
  unfold encrypt. rewrite bool_decide_eq_true_2, He by done. simpl.
  destruct (create_dir_all io); simpl; [|done].
  destruct (write_fails io); [by rewrite lookup_insert_ne|]. destruct (rename_ok io); [|by rewrite lookup_insert_ne].
  unfold vault_open. rewrite bool_decide_eq_true_2 by done. simpl.
  rewrite lookup_delete_ne, lookup_insert_eq by done. unfold load, decrypt_bytes.
  rewrite (bool_decide_eq_false_2 (length (nonce ++ c) < 12)) by (rewrite length_app; lia).
  rewrite bool_decide_eq_true_2 by done. simpl. rewrite <- Hn, take_app_length, drop_app_length, Hd. simpl.
  rewrite vault_json_round_trip. simpl. eexists. split; [done|]. simpl.
  destruct (load_all_vault v Hok) as (? & ? & ?). by split_and!.
Qed.

(** An alias group shares one token only once its canonical spelling has a
    token: a variant met first keeps a token of its own. *)
Lemma alias_group_met_variant_first `{CaseMapping, SimilarityCrate, HashOrder} k th m c x cat :
  c <> x ->
  let v := set_resolver (resolver_new (mkResolverConfig true th m [[c; x]])) (vault_new None k) in
  let (t, v1) := get_or_create v x cat in
  let (t', _) := get_or_create v1 c cat in
  token t <> token t'.
Proof.
  intros Hcx v. assert (Ha : forall o f, o = x \/ o = c -> resolver f = resolver v -> forward f !! c = None ->
    alias_token f o cat = None).
  { intros o f Ho Hr Hc. unfold alias_token. rewrite Hr. cbn [v set_resolver resolver].
    unfold resolve, resolver_new. cbn. unfold add_alias. destruct Ho as [->| ->].
    - by rewrite lookup_insert_eq.
    - destruct (decide (trim (to_lowercase x) = trim (to_lowercase c))) as [->|Hne]; [by rewrite lookup_insert_eq|].
      by rewrite lookup_insert_ne, lookup_insert_eq. }
  unfold get_or_create, get_or_create_with. change (forward v !! x) with (@None PseudoToken).
  rewrite (Ha x) by auto. cbn [forward].
  rewrite lookup_insert_ne by done. change (forward v !! c) with (@None PseudoToken).
  rewrite (Ha c); [|by right|done|cbn [forward]; by rewrite lookup_insert_ne].
  cbn [counters token]. rewrite lookup_insert_eq. intros [_ Hn]%spell_inj. done.
Qed.

(** *** Concrete instances *)

Module ToyVault.
Import Toy.

Definition category_code (c : EntityCategory) : Z + string :=
  match c with
  | Person => inl 0 | Organization => inl 1 | Location => inl 2 | Amount => inl 3 | Percentage => inl 4
  | Date => inl 5 | Email => inl 6 | PhoneNumber => inl 7 | IpAddress => inl 8 | Secret => inl 9
  | Url => inl 10 | Project => inl 11 | Business => inl 12 | Infra => inl 13 | Custom n => inr n
  end%Z.
Definition code_category (c : Z + string) : EntityCategory :=
  match c with
  | inl 0 => Person | inl 1 => Organization | inl 2 => Location | inl 3 => Amount | inl 4 => Percentage
  | inl 5 => Date | inl 6 => Email | inl 7 => PhoneNumber | inl 8 => IpAddress | inl 9 => Secret
  | inl 10 => Url | inl 11 => Project | inl 12 => Business | inl _ => Infra | inr n => Custom n
  end%Z.
#[export] Instance category_countable : Countable EntityCategory.
Proof. apply (inj_countable' category_code code_category). by intros []. Defined.
#[export] Instance stored_eq_dec : EqDecision StoredToken.
Proof. solve_decision. Defined.
#[export] Instance stored_countable : Countable StoredToken.
Proof.
  apply (inj_countable' (fun s => (stored_token s, stored_category s, stored_id s, stored_original s))
    (fun '(a, b, c, d) => mkStored a b c d)). by intros [].
Defined.

(** Data as the bits of its encoding. *)
#[export] Instance toy_codec : VaultCodec := {|
  vault_to_json d := as_bytes (bits (encode (data_forward d, data_counters d)));
  vault_from_json b := (fun x : list (string * StoredToken) * gmap string N => mkVaultData x.1 x.2) <$> decode (unbits (from_bytes b));
|}.
#[export] Instance toy_codec_laws : VaultCodecLaws.
Proof. constructor. intros [f c]. cbn. by rewrite from_as_bytes, unbits_bits, decode_encode. Qed.

Definition demo_key : bytes := replicate 32 "k"%char.
Definition demo_vault : Vault :=
  (pseudonyms (vault_new (Some "v") demo_key) [("Tata", Organization); ("Ann", Person)]).2.
End ToyVault.

Section Witnesses.
Import Toy ToyVault.

Lemma get_or_create_keeps_vault_witness :
  let (t, v') := get_or_create (vault_new None []) "Ann" Person in
  vault_ok v' /\ forward v' !! "Ann" = Some t /\ ∅ ⊆ forward v' /\ ∅ ⊆ reverse_map v'.
Proof. apply (get_or_create_keeps_vault (vault_new None []) "Ann" Person); [apply vault_new_ok|done]. Defined.

Definition demo_requests : list (string * EntityCategory) :=
  [("Ann", Person); ("Bob", Custom "person"); ("Ann", Email)].

Lemma pseudonyms_one_to_one_witness : exists t t',
  (pseudonyms (vault_new None []) demo_requests).1 !! 0 = Some t /\
  (pseudonyms (vault_new None []) demo_requests).1 !! 1 = Some t' /\
  (token t = token t' <-> "Ann" = "Bob") /\
  lookup (pseudonyms (vault_new None []) demo_requests).2 (token t) = Some "Ann".
Proof. by apply (pseudonyms_one_to_one None [] demo_requests 0 1 "Ann" "Bob" Person (Custom "person")). Defined.

Lemma demo_vault_ok : vault_ok demo_vault.
Proof. by apply (pseudonyms_spec 0 _ [("Tata", Organization); ("Ann", Person)] (vault_new_exact (Some "v") demo_key)). Qed.

Lemma save_then_open_witness :
  let (r, disk') := save demo_vault (replicate 12 "n"%char) (mkSaveIo true None true) ∅ in
  match r with
  | Err _ => disk' !! "v" = None
  | Ok _ => exists v', vault_open disk' "v" demo_key = Ok v' /\
      forward v' = forward demo_vault /\ counters v' = counters demo_vault /\
      dom (reverse_map v') = dom (reverse_map demo_vault) /\
      (unaliased demo_vault -> reverse_map v' = reverse_map demo_vault)
  end.
Proof. exact (save_then_open demo_vault "v" (replicate 12 "n"%char) (mkSaveIo true None true) ∅ demo_vault_ok eq_refl eq_refl eq_refl). Qed.

(** A vault that merged "Ann" into "Annette" opens, under an iteration order
    that comes to "Ann" last, with "Ann" as the original of their token. *)
Definition merged_vault : Vault :=
  let v := set_resolver (resolver_new (mkResolverConfig true (f64_ratio 9 10) 3 [])) (vault_new (Some "v") demo_key) in
  (get_or_create (get_or_create v "Annette" Person).2 "Ann" Person).2.

Definition backwards : HashOrder := {| hm_iter _ m := reverse (map_to_list m) |}.

Definition reopened (o : HashOrder) : option string :=
  match vault_open (save (H1 := o) merged_vault (replicate 12 "n"%char) (mkSaveIo true None true) ∅).2 "v" demo_key with
  | Ok v => lookup v "PERSON_1"
  | Err _ => None
  end.

Lemma merged_spellings_swap_on_load :
  lookup merged_vault "PERSON_1" = Some "Annette" /\ reopened backwards = Some "Annette" /\ reopened toy_order = Some "Ann".
Proof. split_and!; vm_compute; reflexivity. Qed.
End Witnesses.
