(* ===== verification/FormatPreserving.v ===== *)
(** * Format-preserving tokens

    [format_preserving.rs]: fake values that keep the shape of the original,
    made from the category's counter, and the vault lookup that stores them
    ([Vault::get_or_create_fp]). *)

From S2P Require Import Prelude Text BTree Json Crates Concrete Vault.
From stdpp Require Import pretty.

(** [{n:0w}]. *)
Definition pad (w : nat) (n : N) : string :=
  let s := pretty n in
  from_bytes (replicate (w - str_len s) "0"%char ++ as_bytes s).

Definition fp_category_prefix (c : EntityCategory) : string :=
  match c with
  | Person => "PERSON" | Organization => "ORG" | Location => "LOC" | Amount => "AMOUNT"
  | Percentage => "PCT" | Date => "DATE" | Email => "EMAIL" | PhoneNumber => "PHONE"
  | IpAddress => "IP" | Secret => "SECRET" | Url => "URL" | Project => "PROJECT"
  | Business => "BUSINESS" | Infra => "INFRA" | Custom _ => "CUSTOM"
  end.

Definition fake_phone (o : string) (n : N) : string :=
  (if starts_with "+91" o || contains "91 " o then
     "+91 " +:+ pad 5 (55500 + n mod 99999) +:+ " " +:+ pad 5 (10000 + n * 7 mod 89999)
   else if starts_with "+1" o || starts_with "1-" o then
     "+1-555-" +:+ pad 3 (100 + n mod 899) +:+ "-" +:+ pad 4 (1000 + n * 3 mod 8999)
   else pad 10 (5550000000 + n * 13 mod 9999999))%N.

Definition fake_aadhaar (n : N) : string :=
  pad 4 (5555 + n mod 4444) +:+ " " +:+ pad 4 (1000 + n * 7 mod 8999) +:+ " " +:+ pad 4 (1000 + n * 13 mod 8999).

(** [alphabet[i % alphabet.len()] as char]. *)
Definition pick (alphabet : string) (i : N) : string :=
  from_bytes (from_option (fun c => [c]) [] (as_bytes alphabet !! N.to_nat (i mod N.of_nat (str_len alphabet)))).

Definition letters : string := "ABCDEFGHJKLMNPQRSTUVWXYZ".

Definition fake_pan (n : N) : string :=
  let l i := pick letters (n + i * 7) in
  l 0%N +:+ l 1%N +:+ l 2%N +:+ l 3%N +:+ l 4%N +:+ pretty (n mod 10)%N +:+ pretty (n / 10 mod 10)%N
  +:+ pretty (n / 100 mod 10)%N +:+ pretty (n / 1000 mod 10)%N +:+ l 5%N.

Definition fake_gstin (n : N) : string := pad 2 (n mod 36 + 1) +:+ fake_pan n +:+ "1ZV".

Section FormatPreserving.
Context `{CaseMapping, SimilarityCrate, HashOrder}.

Definition fake_amount (o : string) (id : N) : string :=
  let n := (id * 1234 + 100)%N in
  let cents := pretty (n / 100)%N +:+ "." +:+ pad 2 (n mod 100) in
  if contains "₹" o || contains "inr" (to_lowercase o) then "₹" +:+ pretty n
  else if contains "$" o then "$" +:+ cents
  else if contains "€" o then "€" +:+ cents
  else if contains "£" o then "£" +:+ cents
  else cents.

Definition secret_prefixes : list string := ["sk-"; "pk-"; "AKIA"; "Bearer "; "ghp_"; "glpat-"].
Definition secret_alphabet : string := "ABCDEFGHJKLMNPQRSTUVWXYZ0123456789".

Definition fake_secret (o : string) (id : N) : string :=
  match List.find (fun p => starts_with p o) secret_prefixes with
  | Some prefix =>
      let suffix_len := Nat.min (str_len o - str_len prefix) 20 in
      prefix +:+ foldr (fun i r => pick secret_alphabet (id + N.of_nat i * 7) +:+ r) "" (seq 0 suffix_len)
  | None => "MASKED-SECRET-" +:+ pad 4 id
  end.

Definition generate (o : string) (cat : EntityCategory) (id : N) : string :=
  match cat with
  | PhoneNumber => fake_phone o id
  | Email => "user" +:+ pad 3 id +:+ "@masked.invalid"
  | IpAddress => "10." +:+ pretty (id / 256 mod 256)%N +:+ "." +:+ pretty (id mod 256)%N +:+ ".1"
  | Amount => fake_amount o id
  | Date => "DATE_" +:+ pad 3 id
  | Url => "https://masked-" +:+ pad 3 id +:+ ".invalid"
  | Secret => fake_secret o id
  | Person => "User-" +:+ pad 3 id
  | Organization => "Org-" +:+ pad 3 id
  | Location => "Location-" +:+ pad 3 id
  | Custom name =>
      let upper := to_uppercase name in
      if bool_decide (upper = "AADHAAR") || bool_decide (upper = "AADHAAR_NUMBER") then fake_aadhaar id
      else if bool_decide (upper = "PAN") || bool_decide (upper = "PAN_CARD") then fake_pan id
      else if bool_decide (upper = "GSTIN") then fake_gstin id
      else if bool_decide (upper = "UPI") || bool_decide (upper = "UPI_ID") then "user" +:+ pad 3 id +:+ "@okmasked"
      else upper +:+ "-" +:+ pad 3 id
  | _ => fp_category_prefix cat +:+ "-" +:+ pad 3 id
  end.

Definition get_or_create_fp (v : Vault) (o : string) (cat : EntityCategory) : PseudoToken * Vault :=
  get_or_create_with (fun _ id => generate o cat id) v o cat.

End FormatPreserving.

(** ** When fakes repeat *)

Lemma pad_value w n : decimal_value 0 (pad w n) = n.
Proof. unfold pad. by rewrite decimal_value_zeros, decimal_value_pretty. Qed.

#[global] Instance pad_inj w : Inj (=) (=) (pad w).
Proof. intros n m He. by rewrite <- (pad_value w n), He, pad_value. Qed.

Lemma str_app_inj_l (a b c : string) : a +:+ b = a +:+ c -> b = c.
Proof. intros He%(f_equal as_bytes). rewrite !as_bytes_app in He. by apply (inj as_bytes), (inj (app _) _ _ He). Qed.

Lemma str_app_inj_r (a b c : string) : b +:+ a = c +:+ a -> b = c.
Proof. intros He%(f_equal as_bytes). rewrite !as_bytes_app in He. by apply (inj as_bytes), (inj (.++ _) _ _ He). Qed.

(** Two one-character texts in front. *)
Lemma one_char_app a b x y : str_len a = 1 -> str_len b = 1 -> a +:+ x = b +:+ y -> a = b /\ x = y.
Proof.
  intros Ha Hb He%(f_equal as_bytes). rewrite !as_bytes_app in He.
  apply app_inj_1 in He as [H1%(inj as_bytes) H2%(inj as_bytes)]; [done|]. unfold str_len in *. congruence.
Qed.

Definition pick_ok (alphabet : string) : Prop := NoDup (as_bytes alphabet) /\ as_bytes alphabet <> [].

Lemma letters_ok : pick_ok letters.
Proof. split; [|done]. by apply (bool_decide_unpack (NoDup _)); vm_compute. Qed.

Lemma pick_spec alphabet i : pick_ok alphabet ->
  exists c, pick alphabet i = from_bytes [c] /\ as_bytes alphabet !! N.to_nat (i mod N.of_nat (str_len alphabet)) = Some c.
Proof.
  intros [_ Hne]. unfold pick. destruct (_ !! _) as [c|] eqn:Hc; [by exists c|]. exfalso.
  apply lookup_ge_None in Hc. unfold str_len in *. destruct (as_bytes alphabet) as [|a l]; [done|].
  pose proof (N.mod_lt i (N.of_nat (length (a :: l))) ltac:(simpl; lia)). lia.
Qed.

Lemma pick_eq alphabet i j : pick_ok alphabet ->
  pick alphabet i = pick alphabet j <-> (i mod N.of_nat (str_len alphabet) = j mod N.of_nat (str_len alphabet))%N.
Proof.
  intros Hok. destruct (pick_spec alphabet i Hok) as (c & Hc & Hi). destruct (pick_spec alphabet j Hok) as (d & Hd & Hj).
  rewrite Hc, Hd. split.
  - intros [= ->]. apply N2Nat.inj. by apply (NoDup_lookup _ _ _ _ (proj1 Hok) Hi).
  - intros He. rewrite He in Hi. congruence.
Qed.

Lemma digit_length n : (n < 10)%N -> str_len (pretty n) = 1.
Proof. intros Hn. destruct n as [|p]; [done|]. do 4 (destruct p as [p|p|]; try done; try lia). Qed.

Lemma pick_length alphabet i : pick_ok alphabet -> str_len (pick alphabet i) = 1.
Proof. intros Hok. destruct (pick_spec alphabet i Hok) as (c & -> & _). done. Qed.

Lemma four_digits (n : N) : exists q d3 d2 d1 d0, (d3 < 10 /\ d2 < 10 /\ d1 < 10 /\ d0 < 10 /\
  n = 10000 * q + 1000 * d3 + 100 * d2 + 10 * d1 + d0 /\
  n mod 10 = d0 /\ n / 10 mod 10 = d1 /\ n / 100 mod 10 = d2 /\ n / 1000 mod 10 = d3 /\ n mod 10000 = 1000 * d3 + 100 * d2 + 10 * d1 + d0)%N.
Proof.
  exists (n / 10000)%N, (n / 1000 mod 10)%N, (n / 100 mod 10)%N, (n / 10 mod 10)%N, (n mod 10)%N.
  pose proof (N.Div0.div_div n 10 10) as E2. pose proof (N.Div0.div_div n 100 10) as E3. pose proof (N.Div0.div_div n 1000 10) as E4.
  change (10*10)%N with 100%N in E2. change (100*10)%N with 1000%N in E3.  change (1000*10)%N with 10000%N in E4.
  pose proof (N.div_mod n 10 ltac:(done)). pose proof (N.div_mod (n/10) 10 ltac:(done)).
  pose proof (N.div_mod (n/100) 10 ltac:(done)). pose proof (N.div_mod (n/1000) 10 ltac:(done)). pose proof (N.div_mod n 10000 ltac:(done)).
  pose proof (N.mod_lt n 10 ltac:(done)). pose proof (N.mod_lt (n/10) 10 ltac:(done)).
  pose proof (N.mod_lt (n/100) 10 ltac:(done)). pose proof (N.mod_lt (n/1000) 10 ltac:(done)). 
  split_and!; try done; lia.
Qed.
Lemma digits_mod (n m : N) : (n mod 10000 = m mod 10000)%N <->
  (n mod 10 = m mod 10 /\ n / 10 mod 10 = m / 10 mod 10 /\ n / 100 mod 10 = m / 100 mod 10 /\
   n / 1000 mod 10 = m / 1000 mod 10)%N.
Proof.
  destruct (four_digits n) as (? & ? & ? & ? & ? & ? & ? & ? & ? & _ & -> & -> & -> & -> & ->).
  destruct (four_digits m) as (? & ? & ? & ? & ? & ? & ? & ? & ? & _ & -> & -> & -> & -> & ->). lia.
Qed.
Lemma ip_mod (n m : N) : (n mod 65536 = m mod 65536)%N <-> (n / 256 mod 256 = m / 256 mod 256 /\ n mod 256 = m mod 256)%N.
Proof.
  assert (Hs : forall k, (k mod 65536 = k mod 256 + 256 * (k / 256 mod 256) /\ k mod 256 < 256 /\ k / 256 mod 256 < 256)%N).
  { intros k. change 65536%N with (256 * 256)%N. rewrite N.Div0.mod_mul_r. split; [done|]. by split; apply N.mod_lt. }
  destruct (Hs n) as (-> & Hn & Hn'), (Hs m) as (-> & Hm & Hm'). revert Hn Hn' Hm Hm'.
  generalize (n mod 256)%N (n / 256 mod 256)%N (m mod 256)%N (m / 256 mod 256)%N. lia.
Qed.

Lemma mod_add_r (n m k a : N) : a <> 0%N -> (n mod a = m mod a)%N -> ((n + k) mod a = (m + k) mod a)%N.
Proof. intros Ha He. by rewrite (N.Div0.add_mod n), (N.Div0.add_mod m), He. Qed.

Lemma fake_pan_eq n m : fake_pan n = fake_pan m <-> (n mod 24 = m mod 24 /\ n mod 10000 = m mod 10000)%N.
Proof.
  rewrite digits_mod. unfold fake_pan. split.
  - assert (Hd : forall k : N, str_len (pretty (k mod 10)%N) = 1) by (intros k; apply digit_length; by apply N.mod_lt).
    assert (Hl : forall k : N, str_len (pick letters k) = 1) by (intros k; apply pick_length, letters_ok).
    intros He. apply one_char_app in He as [H0 He]; [|done..].
    do 4 (apply one_char_app in He as [_ He]; [|done..]).
    do 4 (apply one_char_app in He as [?%(inj pretty) He]; [|done..]).
    apply (pick_eq letters _ _ letters_ok) in H0. rewrite !N.mul_0_l, !N.add_0_r in H0. done.
  - intros (H24 & H0 & H1 & H2 & H3).
    assert (Hp : forall k, pick letters (n + k) = pick letters (m + k)).
    { intros k. apply (pick_eq letters _ _ letters_ok). by apply mod_add_r. }
    rewrite !Hp. congruence.
Qed.

(** The categories whose fake is a fixed text around the whole number. *)
Definition numbered (cat : EntityCategory) : bool :=
  match cat with
  | Email | Date | Url | Person | Organization | Location | Percentage | Project | Business | Infra => true
  | _ => false
  end.

Lemma fake_ip_eq (n m : N) :
  "10." +:+ pretty (n / 256 mod 256)%N +:+ "." +:+ pretty (n mod 256)%N +:+ ".1" =
  "10." +:+ pretty (m / 256 mod 256)%N +:+ "." +:+ pretty (m mod 256)%N +:+ ".1" <-> (n mod 65536 = m mod 65536)%N.
Proof.
  rewrite ip_mod. split.
  - intros He%str_app_inj_l. 
    assert (Hdot : forall k : N, "."%char ∉ as_bytes (pretty k)).
    { intros k Hk. pose proof (pretty_N_digits k) as Hd. unfold str_all in Hd. rewrite forallb_forall in Hd.
      apply list_elem_of_In in Hk. by specialize (Hd _ Hk). }
    apply (f_equal as_bytes) in He. rewrite !as_bytes_app in He. cbn [as_bytes String.list_ascii_of_string app] in He.
    apply sep_inj in He as [H1%(inj as_bytes)%(inj pretty) He]; [|by apply Hdot..].
    apply sep_inj in He as [H2%(inj as_bytes)%(inj pretty) _]; [|by apply Hdot..].
    done.
  - by intros [-> ->].
Qed.

(** When two fakes of one category are equal, for any originals and
    counter values: never, for the categories that write the whole number;
    every 65536 for IP addresses; every 30000 (equal modulo 24 and modulo
    10000) for PAN numbers. *)
Theorem fakes_repeat_exactly `{CaseMapping} cat o o' (n m : N) :
  (numbered cat = true -> generate o cat n = generate o' cat m <-> n = m) /\
  (generate o IpAddress n = generate o' IpAddress m <-> (n mod 65536 = m mod 65536)%N) /\
  (fake_pan n = fake_pan m <-> (n mod 24 = m mod 24 /\ n mod 10000 = m mod 10000)%N).
Proof.
  split_and!; [|apply fake_ip_eq|apply fake_pan_eq].
  intros Hc. split; [|by intros ->; destruct cat].
  destruct cat; try done; cbn; intros He; repeat (first [apply str_app_inj_l in He | apply str_app_inj_r in He]); by apply (inj _) in He.
Qed.

(** Two categories with a fake of the same kind: the second original takes
    over the token of the first. *)
Lemma fakes_of_two_categories_collide `{CaseLaws, SimilarityCrate, HashOrder} k o o' :
  o <> o' ->
  let (t, v) := get_or_create_fp (vault_new None k) o (Custom "PAN") in
  let (t', v') := get_or_create_fp v o' (Custom "PAN_CARD") in
  token t = token t' /\ Vault.lookup v (token t) = Some o /\ Vault.lookup v' (token t) = Some o'.
Proof.
  intros Ho. assert (Hp : forall name x n, name = "PAN" \/ name = "PAN_CARD" -> generate x (Custom name) n = fake_pan n).
  { intros name x n Hn. unfold generate. rewrite to_uppercase_ascii by by destruct Hn as [->| ->]. by destruct Hn as [->| ->]. }
  unfold get_or_create_fp. rewrite get_or_create_with_new by done. cbv beta iota zeta.
  rewrite get_or_create_with_new by (cbn [forward resolver]; by rewrite ?lookup_insert_ne).
  cbv beta iota zeta. unfold Vault.lookup. cbn [counters reverse_map token category_prefix].
  rewrite !to_uppercase_ascii by done. change (to_ascii_uppercase "PAN") with "PAN".
  change (to_ascii_uppercase "PAN_CARD") with "PAN_CARD".
  rewrite lookup_insert_ne, !Hp by auto. by rewrite !lookup_insert_eq.
Qed.
