(* ===== verification/Pseudonym.v ===== *)
(** * Replacing entities and restoring them

    [replacer.rs] and the whole-text half of [rehydrator.rs].  A slice that
    is out of order or off a character boundary panics, which is [None].
    [rehydrate_inverts] is the round trip. *)

From S2P Require Import Prelude Text BTree Json Crates Concrete Vault FormatPreserving.
From stdpp Require Import pretty.

Record PseudonymizedText := mkPseudonymized {
  text_ : string;
  mappings : gmap string string;
  entities : list DetectedEntity;
}.

Inductive MaskingStrategy := TokenStrategy | FormatPreserving.

Record RehydratedText := mkRehydrated {
  rehydrated_text : string;
  rehydrated_count : nat;
}.

Section Pseudonym.
Context `{CaseMapping, SimilarityCrate, HashOrder}.

(** ** [Replacer] *)

(** The loop, from what is written so far; [goc] is the vault lookup. *)
Fixpoint replace_loop (goc : Vault -> string -> EntityCategory -> PseudoToken * Vault) (text : string)
    (es : list DetectedEntity) (result : string) (m : gmap string string) (last_end : nat) (v : Vault) :
    option (string * gmap string string * nat * Vault) :=
  match es with
  | [] => Some (result, m, last_end, v)
  | e :: es =>
      let! gap := if last_end <? start_ e then str_slice text last_end (start_ e) else Some "" else None in
      let '(t, v) := goc v (original e) (category e) in
      replace_loop goc text es (result +:+ gap +:+ token t) (<[token t := original e]> m) (end_ e) v
  end.

Definition pseudonymize_by (goc : Vault -> string -> EntityCategory -> PseudoToken * Vault)
    (text : string) (es : list DetectedEntity) (v : Vault) : option (PseudonymizedText * Vault) :=
  let! (result, m, last_end, v) := replace_loop goc text es "" ∅ 0 v else None in
  let! tail := if last_end <? str_len text then str_from text last_end else Some "" else None in
  Some (mkPseudonymized (result +:+ tail) m es, v).

Definition pseudonymize := pseudonymize_by get_or_create.
Definition pseudonymize_fp := pseudonymize_by get_or_create_fp.

Definition pseudonymize_with_strategy (text : string) (es : list DetectedEntity) (v : Vault) (strategy : MaskingStrategy) :=
  match strategy with
  | TokenStrategy => pseudonymize text es v
  | FormatPreserving => pseudonymize_fp text es v
  end.

(** ** [Rehydrator::rehydrate] *)

(** The mappings, longest token first. *)
Definition sorted_mappings (v : Vault) : list (string * string) :=
  sort_by_key (fun b => (- Z.of_nat (str_len b.1))%Z) (hm_iter (reverse_mappings v)).

Definition rehydrate_step (r : RehydratedText) (mapping : string * string) : RehydratedText :=
  if contains mapping.1 (rehydrated_text r)
  then mkRehydrated (str_replace mapping.1 mapping.2 (rehydrated_text r)) (S (rehydrated_count r))
  else r.

Definition rehydrate (text : string) (v : Vault) : RehydratedText :=
  fold_left rehydrate_step (sorted_mappings v) (mkRehydrated text 0).

End Pseudonym.

(** ** Text with tokens in it

    A segment is the text before an entity, its token and its original, as
    bytes; [render] writes the originals of the tokens already restored and
    the tokens of the others. *)

Abbreviation segment := (bytes * bytes * bytes)%type.

Section Render.
Variable restored : bytes -> bool.

Fixpoint render (segs : list segment) (tail : bytes) : bytes :=
  match segs with
  | [] => tail
  | (gap, t, o) :: segs => gap ++ (if restored t then o else t) ++ render segs tail
  end.
End Render.

(** The text with every original in place. *)
Definition plain_text (segs : list segment) (tail : bytes) : bytes := render (fun _ => true) segs tail.

(** The characters a token's prefix is made of, and the spelling of tokens. *)
Definition prefix_char (c : ascii) : bool := is_ascii_uppercase c || bool_decide (c = "_"%char).

Definition token_like (t : bytes) : Prop :=
  exists p d n, t = p ++ "_"%char :: d :: n /\ Forall (fun c => prefix_char c = true) p /\
    Forall (fun c => is_ascii_digit c = true) (d :: n).

(** An underscore followed by a digit. *)
Fixpoint has_mark (b : bytes) : bool :=
  match b with
  | c :: ((d :: _) as b') => (bool_decide (c = "_"%char) && is_ascii_digit d) || has_mark b'
  | _ => false
  end.

Definition ends_ok (b : bytes) : Prop := forall x c, b = x ++ [c] -> prefix_char c = false.
Definition head_ok (b : bytes) : Prop := forall c x, b = c :: x -> is_ascii_digit c = false.

(** After the text [l]: no entity follows a prefix character or is followed
    by a digit. *)
Fixpoint separated (l : bytes) (segs : list segment) (tail : bytes) : Prop :=
  match segs with
  | [] => True
  | (gap, t, o) :: segs =>
      token_like t /\ ends_ok (l ++ gap) /\ head_ok (plain_text segs tail) /\ separated (l ++ gap ++ o) segs tail
  end.

(** ** Entities in a text *)

(** [es] are the entities of [text] from [last] on: in order, disjoint, at
    character boundaries, each with the text it covers. *)
Fixpoint placed (text : string) (last : nat) (es : list DetectedEntity) : Prop :=
  is_char_boundary text last = true /\
  match es with
  | [] => True
  | e :: es =>
      last <= start_ e /\ str_slice text (start_ e) (end_ e) = Some (original e) /\ placed text (end_ e) es
  end.

Definition requests (es : list DetectedEntity) : list (string * EntityCategory) :=
  map (fun e => (original e, category e)) es.

(** The segments of a text whose entities have the tokens [ts]. *)
Fixpoint segments (text : string) (last : nat) (es : list DetectedEntity) (ts : list PseudoToken) : list segment :=
  match es, ts with
  | e :: es, t :: ts =>
      (take (start_ e - last) (drop last (as_bytes text)), as_bytes (token t), as_bytes (original e))
      :: segments text (end_ e) es ts
  | _, _ => []
  end.

Definition final_end (last : nat) (es : list DetectedEntity) : nat := fold_left (fun _ e => end_ e) es last.

Definition record_all (segs : list segment) (m : gmap string string) : gmap string string :=
  fold_left (fun m (s : segment) => <[from_bytes s.1.2 := from_bytes s.2]> m) segs m.

(** No entity follows a prefix character or is followed by a digit. *)
Definition set_apart (text : string) (es : list DetectedEntity) : Prop :=
  Forall (fun e => ends_ok (take (start_ e) (as_bytes text)) /\ head_ok (drop (end_ e) (as_bytes text))) es.

(** A category whose tokens begin with capital letters and underscores. *)
Definition plain_category `{CaseMapping} (c : EntityCategory) : Prop :=
  Forall (fun c => prefix_char c = true) (as_bytes (category_prefix c)).

Definition all_categories (Q : EntityCategory -> Prop) (v : Vault) : Prop :=
  forall o t, forward v !! o = Some t -> Q (token_category t).

Abbreviation plain_vault := (all_categories plain_category).

(** ** Where a token can occur *)

Lemma has_mark_spec b : has_mark b = true <-> exists x d y, b = x ++ "_"%char :: d :: y /\ is_ascii_digit d = true.
Proof.
  split.
  - induction b as [|c [|d b] IH]; [done|done|]. intros Hm.
    change ((bool_decide (c = "_"%char) && is_ascii_digit d) || has_mark (d :: b) = true) in Hm.
    apply orb_true_iff in Hm as [[Hc Hd]%andb_true_iff|Hm].
    + apply bool_decide_eq_true in Hc as ->. by exists [], d, b.
    + destruct (IH Hm) as (x & d' & y & He & ?). exists (c :: x), d', y. by rewrite He.
  - intros (x & d & y & -> & Hd). induction x as [|c x IH].
    + change ((bool_decide ("_"%char = "_"%char) && is_ascii_digit d) || has_mark (d :: y) = true). by rewrite Hd.
    + change (has_mark (c :: (x ++ "_"%char :: d :: y)) = true). remember (x ++ "_"%char :: d :: y) as r.
      destruct r as [|e r]; [by destruct x|]. simpl. simpl in IH. rewrite IH. apply orb_true_r.
Qed.

Lemma no_mark x d y b : has_mark b = false -> is_ascii_digit d = true -> b <> x ++ "_"%char :: d :: y.
Proof. intros Hm Hd ->. assert (Ht : has_mark (x ++ "_"%char :: d :: y) = true) by (apply has_mark_spec; eauto). congruence. Qed.

Lemma digit_not_prefix c : is_ascii_digit c = true -> prefix_char c = false.
Proof. by destruct c as [[] [] [] [] [] [] [] []]. Qed.

Lemma prefix_not_digit c : prefix_char c = true -> is_ascii_digit c = false.
Proof. intros Hp. destruct (is_ascii_digit c) eqn:Hd; [|done]. by rewrite digit_not_prefix in Hp. Qed.

Lemma token_like_head t c x : token_like t -> t = c :: x -> is_ascii_digit c = false.
Proof.
  intros (p & d & n & -> & Hp & _) He. destruct p as [|c' p]; simplify_eq/=; [done|].
  apply Forall_cons in Hp as [Hp _]. by apply prefix_not_digit.
Qed.

(** A text that ends well is not all prefix characters. *)
Lemma ends_ok_not_prefix l a : ends_ok (l ++ a) -> a <> [] -> ~ Forall (fun c => prefix_char c = true) a.
Proof.
  intros He Ha Hf. destruct a as [|c a] using rev_ind; [done|]. clear IHa.
  apply Forall_app in Hf as [_ [Hc _]%Forall_cons]. specialize (He (l ++ a) c). rewrite app_assoc in He.
  rewrite He in Hc by done. done.
Qed.

(** The part of a token up to its first mark is determined. *)
Lemma mark_inj p d x q e y :
  Forall (fun c => prefix_char c = true) p -> Forall (fun c => prefix_char c = true) q ->
  is_ascii_digit d = true -> is_ascii_digit e = true ->
  p ++ "_"%char :: d :: x = q ++ "_"%char :: e :: y -> p = q /\ d :: x = e :: y.
Proof.
  intros Hp Hq Hd He. revert q Hq. induction p as [|c p IH]; intros [|c' q] Hq H; simplify_eq/=.
  - done.
  - exfalso. destruct q as [|c q]; simplify_eq/=; try done.
    apply Forall_cons in Hq as [_ [Hc _]%Forall_cons]. by rewrite prefix_not_digit in Hd.
  - exfalso. destruct p as [|c p]; simplify_eq/=; try done.
    apply Forall_cons in Hp as [_ [Hc _]%Forall_cons]. by rewrite prefix_not_digit in He.
  - apply Forall_cons in Hp as [_ Hp]. apply Forall_cons in Hq as [_ Hq].
    destruct (IH Hp q Hq) as [-> ?]; done.
Qed.

Lemma render_head_ok restored segs l tail :
  separated l segs tail -> head_ok (plain_text segs tail) -> head_ok (render restored segs tail).
Proof.
  revert l. induction segs as [|[[g t] o] segs IH]; intros l; [done|]. intros (Ht & _ & _ & Hs) Hh.
  destruct g as [|c g]; [|intros c' x He; simplify_eq/=; by eapply Hh].
  simpl in *. destruct (restored t).
  - destruct o as [|c o]; [|intros c' x He; simplify_eq/=; by eapply Hh]. by eapply IH.
  - destruct t as [|c t]; [by destruct Ht as ([] & ? & ? & ? & _)|].
    intros c' x He. simplify_eq/=. by eapply token_like_head.
Qed.

(** No token begins inside text or restored originals. *)
Lemma text_scan restored segs l l0 w tail u z :
  separated l segs tail -> l = l0 ++ w -> w <> [] -> has_mark (l ++ plain_text segs tail) = false ->
  token_like u -> w ++ render restored segs tail <> u ++ z.
Proof.
  revert l l0 w. induction segs as [|[[g t] o] segs IH]; intros l l0 w Hs Hl Hw Hm Hu He.
  - destruct Hu as (p & d & n & -> & _ & [Hd _]%Forall_cons). simpl in He.
    apply (no_mark (l0 ++ p) d (n ++ z) _ Hm Hd). rewrite Hl. unfold plain_text. simpl.
    rewrite <- !app_assoc, He. by rewrite <- app_assoc.
  - simpl in Hs, He. destruct Hs as (Ht & Hend & _ & Hs). unfold plain_text in Hm. simpl in Hm.
    destruct (restored t).
    + apply (IH (l ++ g ++ o) l0 (w ++ g ++ o) Hs); [by rewrite Hl, <- app_assoc| |by rewrite <- !app_assoc|done|].
      * by intros [? _]%app_nil.
      * by rewrite <- !app_assoc.
    + destruct Hu as (p & d & n & -> & Hp & [Hd _]%Forall_cons).
      rewrite <- app_assoc in He. simpl in He. rewrite app_assoc in He.
      rewrite Hl, <- app_assoc in Hend. assert (Hwg : w ++ g <> []) by by intros [? _]%app_nil.
      pose proof (ends_ok_not_prefix _ _ Hend Hwg) as Hnp.
      apply app_eq_app in He as [y [[Hy Hz]|[Hy _]]]; [|by rewrite Hy, Forall_app in Hp; destruct Hp].
      destruct y as [|c [|c' y]]; simplify_eq/=.
      * by rewrite app_nil_r in Hy; rewrite Hy in Hnp.
      * apply Hnp. rewrite Hy. apply Forall_app. split; [done|]. by repeat constructor.
      * apply (no_mark (l0 ++ p) c' (y ++ o ++ render (fun _ => true) segs tail) _ Hm Hd).
        rewrite <- !app_assoc. f_equal. rewrite (app_assoc w), Hy. by rewrite <- !app_assoc.
Qed.

(** The text of digits after a mark, where no digit follows. *)
Lemma digits_before n m r z :
  Forall (fun c => is_ascii_digit c = true) m -> head_ok r -> length n <= length m -> n ++ r = m ++ z -> n = m.
Proof.
  intros Hm Hr Hl He. apply app_eq_app in He as [y [[-> Hz]|[-> Hz]]].
  - rewrite length_app in Hl. destruct y; [by rewrite app_nil_r|simpl in Hl; lia].
  - destruct y as [|c y]; [by rewrite app_nil_r|]. exfalso.
    apply Forall_app in Hm as [_ [Hc _]%Forall_cons]. specialize (Hr _ _ Hz). congruence.
Qed.

(** A token that begins inside a token that is not longer is that token. *)
Lemma token_scan t x w u r z :
  t = x ++ w -> w <> [] -> token_like t -> token_like u -> head_ok r -> length t <= length u ->
  w ++ r = u ++ z -> t = u /\ x = [].
Proof.
  intros Hx Hw (p & d & n & Ht & Hp & Hn) Hut Hr Hlen He.
  pose proof Hut as (q & e & m & Hu & Hq & Hm).
  pose proof Hn as [Hd _]%Forall_cons. pose proof Hm as [Hd' _]%Forall_cons.
  assert (Hin : forall p2, p = x ++ p2 -> w = p2 ++ "_"%char :: d :: n -> t = u /\ x = []).
  { intros p2 Hp2 Hw2. rewrite Hp2 in Hp. apply Forall_app in Hp as [_ Hp]. subst u.
    rewrite Hw2, <- !app_assoc in He. simpl in He. apply mark_inj in He as [<- He]; [|done..].
    assert (length x + length (d :: n) <= length (e :: m)).
    { rewrite Hx, Hw2, !length_app in Hlen. simpl in *. lia. }
    assert (d :: n = e :: m) as Hdn by (apply (digits_before _ _ r z); [done|done|lia|done]).
    apply (f_equal length) in Hdn as Hl. destruct x; [|simpl in *; lia].
    split; [|done]. rewrite Hx, Hw2. simpl. by rewrite Hdn. }
  rewrite Hx in Ht. apply app_eq_app in Ht as [y [[Hy Hz]|[Hy Hz]]]; [|by apply (Hin y)].
  destruct y as [|c y]; [rewrite app_nil_r in Hy; apply (Hin []); [by rewrite app_nil_r|done]|].
  exfalso. destruct w as [|c' w]; [done|].
  assert (Hc : is_ascii_digit c' = true).
  { simplify_eq/=. destruct y as [|c'' y]; simplify_eq/=; [done|].
    rewrite Forall_forall in Hn. apply Hn. set_solver. }
  destruct u as [|c'' u]; [by destruct q|]. simplify_eq/=. by rewrite (token_like_head _ _ _ Hut eq_refl) in Hc.
Qed.

(** ** One replacement, and all of them *)

Definition tokens_of (segs : list segment) : list bytes := (fun s : segment => s.1.2) <$> segs.

Section Replace.
Context (restored : bytes -> bool) (u uo : bytes).
Hypothesis Hu : token_like u.
Hypothesis Hur : restored u = false.

(** Every token still to be restored is at most as long as [u], and [u]
    stands for [uo]. *)
Definition at_most (segs : list segment) : Prop :=
  Forall (fun s : segment => (restored s.1.2 = false -> length s.1.2 <= length u) /\ (s.1.2 = u -> s.2 = uo)) segs.

Lemma nowhere_text segs l l0 a tail :
  separated l segs tail -> l = l0 ++ a -> has_mark (l ++ plain_text segs tail) = false ->
  nowhere u a (render restored segs tail).
Proof.
  intros Hs Hl Hm x w Hx Hw. destruct (bytes_strip _ _) as [z|] eqn:Hz; [|done]. exfalso.
  apply bytes_strip_Some in Hz. apply (text_scan restored segs l (l0 ++ x) w tail u z Hs); try done.
  by rewrite Hl, Hx, <- app_assoc.
Qed.

(** The gap and the entity of a first segment hold no mark of their own. *)
Lemma nowhere_gap g t o segs l tail :
  separated l ((g, t, o) :: segs) tail -> has_mark (l ++ plain_text ((g, t, o) :: segs) tail) = false ->
  nowhere u g (render restored (([], t, o) :: segs) tail).
Proof.
  intros Hs Hm. apply (nowhere_text _ (l ++ g) l); [|done|].
  - destruct Hs as (? & ? & ? & ?). simpl. by rewrite app_nil_r, <- app_assoc.
  - unfold plain_text in *. simpl in *. by rewrite <- app_assoc.
Qed.

Lemma nowhere_token g t o segs l tail :
  separated l ((g, t, o) :: segs) tail -> at_most ((g, t, o) :: segs) -> restored t = false -> t <> u ->
  nowhere u t (render restored segs tail).
Proof.
  intros (Ht & _ & Hh & Hs) [[Hlen _] _]%Forall_cons Hr Hne x w Hx Hw.
  destruct (bytes_strip _ _) as [z|] eqn:Hz; [|done]. apply bytes_strip_Some in Hz. exfalso. apply Hne.
  by destruct (token_scan t x w u _ z Hx Hw Ht Hu (render_head_ok restored _ _ _ Hs Hh) (Hlen Hr) Hz).
Qed.

Lemma separated_mark g t o segs l tail :
  has_mark (l ++ plain_text ((g, t, o) :: segs) tail) = false ->
  has_mark ((l ++ g ++ o) ++ plain_text segs tail) = false.
Proof. unfold plain_text. simpl. by rewrite <- !app_assoc. Qed.

(** [replace] with enough fuel. *)
Definition breplace (b : bytes) : bytes := bytes_replace (length b) u uo b.

Lemma u_nonempty : u <> [].
Proof. by destruct Hu as ([] & ? & ? & -> & _). Qed.

Lemma breplace_skip a b : nowhere u a b -> breplace (a ++ b) = a ++ breplace b.
Proof. unfold breplace. rewrite length_app. apply bytes_replace_skip. Qed.

Lemma breplace_here b : breplace (u ++ b) = uo ++ breplace b.
Proof. unfold breplace. rewrite length_app. apply bytes_replace_here; [apply u_nonempty|done]. Qed.

Lemma breplace_render segs l tail :
  separated l segs tail -> has_mark (l ++ plain_text segs tail) = false -> at_most segs ->
  breplace (render restored segs tail) = render (fun t => restored t || bool_decide (t = u)) segs tail.
Proof.
  revert l. induction segs as [|[[g t] o] segs IH]; intros l Hs Hm Ha.
  - simpl. apply bytes_replace_nowhere. apply (nowhere_text [] (l ++ tail) l tail []); [done|done|].
    unfold plain_text in *. simpl in *. by rewrite app_nil_r.
  - specialize (IH (l ++ g ++ o)). pose proof (nowhere_gap _ _ _ _ _ _ Hs Hm) as Hg.
    pose proof (nowhere_token _ _ _ _ _ _ Hs Ha) as Hnt.
    pose proof (separated_mark _ _ _ _ _ _ Hm) as Hm'. pose proof Hs as (_ & _ & _ & Hs').
    apply Forall_cons in Ha as [[_ Huo] Ha]. specialize (IH Hs' Hm' Ha). simpl in Hg, Huo.
    simpl. rewrite breplace_skip by done. f_equal. destruct (restored t) eqn:Hr; simpl.
    + rewrite breplace_skip, IH; [done|]. apply (nowhere_text segs (l ++ g ++ o) (l ++ g)); [done|by rewrite app_assoc|done].
    + case_bool_decide as Htu; [subst t; by rewrite breplace_here, IH, Huo|].
      by rewrite breplace_skip, IH by auto.
Qed.

(** [contains] sees exactly the tokens that are there. *)
Lemma render_occurs segs l tail x y :
  separated l segs tail -> has_mark (l ++ plain_text segs tail) = false -> at_most segs ->
  render restored segs tail = x ++ u ++ y -> u ∈ tokens_of segs.
Proof.
  assert (Hno : forall a b x y, nowhere u a b -> a ++ b = x ++ u ++ y -> exists x', x = a ++ x' /\ b = x' ++ u ++ y).
  { intros a b x' y' Hn He. apply app_eq_app in He as [w [[Hx Hw]|[Hx Hw]]]; [|by exists w].
    destruct w as [|c w]; [exists []; by rewrite app_nil_r in Hx |-*; rewrite Hx|]. exfalso.
    specialize (Hn x' (c :: w) Hx ltac:(done)). rewrite <- Hw, bytes_strip_app in Hn. done. }
  revert l x. induction segs as [|[[g t] o] segs IH]; intros l x Hs Hm Ha He.
  - exfalso. assert (Hn : nowhere u (render restored [] tail) []).
    { apply (nowhere_text [] (l ++ tail) l tail []); [done|done|]. unfold plain_text in *. simpl in *. by rewrite app_nil_r. }
    rewrite <- (app_nil_r (render _ _ _)) in He. apply Hno in He as (x' & _ & He); [|done].
    apply eq_sym, app_nil in He as [_ [He _]%app_nil]. by apply u_nonempty.
  - pose proof (nowhere_gap _ _ _ _ _ _ Hs Hm) as Hg. pose proof (nowhere_token _ _ _ _ _ _ Hs Ha) as Hnt.
    pose proof (separated_mark _ _ _ _ _ _ Hm) as Hm'. pose proof Hs as (_ & _ & _ & Hs').
    apply Forall_cons in Ha as [_ Ha]. simpl in He, Hg. apply Hno in He as (x1 & _ & He); [|done].
    destruct (decide (t = u)) as [->|Htu]; [by left|]. right. destruct (restored t).
    + apply Hno in He as (x2 & _ & He); [by eapply (IH (l ++ g ++ o))|].
      apply (nowhere_text segs (l ++ g ++ o) (l ++ g)); [done|by rewrite app_assoc|done].
    + apply Hno in He as (x2 & _ & He); [by eapply (IH (l ++ g ++ o))|by apply Hnt].
Qed.

Lemma render_shows segs tail : u ∈ tokens_of segs -> exists x y, render restored segs tail = x ++ u ++ y.
Proof.
  induction segs as [|[[g t] o] segs IH]; intros Hin; [by apply elem_of_nil in Hin|].
  apply elem_of_cons in Hin as [Hut|Hin].
  - exists g, (render restored segs tail). simpl in *. by rewrite <- Hut, Hur.
  - destruct (IH Hin) as (x & y & He). simpl. rewrite He.
    exists (g ++ (if restored t then o else t) ++ x), y. by rewrite !app_assoc.
Qed.
End Replace.

(** *** The whole loop *)

Lemma render_ext r1 r2 segs tail :
  (forall t, t ∈ tokens_of segs -> r1 t = r2 t) -> render r1 segs tail = render r2 segs tail.
Proof.
  induction segs as [|[[g t] o] segs IH]; intros Hr; [done|]. simpl.
  rewrite (Hr t) by by left. rewrite IH; [done|]. intros t' Ht. apply Hr. by right.
Qed.

(** One turn of the loop, in terms of segments. *)
Lemma rehydrate_step_render restored segs tail u o n l :
  token_like (as_bytes u) -> restored (as_bytes u) = false ->
  separated l segs tail -> has_mark (l ++ plain_text segs tail) = false -> at_most restored (as_bytes u) (as_bytes o) segs ->
  rehydrate_step (mkRehydrated (from_bytes (render restored segs tail)) n) (u, o) =
  mkRehydrated (from_bytes (render (fun t => restored t || bool_decide (t = as_bytes u)) segs tail))
    (n + if decide (as_bytes u ∈ tokens_of segs) then 1 else 0).
Proof.
  intros Hu Hur Hs Hm Ha. unfold rehydrate_step. simpl.
  assert (Hc : contains u (from_bytes (render restored segs tail)) = bool_decide (as_bytes u ∈ tokens_of segs)).
  { apply eq_true_iff_eq. rewrite contains_true, as_from_bytes, bool_decide_eq_true. split.
    - intros (x & y & He). by apply (render_occurs restored (as_bytes u) (as_bytes o) Hu Hur segs l tail x y).
    - by apply render_shows. }
  rewrite Hc. case_bool_decide as Hin; destruct (decide _) as [Hin'|Hin']; try done.
  - f_equal; [|lia]. unfold str_replace, str_is_empty. rewrite bool_decide_eq_false_2.
    + unfold str_len. rewrite as_from_bytes. by rewrite <- (breplace_render restored (as_bytes u) (as_bytes o) Hu Hur segs l tail).
    + intros ->. by destruct Hu as ([] & ? & ? & ? & _).
  - f_equal; [|lia]. f_equal. apply render_ext. intros t Ht. rewrite bool_decide_eq_false_2; [by rewrite orb_false_r|].
    by intros ->.
Qed.

Definition counted (segs : list segment) (l : list (string * string)) : list (string * string) :=
  filter (fun m => as_bytes m.1 ∈ tokens_of segs) l.

Lemma rehydrate_loop_render maps restored segs tail n l :
  StronglySorted (by_key (fun b : string * string => - Z.of_nat (str_len b.1))%Z) maps -> NoDup maps.*1 ->
  Forall (fun m => token_like (as_bytes m.1) /\ restored (as_bytes m.1) = false) maps ->
  Forall (fun s : segment => restored s.1.2 = true \/ (from_bytes s.1.2, from_bytes s.2) ∈ maps) segs ->
  separated l segs tail -> has_mark (l ++ plain_text segs tail) = false ->
  fold_left rehydrate_step maps (mkRehydrated (from_bytes (render restored segs tail)) n) =
  mkRehydrated (from_bytes (plain_text segs tail)) (n + length (counted segs maps)).
Proof.
  intros Hsort Hnd Hmaps Hsegs Hs Hm. revert restored n Hmaps Hsegs.
  induction maps as [|[u o] maps IH]; intros restored n Hmaps Hsegs.
  - simpl. rewrite Nat.add_0_r. f_equal. f_equal. apply render_ext. intros t (s & -> & Hin)%list_elem_of_fmap.
    rewrite Forall_forall in Hsegs. destruct (Hsegs _ Hin) as [?|?%elem_of_nil]; done.
  - apply StronglySorted_inv in Hsort as [Hsort Hle]. apply NoDup_cons in Hnd as [Hnew Hnd].
    apply Forall_cons in Hmaps as [[Hu Hur] Hmaps]. simpl in *.
    rewrite (rehydrate_step_render _ _ _ _ _ _ l); [|done..|].
    + rewrite IH; [|done|done| |].
      * f_equal. unfold counted. rewrite filter_cons. simpl. destruct (decide _); simpl; lia.
      * rewrite Forall_forall in Hmaps |- *. intros m Hin. destruct (Hmaps m Hin) as [? Hr]. split; [done|]. rewrite Hr.
        simpl. apply bool_decide_eq_false. intros <-%(inj as_bytes). apply Hnew. by apply (list_elem_of_fmap_2 fst).
      * eapply Forall_impl; [exact Hsegs|]. intros s [->|Hin]; [by left|]. apply elem_of_cons in Hin as [[= Hsu _]|Hin]; [left|by right].
        rewrite (bool_decide_eq_true_2 (s.1.2 = as_bytes u)); [apply orb_true_r|]. by rewrite <- Hsu, as_from_bytes.
    + unfold at_most. eapply Forall_impl; [exact Hsegs|]. intros s [Hr|Hin]; simpl.
      * split; [congruence|]. intros Hsu. congruence.
      * apply elem_of_cons in Hin as [[= <- <-]|Hin].
        -- rewrite !as_from_bytes. done.
        -- rewrite Forall_forall in Hle. specialize (Hle _ Hin). unfold by_key, str_len in Hle. simpl in Hle.
           rewrite as_from_bytes in Hle. split; [lia|]. intros Hsu. exfalso. apply Hnew.
           apply list_elem_of_fmap. exists (from_bytes s.1.2, from_bytes s.2). split; [|done]. by rewrite Hsu, from_as_bytes.
Qed.

(** ** The segments of a pseudonymised text *)

Lemma boundary_le s i : is_char_boundary s i = true -> i <= str_len s.
Proof.
  unfold is_char_boundary, str_len. destruct (as_bytes s !! i) as [c|] eqn:Hi.
  - intros _. apply lookup_lt_Some in Hi. lia.
  - intros [?%bool_decide_eq_true|?%bool_decide_eq_true]%orb_true_iff; unfold str_len in *; lia.
Qed.

Lemma str_slice_Some s a b r : str_slice s a b = Some r <->
  a <= b /\ is_char_boundary s a = true /\ is_char_boundary s b = true /\ r = from_bytes (take (b - a) (drop a (as_bytes s))).
Proof.
  unfold str_slice. destruct (bool_decide_reflect (a <= b)) as [Hab|Hab]; simpl; [|naive_solver].
  destruct (is_char_boundary s a), (is_char_boundary s b); simpl; naive_solver.
Qed.

Lemma boundary_end s : is_char_boundary s (str_len s) = true.
Proof.
  unfold is_char_boundary, str_len. rewrite lookup_ge_None_2 by done.
  apply orb_true_iff. right. by apply bool_decide_eq_true.
Qed.

Lemma placed_boundary text last es : placed text last es -> is_char_boundary text last = true.
Proof. by destruct es; intros [? _]. Qed.

Lemma placed_final text last es : placed text last es -> is_char_boundary text (final_end last es) = true.
Proof.
  revert last. induction es as [|e es IH]; intros last; [by intros [? _]|]. intros (_ & _ & _ & Hp). by apply IH.
Qed.

Lemma render_tail restored segs tail : render restored segs [] ++ tail = render restored segs tail.
Proof. induction segs as [|[[g t] o] segs IH]; [done|]. simpl. by rewrite <- !app_assoc, IH. Qed.

Lemma cut_next (b : bytes) i j k : i <= j -> j <= k ->
  take (j - i) (drop i b) ++ take (k - j) (drop j b) ++ drop k b = drop i b.
Proof.
  intros Hij Hjk. replace (drop k b) with (drop (k - j) (drop j b)) by (rewrite drop_drop; f_equal; lia).
  rewrite take_drop. replace (drop j b) with (drop (j - i) (drop i b)) by (rewrite drop_drop; f_equal; lia).
  apply take_drop.
Qed.

Section Segments.
Context `{CaseMapping, SimilarityCrate, HashOrder}.

Lemma replace_loop_segments text es res m last v :
  placed text last es ->
  let r := pseudonyms v (requests es) in
  let segs := segments text last es r.1 in
  replace_loop get_or_create text es res m last v =
    Some (res +:+ from_bytes (render (fun _ => false) segs []), record_all segs m, final_end last es, r.2).
Proof.
  revert res m last v. induction es as [|e es IH]; intros res m last v Hp; simpl.
  - by rewrite str_app_nil_r.
  - destruct Hp as (Hb & Hle & Hs & Hp). pose proof Hs as (Hse & Hbs & Hbe & Ho)%str_slice_Some.
    assert (Hg : (if last <? start_ e then str_slice text last (start_ e) else Some "") =
                 Some (from_bytes (take (start_ e - last) (drop last (as_bytes text))))).
    { destruct (Nat.ltb_spec last (start_ e)); [by apply str_slice_Some|].
      by replace (start_ e - last) with 0 by lia. }
    rewrite Hg. destruct (get_or_create v (original e) (category e)) as [t v1].
    rewrite (IH _ _ _ _ Hp). destruct (pseudonyms v1 (requests es)) as [ts v2]. simpl.
    rewrite !from_bytes_app, !from_as_bytes, !str_app_assoc. done.
Qed.

Lemma pseudonymize_segments text es v :
  placed text 0 es ->
  let r := pseudonyms v (requests es) in
  let segs := segments text 0 es r.1 in
  let tail := drop (final_end 0 es) (as_bytes text) in
  pseudonymize text es v =
    Some (mkPseudonymized (from_bytes (render (fun _ => false) segs tail)) (record_all segs ∅) es, r.2).
Proof.
  intros Hp r segs tail. unfold pseudonymize, pseudonymize_by. rewrite replace_loop_segments by done.
  fold r. fold segs.
  assert (Ht : (if final_end 0 es <? str_len text then str_from text (final_end 0 es) else Some "") = Some (from_bytes tail)).
  { pose proof (placed_final _ _ _ Hp) as Hb. destruct (Nat.ltb_spec (final_end 0 es) (str_len text)) as [Hlt|Hge].
    - apply str_slice_Some. split_and!; [lia|done|apply boundary_end|].
      unfold tail. rewrite take_ge; [done|]. rewrite length_drop. unfold str_len. lia.
    - unfold tail. rewrite drop_ge; [done|]. by unfold str_len in Hge. }
  rewrite Ht. do 3 f_equal. change ("" +:+ ?x) with x. by rewrite <- from_bytes_app, render_tail.
Qed.

(** What the segments of placed entities spell out, and how they are set
    apart. *)
Lemma segments_plain text last es ts : placed text last es -> length ts = length es ->
  plain_text (segments text last es ts) (drop (final_end last es) (as_bytes text)) = drop last (as_bytes text).
Proof.
  revert last ts. induction es as [|e es IH]; intros last [|t ts] Hp Hl; simplify_eq/=; [done|].
  destruct Hp as (_ & Hle & Hs & Hp). apply str_slice_Some in Hs as (Hse & _ & _ & Ho).
  unfold plain_text in *. simpl. rewrite IH by done. rewrite Ho, as_from_bytes. by apply cut_next.
Qed.

Lemma segments_separated text last es ts : placed text last es -> length ts = length es -> set_apart text es ->
  Forall (fun t => token_like (as_bytes (token t))) ts ->
  separated (take last (as_bytes text)) (segments text last es ts) (drop (final_end last es) (as_bytes text)).
Proof.
  revert last ts. induction es as [|e es IH]; intros last [|t ts] Hp Hl Ha Ht; simplify_eq/=; [done|].
  destruct Hp as (_ & Hle & Hs & Hp). apply str_slice_Some in Hs as (Hse & _ & _ & Ho).
  apply Forall_cons in Ha as [[He Hh] Ha]. apply Forall_cons in Ht as [Ht Hts].
  assert (Hstart : take last (as_bytes text) ++ take (start_ e - last) (drop last (as_bytes text)) = take (start_ e) (as_bytes text)).
  { rewrite take_take_drop. f_equal. lia. }
  assert (Hend : take (start_ e) (as_bytes text) ++ as_bytes (original e) = take (end_ e) (as_bytes text)).
  { rewrite Ho, as_from_bytes, take_take_drop. f_equal. lia. }
  split_and!; [done|by rewrite Hstart|by rewrite segments_plain|].
  rewrite app_assoc, Hstart, Hend. by apply IH.
Qed.
Lemma segments_tokens text last es ts : length ts = length es ->
  tokens_of (segments text last es ts) = as_bytes <$> (token <$> ts).
Proof.
  revert last ts. induction es as [|e es IH]; intros last [|t ts] Hl; simplify_eq/=; [done|].
  unfold tokens_of in *. simpl. by rewrite IH.
Qed.
End Segments.

Section RoundTrip.
Context `{CaseMapping, SimilarityCrate, HashOrderLaws}.

Lemma pseudonyms_length v l : length (pseudonyms v l).1 = length l.
Proof.
  revert v. induction l as [|[o cat] l IH]; intros v; [done|]. simpl.
  destruct (get_or_create v o cat) as [t v1]. specialize (IH v1). destruct (pseudonyms v1 l). simpl in *. by f_equal.
Qed.

Lemma spell_token_like c n : plain_category c -> token_like (as_bytes (spell (category_prefix c) n)).
Proof.
  intros Hp. unfold spell. rewrite as_bytes_app. destruct (as_bytes (pretty n)) as [|d m] eqn:Hn; [by apply pretty_N_nonempty in Hn|].
  exists (as_bytes (category_prefix c)), d, m. split_and!; [by rewrite as_bytes_app, Hn|done|].
  pose proof (pretty_N_digits n) as Hd. unfold str_all in Hd. rewrite Hn, forallb_forall in Hd.
  apply Forall_forall. intros x Hx%list_elem_of_In. by apply Hd.
Qed.

Lemma all_categories_step Q v o cat : all_categories Q v -> Q cat -> all_categories Q (get_or_create v o cat).2.
Proof.
  intros Hv Hc. destruct (get_or_create_looked_up v o cat) as [t Ho|t o' Ho Ho' _|n v' Ho Hn Hf Hrv Hcs _ _ _]; [done|..].
  - intros o1 t1. simpl. intros [[<- <-]|[_ Ht]]%lookup_insert_Some; by eapply Hv.
  - intros o1 t1. rewrite Hf. intros [[<- <-]|[_ Ht]]%lookup_insert_Some; [done|by eapply Hv].
Qed.

Lemma all_categories_pseudonyms Q v l : all_categories Q v -> Forall (fun r => Q r.2) l -> all_categories Q (pseudonyms v l).2.
Proof.
  revert v. induction l as [|[o cat] l IH]; intros v Hv Hl; [done|]. apply Forall_cons in Hl as [Hc Hl].
  pose proof (all_categories_step Q v o cat Hv Hc) as Hv1. simpl. destruct (get_or_create v o cat) as [t v1].
  specialize (IH v1 Hv1 Hl). by destruct (pseudonyms v1 l).
Qed.

Lemma vault_tokens_like v : vault_ok v -> plain_vault v -> forall s, is_Some (reverse_map v !! s) -> token_like (as_bytes s).
Proof.
  intros Hok Hp s [o Ho]. destruct (ok_forwarded v Hok _ _ Ho) as (t & Ht & <-).
  rewrite (ok_spelled v Hok _ _ Ht). apply spell_token_like. by eapply Hp.
Qed.

(** The tokens of a text's entities, in the vault that gave them. *)
Lemma pseudonyms_tokens n v es : exact_vault n v -> (N.of_nat (n + length es) < 2 ^ 32)%N ->
  vault_ok (pseudonyms v (requests es)).2 /\ length (pseudonyms v (requests es)).1 = length es /\
  forall i e, es !! i = Some e -> exists t, (pseudonyms v (requests es)).1 !! i = Some t /\
    reverse_map (pseudonyms v (requests es)).2 !! token t = Some (original e) /\
    forward (pseudonyms v (requests es)).2 !! original e = Some t.
Proof.
  intros Hv Hn. pose proof (pseudonyms_spec n v (requests es) Hv) as Hs. unfold requests in Hs. rewrite length_map in Hs.
  destruct (Hs Hn) as ((Hok & Hu & _) & _ & Hl). fold (requests es) in *. split_and!; [done| |].
  - rewrite pseudonyms_length. unfold requests. apply length_map.
  - intros i e He. destruct (Hl i (original e) (category e)) as (t & Ht & Hf); [unfold requests; by rewrite list_lookup_fmap, He|].
    exists t. split_and!; [done|by apply Hu|done].
Qed.

(** Every segment's token stands for its original in [v]. *)
Definition standing (v : Vault) (segs : list segment) : Prop :=
  Forall (fun s : segment => reverse_map v !! from_bytes s.1.2 = Some (from_bytes s.2)) segs.

Lemma segments_standing text last es ts v :
  (forall i e, es !! i = Some e -> exists t, ts !! i = Some t /\ reverse_map v !! token t = Some (original e)) ->
  standing v (segments text last es ts).
Proof.
  revert last ts. induction es as [|e es IH]; intros last ts Hes; [constructor|]. 
  destruct (Hes 0 e eq_refl) as (t & Ht & Hr). destruct ts as [|t' ts]; [done|]. simplify_eq/=.
  constructor; [simpl; by rewrite !from_as_bytes|]. apply IH. intros i. apply (Hes (S i)).
Qed.

Lemma record_all_spec v segs m : standing v segs -> m ⊆ reverse_map v ->
  record_all segs m ⊆ reverse_map v /\
  forall s, is_Some (record_all segs m !! s) <-> as_bytes s ∈ tokens_of segs \/ is_Some (m !! s).
Proof.
  revert m. induction segs as [|[[g t] o] segs IH]; intros m Hst Hm.
  - split; [done|]. intros s. split; [by right|]. by intros [?%elem_of_nil|?].
  - apply Forall_cons in Hst as [Hs Hst]. simpl in Hs.
    destruct (IH (<[from_bytes t := from_bytes o]> m) Hst) as [Hsub Hdom]; [by apply insert_subseteq_l|].
    split; [done|]. intros s. simpl in *. rewrite Hdom, lookup_insert_is_Some', elem_of_cons.
    split; intros Hor; [destruct Hor as [?|[<-|?]]|destruct Hor as [[<-|?]|?]]; rewrite ?as_from_bytes, ?from_as_bytes; auto.
Qed.

Lemma counted_size v segs : standing v segs ->
  length (counted segs (sorted_mappings v)) = size (record_all segs ∅).
Proof.
  intros Hst. destruct (record_all_spec v segs ∅ Hst (map_empty_subseteq _)) as [Hsub Hdom].
  rewrite <- length_map_to_list. apply Permutation_length, NoDup_Permutation; [|apply NoDup_map_to_list|].
  - apply NoDup_filter. unfold sorted_mappings. rewrite sort_by_key_perm, hm_iter_perm. apply NoDup_map_to_list.
  - intros [s o]. unfold counted. rewrite list_elem_of_filter, elem_of_map_to_list. unfold sorted_mappings.
    rewrite sort_by_key_perm, elem_of_hm_iter. simpl. split.
    + intros [Hs Ho]. destruct (proj2 (Hdom s)) as [o' Ho']; [by left|].
      pose proof (lookup_weaken _ _ _ _ Ho' Hsub). unfold reverse_mappings in Ho. congruence.
    + intros Ho. pose proof (lookup_weaken _ _ _ _ Ho Hsub). split; [|done].
      destruct (proj1 (Hdom s)) as [?|[? He]]; [by eexists|done|]. by rewrite lookup_empty in He.
Qed.

(** Rehydrating what the segments render to gives their originals. *)
Lemma rehydrate_segments v segs tail :
  vault_ok v -> plain_vault v -> standing v segs -> separated [] segs tail -> has_mark (plain_text segs tail) = false ->
  rehydrate (from_bytes (render (fun _ => false) segs tail)) v =
  mkRehydrated (from_bytes (plain_text segs tail)) (size (record_all segs ∅)).
Proof.
  intros Hok Hp Hst Hs Hm. unfold rehydrate. rewrite (rehydrate_loop_render _ _ _ _ _ []); [by rewrite counted_size|..].
  - apply sort_by_key_sorted.
  - unfold sorted_mappings. rewrite sort_by_key_perm, hm_iter_perm. apply NoDup_fst_map_to_list.
  - apply Forall_forall. intros [s o]. unfold sorted_mappings. rewrite sort_by_key_perm, elem_of_hm_iter.
    intros Ho. split; [|done]. apply (vault_tokens_like v Hok Hp). by eexists.
  - eapply Forall_impl; [exact Hst|]. intros s Ho. right. unfold sorted_mappings. by rewrite sort_by_key_perm, elem_of_hm_iter.
  - done.
  - done.
Qed.
End RoundTrip.

(** The round trip.  Take a vault without merged spellings, whose
    categories have prefixes of capital letters and underscores, with room
    for the entities of a text; entities in order, disjoint, at character
    boundaries and true to the text; and a text in which no underscore is
    followed by a digit, no entity follows a capital letter or underscore and
    none is followed by a digit.  Then [pseudonymize] does not panic, and
    [rehydrate], under any iteration order of the vault's map and whatever
    else the vault holds, restores exactly the text, replacing each distinct
    token once. *)
Theorem rehydrate_inverts `{CaseMapping, SimilarityCrate, HashOrderLaws} text es v n :
  exact_vault n v -> (N.of_nat (n + length es) < 2 ^ 32)%N -> plain_vault v ->
  Forall (fun e => plain_category (category e)) es ->
  placed text 0 es -> has_mark (as_bytes text) = false -> set_apart text es ->
  exists r v', pseudonymize text es v = Some (r, v') /\
    rehydrate (text_ r) v' = mkRehydrated text (size (mappings r)).
Proof.
  intros Hv Hn Hpl Hcat Hp Hm Ha.
  destruct (pseudonyms_tokens n v es Hv Hn) as (Hok & Hlen & Hget).
  assert (Hpl' : plain_vault (pseudonyms v (requests es)).2).
  { apply all_categories_pseudonyms; [done|]. unfold requests. by apply Forall_map. }
  assert (Hst : standing (pseudonyms v (requests es)).2 (segments text 0 es (pseudonyms v (requests es)).1)).
  { apply segments_standing. intros i e He. destruct (Hget i e He) as (t & ? & ? & _). eauto. }
  rewrite pseudonymize_segments by done. eexists _, _. split; [done|]. simpl.
  rewrite rehydrate_segments; [|done|done|done| |].
  - by rewrite segments_plain, drop_0, from_as_bytes.
  - apply (segments_separated text 0); [done|done|done|]. apply Forall_forall. intros t Ht.
    apply list_elem_of_lookup in Ht as [i Hi]. pose proof (lookup_lt_Some _ _ _ Hi) as Hlt. rewrite Hlen in Hlt.
    destruct (lookup_lt_is_Some_2 es i Hlt) as [e He]. destruct (Hget i e He) as (t' & Ht' & Hr & _).
    apply (vault_tokens_like _ Hok Hpl'). exists (original e). congruence.
  - by rewrite segments_plain, drop_0.
Qed.

(** C17: What a masked text is.  For entities in order, disjoint, at character
    boundaries and true to the text, [pseudonymize] never panics; it keeps
    every byte outside the entities and writes one token in place of each
    entity, the same token for the same original and different tokens for
    different originals; the recorded mappings are exactly those tokens with
    their originals. *)
Theorem pseudonymize_exactly `{CaseMapping, SimilarityCrate, HashOrder} text es v n :
  exact_vault n v -> (N.of_nat (n + length es) < 2 ^ 32)%N -> placed text 0 es ->
  exists r v' ts, pseudonymize text es v = Some (r, v') /\ length ts = length es /\
    let segs := segments text 0 es ts in
    let tail := drop (final_end 0 es) (as_bytes text) in
    as_bytes (text_ r) = render (fun _ => false) segs tail /\ plain_text segs tail = as_bytes text /\
    (forall i j e e' t t', es !! i = Some e -> es !! j = Some e' -> ts !! i = Some t -> ts !! j = Some t' ->
       (token t = token t' <-> original e = original e')) /\
    mappings r ⊆ reverse_map v' /\ (forall s, is_Some (mappings r !! s) <-> s ∈ token <$> ts).
Proof.
  intros Hv Hn Hp. destruct (pseudonyms_tokens n v es Hv Hn) as (_ & Hlen & Hget).
  rewrite pseudonymize_segments by done. eexists _, _, (pseudonyms v (requests es)).1. split; [done|].
  assert (Hst : standing (pseudonyms v (requests es)).2 (segments text 0 es (pseudonyms v (requests es)).1)).
  { apply segments_standing. intros i e He. destruct (Hget i e He) as (t & ? & ? & _). eauto. }
  destruct (record_all_spec _ _ ∅ Hst (map_empty_subseteq _)) as [Hsub Hdom].
  split; [done|]. intros segs tail. simpl. split_and!.
  - by rewrite as_from_bytes.
  - unfold segs, tail. by rewrite segments_plain, drop_0.
  - intros i j e e' t t' He He' Ht Ht'. destruct (Hget i e He) as (t1 & Ht1 & Hr1 & Hf1).
    destruct (Hget j e' He') as (t2 & Ht2 & Hr2 & Hf2). simplify_eq. split; congruence.
  - done.
  - intros s. rewrite Hdom, lookup_empty. unfold segs. rewrite segments_tokens by done. split.
    + intros [Hin|[? [=]]]. by apply (list_elem_of_fmap_inj_2 as_bytes) in Hin.
    + intros Hin. left. by apply list_elem_of_fmap_2.
Qed.

(** *** Concrete instances *)

Section Witnesses.
Import Toy.

Definition demo_text : string := "Ann met Bob; Ann left.".
Definition demo_entities : list DetectedEntity :=
  [mkEntity "Ann" 0 3 Person (f64_of_Z 1) Ner; mkEntity "Bob" 8 11 (Custom "person") (f64_of_Z 1) Ner;
   mkEntity "Ann" 13 16 Email (f64_of_Z 1) Ner].

Lemma demo_placed : placed demo_text 0 demo_entities.
Proof. repeat split; vm_compute; repeat constructor. Qed.

Lemma ends_ok_last b : from_option prefix_char false (last b) = false -> ends_ok b.
Proof. intros Hl x c ->. by rewrite last_snoc in Hl. Qed.

Lemma head_ok_head b : from_option is_ascii_digit false (head b) = false -> head_ok b.
Proof. by intros Hl c x ->. Qed.

Lemma demo_set_apart : set_apart demo_text demo_entities.
Proof. repeat constructor; (apply ends_ok_last || apply head_ok_head); vm_compute; reflexivity. Qed.

Lemma rehydrate_inverts_witness : exists r v',
  pseudonymize demo_text demo_entities (vault_new None []) = Some (r, v') /\
  rehydrate (text_ r) v' = mkRehydrated demo_text (size (mappings r)).
Proof.
  apply (rehydrate_inverts demo_text demo_entities (vault_new None []) 0); [apply vault_new_exact|done|..].
  - intros o t Ht. cbn in Ht. by rewrite lookup_empty in Ht.
  - repeat constructor.
  - apply demo_placed.
  - vm_compute; reflexivity.
  - apply demo_set_apart.
Qed.

Lemma pseudonymize_exactly_witness : exists r v' ts,
  pseudonymize demo_text demo_entities (vault_new None []) = Some (r, v') /\ length ts = length demo_entities /\
  let segs := segments demo_text 0 demo_entities ts in
  let tail := drop (final_end 0 demo_entities) (as_bytes demo_text) in
  as_bytes (text_ r) = render (fun _ => false) segs tail /\ plain_text segs tail = as_bytes demo_text /\
  (forall i j e e' t t', demo_entities !! i = Some e -> demo_entities !! j = Some e' -> ts !! i = Some t -> ts !! j = Some t' ->
     (token t = token t' <-> original e = original e')) /\
  mappings r ⊆ reverse_map v' /\ (forall s, is_Some (mappings r !! s) <-> s ∈ token <$> ts).
Proof. apply (pseudonymize_exactly demo_text demo_entities (vault_new None []) 0); [apply vault_new_exact|done|apply demo_placed]. Defined.

Example demo_masked : text_ <$> (fst <$> pseudonymize demo_text demo_entities (vault_new None [])) = Some "PERSON_1 met PERSON_2; PERSON_1 left.".
Proof. vm_compute. reflexivity. Qed.
End Witnesses.
