(* ===== verification/Stream.v ===== *)
(** * Streaming rehydration

    [Rehydrator::rehydrate_chunk] ([rehydrator.rs]) and the two event streams
    of [cloakpipe-proxy/src/streaming.rs].  A chunk may end inside a token, so
    the tail that could still grow into one is held back; the stream gives
    the same text however it is cut into chunks. *)

From S2P Require Import Prelude Text BTree Json Crates Concrete CanonicalJson Vault FormatPreserving Pseudonym.

Definition LF_char : ascii := ascii_of_N 10.
Definition LF : string := from_bytes [LF_char].
Definition CR : ascii := ascii_of_N 13.

(** [regex]'s [\d]: the decimal digits of Unicode, ASCII ones included. *)
Class DigitClass := { is_nd : bytes -> bool }.
Class DigitLaws `{DigitClass} := {
  is_nd_ascii c : is_nd [c] = is_ascii_digit c;
}.

(** [[A-Z]]. *)
Definition is_capital (c : bytes) : bool :=
  match c with [a] => is_ascii_uppercase a | _ => false end.

Definition underscore : bytes := ["_"%char].

Section Stream.
Context `{DigitClass, HashOrder}.

(** [[A-Z]+_\d+] at the head of a text: the match and what follows it. *)
Definition match_token (cs : list bytes) : option (list bytes * list bytes) :=
  match span is_capital cs with
  | (c :: r, u :: rest) =>
      if bool_decide (u = underscore) then
        match span is_nd rest with
        | (d :: ds, rest) => Some (c :: r ++ u :: d :: ds, rest)
        | _ => None
        end
      else None
  | _ => None
  end.

(** The original for a match, or the match itself. *)
Definition replacement (v : Vault) (tok : list bytes) : bytes * bool :=
  match Vault.lookup v (from_bytes (mjoin tok)) with
  | Some o => (as_bytes o, true)
  | None => (mjoin tok, false)
  end.

(** [token_re.replace_all]: leftmost matches from left to right. *)
Fixpoint replace_tokens (fuel : nat) (v : Vault) (cs : list bytes) : bytes * bool :=
  match fuel, cs with
  | S fuel, c :: cs' =>
      match match_token cs with
      | Some (tok, rest) =>
          let '(o, any) := replacement v tok in
          let '(out, more) := replace_tokens fuel v rest in
          (o ++ out, any || more)
      | None => let '(out, more) := replace_tokens fuel v cs' in (c ++ out, more)
      end
  | _, _ => ([], false)
  end.

Definition replace_all (v : Vault) (cs : list bytes) : bytes * bool := replace_tokens (length cs) v cs.

(** Capitals to the end of the text, or capitals, an underscore and digits
    to the end of the text, at its head (the regular expression of the tail). *)
Definition tail_matches (cs : list bytes) : bool :=
  match span is_capital cs with
  | (_ :: _, []) => true
  | (_ :: _, u :: rest) => bool_decide (u = underscore) && forallb is_nd rest
  | _ => false
  end.

(** The text before the leftmost match of the tail, and the match. *)
Fixpoint split_tail (cs : list bytes) : list bytes * list bytes :=
  match cs with
  | [] => ([], [])
  | c :: cs' => if tail_matches cs then ([], cs) else let (a, b) := split_tail cs' in (c :: a, b)
  end.

(** [rehydrate_chunk]: the output, whether a token was restored, and the new
    buffer. *)
Definition rehydrate_chunk (chunk buffer : string) (v : Vault) : (string * bool) * string :=
  let (flushable, held) := split_tail (chars (as_bytes (buffer +:+ chunk))) in
  let '(output, any) := replace_all v flushable in
  ((from_bytes output, any), from_bytes (mjoin held)).

(** The flush at the end of a stream. *)
Definition flush (buffer : string) (v : Vault) : string :=
  if str_is_empty buffer then "" else rehydrated_text (rehydrate buffer v).

(** The text delivered for the contents of a stream. *)
Fixpoint deliver (chunks : list string) (buffer : string) (v : Vault) : string :=
  match chunks with
  | [] => flush buffer v
  | chunk :: chunks =>
      let '((output, _), buffer) := rehydrate_chunk chunk buffer v in
      output +:+ deliver chunks buffer v
  end.

(** The same text at once. *)
Definition deliver_whole (text : string) (v : Vault) : string :=
  let (flushable, held) := split_tail (chars (as_bytes text)) in
  from_bytes (replace_all v flushable).1 +:+ flush (from_bytes (mjoin held)) v.

End Stream.

(** ** Event streams *)

(** What a stream yields: a JSON event or a line passed through. *)
Inductive Event :=
| Data (chunk : value)
| Raw (text : string).

Definition event_text `{SerdeText} (e : Event) : string :=
  match e with
  | Data chunk => "data: " +:+ from_bytes (serde_text chunk) +:+ LF +:+ LF
  | Raw text => text
  end.

Definition strip_cr (line : string) : string := default line (strip_suffix_char CR line).

(** [str::lines]. *)
Definition lines (s : string) : list string :=
  match reverse (split_on LF_char s) with
  | [] => []
  | last :: ended =>
      map strip_cr (reverse ended) ++ (if str_is_empty last then [] else [last])
  end.

Definition set_member (k : string) (x v : value) : value :=
  match v with VObject o => VObject (BTree.insert k x o) | _ => v end.

(** [choices[0].delta.content]. *)
Definition content_of (chunk : value) : option string :=
  let! choices := vget "choices" chunk else None in
  let! a := as_array choices else None in
  let! first := head a else None in
  let! delta := vget "delta" first else None in
  let! content := vget "content" delta else None in
  as_str content.

Definition set_content (text : string) (chunk : value) : value :=
  match vget "choices" chunk with
  | Some (VArray (first :: rest)) =>
      let! delta := vget "delta" first else chunk in
      set_member "choices" (VArray (set_member "delta" (set_member "content" (VString text) delta) first :: rest)) chunk
  | _ => chunk
  end.

Definition content_event (text : string) : value :=
  VObject [("choices", VArray [VObject [("delta", VObject [("content", VString text)]); ("index", VNumber (PosInt 0))]])].

(** [delta.text] of an Anthropic event. *)
Definition delta_text (event : value) : option string :=
  let! delta := vget "delta" event else None in
  let! text := vget "text" delta else None in
  as_str text.

Definition set_delta_text (text : string) (event : value) : value :=
  let! delta := vget "delta" event else event in
  set_member "delta" (set_member "text" (VString text) delta) event.

Definition text_event (text : string) : value :=
  VObject [("delta", VObject [("text", VString text); ("type", VString "text_delta")]);
           ("type", VString "content_block_delta")].

Section Streams.
Context `{DigitClass, HashOrder, JsonCrates}.

Definition data_line (data : string) : Event := Raw ("data: " +:+ data +:+ LF +:+ LF).

(** The loop of [rehydrate_stream]: the events, the buffer and whether
    [[DONE]] came. *)
Fixpoint stream_lines (ls : list string) (buffer : string) (v : Vault) : list Event * string * bool :=
  match ls with
  | [] => ([], buffer, false)
  | line :: ls =>
      let continue es buffer := let '(es', b, d) := stream_lines ls buffer v in (es ++ es', b, d) in
      match strip_prefix "data: " line with
      | Some data =>
          if bool_decide (data = "[DONE]") then ([], buffer, true)
          else
            match json_from_slice (as_bytes data) with
            | Some chunk =>
                match content_of chunk with
                | Some content =>
                    let '((rehydrated, _), buffer) := rehydrate_chunk content buffer v in
                    continue (if str_is_empty rehydrated then [] else [Data (set_content rehydrated chunk)]) buffer
                | None => continue [data_line data] buffer
                end
            | None => continue [data_line data] buffer
            end
      | None => continue (if str_is_empty line then [] else [Raw (line +:+ LF)]) buffer
      end
  end.

Definition flush_event (make : string -> value) (buffer : string) (v : Vault) : list Event :=
  let flushed := flush buffer v in
  if str_is_empty flushed then [] else [Data (make flushed)].

Definition rehydrate_stream (body : string) (v : Vault) : list Event :=
  let '(es, buffer, saw_done) := stream_lines (lines body) "" v in
  es ++ flush_event content_event buffer v ++ (if saw_done : bool then [data_line "[DONE]"] else []).

(** The loop of [rehydrate_anthropic_stream]. *)
Fixpoint anthropic_lines (ls : list string) (buffer : string) (v : Vault) : list Event * string :=
  match ls with
  | [] => ([], buffer)
  | line :: ls =>
      let continue es buffer := let '(es', b) := anthropic_lines ls buffer v in (es ++ es', b) in
      match strip_prefix "data: " line with
      | Some data =>
          match json_from_slice (as_bytes data) with
          | Some event =>
              match delta_text event with
              | Some text =>
                  let '((rehydrated, _), buffer) := rehydrate_chunk text buffer v in
                  continue [Data (set_delta_text rehydrated event)] buffer
              | None => continue [Data event] buffer
              end
          | None => continue [data_line data] buffer
          end
      | None =>
          continue (if starts_with "event: " line || negb (str_is_empty line) then [Raw (line +:+ LF)] else []) buffer
      end
  end.

Definition rehydrate_anthropic_stream (body : string) (v : Vault) : list Event :=
  let '(es, buffer) := anthropic_lines (lines body) "" v in
  es ++ flush_event text_event buffer v.

(** The texts a client reads from a body, and from what the stream yields. *)
Definition line_value (line : string) : option value :=
  let! data := strip_prefix "data: " line else None in json_from_slice (as_bytes data).

Definition is_done (line : string) : bool := bool_decide (strip_prefix "data: " line = Some "[DONE]").

Definition openai_contents (body : string) : list string :=
  omap (fun line => line_value line ≫= content_of) (span (fun line => negb (is_done line)) (lines body)).1.
Definition anthropic_texts (body : string) : list string :=
  omap (fun line => line_value line ≫= delta_text) (lines body).

Definition delivered (read : value -> option string) (es : list Event) : string :=
  foldr (fun e r => match e with Data chunk => default "" (read chunk) +:+ r | Raw _ => r end) "" es.

End Streams.

(** ** Cutting a text where no token straddles *)

Section Cutting.
Context `{DigitLaws}.

Lemma capital_not_underscore : is_capital underscore = false.
Proof. done. Qed.

Lemma capital_not_nd c : is_capital c = true -> is_nd c = false.
Proof.
  destruct c as [|a [|]]; try done. simpl. intros Hc. rewrite is_nd_ascii. revert Hc. by destruct a as [[] [] [] [] [] [] [] []].
Qed.

(** What the tail's expression says of a text. *)
Lemma tail_matches_spec cs : tail_matches cs = true <->
  exists r, r <> [] /\ Forall (fun c => is_capital c = true) r /\
    (cs = r \/ exists ds, cs = r ++ underscore :: ds /\ Forall (fun c => is_nd c = true) ds).
Proof.
  unfold tail_matches. split.
  - destruct (span is_capital cs) as [r b] eqn:Hs. apply span_split in Hs as (-> & Hr & _).
    destruct r as [|c r]; [by destruct b|]. destruct b as [|u ds]; intros Hb; exists (c :: r); split_and!; try done.
    + left. by rewrite app_nil_r.
    + apply andb_true_iff in Hb as [->%bool_decide_eq_true Hd]. right. exists ds. split; [done|].
      rewrite forallb_forall in Hd. apply Forall_forall. intros x Hx%list_elem_of_In. by apply Hd.
  - intros (r & Hr & Hc & [->|(ds & -> & Hd)]).
    + rewrite (span_nil _ _ Hc). by destruct r.
    + rewrite (span_stop _ _ _ _ Hc capital_not_underscore). destruct r; [done|].
      rewrite bool_decide_eq_true_2 by done. apply forallb_forall. intros x Hx%list_elem_of_In.
      rewrite Forall_forall in Hd. by apply Hd.
Qed.

(** A text that begins a tail is a tail. *)
Lemma tail_matches_prefix x m : x <> [] -> tail_matches (x ++ m) = true -> tail_matches x = true.
Proof.
  intros Hx. rewrite !tail_matches_spec. intros (r & Hr & Hc & [He|(ds & He & Hd)]).
  - exists x. rewrite <- He, Forall_app in Hc. split_and!; [done|apply Hc|by left].
  - apply app_eq_app in He as [y [[-> Hy]|[-> Hy]]].
    + destruct y as [|u y]; [exists r; rewrite app_nil_r; auto|]. simplify_eq/=.
      exists r. split_and!; [done|done|]. right. exists y. rewrite Forall_app in Hd. naive_solver.
    + exists x. rewrite Forall_app in Hc. split_and!; [done|apply Hc|by left].
Qed.

Lemma tail_matches_capitals f h : Forall (fun c => is_capital c = true) f -> f <> [] ->
  h = [] \/ tail_matches h = true -> tail_matches (f ++ h) = true.
Proof.
  intros Hf Hne [->|Hh]; apply tail_matches_spec.
  - exists f. rewrite app_nil_r. auto.
  - apply tail_matches_spec in Hh as (r & Hr & Hc & Hor). exists (f ++ r).
    split_and!; [by intros [? _]%app_nil|by apply Forall_app|].
    destruct Hor as [->|(ds & -> & Hd)]; [by left|right]. exists ds. by rewrite <- app_assoc.
Qed.

(** What may follow the cut: nothing, anything when nothing is held, or a
    capital. *)
Definition follows (h r : list bytes) : Prop :=
  h = [] \/ r = [] \/ exists c r', r = c :: r' /\ is_capital c = true.

Lemma match_token_cut f h r :
  f <> [] -> tail_matches (f ++ h) = false -> h = [] \/ tail_matches h = true -> follows h r ->
  match_token (f ++ r) = (fun '(tok, rest) => (tok, rest ++ r)) <$> match_token f.
Proof.
  intros Hf Hno Hh Hr. unfold match_token. destruct (span is_capital f) as [a b] eqn:Hs.
  apply span_split in Hs as (-> & Ha & Hb). destruct b as [|u b].
  - exfalso. rewrite app_nil_r in *. by rewrite tail_matches_capitals in Hno.
  - rewrite <- app_assoc. simpl. rewrite (span_stop _ _ _ _ Ha (Hb u b eq_refl)). destruct a as [|c a]; [done|].
    case_bool_decide as Hu; [subst u|done]. destruct (span is_nd b) as [d e] eqn:Hd.
    apply span_split in Hd as (-> & Hd & He). destruct e as [|x e].
    + rewrite app_nil_r in *. destruct Hr as [->|[->|(y & r' & -> & Hy)]].
      * exfalso. rewrite app_nil_r in Hno. assert (Ht : tail_matches ((c :: a) ++ underscore :: d) = true); [|congruence].
        apply tail_matches_spec. exists (c :: a). split_and!; [done|done|]. right. by exists d.
      * rewrite app_nil_r, (span_nil _ _ Hd). by destruct d.
      * rewrite (span_stop _ _ _ _ Hd (capital_not_nd _ Hy)). by destruct d.
    + rewrite <- app_assoc. simpl. rewrite (span_stop _ _ _ _ Hd (He x e eq_refl)). by destruct d.
Qed.

Lemma match_token_rest cs tok rest : match_token cs = Some (tok, rest) ->
  exists c t, tok = c :: t /\ cs = tok ++ rest.
Proof.
  unfold match_token. destruct (span is_capital cs) as [[|c r] [|u b]] eqn:Hs; try done.
  apply span_split in Hs as (-> & _ & _). case_bool_decide as Hu; [subst u|done].
  destruct (span is_nd b) as [[|d ds] e] eqn:Hd; try done. apply span_split in Hd as (-> & _ & _).
  intros [= <- <-]. exists c, (r ++ underscore :: d :: ds). split; [done|]. simpl. by rewrite <- app_assoc.
Qed.

Lemma replace_tokens_fuel v n k cs : length cs <= n -> n <= k -> replace_tokens k v cs = replace_tokens n v cs.
Proof.
  revert k cs. induction n as [|n IH]; intros k cs Hl Hk; [by destruct cs, k; simpl in *; try lia|].
  destruct k as [|k]; [lia|]. destruct cs as [|c cs]; [done|]. simpl in Hl. simpl.
  destruct (match_token (c :: cs)) as [[tok rest]|] eqn:Hm.
  - apply match_token_rest in Hm as (c' & t & -> & Hc). apply (f_equal length) in Hc. rewrite length_app in Hc. simpl in Hc.
    by rewrite IH by lia.
  - by rewrite IH by lia.
Qed.

Definition both (x y : bytes * bool) : bytes * bool := (x.1 ++ y.1, x.2 || y.2).

Lemma replace_all_cut v a h r :
  (forall x f, a = x ++ f -> f <> [] -> tail_matches (f ++ h) = false) ->
  h = [] \/ tail_matches h = true -> follows h r ->
  replace_all v (a ++ r) = both (replace_all v a) (replace_all v r).
Proof.
  intros Hno Hh Hr. change (replace_all v (a ++ r)) with (replace_tokens (length (a ++ r)) v (a ++ r)).
  change (replace_all v a) with (replace_tokens (length a) v a). rewrite length_app.
  remember (length a) as n eqn:Hn. assert (Hle : length a <= n) by lia. clear Hn. revert a Hle Hno. induction n as [|n IH]; intros a Hle Hno.
  - destruct a; [|simpl in Hle; lia]. unfold both, replace_all. simpl. by destruct (replace_tokens _ v r).
  - destruct a as [|c a].
    + unfold both. simpl (replace_tokens (S n) v []). simpl app. unfold replace_all.
      rewrite (replace_tokens_fuel v (length r)) by lia. by destruct (replace_tokens _ v r).
    + pose proof (Hno [] (c :: a) eq_refl ltac:(done)) as Hca. simpl app in Hca |- *. simpl replace_tokens.
      change (c :: a ++ r) with ((c :: a) ++ r). rewrite (match_token_cut _ h) by done.
      destruct (match_token (c :: a)) as [[tok rest]|] eqn:Hm; simpl.
      * apply match_token_rest in Hm as (c' & t & -> & Hc). destruct (replacement v (c' :: t)) as [o any].
        rewrite IH; [|apply (f_equal length) in Hc; rewrite length_app in Hc; simpl in *; lia|].
        -- destruct (replace_tokens n v rest) as [o1 b1]. unfold both. simpl. by rewrite <- app_assoc, <- orb_assoc.
        -- intros x f -> Hf. by apply (Hno ((c' :: t) ++ x)); [rewrite Hc, <- app_assoc|].
      * rewrite IH; [|simpl in Hle; lia|].
        -- destruct (replace_tokens n v a) as [o1 b1]. unfold both. simpl. by rewrite <- app_assoc.
        -- intros x f -> Hf. by apply (Hno (c :: x)).
Qed.

Lemma split_tail_spec cs : let (a, h) := split_tail cs in
  cs = a ++ h /\ (h = [] \/ tail_matches h = true) /\
  (forall x f, a = x ++ f -> f <> [] -> tail_matches (f ++ h) = false).
Proof.
  induction cs as [|c cs IH]; simpl.
  - split_and!; [done|by left|]. by intros x f [-> ->]%eq_sym%app_nil.
  - destruct (tail_matches (c :: cs)) eqn:Ht.
    + split_and!; [done|by right|]. by intros x f [-> ->]%eq_sym%app_nil.
    + destruct (split_tail cs) as [a h]. destruct IH as (-> & Hh & Hno). split_and!; [done|done|].
      intros [|d x] f He Hf; simplify_eq/=; [done|]. by apply (Hno x).
Qed.

Lemma split_tail_app a h m :
  (forall x f, a = x ++ f -> f <> [] -> tail_matches (f ++ h) = false) ->
  split_tail (a ++ h ++ m) = (a ++ (split_tail (h ++ m)).1, (split_tail (h ++ m)).2).
Proof.
  induction a as [|c a IH]; intros Hno; simpl; [by destruct (split_tail _)|].
  assert (Ht : tail_matches (c :: a ++ h ++ m) = false).
  { destruct (tail_matches _) eqn:Ht; [|done]. rewrite (app_assoc a), app_comm_cons in Ht.
    apply tail_matches_prefix in Ht; [|done]. rewrite app_comm_cons in Ht. by rewrite (Hno [] (c :: a)) in Ht. }
  rewrite Ht, IH; [done|]. intros x f -> Hf. by apply (Hno (c :: x)).
Qed.

Lemma split_tail_held h : h = [] \/ tail_matches h = true -> split_tail h = ([], h).
Proof. intros [->|Hh]; [done|]. destruct h; [done|]. simpl. by rewrite Hh. Qed.

(** A held tail begins with a capital. *)
Lemma held_head h m : tail_matches h = true -> exists c r, h ++ m = c :: r /\ is_capital c = true.
Proof.
  intros (r & Hr & Hc & Hor)%tail_matches_spec. destruct r as [|c r]; [done|].
  apply Forall_cons in Hc as [Hc _]. destruct Hor as [->|(ds & -> & _)]; simpl; eauto.
Qed.
End Cutting.

(** ** The stream does not depend on its chunks *)

Lemma deliver_held `{DigitLaws, HashOrder} chunks h v :
  h = [] \/ tail_matches h = true -> chars (mjoin h) = h -> Forall (fun c => starts_char (as_bytes c)) chunks ->
  deliver chunks (from_bytes (mjoin h)) v = deliver_whole (from_bytes (mjoin h) +:+ foldr String.append "" chunks) v.
Proof.
  revert h. induction chunks as [|chunk chunks IH]; intros h Hh Hc Hs; simpl.
  - unfold deliver_whole. rewrite str_app_nil_r, as_from_bytes, Hc, split_tail_held by done. done.
  - apply Forall_cons in Hs as [Hchunk Hs]. unfold rehydrate_chunk, deliver_whole.
    assert (Hrest : starts_char (as_bytes (foldr String.append "" chunks))).
    { clear -Hs. induction Hs as [|x l Hx _ IHl]; [by intros ? ? ?|]. simpl. rewrite as_bytes_app.
      intros c r He. destruct (as_bytes x) as [|d y] eqn:Hxb; [by apply (IHl c r)|]. simplify_eq/=. by apply (Hx c y). }
    rewrite <- (str_app_assoc _ chunk), (as_bytes_app (_ +:+ chunk)), (chars_app _ _ Hrest).
    pose proof (split_tail_spec (chars (as_bytes (from_bytes (mjoin h) +:+ chunk)))) as Hsp.
    pose proof (chars_seq (as_bytes (from_bytes (mjoin h) +:+ chunk))) as Hseq.
    destruct (split_tail (chars (as_bytes (from_bytes (mjoin h) +:+ chunk)))) as [a h'].
    destruct Hsp as (He & Hh' & Hno). rewrite He in Hseq |- *. rewrite <- app_assoc, split_tail_app by done.
    assert (Hc' : chars (mjoin h') = h') by (apply chars_mjoin; by eapply char_seq_app_r).
    destruct (replace_all v a) as [out any] eqn:Hra. rewrite (IH h' Hh' Hc' Hs). unfold deliver_whole.
    rewrite as_bytes_app, as_from_bytes, (chars_app _ _ Hrest), Hc'.
    pose proof (split_tail_spec (h' ++ chars (as_bytes (foldr String.append "" chunks)))) as Hsp2.
    destruct (split_tail (h' ++ _)) as [a2 h2] eqn:Hst. destruct Hsp2 as (He2 & _ & _). simpl.
    rewrite (replace_all_cut v a h' a2 Hno Hh'), Hra.
    + unfold both. simpl. by rewrite from_bytes_app, str_app_assoc.
    + destruct Hh' as [Hh'|Hh']; [by left|right]. destruct a2 as [|c a2]; [by left|right].
      destruct (held_head h' (chars (as_bytes (foldr String.append "" chunks))) Hh') as (d & r & Hd & Hcap).
      rewrite He2 in Hd. simplify_eq/=. eauto.
Qed.

(** Streaming rehydration does not depend on how a text is cut.  For any
    chunks (each a string, so none begins inside a character), what
    [rehydrate_chunk] outputs over the stream together with the final flush
    is what one chunk with the whole text gives: a token split over chunks is
    restored as one, and nothing is lost, doubled or reordered. *)
Theorem delivery_ignores_chunks `{DigitLaws, HashOrder} chunks v :
  Forall (fun c => starts_char (as_bytes c)) chunks ->
  deliver chunks "" v = deliver_whole (foldr String.append "" chunks) v.
Proof. intros Hs. by apply (deliver_held chunks [] v); [left| |]. Qed.

Lemma delivered_app read a b : delivered read (a ++ b) = delivered read a +:+ delivered read b.
Proof. induction a as [|[chunk|t] a IH]; [done| |done]. simpl. by rewrite IH, str_app_assoc. Qed.

Lemma delivered_flush `{DigitClass, HashOrder} read make b v :
  (forall t, read (make t) = Some t) -> delivered read (flush_event make b v) = flush b v.
Proof.
  intros Hm. unfold flush_event, str_is_empty. case_bool_decide as Hf; simpl; [by rewrite Hf|]. by rewrite Hm, str_app_nil_r.
Qed.

Lemma vget_set_member k x o : vget k (set_member k x (VObject o)) = Some x.
Proof.
  unfold vget, set_member. cbn [as_object].
  induction o as [|[k' y] o IH]; simpl; [by rewrite decide_True|].
  destruct (decide (k = k')) as [->|Hk]; simpl; [by rewrite decide_True|].
  destruct (decide (str_lt k k')); simpl; [by rewrite decide_True by done|by rewrite decide_False by done].
Qed.

#[local] Arguments set_member : simpl never.
#[local] Arguments vget : simpl never.
#[local] Arguments strip_prefix : simpl never.
#[local] Arguments starts_with : simpl never.

Lemma vget_object k v x : vget k v = Some x -> exists o, v = VObject o.
Proof. destruct v; try done. eauto. Qed.

Lemma content_of_set chunk c t : content_of chunk = Some c -> content_of (set_content t chunk) = Some t.
Proof.
  unfold content_of, set_content. intros Hc.
  destruct (vget "choices" chunk) as [ch|] eqn:H1; [|done]. destruct ch as [| | | |[|x a]|]; try done. simpl in Hc.
  destruct (vget "delta" x) as [d|] eqn:H2; [|done]. destruct (vget "content" d) eqn:H3; [|done].
  apply vget_object in H1 as [o ->], H2 as [o2 ->], H3 as [o3 ->].
  rewrite !vget_set_member. simpl. by rewrite !vget_set_member.
Qed.

Lemma delta_text_set event c t : delta_text event = Some c -> delta_text (set_delta_text t event) = Some t.
Proof.
  unfold delta_text, set_delta_text. intros Hc.
  destruct (vget "delta" event) as [d|] eqn:H1; [|done]. destruct (vget "text" d) eqn:H2; [|done].
  apply vget_object in H1 as [o ->], H2 as [o2 ->]. by rewrite !vget_set_member.
Qed.

Section Bodies.
Context `{DigitLaws, HashOrder, JsonCrates}.

Definition contents_of (ls : list string) : list string :=
  omap (fun line => line_value line ≫= content_of) (span (fun line => negb (is_done line)) ls).1.

Lemma contents_cons line ls :
  contents_of (line :: ls) =
    if is_done line then [] else option_list (line_value line ≫= content_of) ++ contents_of ls.
Proof.
  unfold contents_of. simpl. destruct (is_done line); [done|]. simpl. destruct (span _ ls) as [a b]. simpl.
  by destruct (line_value line ≫= content_of).
Qed.

(** An event that is empty may be left out. *)
Lemma delivered_some read make t :
  (forall t, read (make t) = Some t) -> delivered read (if str_is_empty t then [] else [Data (make t)]) = t.
Proof.
  intros Hm. unfold str_is_empty. case_bool_decide as Ht; simpl; [done|]. by rewrite Hm, str_app_nil_r.
Qed.

Lemma stream_lines_deliver ls buffer v tail :
  (forall b, delivered content_of (tail b) = flush b v) ->
  delivered content_of ((stream_lines ls buffer v).1.1 ++ tail (stream_lines ls buffer v).1.2) =
  deliver (contents_of ls) buffer v.
Proof.
  intros Ht. revert buffer. induction ls as [|line ls IH]; intros buffer; [by apply Ht|].
  assert (Hskip : forall es b, delivered content_of es = "" ->
    delivered content_of ((let '(es', b, d) := stream_lines ls b v in (es ++ es', b, d)).1.1 ++
      tail (let '(es', b, d) := stream_lines ls b v in (es ++ es', b, d)).1.2) = deliver (contents_of ls) b v).
  { intros es b He. rewrite <- IH. destruct (stream_lines ls b v) as [[es' b'] d]. simpl. by rewrite <- app_assoc, delivered_app, He. }
  rewrite contents_cons. simpl. unfold is_done, line_value.
  destruct (strip_prefix "data: " line) as [data|]; [|rewrite bool_decide_eq_false_2 by done; apply Hskip; by destruct (str_is_empty line)].
  destruct (decide (data = "[DONE]")) as [->|Hd]; [rewrite !bool_decide_eq_true_2 by done; apply Ht|].
  rewrite (bool_decide_eq_false_2 (data = _)), (bool_decide_eq_false_2 (Some data = _)) by congruence.
  destruct (json_from_slice (as_bytes data)) as [chunk|]; [|exact (Hskip [data_line data] buffer eq_refl)].
  simpl. destruct (content_of chunk) as [content|] eqn:Hc; [|exact (Hskip [data_line data] buffer eq_refl)].
  simpl. destruct (rehydrate_chunk content buffer v) as [[out any] b1]. rewrite <- IH.
  destruct (stream_lines ls b1 v) as [[es b] d]. simpl. rewrite <- app_assoc, delivered_app. f_equal.
  apply (delivered_some content_of (fun t => set_content t chunk)). intros t. by eapply content_of_set.
Qed.

Lemma anthropic_lines_deliver ls buffer v tail :
  (forall b, delivered delta_text (tail b) = flush b v) ->
  delivered delta_text ((anthropic_lines ls buffer v).1 ++ tail (anthropic_lines ls buffer v).2) =
  deliver (omap (fun line => line_value line ≫= delta_text) ls) buffer v.
Proof.
  intros Ht. revert buffer. induction ls as [|line ls IH]; intros buffer; [by apply Ht|].
  assert (Hskip : forall es b, delivered delta_text es = "" ->
    delivered delta_text ((let '(es', b) := anthropic_lines ls b v in (es ++ es', b)).1 ++
      tail (let '(es', b) := anthropic_lines ls b v in (es ++ es', b)).2) =
    deliver (omap (fun line => line_value line ≫= delta_text) ls) b v).
  { intros es b He. rewrite <- IH. destruct (anthropic_lines ls b v) as [es' b']. simpl. by rewrite <- app_assoc, delivered_app, He. }
  simpl. unfold line_value at 1.
  destruct (strip_prefix "data: " line) as [data|]; [|apply Hskip; by destruct (_ || _)].
  destruct (json_from_slice (as_bytes data)) as [event|]; [|exact (Hskip [data_line data] buffer eq_refl)].
  simpl. destruct (delta_text event) as [text|] eqn:Hd; [|apply (Hskip [Data event]); simpl; by rewrite Hd].
  simpl. destruct (rehydrate_chunk text buffer v) as [[out any] b1]. rewrite <- IH.
  destruct (anthropic_lines ls b1 v) as [es b]. simpl. by rewrite (delta_text_set _ _ _ Hd).
Qed.

(** What a client reads from the events is what the chunks deliver. *)
Lemma rehydrate_stream_delivers body v : delivered content_of (rehydrate_stream body v) = deliver (openai_contents body) "" v.
Proof.
  unfold rehydrate_stream. destruct (stream_lines (lines body) "" v) as [[es b] d] eqn:Hl.
  pose proof (stream_lines_deliver (lines body) "" v (fun b => flush_event content_event b v ++ (if d : bool then [data_line "[DONE]"] else []))) as Hs.
  rewrite Hl in Hs. apply Hs. intros b'. rewrite delivered_app, delivered_flush by done. destruct d; apply str_app_nil_r.
Qed.
Lemma rehydrate_anthropic_delivers body v :
  delivered delta_text (rehydrate_anthropic_stream body v) = deliver (anthropic_texts body) "" v.
Proof.
  unfold rehydrate_anthropic_stream. destruct (anthropic_lines (lines body) "" v) as [es b] eqn:Hl.
  pose proof (anthropic_lines_deliver (lines body) "" v (fun b => flush_event text_event b v)) as Hs.
  rewrite Hl in Hs. apply Hs. intros b'. by apply delivered_flush.
Qed.
End Bodies.

(** What an event stream delivers.  The texts in the events that
    [rehydrate_stream] yields for an OpenAI body ([choices[0].delta.content],
    up to [[DONE]]), and those that [rehydrate_anthropic_stream] yields for an
    Anthropic body ([delta.text]), put together, are the texts of the body
    put together and rehydrated at once: however the upstream cut them into
    events, and whatever other events and lines come between. *)
Theorem streams_deliver_whole `{DigitLaws, HashOrder, JsonCrates} body v :
  Forall (fun c => starts_char (as_bytes c)) (openai_contents body) ->
  Forall (fun c => starts_char (as_bytes c)) (anthropic_texts body) ->
  delivered content_of (rehydrate_stream body v) = deliver_whole (foldr String.append "" (openai_contents body)) v /\
  delivered delta_text (rehydrate_anthropic_stream body v) = deliver_whole (foldr String.append "" (anthropic_texts body)) v.
Proof.
  intros Ho Ha. split.
  - rewrite rehydrate_stream_delivers. exact (deliver_held (openai_contents body) [] v (or_introl eq_refl) eq_refl Ho).
  - rewrite rehydrate_anthropic_delivers. exact (deliver_held (anthropic_texts body) [] v (or_introl eq_refl) eq_refl Ha).
Qed.

(** *** Concrete instances *)

Module ToyDigits.
#[export] Instance toy_digits : DigitClass := {| is_nd c := match c with [a] => is_ascii_digit a | _ => false end |}.
#[export] Instance toy_digit_laws : DigitLaws.
Proof. by constructor. Qed.
End ToyDigits.

Section Witnesses.
Import Toy ToyDigits.

Definition id_vault : Vault := (get_or_create (get_or_create (vault_new None []) "EMP-2019-4471" (Custom "ID_NUMBER")).2 "Ann" Person).2.

Lemma starts_char_ascii s : is_ascii s = true -> starts_char (as_bytes s).
Proof.
  intros Hs c r He. unfold is_ascii, str_all in Hs. rewrite He in Hs. simpl in Hs. apply andb_true_iff in Hs as [Hc _].
  unfold is_continuation. apply andb_false_iff. left. apply Z.leb_gt. by apply Z.ltb_lt.
Qed.

Lemma delivery_ignores_chunks_witness :
  deliver ["Hi PERS"; "ON_"; "1, bye"] "" id_vault = deliver_whole "Hi PERSON_1, bye" id_vault.
Proof.
  apply (delivery_ignores_chunks ["Hi PERS"; "ON_"; "1, bye"] id_vault).
  repeat (apply Forall_cons; split; [apply starts_char_ascii; vm_compute; reflexivity|]). apply Forall_nil_2.
Qed.

Example demo_delivery : deliver ["Hi PERS"; "ON_"; "1, bye"] "" id_vault = "Hi Ann, bye".
Proof. vm_compute. reflexivity. Qed.

Definition demo_body : string :=
  "event: x" +:+ LF +:+ "data: " +:+ value_text (content_event "Hi PERSON") +:+ LF +:+ LF +:+
  "data: " +:+ value_text (content_event "_1 !") +:+ LF +:+ "data: [DONE]" +:+ LF.

Lemma streams_deliver_whole_witness :
  delivered content_of (rehydrate_stream demo_body id_vault) =
    deliver_whole (foldr String.append "" (openai_contents demo_body)) id_vault /\
  delivered delta_text (rehydrate_anthropic_stream demo_body id_vault) =
    deliver_whole (foldr String.append "" (anthropic_texts demo_body)) id_vault.
Proof.
  apply (streams_deliver_whole demo_body id_vault).
  - replace (openai_contents demo_body) with ["Hi PERSON"; "_1 !"] by (vm_compute; reflexivity).
    repeat (apply Forall_cons; split; [apply starts_char_ascii; vm_compute; reflexivity|]). apply Forall_nil_2.
  - replace (anthropic_texts demo_body) with (@nil string) by (vm_compute; reflexivity). apply Forall_nil_2.
Qed.

(** A token whose prefix has an underscore is restored in a whole answer and
    stays masked in a streamed one. *)
Lemma underscored_prefix_not_streamed :
  rehydrated_text (rehydrate "Badge ID_NUMBER_1 ok" id_vault) = "Badge EMP-2019-4471 ok" /\
  deliver ["Badge ID_NUMBER_1 ok"] "" id_vault = "Badge ID_NUMBER_1 ok".
Proof. split; vm_compute; reflexivity. Qed.

(** At the end of a stream the flush replaces a known token inside the held
    tail, which [rehydrate_chunk] would not: the tail of "PERSON_12" is not
    [PERSON_1]. *)
Lemma flush_replaces_inside :
  deliver ["See PERSON_12 ."] "" id_vault = "See PERSON_12 ." /\ deliver ["See PERSON_12"] "" id_vault = "See Ann2".
Proof. split; vm_compute; reflexivity. Qed.
End Witnesses.
