(* ===== verification/StreamRoundTrip.v ===== *)
(** * A masked text streamed back

    The end-to-end promise of masking and streaming: when the answer carries
    a masked text back in any chunks, the client reads the original. *)

From S2P Require Import Prelude Text BTree Json Crates Concrete CanonicalJson Vault FormatPreserving Pseudonym Stream.
From stdpp Require Import pretty.

(** ** Texts as characters *)

(** A gap, a token and its original; gaps and tokens as characters. *)
Abbreviation csegment := (list bytes * list bytes * bytes)%type.

Fixpoint masked_chars (segs : list csegment) (tail : list bytes) : list bytes :=
  match segs with
  | [] => tail
  | (g, t, _) :: segs => g ++ t ++ masked_chars segs tail
  end.

Fixpoint restored_chars (segs : list csegment) (tail : list bytes) : bytes :=
  match segs with
  | [] => mjoin tail
  | (g, _, o) :: segs => mjoin g ++ o ++ restored_chars segs tail
  end.

Section Chars.
Context `{DigitLaws, HashOrder}.

(** No underscore is followed by a decimal digit. *)
Definition quiet (cs : list bytes) : Prop := forall x d y, cs = x ++ underscore :: d :: y -> is_nd d = false.

Definition ends_low (cs : list bytes) : Prop := forall x c, cs = x ++ [c] -> is_capital c = false.
Definition head_plain (cs : list bytes) : Prop := forall c x, cs = c :: x -> is_nd c = false.

(** Capitals, an underscore and digits. *)
Definition stream_token (t : list bytes) : Prop :=
  exists p ds, t = p ++ underscore :: ds /\ p <> [] /\ ds <> [] /\
    Forall (fun c => is_capital c = true) p /\ Forall (fun c => is_nd c = true /\ is_capital c = false) ds.

Fixpoint streamable (v : Vault) (segs : list csegment) (tail : list bytes) : Prop :=
  match segs with
  | [] => quiet tail
  | (g, t, o) :: segs =>
      quiet g /\ ends_low g /\ stream_token t /\ Vault.lookup v (from_bytes (mjoin t)) = Some (from_bytes o) /\
      head_plain (masked_chars segs tail) /\ streamable v segs tail
  end.

Lemma quiet_app_r a b : quiet (a ++ b) -> quiet b.
Proof. intros Hq x d y ->. by apply (Hq (a ++ x) d y); rewrite <- app_assoc. Qed.

Lemma quiet_app_l a b : quiet (a ++ b) -> quiet a.
Proof. intros Hq x d y ->. apply (Hq x d (y ++ b)). by rewrite <- app_assoc. Qed.

Lemma ends_low_app_r a b : ends_low (a ++ b) -> ends_low b.
Proof. intros He x c ->. by apply (He (a ++ x) c); rewrite <- app_assoc. Qed.

Lemma ends_low_not_capitals p : ends_low p -> p <> [] -> ~ Forall (fun c => is_capital c = true) p.
Proof.
  intros He Hp Hc. destruct p as [|c p] using rev_ind; [done|]. clear IHp.
  apply Forall_app in Hc as [_ [Hc _]%Forall_cons]. by rewrite (He p c eq_refl) in Hc.
Qed.

(** No match begins in a gap: it ends before a token, or the text ends. *)
Lemma no_match_gap w r :
  w <> [] -> quiet w -> r = [] \/ ends_low w /\ (exists c r', r = c :: r' /\ is_capital c = true) ->
  match_token (w ++ r) = None.
Proof.
  intros Hw Hq Hr. unfold match_token. destruct (span is_capital w) as [a b] eqn:Hs.
  apply span_split in Hs as (-> & Ha & Hb). destruct b as [|u b].
  - rewrite app_nil_r in *. destruct Hr as [->|[He _]]; [|by destruct (ends_low_not_capitals a He Hw)].
    rewrite app_nil_r, (span_nil _ _ Ha). by destruct a.
  - rewrite <- app_assoc. simpl. rewrite (span_stop _ _ _ _ Ha (Hb u b eq_refl)). destruct a as [|c a]; [done|].
    case_bool_decide as Hu; [subst u|done].
    assert (Hno : forall d y, b ++ r = d :: y -> is_nd d = false).
    { intros d y Hby. destruct b as [|d' b].
      - destruct Hr as [->|[_ (e & r' & -> & He)]]; simplify_eq/=. by apply capital_not_nd.
      - simplify_eq/=. by apply (Hq (c :: a) d b). }
    destruct (b ++ r) as [|d y]; [done|]. simpl. by rewrite (Hno d y eq_refl).
Qed.

Lemma replace_all_skip v g r :
  (forall x w, g = x ++ w -> w <> [] -> match_token (w ++ r) = None) ->
  replace_all v (g ++ r) = both (mjoin g, false) (replace_all v r).
Proof.
  unfold replace_all. induction g as [|c g IH]; intros Hn.
  - unfold both. simpl. by destruct (replace_tokens _ v r).
  - simpl. change (c :: g ++ r) with ((c :: g) ++ r). rewrite (Hn [] (c :: g)) by done.
    rewrite IH; [unfold both; simpl; by rewrite <- app_assoc|]. intros x w -> Hw. by apply (Hn (c :: x)).
Qed.

Lemma match_stream_token t r : stream_token t -> head_plain r -> match_token (t ++ r) = Some (t, r).
Proof.
  intros (p & ds & -> & Hp & Hds & Hc & Hd) Hr. unfold match_token. rewrite <- app_assoc. simpl.
  rewrite (span_stop _ _ _ _ Hc capital_not_underscore). destruct p as [|c p]; [done|].
  rewrite bool_decide_eq_true_2 by done.
  assert (Hd' : Forall (fun c => is_nd c = true) ds) by (eapply Forall_impl; [exact Hd|]; by intros ? [? _]).
  assert (Hs : span is_nd (ds ++ r) = (ds, r)).
  { destruct r as [|x r]; [by rewrite app_nil_r, (span_nil _ _ Hd')|]. apply span_stop; [done|by eapply Hr]. }
  rewrite Hs. by destruct ds.
Qed.

Lemma replace_all_token v t o r : stream_token t -> head_plain r -> Vault.lookup v (from_bytes (mjoin t)) = Some (from_bytes o) ->
  replace_all v (t ++ r) = both (o, true) (replace_all v r).
Proof.
  intros Ht Hr Hv. unfold replace_all. pose proof (match_stream_token t r Ht Hr) as Hm.
  destruct t as [|c t]; [by destruct Ht as ([] & ? & ? & ? & _)|]. simpl in *. rewrite Hm. unfold replacement.
  change (c ++ mjoin t) with (mjoin (c :: t)) in Hv. rewrite Hv, as_from_bytes.
  rewrite (replace_tokens_fuel v (length r)); [|done|rewrite length_app; lia].
  by destruct (replace_tokens (length r) v r).
Qed.

Lemma stream_token_head t : stream_token t -> exists c r, t = c :: r /\ is_capital c = true.
Proof. intros ([|c p] & ds & -> & Hp & _ & Hc & _); [done|]. apply Forall_cons in Hc as [? _]. simpl. eauto. Qed.

Lemma replace_all_masked v segs tail : streamable v segs tail ->
  (replace_all v (masked_chars segs tail)).1 = restored_chars segs tail.
Proof.
  induction segs as [|[[g t] o] segs IH]; intros Hs; simpl in *.
  - rewrite <- (app_nil_r tail) at 1. rewrite replace_all_skip; [unfold both; simpl; by rewrite app_nil_r|].
    intros x w -> Hw. apply no_match_gap; [done|by eapply quiet_app_r|by left].
  - destruct Hs as (Hg & He & Ht & Hv & Hh & Hs). rewrite replace_all_skip.
    + rewrite (replace_all_token v t o) by done. unfold both. simpl. by rewrite IH.
    + intros x w -> Hw. apply no_match_gap; [done|by eapply quiet_app_r|right]. split; [by eapply ends_low_app_r|].
      destruct (stream_token_head t Ht) as (c & r & -> & Hc). simpl. eauto.
Qed.
End Chars.

(** ** The held tail *)

Section Held.
Context `{DigitLaws, CaseMapping, SimilarityCrate, HashOrderLaws}.

(** A digit after an underscore belongs to a token. *)
Lemma masked_mark v segs tail x d y :
  streamable v segs tail -> masked_chars segs tail = x ++ underscore :: d :: y -> is_nd d = true ->
  exists segs1 g t o segs2 p ds, segs = segs1 ++ (g, t, o) :: segs2 /\ t = p ++ underscore :: ds /\
    Forall (fun c => is_capital c = true) p /\
    x = masked_chars segs1 [] ++ g ++ p /\ d :: y = ds ++ masked_chars segs2 tail.
Proof.
  intros Hs He Hd. revert x He. induction segs as [|[[g t] o] segs IH]; intros x He; simpl in *.
  - by rewrite (Hs x d y He) in Hd.
  - destruct Hs as (Hg & _ & Ht & _ & _ & Hs). pose proof Ht as (p & ds & Hpt & Hp & Hds & Hc & Hn).
    destruct (stream_token_head t Ht) as (c0 & t0 & Ht0 & Hc0).
    assert (Hrec : forall z, masked_chars segs tail = z ++ underscore :: d :: y -> x = g ++ t ++ z ->
      exists segs1 g' t' o' segs2 p' ds', (g, t, o) :: segs = segs1 ++ (g', t', o') :: segs2 /\ t' = p' ++ underscore :: ds' /\
        Forall (fun c => is_capital c = true) p' /\
        x = masked_chars segs1 [] ++ g' ++ p' /\ d :: y = ds' ++ masked_chars segs2 tail).
    { intros z Hz Hx. destruct (IH Hs z Hz) as (segs1 & g' & t' & o' & segs2 & p' & ds' & -> & Ht' & Hp' & -> & Hy).
      exists ((g, t, o) :: segs1), g', t', o', segs2, p', ds'. split_and!; try done.
      rewrite Hx. simpl. by rewrite <- !app_assoc. }
    apply app_eq_app in He as [z [[Hgz Hz]|[Hx Hz]]].
    + exfalso. rewrite Ht0 in Hz. destruct z as [|u [|d' z]]; simplify_eq/=; try done.
      * by rewrite capital_not_nd in Hd.
      * by rewrite (Hg x d' z) in Hd.
    + rewrite Hpt in Hz. rewrite <- app_assoc in Hz. simpl in Hz.
      assert (Hhere : z = p -> ds ++ masked_chars segs tail = d :: y ->
        exists segs1 g' t' o' segs2 p' ds', (g, t, o) :: segs = segs1 ++ (g', t', o') :: segs2 /\ t' = p' ++ underscore :: ds' /\
          Forall (fun c => is_capital c = true) p' /\
          x = masked_chars segs1 [] ++ g' ++ p' /\ d :: y = ds' ++ masked_chars segs2 tail).
      { intros -> Hy. by exists [], g, t, o, segs, p, ds. }
      apply app_eq_app in Hz as [w [[Hpw Hw]|[Hzw Hw]]].
      * destruct w as [|u w]; [rewrite app_nil_r in Hpw; simplify_eq/=; by apply Hhere|].
        exfalso. rewrite Hpw in Hc. apply Forall_app in Hc as [_ [Hc _]%Forall_cons]. simplify_eq/=. 
      * destruct w as [|u w]; [rewrite app_nil_r in Hzw; simplify_eq/=; by apply Hhere|].
        injection Hw as <- Hw. apply app_eq_app in Hw as [k [[Hk Hr]|[Hk Hr]]].
        -- destruct k as [|u k]; simpl in Hr.
           ++ rewrite app_nil_r in Hk. apply (Hrec []); [done|]. by rewrite Hx, Hzw, Hpt, Hk, app_nil_r.
           ++ exfalso. injection Hr as <- _. rewrite Hk in Hn.
              apply Forall_app in Hn as [_ [[Hu _] _]%Forall_cons]. unfold underscore in Hu. by rewrite is_nd_ascii in Hu.
        -- apply (Hrec k); [done|]. rewrite Hx, Hzw, Hpt, Hk. simpl. by rewrite <- !app_assoc.
Qed.
(** Capitals and at most an underscore hold no mark. *)
Lemma prefix_chars_no_mark b : Forall (fun c => prefix_char c = true) b -> has_mark b = false.
Proof.
  intros Hb. destruct (has_mark b) eqn:Hm; [|done]. apply has_mark_spec in Hm as (x & d & y & -> & Hd).
  apply Forall_app in Hb as [_ [_ [Hp _]%Forall_cons]%Forall_cons]. by rewrite prefix_not_digit in Hd.
Qed.

Lemma capitals_prefix r : Forall (fun c => is_capital c = true) r -> Forall (fun c => prefix_char c = true) (mjoin r).
Proof.
  induction 1 as [|c r Hc _ IH]; [constructor|]. simpl. apply Forall_app. split; [|done].
  destruct c as [|a [|]]; try done. constructor; [|done]. unfold prefix_char. simpl in Hc. by rewrite Hc.
Qed.

(** Two splits before their last capitals are the same. *)
Lemma last_capitals a r b q :
  Forall (fun c => is_capital c = true) r -> Forall (fun c => is_capital c = true) q ->
  ends_low a -> ends_low b -> a ++ r = b ++ q -> r = q.
Proof.
  intros Hr Hq Ha Hb He. apply app_eq_app in He as [w [[-> Hw]|[-> Hw]]].
  - destruct w as [|c w]; [done|]. exfalso. subst q. apply Forall_app in Hq as [Hq _].
    apply ends_low_app_r in Ha. by destruct (ends_low_not_capitals (c :: w) Ha).
  - destruct w as [|c w]; [done|]. exfalso. subst r. apply Forall_app in Hr as [Hr _].
    apply ends_low_app_r in Hb. by destruct (ends_low_not_capitals (c :: w) Hb).
Qed.

Lemma masked_ends_low v segs g : streamable v segs [] -> ends_low g -> ends_low (masked_chars segs [] ++ g).
Proof.
  intros Hs Hg x c Hx. destruct g as [|d g _] using rev_ind.
  - rewrite app_nil_r in Hx. clear Hg. revert x Hx. induction segs as [|[[g t] o] segs IH]; intros x Hx; [by destruct x|].
    simpl in *. destruct Hs as (_ & _ & (p & ds & -> & _ & Hds & _ & Hd) & _ & _ & Hs).
    destruct (masked_chars segs []) as [|e l _] eqn:Hm using rev_ind.
    + rewrite app_nil_r in Hx. destruct ds as [|e ds _] using rev_ind; [done|].
      apply Forall_app in Hd as [_ [[_ He] _]%Forall_cons]. revert Hx. rewrite app_comm_cons, !app_assoc.
      by intros [_ [= <-]]%app_inj_2.
    + revert Hx. rewrite !app_assoc. intros [_ [= <-]]%app_inj_2; [|done]. by apply (IH Hs l).
  - rewrite app_assoc in Hx. apply app_inj_2 in Hx as [_ [= <-]]; [|done]. by apply (Hg g d).
Qed.

Lemma masked_chars_app segs1 segs2 tail : masked_chars (segs1 ++ segs2) tail = masked_chars segs1 [] ++ masked_chars segs2 tail.
Proof. induction segs1 as [|[[g t] o] segs1 IH]; [done|]. simpl. by rewrite IH, <- !app_assoc. Qed.

Lemma streamable_app v segs1 segs2 tail :
  streamable v (segs1 ++ segs2) tail -> streamable v segs1 [] /\ streamable v segs2 tail.
Proof.
  induction segs1 as [|[[g t] o] segs1 IH]; simpl.
  - intros Hs. split; [|done]. by intros [] ? ? ?.
  - intros (Hg & He & Ht & Hv & Hh & Hs). destruct (IH Hs) as [? ?]. split_and!; try done.
    intros c x Hx. apply (Hh c (x ++ masked_chars segs2 tail)). by rewrite masked_chars_app, Hx.
Qed.

Lemma flush_held v segs tail :
  vault_ok v -> plain_vault v -> streamable v segs tail -> Forall (fun s : csegment => has_mark s.2 = false) segs ->
  let (a, h) := split_tail (masked_chars segs tail) in
  as_bytes (flush (from_bytes (mjoin h)) v) = (replace_all v h).1.
Proof.
  intros Hok Hp Hs Hmark. pose proof (split_tail_spec (masked_chars segs tail)) as Hsp.
  destruct (split_tail _) as [a h]. destruct Hsp as (He & [->|Hh] & Hno); [done|].
  assert (Hplain : Forall (fun c => prefix_char c = true) (mjoin h) -> quiet h ->
    as_bytes (flush (from_bytes (mjoin h)) v) = (replace_all v h).1).
  { intros Hb Hq. rewrite (replace_all_masked v [] h) by done. unfold flush, str_is_empty.
    case_bool_decide as Hem; [by rewrite <- (as_from_bytes (restored_chars _ _)); simpl; rewrite Hem|].
    pose proof (rehydrate_segments v [] (mjoin h) Hok Hp ltac:(constructor) I (prefix_chars_no_mark _ Hb)) as Hr.
    simpl in Hr. rewrite Hr. simpl. by rewrite as_from_bytes. }
  apply tail_matches_spec in Hh as (r & Hr & Hc & [->|(ds & -> & Hd)]).
  - apply Hplain; [by apply capitals_prefix|]. intros x d y ->. exfalso.
    by apply Forall_app in Hc as [_ [Hc _]%Forall_cons].
  - destruct ds as [|d ds].
    + apply Hplain.
      * rewrite join_app. apply Forall_app. split; [by apply capitals_prefix|]. by repeat constructor.
      * intros x d y Hx. exfalso. change (r ++ [underscore]) with (r ++ underscore :: []) in Hx.
        apply app_eq_app in Hx as [w [[-> Hw]|[-> Hw]]]; destruct w as [|u w]; simplify_eq/=.
        -- by apply Forall_app in Hc as [_ [Hc _]%Forall_cons].
        -- by destruct w.
    + clear Hplain. pose proof Hd as [Hd0 _]%Forall_cons.
      assert (He' : masked_chars segs tail = (a ++ r) ++ underscore :: d :: ds) by (by rewrite He, <- app_assoc).
      destruct (masked_mark v segs tail _ _ _ Hs He' Hd0) as (segs1 & g & t & o & segs2 & p & ds' & -> & Ht & Hp' & Hx & Hy).
      apply streamable_app in Hs as [Hs1 (_ & Hg & Hst & Hv & Hpl & _)].
      pose proof (masked_ends_low v segs1 g Hs1 Hg) as Hlow.
      assert (Hend : masked_chars segs2 tail = []).
      { destruct (masked_chars segs2 tail) as [|c l]; [done|]. exfalso. rewrite Hy in Hd.
        apply Forall_app in Hd as [_ [Hc0 _]%Forall_cons]. by rewrite (Hpl c l eq_refl) in Hc0. }
      rewrite Hend, app_nil_r in Hy. rewrite app_assoc in Hx.
      assert (Ha : ends_low a).
      { intros x c ->. destruct (is_capital c) eqn:Hcc; [|done]. exfalso.
        assert (Hf : tail_matches ([c] ++ r ++ underscore :: d :: ds) = false) by by apply (Hno x).
        assert (Htr : tail_matches ([c] ++ r ++ underscore :: d :: ds) = true); [|congruence].
        apply tail_matches_spec. exists (c :: r). split_and!; [done|by constructor|]. right. by exists (d :: ds). }
      pose proof (last_capitals _ _ _ _ Hc Hp' Ha Hlow Hx) as ->. rewrite Hy, <- Ht.
      rewrite <- (app_nil_r t) at 2. rewrite (replace_all_token v t o) by done. unfold both. simpl. rewrite app_nil_r.
      apply Forall_app in Hmark as [_ [Hm _]%Forall_cons]. simpl in Hm.
      unfold flush, str_is_empty. case_bool_decide as Hem.
      { destruct (stream_token_head t Hst) as ([|c0 [|]] & t0 & -> & Hc0); done. }
      assert (Htl : token_like (mjoin t)).
      { rewrite <- (as_from_bytes (mjoin t)). apply (vault_tokens_like v Hok Hp). by eexists. }
      pose proof (rehydrate_segments v [([], mjoin t, o)] [] Hok Hp) as Hr'. unfold plain_text in Hr'. simpl in Hr'.
      rewrite !app_nil_r in Hr'. rewrite Hr'; [by rewrite ?app_nil_r; simpl; rewrite as_from_bytes|..].
      * by repeat constructor.
      * split_and!; [done|by intros [] ? ?|by intros ? ? ?|done].
      * done.
Qed.
End Held.

(** ** From bytes to characters *)

Definition char_segment (s : segment) : csegment := (chars s.1.1, chars s.1.2, s.2).

Section ToChars.

Lemma token_plain p d n : Forall (fun c => is_ascii_uppercase c = true) p -> Forall (fun c => is_ascii_digit c = true) (d :: n) ->
  Forall (fun c => is_continuation c = false) (p ++ "_"%char :: d :: n).
Proof.
  intros Hp Hn. apply Forall_app. split; [eapply Forall_impl; [exact Hp|]|constructor; [done|eapply Forall_impl; [exact Hn|]]];
    intros [[] [] [] [] [] [] [] []]; done.
Qed.

(** The characters of a masked text are those of its pieces. *)
Lemma chars_render segs tail :
  Forall (fun s : segment => starts_char s.1.2 /\ s.1.2 <> []) segs ->
  Forall (fun s : segment => starts_char s.1.1) (list.tail segs) -> starts_char tail ->
  chars (render (fun _ => false) segs tail) = masked_chars (char_segment <$> segs) (chars tail).
Proof.
  induction segs as [|[[g t] o] segs IH]; intros Ht Hg Hs; [done|]. simpl in *.
  apply Forall_cons in Ht as [[Ht Hne] Hts]. simpl in Ht, Hne.
  assert (Hr : starts_char (render (fun _ => false) segs tail)).
  { destruct segs as [|[[g' t'] o'] segs]; [done|]. simpl. apply Forall_cons in Hg as [Hg' _]. simpl in Hg'.
    apply Forall_cons in Hts as [[Ht' Hne'] _]. simpl in *. apply starts_char_app; [done|].
    destruct t'; [done|]. intros c r He. simplify_eq/=. by eapply Ht'. }
  rewrite chars_app, chars_app, IH; [done|done|by destruct segs; [|apply Forall_cons in Hg as [_ ?]]|done|done|by apply starts_char_app].
Qed.

Lemma restored_plain segs tail : restored_chars (char_segment <$> segs) (chars tail) = plain_text segs tail.
Proof.
  unfold plain_text. induction segs as [|[[g t] o] segs IH]; [apply mjoin_chars|].
  rewrite fmap_cons. cbn [restored_chars char_segment render fst snd]. by rewrite mjoin_chars, IH.
Qed.
End ToChars.

Section EndToEnd.
Context `{DigitLaws, CaseMapping, SimilarityCrate, HashOrderLaws}.

(** A category whose tokens begin with capitals only. *)
Definition capital_category (c : EntityCategory) : Prop :=
  as_bytes (category_prefix c) <> [] /\ Forall (fun c => is_ascii_uppercase c = true) (as_bytes (category_prefix c)).

(** No entity follows a capital or is followed by a decimal digit, as
    characters. *)
Definition chars_apart (text : string) (es : list DetectedEntity) : Prop :=
  Forall (fun e => ends_low (chars (take (start_ e) (as_bytes text))) /\
                   head_plain (chars (drop (end_ e) (as_bytes text)))) es.

Lemma capital_plain c : capital_category c -> plain_category c.
Proof. intros [_ Hc]. eapply Forall_impl; [exact Hc|]. intros a Ha. unfold prefix_char. by rewrite Ha. Qed.

Lemma spell_shape c n : capital_category c -> exists d m, as_bytes (spell (category_prefix c) n) =
  as_bytes (category_prefix c) ++ "_"%char :: d :: m /\ Forall (fun c => is_ascii_digit c = true) (d :: m).
Proof.
  intros [_ Hc]. unfold spell. destruct (as_bytes (pretty n)) as [|d m] eqn:Hn; [by apply pretty_N_nonempty in Hn|].
  exists d, m. rewrite !as_bytes_app, Hn. split; [done|].
  pose proof (pretty_N_digits n) as Hd. unfold str_all in Hd. rewrite Hn, forallb_forall in Hd.
  apply Forall_forall. intros x Hx%list_elem_of_In. by apply Hd.
Qed.

Lemma spell_stream_token c n : capital_category c -> let t := as_bytes (spell (category_prefix c) n) in
  stream_token (chars t) /\ starts_char t /\ t <> [].
Proof.
  intros Hc t. destruct (spell_shape c n Hc) as (d & m & Ht & Hd). fold t in Ht. destruct Hc as [Hne Hc].
  pose proof (token_plain _ d m Hc Hd) as Hp. rewrite <- Ht in Hp. split_and!.
  - rewrite (chars_plain t Hp), Ht, fmap_app, !fmap_cons.
    exists ((fun c => [c]) <$> as_bytes (category_prefix c)), ([d] :: ((fun c => [c]) <$> m)). split_and!; [done| |done| |].
    + by destruct (as_bytes (category_prefix c)).
    + apply Forall_fmap. exact Hc.
    + rewrite <- (fmap_cons (fun c => [c])). apply Forall_fmap. eapply Forall_impl; [exact Hd|].
      intros a Ha. simpl. rewrite is_nd_ascii. split; [done|]. revert Ha. by destruct a as [[] [] [] [] [] [] [] []].
  - intros a r He. rewrite He in Hp. by apply Forall_cons in Hp as [? _].
  - rewrite Ht. by destruct (as_bytes (category_prefix c)).
Qed.

Lemma chars_cut text i : starts_char (as_bytes text) -> is_char_boundary text i = true ->
  chars (as_bytes text) = chars (take i (as_bytes text)) ++ chars (drop i (as_bytes text)).
Proof. intros Hst Hb. rewrite <- chars_app by by apply boundary_starts. by rewrite take_drop. Qed.

(** The gap before an entity, as characters. *)
Lemma chars_gap text last i : starts_char (as_bytes text) -> is_char_boundary text last = true ->
  is_char_boundary text i = true -> last <= i ->
  let g := take (i - last) (drop last (as_bytes text)) in
  chars (take i (as_bytes text)) = chars (take last (as_bytes text)) ++ chars g /\
  chars (drop last (as_bytes text)) = chars g ++ chars (drop i (as_bytes text)).
Proof.
  intros Hst Hb Hi Hle g. split; rewrite <- chars_app.
  - f_equal. unfold g. rewrite take_take_drop. f_equal. lia.
  - pose proof (boundary_starts text last Hst Hb) as Hd. unfold g.
    rewrite <- (take_drop (i - last)) in Hd. by apply starts_char_l in Hd.
  - f_equal. unfold g. rewrite <- (take_drop (i - last) (drop last _)) at 1. f_equal. rewrite drop_drop. f_equal. lia.
  - by apply boundary_starts.
Qed.

Definition token_of (v : Vault) (e : DetectedEntity) (t : PseudoToken) : Prop :=
  Vault.lookup v (token t) = Some (original e) /\ exists c n, capital_category c /\ token t = spell (category_prefix c) n.

Lemma masked_head text last es ts v :
  starts_char (as_bytes text) -> placed text last es -> head_plain (chars (drop last (as_bytes text))) ->
  Forall2 (token_of v) es ts ->
  head_plain (masked_chars (char_segment <$> segments text last es ts) (chars (drop (final_end last es) (as_bytes text)))).
Proof.
  intros Hst Hp Hh Hts. destruct Hts as [|e t es ts (_ & c & n & Hc & Ht) _]; [done|].
  destruct Hp as (Hb & Hle & Hs & _). apply str_slice_Some in Hs as (_ & Hbs & _ & _).
  destruct (chars_gap text last (start_ e) Hst Hb Hbs Hle) as [_ Hg].
  simpl segments. rewrite fmap_cons. cbn [char_segment fst snd masked_chars].
  destruct (chars (take (start_ e - last) (drop last (as_bytes text)))) as [|a g].
  - destruct (stream_token_head _ (proj1 (spell_stream_token c n Hc))) as (a & r & Ha & Hcap). rewrite Ht, Ha.
    intros a' x Hx. simplify_eq/=. by apply capital_not_nd.
  - intros a' x Hx. simplify_eq/=. by apply (Hh a' (g ++ chars (drop (start_ e) (as_bytes text)))).
Qed.

(** The segments of placed entities are streamable. *)
Lemma segments_streamable text last es ts v :
  starts_char (as_bytes text) -> quiet (chars (as_bytes text)) -> placed text last es -> chars_apart text es ->
  Forall2 (token_of v) es ts ->
  streamable v (char_segment <$> segments text last es ts) (chars (drop (final_end last es) (as_bytes text))).
Proof.
  intros Hst Hq. revert last ts. induction es as [|e es IH]; intros last ts Hp Ha Hts.
  - apply Forall2_nil_inv_l in Hts as ->. simpl. pose proof (placed_boundary _ _ _ Hp) as Hb.
    rewrite (chars_cut text last) in Hq by done. by eapply quiet_app_r.
  - apply Forall2_cons_inv_l in Hts as (t & ts' & (Hl & c & n & Hc & Ht) & Hts & ->).
    pose proof Hp as (Hb & Hle & Hs & Hp'). apply str_slice_Some in Hs as (Hse & Hbs & Hbe & Ho).
    apply Forall_cons in Ha as [[Hend Hhead] Ha]. simpl segments. rewrite fmap_cons.
    destruct (chars_gap text last (start_ e) Hst Hb Hbs Hle) as [Hg _].
    destruct (spell_stream_token c n Hc) as (Hstt & _ & _). cbn [char_segment fst snd streamable]. split_and!.
    + rewrite (chars_cut text (start_ e)), Hg in Hq by done. by eapply quiet_app_r, quiet_app_l.
    + rewrite Hg in Hend. by eapply ends_low_app_r.
    + by rewrite Ht.
    + by rewrite mjoin_chars, !from_as_bytes.
    + by apply (masked_head text (end_ e) es ts' v).
    + by apply IH.
Qed.

Lemma has_mark_app a b : has_mark (a ++ b) = false -> has_mark a = false /\ has_mark b = false.
Proof.
  intros Hm. split; [destruct (has_mark a) eqn:Ht|destruct (has_mark b) eqn:Ht]; try done;
    apply has_mark_spec in Ht as (x & d & y & -> & Hd); exfalso.
  - apply (no_mark x d (y ++ b) _ Hm Hd). by rewrite <- app_assoc.
  - apply (no_mark (a ++ x) d y _ Hm Hd). by rewrite <- app_assoc.
Qed.

Lemma plain_marks segs tail : has_mark (plain_text segs tail) = false -> Forall (fun s : segment => has_mark s.2 = false) segs.
Proof.
  unfold plain_text. induction segs as [|[[g t] o] segs IH]; simpl; intros Hm; [constructor|].
  apply has_mark_app in Hm as [_ [Ho Hm]%has_mark_app]. constructor; [done|by apply IH].
Qed.

Lemma segments_shape text last es ts v :
  starts_char (as_bytes text) -> placed text last es -> Forall2 (token_of v) es ts ->
  Forall (fun s : segment => starts_char s.1.2 /\ s.1.2 <> []) (segments text last es ts) /\
  Forall (fun s : segment => starts_char s.1.1) (segments text last es ts) /\
  starts_char (drop (final_end last es) (as_bytes text)).
Proof.
  intros Hst Hp Hts. revert last Hp. induction Hts as [|e t es ts (_ & c & n & Hc & Ht) _ IH]; intros last Hp.
  - split_and!; [constructor|constructor|]. simpl. apply boundary_starts; [done|by eapply placed_boundary].
  - destruct Hp as (Hb & Hle & _ & Hp). destruct (IH _ Hp) as (H1' & H2' & H3').
    destruct (spell_stream_token c n Hc) as (_ & Hs & Hne). simpl. split_and!; [|constructor; [|done]|done].
    + constructor; [by rewrite Ht|done].
    + simpl. pose proof (boundary_starts text last Hst Hb) as Hd.
      rewrite <- (take_drop (start_ e - last)) in Hd. by apply starts_char_l in Hd.
Qed.
End EndToEnd.

(** A masked text in any chunks comes out of the chunk loop, flush included,
    as the original text. *)
Lemma chunks_restored `{DigitLaws, CaseMapping, SimilarityCrate, HashOrderLaws} text es v n :
  exact_vault n v -> (N.of_nat (n + length es) < 2 ^ 32)%N -> all_categories capital_category v ->
  Forall (fun e => capital_category (category e)) es ->
  placed text 0 es -> starts_char (as_bytes text) ->
  has_mark (as_bytes text) = false -> quiet (chars (as_bytes text)) -> chars_apart text es ->
  exists r v', pseudonymize text es v = Some (r, v') /\
    forall chunks, foldr String.append "" chunks = text_ r -> Forall (fun c => starts_char (as_bytes c)) chunks ->
      deliver chunks "" v' = text.
Proof.
  intros Hv Hn Hcv Hcat Hp Hst Hm Hq Ha.
  destruct (pseudonyms_tokens n v es Hv Hn) as (Hok & Hlen & Hget).
  assert (Hcv' : all_categories capital_category (pseudonyms v (requests es)).2).
  { apply all_categories_pseudonyms; [done|]. unfold requests. by apply Forall_map. }
  assert (Hpl : plain_vault (pseudonyms v (requests es)).2) by (intros o t Ht; apply capital_plain; by eapply Hcv').
  rewrite pseudonymize_segments by done. eexists _, _. split; [done|]. intros chunks Hch Hs.
  set (ts := (pseudonyms v (requests es)).1) in *. set (v' := (pseudonyms v (requests es)).2) in *.
  assert (Hts : Forall2 (token_of v') es ts).
  { apply Forall2_same_length_lookup_2; [by rewrite Hlen|]. intros i e t He Ht.
    destruct (Hget i e He) as (t' & Ht' & Hr & Hf). simplify_eq. split; [done|].
    exists (token_category t), (token_id t). split; [by eapply Hcv'|by apply (ok_spelled v' Hok (original e))]. }
  etrans; [exact (deliver_held chunks [] v' (or_introl eq_refl) eq_refl Hs)|].
  change (from_bytes (mjoin []) +:+ ?x) with x. rewrite Hch. unfold deliver_whole. simpl text_. rewrite as_from_bytes.
  destruct (segments_shape text 0 es ts v' Hst Hp Hts) as (Hs1 & Hs2 & Hs3).
  rewrite chars_render by (done || by destruct (segments text 0 es ts); [|apply Forall_cons in Hs2 as [_ ?]]).
  pose proof (segments_streamable text 0 es ts v' Hst Hq Hp Ha Hts) as Hstr.
  set (segs := segments text 0 es ts) in *. set (tail := drop (final_end 0 es) (as_bytes text)) in *.
  assert (Hpt : plain_text segs tail = as_bytes text) by (unfold segs, tail; by rewrite segments_plain, drop_0).
  assert (Hmarks : Forall (fun s : csegment => has_mark s.2 = false) (char_segment <$> segs)).
  { apply Forall_fmap. rewrite <- Hpt in Hm. by apply plain_marks in Hm. }
  pose proof (flush_held v' _ _ Hok Hpl Hstr Hmarks) as Hf.
  pose proof (split_tail_spec (masked_chars (char_segment <$> segs) (chars tail))) as Hsp.
  pose proof (replace_all_masked v' _ _ Hstr) as Hall.
  destruct (split_tail _) as [a h]. destruct Hsp as (He & Hh & Hno). rewrite He in Hall.
  rewrite (replace_all_cut v' a h h Hno Hh) in Hall.
  - apply (inj as_bytes). rewrite as_bytes_app, as_from_bytes, Hf. unfold both in Hall. simpl in Hall.
    by rewrite Hall, restored_plain, Hpt.
  - destruct Hh as [->|Hh]; [by left|right; right]. destruct (held_head h [] Hh) as (c & r & Hc & ?).
    rewrite app_nil_r in Hc. eauto.
Qed.

(** C13: a masked text streamed back is the original text.  When the text holds
    no underscore before a decimal digit, no entity follows a capital letter
    or is followed by a decimal digit, and every category (of the entities
    and of the vault) has a prefix of capitals only, then whatever OpenAI or
    Anthropic event stream carries the masked text, cut into whatever
    events, with whatever other events and lines between them, the events the proxy sends on
    carry exactly the text that was masked. *)
Theorem stream_restores_text `{DigitLaws, CaseMapping, SimilarityCrate, HashOrderLaws, JsonCrates} text es v n :
  exact_vault n v -> (N.of_nat (n + length es) < 2 ^ 32)%N -> all_categories capital_category v ->
  Forall (fun e => capital_category (category e)) es ->
  placed text 0 es -> starts_char (as_bytes text) ->
  has_mark (as_bytes text) = false -> quiet (chars (as_bytes text)) -> chars_apart text es ->
  exists r v', pseudonymize text es v = Some (r, v') /\ forall body,
    (foldr String.append "" (openai_contents body) = text_ r -> Forall (fun c => starts_char (as_bytes c)) (openai_contents body) ->
       delivered content_of (rehydrate_stream body v') = text) /\
    (foldr String.append "" (anthropic_texts body) = text_ r -> Forall (fun c => starts_char (as_bytes c)) (anthropic_texts body) ->
       delivered delta_text (rehydrate_anthropic_stream body v') = text).
Proof.
  intros Hv Hn Hcv Hcat Hp Hst Hm Hq Ha. destruct (chunks_restored text es v n) as (r & v' & Hr & Hch); [done..|].
  exists r, v'. split; [done|]. intros body. rewrite rehydrate_stream_delivers, rehydrate_anthropic_delivers. split; apply Hch.
Qed.

(** *** Concrete instances *)

Section Witnesses.
Import Toy ToyDigits.

Lemma quiet_check cs :
  forallb (fun i => match cs !! i, cs !! S i with
                    | Some u, Some d => negb (bool_decide (u = underscore) && is_nd d)
                    | _, _ => true end) (seq 0 (length cs)) = true -> quiet cs.
Proof.
  intros Hc x d y ->. rewrite forallb_forall in Hc. specialize (Hc (length x)).
  rewrite (list_lookup_middle x _ underscore), lookup_app_r, Nat.sub_succ_l, Nat.sub_diag in Hc by lia. simpl in Hc.
  apply negb_true_iff in Hc; [done|]. apply in_seq. rewrite length_app. simpl. lia.
Qed.

Lemma ends_low_last cs : from_option is_capital false (last cs) = false -> ends_low cs.
Proof. intros Hl x c ->. by rewrite last_snoc in Hl. Qed.

Lemma head_plain_head cs : from_option is_nd false (head cs) = false -> head_plain cs.
Proof. by intros Hh c x ->. Qed.

(** The masked text in three events, a token cut in two. *)
Definition stream_body (pieces : list string) : string :=
  foldr (fun p rest => "data: " +:+ value_text (content_event p) +:+ LF +:+ LF +:+ rest) ("data: [DONE]" +:+ LF) pieces.
Definition masked_demo : string := match pseudonymize demo_text demo_entities (vault_new None []) with Some (r, _) => text_ r | None => "" end.
Definition demo_pieces : list string := [from_bytes (take 6 (as_bytes masked_demo)); from_bytes (drop 6 (as_bytes masked_demo))].
Lemma stream_restores_text_witness : exists r v',
  pseudonymize demo_text demo_entities (vault_new None []) = Some (r, v') /\
  delivered content_of (rehydrate_stream (stream_body demo_pieces) v') = demo_text.
Proof.
  destruct (stream_restores_text demo_text demo_entities (vault_new None []) 0) as (r & v' & Hr & Hs); [apply vault_new_exact|done|..].
  - intros o t Ht. cbn in Ht. by rewrite lookup_empty in Ht.
  - repeat constructor; vm_compute; done.
  - apply demo_placed.
  - by apply starts_char_ascii.
  - vm_compute; reflexivity.
  - apply quiet_check. vm_compute. reflexivity.
  - repeat constructor; (apply ends_low_last || apply head_plain_head); vm_compute; reflexivity.
  - exists r, v'. split; [exact Hr|]. assert (Hc : openai_contents (stream_body demo_pieces) = demo_pieces) by (vm_compute; reflexivity).
    apply Hs; rewrite Hc.
    + assert (Ht : text_ r = masked_demo) by (unfold masked_demo; rewrite Hr; reflexivity). rewrite Ht. vm_compute. reflexivity.
    + repeat (apply Forall_cons; split; [apply starts_char_ascii; vm_compute; reflexivity|]). apply Forall_nil_2.
Defined.
End Witnesses.
