(* ===== verification/Detector.v ===== *)
(** * Detection of entities

    [cloakpipe-core/src/detector/]: the rule tables of [patterns.rs],
    [financial.rs] and [custom.rs], and [Detector::detect] ([mod.rs]) as the
    default build has it (the [ner] features are off).  The regular
    expression engine is a parameter; what a detector finds is always placed
    in the text ([detect_placed]), which is what the replacer needs. *)

From S2P Require Import Prelude Text Utf8 BTree Json Crates Concrete Vault FormatPreserving Pseudonym.

(** [regex]: [Regex::find_iter] as the byte ranges of its matches. *)
Class RegexFind `{RegexCrate} := { find_iter : Regex -> string -> list (nat * nat) }.

(** A match lies between character boundaries of the text. *)
Class RegexFindLaws `{RegexFind} := {
  find_iter_bounds re s a b : (a, b) ∈ find_iter re s ->
    a <= b /\ is_char_boundary s a = true /\ is_char_boundary s b = true;
}.

(** ** Configuration ([config.rs]) *)

Record CustomPattern := mkCustomPattern {
  pattern_name : string;
  pattern_regex : string;
  pattern_category : string;
}.

Record OverrideConfig := mkOverrides {
  preserve : list string;
  force : list string;
}.

Record DetectionConfig := mkDetectionConfig {
  secrets : bool;
  financial : bool;
  dates : bool;
  emails : bool;
  phone_numbers : bool;
  ip_addresses : bool;
  urls_internal : bool;
  custom_patterns : list CustomPattern;
  overrides : OverrideConfig;
}.

Section Detector.
Context `{RegexFind}.

(** A compiled rule; the error of [Regex::new] is the expression. *)
Record PatternRule := mkRule {
  rule_regex : Regex;
  rule_category : EntityCategory;
}.

Definition compile (r : string * EntityCategory) : result string PatternRule :=
  match regex_new r.1 with Some re => Ok (mkRule re r.2) | None => Err r.1 end.

(** ** Layer 1 ([patterns.rs]) *)

Definition secret_rules : list (string * EntityCategory) :=
  [("(?i)(AKIA[0-9A-Z]{16})", Secret);
   ("sk-(?:proj|live|test|prod)-[a-zA-Z0-9]{10,}", Secret);
   ("sk-[a-zA-Z0-9]{32,}", Secret);
   ("(?i)(ghp_[a-zA-Z0-9]{36}|gho_[a-zA-Z0-9]{36}|ghs_[a-zA-Z0-9]{36}|github_pat_[a-zA-Z0-9_]{22,})", Secret);
   ("(?i)(postgres(?:ql)?://[^\s]+|mysql://[^\s]+|mongodb(?:\+srv)?://[^\s]+)", Secret);
   ("eyJ[a-zA-Z0-9_-]+\.eyJ[a-zA-Z0-9_-]+\.[a-zA-Z0-9_-]+", Secret)].

Definition identity_rules : list (string * EntityCategory) :=
  [("\b\d{3}-\d{2}-\d{4}\b", Custom "SSN");
   ("\b\d{4}\s\d{4}\s\d{4}\b", Custom "AADHAAR");
   ("\b[A-Z]{5}\d{4}[A-Z]\b", Custom "PAN");
   ("\b(?i:EMP|INS|WF|FM|ANT|SH|MRN|TN|CP|HR|POL|CLM|REF|ACCT|MBR|HO)[-–]\d[\w-]{3,}\b", Custom "ID_NUMBER");
   ("\b(?:CRC|NMLS|NPI|DEA|LPC|BAR|LIC)[-–#\s]*\d{4,}\b", Custom "LICENSE_NUMBER");
   ("#[A-Z]{2}-\d{4,}", Custom "LICENSE_NUMBER")].

Definition pattern_rules (config : DetectionConfig) : list (string * EntityCategory) :=
  (if secrets config then secret_rules else [])
  ++ (if emails config then [("[a-zA-Z0-9._%+-]+@[a-zA-Z0-9.-]+\.[a-zA-Z]{2,}", Email)] else [])
  ++ (if ip_addresses config
      then [("\b(?:(?:25[0-5]|2[0-4]\d|[01]?\d\d?)\.){3}(?:25[0-5]|2[0-4]\d|[01]?\d\d?)\b", IpAddress)] else [])
  ++ identity_rules
  ++ (if phone_numbers config
      then [("(?:\+[1-9]\d{0,2}[-.\s]?)?\(?\d{2,4}\)?[-.\s]?\d{3,4}[-.\s]?\d{4,}", PhoneNumber)] else [])
  ++ (if urls_internal config
      then [("https?://[a-zA-Z0-9](?:[a-zA-Z0-9.-]*[a-zA-Z0-9])?(?::\d{1,5})?(?:/[^\s)]*)?", Url)] else []).

(** ** Layer 2 ([financial.rs]): always on, whatever the configuration. *)

Definition financial_rules : list (string * EntityCategory) :=
  [("(?:[$€£₹¥])\s*[\d,]+(?:\.\d+)?\s*(?:[KMBT]|[Ll](?:akh)?|[Cc]r(?:ore)?)?(?:\s+(?:million|billion|trillion|crore|lakh))?", Amount);
   ("\b(?:INR|USD|EUR|GBP|JPY)\s+[\d,]+(?:\.\d+)?\s*(?:[KMBT]|[Ll](?:akh)?|[Cc]r(?:ore)?)?", Amount);
   ("-?\d+(?:\.\d+)?%", Percentage);
   ("(?:Q[1-4]|H[12]|FY)\s*(?:20)?\d{2}(?:-\d{2})?", Date);
   ("(?:January|February|March|April|May|June|July|August|September|October|November|December)\s+\d{1,2},?\s+\d{4}|\b\d{1,2}/\d{1,2}/\d{4}\b|\b\d{4}-\d{2}-\d{2}\b", Date)].

(** ** Layer 4 ([custom.rs]) *)

Definition custom_rules (config : DetectionConfig) : list (string * EntityCategory) :=
  map (fun p => (pattern_regex p, Custom (pattern_category p))) (custom_patterns config).

(** ** The detector ([mod.rs]) *)

Record Detector := mkDetector {
  pattern_detector : list PatternRule;
  financial_detector : list PatternRule;
  custom_detector : list PatternRule;
  preserve_list : list string;
  force_list : list string;
}.

Definition from_config (config : DetectionConfig) : result string Detector :=
  let? patterns := try_map compile (pattern_rules config) in
  let? financials := try_map compile financial_rules in
  let? customs := try_map compile (custom_rules config) in
  Ok (mkDetector patterns financials customs (preserve (overrides config)) (force (overrides config))).

(** The bytes of a match ([Match::as_str]). *)
Definition match_text (text : string) (m : nat * nat) : string :=
  from_bytes (take (m.2 - m.1) (drop m.1 (as_bytes text))).

Definition one : f64 := f64_of_Z 1.

(** One layer: its rules in order, each over the whole text. *)
Definition detect_layer (src : DetectionSource) (rules : list PatternRule) (text : string) : list DetectedEntity :=
  rules ≫= fun r =>
    map (fun m => mkEntity (match_text text m) m.1 m.2 (rule_category r) one src) (find_iter (rule_regex r) text).

Definition overlaps (a b : DetectedEntity) : bool := (start_ a <? end_ b) && (start_ b <? end_ a).

(** [entity] is preferred to [last]. *)
Definition preferred (e last : DetectedEntity) : bool :=
  f64_gt (confidence e) (confidence last)
  || f64_eqb (confidence e) (confidence last) && (end_ last - start_ last <? end_ e - start_ e).

(** One turn of [deduplicate_spans]; [result] is kept last first. *)
Definition dedup_step (result : list DetectedEntity) (e : DetectedEntity) : list DetectedEntity :=
  match result with
  | last :: rest =>
      if start_ e <? end_ last then (if preferred e last then e :: rest else result)
      else e :: result
  | [] => [e]
  end.

Definition deduplicate_spans (es : list DetectedEntity) : list DetectedEntity :=
  reverse (fold_left dedup_step es []).

Definition forced_entity (text forced : string) : option DetectedEntity :=
  let! start := str_find forced text else None in
  Some (mkEntity forced start (start + str_len forced) (Custom "FORCED") one CustomRule).

(** The entities of the layers that are not preserved, and the forced ones. *)
Definition candidates (d : Detector) (text : string) : list DetectedEntity :=
  filter (fun e => original e ∉ preserve_list d)
    (detect_layer Pattern (pattern_detector d) text ++ detect_layer Financial (financial_detector d) text
     ++ detect_layer CustomRule (custom_detector d) text)
  ++ omap (forced_entity text) (force_list d).

Definition detect (d : Detector) (text : string) : list DetectedEntity :=
  deduplicate_spans (sort_by_key (fun e => Z.of_nat (start_ e)) (candidates d text)).

(** [Detector::new(..)?] over a text, for a configuration. *)
Definition detect_with (config : DetectionConfig) (text : string) : result string (list DetectedEntity) :=
  let? d := from_config config in Ok (detect d text).

(** ** Where entities are *)

(** An entity is in [text]: its range lies between character boundaries and
    holds its original. *)
Definition in_text (text : string) (e : DetectedEntity) : Prop :=
  str_slice text (start_ e) (end_ e) = Some (original e).

Lemma in_text_order text e : in_text text e -> start_ e <= end_ e.
Proof. by intros (? & _)%str_slice_Some. Qed.

(** Two ranges one of which begins inside the other. *)
Definition collide (a b : DetectedEntity) : Prop :=
  start_ a <= start_ b < end_ a \/ start_ b <= start_ a < end_ b.

(** ** Deduplication *)

Lemma boundary_0 text : is_char_boundary text 0 = true.
Proof. unfold is_char_boundary. by destruct (_ !! _). Qed.

Lemma final_end_snoc last es e : final_end last (es ++ [e]) = end_ e.
Proof. unfold final_end. by rewrite fold_left_app. Qed.

Lemma placed_snoc text last es e :
  placed text last (es ++ [e]) <-> placed text last es /\ final_end last es <= start_ e /\ in_text text e.
Proof.
  revert last. induction es as [|e' es IH]; intros last; simpl.
  - unfold in_text. split.
    + intros (Hb & Hle & Hs & _). by split_and!.
    + intros ((Hb & _) & Hle & Hs). pose proof Hs as (_ & _ & ? & _)%str_slice_Some. by split_and!.
  - rewrite IH. tauto.
Qed.

(** What the loop keeps, given that the entities come in order. *)
Lemma dedup_loop text es acc :
  StronglySorted (by_key (fun e => Z.of_nat (start_ e))) es -> Forall (in_text text) es ->
  placed text 0 (reverse acc) -> (forall last rest e, acc = last :: rest -> e ∈ es -> start_ last <= start_ e) ->
  placed text 0 (reverse (fold_left dedup_step es acc)).
Proof.
  revert acc. induction es as [|e es IH]; intros acc Hs Hin Hp Hle; [done|]. simpl.
  apply StronglySorted_inv in Hs as [Hs Hse]. apply Forall_cons in Hin as [He Hin].
  assert (Hnext : forall e', e' ∈ es -> start_ e <= start_ e').
  { intros e' He'. rewrite Forall_forall in Hse. specialize (Hse _ He'). unfold by_key in Hse. lia. }
  apply IH; [done|done| |].
  - unfold dedup_step. destruct acc as [|last rest].
    { apply (placed_snoc text 0 [] e). split_and!; [done|simpl; lia|done]. }
    pose proof (Hle last rest e eq_refl ltac:(left)) as Hls. rewrite reverse_cons in Hp.
    pose proof Hp as (Hp1 & Hp2 & _)%placed_snoc.
    destruct (Nat.ltb_spec (start_ e) (end_ last)) as [Hov|Hov].
    + destruct (preferred e last); [|by rewrite reverse_cons]. rewrite reverse_cons. apply placed_snoc. split_and!; [done|lia|done].
    + rewrite !reverse_cons. apply placed_snoc. split_and!; [done|by rewrite final_end_snoc|done].
  - intros last rest e' Hacc He'. unfold dedup_step in Hacc. destruct acc as [|l r]; [by simplify_eq; apply Hnext|].
    destruct (_ <? _); [destruct (preferred e l)|]; simplify_eq; try by apply Hnext.
    apply (Hle last rest); [done|by right].
Qed.

(** A candidate, the [i]-th in order, collides with a later one that is
    preferred to it, or with an earlier one it is not preferred to. *)
Definition beaten (all : list DetectedEntity) (i : nat) (c : DetectedEntity) : Prop :=
  exists j c', all !! j = Some c' /\ collide c c' /\ (i < j /\ preferred c' c = true \/ j < i /\ preferred c c' = false).

(** One step of the loop, at the candidate [e] after those of [done]. *)
Lemma dedup_step_keeps done_ e es acc :
  (forall last rest, acc = last :: rest -> start_ last <= start_ e) -> acc ⊆ done_ ->
  (forall i c, done_ !! i = Some c -> c ∈ acc \/ beaten (done_ ++ e :: es) i c) ->
  forall i c, (done_ ++ [e]) !! i = Some c -> c ∈ dedup_step acc e \/ beaten (done_ ++ e :: es) i c.
Proof.
  intros Hle Hacc Hinv i c Hi.
  assert (He : (done_ ++ e :: es) !! length done_ = Some e) by (by apply list_lookup_middle).
  assert (Hold : forall j x, done_ !! j = Some x -> (done_ ++ e :: es) !! j = Some x) by (intros j x Hj; by apply lookup_app_l_Some).
  assert (Hcase : (i < length done_ /\ done_ !! i = Some c) \/ (i = length done_ /\ c = e)).
  { apply lookup_snoc_Some in Hi as [[Hl Hi]|[Hl Hi]]; [left|right]; done. }
  unfold dedup_step. destruct acc as [|last rest].
  { destruct Hcase as [[_ Hc]|[_ ->]]; [|left; by left]. destruct (Hinv i c Hc) as [?%elem_of_nil|?]; [done|by right]. }
  specialize (Hle last rest eq_refl). destruct (Nat.ltb_spec (start_ e) (end_ last)) as [Hov|Hov].
  - destruct (preferred e last) eqn:Hpr.
    + destruct Hcase as [[Hlt Hc]|[_ ->]]; [|left; by left]. destruct (Hinv i c Hc) as [[->|Hin]%elem_of_cons|?]; [| |by right].
      * right. exists (length done_), e. split_and!; [done|left; lia|by left].
      * left. by right.
    + destruct Hcase as [[Hlt Hc]|[-> ->]]; [by apply Hinv|]. right.
      destruct (proj1 (list_elem_of_lookup _ _) (Hacc last ltac:(left))) as [j Hj].
      exists j, last. split_and!; [by apply Hold|right; lia|]. right. split; [by eapply lookup_lt_Some|done].
  - destruct Hcase as [[_ Hc]|[_ ->]]; [|left; by left]. destruct (Hinv i c Hc) as [?|?]; [left; by right|by right].
Qed.

(** A candidate is kept or beaten. *)
Lemma dedup_keeps es acc done_ :
  StronglySorted (by_key (fun e => Z.of_nat (start_ e))) es ->
  (forall last rest e, acc = last :: rest -> e ∈ es -> start_ last <= start_ e) -> acc ⊆ done_ ->
  (forall i c, done_ !! i = Some c -> c ∈ acc \/ beaten (done_ ++ es) i c) ->
  forall i c, (done_ ++ es) !! i = Some c -> c ∈ fold_left dedup_step es acc \/ beaten (done_ ++ es) i c.
Proof.
  revert acc done_. induction es as [|e es IH]; intros acc done_ Hs Hle Hacc Hinv i c Hi; simpl.
  { rewrite app_nil_r in *. by apply Hinv. }
  apply StronglySorted_inv in Hs as [Hs Hse].
  assert (Hnext : forall e', e' ∈ es -> start_ e <= start_ e').
  { intros e' He'. rewrite Forall_forall in Hse. specialize (Hse _ He'). unfold by_key in Hse. lia. }
  assert (Heq : done_ ++ e :: es = (done_ ++ [e]) ++ es) by by rewrite <- app_assoc.
  rewrite Heq in *. apply IH; [done| | | |done].
  - intros last rest e' Hacc' He'. unfold dedup_step in Hacc'. destruct acc as [|l r]; [by simplify_eq; apply Hnext|].
    destruct (_ <? _); [destruct (preferred e l)|]; simplify_eq; try by apply Hnext.
    apply (Hle last rest); [done|by right].
  - unfold dedup_step. destruct acc as [|l r]; [set_solver|]. destruct (_ <? _); [destruct (preferred e l)|]; set_solver.
  - rewrite <- Heq in *. apply (dedup_step_keeps done_ e es acc); [|done|done]. intros last rest Hl. by apply (Hle last rest); [|left].
Qed.

Lemma dedup_subset es acc x : x ∈ fold_left dedup_step es acc -> x ∈ acc \/ x ∈ es.
Proof.
  revert acc. induction es as [|e es IH]; intros acc Hx; [by left|]. simpl in Hx.
  destruct (IH _ Hx) as [Hs|Hs]; [|right; by right]. unfold dedup_step in Hs. rewrite elem_of_cons.
  destruct acc as [|l r]; [|destruct (_ <? _); [destruct (preferred e l)|]]; rewrite ?elem_of_cons in *; rewrite ?elem_of_nil in Hs; tauto.
Qed.

Context `{!RegexFindLaws}.

Lemma layer_in_text src rules text : Forall (in_text text) (detect_layer src rules text).
Proof.
  apply Forall_forall. intros e (r & He & _)%list_elem_of_bind. apply list_elem_of_fmap in He as ([a b] & -> & Hm).
  apply find_iter_bounds in Hm as (Hab & Ha & Hb). by apply str_slice_Some.
Qed.

Lemma candidates_in_text d text : valid_utf8 (as_bytes text) = true ->
  Forall (fun f => valid_utf8 (as_bytes f) = true) (force_list d) -> Forall (in_text text) (candidates d text).
Proof.
  intros Ht Hf. apply Forall_app. split.
  - apply Forall_forall. intros e [_ He]%list_elem_of_filter. revert e He. apply Forall_forall.
    repeat (apply Forall_app; split); apply layer_in_text.
  - apply Forall_forall. intros e (f & Hfl & He)%list_elem_of_omap. unfold forced_entity in He.
    destruct (str_find f text) as [i|] eqn:Hi; simplify_eq. rewrite Forall_forall in Hf.
    by apply str_find_slice; [|apply Hf|].
Qed.

Lemma detect_in_place d text : valid_utf8 (as_bytes text) = true ->
  Forall (fun f => valid_utf8 (as_bytes f) = true) (force_list d) -> placed text 0 (detect d text).
Proof.
  intros Ht Hf. apply dedup_loop; [apply sort_by_key_sorted| |split; [apply boundary_0|done]|done].
  rewrite sort_by_key_perm. by apply candidates_in_text.
Qed.

(** C16: What [detect] returns can be replaced.  For any valid text and
    configuration that compiles, whatever the expressions match, the entities
    are in order, disjoint, at character boundaries and true to the text;
    each is a candidate (found by a layer and not preserved, or forced); and
    each candidate, in the order of their starts, is returned, or it collides with
    a later candidate that is preferred to it (more confident, or as confident and
    longer), or with an earlier one that it is not preferred to. *)
Theorem detect_placed config text es :
  detect_with config text = Ok es -> valid_utf8 (as_bytes text) = true ->
  Forall (fun f => valid_utf8 (as_bytes f) = true) (force (overrides config)) ->
  placed text 0 es /\
  exists d sorted, from_config config = Ok d /\ sorted ≡ₚ candidates d text /\
    StronglySorted (by_key (fun e => Z.of_nat (start_ e))) sorted /\ es ⊆ sorted /\
    forall i c, sorted !! i = Some c -> c ∈ es \/ beaten sorted i c.
Proof.
  unfold detect_with. destruct (from_config config) as [d|err] eqn:Hd; [|done]. intros [= <-] Ht Hf.
  assert (Hfl : force_list d = force (overrides config)).
  { unfold from_config in Hd. simp_res. }
  rewrite <- Hfl in Hf. split; [by apply detect_in_place|].
  pose proof (sort_by_key_sorted (fun e => Z.of_nat (start_ e)) (candidates d text)) as Hsort.
  exists d, (sort_by_key (fun e => Z.of_nat (start_ e)) (candidates d text)). split; [done|]. split; [apply sort_by_key_perm|]. split; [done|].
  unfold detect, deduplicate_spans. split.
  - intros e. rewrite elem_of_reverse. by intros [?%elem_of_nil|He]%dedup_subset.
  - intros i c Hc. rewrite elem_of_reverse. by apply (dedup_keeps _ [] []).
Qed.
End Detector.

(** *** Concrete instances *)

Module ToyFind.
Import Toy.

(** Expressions that stand for themselves and match once. *)
#[export] Instance lit_regex : RegexCrate := {| Regex := string; regex_new := Some; is_match re s := contains re s |}.
#[export] Instance lit_find : RegexFind := {|
  find_iter re s :=
    match str_find re s with
    | Some i =>
        let j := i + str_len re in
        if is_char_boundary s i && is_char_boundary s j then [(i, j)] else []
    | None => []
    end;
|}.
#[export] Instance lit_find_laws : RegexFindLaws.
Proof.
  constructor. intros re s a b. simpl. destruct (str_find re s) as [i|]; [|by intros ?%elem_of_nil].
  destruct (is_char_boundary s i) eqn:Hi, (is_char_boundary s (i + str_len re)) eqn:Hj; simpl; try by intros ?%elem_of_nil.
  intros [= -> ->]%list_elem_of_singleton. split_and!; [lia|done|done].
Qed.

Definition demo_config : DetectionConfig :=
  mkDetectionConfig false false false false false false false
    [mkCustomPattern "name" "Ann" "person"; mkCustomPattern "team" "Ann Li" "team"] (mkOverrides [] ["ACME"]).
End ToyFind.

Section Witnesses.
Import Toy ToyFind.

Definition demo_detected : list DetectedEntity :=
  match detect_with demo_config "Ann Li of ACME, ACME." with Ok es => es | Err _ => [] end.

Lemma detect_placed_witness : placed "Ann Li of ACME, ACME." 0 demo_detected /\
  exists d sorted, from_config demo_config = Ok d /\ sorted ≡ₚ candidates d "Ann Li of ACME, ACME." /\
    StronglySorted (by_key (fun e => Z.of_nat (start_ e))) sorted /\ demo_detected ⊆ sorted /\
    forall i c, sorted !! i = Some c -> c ∈ demo_detected \/ beaten sorted i c.
Proof.
  apply (detect_placed demo_config "Ann Li of ACME, ACME." demo_detected).
  - vm_compute; reflexivity.
  - vm_compute; reflexivity.
  - apply Forall_cons. split; [vm_compute; reflexivity|apply Forall_nil_2].
Defined.

(** The forced text is found once: its second occurrence is left. *)
Lemma force_list_finds_first_only :
  map (fun e => (original e, start_ e)) demo_detected = [("Ann Li", 0); ("ACME", 10)].
Proof. vm_compute. reflexivity. Qed.

(** An entity that overlaps nothing that is returned is dropped: the second
    yields to the first, which then yields to the third. *)
Definition span_at (a b : nat) : DetectedEntity := mkEntity "" a b Secret one Pattern.

Lemma dropped_without_overlap :
  deduplicate_spans [span_at 0 10; span_at 5 8; span_at 9 25] = [span_at 9 25] /\
  overlaps (span_at 5 8) (span_at 9 25) = false.
Proof. split; vm_compute; reflexivity. Qed.
End Witnesses.
