(* ===== verification/Mask.v ===== *)
(** * Masking JSON values

    [mask_value] and [rehydrate_value] ([cloakpipe-mcp/src/proxy.rs]), the
    opt-in PII transform of the interceptor: every string of a value is
    detected and pseudonymised over one vault, and restored on the way back.
    A panic of the replacer is [None]. *)

From S2P Require Import Prelude Text Utf8 BTree Json Crates Concrete Vault FormatPreserving Pseudonym Detector.

Section Mask.
Context `{RegexFind, CaseMapping, SimilarityCrate, HashOrder}.

(** A masked value with the number of entities, and the vault after it. *)
Abbreviation masking A := (Vault -> option (nat * A * Vault)).

Definition mask_all (f : value -> masking value) : list value -> masking (list value) :=
  fix go l vault :=
    match l with
    | [] => Some (0, [], vault)
    | x :: l =>
        let! (n, x, vault) := f x vault else None in
        let! (m, l, vault) := go l vault else None in
        Some (n + m, x :: l, vault)
    end.

Definition mask_members (f : value -> masking value) : btree value -> masking (btree value) :=
  fix go o vault :=
    match o with
    | [] => Some (0, [], vault)
    | (k, x) :: o =>
        let! (n, x, vault) := f x vault else None in
        let! (m, o, vault) := go o vault else None in
        Some (n + m, (k, x) :: o, vault)
    end.

Definition mask_string (d : Detector) (s : string) : masking value := fun vault =>
  let es := detect d s in
  match es with
  | [] => Some (0, VString s, vault)
  | _ =>
      let! (r, vault) := pseudonymize s es vault else None in
      Some (length es, VString (text_ r), vault)
  end.

Fixpoint mask_value (d : Detector) (v : value) : masking value := fun vault =>
  match v with
  | VString s => mask_string d s vault
  | VArray a => let! (n, a, vault) := mask_all (mask_value d) a vault else None in Some (n, VArray a, vault)
  | VObject o => let! (n, o, vault) := mask_members (mask_value d) o vault else None in Some (n, VObject o, vault)
  | _ => Some (0, v, vault)
  end.

Fixpoint rehydrate_value (v : value) (vault : Vault) : value :=
  match v with
  | VString s => VString (rehydrated_text (rehydrate s vault))
  | VArray a => VArray (map (fun x => rehydrate_value x vault) a)
  | VObject o => VObject (map (fun kv => (kv.1, rehydrate_value kv.2 vault)) o)
  | _ => v
  end.

(** The entities of a value, and the strings of which masking can be undone:
    no underscore before a digit, and no entity after a capital letter or an
    underscore or before a digit. *)
Fixpoint entity_count (d : Detector) (v : value) : nat :=
  match v with
  | VString s => length (detect d s)
  | VArray a => list_sum (map (entity_count d) a)
  | VObject o => list_sum (map (fun kv => entity_count d kv.2) o)
  | _ => 0
  end.

Definition restorable_text (d : Detector) (s : string) : Prop :=
  valid_utf8 (as_bytes s) = true /\ has_mark (as_bytes s) = false /\ set_apart s (detect d s) /\
  Forall (fun e => plain_category (category e)) (detect d s).

Inductive restorable (d : Detector) : value -> Prop :=
| RNull : restorable d VNull
| RBool b : restorable d (VBool b)
| RNumber n : restorable d (VNumber n)
| RString s : restorable_text d s -> restorable d (VString s)
| RArray a : Forall (restorable d) a -> restorable d (VArray a)
| RObject o : Forall (fun kv => restorable d kv.2) o -> restorable d (VObject o).

(** [masked] is [s] with, in place of each entity the detector finds, a token
    the vault restores to it. *)
Definition masked_text (d : Detector) (v : Vault) (s masked : string) : Prop :=
  exists ts, length ts = length (detect d s) /\
    as_bytes masked = render (fun _ => false) (segments s 0 (detect d s) ts) (drop (final_end 0 (detect d s)) (as_bytes s)) /\
    forall i e t, detect d s !! i = Some e -> ts !! i = Some t -> reverse_map v !! token t = Some (original e).

(** The same value but for its strings, each masked. *)
Inductive masked_value (d : Detector) (v : Vault) : value -> value -> Prop :=
| MNull : masked_value d v VNull VNull
| MBool b : masked_value d v (VBool b) (VBool b)
| MNumber n : masked_value d v (VNumber n) (VNumber n)
| MString s s' : masked_text d v s s' -> masked_value d v (VString s) (VString s')
| MArray a a' : Forall2 (masked_value d v) a a' -> masked_value d v (VArray a) (VArray a')
| MObject o o' : Forall2 (fun kv kv' => kv'.1 = kv.1 /\ masked_value d v kv.2 kv'.2) o o' -> masked_value d v (VObject o) (VObject o').

End Mask.

Section RoundTrip.
Context `{RegexFindLaws, CaseMapping, SimilarityCrate, HashOrderLaws}.

(** A vault that restores what [v] restores. *)
Definition keeps (v v' : Vault) : Prop :=
  vault_ok v' /\ plain_vault v' /\ reverse_map v ⊆ reverse_map v'.

Lemma keeps_mono v v' v'' : reverse_map v ⊆ reverse_map v' -> keeps v' v'' -> keeps v v''.
Proof. intros Hs (Hok & Hp & Hs'). split_and!; [done|done|by etrans]. Qed.

Lemma exact_reverse n m v v' : exact_vault n v -> exact_vault m v' -> forward v ⊆ forward v' -> reverse_map v ⊆ reverse_map v'.
Proof.
  intros (Hok & _) (_ & Hu & _) Hf. apply map_subseteq_spec. intros s o Ho.
  destruct (ok_forwarded v Hok _ _ Ho) as (t & Ht & <-). apply Hu. by eapply lookup_weaken.
Qed.

(** [x] masked as [rel] says, its [k] entities from [v] on, comes back as [x]. *)
Definition masks {A} (rel : Vault -> A -> A -> Prop) (back : A -> Vault -> A) (x : A) (k n : nat) (v : Vault)
    (r : option (nat * A * Vault)) : Prop :=
  exists y v', r = Some (k, y, v') /\ exact_vault (n + k) v' /\ plain_vault v' /\ reverse_map v ⊆ reverse_map v' /\
    (forall v'', reverse_map v' ⊆ reverse_map v'' -> rel v'' x y) /\ forall v'', keeps v' v'' -> back y v'' = x.

(** Tokens in place of the entities of a text. *)
Lemma pseudonyms_masked d s n v v' : exact_vault n v -> (N.of_nat (n + length (detect d s)) < 2 ^ 32)%N ->
  reverse_map (pseudonyms v (requests (detect d s))).2 ⊆ reverse_map v' ->
  masked_text d v' s (from_bytes (render (fun _ => false) (segments s 0 (detect d s) (pseudonyms v (requests (detect d s))).1)
    (drop (final_end 0 (detect d s)) (as_bytes s)))).
Proof.
  intros Hv Hn Hs. destruct (pseudonyms_tokens n v (detect d s) Hv Hn) as (_ & Hlen & Hget). eexists.
  split_and!; [exact Hlen|apply as_from_bytes|]. intros i e t Hi Ht. destruct (Hget i e Hi) as (t' & Ht' & Hr & _).
  simplify_eq. by eapply lookup_weaken.
Qed.
Lemma unmasked_text d v s : detect d s = [] -> masked_text d v s s.
Proof. intros Hd. unfold masked_text. rewrite Hd. exists []. by split_and!. Qed.

Lemma rehydrate_unmarked s v : vault_ok v -> plain_vault v -> has_mark (as_bytes s) = false ->
  rehydrated_text (rehydrate s v) = s.
Proof.
  intros Hok Hp Hm. rewrite <- (from_as_bytes s) at 1.
  rewrite (rehydrate_segments v [] (as_bytes s) Hok Hp); [apply from_as_bytes|constructor|done|done].
Qed.

Lemma mask_string_spec d s n v :
  Forall (fun f => valid_utf8 (as_bytes f) = true) (force_list d) -> restorable_text d s ->
  exact_vault n v -> plain_vault v -> (N.of_nat (n + length (detect d s)) < 2 ^ 32)%N ->
  masks (masked_value d) rehydrate_value (VString s) (length (detect d s)) n v (mask_string d s v).
Proof.
  intros Hf (Hs & Hm & Ha & Hc) Hv Hp Hn. unfold mask_string. destruct (detect d s) as [|e es] eqn:Hd.
  - exists (VString s), v. simpl. rewrite Nat.add_0_r. split_and!; try done; [intros v'' _; by constructor; apply unmasked_text|].
    intros v'' (Hok & Hp' & _). by rewrite rehydrate_unmarked.
  - rewrite <- Hd in *. pose proof (detect_in_place d s Hs Hf) as Hpl.
    destruct (pseudonyms_tokens n v (detect d s) Hv Hn) as (Hok & Hlen & Hget).
    pose proof (pseudonyms_spec n v (requests (detect d s)) Hv) as Hsp. unfold requests in Hsp. rewrite length_map in Hsp.
    destruct (Hsp Hn) as (Hv' & Hsub & _). fold (requests (detect d s)) in *. clear Hsp.
    rewrite pseudonymize_segments by done. eexists _, _. split; [done|]. split; [done|]. split_and!.
    + apply all_categories_pseudonyms; [done|]. unfold requests. by apply Forall_map.
    + by eapply exact_reverse.
    + intros v'' Hs''. constructor. by eapply pseudonyms_masked.
    + intros v'' (Hok'' & Hp'' & Hs''). cbn [rehydrate_value text_].
      rewrite rehydrate_segments; [|done|done| | |].
      * simpl. by rewrite segments_plain, drop_0, from_as_bytes.
      * apply segments_standing. intros i e' He. destruct (Hget i e' He) as (t & Ht & Hr & _).
        exists t. split; [done|by eapply lookup_weaken].
      * apply (segments_separated s 0); [done|done|done|]. apply Forall_forall. intros t Ht.
        apply list_elem_of_lookup in Ht as [i Hi]. pose proof (lookup_lt_Some _ _ _ Hi) as Hlt. rewrite Hlen in Hlt.
        destruct (lookup_lt_is_Some_2 (detect d s) i Hlt) as [e' He]. destruct (Hget i e' He) as (t' & Ht' & Hr & _).
        apply (vault_tokens_like v'' Hok'' Hp''). exists (original e'). simplify_eq. by eapply lookup_weaken.
      * by rewrite segments_plain, drop_0.
Qed.
(** [x] can be masked from any vault with room for its [k] entities. *)
Definition maskable {A} (rel : Vault -> A -> A -> Prop) (f : A -> Vault -> option (nat * A * Vault)) (back : A -> Vault -> A)
    (x : A) (k : nat) : Prop :=
  forall n v, exact_vault n v -> plain_vault v -> (N.of_nat (n + k) < 2 ^ 32)%N -> masks rel back x k n v (f x v).

(** Two things masked one after the other. *)
Lemma masks_seq {A B C} (f : A -> Vault -> option (nat * A * Vault)) rel back (g : B -> Vault -> option (nat * B * Vault)) rel' back'
    (pair : A -> B -> C) rel'' back'' x y k m :
  (forall x' y' v, back'' (pair x' y') v = pair (back x' v) (back' y' v)) ->
  (forall x' y' v, rel v x x' -> rel' v y y' -> rel'' v (pair x y) (pair x' y')) ->
  maskable rel f back x k -> maskable rel' g back' y m ->
  maskable rel'' (fun _ v => let! (n, x, v) := f x v else None in let! (m, y, v) := g y v else None in Some (n + m, pair x y, v))
    back'' (pair x y) (k + m).
Proof.
  intros Hb Hrel Hf Hg n v Hv Hp Hn. destruct (Hf n v Hv Hp ltac:(lia)) as (x' & v1 & Hx & Hv1 & Hp1 & Hs1 & Hm1 & Hr1).
  destruct (Hg (n + k) v1 Hv1 Hp1 ltac:(lia)) as (y' & v2 & Hy & Hv2 & Hp2 & Hs2 & Hm2 & Hr2).
  rewrite Hx, Hy. exists (pair x' y'), v2. split_and!; [done|by rewrite Nat.add_assoc|done|by etrans| |].
  { intros v'' Hs. apply Hrel; [apply Hm1; by etrans|by apply Hm2]. }
  intros v'' Hk. rewrite Hb, Hr2, Hr1; [done| |done]. by eapply keeps_mono.
Qed.

Lemma mask_all_spec f rel back k l :
  Forall (fun x => maskable rel f back x (k x)) l ->
  maskable (fun v => Forall2 (rel v)) (mask_all f) (fun l v => map (fun x => back x v) l) l (list_sum (map k l)).
Proof.
  induction 1 as [|x l Hx _ IH].
  - intros n v Hv Hp _. exists [], v. simpl. rewrite Nat.add_0_r. by split_and!.
  - refine (masks_seq f rel back (mask_all f) _ _ cons _ _ x l _ _ (fun _ _ _ => eq_refl) _ Hx IH). by constructor.
Qed.

Lemma mask_members_spec f rel back k o :
  Forall (fun kv : string * value => maskable rel f back kv.2 (k kv.2)) o ->
  maskable (fun v => Forall2 (fun kv kv' : string * value => kv'.1 = kv.1 /\ rel v kv.2 kv'.2)) (mask_members f) (fun o v => map (fun kv => (kv.1, back kv.2 v)) o) o (list_sum (map (fun kv => k kv.2) o)).
Proof.
  induction 1 as [|[key x] o Hx _ IH].
  - intros n v Hv Hp _. exists [], v. simpl. rewrite Nat.add_0_r. by split_and!.
  - refine (masks_seq f rel back (mask_members f) _ _ (fun x o => (key, x) :: o) _ _ x o _ _ (fun _ _ _ => eq_refl) _ Hx IH).
    by constructor.
Qed.

Lemma mask_value_spec d v : Forall (fun f => valid_utf8 (as_bytes f) = true) (force_list d) -> restorable d v ->
  maskable (masked_value d) (mask_value d) rehydrate_value v (entity_count d v).
Proof.
  intros Hf. induction v as [|b|m|s|a IH|o IH] using value_ind; intros Hr; inversion Hr as [| | |? Hs|? Ha|? Ho]; subst;
    intros n v Hv Hp Hn.
  1-3: eexists _, v; cbn [entity_count]; rewrite Nat.add_0_r; split_and!; try done; by constructor.
  - by apply mask_string_spec.
  - assert (Hall : Forall (fun x => maskable (masked_value d) (mask_value d) rehydrate_value x (entity_count d x)) a).
    { rewrite Forall_forall in IH, Ha |- *. intros x Hx. by apply IH; [|apply Ha]. }
    destruct (mask_all_spec _ _ _ (entity_count d) a Hall n v Hv Hp Hn) as (a' & v' & He & ? & ? & ? & Hm & Hb).
    cbn [mask_value]. rewrite He. exists (VArray a'), v'. split_and!; [done..|intros v'' Hs; constructor; by apply Hm|]. intros v'' Hk. cbn [rehydrate_value]. by rewrite Hb.
  - assert (Hall : Forall (fun kv : string * value => maskable (masked_value d) (mask_value d) rehydrate_value kv.2 (entity_count d kv.2)) o).
    { rewrite Forall_forall in IH, Ho |- *. intros x Hx. by apply IH; [|apply Ho]. }
    destruct (mask_members_spec _ _ _ (entity_count d) o Hall n v Hv Hp Hn) as (o' & v' & He & ? & ? & ? & Hm & Hb).
    cbn [mask_value]. rewrite He. exists (VObject o'), v'. split_and!; [done..|intros v'' Hs; constructor; by apply Hm|]. intros v'' Hk. cbn [rehydrate_value]. by rewrite Hb.
Qed.

(** C18: masking a JSON value masks it, and restoring it gives it back.  For a
    value each of whose strings is restorable (valid UTF-8, no underscore
    before a digit, no entity after a capital letter or an underscore or
    before a digit, plain categories), over a vault without a resolver whose
    tokens are plain and whose counters have room, [mask_value] does not
    panic, counts the entities of all its strings, and answers the value with
    each entity the detector finds in its strings replaced by a token the
    vault now restores to it, the rest of the strings, numbers,
    member names and the structure as they were; and [rehydrate_value]
    restores the value, over the vault as masking left it and over every
    later vault that kept its mappings. *)
Theorem mask_then_rehydrate d v n vault :
  exact_vault n vault -> plain_vault vault -> (N.of_nat (n + entity_count d v) < 2 ^ 32)%N ->
  Forall (fun f => valid_utf8 (as_bytes f) = true) (force_list d) -> restorable d v ->
  exists v' vault', mask_value d v vault = Some (entity_count d v, v', vault') /\
    masked_value d vault' v v' /\ rehydrate_value v' vault' = v /\
    forall later, vault_ok later -> plain_vault later -> reverse_map vault' ⊆ reverse_map later -> rehydrate_value v' later = v.
Proof.
  intros Hv Hp Hn Hf Hr. destruct (mask_value_spec d v Hf Hr n vault Hv Hp Hn) as (v' & vault' & He & (Hok & Hx) & Hp' & _ & Hm & Hb).
  exists v', vault'. split_and!; [done|by apply Hm|by apply Hb|]. intros later Hl Hpl Hs. by apply Hb.
Qed.
End RoundTrip.

(** *** Concrete instances *)

Section Witnesses.
Import Toy ToyFind.

Definition demo_detector : Detector :=
  mkDetector [] [] [mkRule ("Ann" : Regex) (Custom "person")] [] ["ACME"].
Definition demo_value : value :=
  VObject [("a", VArray [VString "Ann is here"; VNull]); ("b", VString "ask Ann of ACME.")].

Lemma mask_then_rehydrate_witness :
  exists v' vault', mask_value demo_detector demo_value (vault_new None []) = Some (entity_count demo_detector demo_value, v', vault') /\
    masked_value demo_detector vault' demo_value v' /\ rehydrate_value v' vault' = demo_value /\
    forall later, vault_ok later -> plain_vault later -> reverse_map vault' ⊆ reverse_map later ->
      rehydrate_value v' later = demo_value.
Proof.
  apply (mask_then_rehydrate demo_detector demo_value 0 (vault_new None [])).
  - apply vault_new_exact.
  - intros o t Ht. cbn in Ht. by rewrite lookup_empty in Ht.
  - vm_compute; reflexivity.
  - repeat constructor.
  - repeat constructor; (apply ends_ok_last || apply head_ok_head || idtac); vm_compute; reflexivity.
Defined.

Example demo_masked_value : (fun r => r.1.2) <$> mask_value demo_detector demo_value (vault_new None []) =
  Some (VObject [("a", VArray [VString "PERSON_1 is here"; VNull]); ("b", VString "ask PERSON_1 of FORCED_1.")]).
Proof. vm_compute. reflexivity. Qed.
End Witnesses.
