(* ===== verification/Session.v ===== *)
(** * Sessions

    [cloakpipe-core/src/session.rs]: the context of one conversation (its
    entities, sensitivity and coreferences) and the manager of all sessions.
    A panic is [None].  Times are nanoseconds, passed in; a hash map iterates
    in an order of its own. *)

From S2P Require Import Prelude Text Utf8 BTree Json Crates Concrete Vault FormatPreserving Pseudonym.

(** ** Data *)

Record SessionConfig := mkSessionConfig {
  session_enabled : bool;
  id_from : string;
  ttl_seconds : Z;
  coreference : bool;
  sensitivity_escalation : bool;
  session_threshold : f64;
}.

Inductive SensitivityLevel := Normal | Elevated.

#[global] Instance SensitivityLevel_eq_dec : EqDecision SensitivityLevel.
Proof. solve_decision. Defined.

Record SessionEntity := mkSessionEntity {
  se_token : PseudoToken;
  se_category : EntityCategory;
  se_original : string;
  first_seen : N;
  last_seen : N;
  related_to : list string;
}.

Inductive CorefMethod := Pronoun | Abbreviation | DefiniteArticle | Possessive.

Record Coreference := mkCoreference {
  surface : string;
  target_token : string;
  coref_confidence : f64;
  method : CorefMethod;
}.

Record SessionContext := mkSession {
  session_id : string;
  created_at : Z;
  last_activity : Z;
  message_count : N;
  sensitivity : SensitivityLevel;
  escalation_keywords : list string;
  session_entities : gmap string SessionEntity;
  coreferences : gmap string Coreference;
  session_config : SessionConfig;
}.

Definition DECISION_KEYWORDS : list string :=
  ["approved"; "rejected"; "exception"; "policy"; "override"; "escalated"; "waiver"; "authorized"; "sanctioned";
   "compliance"; "violation"; "audit"; "decision"; "ruling"; "verdict"; "settlement"; "terminated"; "suspended"].

Definition PERSON_PRONOUNS : list string :=
  ["he"; "him"; "his"; "she"; "her"; "hers"; "they"; "them"; "their"].

Definition DEFINITE_ARTICLES : list (string * EntityCategory) :=
  [("the company", Organization); ("the firm", Organization); ("the client", Organization);
   ("the organization", Organization); ("the bank", Organization); ("the hospital", Organization);
   ("the deal", Amount); ("the amount", Amount); ("the transaction", Amount); ("the payment", Amount);
   ("the city", Location); ("the office", Location);
   ("the employee", Person); ("the manager", Person); ("the patient", Person); ("the customer", Person);
   ("the applicant", Person)].

Definition succ_u32 (n : N) : N := ((n + 1) mod 2 ^ 32)%N.

Section Session.
Context `{CaseMapping, HashOrder}.

(** ** Words in a text ([find_word_boundary]) *)

Inductive Scan := OutOfFuel | Panic | Absent | At (i : nat).

(** [!text.as_bytes()[i].is_ascii_alphanumeric()]; the index panics. *)
Definition not_word_byte (text : string) (i : nat) : option bool :=
  (fun c => negb (is_ascii_alphanumeric c)) <$> as_bytes text !! i.

Definition boundary_before (text : string) (i : nat) : option bool :=
  match i with O => Some true | S j => not_word_byte text j end.
Definition boundary_after (text : string) (i : nat) : option bool :=
  if str_len text <=? i then Some true else not_word_byte text i.

(** The loop, from the offset [start]. *)
Fixpoint word_scan (fuel : nat) (text text_lower word_lower : string) (start : nat) : Scan :=
  match fuel with
  | O => OutOfFuel
  | S fuel =>
      match str_from text_lower start with
      | None => Panic
      | Some rest =>
          match str_find word_lower rest with
          | None => Absent
          | Some pos =>
              let abs_pos := start + pos in
              match boundary_before text abs_pos with
              | None => Panic
              | Some false =>
                  (* [after_ok] is computed all the same and may panic *)
                  match boundary_after text (abs_pos + str_len word_lower) with
                  | None => Panic
                  | Some _ => word_scan fuel text text_lower word_lower (abs_pos + 1)
                  end
              | Some true =>
                  match boundary_after text (abs_pos + str_len word_lower) with
                  | None => Panic
                  | Some true => At abs_pos
                  | Some false => word_scan fuel text text_lower word_lower (abs_pos + 1)
                  end
              end
          end
      end
  end.

Definition word_fuel (text : string) : nat := str_len (to_lowercase text) + 2.

(** [Some None] is no match, [None] a panic. *)
Definition find_word_boundary (text word : string) : option (option nat) :=
  match word_scan (word_fuel text) text (to_lowercase text) (to_lowercase word) 0 with
  | At i => Some (Some i)
  | Absent => Some None
  | Panic | OutOfFuel => None
  end.

(** ** The context *)

Definition session_new (id : string) (config : SessionConfig) (now : Z) : SessionContext :=
  mkSession id now now 0 Normal [] ∅ ∅ config.

(** [ttl_seconds as i64]. *)
Definition as_i64 (n : Z) : Z := ((n + 2 ^ 63) mod 2 ^ 64 - 2 ^ 63)%Z.

Definition is_expired (s : SessionContext) (now : Z) : bool :=
  (as_i64 (ttl_seconds (session_config s)) <? Z.quot (now - last_activity s) 1000000000)%Z.

Definition values (s : SessionContext) : list SessionEntity := map snd (hm_iter (session_entities s)).

(** [max_by_key(|e| e.last_seen)]: the last of the greatest. *)
Definition later (best : option SessionEntity) (e : SessionEntity) : option SessionEntity :=
  match best with
  | Some b => if (last_seen b <=? last_seen e)%N then Some e else best
  | None => Some e
  end.

Definition most_recent_entity (s : SessionContext) (cat : EntityCategory) : option SessionEntity :=
  fold_left later (filter (fun e => se_category e = cat) (values s)) None.

Definition recent_entities_of_category (s : SessionContext) (cat : EntityCategory) (within : N) : list SessionEntity :=
  let cutoff := (message_count s - within)%N in
  filter (fun e => se_category e = cat /\ (cutoff <= last_seen e)%N) (values s).

(** The initials of a name of two words or more, for the categories that
    have abbreviations. *)
Definition initial (word : string) : string :=
  to_uppercase (from_bytes (default ["000"%char] (head (chars (as_bytes word))))).

Definition abbreviation (e : SessionEntity) : option string :=
  if bool_decide (se_category e = Organization \/ se_category e = Person) then
    let ws := split_whitespace (se_original e) in
    if length ws <? 2 then None
    else
      let abbrev := foldr (fun w r => initial w +:+ r) "" ws in
      if str_len abbrev <? 2 then None else Some abbrev
  else None.

Definition SEVEN : f64 := f64_ratio 7 10.
Definition SIX : f64 := f64_ratio 6 10.
Definition SIX_FIVE : f64 := f64_ratio 65 100.
Definition SEVEN_FIVE : f64 := f64_ratio 75 100.

Definition new_coreferences (s : SessionContext) : list (string * Coreference) :=
  (match recent_entities_of_category s Person 3 with
   | [p] => map (fun pronoun => (pronoun, mkCoreference pronoun (token (se_token p)) SEVEN Pronoun)) PERSON_PRONOUNS
   | _ => []
   end)
  ++ omap (fun a => (fun e => (a.1, mkCoreference a.1 (token (se_token e)) SIX DefiniteArticle)) <$> most_recent_entity s a.2)
       DEFINITE_ARTICLES
  ++ omap (fun e => (fun abbrev => (abbrev, mkCoreference abbrev (token (se_token e)) SIX_FIVE Abbreviation)) <$> abbreviation e)
       (values s).

Definition set_coreferences (s : SessionContext) (m : gmap string Coreference) : SessionContext :=
  mkSession (session_id s) (created_at s) (last_activity s) (message_count s) (sensitivity s) (escalation_keywords s)
    (session_entities s) m (session_config s).

Definition update_coreferences (s : SessionContext) : SessionContext :=
  set_coreferences s (fold_left (fun m kc => <[kc.1 := kc.2]> m) (new_coreferences s) ∅).

(** ** Recording a message *)

Definition add_related (own t : string) (related : list string) : list string :=
  if negb (bool_decide (t = own)) && negb (bool_decide (t ∈ related)) then related ++ [t] else related.

Definition record_one (count : N) (msg_tokens : list string) (m : gmap string SessionEntity)
    (et : DetectedEntity * PseudoToken) : gmap string SessionEntity :=
  let '(e, t) := et in
  let entry := default (mkSessionEntity t (category e) (original e) count count []) (m !! original e) in
  <[original e :=
      mkSessionEntity (se_token entry) (se_category entry) (se_original entry) (first_seen entry) count
        (fold_left (fun r x => add_related (token t) x r) msg_tokens (related_to entry))]> m.

Definition record_entities (s : SessionContext) (es : list DetectedEntity) (ts : list PseudoToken) (now : Z) : SessionContext :=
  let count := succ_u32 (message_count s) in
  let s := mkSession (session_id s) (created_at s) now count (sensitivity s) (escalation_keywords s)
             (fold_left (record_one count (map token ts)) (zip es ts) (session_entities s))
             (coreferences s) (session_config s) in
  if coreference (session_config s) then update_coreferences s else s.

(** ** Sensitivity *)

Definition found_keywords (text : string) : list string :=
  filter (fun k => contains k (to_lowercase text) = true) DECISION_KEYWORDS.

Definition check_sensitivity (s : SessionContext) (text : string) : bool * SessionContext :=
  if negb (sensitivity_escalation (session_config s)) then (false, s)
  else if bool_decide (sensitivity s = Elevated) then (false, s)
  else
    let found := found_keywords text in
    if 2 <=? length found
    then (true, mkSession (session_id s) (created_at s) (last_activity s) (message_count s) Elevated found
                  (session_entities s) (coreferences s) (session_config s))
    else (false, s).

(** ** Coreferences in a text *)

(** The entity a match of [word] at [pos] stands for: [text[pos..pos+len]]. *)
Definition mention (text word : string) (cat : EntityCategory) (c : f64) (t : PseudoToken) (pos : nat)
    : option (DetectedEntity * PseudoToken) :=
  let stop := pos + str_len word in
  (fun o => (mkEntity o pos stop cat c Pattern, t)) <$> str_slice text pos stop.

(** One turn of a loop that looks for [word] in [searched], a spelling of
    [text]; [referent] is what it stands for when it is there. *)
Definition look_for (text searched word : string) (cat : EntityCategory) (c : f64) (referent : option PseudoToken)
    : option (list (DetectedEntity * PseudoToken)) :=
  let! found := find_word_boundary searched word else None in
  match found, referent with
  | Some pos, Some t => (fun m => [m]) <$> mention text word cat c t pos
  | _, _ => Some []
  end.

Definition pronoun_referent (s : SessionContext) : option PseudoToken :=
  let! person := most_recent_entity s Person else None in
  if bool_decide (length (recent_entities_of_category s Person 3) = 1) then Some (se_token person) else None.

Definition resolve_abbreviations (s : SessionContext) (text : string) : option (list (DetectedEntity * PseudoToken)) :=
  mjoin <$> mapM (fun e =>
    match abbreviation e with
    | Some abbrev => look_for text text abbrev (se_category e) SIX_FIVE (Some (se_token e))
    | None => Some []
    end) (values s).

Definition possessive (e : SessionEntity) : string :=
  default (se_original e) (head (split_whitespace (se_original e))) +:+ "'s".

Definition resolve_possessives (s : SessionContext) (text : string) : option (list (DetectedEntity * PseudoToken)) :=
  mjoin <$> mapM (fun e =>
    if bool_decide (se_category e = Person)
    then look_for text text (possessive e) Person SEVEN_FIVE (Some (se_token e)) else Some []) (values s).

(** [dedup_by]: [a] is the reference at hand and [b] the last one kept, which
    the closure may swap before [a] is dropped.  [kept] is last first. *)
Definition dedup_by_start (kept : list (DetectedEntity * PseudoToken)) (a : DetectedEntity * PseudoToken)
    : list (DetectedEntity * PseudoToken) :=
  match kept with
  | b :: rest =>
      if bool_decide (start_ a.1 = start_ b.1)
      then (if f64_gt (confidence b.1) (confidence a.1) then a :: rest else kept)
      else a :: kept
  | [] => [a]
  end.

Definition resolve_coreferences (s : SessionContext) (text : string) : option (list (DetectedEntity * PseudoToken)) :=
  if negb (coreference (session_config s)) || bool_decide (session_entities s = ∅) then Some []
  else
    let text_lower := to_lowercase text in
    let! pronouns := mapM (fun p => look_for text text_lower p Person SEVEN (pronoun_referent s)) PERSON_PRONOUNS else None in
    let! articles := mapM (fun a => look_for text text_lower a.1 a.2 SIX (se_token <$> most_recent_entity s a.2)) DEFINITE_ARTICLES else None in
    let! abbreviations := resolve_abbreviations s text else None in
    let! possessives := resolve_possessives s text else None in
    Some (reverse (fold_left dedup_by_start
      (sort_by_key (fun r => Z.of_nat (start_ r.1)) (mjoin pronouns ++ mjoin articles ++ abbreviations ++ possessives)) [])).

(** ** The session manager *)

Record SessionManager := mkManager {
  sessions : gmap string SessionContext;
  manager_config : SessionConfig;
}.

Definition set_sessions (m : SessionManager) (ss : gmap string SessionContext) : SessionManager :=
  mkManager ss (manager_config m).

Definition manager_new (config : SessionConfig) : SessionManager := mkManager ∅ config.

Definition manager_get_or_create (m : SessionManager) (id : string) (now : Z) : string * SessionManager :=
  let fresh ss := (id, set_sessions m (<[id := session_new id (manager_config m) now]> ss)) in
  match sessions m !! id with
  | Some s => if negb (is_expired s now) then (id, m) else fresh (delete id (sessions m))
  | None => fresh (sessions m)
  end.

Definition with_session {R} (m : SessionManager) (id : string) (f : SessionContext -> R * SessionContext) : option R * SessionManager :=
  match sessions m !! id with
  | Some s => let '(r, s) := f s in (Some r, set_sessions m (<[id := s]> (sessions m)))
  | None => (None, m)
  end.

Definition with_session_ref {R} (m : SessionManager) (id : string) (f : SessionContext -> R) : option R := f <$> sessions m !! id.

Definition flush_session (m : SessionManager) (id : string) : bool * SessionManager :=
  (is_some (sessions m !! id), set_sessions m (delete id (sessions m))).

Definition flush_all (m : SessionManager) : nat * SessionManager := (size (sessions m), set_sessions m ∅).

Definition evict_expired (m : SessionManager) (now : Z) : nat * SessionManager :=
  let kept := filter (fun ks => is_expired ks.2 now = false) (sessions m) in
  (size (sessions m) - size kept, set_sessions m kept).

End Session.

(** ** The word search *)

Section Words.
Context `{CaseLaws}.

(** [word] stands at [i]: it is there, whatever the case, and the characters
    next to it are not letters or digits. *)
Definition stands (text word : string) (i : nat) : Prop :=
  is_some (bytes_strip (as_bytes (to_lowercase word)) (drop i (as_bytes (to_lowercase text)))) = true /\
  boundary_before text i = Some true /\ boundary_after text (i + str_len (to_lowercase word)) = Some true.

Lemma found_inside s a r word pos : str_from s a = Some r -> str_find word r = Some pos -> a + pos <= str_len s.
Proof.
  unfold str_from, str_slice. destruct (bool_decide_reflect (a <= str_len s)) as [Ha|]; [|done].
  destruct (_ && _); [|done]. intros [= <-] (x & y & Hx & <-)%bytes_find_Some. apply (f_equal length) in Hx.
  rewrite as_from_bytes, take_ge, length_drop, !length_app in Hx; [unfold str_len in *; lia|].
  rewrite length_drop. unfold str_len. lia.
Qed.

(** The loop ends: each turn moves the start, and a start past the end of
    the text panics. *)
Lemma word_scan_enough fuel text lower word start :
  start <= str_len lower + 1 -> str_len lower + 2 <= start + fuel -> word_scan fuel text lower word start <> OutOfFuel.
Proof.
  revert start. induction fuel as [|fuel IH]; intros start Hs Hf; simpl.
  - lia.
  - destruct (str_from lower start) as [rest|] eqn:Hr; [|done].
    destruct (str_find word rest) as [pos|] eqn:Hp; [|done]. pose proof (found_inside _ _ _ _ _ Hr Hp).
    destruct (boundary_before text _) as [[]|]; [| |done]; destruct (boundary_after text _) as [[]|]; try done; apply IH; lia.
Qed.

Lemma word_scan_more fuel fuel' text lower word start :
  fuel <= fuel' -> word_scan fuel text lower word start <> OutOfFuel ->
  word_scan fuel' text lower word start = word_scan fuel text lower word start.
Proof.
  revert fuel' start. induction fuel as [|fuel IH]; intros [|fuel'] start Hle Hf; try done; [lia|]. simpl in *.
  destruct (str_from lower start) as [rest|]; [|done]. destruct (str_find word rest) as [pos|]; [|done].
  destruct (boundary_before text _) as [[]|]; [| |done]; destruct (boundary_after text _) as [[]|]; try done; apply IH; (lia || done).
Qed.

Lemma boundary_total text i : i <= str_len text ->
  is_some (boundary_before text i) = true /\ is_some (boundary_after text i) = true.
Proof.
  intros Hi. split; unfold boundary_before, boundary_after, not_word_byte.
  - destruct i as [|i]; [done|]. destruct (lookup_lt_is_Some_2 (as_bytes text) i) as [c Hc]; [unfold str_len in Hi; lia|]. by rewrite Hc.
  - destruct (Nat.leb_spec (str_len text) i); [done|].
    destruct (lookup_lt_is_Some_2 (as_bytes text) i) as [c Hc]; [unfold str_len in *; lia|]. by rewrite Hc.
Qed.

Lemma boundary_after_total text i : is_some (boundary_after text i) = true.
Proof.
  destruct (decide (i <= str_len text)); [by apply boundary_total|]. unfold boundary_after. by rewrite (proj2 (Nat.leb_le _ _)) by lia.
Qed.

(** On ASCII text the loop never panics and its answer is exact. *)
Lemma word_scan_exact fuel text word start :
  is_ascii text = true -> is_ascii word = true -> word <> "" -> start <= str_len text -> str_len text + 2 <= start + fuel ->
  (forall j, j < start -> ~ stands text word j) ->
  match word_scan fuel text (to_lowercase text) (to_lowercase word) start with
  | At i => stands text word i /\ i + str_len word <= str_len text /\ forall j, j < i -> ~ stands text word j
  | Absent => forall j, ~ stands text word j
  | Panic | OutOfFuel => False
  end.
Proof.
  intros Ht Hw Hne. revert start. induction fuel as [|fuel IH]; intros start Hs Hf Hn; simpl; [lia|].
  pose proof (to_lowercase_ascii _ Ht) as Hlt. pose proof (to_lowercase_ascii _ Hw) as Hlw.
  assert (Hlen : str_len (to_lowercase text) = str_len text) by (by rewrite Hlt, lowercase_len).
  assert (Hwlen : str_len (to_lowercase word) = str_len word) by (by rewrite Hlw, lowercase_len).
  assert (Hpos : 0 < str_len word).
  { unfold str_len. destruct (as_bytes word) eqn:Hb; [|simpl; lia]. apply (f_equal from_bytes) in Hb. by rewrite from_as_bytes in Hb. }
  rewrite ascii_from; [|by rewrite Hlt; apply is_ascii_lowercase_text|lia].
  unfold str_find. rewrite as_from_bytes. destruct (bytes_find _ _) as [pos|] eqn:Hp.
  - apply bytes_find_first in Hp as [Hhere Hbefore]. rewrite drop_drop in Hhere.
    assert (Hin : start + pos + str_len word <= str_len text).
    { destruct (bytes_strip _ _) as [r|] eqn:Hr; [|done]. apply bytes_strip_Some, (f_equal length) in Hr.
      rewrite length_drop, length_app in Hr. fold (str_len (to_lowercase text)) in Hr. fold (str_len (to_lowercase word)) in Hr. lia. }
    assert (Hnew : forall j, j < start + pos -> ~ stands text word j).
    { intros j Hj Hst. destruct (decide (j < start)) as [Hlt'|Hge]; [by apply (Hn j)|]. destruct Hst as (Hst & _).
      specialize (Hbefore (j - start) ltac:(lia)). rewrite drop_drop in Hbefore.
      replace (start + (j - start)) with j in Hbefore by lia. by rewrite Hbefore in Hst. }
    destruct (boundary_total text (start + pos) ltac:(lia)) as [Hb _].
    pose proof (boundary_after_total text (start + pos + str_len (to_lowercase word))) as Ha.
    assert (Hnext : ~ stands text word (start + pos) -> forall j, j < start + pos + 1 -> ~ stands text word j).
    { intros Hx j Hj. destruct (decide (j = start + pos)) as [->|]; [done|apply Hnew; lia]. }
    destruct (boundary_before text (start + pos)) as [[]|] eqn:Hbe; [| |done];
      destruct (boundary_after text _) as [[]|] eqn:Haf; try done;
      try (apply IH; [lia|lia|]; apply Hnext; intros (_ & ? & ?); congruence).
  - intros j Hst. destruct (decide (j < start)) as [Hj|Hj]; [by apply (Hn j)|]. destruct Hst as (Hst & _).
    pose proof (bytes_find_none _ _ Hp (j - start)) as Hx. rewrite drop_drop in Hx.
    replace (start + (j - start)) with j in Hx by lia. by rewrite Hx in Hst.
Qed.

Lemma find_word_exact text word : is_ascii text = true -> is_ascii word = true -> word <> "" ->
  exists found, find_word_boundary text word = Some found /\
  match found with
  | Some i => stands text word i /\ i + str_len word <= str_len text /\ forall j, j < i -> ~ stands text word j
  | None => forall j, ~ stands text word j
  end.
Proof.
  intros Ht Hw Hne. unfold find_word_boundary, word_fuel.
  pose proof (word_scan_exact (str_len (to_lowercase text) + 2) text word 0 Ht Hw Hne) as Hscan.
  rewrite to_lowercase_ascii, lowercase_len in Hscan |- * by done.
  specialize (Hscan ltac:(lia) ltac:(lia) ltac:(lia)). destruct (word_scan _ _ _ _ _); [done..| |]; eauto.
Qed.
End Words.

(** ** What a session remembers *)

Section Recording.
Context `{CaseLaws, HashOrderLaws}.

(** The tokens a vault gives to the originals. *)
Context (token_of : string -> PseudoToken).

Definition entity_ok (count : N) (o : string) (e : SessionEntity) : Prop :=
  se_token e = token_of o /\ se_original e = o /\
  (1 <= first_seen e)%N /\ (first_seen e <= last_seen e)%N /\ (last_seen e <= count)%N /\
  NoDup (related_to e) /\ token (se_token e) ∉ related_to e.

(** Every reference leads to an entity of the session. *)
Definition references_ok (s : SessionContext) : Prop :=
  forall k c, coreferences s !! k = Some c ->
    surface c = k /\ exists o e, session_entities s !! o = Some e /\ target_token c = token (se_token e).

Definition session_ok (s : SessionContext) : Prop :=
  map_Forall (entity_ok (message_count s)) (session_entities s) /\ references_ok s.

(** What later messages leave of an entity. *)
Definition extends (e e' : SessionEntity) : Prop :=
  se_token e' = se_token e /\ se_category e' = se_category e /\ first_seen e' = first_seen e /\ related_to e ⊆ related_to e'.

Lemma extends_trans a b c : extends a b -> extends b c -> extends a c.
Proof.
  intros (E1 & E2 & E3 & E4) (E1' & E2' & E3' & E4'). unfold extends. rewrite E1', E2', E3'. split_and!; [done..|].
  by transitivity (related_to b).
Qed.

Lemma add_related_elem own t r x : x ∈ add_related own t r <-> x ∈ r \/ x = t /\ t <> own.
Proof.
  unfold add_related. destruct (bool_decide_reflect (t = own)), (bool_decide_reflect (t ∈ r)); simpl; rewrite ?elem_of_app, ?list_elem_of_singleton; intuition congruence.
Qed.

Lemma add_related_NoDup own t r : NoDup r -> NoDup (add_related own t r).
Proof.
  intros Hr. unfold add_related. destruct (bool_decide _); [done|]. destruct (bool_decide_reflect (t ∈ r)); [done|]. simpl.
  apply NoDup_app. split_and!; [done| |apply NoDup_singleton]. by intros x Hx ->%list_elem_of_singleton.
Qed.

Lemma related_spec own toks r :
  let r' := fold_left (fun r x => add_related own x r) toks r in
  (NoDup r -> NoDup r') /\ forall x, x ∈ r' <-> x ∈ r \/ x ∈ toks /\ x <> own.
Proof.
  revert r. induction toks as [|t toks IH]; intros r; simpl.
  - split; [done|]. intros x. set_solver.
  - destruct (IH (add_related own t r)) as [Hn He]. split; [intros Hr; by apply Hn, add_related_NoDup|].
    intros x. rewrite He, add_related_elem. set_solver.
Qed.

Definition paired (e : DetectedEntity) : DetectedEntity * PseudoToken := (e, token_of (original e)).

Lemma zip_paired es : zip es (map (fun e => token_of (original e)) es) = map paired es.
Proof. induction es as [|e es IH]; simpl; [done|]. by rewrite IH. Qed.

Lemma record_one_spec count toks m e : (1 <= count)%N -> map_Forall (entity_ok count) m ->
  exists entry, record_one count toks m (paired e) = <[original e := entry]> m /\ entity_ok count (original e) entry /\
    last_seen entry = count /\ (forall t, t ∈ toks -> t <> token (token_of (original e)) -> t ∈ related_to entry) /\
    (forall e0, m !! original e = Some e0 -> extends e0 entry).
Proof.
  intros Hc Hm. unfold record_one, paired. set (entry := default _ _). eexists. split; [reflexivity|].
  assert (Ho : entity_ok count (original e) entry).
  { unfold entry. destruct (m !! original e) as [e0|] eqn:He; simpl; [by apply (Hm _ _ He)|].
    unfold entity_ok. simpl. split_and!; try done; try lia; [apply NoDup_nil_2|apply not_elem_of_nil]. }
  assert (Hold : forall e0, m !! original e = Some e0 -> entry = e0) by (intros e0 He0; unfold entry; by rewrite He0).
  clearbody entry. destruct Ho as (E1 & E2 & E3 & E4 & E5 & E6 & E7).
  destruct (related_spec (token (token_of (original e))) toks (related_to entry)) as [Hn He].
  unfold entity_ok, extends. simpl. rewrite E1 in *. split_and!; try done; try lia.
  - by apply Hn.
  - rewrite He. tauto.
  - intros t Ht Hto. apply He. auto.
  - intros e0 <-%Hold. split_and!; [done..|]. intros t Ht. apply He. auto.
Qed.

Lemma record_fold count toks es m : (1 <= count)%N -> map_Forall (entity_ok count) m ->
  let m' := fold_left (record_one count toks) (map paired es) m in
  map_Forall (entity_ok count) m' /\
  (forall o, is_Some (m' !! o) <-> is_Some (m !! o) \/ o ∈ map original es) /\
  (forall o e, m !! o = Some e -> exists e', m' !! o = Some e' /\ extends e e' /\ (o ∉ map original es -> e' = e)) /\
  (forall o e', o ∈ map original es -> m' !! o = Some e' ->
     last_seen e' = count /\ forall t, t ∈ toks -> t <> token (token_of o) -> t ∈ related_to e').
Proof.
  intros Hc. revert m. induction es as [|e es IH] using rev_ind; intros m Hm; simpl.
  - split_and!; [done|set_solver| |set_solver]. intros o e He. exists e. split_and!; [done| |done]. by unfold extends.
  - rewrite !map_app, fold_left_app. cbn [map fold_left]. destruct (IH m Hm) as (IH1 & IH2 & IH3 & IH4). clear IH.
    set (m1 := fold_left _ (map paired es) m) in *.
    destruct (record_one_spec count toks m1 e Hc IH1) as (entry & -> & Hok & Hl & Hr & Hx).
    split_and!.
    + by apply map_Forall_insert_2.
    + intros o. rewrite lookup_insert_is_Some', IH2, elem_of_app, list_elem_of_singleton. split; intuition congruence.
    + intros o e0 He0. destruct (IH3 o e0 He0) as (e1 & He1 & Hext & Heq). destruct (decide (o = original e)) as [->|Hne].
      * exists entry. rewrite lookup_insert_eq. split_and!; [done|by apply (extends_trans _ e1), Hx|set_solver].
      * exists e1. rewrite lookup_insert_ne by done. split_and!; [done..|]. intros Hni. apply Heq. set_solver.
    + intros o e' Ho. destruct (decide (o = original e)) as [->|Hne].
      * rewrite lookup_insert_eq. intros [= <-]. done.
      * rewrite lookup_insert_ne by done. apply IH4. set_solver.
Qed.
Lemma elem_of_values s e : e ∈ values s <-> exists o, session_entities s !! o = Some e.
Proof.
  unfold values. rewrite list_elem_of_fmap. split.
  - intros ([o x] & -> & Hx%elem_of_hm_iter). by exists o.
  - intros [o Ho]. exists (o, e). split; [done|]. by apply elem_of_hm_iter.
Qed.

Lemma fold_later_elem es b e : fold_left later es b = Some e -> e ∈ es \/ b = Some e.
Proof.
  revert b. induction es as [|x es IH]; intros b; simpl; [by right|].
  intros [He|He]%IH; [by left; right|]. unfold later in He. repeat case_match; simplify_eq; (by right) || (left; left).
Qed.

Lemma most_recent_elem s cat e : most_recent_entity s cat = Some e -> se_category e = cat /\ e ∈ values s.
Proof. unfold most_recent_entity. intros [He|He]%fold_later_elem; [|done]. by apply list_elem_of_filter in He. Qed.

Lemma new_coreferences_lead s k c : (k, c) ∈ new_coreferences s ->
  surface c = k /\ exists o e, session_entities s !! o = Some e /\ target_token c = token (se_token e).
Proof.
  unfold new_coreferences. rewrite !elem_of_app. intros [Hk|[Hk|Hk]].
  - destruct (recent_entities_of_category s Person 3) as [|p [|]] eqn:Hp; [by apply elem_of_nil in Hk| |by apply elem_of_nil in Hk].
    apply list_elem_of_fmap in Hk as (x & [= -> ->] & _). split; [done|].
    assert (Hpe : p ∈ recent_entities_of_category s Person 3) by (rewrite Hp; by left).
    apply list_elem_of_filter in Hpe as [_ [o Ho]%elem_of_values]. by exists o, p.
  - apply list_elem_of_omap in Hk as ([a cat] & _ & Ha). apply fmap_Some in Ha as (e & He & [= -> ->]).
    split; [done|]. apply most_recent_elem in He as [_ [o Ho]%elem_of_values]. by exists o, e.
  - apply list_elem_of_omap in Hk as (e & [o Ho]%elem_of_values & Ha). apply fmap_Some in Ha as (abbrev & _ & [= -> ->]).
    split; [done|]. by exists o, e.
Qed.

Lemma update_coreferences_ok s : references_ok (update_coreferences s).
Proof.
  intros k c. unfold update_coreferences. cbn [coreferences session_entities set_coreferences].
  assert (Hf : forall l m, (fold_left (fun m kc => <[kc.1 := kc.2]> m) l m : gmap string Coreference) !! k = Some c ->
    (k, c) ∈ l \/ m !! k = Some c).
  { induction l as [|[k' c'] l IH]; intros m; simpl; [by right|]. intros [Hl|Hl]%IH; [by left; right|].
    apply lookup_insert_Some in Hl as [[<- <-]|[_ Hl]]; [left; left|by right]. }
  intros [Hl|Hl]%Hf; [by apply new_coreferences_lead|by rewrite lookup_empty in Hl].
Qed.

(** C20: recording a message keeps the session in order.  Each entity keeps
    its token, its category and the message it was first seen in, and the
    tokens related to it are kept; the originals of the message are entered,
    last seen now, and related to every other token of the message; an
    entity the message does not mention is as it was.  Every coreference
    leads to the token of an entity of the session.  This holds as long as
    the tokens come from one vault and the message counter does not wrap. *)
Theorem record_entities_keeps_session s es now :
  session_ok s -> (message_count s + 1 < 2 ^ 32)%N ->
  let s' := record_entities s es (map (fun e => token_of (original e)) es) now in
  session_ok s' /\ message_count s' = (message_count s + 1)%N /\ last_activity s' = now /\
  (forall o, is_Some (session_entities s' !! o) <-> is_Some (session_entities s !! o) \/ o ∈ map original es) /\
  (forall o e, session_entities s !! o = Some e -> exists e', session_entities s' !! o = Some e' /\ extends e e' /\
     (o ∉ map original es -> e' = e)) /\
  (forall e1 e2 e', e1 ∈ es -> e2 ∈ es -> session_entities s' !! original e1 = Some e' ->
     last_seen e' = message_count s' /\
     (token (token_of (original e2)) <> token (token_of (original e1)) -> token (token_of (original e2)) ∈ related_to e')).
Proof.
  intros [Hok Hrefs] Hc. unfold record_entities. rewrite zip_paired. set (toks := map token _).
  assert (Hcount : succ_u32 (message_count s) = (message_count s + 1)%N) by (unfold succ_u32; by rewrite N.mod_small).
  rewrite Hcount. destruct (record_fold (message_count s + 1) toks es (session_entities s)) as (R1 & R2 & R3 & R4); [lia| |].
  { intros o e He. destruct (Hok o e He) as (E1 & E2 & E3 & E4 & E5 & E6 & E7). unfold entity_ok. split_and!; try done; lia. }
  set (s1 := mkSession _ _ now _ _ _ (fold_left _ _ _) _ _). set (s' := if (_ : bool) then _ else s1).
  assert (Hs' : references_ok s' /\ session_entities s' = session_entities s1 /\ message_count s' = (message_count s + 1)%N /\ last_activity s' = now).
  { unfold s'. destruct (coreference _); [split_and!; [apply update_coreferences_ok|done..]|]. split_and!; [|done..].
    intros k c Hk. destruct (Hrefs k c Hk) as (Hsf & o & e & He & Ht). split; [done|].
    destruct (R3 o e He) as (e' & He' & (Htok & _) & _). exists o, e'. split; [done|]. by rewrite Htok. }
  destruct Hs' as (Hr & He & Hn & Ha). cbv zeta. unfold session_ok. rewrite Hn, Ha, He. cbn [session_entities s1].
  split_and!; [done..|]. intros e1 e2 e' He1 He2 He'. destruct (R4 (original e1) e' ltac:(by apply list_elem_of_fmap_2) He') as [Hl Hrel].
  split; [done|]. intros Hne. apply Hrel; [|done]. unfold toks. rewrite map_map.
  apply list_elem_of_fmap. by exists e2.
Qed.
End Recording.

(** ** What a coreference resolves to *)

Section Resolving.
Context `{CaseLaws, HashOrderLaws}.

Lemma lowercase_boundaries text i :
  boundary_before (to_ascii_lowercase text) i = boundary_before text i /\
  boundary_after (to_ascii_lowercase text) i = boundary_after text i.
Proof.
  assert (Hn : forall i, not_word_byte (to_ascii_lowercase text) i = not_word_byte text i).
  { intros j. unfold not_word_byte, to_ascii_lowercase. rewrite as_from_bytes, list_lookup_fmap.
    destruct (as_bytes text !! j) as [c|]; [|done]. simpl. f_equal. destruct c as [[] [] [] [] [] [] [] []]; reflexivity. }
  unfold boundary_before, boundary_after. rewrite lowercase_len. by split; [destruct i|]; rewrite ?Hn.
Qed.

(** A reference is a whole word of the text and stands for an entity of the
    session. *)
Definition placed_reference (s : SessionContext) (text : string) (r : DetectedEntity * PseudoToken) : Prop :=
  str_slice text (start_ r.1) (end_ r.1) = Some (original r.1) /\ start_ r.1 < end_ r.1 /\
  boundary_before text (start_ r.1) = Some true /\ boundary_after text (end_ r.1) = Some true /\
  exists o e, session_entities s !! o = Some e /\ r.2 = se_token e.

Lemma look_for_placed s text searched word cat c referent :
  is_ascii text = true -> searched = text \/ searched = to_lowercase text -> is_ascii word = true -> word <> "" ->
  (forall t, referent = Some t -> exists o e, session_entities s !! o = Some e /\ t = se_token e) ->
  exists found, look_for text searched word cat c referent = Some found /\ Forall (placed_reference s text) found.
Proof.
  intros Ht Hse Hw Hne Href.
  assert (Hs : is_ascii searched = true /\ str_len searched = str_len text /\
    forall i, boundary_before searched i = boundary_before text i /\ boundary_after searched i = boundary_after text i).
  { rewrite (to_lowercase_ascii text) in Hse by done.
    destruct Hse as [->| ->]; [done|]. split_and!; [by apply is_ascii_lowercase_text|apply lowercase_len|apply lowercase_boundaries]. }
  destruct Hs as (Hsa & Hsl & Hsb).
  destruct (find_word_exact searched word Hsa Hw Hne) as (found & Hf & Hspec). unfold look_for. rewrite Hf.
  destruct found as [pos|]; [|by eexists]. destruct referent as [t|]; [|by eexists].
  destruct Hspec as ((_ & Hbefore & Hafter) & Hin & _). rewrite Hsl in Hin.
  rewrite to_lowercase_ascii, lowercase_len in Hafter by done. destruct (Hsb pos) as [Hb1 _]. destruct (Hsb (pos + str_len word)) as [_ Hb2].
  unfold mention. rewrite ascii_slice by (done || lia). simpl. eexists. split; [reflexivity|].
  apply Forall_singleton. unfold placed_reference. simpl. rewrite ascii_slice by (done || lia).
  rewrite <- Hb1, <- Hb2. split_and!; try done; [|by apply Href].
  unfold str_len. destruct (as_bytes word) eqn:Hb; [|simpl; lia]. apply (f_equal from_bytes) in Hb. by rewrite from_as_bytes in Hb.
Qed.

Lemma mapM_Forall {A B} (f : A -> option (list B)) (P : B -> Prop) l :
  (forall x, x ∈ l -> exists ys, f x = Some ys /\ Forall P ys) -> exists yss, mapM f l = Some yss /\ Forall P (mjoin yss).
Proof.
  induction l as [|x l IH]; intros Hl; [by exists []|].
  destruct (Hl x ltac:(left)) as (ys & Hx & Hys). destruct IH as (yss & Hl' & Hyss); [intros y Hy; apply Hl; by right|].
  exists (ys :: yss). simpl. rewrite Hx. simpl. rewrite Hl'. split; [done|]. simpl. by apply Forall_app.
Qed.

Lemma abbreviation_word e abbrev : is_ascii (se_original e) = true -> abbreviation e = Some abbrev -> is_ascii abbrev = true /\ abbrev <> "".
Proof.
  intros Ho. unfold abbreviation. destruct (bool_decide _); [|done]. destruct (length _ <? 2); [done|].
  destruct (str_len _ <? 2) eqn:Hlen; [done|]. intros [= <-]. split; [|by intros Hnil; rewrite Hnil in Hlen].
  assert (Hws : forall w, w ∈ split_whitespace (se_original e) -> is_ascii w = true) by (intros w; by apply split_whitespace_ascii).
  clear Hlen. induction (split_whitespace (se_original e)) as [|w ws IH]; [done|]. simpl.
  rewrite is_ascii_app, IH, andb_true_r by (intros x Hx; apply Hws; by right).
  assert (Hc : is_ascii (from_bytes (default ["000"%char] (head (chars (as_bytes w))))) = true).
  { apply is_ascii_forall. rewrite as_from_bytes. destruct (head (chars (as_bytes w))) as [x|] eqn:Hx; simpl; [|by repeat constructor].
    eapply chars_pieces; [apply is_ascii_forall, Hws; left|]. destruct (chars (as_bytes w)); [done|]. simplify_eq/=. left. }
  unfold initial. rewrite to_uppercase_ascii by done. by apply is_ascii_uppercase_text.
Qed.

Lemma possessive_word e : is_ascii (se_original e) = true -> is_ascii (possessive e) = true /\ possessive e <> "".
Proof.
  intros Ho. unfold possessive. set (first := default _ _). split.
  - rewrite is_ascii_app. apply andb_true_iff. split; [|done]. unfold first.
    destruct (split_whitespace (se_original e)) as [|w ws] eqn:Hw; simpl; [done|].
    apply (split_whitespace_ascii _ _ Ho). rewrite Hw. left.
  - intros Hnil. apply (f_equal str_len) in Hnil. unfold str_len in Hnil. rewrite as_bytes_app, length_app in Hnil. simpl in Hnil. lia.
Qed.
(** [dedup_by] leaves one reference for each start. *)
Definition after (a b : DetectedEntity * PseudoToken) : Prop := start_ b.1 < start_ a.1.

Lemma dedup_by_start_spec rs acc :
  StronglySorted (by_key (fun r : DetectedEntity * PseudoToken => Z.of_nat (start_ r.1))) rs -> StronglySorted after acc ->
  (forall b r, head acc = Some b -> r ∈ rs -> start_ b.1 <= start_ r.1) ->
  StronglySorted after (fold_left dedup_by_start rs acc) /\ (forall x, x ∈ fold_left dedup_by_start rs acc -> x ∈ acc \/ x ∈ rs).
Proof.
  revert acc. induction rs as [|a rs IH]; intros acc Hs Ha Hle; simpl; [by auto|].
  apply StronglySorted_inv in Hs as [Hs Hra]. rewrite Forall_forall in Hra. unfold by_key in Hra.
  assert (Hstep : StronglySorted after (dedup_by_start acc a) /\ (forall x, x ∈ dedup_by_start acc a -> x ∈ acc \/ x = a) /\
    (forall b, head (dedup_by_start acc a) = Some b -> start_ b.1 = start_ a.1)).
  { destruct acc as [|b rest]; simpl; [split_and!; [by repeat constructor|set_solver|by intros ? [= <-]]|].
    pose proof (Hle b a eq_refl ltac:(left)). apply StronglySorted_inv in Ha as [Hsr Hfb].
    destruct (bool_decide_reflect (start_ a.1 = start_ b.1)) as [Heq|Hne].
    - destruct (f64_gt _ _); split_and!; [|set_solver|by intros ? [= <-]|by constructor|set_solver|by intros ? [= <-]].
      constructor; [done|]. eapply Forall_impl; [exact Hfb|]. unfold after. intros x ?. lia.
    - split_and!; [|set_solver|by intros ? [= <-]]. repeat constructor; [done..|unfold after; lia|].
      eapply Forall_impl; [exact Hfb|]. unfold after. intros x ?. lia. }
  destruct Hstep as (Hst & Hel & Hhd). destruct (IH (dedup_by_start acc a) Hs Hst) as [Hres Hin].
  { intros b r Hb Hr. rewrite (Hhd b Hb). specialize (Hra r Hr). lia. }
  split; [done|]. intros x [[?| ->]%Hel|?]%Hin; [by left|right; left|by right; right].
Qed.

Lemma StronglySorted_reverse {A} (R : relation A) l : StronglySorted R l -> StronglySorted (flip R) (reverse l).
Proof.
  induction 1 as [|x l Hl IH Hx]; [constructor|]. rewrite reverse_cons. apply StronglySorted_app_2; [|done|by repeat constructor].
  intros y z Hy ->%list_elem_of_singleton. rewrite elem_of_reverse in Hy. rewrite Forall_forall in Hx. unfold flip. by apply Hx.
Qed.

(** On ASCII text in a session of ASCII originals, resolving the
    coreferences never panics.  The references come in the order of the text,
    no two from one place; each is a whole word of the text, spelled as the
    text spells it, and stands for the token of an entity of the session. *)
Theorem resolve_coreferences_placed s text :
  is_ascii text = true -> map_Forall (fun _ e => is_ascii (se_original e) = true) (session_entities s) ->
  exists rs, resolve_coreferences s text = Some rs /\
    StronglySorted (fun a b => start_ a.1 < start_ b.1) rs /\ Forall (placed_reference s text) rs.
Proof.
  intros Ht Hs. unfold resolve_coreferences. destruct (negb _ || _); [exists []; by repeat constructor|].
  assert (Hval : forall e, e ∈ values s -> is_ascii (se_original e) = true /\ exists o e', session_entities s !! o = Some e' /\ se_token e = se_token e').
  { intros e [o Ho]%elem_of_values. split; [by apply (Hs o)|eauto]. }
  assert (Hrecent : forall cat e, most_recent_entity s cat = Some e -> exists o e', session_entities s !! o = Some e' /\ se_token e = se_token e').
  { intros cat e [_ He]%most_recent_elem. by apply Hval. }
  assert (Hword : forall searched word cat c referent, searched = text \/ searched = to_lowercase text -> is_ascii word = true -> word <> "" ->
    (forall t, referent = Some t -> exists o e, session_entities s !! o = Some e /\ t = se_token e) ->
    exists found, look_for text searched word cat c referent = Some found /\ Forall (placed_reference s text) found).
  { intros. by apply look_for_placed. }
  edestruct (mapM_Forall (fun p => look_for text (to_lowercase text) p Person SEVEN (pronoun_referent s)) (placed_reference s text) PERSON_PRONOUNS)
    as (pronouns & -> & Hp).
  { intros p Hp. assert (Hpw : is_ascii p = true /\ p <> "") by (revert p Hp; apply Forall_forall; by repeat constructor).
    apply Hword; [by right|apply Hpw..|]. unfold pronoun_referent. intros t.
    destruct (most_recent_entity s Person) as [e|] eqn:He; [|done]. destruct (bool_decide _); [|done]. intros [= <-]. eauto. }
  edestruct (mapM_Forall (fun a => look_for text (to_lowercase text) a.1 a.2 SIX (se_token <$> most_recent_entity s a.2)) (placed_reference s text) DEFINITE_ARTICLES)
    as (articles & -> & Ha).
  { intros a Ha. assert (Haw : is_ascii a.1 = true /\ a.1 <> "") by (revert a Ha; apply Forall_forall; by repeat constructor).
    apply Hword; [by right|apply Haw..|]. intros t (e & He & ->)%fmap_Some. eauto. }
  unfold resolve_abbreviations, resolve_possessives.
  edestruct (mapM_Forall (fun e => match abbreviation e with
    | Some abbrev => look_for text text abbrev (se_category e) SIX_FIVE (Some (se_token e)) | None => Some [] end) (placed_reference s text) (values s))
    as (abbreviations & -> & Hab).
  { intros e He. destruct (Hval e He) as [Hoe Hte]. destruct (abbreviation e) as [abbrev|] eqn:Hae; [|by exists []].
    destruct (abbreviation_word e abbrev Hoe Hae). apply Hword; [by left|done..|]. by intros t [= <-]. }
  edestruct (mapM_Forall (fun e => if bool_decide (se_category e = Person)
    then look_for text text (possessive e) Person SEVEN_FIVE (Some (se_token e)) else Some []) (placed_reference s text) (values s))
    as (possessives & -> & Hpo).
  { intros e He. destruct (Hval e He) as [Hoe Hte]. destruct (bool_decide _); [|by exists []].
    destruct (possessive_word e Hoe). apply Hword; [by left|done..|]. by intros t [= <-]. }
  cbn [fmap option_fmap option_map]. eexists. split; [reflexivity|].
  set (all := _ ++ _). destruct (dedup_by_start_spec (sort_by_key (fun r => Z.of_nat (start_ r.1)) all) []) as [Hsorted Hin];
    [apply sort_by_key_sorted|constructor|done|].
  split; [by apply StronglySorted_reverse in Hsorted|]. apply Forall_reverse, Forall_forall.
  intros x [?%elem_of_nil|Hx]%Hin; [done|]. rewrite sort_by_key_perm in Hx. revert x Hx. apply Forall_forall.
  unfold all. by repeat (apply Forall_app; split).
Qed.
End Resolving.

(** ** Properties of the search, the manager and the sensitivity *)

Section Properties.
Context `{CaseLaws}.

(** C21: the word search ends.  Its loop leaves within one turn for each byte
    of the lowercased text and two more, so more fuel changes nothing, for
    every text.  On ASCII text it never panics: it finds the first place
    where the word stands on its own, and finds none when there is none. *)
Theorem find_word_boundary_ends text word :
  (forall extra, word_scan (word_fuel text + extra) text (to_lowercase text) (to_lowercase word) 0 =
     word_scan (word_fuel text) text (to_lowercase text) (to_lowercase word) 0) /\
  word_scan (word_fuel text) text (to_lowercase text) (to_lowercase word) 0 <> OutOfFuel /\
  (is_ascii text = true -> is_ascii word = true -> word <> "" ->
   exists found, find_word_boundary text word = Some found /\
     match found with
     | Some i => stands text word i /\ i + str_len word <= str_len text /\ forall j, j < i -> ~ stands text word j
     | None => forall j, ~ stands text word j
     end).
Proof.
  assert (Hend : word_scan (word_fuel text) text (to_lowercase text) (to_lowercase word) 0 <> OutOfFuel).
  { apply word_scan_enough; unfold word_fuel; lia. }
  split_and!; [intros extra; apply word_scan_more; [lia|done]|done|apply find_word_exact].
Qed.

(** Each session is kept under its own name with the manager's settings. *)
Definition manager_ok (m : SessionManager) : Prop :=
  map_Forall (fun id s => session_id s = id /\ session_config s = manager_config m) (sessions m).

(** The session [get_or_create] leaves is live: the one there was, unless it
    had expired, and a new one otherwise; the other sessions stay. *)
Theorem get_or_create_serves_live m id now :
  manager_ok m -> (0 <= ttl_seconds (manager_config m) < 2 ^ 63)%Z ->
  let m' := (manager_get_or_create m id now).2 in
  manager_ok m' /\ (forall other, other <> id -> sessions m' !! other = sessions m !! other) /\
  exists s, sessions m' !! id = Some s /\ is_expired s now = false /\
    (sessions m !! id = Some s \/
     s = session_new id (manager_config m) now /\ forall old, sessions m !! id = Some old -> is_expired old now = true).
Proof.
  intros Hm Httl. assert (Hnew : is_expired (session_new id (manager_config m) now) now = false).
  { unfold is_expired, as_i64. cbn [session_config session_new last_activity]. rewrite Z.sub_diag.
    change (0 ÷ 1000000000)%Z with 0%Z. apply Z.ltb_ge. rewrite Z.mod_small by lia. lia. }
  assert (Hfresh : forall ss, map_Forall (fun id s => session_id s = id /\ session_config s = manager_config m) ss ->
    manager_ok (set_sessions m (<[id := session_new id (manager_config m) now]> ss))).
  { intros ss Hss. by apply map_Forall_insert_2. }
  unfold manager_get_or_create. destruct (sessions m !! id) as [s|] eqn:Hs; [destruct (is_expired s now) eqn:He|]; simpl.
  - split_and!; [by apply Hfresh, map_Forall_delete|intros o Ho; by rewrite lookup_insert_ne, lookup_delete_ne|].
    eexists. rewrite lookup_insert_eq. split_and!; [done..|]. right. split; [done|]. by intros ? [= <-].
  - split_and!; [done..|]. exists s. by auto.
  - split_and!; [by apply Hfresh|intros o Ho; by rewrite lookup_insert_ne|].
    eexists. rewrite lookup_insert_eq. split_and!; [done..|]. by right.
Qed.

Theorem evict_expired_exactly m now :
  let '(n, m') := evict_expired m now in
  (forall id s, sessions m' !! id = Some s <-> sessions m !! id = Some s /\ is_expired s now = false) /\
  n + size (sessions m') = size (sessions m).
Proof.
  unfold evict_expired. cbn [sessions set_sessions]. split.
  - intros id s. by rewrite map_lookup_filter_Some.
  - pose proof (map_size_filter (fun ks => is_expired ks.2 now = false) (sessions m)). lia.
Qed.

(** A run of messages escalates once, at the first that has two of the
    decision keywords, whose keywords stay on record. *)
Fixpoint check_all (s : SessionContext) (texts : list string) : list bool * SessionContext :=
  match texts with
  | [] => ([], s)
  | t :: texts =>
      let '(b, s) := check_sensitivity s t in
      let '(bs, s) := check_all s texts in (b :: bs, s)
  end.

Lemma check_all_elevated s texts : sensitivity s = Elevated -> check_all s texts = (replicate (length texts) false, s).
Proof.
  intros He. induction texts as [|t texts IH]; [done|]. simpl. unfold check_sensitivity. rewrite He.
  destruct (negb _); simpl; by rewrite IH.
Qed.

Lemma escalates_at_first s before t later_texts :
  sensitivity_escalation (session_config s) = true -> sensitivity s = Normal ->
  Forall (fun t => length (found_keywords t) < 2) before -> 2 <= length (found_keywords t) ->
  exists s', check_all s (before ++ t :: later_texts) =
      (replicate (length before) false ++ true :: replicate (length later_texts) false, s') /\
    sensitivity s' = Elevated /\ escalation_keywords s' = found_keywords t.
Proof.
  intros Hon Hn Hb Ht. induction Hb as [|x before Hx Hb IH]; cbn [app check_all length replicate].
  - unfold check_sensitivity. rewrite Hon, Hn. cbn [negb]. rewrite bool_decide_eq_false_2 by done.
    rewrite (proj2 (Nat.leb_le _ _) Ht), check_all_elevated by done. by eexists.
  - destruct IH as (s' & Hs' & ?). unfold check_sensitivity. rewrite Hon, Hn. cbn [negb]. rewrite bool_decide_eq_false_2 by done.
    rewrite (proj2 (Nat.leb_gt _ _) Hx), Hs'. by eexists.
Qed.
End Properties.

(** ** Witnesses and examples *)

Section Examples.
Import Toy.

Definition demo_session : SessionContext :=
  session_new "s1" (mkSessionConfig true "header:x-session-id" 1800 true true (f64_ratio 8 10)) 0.

Definition demo_token_of (o : string) : PseudoToken :=
  if bool_decide (o = "Ann Lee") then mkToken "PERSON_1" Person 1 else mkToken "ORG_1" Organization 1.

Definition seen (o : string) (c : EntityCategory) : DetectedEntity := mkEntity o 0 (str_len o) c SEVEN Pattern.
Definition demo_seen : list DetectedEntity := [seen "Ann Lee" Person; seen "Hewlett Enterprise" Organization].

Definition recorded : SessionContext := record_entities demo_session demo_seen (map (fun e => demo_token_of (original e)) demo_seen) 7.

Lemma demo_session_ok : session_ok demo_token_of demo_session.
Proof. split; [apply map_Forall_empty|]. intros k c. change (coreferences demo_session) with (∅ : gmap string Coreference). by rewrite lookup_empty. Qed.

Lemma record_entities_keeps_session_witness :
  session_ok demo_token_of recorded /\
  exists e, session_entities recorded !! "Ann Lee" = Some e /\ last_seen e = 1%N /\ "ORG_1" ∈ related_to e.
Proof.
  destruct (record_entities_keeps_session demo_token_of demo_session demo_seen 7 demo_session_ok eq_refl)
    as (Hok & Hcount & _ & Hdom & _ & Hrel).
  split; [exact Hok|].
  destruct (proj2 (Hdom "Ann Lee") (or_intror (list_elem_of_here _ _))) as [e He].
  exists e. split; [exact He|].
  destruct (Hrel (seen "Ann Lee" Person) (seen "Hewlett Enterprise" Organization) e (list_elem_of_here _ _)
    (list_elem_of_further _ _ _ (list_elem_of_here _ _)) He) as [Hl Ht].
  split; [exact Hl|]. apply Ht. discriminate.
Defined.

Lemma resolve_coreferences_placed_witness :
  exists rs, resolve_coreferences recorded "Then he and Ann's bank met." = Some rs /\
    StronglySorted (fun a b => start_ a.1 < start_ b.1) rs /\ Forall (placed_reference recorded "Then he and Ann's bank met.") rs.
Proof.
  apply (resolve_coreferences_placed recorded "Then he and Ann's bank met."); [reflexivity|].
  apply (bool_decide_unpack _). vm_compute. exact I.
Qed.

Lemma find_word_boundary_ends_witness : exists found, find_word_boundary "a tm, TM" "TM" = Some found /\
  match found with
  | Some i => stands "a tm, TM" "TM" i /\ i + str_len "TM" <= str_len "a tm, TM" /\ forall j, j < i -> ~ stands "a tm, TM" "TM" j
  | None => forall j, ~ stands "a tm, TM" "TM" j
  end.
Proof. by apply (find_word_boundary_ends "a tm, TM" "TM"). Defined.

Definition references (s : SessionContext) (text : string) : option (list (nat * string * string)) :=
  map (fun r => (start_ r.1, original r.1, token r.2)) <$> resolve_coreferences s text.

Example references_found : references recorded "Then she and Ann's bank met." = Some [(5, "she", "PERSON_1"); (13, "Ann's", "PERSON_1")].
Proof. vm_compute. reflexivity. Qed.

(** Of two references from one place the less confident is kept: "he", which
    may also abbreviate "Hewlett Enterprise" (0.65), is not taken for the
    person (0.7). *)
Example less_confident_reference_kept : references recorded "he said so." = Some [(0, "he", "ORG_1")].
Proof. vm_compute. reflexivity. Qed.

(** The search panics where a match inside a word begins with a character of
    several bytes. *)
Example word_search_panics : find_word_boundary "x東京" "東京" = None /\ find_word_boundary "東京 x" "東京" = Some (Some 0).
Proof. split; vm_compute; reflexivity. Qed.
End Examples.
