(* ===== verification/HttpProxy.v ===== *)
(** * The HTTP proxy

    [cloakpipe-proxy/src/handlers.rs] and the state of [state.rs]: a chat
    request is masked (with its session, when it has one), sent upstream, and
    the answer is scanned for leaks and restored.  The upstream server is an
    argument, as are request identifiers and clocks.  A panic is [None]. *)

From stdpp Require Import pretty.
From S2P Require Import Prelude Text Utf8 BTree Json Crates Concrete Vault FormatPreserving Pseudonym Stream Detector Mask Session.

(** ** State ([state.rs]) *)

Record TelemetryEvent := mkTelemetry {
  telemetry_request : string;
  telemetry_timestamp : string;
  entities_masked : nat;
  latency_ms : f64;
  upstream_provider : string;
  upstream_model : string;
  telemetry_status : string;
}.

(** What is handed to the audit logger, whose failures are ignored. *)
Inductive AuditEvent :=
| LogPseudonymize (request : string) (detected replaced : nat) (categories : list EntityCategory)
| LogRehydrate (request : string) (count : nat).

(** A request sent upstream and what comes back. *)
Record UpstreamRequest := mkUpstreamRequest {
  up_url : string;
  up_headers : list (string * string);
  up_body : value;
}.

Inductive UpstreamAnswer :=
| Unreachable (e : string)
| Answered (status : N) (body : result string string).

Inductive ResponseBody := TextBody (s : string) | JsonBody (v : value) | EventStream (es : list Event).

Record Response := mkResponse {
  resp_status : N;
  resp_headers : list (string * string);
  resp_body : ResponseBody;
}.

(** What a call brings with it: the header lookup, new identifiers, the
    clock at each message and at the end. *)
Record Call := mkCall {
  header : string -> option string;
  request_id : string;
  connection_id : string;
  clock : nat -> Z;
  finished : string * f64;
}.

Section HttpProxy.
Context `{RegexFind, CaseMapping, SimilarityCrate, DigitClass, HashOrder, JsonCrates}.

Record AppState := mkApp {
  app_upstream : string;
  api_key : string;
  app_detector : Detector;
  app_vault : Vault;
  app_sessions : SessionManager;
  app_cloud : bool;
  telemetry : list TelemetryEvent;
  audit : list AuditEvent;
}.

Definition with_vault (v : Vault) (s : AppState) : AppState :=
  mkApp (app_upstream s) (api_key s) (app_detector s) v (app_sessions s) (app_cloud s) (telemetry s) (audit s).
Definition with_sessions (m : SessionManager) (s : AppState) : AppState :=
  mkApp (app_upstream s) (api_key s) (app_detector s) (app_vault s) m (app_cloud s) (telemetry s) (audit s).
Definition with_audit (l : list AuditEvent) (s : AppState) : AppState :=
  mkApp (app_upstream s) (api_key s) (app_detector s) (app_vault s) (app_sessions s) (app_cloud s) (telemetry s) (audit s ++ l).

(** ** Requests *)

Definition extract_session_id (c : Call) (id_from : string) : option string :=
  match strip_prefix "header:" id_from with
  | Some name => header c name
  | None => if bool_decide (id_from = "connection") then Some (connection_id c) else None
  end.

(** [msg["content"]] when it is a string. *)
Definition message_content (msg : value) : option string :=
  let! content := vget "content" msg else None in as_str content.

Definition note_sensitivity (m : SessionManager) (sid : option string) (content : string) : SessionManager :=
  match sid with
  | Some id => (with_session m id (fun ctx => check_sensitivity ctx content)).2
  | None => m
  end.

Definition session_references (m : SessionManager) (sid : option string) (content : string)
    : option (list (DetectedEntity * PseudoToken)) :=
  match sid with
  | Some id => default (Some []) (with_session_ref m id (fun ctx => resolve_coreferences ctx content))
  | None => Some []
  end.

(** A reference that overlaps no entity joins the entities; its token is kept
    with its place among them. *)
Definition add_reference (acc : list DetectedEntity * list (nat * PseudoToken)) (r : DetectedEntity * PseudoToken)
    : list DetectedEntity * list (nat * PseudoToken) :=
  let '(es, toks) := acc in
  if existsb (fun e => (start_ r.1 <? end_ e) && (start_ e <? end_ r.1)) es then acc
  else (es ++ [r.1], toks ++ [(length es, r.2)]).

(** The tokens to record: of the reference kept under the place [i], or of
    the vault. *)
Fixpoint session_tokens (coref : list (nat * PseudoToken)) (i : nat) (es : list DetectedEntity) (v : Vault)
    : list PseudoToken * Vault :=
  match es with
  | [] => ([], v)
  | e :: es =>
      let '(t, v) :=
        match find (fun it => it.1 =? i) coref with
        | Some it => (it.2, v)
        | None => get_or_create v (original e) (category e)
        end in
      let '(ts, v) := session_tokens coref (S i) es v in
      (t :: ts, v)
  end.

Definition pseudonymize_content (s : AppState) (rid : string) (sid : option string) (now : Z) (content : string)
    : option (nat * option string * AppState) :=
  let s := with_sessions (note_sensitivity (app_sessions s) sid content) s in
  let! references := session_references (app_sessions s) sid content else None in
  let '(es, coref) := fold_left add_reference references (detect (app_detector s) content, []) in
  match es with
  | [] => Some (0, None, s)
  | _ =>
      let es := sort_by_key (fun e => Z.of_nat (start_ e)) es in
      let! (r, v) := pseudonymize content es (app_vault s) else None in
      let '(ts, v) := session_tokens coref 0 es v in
      let m := match sid with
               | Some id => (with_session (app_sessions s) id (fun ctx => (tt, record_entities ctx es ts now))).2
               | None => app_sessions s
               end in
      Some (length es, Some (text_ r),
            with_audit [LogPseudonymize rid (length es) (length es) (map category es)] (with_sessions m (with_vault v s)))
  end.

Definition pseudonymize_message (s : AppState) (rid : string) (sid : option string) (now : Z) (msg : value)
    : option (nat * value * AppState) :=
  match message_content msg with
  | Some content =>
      let! (n, masked, s) := pseudonymize_content s rid sid now content else None in
      Some (n, match masked with Some text => set_member "content" (VString text) msg | None => msg end, s)
  | None => Some (0, msg, s)
  end.

Fixpoint pseudonymize_each (s : AppState) (rid : string) (sid : option string) (clock : nat -> Z) (i : nat) (msgs : list value)
    : option (nat * list value * AppState) :=
  match msgs with
  | [] => Some (0, [], s)
  | msg :: msgs =>
      let! (n, msg, s) := pseudonymize_message s rid sid (clock i) msg else None in
      let! (k, msgs, s) := pseudonymize_each s rid sid clock (S i) msgs else None in
      Some (n + k, msg :: msgs, s)
  end.

Definition pseudonymize_messages (s : AppState) (body : value) (rid : string) (sid : option string) (clock : nat -> Z)
    : option (nat * value * AppState) :=
  match vget "messages" body with
  | Some (VArray msgs) =>
      let! (n, msgs, s) := pseudonymize_each s rid sid clock 0 msgs else None in
      Some (n, set_member "messages" (VArray msgs) body, s)
  | _ => Some (0, body, s)
  end.

(** ** Answers *)



(** [text.replace_range(a..b, r)]. *)
Definition replace_range (r text : string) (a b : nat) : option string :=
  let! _ := str_slice text a b else None in
  Some (from_bytes (take a (as_bytes text) ++ as_bytes r ++ drop b (as_bytes text))).

Definition redact (content : string) (leaked : list DetectedEntity) : option string :=
  fold_left (fun text e => let! text := text else None in replace_range "[REDACTED]" text (start_ e) (end_ e))
    (sort_by_key (fun e => (- Z.of_nat (start_ e))%Z) leaked) (Some content).

(** The entities of an answer that the vault does not know. *)
Definition leaked_entities (s : AppState) (content : string) : list DetectedEntity :=
  filter (fun e => contains_original (app_vault s) (original e) = false) (detect (app_detector s) content).




(** [block.text] of an Anthropic answer. *)
Definition block_text (block : value) : option string :=
  let! text := vget "text" block else None in as_str text.

Definition rehydrate_block (rid : string) (v : Vault) (block : value) : list AuditEvent * value :=
  match block_text block with
  | Some text =>
      let r := rehydrate text v in
      ([LogRehydrate rid (rehydrated_count r)], set_member "text" (VString (rehydrated_text r)) block)
  | None => ([], block)
  end.

Definition restore_blocks (s : AppState) (rid : string) (answer : value) : value * AppState :=
  match vget "content" answer with
  | Some (VArray blocks) =>
      let restored := map (rehydrate_block rid (app_vault s)) blocks in
      (set_member "content" (VArray (map snd restored)) answer, with_audit (mjoin (map fst restored)) s)
  | _ => (answer, s)
  end.

(** ** The handlers *)

Definition BAD_GATEWAY : N := 502.

Definition trim_end_slashes (s : string) : string :=
  from_bytes (reverse (drop_while (fun c => bool_decide (c = "/"%char)) (reverse (as_bytes s)))).

Definition member_bool (k : string) (body : value) : bool :=
  match vget k body with Some (VBool b) => b | _ => false end.

Definition named (name : string) (x : option string) : list (string * string) :=
  match x with Some x => [(name, x)] | None => [] end.

Definition event_stream (rid : string) (es : list Event) : Response :=
  mkResponse 200 [("Content-Type", "text/event-stream"); ("Cache-Control", "no-cache"); ("X-CloakPipe-Request-Id", rid)] (EventStream es).

Definition json_type : string * string := ("Content-Type", "application/json").

Definition is_success (status : N) : bool := ((200 <=? status) && (status <? 300))%N.

(** The session of a request, created when it is new or expired. *)
Definition enter_session (s : AppState) (c : Call) (now : Z) : option string * AppState :=
  if session_enabled (manager_config (app_sessions s)) then
    match extract_session_id c (id_from (manager_config (app_sessions s))) with
    | Some id => (Some id, with_sessions (manager_get_or_create (app_sessions s) id now).2 s)
    | None => (None, s)
    end
  else (None, s).




Definition proxy_anthropic_messages (upstream : UpstreamRequest -> UpstreamAnswer) (c : Call) (body : value) (s : AppState)
    : option (result (N * string) Response * AppState) :=
  let! (n, masked, s) := pseudonymize_messages s body (request_id c) None (clock c) else None in
  let req := mkUpstreamRequest (trim_end_slashes (app_upstream s) +:+ "/v1/messages")
    ([json_type; ("x-api-key", api_key s); ("anthropic-version", default "2023-06-01" (header c "anthropic-version"))]
     ++ named "anthropic-beta" (header c "anthropic-beta")) masked in
  match upstream req with
  | Unreachable e => Some (Err (BAD_GATEWAY, "Upstream request failed: " +:+ e), s)
  | Answered status text =>
      if negb (is_success status) then
        Some (Ok (mkResponse status [json_type] (TextBody (match text with Ok t => t | Err _ => "" end))), s)
      else if member_bool "stream" body then
        Some (Ok (event_stream (request_id c) (rehydrate_anthropic_stream (match text with Ok t => t | Err _ => "" end) (app_vault s))), s)
      else
        match text with
        | Err e => Some (Err (BAD_GATEWAY, "Failed to read upstream response: " +:+ e), s)
        | Ok text =>
            match json_from_slice (as_bytes text) with
            | None => Some (Err (BAD_GATEWAY, "Invalid upstream JSON"), s)
            | Some answer =>
                let '(answer, s) := restore_blocks s (request_id c) answer in
                Some (Ok (mkResponse 200 [json_type; ("X-CloakPipe-Request-Id", request_id c)] (JsonBody answer)), s)
            end
        end
  end.

(** One text of an embeddings request, and the request. *)
Definition pseudonymize_input (s : AppState) (rid : string) (input : value) : option (nat * value * AppState) :=
  match input with
  | VString text =>
      match detect (app_detector s) text with
      | [] => Some (0, input, s)
      | es =>
          let! (r, v) := pseudonymize text es (app_vault s) else None in
          Some (length es, VString (text_ r),
                with_audit [LogPseudonymize rid (length es) (length es) (map category es)] (with_vault v s))
      end
  | _ => Some (0, input, s)
  end.

Fixpoint pseudonymize_inputs (s : AppState) (rid : string) (items : list value) : option (nat * list value * AppState) :=
  match items with
  | [] => Some (0, [], s)
  | x :: items =>
      let! (n, x, s) := pseudonymize_input s rid x else None in
      let! (k, items, s) := pseudonymize_inputs s rid items else None in
      Some (n + k, x :: items, s)
  end.

Definition pseudonymize_embedding_input (s : AppState) (body : value) (rid : string) : option (nat * value * AppState) :=
  match vget "input" body with
  | Some (VArray items) =>
      let! (n, items, s) := pseudonymize_inputs s rid items else None in
      Some (n, set_member "input" (VArray items) body, s)
  | Some input =>
      let! (n, input, s) := pseudonymize_input s rid input else None in
      Some (n, set_member "input" input body, s)
  | None => Some (0, body, s)
  end.

Definition proxy_embeddings (upstream : UpstreamRequest -> UpstreamAnswer) (c : Call) (body : value) (s : AppState)
    : option (result (N * string) Response * AppState) :=
  let! (n, masked, s) := pseudonymize_embedding_input s body (request_id c) else None in
  let req := mkUpstreamRequest (trim_end_slashes (app_upstream s) +:+ "/v1/embeddings")
    ([json_type; ("Authorization", "Bearer " +:+ api_key s)] ++ named "OpenAI-Organization" (header c "openai-organization")) masked in
  match upstream req with
  | Unreachable e => Some (Err (BAD_GATEWAY, "Upstream request failed: " +:+ e), s)
  | Answered status text =>
      Some (Ok (mkResponse status [json_type; ("X-CloakPipe-Request-Id", request_id c)]
        (TextBody (match text with Ok t => t | Err _ => "" end))), s)
  end.

End HttpProxy.

(** ** Lemmas on members, order and placement *)


Lemma sort_by_key_reverse {A} (k : A -> Z) l : StronglySorted (fun x y => (k y < k x)%Z) l -> sort_by_key k l = reverse l.
Proof.
  assert (Hins : forall x l, Forall (fun y => (k y < k x)%Z) l -> insert_by_key k x l = l ++ [x]).
  { intros x l'. induction 1 as [|y l' Hy Hl IH]; simpl; [done|]. by rewrite (proj2 (Z.leb_gt _ _)), IH by done. }
  induction 1 as [|x l Hl IH Hx]; simpl; [done|]. rewrite IH, reverse_cons. apply Hins. by apply Forall_reverse.
Qed.

Lemma StronglySorted_mono {A} (R S : relation A) l : (forall x y, R x y -> S x y) -> StronglySorted R l -> StronglySorted S l.
Proof. intros Hrs. induction 1 as [|x l Hl IH Hx]; constructor; [done|]. eapply Forall_impl; [exact Hx|]. apply Hrs. Qed.




Lemma placed_start text last es : placed text last es -> Forall (fun e => last <= start_ e) es.
Proof.
  revert last. induction es as [|e es IH]; intros last; [constructor|]. intros (_ & Hle & (Hse & _)%str_slice_Some & Hp).
  constructor; [done|]. eapply Forall_impl; [by eapply IH|]. simpl. intros. lia.
Qed.


Lemma placed_strict text last es : placed text last es -> Forall (fun e => start_ e < end_ e) es ->
  StronglySorted (fun x y => start_ x < start_ y) es.
Proof.
  revert last. induction es as [|e es IH]; intros last; [constructor|]. intros (_ & Hle & _ & Hp) [He Hes]%Forall_cons.
  constructor; [by eapply IH|]. eapply Forall_impl; [by eapply placed_start|]. simpl. intros. lia.
Qed.

Lemma placed_earlier text last last' es : placed text last es -> is_char_boundary text last' = true -> last' <= last -> placed text last' es.
Proof. destruct es as [|e es]; [done|]. intros (_ & Hle & Hp) Hb Hl. split_and!; [done|lia|apply Hp|apply Hp]. Qed.

Lemma placed_filter (P : DetectedEntity -> Prop) `{!forall e, Decision (P e)} text last es :
  placed text last es -> placed text last (filter P es).
Proof.
  revert last. induction es as [|e es IH]; intros last; [done|]. intros (Hb & Hle & Hs & Hp). rewrite filter_cons.
  destruct (decide (P e)); [split_and!; [done..|by apply IH]|]. apply (placed_earlier _ (end_ e)); [by apply IH|done|].
  apply str_slice_Some in Hs. lia.
Qed.

(** ** Masked requests *)

Section Requests.
Context `{RegexFindLaws, CaseMapping, SimilarityCrate, DigitClass, HashOrderLaws, JsonCrates}.










End Requests.

(** ** Redacted answers *)

Section Answers.
Context `{RegexFindLaws, CaseMapping, SimilarityCrate, DigitClass, HashOrderLaws, JsonCrates}.

Definition redaction : PseudoToken := mkToken "[REDACTED]" Person 0.

(** [content] with [es] redacted, from the offset [last] on. *)
Definition redacted_from (content : string) (last : nat) (es : list DetectedEntity) : bytes :=
  render (fun _ => false) (segments content last es (replicate (length es) redaction)) (drop (final_end last es) (as_bytes content)).

Lemma starts_char_take a n : starts_char a -> starts_char (take n a).
Proof. intros Ha c r He. destruct a as [|x a], n; simplify_eq/=. by apply (Ha c a). Qed.

Lemma redacted_starts content last es : valid_utf8 (as_bytes content) = true -> placed content last es ->
  starts_char (redacted_from content last es).
Proof.
  intros Hv. destruct es as [|e es]; intros Hp; unfold redacted_from; simpl.
  - apply boundary_starts; [by apply valid_starts_char|apply Hp].
  - apply starts_char_app; [apply starts_char_take, boundary_starts; [by apply valid_starts_char|apply Hp]|]. by intros c r [= <- _].
Qed.

Lemma redacted_next content last e es : placed content last (e :: es) ->
  take last (as_bytes content) ++ redacted_from content last (e :: es) =
  take (start_ e) (as_bytes content) ++ as_bytes "[REDACTED]" ++ redacted_from content (end_ e) es.
Proof.
  intros (_ & Hle & _). unfold redacted_from. cbn [length replicate segments render]. rewrite !app_assoc. do 2 f_equal.
  rewrite take_take_drop. do 2 f_equal. lia.
Qed.

Lemma redact_reverse content last es : valid_utf8 (as_bytes content) = true -> placed content last es ->
  Forall (fun e => start_ e < end_ e) es ->
  fold_left (fun text e => let! text := text else None in replace_range "[REDACTED]" text (start_ e) (end_ e)) (reverse es) (Some content) =
  Some (from_bytes (take last (as_bytes content) ++ redacted_from content last es)).
Proof.
  intros Hv. revert last. induction es as [|e es IH]; intros last Hp Hne.
  - simpl. unfold redacted_from. simpl. by rewrite take_drop, from_as_bytes.
  - apply Forall_cons in Hne as [He Hne]. pose proof Hp as (_ & Hle & Hs & Hp').
    rewrite reverse_cons, fold_left_app, (IH (end_ e)) by done. cbn [fold_left].
    apply str_slice_Some in Hs as (_ & Hbs & Hbe & _).
    assert (Hlen : end_ e <= length (as_bytes content)).
    { unfold is_char_boundary in Hbe. destruct (as_bytes content !! end_ e) eqn:Hl; [apply lookup_lt_Some in Hl; lia|].
      apply orb_true_iff in Hbe as [Hz|Hz]; apply bool_decide_eq_true in Hz; unfold str_len in *; lia. }
    set (text := from_bytes (take (end_ e) (as_bytes content) ++ redacted_from content (end_ e) es)).
    assert (Htb : as_bytes text = take (end_ e) (as_bytes content) ++ redacted_from content (end_ e) es) by (apply as_from_bytes).
    assert (Hdrop : drop (end_ e) (as_bytes text) = redacted_from content (end_ e) es).
    { rewrite Htb. apply drop_app_length'. rewrite length_take. lia. }
    unfold replace_range, str_slice.
    assert (Hb1 : is_char_boundary text (start_ e) = true).
    { apply starts_char_boundary; [unfold str_len; rewrite Htb, length_app, length_take; lia|].
      rewrite Htb, drop_app_le by (rewrite length_take; lia). apply starts_char_app; [|by apply redacted_starts].
      replace (end_ e) with (start_ e + (end_ e - start_ e)) by lia. rewrite <- take_drop_commute. apply starts_char_take, boundary_starts; [by apply valid_starts_char|done]. }
    assert (Hb2 : is_char_boundary text (end_ e) = true).
    { apply starts_char_boundary; [unfold str_len; rewrite Htb, length_app, length_take; lia|]. rewrite Hdrop. by apply redacted_starts. }
    rewrite bool_decide_eq_true_2, Hb1, Hb2 by lia. cbn [andb]. rewrite redacted_next by done. rewrite Hdrop. do 3 f_equal.
    rewrite Htb, take_app_le, take_take by (rewrite length_take; lia). f_equal. lia.
Qed.

(** Redacting what leaked cuts each of it out, and the slices are in place. *)
Lemma redact_leaked s content :
  valid_utf8 (as_bytes content) = true -> Forall (fun f => valid_utf8 (as_bytes f) = true) (force_list (app_detector s)) ->
  Forall (fun e => start_ e < end_ e) (detect (app_detector s) content) ->
  let leaked := leaked_entities s content in
  let segs := segments content 0 leaked (replicate (length leaked) redaction) in
  let tail := drop (final_end 0 leaked) (as_bytes content) in
  redact content leaked = Some (from_bytes (render (fun _ => false) segs tail)) /\ plain_text segs tail = as_bytes content.
Proof.
  intros Hv Hf Hne. cbv zeta. assert (Hp : placed content 0 (leaked_entities s content)).
  { by apply placed_filter, detect_in_place. }
  assert (Hn : Forall (fun e => start_ e < end_ e) (leaked_entities s content)).
  { rewrite Forall_forall in Hne |- *. intros e [_ He]%list_elem_of_filter. by apply Hne. }
  split.
  - unfold redact. rewrite sort_by_key_reverse.
    + rewrite (redact_reverse content 0) by done. by rewrite take_0.
    + eapply StronglySorted_mono; [|by eapply placed_strict]. intros x y ?. simpl in *. lia.
  - rewrite segments_plain, drop_0 by (done || by rewrite length_replicate). done.
Qed.

(** C19: an answer is redacted exactly.  In a valid answer in which the
    detector finds no empty entity, what counts as leaked is every entity the
    detector finds whose original the vault has no token for, in order, and
    no other; the text that remains is the answer with each leaked entity cut
    out and [[REDACTED]] in its place, nothing else is changed, and the
    slices never panic. *)
Theorem redact_exactly s content :
  valid_utf8 (as_bytes content) = true -> Forall (fun f => valid_utf8 (as_bytes f) = true) (force_list (app_detector s)) ->
  Forall (fun e => start_ e < end_ e) (detect (app_detector s) content) ->
  let leaked := leaked_entities s content in
  let segs := segments content 0 leaked (replicate (length leaked) redaction) in
  let tail := drop (final_end 0 leaked) (as_bytes content) in
  leaked = filter (fun e => forward (app_vault s) !! original e = None) (detect (app_detector s) content) /\
  redact content leaked = Some (from_bytes (render (fun _ => false) segs tail)) /\ plain_text segs tail = as_bytes content.
Proof.
  intros Hv Hf Hne. split; [|by apply redact_leaked]. unfold leaked_entities. apply list_filter_iff. intros e.
  unfold contains_original. by destruct (forward (app_vault s) !! original e).
Qed.

(** ** A chat and its answer *)






End Answers.

(** ** Witnesses and examples *)

Section Examples.
Import Toy ToyFind ToyDigits.

Definition name_detector : Detector := mkDetector [] [] [mkRule ("Ann" : Regex) Person] [] ["ACME"].
Definition demo_app (enabled : bool) : AppState :=
  mkApp "https://api/" "sk" name_detector (vault_new None [])
    (manager_new (mkSessionConfig enabled "header:x-session-id" 1800 true true (f64_ratio 8 10))) false [] [].
Definition demo_call : Call := mkCall (fun _ => Some "s1") "r1" "c1" (fun _ => 0%Z) ("t", f64_of_Z 0).
Definition user_message (content : value) : value := VObject [("content", content); ("role", VString "user")].




Lemma redact_exactly_witness :
  redact "see Ann, ok" (leaked_entities (demo_app false) "see Ann, ok") = Some "see [REDACTED], ok".
Proof.
  destruct (redact_exactly (demo_app false) "see Ann, ok") as (_ & Hr & _);
    [reflexivity|repeat constructor|apply (bool_decide_unpack _); vm_compute; exact I|].
  rewrite Hr. vm_compute. reflexivity.
Defined.

(** Content in parts, as for images, is sent as it is. *)
Lemma other_content_is_sent s rid sid now msg : message_content msg = None -> pseudonymize_message s rid sid now msg = Some (0, msg, s).
Proof. unfold pseudonymize_message. by intros ->. Qed.

Definition sent_messages (s : AppState) (body : value) : option (list value) :=
  let '(sid, s) := enter_session s demo_call 0 in
  let! (_, sent, _) := pseudonymize_messages s body "r1" sid (clock demo_call) else None in
  let! ms := vget "messages" sent else None in as_array ms.

Definition parts : value := user_message (VArray [VObject [("text", VString "Ann is here"); ("type", VString "text")]]).

Example parts_are_not_masked : sent_messages (demo_app true) (VObject [("messages", VArray [parts])]) = Some [parts].
Proof. vm_compute. reflexivity. Qed.

(** A reference is masked with a token of its own: "he", resolved to
    [PERSON_1], is sent as [PERSON_2]; and when an entity follows it the
    session records the tokens of the two the other way around. *)
Definition talk : value := VObject [("messages", VArray [user_message (VString "Ann is here"); user_message (VString "So he said to ACME.")])].

Example reference_has_its_own_token : sent_messages (demo_app true) talk =
  Some [user_message (VString "PERSON_1 is here"); user_message (VString "So PERSON_2 said to FORCED_1.")].
Proof. vm_compute. reflexivity. Qed.
Definition recorded_token (o : string) : option string :=
  let '(sid, s) := enter_session (demo_app true) demo_call 0 in
  let! (_, _, s) := pseudonymize_messages s talk "r1" sid (clock demo_call) else None in
  let! ctx := sessions (app_sessions s) !! "s1" else None in
  (fun e => token (se_token e)) <$> session_entities ctx !! o.

Example references_recorded_crosswise : recorded_token "ACME" = Some "PERSON_1" /\ recorded_token "he" = Some "PERSON_2".
Proof. split; vm_compute; reflexivity. Qed.
End Examples.
