(* ===== verification/Calendar.v ===== *)
(** * Calendar arithmetic of the offline verifier
    ([cloakpipe-verify/src/time.rs])

    Dates to days and back, RFC 3339 text and DER GeneralizedTime.  An [i64]
    is a [Z]: [rfc3339_bounds] shows that no time read from text comes near
    the limits of the type.  Rust's [/] and [%] truncate towards zero
    ([Z.quot], [Z.rem]); [div_euclid] and [rem_euclid] by a positive number
    are [Z.div] and [Z.modulo]. *)

From stdpp Require Import pretty.
From S2P Require Import Prelude Json Text.

#[local] Open Scope Z_scope.

(** ** Dates *)

Definition days_from_civil (y m d : Z) : Z :=
  let y := if m <=? 2 then y - 1 else y in
  let era := (if 0 <=? y then y else y - 399) ÷ 400 in
  let yoe := y - era * 400 in
  let doy := (153 * (if 2 <? m then m - 3 else m + 9) + 2) ÷ 5 + d - 1 in
  let doe := yoe * 365 + yoe ÷ 4 - yoe ÷ 100 + doy in
  era * 146097 + doe - 719468.

Definition civil_from_days (z : Z) : Z * Z * Z :=
  let z := z + 719468 in
  let era := (if 0 <=? z then z else z - 146096) ÷ 146097 in
  let doe := z - era * 146097 in
  let yoe := (doe - doe ÷ 1460 + doe ÷ 36524 - doe ÷ 146096) ÷ 365 in
  let y := yoe + era * 400 in
  let doy := doe - (365 * yoe + yoe ÷ 4 - yoe ÷ 100) in
  let mp := (5 * doy + 2) ÷ 153 in
  let d := doy - (153 * mp + 2) ÷ 5 + 1 in
  let m := if mp <? 10 then mp + 3 else mp - 9 in
  (if m <=? 2 then y + 1 else y, m, d).

Definition days_in_month (y m : Z) : Z :=
  if existsb (Z.eqb m) [1; 3; 5; 7; 8; 10; 12] then 31
  else if existsb (Z.eqb m) [4; 6; 9; 11] then 30
  else if ((Z.rem y 4 =? 0) && negb (Z.rem y 100 =? 0)) || (Z.rem y 400 =? 0) then 29
  else 28.

Definition unix_from_parts (y mo d h mi s : Z) : option Z :=
  if (1 <=? mo) && (mo <=? 12) && (1 <=? d) && (d <=? days_in_month y mo)
     && (0 <=? h) && (h <? 24) && (0 <=? mi) && (mi <? 60) && (0 <=? s) && (s <? 60)
  then Some (days_from_civil y mo d * 86400 + h * 3600 + mi * 60 + s)
  else None.

(** ** Text *)

(** [{n:0w}] of an [i64]: the sign counts towards the width. *)
Definition fmt_zero (w : nat) (n : Z) : string :=
  let sign := if n <? 0 then "-" else "" in
  let ds := as_bytes (pretty (Z.to_N (Z.abs n))) in
  sign +:+ from_bytes (replicate (w - str_len sign - length ds) "0"%char ++ ds).

Definition rfc3339_from_unix (t : Z) : string :=
  let '(y, m, d) := civil_from_days (t / 86400) in
  let s := t mod 86400 in
  fmt_zero 4 y +:+ "-" +:+ fmt_zero 2 m +:+ "-" +:+ fmt_zero 2 d +:+ "T" +:+
  fmt_zero 2 (s ÷ 3600) +:+ ":" +:+ fmt_zero 2 (Z.rem (s ÷ 60) 60) +:+ ":" +:+ fmt_zero 2 (Z.rem s 60) +:+ "Z".

(** [parse::<i64>()] of digits only. *)
Definition digits (b : bytes) : option Z :=
  if bool_decide (b = []) || negb (forallb is_ascii_digit b) then None
  else
    let n := Z.of_N (decimal_value 0 (from_bytes b)) in
    if n <=? I64_MAX then Some n else None.

(** [&b\[i..j\]], inside the bounds. *)
Definition sub (b : bytes) (i j : nat) : bytes := take (j - i) (drop i b).

Definition is_at (b : bytes) (i : nat) (c : ascii) : bool := bool_decide (b !! i = Some c).

Definition parts (y mo d h mi s : bytes) : option Z :=
  y ← digits y; mo ← digits mo; d ← digits d; h ← digits h; mi ← digits mi; s ← digits s;
  unix_from_parts y mo d h mi s.

(** The seconds [Z] or [±HH:MM] stands for. *)
Definition utc_offset (rest : bytes) : option Z :=
  match rest with
  | ["Z"%char] => Some 0
  | [sign; h1; h2; c; m1; m2] =>
      if bool_decide (sign ∈ ["+"%char; "-"%char]) && bool_decide (c = ":"%char) then
        h ← digits [h1; h2];
        m ← digits [m1; m2];
        if (23 <? h) || (59 <? m) then None
        else
          let o := h * 3600 + m * 60 in
          Some (if decide (sign = "+"%char) then o else - o)
      else None
  | _ => None
  end.

(** The text after the seconds without its fraction. *)
Definition skip_fraction (rest : bytes) : option bytes :=
  match bytes_strip ["."%char] rest with
  | Some frac =>
      let (ds, after) := span is_ascii_digit frac in
      if bool_decide (length ds = 0%nat) then None else Some after
  | None => Some rest
  end.

Definition parse_rfc3339_secs (s : string) : option Z :=
  let b := as_bytes s in
  if bool_decide (length b < 20)%nat || negb (is_at b 4 "-") || negb (is_at b 7 "-") || negb (is_at b 10 "T")
     || negb (is_at b 13 ":") || negb (is_at b 16 ":")
  then None
  else
    base ← parts (sub b 0 4) (sub b 5 7) (sub b 8 10) (sub b 11 13) (sub b 14 16) (sub b 17 19);
    rest ← skip_fraction (drop 19 b);
    offset ← utc_offset rest;
    Some (base - offset).

Definition parse_generalized_time (b : bytes) : option Z :=
  if bool_decide (length b < 15)%nat || negb (bool_decide (last b = Some "Z"%char)) then None
  else
    let body := take (length b - 1) b in
    let (whole, after) := span (fun c => negb (bool_decide (c = "."%char))) body in
    let frac := match after with [] => None | _ :: f => Some f end in
    if negb (bool_decide (length whole = 14%nat))
       || is_some_and frac (fun f => bool_decide (f = []) || negb (forallb is_ascii_digit f))
    then None
    else parts (sub whole 0 4) (sub whole 4 6) (sub whole 6 8) (sub whole 8 10) (sub whole 10 12) (sub whole 12 14).

(** ** Dates and days *)

Definition leap (y : Z) : Prop := y mod 4 = 0 /\ (y mod 100 <> 0 \/ y mod 400 = 0).
Definition valid_date (y m d : Z) : Prop := 1 <= m <= 12 /\ 1 <= d <= days_in_month y m.

(** Arithmetic with quotients by constants. *)
Ltac div_lia := Z.to_euclidean_division_equations; lia.

Lemma quot_div a k : 0 <= a -> 0 < k -> a ÷ k = a / k.
Proof. apply Z.quot_div_nonneg. Qed.

(** A year of the 400-year cycle begins in March; day 365 is the leap day. *)
Definition in_cycle (yoe doy : Z) : Prop := 0 <= yoe < 400 /\ 0 <= doy <= 365 /\ (doy = 365 -> leap (yoe + 1)).
Definition day_of_era (yoe doy : Z) : Z := yoe * 365 + yoe ÷ 4 - yoe ÷ 100 + doy.

Lemma year_of_day doe (yoe := (doe - doe ÷ 1460 + doe ÷ 36524 - doe ÷ 146096) ÷ 365) :
  0 <= doe < 146097 -> in_cycle yoe (doe - (365 * yoe + yoe ÷ 4 - yoe ÷ 100)).
Proof.
  intros Hd. subst yoe. rewrite !(quot_div doe) by lia.
  assert (Hy : 0 <= (doe - doe / 1460 + doe / 36524 - doe / 146096) / 365 < 400) by div_lia.
  rewrite (quot_div (_ - _)) by div_lia. rewrite !quot_div by lia. unfold in_cycle, leap. div_lia.
Qed.

Lemma day_of_year yoe doy (doe := day_of_era yoe doy) : in_cycle yoe doy ->
  0 <= doe < 146097 /\ (doe - doe ÷ 1460 + doe ÷ 36524 - doe ÷ 146096) ÷ 365 = yoe.
Proof.
  intros (Hy & Hd & Hl). subst doe. unfold leap, day_of_era in *. rewrite !(quot_div yoe) by lia.
  set (doe := _ + doy). assert (Hdoe : 0 <= doe < 146097) by (subst doe; div_lia). split; [done|].
  rewrite !(quot_div doe) by lia. rewrite quot_div by div_lia. subst doe. div_lia.
Qed.

(** The months from March on have 153 days in five. *)
Definition month_length (mp doy : Z) : Z :=
  if existsb (Z.eqb mp) [0; 2; 4; 5; 7; 9; 10] then 31
  else if existsb (Z.eqb mp) [1; 3; 6; 8] then 30 else if doy =? 365 then 29 else 28.

Lemma month_cases mp : 0 <= mp <= 11 ->
  mp = 0 \/ mp = 1 \/ mp = 2 \/ mp = 3 \/ mp = 4 \/ mp = 5 \/ mp = 6 \/ mp = 7 \/ mp = 8 \/ mp = 9 \/ mp = 10 \/ mp = 11.
Proof. lia. Qed.
Ltac each_month H := apply month_cases in H; repeat destruct H as [->|H]; try subst.

Lemma month_of_day doy (mp := (5 * doy + 2) ÷ 153) (d := doy - (153 * mp + 2) ÷ 5) : 0 <= doy <= 365 ->
  0 <= mp <= 11 /\ 0 <= d < month_length mp doy.
Proof.
  intros Hd. subst d. assert (Hm : 0 <= mp <= 11) by (subst mp; div_lia). split; [done|].
  assert (He : (5 * doy + 2) ÷ 153 = mp) by done. clearbody mp.
  each_month Hm; cbn; try destruct (Z.eqb_spec doy 365); div_lia.
Qed.

Lemma day_of_month mp d : 0 <= mp <= 11 -> 0 <= d < 31 -> (existsb (Z.eqb mp) [1; 3; 6; 8] = true -> d < 30) ->
  (mp = 11 -> d < 29) ->
  0 <= (153 * mp + 2) ÷ 5 + d <= 365 /\ (5 * ((153 * mp + 2) ÷ 5 + d) + 2) ÷ 153 = mp /\
  ((153 * mp + 2) ÷ 5 + d = 365 -> mp = 11 /\ d = 28).
Proof.
  intros Hm Hd H30 H29. each_month Hm; cbn in H30; try specialize (H30 eq_refl); div_lia.
Qed.

Lemma leap_year y : leap y <-> ((Z.rem y 4 =? 0) && negb (Z.rem y 100 =? 0)) || (Z.rem y 400 =? 0) = true.
Proof. unfold leap. rewrite orb_true_iff, andb_true_iff, negb_true_iff, Z.eqb_neq, !Z.eqb_eq. div_lia. Qed.

Lemma leap_cycle yoe era : leap (yoe + era * 400) <-> leap yoe.
Proof. unfold leap. div_lia. Qed.

(** Floored division, as the code writes it. *)
Lemma floor_400 z : (if 0 <=? z then z else z - 399) ÷ 400 = z / 400.
Proof. destruct (Z.leb_spec 0 z); div_lia. Qed.
Lemma floor_146097 z : (if 0 <=? z then z else z - 146096) ÷ 146097 = z / 146097.
Proof. destruct (Z.leb_spec 0 z); div_lia. Qed.

(** The calendar's month of the [mp]-th month from March, and back. *)
Definition month_from_march (mp : Z) : Z := if mp <? 10 then mp + 3 else mp - 9.
Lemma month_turns mp : 0 <= mp <= 11 ->
  1 <= month_from_march mp <= 12 /\
  (if 2 <? month_from_march mp then month_from_march mp - 3 else month_from_march mp + 9) = mp.
Proof. intros Hm. by each_month Hm. Qed.

Lemma month_turns_back m (mp := if 2 <? m then m - 3 else m + 9) : 1 <= m <= 12 ->
  0 <= mp <= 11 /\ month_from_march mp = m.
Proof.
  intros Hm. subst mp. unfold month_from_march. destruct (Z.ltb_spec 2 m); [rewrite (proj2 (Z.ltb_lt (m - 3) 10)) by lia; lia|].
  rewrite (proj2 (Z.ltb_ge (m + 9) 10)) by lia. lia.
Qed.

(** The year of a month counted from March. *)
Definition year_from_march (m y : Z) : Z := if m <=? 2 then y + 1 else y.
Lemma year_turns m y : (if m <=? 2 then year_from_march m y - 1 else year_from_march m y) = y.
Proof. unfold year_from_march. destruct (m <=? 2); lia. Qed.

Lemma february y :
  days_in_month y 2 = if ((Z.rem y 4 =? 0) && negb (Z.rem y 100 =? 0)) || (Z.rem y 400 =? 0) then 29 else 28.
Proof. done. Qed.

Lemma month_fits mp yoe doy era : in_cycle yoe doy -> 0 <= mp <= 11 ->
  month_length mp doy <= days_in_month (year_from_march (month_from_march mp) (yoe + era * 400)) (month_from_march mp).
Proof.
  intros (_ & _ & Hl) Hm. each_month Hm; try done.
  change (month_length 11 doy) with (if doy =? 365 then 29 else 28). change (month_from_march 11) with 2.
  unfold year_from_march. rewrite february. change (2 <=? 2) with true. cbv iota.
  replace (yoe + era * 400 + 1) with (yoe + 1 + era * 400) by lia. destruct (Z.eqb_spec doy 365) as [He|_].
  - specialize (Hl He). apply (leap_cycle _ era), leap_year in Hl. by rewrite Hl.
  - by destruct (_ || _).
Qed.

(** Every day is a date, and that date is the day. *)
Lemma civil_of_day z y m d : civil_from_days z = (y, m, d) -> valid_date y m d /\ days_from_civil y m d = z.
Proof.
  unfold civil_from_days. rewrite floor_146097. set (z0 := z + 719468). set (era := z0 / 146097).
  set (doe := z0 - era * 146097). set (yoe := _ ÷ 365). set (doy := doe - _). set (mp := _ ÷ 153).
  assert (Hz : 0 <= doe < 146097) by (subst doe era; div_lia).
  pose proof (year_of_day doe Hz) as Hc. fold yoe in Hc. fold doy in Hc.
  destruct (month_of_day doy (proj1 (proj2 Hc))) as [Hm Hd]. fold mp in Hm, Hd.
  fold (month_from_march mp). fold (year_from_march (month_from_march mp) (yoe + era * 400)).
  destruct (month_turns mp Hm) as [Hmr Hmp]. intros [= <- <- <-]. split.
  - split; [done|]. pose proof (month_fits mp yoe doy era Hc Hm). lia.
  - unfold days_from_civil. rewrite year_turns, Hmp, floor_400.
    assert (Hera : (yoe + era * 400) / 400 = era) by (destruct Hc; div_lia). rewrite Hera.
    replace (yoe + era * 400 - era * 400) with yoe by lia.
    replace ((153 * mp + 2) ÷ 5 + (doy - (153 * mp + 2) ÷ 5 + 1) - 1) with doy by lia. lia.
Qed.

(** The month counted from March, and the year it belongs to. *)
Definition march_of (m : Z) : Z := if 2 <? m then m - 3 else m + 9.
Definition march_year (m y : Z) : Z := if m <=? 2 then y - 1 else y.

Lemma day_in_year y m d : valid_date y m d ->
  0 <= march_of m <= 11 /\ 0 <= d - 1 < 31 /\ (existsb (Z.eqb (march_of m)) [1; 3; 6; 8] = true -> d - 1 < 30) /\
  (march_of m = 11 -> d - 1 < 29) /\ (march_of m = 11 -> d - 1 = 28 -> leap (march_year m y + 1)).
Proof.
  intros [Hm Hd]. assert (Hc : m = 1 \/ m = 2 \/ m = 3 \/ m = 4 \/ m = 5 \/ m = 6 \/ m = 7 \/ m = 8 \/ m = 9 \/ m = 10
    \/ m = 11 \/ m = 12) by lia.
  repeat destruct Hc as [->|Hc]; try subst m; match goal with |- context [march_of ?k] =>
    let v := eval vm_compute in (march_of k) in change (march_of k) with v end; cbn -[Z.rem leap march_year] in *.
  2: { rewrite leap_year. unfold march_year. change (2 <=? 2) with true. cbv iota. replace (y - 1 + 1) with y by lia.
       destruct (_ || _); split_and!; lia || done. }
  all: split_and!; lia || done.
Qed.

(** Every date is a day, and that day is the date. *)
Lemma day_of_civil y m d : valid_date y m d -> civil_from_days (days_from_civil y m d) = (y, m, d).
Proof.
  intros Hv. destruct (day_in_year y m d Hv) as (Hmp & Hd & H30 & H29 & Hl).
  set (y' := march_year m y) in *. set (mp := march_of m) in *.
  destruct (day_of_month mp (d - 1) Hmp Hd H30 H29) as (Hdoy & Hmonth & Hleap).
  unfold days_from_civil. fold (march_year m y) (march_of m). fold y' mp. rewrite floor_400.
  set (yoe := y' - y' / 400 * 400). set (doy := (153 * mp + 2) ÷ 5 + d - 1).
  fold (day_of_era yoe doy). assert (Hdd : (153 * mp + 2) ÷ 5 + (d - 1) = doy) by (subst doy; lia).
  rewrite Hdd in *. clearbody doy. assert (Hc : in_cycle yoe doy).
  { split_and!; [subst yoe; div_lia|subst yoe; div_lia|lia|lia|]. intros [H11 H28]%Hleap. specialize (Hl H11 H28).
    apply (leap_cycle _ (y' / 400)). by replace (yoe + 1 + y' / 400 * 400) with (y' + 1) by (subst yoe; lia). }
  destruct (day_of_year yoe doy Hc) as [Hdoe Hyoe]. unfold civil_from_days. rewrite floor_146097.
  replace (y' / 400 * 146097 + day_of_era yoe doy - 719468 + 719468) with (y' / 400 * 146097 + day_of_era yoe doy) by lia.
  assert (Hera : (y' / 400 * 146097 + day_of_era yoe doy) / 146097 = y' / 400) by div_lia. rewrite Hera.
  replace (y' / 400 * 146097 + day_of_era yoe doy - y' / 400 * 146097) with (day_of_era yoe doy) by lia.
  rewrite Hyoe. replace (day_of_era yoe doy - (365 * yoe + yoe ÷ 4 - yoe ÷ 100)) with doy by (unfold day_of_era; lia).
  rewrite Hmonth. destruct Hv as [Hm _]. destruct (month_turns_back m Hm) as [_ Hmm]. fold (march_of m) in Hmm. fold mp in Hmm.
  fold (month_from_march mp). rewrite Hmm. f_equal; [f_equal|lia].
  subst y' yoe. unfold march_year. destruct (m <=? 2); lia.
Qed.

(** ** Text *)

Lemma pretty_N_go_length x s k : (x < 10 ^ N.of_nat k)%N -> (String.length (pretty_N_go x s) <= k + String.length s)%nat.
Proof.
  revert x s. induction k as [|k IH]; intros x s Hx.
  - replace x with 0%N by (simpl in Hx; lia). by rewrite pretty_N_go_0.
  - destruct (decide (0 < x)%N) as [Hp|Hp]; [|replace x with 0%N by lia; rewrite pretty_N_go_0; lia].
    rewrite pretty_N_go_step by done. etrans; [apply IH|simpl; lia].
    apply N.Div0.div_lt_upper_bound. rewrite Nat2N.inj_succ, N.pow_succ_r' in Hx. lia.
Qed.

Lemma str_len_length s : str_len s = String.length s.
Proof. induction s as [|c s IH]; [done|]. unfold str_len in *. simpl. by rewrite IH. Qed.

Lemma pretty_N_length (n : N) k : (0 < k)%nat -> (n < 10 ^ N.of_nat k)%N -> (length (as_bytes (pretty n)) <= k)%nat.
Proof.
  intros Hk Hn. change (length (as_bytes (pretty n))) with (str_len (pretty n)). rewrite str_len_length.
  unfold pretty, pretty_N. case_decide; [simpl; lia|]. etrans; [by apply pretty_N_go_length|simpl; lia].
Qed.

(** A number that fits is written with exactly that many digits, which read
    back as the number. *)
Lemma fmt_zero_digits w n : (0 < w)%nat -> 0 <= n < 10 ^ Z.of_nat w -> n <= I64_MAX ->
  length (as_bytes (fmt_zero w n)) = w /\ digits (as_bytes (fmt_zero w n)) = Some n.
Proof.
  intros Hw Hn Hm. unfold fmt_zero. destruct (Z.ltb_spec n 0); [lia|]. rewrite Z.abs_eq by lia.
  change ("" +:+ ?x) with x. rewrite as_from_bytes. change (str_len "") with 0%nat.
  pose proof (pretty_N_length (Z.to_N n) w Hw) as Hl.
  assert (Hl' : (length (as_bytes (pretty (Z.to_N n))) <= w)%nat).
  { apply Hl. apply N2Z.inj_lt. rewrite N2Z.inj_pow, Z2N.id by lia. rewrite nat_N_Z. apply Hn. }
  split; [rewrite length_app, length_replicate; lia|]. unfold digits.
  rewrite bool_decide_eq_false_2; [|intros He; apply (f_equal length) in He; rewrite length_app, length_replicate in He; simpl in He; lia].
  rewrite forallb_app. pose proof (pretty_N_digits (Z.to_N n)) as Hd. unfold str_all in Hd. rewrite Hd, andb_true_r.
  assert (Hz : forall k, forallb is_ascii_digit (replicate k "0"%char) = true) by (by induction k as [|k IH]; [|cbn; rewrite IH]). rewrite Hz. cbn [negb orb].
  rewrite decimal_value_zeros, decimal_value_pretty, Z2N.id by lia.
  by destruct (Z.leb_spec n I64_MAX); [|lia].
Qed.

(** The years written with four digits. *)
Definition RFC3339_FIRST : Z := -62167219200. (* 0000-01-01T00:00:00Z *)
Definition RFC3339_LAST : Z := 253402300799. (* 9999-12-31T23:59:59Z *)

(** The days before March of a year, and the rest of the date. *)
Lemma days_in_order y m d (y' := march_year m y) (n := y' * 365 + y' / 4 - y' / 100 + y' / 400 - 719468) :
  valid_date y m d ->
  n + (if m <=? 2 then 306 else 0) <= days_from_civil y m d <= n + (if m <=? 2 then 365 else 305).
Proof.
  intros Hv. destruct (day_in_year y m d Hv) as (Hmp & Hd & H30 & H29 & _).
  destruct (day_of_month (march_of m) (d - 1) Hmp Hd H30 H29) as (Hdoy & _ & _).
  unfold days_from_civil. fold (march_year m y) (march_of m). fold y'. rewrite floor_400.
  set (yoe := y' - y' / 400 * 400). assert (Hyoe : 0 <= yoe < 400) by (subst yoe; div_lia).
  rewrite !(quot_div yoe) by lia.
  assert (Hn : y' / 400 * 146097 + (yoe * 365 + yoe / 4 - yoe / 100) = n + 719468) by (subst n yoe; div_lia).
  set (doy := (153 * march_of m + 2) ÷ 5 + d - 1).
  cut ((if m <=? 2 then 306 else 0) <= doy <= (if m <=? 2 then 365 else 305)); [lia|].
  assert (Hr : 0 <= doy <= 365) by (subst doy; lia). destruct Hv as [Hm _]. revert Hr. subst doy. unfold march_of.
  destruct (Z.leb_spec m 2), (Z.ltb_spec 2 m); try lia; rewrite quot_div by lia; intros; [split; [|lia]|split; [lia|]]; div_lia.
Qed.

Lemma leap_days_mono a b : a <= b -> a / 4 - a / 100 + a / 400 <= b / 4 - b / 100 + b / 400.
Proof.
  intros Hab. assert (H : forall n, n / 100 = n / 4 / 25 /\ n / 400 = n / 4 / 100).
  { intros n. rewrite !Z.div_div by lia. done. }
  destruct (H a) as [-> ->], (H b) as [-> ->]. pose proof (Z.div_le_mono a b 4 ltac:(lia) Hab). div_lia.
Qed.

Lemma new_year y : days_from_civil y 1 1 = (y - 1) * 365 + (y - 1) / 4 - (y - 1) / 100 + (y - 1) / 400 - 719468 + 306.
Proof.
  unfold days_from_civil. change (1 <=? 2) with true. change (2 <? 1) with false. cbv iota. rewrite floor_400.
  change ((153 * (1 + 9) + 2) ÷ 5) with 306. set (yoe := y - 1 - _). assert (Hyoe : 0 <= yoe < 400) by (subst yoe; div_lia).
  rewrite !(quot_div yoe) by lia. subst yoe. div_lia.
Qed.

Lemma year_of_days y m d lo hi : valid_date y m d ->
  (days_from_civil lo 1 1 <= days_from_civil y m d -> lo <= y) /\
  (days_from_civil y m d < days_from_civil hi 1 1 -> y < hi).
Proof.
  intros Hv. pose proof (days_in_order y m d Hv) as H. rewrite !new_year. unfold march_year in *.
  split; intros Hc; destruct (Z.leb_spec m 2); apply Z.nlt_ge || apply Z.nle_gt; intros Hy.
  - pose proof (leap_days_mono (y - 1) (lo - 1)). lia.
  - pose proof (leap_days_mono y (lo - 1)). lia.
  - pose proof (leap_days_mono (hi - 1) (y - 1)). lia.
  - pose proof (leap_days_mono (hi - 1) y). lia.
Qed.

Ltac destruct_length l H := repeat (destruct l as [|? l]; [try discriminate H|]); simpl in H.

(** The fields of the text by their places. *)
Lemma parse_fields (y mo d h mi s rest : bytes) :
  length y = 4%nat -> length mo = 2%nat -> length d = 2%nat -> length h = 2%nat -> length mi = 2%nat -> length s = 2%nat ->
  rest <> [] ->
  parse_rfc3339_secs (from_bytes (y ++ "-"%char :: mo ++ "-"%char :: d ++ "T"%char :: h ++ ":"%char :: mi ++ ":"%char :: s ++ rest)) =
  (base ← parts y mo d h mi s; after ← skip_fraction rest; offset ← utc_offset after; Some (base - offset)).
Proof.
  intros Hy Hmo Hd Hh Hmi Hs Hr. unfold parse_rfc3339_secs. rewrite as_from_bytes.
  destruct y as [|y1 [|y2 [|y3 [|y4 [|? y]]]]]; try discriminate Hy.
  destruct mo as [|mo1 [|mo2 [|? mo]]]; try discriminate Hmo. destruct d as [|d1 [|d2 [|? d]]]; try discriminate Hd.
  destruct h as [|h1 [|h2 [|? h]]]; try discriminate Hh. destruct mi as [|mi1 [|mi2 [|? mi]]]; try discriminate Hmi.
  destruct s as [|s1 [|s2 [|? s]]]; try discriminate Hs. destruct rest as [|r rest]; [done|].
  rewrite bool_decide_eq_false_2 by (simpl; lia). reflexivity.
Qed.

Lemma unix_of_valid y m d h mi s : valid_date y m d -> 0 <= h < 24 -> 0 <= mi < 60 -> 0 <= s < 60 ->
  unix_from_parts y m d h mi s = Some (days_from_civil y m d * 86400 + h * 3600 + mi * 60 + s).
Proof.
  intros [Hm Hd] Hh Hmi Hs. unfold unix_from_parts. rewrite (proj2 (andb_true_iff _ _)); [done|].
  rewrite !andb_true_iff, !Z.leb_le, !Z.ltb_lt. lia.
Qed.

Lemma unix_Some y m d h mi s t : unix_from_parts y m d h mi s = Some t ->
  valid_date y m d /\ 0 <= h < 24 /\ 0 <= mi < 60 /\ 0 <= s < 60 /\ t = days_from_civil y m d * 86400 + h * 3600 + mi * 60 + s.
Proof.
  unfold unix_from_parts, valid_date. destruct (_ && _) eqn:Hc; [|done]. intros [= <-].
  rewrite !andb_true_iff, !Z.leb_le, !Z.ltb_lt in Hc. lia.
Qed.

(** The time an RFC 3339 text is written for is the time it is read as,
    for every second of the years 0 to 9999: the calendar arithmetic, the
    fixed-width digits and the parser agree. *)
Theorem rfc3339_round_trip (t : Z) (Ht : RFC3339_FIRST <= t <= RFC3339_LAST) :
  parse_rfc3339_secs (rfc3339_from_unix t) = Some t.
Proof.
  unfold rfc3339_from_unix. destruct (civil_from_days (t / 86400)) as [[y m] d] eqn:Hc.
  destruct (civil_of_day _ _ _ _ Hc) as [Hv Hdays]. destruct (year_of_days y m d 0 10000 Hv) as [Hlo Hhi].
  change (days_from_civil 0 1 1) with (-719528) in Hlo. change (days_from_civil 10000 1 1) with 2932897 in Hhi.
  unfold RFC3339_FIRST, RFC3339_LAST in Ht. rewrite Hdays in Hlo, Hhi.
  specialize (Hlo ltac:(apply Z.div_le_lower_bound; lia)). specialize (Hhi ltac:(apply Z.div_lt_upper_bound; lia)).
  assert (Hs : 0 <= t mod 86400 < 86400) by (apply Z.mod_pos_bound; lia). set (s := t mod 86400) in *.
  assert (Hh : 0 <= s ÷ 3600 < 24) by div_lia. assert (Hmi : 0 <= Z.rem (s ÷ 60) 60 < 60) by div_lia.
  assert (Hss : 0 <= Z.rem s 60 < 60) by div_lia. pose proof Hv as [Hm Hd].
  assert (Hd31 : days_in_month y m <= 31) by (unfold days_in_month; repeat case_match; lia).
  destruct (fmt_zero_digits 4 y) as [Ly Dy]; [lia|cbn; lia|unfold I64_MAX; lia|].
  assert (H2 : forall n, 0 <= n < 100 -> length (as_bytes (fmt_zero 2 n)) = 2%nat /\ digits (as_bytes (fmt_zero 2 n)) = Some n).
  { intros n Hn. apply fmt_zero_digits; [lia|cbn; lia|unfold I64_MAX; lia]. }
  destruct (H2 m) as [Lm Dm]; [lia|]. destruct (H2 d) as [Ld Dd]; [lia|]. destruct (H2 (s ÷ 3600)) as [Lh Dh]; [lia|].
  destruct (H2 (Z.rem (s ÷ 60) 60)) as [Lmi Dmi]; [lia|]. destruct (H2 (Z.rem s 60)) as [Ls Ds]; [lia|].
  rewrite <- (from_as_bytes (_ +:+ _)), !as_bytes_app. cbn [as_bytes String.list_ascii_of_string app].
  rewrite parse_fields by done. unfold parts. rewrite Dy, Dm, Dd, Dh, Dmi, Ds. cbn [mbind option_bind].
  rewrite unix_of_valid, Hdays by done. set (n := _ + _). change (Some (n - 0) = Some t). rewrite Z.sub_0_r. f_equal.
  pose proof (Z.div_mod t 86400 ltac:(lia)) as Ht'. fold s in Ht'. subst n. clearbody s. clear - Ht' Hs.
  rewrite Ht' at 2. div_lia.
Qed.

Lemma digit_bound c : is_ascii_digit c = true -> (N_of_ascii c - 48 < 10)%N.
Proof. unfold is_ascii_digit, in_range, byte_val. rewrite andb_true_iff, !Z.leb_le. change (N_of_ascii "9") with 57%N. lia. Qed.

Lemma decimal_value_bound acc b : forallb is_ascii_digit b = true ->
  (decimal_value acc (from_bytes b) < (acc + 1) * 10 ^ N.of_nat (length b))%N.
Proof.
  revert acc. induction b as [|c b IH]; intros acc; simpl; [lia|]. intros [Hc Hb]%andb_true_iff.
  eapply N.lt_le_trans; [by apply IH|]. pose proof (digit_bound c Hc). rewrite Nat2N.inj_succ, N.pow_succ_r', N.mul_assoc.
  apply N.mul_le_mono_r. lia.
Qed.

Lemma digits_Some b n : digits b = Some n -> 0 <= n < 10 ^ Z.of_nat (length b).
Proof.
  unfold digits. destruct (bool_decide (b = []) || _) eqn:Hb; [done|]. apply orb_false_iff in Hb as [_ Hb%negb_false_iff].
  destruct (_ <=? _); [|done]. intros [= <-]. pose proof (decimal_value_bound 0 b Hb) as H.
  split; [lia|]. rewrite <- nat_N_Z, <- (N2Z.inj_pow 10). lia.
Qed.

Lemma parts_bounds y mo d h mi s t : length y = 4%nat -> parts y mo d h mi s = Some t -> RFC3339_FIRST <= t <= RFC3339_LAST.
Proof.
  intros Hl. unfold parts. intros H. repeat apply bind_Some in H as (? & ? & H).
  match goal with Hy : digits y = Some ?v |- _ => apply digits_Some in Hy; rewrite Hl in Hy; change (10 ^ Z.of_nat 4) with 10000 in Hy end.
  apply unix_Some in H as (Hv & Hh & Hmi & Hs & ->). pose proof (days_in_order _ _ _ Hv) as Hd. unfold RFC3339_FIRST, RFC3339_LAST.
  match type of Hd with context [march_year ?m ?y] =>
    assert (Hm : march_year m y = if m <=? 2 then y - 1 else y) by done; rewrite Hm in Hd; destruct (m <=? 2) end;
  match goal with Hy : 0 <= ?y < 10000 |- _ =>
    pose proof (leap_days_mono (-1) (y - 1)); pose proof (leap_days_mono 0 y); pose proof (leap_days_mono y 9999);
    pose proof (leap_days_mono (y - 1) 9998) end; div_lia.
Qed.

Lemma utc_offset_bound rest o : utc_offset rest = Some o -> -86340 <= o <= 86340.
Proof.
  assert (Hz : forall m1 m2 h1 h2 f, (h ← digits [h1; h2]; m ← digits [m1; m2];
    if (23 <? h) || (59 <? m) then None else Some (if decide (f = "+"%char) then h * 3600 + m * 60 else - (h * 3600 + m * 60))) = Some o ->
    -86340 <= o <= 86340).
  { intros m1 m2 h1 h2 f (h & Hh%digits_Some & (m & Hm%digits_Some & H)%bind_Some)%bind_Some.
    destruct (_ || _) eqn:Hc; [done|]. apply orb_false_iff in Hc as [Hc1%Z.ltb_ge Hc2%Z.ltb_ge].
    injection H as <-. case_decide; lia. }
  unfold utc_offset. destruct rest as [|a [|b [|c [|d [|e [|f [|? ?]]]]]]]; try done;
    try (by destruct a as [[] [] [] [] [] [] [] []]).
  - destruct a as [[] [] [] [] [] [] [] []]; intros H; simplify_eq; lia.
  - assert (Hn : (if bool_decide (a ∈ ["+"%char; "-"%char]) && bool_decide (d = ":"%char) then
      (h ← digits [b; c]; m ← digits [e; f];
       if (23 <? h) || (59 <? m) then None
       else Some (if decide (a = "+"%char) then h * 3600 + m * 60 else - (h * 3600 + m * 60))) else None) = Some o -> -86340 <= o <= 86340).
    { destruct (_ && _); [by apply Hz|done]. }
    by destruct a as [[] [] [] [] [] [] [] []].
Qed.

(** No time read from text is more than a day outside the years 0 to 9999,
    so the arithmetic on it stays far inside [i64]. *)
Theorem rfc3339_bounds (s : string) (t : Z) (Ht : parse_rfc3339_secs s = Some t) :
  RFC3339_FIRST - 86340 <= t <= RFC3339_LAST + 86340.
Proof.
  unfold parse_rfc3339_secs in Ht. destruct (_ || _) eqn:Hc in Ht; [done|].
  apply bind_Some in Ht as (base & Hb & Ht). apply bind_Some in Ht as (rest & _ & Ht).
  apply bind_Some in Ht as (o & Ho%utc_offset_bound & [= <-]). apply parts_bounds in Hb; [lia|].
  rewrite !orb_false_iff, bool_decide_eq_false in Hc. unfold sub. rewrite length_take, length_drop. lia.
Qed.

(** The two readers agree: the same digits as GeneralizedTime and as RFC 3339
    are the same time. *)
Theorem generalized_time_agrees (y mo d h mi s : bytes)
  (Hy : length y = 4%nat) (Hmo : length mo = 2%nat) (Hd : length d = 2%nat) (Hh : length h = 2%nat) (Hmi : length mi = 2%nat)
  (Hs : length s = 2%nat) (digits_only : forallb is_ascii_digit (y ++ mo ++ d ++ h ++ mi ++ s) = true) :
  parse_generalized_time (y ++ mo ++ d ++ h ++ mi ++ s ++ ["Z"%char]) =
  parse_rfc3339_secs (from_bytes (y ++ "-"%char :: mo ++ "-"%char :: d ++ "T"%char :: h ++ ":"%char :: mi ++ ":"%char :: s ++ ["Z"%char])).
Proof.
  rewrite parse_fields by done. unfold parse_generalized_time. set (b := y ++ mo ++ d ++ h ++ mi ++ s) in *.
  assert (Hb : y ++ mo ++ d ++ h ++ mi ++ s ++ ["Z"%char] = b ++ ["Z"%char]) by (subst b; by rewrite <- !app_assoc). rewrite Hb.
  assert (Hl : length b = 14%nat) by (subst b; rewrite !length_app; lia).
  rewrite bool_decide_eq_false_2 by (rewrite length_app; simpl; lia). rewrite last_snoc, bool_decide_eq_true_2 by done. cbn [negb orb].
  rewrite length_app, Nat.add_sub, take_app_length, span_nil.
  - rewrite bool_decide_eq_true_2 by done. cbn [negb orb is_some_and]. subst b.
    destruct y as [|y1 [|y2 [|y3 [|y4 [|? y]]]]]; try discriminate Hy.
    destruct mo as [|mo1 [|mo2 [|? mo]]]; try discriminate Hmo. destruct d as [|d1 [|d2 [|? d]]]; try discriminate Hd.
    destruct h as [|h1 [|h2 [|? h]]]; try discriminate Hh. destruct mi as [|mi1 [|mi2 [|? mi]]]; try discriminate Hmi.
    destruct s as [|s1 [|s2 [|? s]]]; try discriminate Hs. cbn -[parts]. cbn [sub take drop Nat.sub].
    destruct (parts _ _ _ _ _ _) as [t|]; [|done]. simpl. by rewrite Z.sub_0_r.
  - apply Is_true_true, forallb_True in digits_only. eapply Forall_impl; [exact digits_only|]. intros c Hc.
    apply negb_true_iff, bool_decide_eq_false. by intros ->.
Qed.

Lemma rfc3339_round_trip_witness : parse_rfc3339_secs (rfc3339_from_unix 951782400) = Some 951782400.
Proof. apply (rfc3339_round_trip 951782400). unfold RFC3339_FIRST, RFC3339_LAST. lia. Qed.

(** The forms of the unit tests. *)
Example rfc3339_forms :
  rfc3339_from_unix 1782993600 = "2026-07-02T12:00:00Z" /\
  map parse_rfc3339_secs ["2026-07-02T12:00:00.999Z"; "2026-07-02T17:30:00+05:30"; "2026-07-02T12:00:00+00:00"] =
    replicate 3 (Some 1782993600) /\
  Forall (fun s => parse_rfc3339_secs s = None)
    [""; "2026-07-02"; "2026-07-02T12:00:00"; "2026-13-02T12:00:00Z"; "2026-02-30T12:00:00Z"; "2026-07-02T24:00:00Z";
     "2026-07-02T12:00:60Z"; "2026-07-02T12:00:00.Z"; "2026-07-02T12:00:00+5:00"; "2026-07-02 12:00:00Z"; "+026-07-02T12:00:00Z"].
Proof. split_and!; [done..|]. by repeat constructor. Qed.
