(* ===== verification/VerifyCrates.v ===== *)
(** * Crates only the offline verifier calls

    Interfaces as in [Crates.v], with small stand-ins that show the laws can
    hold. *)

From S2P Require Import Prelude Json Crates Concrete.

(** [ed25519_dalek]: a public key is a valid point or not; [verify] is the
    check of RFC 8032, [verify_prehashed_strict] that of Ed25519ph. *)
Class VerifierCrate := {
  VerifyingKey : Type;
  verifying_key_from_bytes : bytes -> option VerifyingKey;
  verifying_key_to_bytes : VerifyingKey -> bytes;
  ed25519_verify : VerifyingKey -> bytes -> bytes -> bool; (* key, message, 64-byte signature *)
  ed25519ph_verify_strict : VerifyingKey -> bytes -> bytes -> bool; (* key, message before SHA-512, signature *)
}.

(** The public key of a signing key is valid, and what the key signs
    verifies. *)
Class VerifierLaws `{SignatureCrates} `{VerifierCrate} := {
  verifying_key_valid k : exists vk, verifying_key_from_bytes (verifying_key k) = Some vk /\
    verifying_key_to_bytes vk = verifying_key k /\ forall m, ed25519_verify vk m (ed25519_sign k m) = true;
}.

(** [sha2]: SHA-512. *)
Class Sha512Crate := { sha512 : bytes -> bytes }.

(** [p256]: ECDSA over P-256 with SHA-256; a signature is read from DER. *)
Class P256Crate := {
  P256Key : Type;
  P256Signature : Type;
  p256_key_from_sec1 : bytes -> option P256Key;
  p256_signature_from_der : bytes -> option P256Signature;
  p256_verify : P256Key -> bytes -> P256Signature -> bool;
}.

(** [der] and [spki]: a PEM block's label and content, and a
    SubjectPublicKeyInfo. *)
Record Spki := mkSpki {
  spki_oid : string;
  spki_curve : option string; (* the parameters, if they are an object identifier *)
  spki_has_parameters : bool;
  spki_key : option bytes; (* the key bits, if they are whole bytes *)
}.
Class DerCrates := {
  pem_decode : bytes -> option (string * bytes);
  spki_from_der : bytes -> option Spki;
  spki_to_der : Spki -> option bytes;
}.

Module ToyVerify.
Import Toy.

(** A stand-in key is its 32 bytes: [toy_signatures] signs with the same
    bytes. *)
#[export] Instance toy_verifier : VerifierCrate := {|
  VerifyingKey := bytes;
  verifying_key_from_bytes b := Some b;
  verifying_key_to_bytes k := k;
  ed25519_verify k m s := bool_decide (s = little_endian 64 (checksum (k ++ m)));
  ed25519ph_verify_strict k m s := bool_decide (s = little_endian 64 (checksum (m ++ k)));
|}.

#[export] Instance toy_verifier_laws : VerifierLaws.
Proof. constructor. intros k. exists k. split_and!; [done..|]. intros m. by apply bool_decide_eq_true. Qed.

#[export] Instance toy_sha512 : Sha512Crate := {| sha512 b := little_endian 64 (checksum b) |}.
#[export] Instance toy_p256 : P256Crate := {|
  P256Key := bytes;
  P256Signature := bytes;
  p256_key_from_sec1 b := Some b;
  p256_signature_from_der b := Some b;
  p256_verify k m s := bool_decide (s = little_endian 8 (checksum (k ++ m)));
|}.
End ToyVerify.
