(* ===== verification/OfflineDecisions.v ===== *)
(** * Decision entries verified offline ([cloakpipe-verify/src/decisions.rs])

    The verifier's own reading of the decision ledger: chain, hashes and
    signatures of a run of entries given as JSON, against trusted public
    keys, and the counts it reports.  It shares no code with the ledger, so
    the two are modelled apart and compared by theorems: [canonical] is the
    ledger's canonical text, a run is accepted exactly when it is a signed
    chain ([verify_decisions_exactly]), and whatever the gate appends is
    accepted under its key ([gate_ledger_verifies]).

    The texts of parse errors are left out.  [p_seq + 1] wraps, as in a
    release build; a debug build stops instead after entry [2^64 - 1]. *)

From S2P Require Import Prelude BTree Json Text Crates Concrete Action Ledger CanonicalJson Stream Decisions VerifyCrates.

Definition DECISION_KIND : string := "cloakpipe.decision/v1".
Definition DECISION_HASH_DOMAIN : string := "cloakpipe.decision.v1".
Definition GENESIS : string := "0000000000000000000000000000000000000000000000000000000000000000".

Inductive DecisionError :=
| Malformed (line : nat)
| NoKeys
| Kind (seq : Z)
| Field (index : nat) (field : string)
| SeqGap (expected actual : Z)
| PrevHash (seq : Z)
| EntryHash (seq : Z)
| UnknownSigner (seq : Z) (signer : string)
| BadSignature (seq : Z).

Record DecisionSummary := mkSummary {
  s_entries : nat;
  s_first_seq : option Z;
  s_last_seq : option Z;
  s_from_genesis : bool;
  s_head : string;
  s_allowed : nat;
  s_denied : nat;
  s_approvals_required : nat;
  s_shadow : nat;
  s_committed_outcomes : nat;
  s_failed_outcomes : nat;
  s_unknown_outcomes : nat;
  s_reconciled : nat;
}.

(** ** Reading *)

Section Parse.
Context {JC : JsonCrates}.

Fixpoint parse_lines (i : nat) (ls : list string) : result DecisionError (list value) :=
  match ls with
  | [] => Ok []
  | line :: ls =>
      if is_blank line then parse_lines (S i) ls
      else
        let! v := json_from_slice (as_bytes line) else Err (Malformed (i + 1)) in
        if negb (is_object v) then Err (Malformed (i + 1))
        else let? vs := parse_lines (S i) ls in Ok (v :: vs)
  end.
Definition parse_jsonl (text : string) : result DecisionError (list value) := parse_lines 0 (lines text).
End Parse.

(** [v.get(k).and_then(Value::as_str)] and [as_u64]. *)
Definition get_str (k : string) (v : value) : option string := let! x := vget k v else None in as_str x.
Definition get_u64 (k : string) (v : value) : option Z :=
  match vget k v with Some (VNumber n) => Json.as_u64 n | _ => None end.

(** ** Hashes and keys *)

Section Hash.
Context {ST : SerdeText} {HC : HashCrates}.

Definition keyid (public : bytes) : string :=
  "ed25519:" +:+ from_bytes (take 16 (as_bytes (hex_encode (sha256 public)))).

(** The members are sorted by name on the way. *)
Fixpoint canonical (v : value) : bytes :=
  match v with
  | VObject o =>
      "{"%char ::
      comma_separated (map (fun kv => serde_text (VString kv.1) ++ ":"%char :: kv.2)
                         (BTree.of_list (map (fun kv => (kv.1, canonical kv.2)) o)))
      ++ ["}"%char]
  | VArray a => "["%char :: comma_separated (map canonical a) ++ ["]"%char]
  | other => serde_text other
  end.

Definition entry_hash (entry : value) : bytes :=
  sha256 (as_bytes (DECISION_HASH_DOMAIN +:+ NL) ++
    canonical match entry with
              | VObject o => VObject (BTree.remove "sig" (BTree.remove "entry_hash" o))
              | other => other
              end).
End Hash.

(** ** Counting *)

Definition incr_if (b : bool) (n : nat) : nat := if b then S n else n.

(** [field(k) == x], where a missing member reads as the empty string. *)
Definition member_is (k x : string) (e : value) : bool := bool_decide (default "" (get_str k e) = x).
Definition decided (d : string) (e : value) : bool :=
  (member_is "event" "call" e || member_is "event" "replay" e) && member_is "decision" d e.
Definition outcome_is (o : string) (e : value) : bool :=
  negb (member_is "event" "reconcile" e || member_is "event" "replay" e) && member_is "outcome" o e.

Definition tally (s : DecisionSummary) (e : value) : DecisionSummary :=
  mkSummary (s_entries s) (s_first_seq s) (s_last_seq s) (s_from_genesis s) (s_head s)
    (incr_if (decided "allow" e) (s_allowed s)) (incr_if (decided "deny" e) (s_denied s))
    (incr_if (decided "require_approval" e) (s_approvals_required s)) (incr_if (member_is "mode" "shadow" e) (s_shadow s))
    (incr_if (outcome_is "committed" e) (s_committed_outcomes s)) (incr_if (outcome_is "failed" e) (s_failed_outcomes s))
    (incr_if (outcome_is "unknown" e) (s_unknown_outcomes s)) (incr_if (member_is "event" "reconcile" e) (s_reconciled s)).

(** ** Verification *)

Definition empty_summary : DecisionSummary := mkSummary 0 None None false GENESIS 0 0 0 0 0 0 0 0.

Definition set_first (seq : Z) (s : DecisionSummary) : DecisionSummary :=
  mkSummary (s_entries s) (Some seq) (s_last_seq s) (seq =? 0)%Z (s_head s) (s_allowed s) (s_denied s)
    (s_approvals_required s) (s_shadow s) (s_committed_outcomes s) (s_failed_outcomes s) (s_unknown_outcomes s) (s_reconciled s).
Definition set_last (seq : Z) (head : string) (s : DecisionSummary) : DecisionSummary :=
  mkSummary (S (s_entries s)) (s_first_seq s) (Some seq) (s_from_genesis s) head (s_allowed s) (s_denied s)
    (s_approvals_required s) (s_shadow s) (s_committed_outcomes s) (s_failed_outcomes s) (s_unknown_outcomes s) (s_reconciled s).

Section Verify.
Context {ST : SerdeText} {HC : HashCrates} {VC : VerifierCrate}.

Definition trusted_keys (trusted : list bytes) : btree VerifyingKey :=
  BTree.of_list (omap (fun k => (fun vk => (keyid k, vk)) <$> verifying_key_from_bytes k) trusted).

(** The continuity of an entry with the one before, and the summary. *)
Definition follows (prev : option (Z * string)) (seq : Z) (prev_hash : string) (s : DecisionSummary) :
    result DecisionError DecisionSummary :=
  match prev with
  | None =>
      if (seq =? 0)%Z && negb (bool_decide (prev_hash = GENESIS)) then Err (PrevHash seq) else Ok (set_first seq s)
  | Some (p_seq, p_hash) =>
      let next := ((p_seq + 1) mod 2^64)%Z in
      if negb (seq =? next)%Z then Err (SeqGap next seq)
      else if negb (bool_decide (prev_hash = p_hash)) then Err (PrevHash seq)
      else Ok s
  end.

Definition signature_ok (vk : VerifyingKey) (digest : bytes) (sig : string) : bool :=
  is_some_and (hex_decode sig) (fun b => bool_decide (length b = 64) && ed25519_verify vk digest b).

(** One turn of the loop. *)
Definition verify_entry (keys : btree VerifyingKey) (index : nat) (prev : option (Z * string)) (s : DecisionSummary) (e : value) :
    result DecisionError (DecisionSummary * (Z * string)) :=
  let str_field field := ok_or (get_str field e) (Field index field) in
  let? seq := ok_or (get_u64 "seq" e) (Field index "seq") in
  if negb (bool_decide (get_str "kind" e = Some DECISION_KIND)) then Err (Kind seq)
  else
    let? prev_hash := str_field "prev_hash" in
    let? s := follows prev seq prev_hash s in
    let? recorded := str_field "entry_hash" in
    let computed := entry_hash e in
    if negb (bool_decide (recorded = hex_encode computed)) then Err (EntryHash seq)
    else
      let? signer := str_field "signer" in
      let! vk := BTree.get signer keys else Err (UnknownSigner seq signer) in
      let? sig := str_field "sig" in
      if negb (signature_ok vk computed sig) then Err (BadSignature seq)
      else Ok (set_last seq recorded (tally s e), (seq, recorded)).

Fixpoint verify_entries (keys : btree VerifyingKey) (index : nat) (prev : option (Z * string)) (s : DecisionSummary)
    (es : list value) : result DecisionError DecisionSummary :=
  match es with
  | [] => Ok s
  | e :: es =>
      let? (s, last) := verify_entry keys index prev s e in
      verify_entries keys (S index) (Some last) s es
  end.

Definition verify_decisions (entries : list value) (trusted : list bytes) : result DecisionError DecisionSummary :=
  if bool_decide (trusted = []) then Err NoKeys
  else verify_entries (trusted_keys trusted) 0 None empty_summary entries.
End Verify.

(** ** The verifier's canonical text is the ledger's *)

Lemma insert_last {A} (m : btree A) k x : Forall (fun k' => str_lt k' k) (BTree.keys m) -> BTree.insert k x m = m ++ [(k, x)].
Proof.
  induction m as [|[k' y] m IH]; [done|]. intros [Hk Hm]%Forall_cons. simpl in *. destruct Hk as [Hle Hne].
  rewrite decide_False by done. rewrite decide_False; [by rewrite IH|].
  intros [Hle' _]. apply Hne. by apply (anti_symm String.le).
Qed.

Lemma of_list_wf {A} (m : btree A) : BTree.wf m -> BTree.of_list m = m.
Proof.
  unfold BTree.of_list. induction m as [|[k x] m IH] using rev_ind; [done|]. intros Hw. rewrite fold_left_app. simpl.
  unfold BTree.wf, BTree.keys in *. rewrite fmap_app in Hw. apply StronglySorted_app in Hw as (Hlt & Hm & _).
  rewrite IH by done. apply insert_last. apply Forall_forall. intros k' Hk'. apply Hlt; [done|]. by left.
Qed.

Section Same.
Context {ST : SerdeText} {HC : HashCrates}.

Lemma canonical_same v : value_wf v = true -> canonical v = canonical_json v.
Proof.
  induction v as [|b|n|s|a IH|o IH] using value_ind; simpl; intros Hw; try done.
  - do 2 f_equal. f_equal. apply forallb_Forall in Hw. induction Hw as [|x a Hx _ IHa]; [done|].
    apply Forall_cons in IH as [IH1 IH2]. simpl. by rewrite IH1, IHa.
  - apply andb_true_iff in Hw as [Hs%bool_decide_eq_true Hw%forallb_Forall]. rewrite of_list_wf.
    + rewrite map_map. do 2 f_equal. f_equal. clear Hs. induction Hw as [|[k x] o Hx _ IHo]; [done|].
      apply Forall_cons in IH as [IH1 IH2]. simpl in *. by rewrite IH1, IHo.
    + unfold BTree.wf. by rewrite keys_map.
Qed.

Lemma entry_hash_same v : value_wf v = true -> entry_hash v = entry_hash_of v.
Proof.
  intros Hw. unfold entry_hash, entry_hash_of, domain_hash, domain_text. f_equal. f_equal. apply canonical_same.
  destruct v as [| | | | |o]; try done. cbn [covered value_wf] in *. rewrite andb_true_iff, bool_decide_eq_true, forallb_Forall in *.
  destruct Hw as [Hs Hw]. split; [by apply BTree.wf_remove, BTree.wf_remove|].
  rewrite Forall_forall in *. intros x Hx%remove_elem%remove_elem. by apply Hw.
Qed.
End Same.

(** ** What an accepted run is *)

Section Spec.
Context {ST : SerdeText} {HC : HashCrates} {VC : VerifierCrate}.

(** Some trusted key the entry names made a signature of its hash. *)
Definition signed_by_trusted (trusted : list bytes) (e : value) : Prop :=
  exists public vk sig b, public ∈ trusted /\ verifying_key_from_bytes public = Some vk /\
    get_str "signer" e = Some (keyid public) /\ get_str "sig" e = Some sig /\
    hex_decode sig = Some b /\ length b = 64 /\ ed25519_verify vk (entry_hash e) b = true.

(** An entry with its sequence number, the hash before it and its own. *)
Record entry_ok (signed : value -> Prop) (e : value) (seq : Z) (before h : string) : Prop := {
  ok_kind : get_str "kind" e = Some DECISION_KIND;
  ok_seq : get_u64 "seq" e = Some seq;
  ok_before : get_str "prev_hash" e = Some before;
  ok_hash : get_str "entry_hash" e = Some h;
  ok_covers : h = hex_encode (entry_hash e);
  ok_signed : signed e;
}.

(** The first entry may continue any chain, unless it is entry 0. *)
Definition continues (prev : option (Z * string)) (seq : Z) (before : string) : Prop :=
  match prev with
  | None => seq = 0%Z -> before = GENESIS
  | Some (p_seq, p_hash) => seq = ((p_seq + 1) mod 2^64)%Z /\ before = p_hash
  end.

Fixpoint run_ok (signed : value -> Prop) (prev : option (Z * string)) (es : list value) : Prop :=
  match es with
  | [] => True
  | e :: es =>
      exists seq before h, entry_ok signed e seq before h /\ continues prev seq before /\
        run_ok signed (Some (seq, h)) es
  end.

Definition count (p : value -> bool) (es : list value) : nat := length (filter (fun e => p e = true) es).

(** The summary after a run, from the one before. *)
Definition plus_run (s : DecisionSummary) (es : list value) : DecisionSummary :=
  mkSummary (s_entries s + length es) (s_first_seq s)
    (match last es with Some e => get_u64 "seq" e | None => s_last_seq s end) (s_from_genesis s)
    (match last es with Some e => default "" (get_str "entry_hash" e) | None => s_head s end)
    (s_allowed s + count (decided "allow") es) (s_denied s + count (decided "deny") es)
    (s_approvals_required s + count (decided "require_approval") es) (s_shadow s + count (member_is "mode" "shadow") es)
    (s_committed_outcomes s + count (outcome_is "committed") es) (s_failed_outcomes s + count (outcome_is "failed") es)
    (s_unknown_outcomes s + count (outcome_is "unknown") es) (s_reconciled s + count (member_is "event" "reconcile") es).

Definition summary_of (es : list value) : DecisionSummary :=
  plus_run match es with
           | e :: _ => set_first (default 0%Z (get_u64 "seq" e)) empty_summary
           | [] => empty_summary
           end es.
End Spec.

Section Exact.
Context {ST : SerdeText} {HC : HashCrates} {VC : VerifierCrate}.

Lemma count_cons p e es : count p (e :: es) = (if p e then 1 else 0) + count p es.
Proof. unfold count. rewrite filter_cons. by destruct (p e). Qed.

Lemma plus_run_nil s : plus_run s [] = s.
Proof. destruct s. unfold plus_run, count. cbn. f_equal; lia. Qed.

Lemma plus_run_cons s e es seq h : get_u64 "seq" e = Some seq -> get_str "entry_hash" e = Some h ->
  plus_run (set_last seq h (tally s e)) es = plus_run s (e :: es).
Proof.
  intros Hs Hh. unfold plus_run. rewrite !count_cons. cbn [set_last tally s_entries s_first_seq s_last_seq s_from_genesis
    s_head s_allowed s_denied s_approvals_required s_shadow s_committed_outcomes s_failed_outcomes s_unknown_outcomes
    s_reconciled length].
  assert (Hi : forall b n m, incr_if b n + m = n + ((if b then 1 else 0) + m)) by (intros [] n m; simpl; lia).
  rewrite !Hi. destruct (last es) as [e'|] eqn:He.
  - assert (last (e :: es) = Some e') as -> by by destruct es. f_equal. lia.
  - apply last_None in He as ->. cbn. rewrite Hs, Hh. f_equal. lia.
Qed.

Lemma get_of_list_elem {A} (l : btree A) k x : (k, x) ∈ l -> (forall y, (k, y) ∈ l -> y = x) ->
  BTree.get k (BTree.of_list l) = Some x.
Proof.
  induction l as [|[k' y] l IH] using rev_ind; [by intros ?%elem_of_nil|]. intros Hin Hf.
  rewrite of_list_snoc, BTree.get_insert by apply BTree.wf_of_list. case_decide as Hk.
  - subst. f_equal. apply Hf. apply elem_of_app. right. by left.
  - apply IH; [|intros z Hz; apply Hf, elem_of_app; by left].
    apply elem_of_app in Hin as [|[=]%list_elem_of_singleton]; done.
Qed.

(** Distinct trusted keys have distinct identifiers (64 bits of SHA-256). *)
Definition distinct_keyids (trusted : list bytes) : Prop :=
  forall a b, a ∈ trusted -> b ∈ trusted -> keyid a = keyid b -> a = b.

Lemma trusted_key_Some trusted signer vk : BTree.get signer (trusted_keys trusted) = Some vk ->
  exists public, public ∈ trusted /\ verifying_key_from_bytes public = Some vk /\ signer = keyid public.
Proof.
  intros (public & Hin & H)%get_of_list_Some%list_elem_of_omap.
  destruct (verifying_key_from_bytes public) as [vk'|] eqn:Hv; [|done]. injection H as <- ->. eauto.
Qed.

Lemma trusted_key_get trusted public vk : distinct_keyids trusted -> public ∈ trusted ->
  verifying_key_from_bytes public = Some vk -> BTree.get (keyid public) (trusted_keys trusted) = Some vk.
Proof.
  intros Hd Hin Hv. apply get_of_list_elem.
  - apply list_elem_of_omap. exists public. by rewrite Hv.
  - intros vk' (public' & Hin' & H)%list_elem_of_omap.
    destruct (verifying_key_from_bytes public') as [vk''|] eqn:Hv'; [|done]. apply (inj Some), pair_eq in H as [Hk <-].
    apply Hd in Hk as ->; [congruence|done..].
Qed.

Definition signed_under (keys : btree VerifyingKey) (e : value) : Prop :=
  exists signer vk sig, get_str "signer" e = Some signer /\ BTree.get signer keys = Some vk /\
    get_str "sig" e = Some sig /\ signature_ok vk (entry_hash e) sig = true.

Lemma signed_under_trusted trusted e :
  (signed_under (trusted_keys trusted) e -> signed_by_trusted trusted e) /\
  (distinct_keyids trusted -> signed_by_trusted trusted e -> signed_under (trusted_keys trusted) e).
Proof.
  split.
  - intros (signer & vk & sig & Hs & (public & Hin & Hv & ->)%trusted_key_Some & Hsig & Hok).
    unfold signature_ok in Hok. apply is_some_and_true in Hok as (b & Hb & [Hl%bool_decide_eq_true Hok]%andb_true_iff).
    by exists public, vk, sig, b.
  - intros Hd (public & vk & sig & b & Hin & Hv & Hs & Hsig & Hb & Hl & Hok).
    exists (keyid public), vk, sig. split_and!; [done|by apply trusted_key_get|done|].
    unfold signature_ok. rewrite Hb. cbn. by rewrite bool_decide_eq_true_2, Hok.
Qed.

Lemma follows_exactly prev seq before s s' :
  follows prev seq before s = Ok s' <->
  continues prev seq before /\ s' = match prev with None => set_first seq s | Some _ => s end.
Proof.
  unfold follows, continues. destruct prev as [[p h]|].
  - destruct (Z.eqb_spec seq ((p + 1) mod 2 ^ 64)); simpl; [|naive_solver]. case_bool_decide; simpl; naive_solver.
  - destruct (Z.eqb_spec seq 0); simpl; [|naive_solver]. case_bool_decide; simpl; naive_solver.
Qed.

Lemma verify_entry_exactly keys i prev s e r :
  verify_entry keys i prev s e = Ok r <->
  exists seq before h, entry_ok (signed_under keys) e seq before h /\ continues prev seq before /\
    r = (set_last seq h (tally match prev with None => set_first seq s | Some _ => s end e), (seq, h)).
Proof.
  unfold verify_entry, ok_or. split.
  - intros H. destruct (get_u64 "seq" e) as [seq|] eqn:Hs; [|done]. case_bool_decide as Hk; [|done]. cbn [negb] in H.
    destruct (get_str "prev_hash" e) as [before|] eqn:Hb; [|done].
    destruct (follows prev seq before s) as [s'|] eqn:Hf; [|done]. apply follows_exactly in Hf as [Hc ->].
    destruct (get_str "entry_hash" e) as [h|] eqn:Hh; [|done]. case_bool_decide as He; [|done]. cbn [negb] in H.
    destruct (get_str "signer" e) as [signer|] eqn:Hsr; [|done]. destruct (BTree.get signer keys) as [vk|] eqn:Hg; [|done].
    destruct (get_str "sig" e) as [sig|] eqn:Hsg; [|done]. destruct (signature_ok vk (entry_hash e) sig) eqn:Hok; [|done].
    injection H as <-. exists seq, before, h. split; [|done]. constructor; try done. by exists signer, vk, sig.
  - intros (seq & before & h & [Hk Hs Hb Hh He (signer & vk & sig & Hsr & Hg & Hsg & Hok)] & Hc & ->).
    rewrite Hs, bool_decide_eq_true_2, Hb by done. cbn [negb].
    rewrite (proj2 (follows_exactly prev seq before s _) (conj Hc eq_refl)), Hh, bool_decide_eq_true_2 by done. cbn [negb].
    by rewrite Hsr, Hg, Hsg, Hok.
Qed.

Lemma verify_entries_exactly keys i prev s es s' :
  verify_entries keys i prev s es = Ok s' <->
  run_ok (signed_under keys) prev es /\
  s' = plus_run match prev, es with None, e :: _ => set_first (default 0%Z (get_u64 "seq" e)) s | _, _ => s end es.
Proof.
  revert i prev s. induction es as [|e es IH]; intros i prev s.
  - cbn. rewrite plus_run_nil. destruct prev; naive_solver.
  - cbn [verify_entries run_ok]. split.
    + destruct (verify_entry keys i prev s e) as [[s1 last]|] eqn:Hv; [|done].
      apply verify_entry_exactly in Hv as (seq & before & h & Hok & Hc & [= -> ->]). intros [Hr ->]%IH.
      split; [by exists seq, before, h|]. rewrite (ok_seq _ _ _ _ _ Hok). erewrite plus_run_cons by apply Hok. by destruct prev.
    + intros [(seq & before & h & Hok & Hc & Hr) ->].
      rewrite (proj2 (verify_entry_exactly keys i prev s e _)) by by exists seq, before, h. apply IH. split; [done|].
      rewrite (ok_seq _ _ _ _ _ Hok). erewrite plus_run_cons by apply Hok. by destruct prev.
Qed.

Lemma run_ok_weaken (P Q : value -> Prop) prev es : (forall e, P e -> Q e) -> run_ok P prev es -> run_ok Q prev es.
Proof.
  intros HPQ. revert prev. induction es as [|e es IH]; intros prev; [done|].
  intros (seq & before & h & [] & Hc & Hr). exists seq, before, h. split; [constructor; auto|]. split; [done|by apply IH].
Qed.

Lemma summary_head es e : s_head (summary_of (es ++ [e])) = default "" (get_str "entry_hash" e).
Proof. unfold summary_of, plus_run. cbn [s_head]. by rewrite last_snoc. Qed.

Lemma verify_accepts es trusted : distinct_keyids trusted -> trusted <> [] -> run_ok (signed_by_trusted trusted) None es ->
  verify_decisions es trusted = Ok (summary_of es).
Proof.
  intros Hd Ht Hr. unfold verify_decisions, summary_of. rewrite bool_decide_eq_false_2 by done.
  apply verify_entries_exactly. split; [|done]. eapply run_ok_weaken; [|exact Hr]. intros e. by apply signed_under_trusted.
Qed.

Lemma verify_accepted es trusted s : verify_decisions es trusted = Ok s ->
  trusted <> [] /\ run_ok (signed_by_trusted trusted) None es /\ s = summary_of es.
Proof.
  unfold verify_decisions, summary_of. case_bool_decide; [done|]. rewrite verify_entries_exactly. intros [Hr ->].
  split_and!; try done. eapply run_ok_weaken; [|exact Hr]. intros e. apply signed_under_trusted.
Qed.
End Exact.

(** [verify_decisions] accepts exactly the runs that are a signed chain,
    and its summary counts them: every entry is a decision with the number
    after the one before and that entry's hash, holds the hash of everything
    else in it, and is signed over that hash by a trusted key it names; entry
    0 continues the genesis hash.  Without trusted keys nothing is accepted,
    not even the empty run. *)
Theorem verify_decisions_exactly {ST : SerdeText} {HC : HashCrates} {VC : VerifierCrate} (es : list value)
  (trusted : list bytes) (s : DecisionSummary) (Hd : distinct_keyids trusted) :
  verify_decisions es trusted = Ok s <->
  trusted <> [] /\ run_ok (signed_by_trusted trusted) None es /\ s = summary_of es.
Proof.
  split; [apply verify_accepted|]. intros (Ht & Hr & ->). by apply verify_accepts.
Qed.

(** ** Tamper evidence *)

Section Binding.
Context {ST : SerdeText} {SL : SerdeTextLaws} {HC : HashCrates} {HL : HashLaws} {VC : VerifierCrate}.

Lemma get_covered k v : value_wf v = true -> k <> "sig" -> k <> "entry_hash" -> vget k (covered "entry_hash" v) = vget k v.
Proof.
  intros Hw H1 H2. destruct v as [| | | | |o]; try done. apply andb_true_iff in Hw as [Hs%bool_decide_eq_true _].
  cbn [covered vget as_object]. rewrite !BTree.get_remove by (try apply BTree.wf_remove; done). by rewrite !decide_False.
Qed.

(** Two entries with one hash hold the same members, up to the hash itself
    and the signature. *)
Lemma same_hash_same_entry e e' h signed signed' seq seq' before before' : plain e -> plain e' ->
  entry_ok signed e seq before h -> entry_ok signed' e' seq' before' h ->
  (covered "entry_hash" e = covered "entry_hash" e' /\ before = before') \/
  collision_among sha256 [entry_hash_text e; entry_hash_text e'].
Proof.
  intros Hp Hp' Hok Hok'. pose proof (ok_covers _ _ _ _ _ Hok) as Hh. rewrite (ok_covers _ _ _ _ _ Hok') in Hh.
  apply hex_encode_inj in Hh. rewrite !entry_hash_same in Hh by apply Hp || apply Hp'. symmetry in Hh.
  apply (same_or_pair sha256) in Hh as [Hh|]; [left|by right].
  apply app_inv_head, canonical_json_inj in Hh; [|by apply covered_is_plain..]. split; [done|].
  pose proof (ok_before _ _ _ _ _ Hok) as Hb. pose proof (ok_before _ _ _ _ _ Hok') as Hb'. unfold get_str in Hb, Hb'.
  rewrite <- get_covered in Hb by (apply Hp || done). rewrite <- get_covered in Hb' by (apply Hp' || done).
  rewrite Hh in Hb. congruence.
Qed.

(** The hash of a run's last entry. *)
Definition run_head (es : list value) : option string := let! e := last es else None in get_str "entry_hash" e.

Lemma runs_bind signed signed' prev prev' es es' : run_ok signed prev es -> run_ok signed' prev' es' ->
  Forall plain es -> Forall plain es' -> length es = length es' -> run_head es = run_head es' ->
  Forall2 (fun e e' => covered "entry_hash" e = covered "entry_hash" e') es es' \/
  collision_among sha256 (map entry_hash_text (es ++ es')).
Proof.
  revert prev prev' es'. induction es as [|e es IH]; intros prev prev' [|e' es'] Hr Hr' Hp Hp' Hl Hh; try done; [by left; constructor|].
  destruct Hr as (seq & before & h & Hok & Hc & Hr), Hr' as (seq' & before' & h' & Hok' & Hc' & Hr').
  apply Forall_cons in Hp as [Hpe Hp], Hp' as [Hpe' Hp'].
  assert (Hsame : h = h' -> Forall2 (fun e e' => covered "entry_hash" e = covered "entry_hash" e') es es' ->
    Forall2 (fun e e' => covered "entry_hash" e = covered "entry_hash" e') (e :: es) (e' :: es') \/
    collision_among sha256 (map entry_hash_text ((e :: es) ++ e' :: es'))).
  { intros <- Hall. destruct (same_hash_same_entry e e' h _ _ _ _ _ _ Hpe Hpe' Hok Hok') as [[He _]|]; [left; by constructor|right].
    eapply collision_among_mono; [|done]. rewrite map_app. cbn [map]. set_solver. }
  destruct es as [|e1 es], es' as [|e1' es']; try done.
  - apply Hsame; [|constructor]. unfold run_head in Hh. cbn in Hh. rewrite (ok_hash _ _ _ _ _ Hok), (ok_hash _ _ _ _ _ Hok') in Hh. congruence.
  - destruct (IH _ _ (e1' :: es') Hr Hr' Hp Hp') as [Hall|]; [simpl in *; lia|done| |].
    2:{ right. eapply collision_among_mono; [|done]. rewrite !map_app. set_solver. }
    destruct Hr as (s1 & b1 & h1 & Hok1 & [_ ->] & _), Hr' as (s1' & b1' & h1' & Hok1' & [_ ->] & _).
    apply Hsame; [|done]. apply Forall2_cons in Hall as [He1 _].
    pose proof (ok_before _ _ _ _ _ Hok1) as Hb. pose proof (ok_before _ _ _ _ _ Hok1') as Hb'. unfold get_str in Hb, Hb'.
    apply Forall_cons in Hp as [Hp1 _], Hp' as [Hp1' _].
    rewrite <- get_covered in Hb by (apply Hp1 || done). rewrite <- get_covered in Hb' by (apply Hp1' || done).
    rewrite He1 in Hb. congruence.
Qed.
End Binding.

(** An auditor who keeps the head of a verified run knows the run: any
    run of as many entries that verifies, even under other keys, to the same
    head holds the same entries with every member, known or not, up to the
    signatures, unless two of the texts these entries were hashed from collide
    under SHA-256. *)
Theorem head_binds_entries {ST : SerdeText} {SL : SerdeTextLaws} {HC : HashCrates} {HL : HashLaws} {VC : VerifierCrate}
  (es es' : list value) (trusted trusted' : list bytes) (s s' : DecisionSummary)
  (Hv : verify_decisions es trusted = Ok s) (Hv' : verify_decisions es' trusted' = Ok s')
  (Hp : Forall plain es) (Hp' : Forall plain es') (Hl : s_entries s = s_entries s') (Hh : s_head s = s_head s') :
  Forall2 (fun e e' => covered "entry_hash" e = covered "entry_hash" e') es es' \/
  collision_among sha256 (map entry_hash_text (es ++ es')).
Proof.
  apply verify_accepted in Hv as (_ & Hr & ->), Hv' as (_ & Hr' & ->).
  assert (Hn : forall es, s_entries (summary_of es) = length es) by (by intros []).
  rewrite !Hn in Hl. apply (runs_bind _ _ _ _ _ _ Hr Hr' Hp Hp' Hl). unfold run_head.
  assert (Hlast : forall P prev es e, run_ok P prev es -> last es = Some e -> exists h, get_str "entry_hash" e = Some h).
  { clear. intros P prev es. revert prev. induction es as [|e1 es IH]; intros prev e; [done|].
    intros (q & b & h & Hok & _ & Hr) He. destruct es as [|e2 es]; [injection He as <-; exists h; apply Hok|by eapply IH]. }
  cbn in Hh. destruct (last es) as [e|] eqn:He, (last es') as [e'|] eqn:He'; try done.
  - destruct (Hlast _ _ _ _ Hr He) as [h Hx], (Hlast _ _ _ _ Hr' He') as [h' Hx']. rewrite Hx, Hx' in *. cbn in Hh. congruence.
  - apply last_None in He' as ->. by destruct es.
  - apply last_None in He as ->. by destruct es'.
Qed.

(** ** What the gate appends *)

(** The members of an entry as the verifier reads them. *)
Lemma entry_fields e :
  (get_str "kind" (entry_value e) = Some (kind e) /\ get_u64 "seq" (entry_value e) = Some (seq e) /\
   get_str "prev_hash" (entry_value e) = Some (prev_hash e) /\
   get_str "entry_hash" (entry_value e) = Some (Decisions.entry_hash e) /\
   get_str "signer" (entry_value e) = Some (signer e) /\ get_str "sig" (entry_value e) = Some (sig e)) /\
  (get_str "event" (entry_value e) = Some (event_text (event e)) /\
   get_str "decision" (entry_value e) = Some (decision_text (decision e)) /\
   get_str "mode" (entry_value e) = mode_text <$> mode e /\
   get_str "outcome" (entry_value e) = outcome_text <$> outcome e).
Proof.
  unfold entry_value, entry_members. destruct (tools_lock e), (mode e), (outcome e); vm_compute; split_and!; reflexivity.
Qed.

Lemma elem_of_of_list {A} (l : btree A) x : x ∈ BTree.of_list l -> x ∈ l.
Proof.
  intros Hx. destruct x as [k v]. apply get_of_list_Some. apply BTree.elem_get; [apply BTree.wf_of_list|done].
Qed.

Lemma entry_value_wf e : in_u64 (seq e) = true -> value_wf (entry_value e) = true.
Proof.
  intros Hs. unfold entry_value. cbn [value_wf]. apply andb_true_iff. split.
  - apply bool_decide_eq_true. apply BTree.wf_of_list.
  - apply forallb_Forall, Forall_forall. intros x Hx%elem_of_of_list. revert x Hx. apply Forall_forall.
    unfold entry_members. destruct (tools_lock e); repeat constructor; try done; apply opt_value_plain.
Qed.

Section Gate.
Context {ST : SerdeText} {TX : StoreText} {TL : StoreTextLaws} {CK : ClockCrate} {SC : SignatureCrates}
        {SCL : SignatureLaws} {HC : HashCrates} {HL : HashLaws} {VC : VerifierCrate} {VL : VerifierLaws}.

(** The gate key is a trusted key. *)
Definition signed_with (key : SigningKey) (e : DecisionEntry) : Prop :=
  kind e = DECISION_KIND /\ signer e = GateKey.keyid key /\
  sig e = hex_lower (GateKey.sign key (entry_hash_of (entry_value e))).

Lemma gate_entry_ok trusted key e n prev :
  in_u64 (seq e) = true -> GateKey.public_key key ∈ trusted -> signed_with key e ->
  chained n prev [e] ->
  entry_ok (signed_by_trusted trusted) (entry_value e) n prev (Decisions.entry_hash e).
Proof.
  intros Hs Hin (Hk & Hsr & Hsg) (Hn & Hp & Hh & _). destruct (entry_fields e) as [(Fk & Fs & Fp & Fh & Fsr & Fsg) _].
  assert (Heh : entry_hash (entry_value e) = entry_hash_of (entry_value e)) by by apply entry_hash_same, entry_value_wf.
  constructor; [congruence|congruence|congruence|done|by rewrite Heh|].
  destruct (verifying_key_valid key) as (vk & Hvk & _ & Hv). rewrite <- Heh in *.
  exists (GateKey.public_key key), vk, (sig e), (GateKey.sign key (entry_hash (entry_value e))).
  split_and!; [done|done|by rewrite Fsr, Hsr|done| |apply ed25519_sign_length|apply Hv].
  by rewrite Hsg, <- hex_encode_is_lower, hex_decode_encode.
Qed.

Lemma gate_run_ok trusted key n prev es last : GateKey.public_key key ∈ trusted -> chained n prev es ->
  Forall (signed_with key) es -> (0 <= n)%Z -> (n + Z.of_nat (length es) <= 2^64)%Z ->
  match last with None => n = 0%Z -> prev = GENESIS | Some (p, h) => n = (p + 1)%Z /\ h = prev end ->
  run_ok (signed_by_trusted trusted) last (map entry_value es).
Proof.
  intros Hin. revert n prev last. induction es as [|e es IH]; intros n prev last; [done|].
  intros (Hn & Hp & Hh & Hsg & Hc) [Hk Hks]%Forall_cons H0 Hb Hlast. simpl in Hb.
  exists n, prev, (Decisions.entry_hash e). split_and!.
  - apply (gate_entry_ok trusted key); [|done..|by repeat split]. unfold in_u64, U64_MAX. lia.
  - destruct last as [[p h]|]; cbn; [|done]. destruct Hlast as [-> ->]. split; [|done]. rewrite Z.mod_small; lia.
  - apply (IH (n + 1)%Z (Decisions.entry_hash e)); [done|done|lia|lia|done].
Qed.

(** The gate's appends, one draft and time after another. *)
Fixpoint append_all (key : SigningKey) (drafts : list (Z * DecisionDraft)) (st : LedgerStore) :
    option (result StoreError LedgerStore) :=
  match drafts with
  | [] => Some (Ok st)
  | (now, draft) :: drafts =>
      match append_decision now draft key st with
      | Some (Ok (_, st)) => append_all key drafts st
      | Some (Err e) => Some (Err e)
      | None => None
      end
  end.

Definition made_from (key : SigningKey) (d : Z * DecisionDraft) (e : DecisionEntry) : Prop :=
  exists n prev, e = signed_link d.1 d.2 n prev key.

Lemma append_all_spec key drafts st es hs : ledger_ok st es hs ->
  (Z.of_nat (length es + length drafts) <= I64_MAX + 1)%Z ->
  exists st' es', append_all key drafts st = Some (Ok st') /\ ledger_ok st' (es ++ es') hs /\
    Forall2 (made_from key) drafts es'.
Proof.
  revert st es. induction drafts as [|[now d] drafts IH]; intros st es Hok Hb.
  - exists st, []. rewrite app_nil_r. split_and!; [done|done|constructor].
  - simpl in Hb. destruct (append_decision_step now d key st es hs Hok) as [Ha Hok']; [lia|]. cbn [append_all]. rewrite Ha.
    destruct (IH _ _ Hok') as (st' & es' & Happ & Hok'' & Hall); [rewrite length_app; simpl; lia|].
    exists st', (signed_link now d (Z.of_nat (length es)) (default Decisions.GENESIS (Decisions.entry_hash <$> last es)) key :: es').
    split; [done|]. rewrite <- app_assoc in Hok''. split; [done|]. constructor; [by do 2 eexists|done].
Qed.

Lemma made_signed key d e : made_from key d e -> signed_with key e.
Proof. intros (n & prev & ->). split_and!; [done..|]. unfold signed_link. by rewrite (proj2 (set_sig_hash _ _)). Qed.

(** What the drafts count for. *)
Definition draft_decided (d : Decision) (x : Z * DecisionDraft) : bool :=
  match d_event x.2 with Call | Replay => bool_decide (decision_text (d_decision x.2) = decision_text d) | _ => false end.
Definition draft_outcome_is (o : Outcome) (x : Z * DecisionDraft) : bool :=
  match d_event x.2 with
  | Call | OutcomeEvent => bool_decide (outcome_text <$> d_outcome x.2 = Some (outcome_text o))
  | _ => false
  end.
Definition drafts_with (p : Z * DecisionDraft -> bool) (drafts : list (Z * DecisionDraft)) : nat :=
  length (filter (fun x => p x = true) drafts).

Lemma made_counts key x e : made_from key x e ->
  (forall d, decided (decision_text d) (entry_value e) = draft_decided d x) /\
  (forall o, outcome_is (outcome_text o) (entry_value e) = draft_outcome_is o x).
Proof.
  intros (n & prev & ->). destruct (entry_fields (signed_link x.1 x.2 n prev key)) as [_ (Fe & Fd & _ & Fo)].
  unfold decided, outcome_is, member_is. rewrite Fe, Fd, Fo. unfold draft_decided, draft_outcome_is.
  cbn [signed_link set_sig set_entry_hash link event decision outcome].
  split; [intros d|intros o]; destruct (d_event x.2); try done.
  - cbn. destruct (d_outcome x.2) as [[]|], o; done.
  - cbn. destruct (d_outcome x.2) as [[]|], o; done.
Qed.

Lemma count_made key p q drafts es : Forall2 (made_from key) drafts es ->
  (forall x e, made_from key x e -> p (entry_value e) = q x) -> count p (map entry_value es) = drafts_with q drafts.
Proof.
  intros Hall Hpq. unfold drafts_with. induction Hall as [|x e drafts es Hx _ IH]; [done|]. cbn [map].
  rewrite count_cons, filter_cons, IH, (Hpq x e Hx). by destruct (q x).
Qed.
End Gate.

(** The gate and the auditor agree: whatever drafts the gate appends to a
    new ledger, the ledger takes them, and its entries, read back, verify
    offline under the gate's public key as a run from the genesis hash, with
    the number of drafts and the decisions and outcomes they were given. *)
Theorem gate_ledger_verifies {ST : SerdeText} {TX : StoreText} {TL : StoreTextLaws} {CK : ClockCrate} {SC : SignatureCrates}
  {SCL : SignatureLaws} {HC : HashCrates} {HL : HashLaws} {VC : VerifierCrate} {VL : VerifierLaws}
  (key : SigningKey) (drafts : list (Z * DecisionDraft)) (Hne : drafts <> [])
  (room : (Z.of_nat (length drafts) <= I64_MAX + 1)%Z) :
  exists st es s, append_all key drafts (mkLedgerStore [] []) = Some (Ok st) /\ decisions st = Ok es /\
    verify_decisions (map entry_value es) [GateKey.public_key key] = Ok s /\
    s_entries s = length drafts /\ s_from_genesis s = true /\ Some (s_head s) = (Decisions.entry_hash <$> last es) /\
    s_allowed s = drafts_with (draft_decided Allow) drafts /\ s_denied s = drafts_with (draft_decided Deny) drafts /\
    s_approvals_required s = drafts_with (draft_decided RequireApproval) drafts /\
    s_unknown_outcomes s = drafts_with (draft_outcome_is OutcomeUnknown) drafts.
Proof.
  destruct (append_all_spec key drafts (mkLedgerStore [] []) [] []) as (st & es & Happ & Hok & Hall);
    [by constructor; [..|constructor|done]|done|].
  exists st, es, (summary_of (map entry_value es)). split; [done|]. split; [by eapply read_all|].
  pose proof (Forall2_length _ _ _ Hall) as Hl. pose proof (ok_chain _ _ _ Hok) as Hc. pose proof (ok_bound _ _ _ Hok) as Hb.
  split; [|split_and!].
  - apply verify_accepts; [by intros a b ->%list_elem_of_singleton ->%list_elem_of_singleton|done|].
    apply (gate_run_ok [GateKey.public_key key] key 0 GENESIS); [by left|done| |done|unfold I64_MAX in Hb; simpl in *; lia|done].
    clear -Hall. induction Hall as [|x e drafts es Hx _ IH]; constructor; [by eapply made_signed|done].
  - destruct es as [|e es]; [by destruct drafts|]. cbn. rewrite length_map. simpl in Hl. lia.
  - destruct es as [|e es]; [by destruct drafts|]. destruct Hc as [Hs _]. destruct (entry_fields e) as [(_ & Fs & _) _].
    cbn. by rewrite Fs, Hs.
  - destruct es as [|e es _] using rev_ind; [by destruct drafts|].
    destruct (entry_fields e) as [(_ & _ & _ & Fh & _) _]. rewrite map_app. cbn [map]. by rewrite summary_head, Fh, last_snoc.
  - rewrite <- (count_made key (decided "allow") (draft_decided Allow) drafts es Hall); [by destruct es|].
    intros x e Hx. apply (proj1 (made_counts key x e Hx) Allow).
  - rewrite <- (count_made key (decided "deny") (draft_decided Deny) drafts es Hall); [by destruct es|].
    intros x e Hx. apply (proj1 (made_counts key x e Hx) Deny).
  - rewrite <- (count_made key (decided "require_approval") (draft_decided RequireApproval) drafts es Hall); [by destruct es|].
    intros x e Hx. apply (proj1 (made_counts key x e Hx) RequireApproval).
  - rewrite <- (count_made key (outcome_is "unknown") (draft_outcome_is OutcomeUnknown) drafts es Hall); [by destruct es|].
    intros x e Hx. apply (proj2 (made_counts key x e Hx) OutcomeUnknown).
Qed.

(** *** Concrete instances *)

Section Witnesses.
Import Toy ToySerde ToyVerify.
#[local] Existing Instances toy_store_text toy_store_text_laws.

Definition one_run : list value := [entry_value first_entry].
Definition gate_trust : list bytes := [GateKey.public_key gate_key].

Lemma one_trusted (k : bytes) : distinct_keyids [k].
Proof. by intros a b ->%list_elem_of_singleton ->%list_elem_of_singleton. Qed.

Lemma verify_decisions_exactly_witness :
  verify_decisions one_run gate_trust = Ok (summary_of one_run) <->
  gate_trust <> [] /\ run_ok (signed_by_trusted gate_trust) None one_run /\ summary_of one_run = summary_of one_run.
Proof. apply (verify_decisions_exactly one_run gate_trust). apply one_trusted. Qed.

Lemma head_binds_entries_witness :
  Forall2 (fun e e' => covered "entry_hash" e = covered "entry_hash" e') one_run one_run \/
  collision_among sha256 (map entry_hash_text (one_run ++ one_run)).
Proof.
  apply (head_binds_entries one_run one_run gate_trust gate_trust (summary_of one_run) (summary_of one_run));
    [vm_compute; reflexivity|vm_compute; reflexivity| | |reflexivity|reflexivity];
    (constructor; [split; vm_compute; reflexivity|constructor]).
Qed.

Lemma gate_ledger_verifies_witness :
  exists st es s, append_all gate_key [(0%Z, draft_call); (5%Z, draft_outcome)] (mkLedgerStore [] []) = Some (Ok st) /\
    decisions st = Ok es /\ verify_decisions (map entry_value es) gate_trust = Ok s /\
    s_entries s = 2 /\ s_from_genesis s = true /\ Some (s_head s) = (Decisions.entry_hash <$> last es) /\
    s_allowed s = 1 /\ s_denied s = 0 /\ s_approvals_required s = 0 /\ s_unknown_outcomes s = 0.
Proof. apply (gate_ledger_verifies gate_key [(0%Z, draft_call); (5%Z, draft_outcome)]); [done|]. unfold I64_MAX. simpl. lia. Qed.

(** A changed member, a missing entry, a foreign key and no key. *)
Example tampered_runs_refused :
  verify_decisions [entry_value (set_sig "00" first_entry)] gate_trust = Err (BadSignature 0) /\
  verify_decisions [match entry_value first_entry with VObject o => VObject (BTree.insert "note" VNull o) | v => v end] gate_trust
    = Err (EntryHash 0) /\
  verify_decisions (one_run ++ one_run) gate_trust = Err (SeqGap 1 0) /\
  verify_decisions one_run [repeat "x"%char 32] = Err (UnknownSigner 0 (GateKey.keyid gate_key)) /\
  verify_decisions [] [] = Err NoKeys.
Proof. split_and!; vm_compute; reflexivity. Qed.
End Witnesses.
