(* ===== verification/Ustar.v ===== *)
(** * Tar archives of the offline verifier ([cloakpipe-verify/src/ustar.rs])

    The writer and the strict reader of ustar archives.  A panic of [write]
    (a name or a number that does not fit its field) is [None]; the reader's
    loop has one turn of fuel per block, which [read_names_safe] shows is
    enough.  A [usize] is 64 bits wide. *)

From stdpp Require Import pretty.
From S2P Require Import Prelude Json Text.

#[local] Open Scope Z_scope.

Definition BLOCK : nat := 512.
Definition NUL : ascii := ascii_of_N 0.

Inductive TarError :=
| Truncated
| Checksum (offset : Z)
| Field (offset : Z) (field : string)
| Unsupported (name : string) (typeflag : ascii)
| BadName (name : string)
| Duplicate (name : string).

Record TarFile := mkTarFile { name : string; data : bytes }.

(** ** Byte arrays *)

(** [&b\[i..j\]] and [b\[i..j\].copy_from_slice(x)], inside the bounds. *)
Definition slice (i j : nat) (b : bytes) : bytes := take (j - i) (drop i b).
Definition splice (i : nat) (x b : bytes) : bytes := take i b ++ x ++ drop (i + length x) b.

(** [b.get(i..j)] for [i <= j]. *)
Definition get_range (b : bytes) (i j : Z) : option bytes :=
  if j <=? Z.of_nat (length b) then Some (slice (Z.to_nat i) (Z.to_nat j) b) else None.

Definition byte_at (i : nat) (b : bytes) : ascii := default NUL (b !! i).
Definition zeros (n : nat) : bytes := replicate n NUL.
Definition byte_sum (b : bytes) : Z := foldr (fun c n => byte_val c + n) 0 b.

(** [n.div_ceil(BLOCK) * BLOCK] *)
Definition round_up (n : Z) : Z := (n + 511) / 512 * 512.

(** ** Octal numbers *)

Definition octal_digit (n : N) : ascii := ascii_of_N (48 + n).

(** [{v:o}] of a [u64]: at most 22 digits. *)
Fixpoint octal_digits (fuel : nat) (v : N) : bytes :=
  match fuel with
  | O => []
  | S fuel => if (v <? 8)%N then [octal_digit v] else octal_digits fuel (v / 8) ++ [octal_digit (v mod 8)]
  end.
(** [{v:0w$o}] *)
Definition fmt_octal (w : nat) (v : Z) : bytes :=
  let ds := octal_digits 22 (Z.to_N v) in replicate (w - length ds) "0"%char ++ ds.

(** [put_octal]: the slices must have the same length. *)
Definition put_octal (i j : nat) (v : Z) (h : bytes) : option bytes :=
  let s := fmt_octal (j - i - 1) v ++ [NUL] in
  if decide (length s = (j - i)%nat) then Some (splice i s h) else None.

Definition is_octal_digit (c : ascii) : bool := in_range "0"%char c "7"%char.
Definition octal_value (b : bytes) : Z := fold_left (fun n c => n * 8 + (byte_val c - 48)) b 0.

(** [u64::from_str_radix(s, 8)]: a plus sign may come first. *)
Definition from_str_radix_8 (s : bytes) : option Z :=
  let ds := match s with c :: (_ :: _) as ds => if decide (c = "+"%char) then ds else s | _ => s end in
  if bool_decide (ds = []) || negb (forallb is_octal_digit ds) then None
  else if octal_value ds <=? U64_MAX then Some (octal_value ds) else None.

Definition is_padding (c : ascii) : bool := bool_decide (c = NUL) || bool_decide (c = " "%char).

Definition parse_octal (field : bytes) : option Z :=
  if negb (valid_utf8 field) then None
  else
    let s := reverse (drop_while is_padding (reverse (drop_while is_padding field))) in
    if bool_decide (s = []) then Some 0 else from_str_radix_8 s.

(** The bytes before the first NUL. *)
Definition cstr (field : bytes) : bytes := (span (fun c => negb (bool_decide (c = NUL))) field).1.

(** ** Writing *)

Definition write_header (nm : string) (size mtime : Z) : option bytes :=
  if (str_len nm <=? 100)%nat then
    let h := splice 0 (as_bytes nm) (zeros BLOCK) in
    h ← put_octal 100 108 420 h; (* 0o644 *)
    h ← put_octal 108 116 0 h;
    h ← put_octal 116 124 0 h;
    h ← put_octal 124 136 size h;
    h ← put_octal 136 148 mtime h;
    let h := splice 156 ["0"%char] h in
    let h := splice 257 (as_bytes "ustar" ++ [NUL]) h in
    let h := splice 263 (as_bytes "00") h in
    let h := splice 148 (replicate 8 " "%char) h in
    let s := fmt_octal 6 (byte_sum h) ++ [NUL; " "%char] in
    if decide (length s = 8%nat) then Some (splice 148 s h) else None
  else None.

Fixpoint write_files (files : list (string * bytes)) (mtime : Z) : option bytes :=
  match files with
  | [] => Some []
  | (nm, d) :: files =>
      h ← write_header nm (Z.of_nat (length d)) mtime;
      rest ← write_files files mtime;
      Some (h ++ d ++ zeros (Z.to_nat (round_up (Z.of_nat (length d))) - length d) ++ rest)
  end.

(** Every member fills whole blocks, so padding the archive after each is
    padding the member. *)
Definition write (files : list (string * bytes)) (mtime : Z) : option bytes :=
  out ← write_files files mtime; Some (out ++ zeros (2 * BLOCK)).

(** ** Reading *)

Definition clean_name (raw : string) : result TarError string :=
  let name := default raw (strip_prefix "./" raw) in
  if str_is_empty name || starts_with "/" name || str_contains "\" name then Err (BadName raw)
  else if existsb (fun c => str_is_empty c || bool_decide (c = ".") || bool_decide (c = "..")) (split_on "/"%char name)
  then Err (BadName raw)
  else Ok name.

(** The name of a header: [prefix/name] in a ustar header with a prefix. *)
Definition header_name (offset : Z) (h : bytes) : result TarError string :=
  let nm := cstr (slice 0 100 h) in
  if negb (valid_utf8 nm) then Err (Field offset "name")
  else if bool_decide (slice 257 262 h = as_bytes "ustar") then
    let prefix := cstr (slice 345 500 h) in
    if negb (valid_utf8 prefix) then Err (Field offset "prefix")
    else Ok (if bool_decide (prefix = []) then from_bytes nm else from_bytes prefix +:+ "/" +:+ from_bytes nm)
  else Ok (from_bytes nm).

(** The checksum counts its own field as spaces. *)
Definition header_sum (h : bytes) : Z := byte_sum (take 148 h) + 8 * 32 + byte_sum (drop 156 h).

Inductive step :=
| Done
| Skip (next : Z)
| Member (next : Z) (raw : string) (content : bytes).

(** One turn of the loop, up to the name. *)
Definition read_member (b : bytes) (offset : Z) : result TarError step :=
  let? h := ok_or (get_range b offset (offset + 512)) Truncated in
  if forallb (fun c => bool_decide (c = NUL)) h then Ok Done
  else
    let? recorded := ok_or (parse_octal (slice 148 156 h)) (Field offset "checksum") in
    if negb (recorded =? header_sum h) then Err (Checksum offset)
    else
      let? size := ok_or (parse_octal (slice 124 136 h)) (Field offset "size") in
      let? nm := header_name offset h in
      let start := offset + 512 in
      if U64_MAX <? start + size then Err Truncated
      else
        let? content := ok_or (get_range b start (start + size)) Truncated in
        let next := start + round_up size in
        let t := byte_at 156 h in
        if bool_decide (t ∈ ["0"%char; NUL; "7"%char]) then Ok (Member next nm content)
        else if bool_decide (t ∈ ["5"%char; "x"%char; "g"%char; "L"%char; "K"%char]) then Ok (Skip next)
        else Err (Unsupported nm t).

Fixpoint read_from (fuel : nat) (b : bytes) (offset : Z) (seen : list string) : option (result TarError (list TarFile)) :=
  match fuel with
  | O => None
  | S fuel =>
      match read_member b offset with
      | Err e => Some (Err e)
      | Ok Done => Some (Ok [])
      | Ok (Skip next) => read_from fuel b next seen
      | Ok (Member next raw content) =>
          match clean_name raw with
          | Err e => Some (Err e)
          | Ok nm =>
              if bool_decide (nm ∈ seen) then Some (Err (Duplicate nm))
              else
                match read_from fuel b next (nm :: seen) with
                | Some (Ok out) => Some (Ok (mkTarFile nm content :: out))
                | r => r
                end
          end
      end
  end.

Definition read (b : bytes) : option (result TarError (list TarFile)) := read_from (S (length b)) b 0 [].

(** ** Slices *)

Lemma lookup_slice i j b n : slice i j b !! n = if (n <? j - i)%nat then b !! (i + n)%nat else None.
Proof.
  unfold slice. destruct (Nat.ltb_spec n (j - i)).
  - rewrite lookup_take_lt, lookup_drop by done. done.
  - by rewrite lookup_take_ge.
Qed.

Lemma lookup_splice i x b n : (i + length x <= length b)%nat ->
  splice i x b !! n = if ((i <=? n) && (n <? i + length x))%nat then x !! (n - i)%nat else b !! n.
Proof.
  intros Hl. unfold splice. destruct (Nat.leb_spec i n); cbn [andb].
  - rewrite lookup_app_r, length_take by (rewrite length_take; lia). rewrite Nat.min_l by lia.
    destruct (Nat.ltb_spec n (i + length x)); [by rewrite lookup_app_l by lia|].
    rewrite lookup_app_r, lookup_drop by lia. f_equal. lia.
  - rewrite lookup_app_l, lookup_take_lt by (rewrite ?length_take; lia). done.
Qed.

Lemma length_splice i x b : (i + length x <= length b)%nat -> length (splice i x b) = length b.
Proof. intros Hl. unfold splice. rewrite !length_app, length_take, length_drop. lia. Qed.

Lemma slice_same i j x b : (i + length x <= length b)%nat -> j = (i + length x)%nat -> slice i j (splice i x b) = x.
Proof.
  intros Hl ->. apply list_eq. intros n. rewrite lookup_slice, lookup_splice by done.
  destruct (Nat.ltb_spec n (i + length x - i)); [|rewrite lookup_ge_None_2; [done|lia]].
  destruct (Nat.leb_spec i (i + n)); [|lia]. destruct (Nat.ltb_spec (i + n) (i + length x)); [|lia]. simpl. f_equal. lia.
Qed.

Lemma slice_other k l i x b : (i + length x <= length b)%nat -> (l <= i \/ i + length x <= k)%nat ->
  slice k l (splice i x b) = slice k l b.
Proof.
  intros Hl Hd. apply list_eq. intros n. rewrite !lookup_slice, lookup_splice by done.
  destruct (Nat.ltb_spec n (l - k)); [|done]. destruct (Nat.leb_spec i (k + n)); [|done].
  destruct (Nat.ltb_spec (k + n) (i + length x)); [lia|done].
Qed.

Lemma slice_app p x q : slice (length p) (length p + length x) (p ++ x ++ q) = x.
Proof. unfold slice. rewrite drop_app_length. rewrite Nat.add_comm, Nat.add_sub. apply take_app_length. Qed.

Lemma get_range_app p x q i j : i = Z.of_nat (length p) -> j = i + Z.of_nat (length x) -> get_range (p ++ x ++ q) i j = Some x.
Proof.
  intros -> ->. unfold get_range. rewrite !length_app.
  destruct (Z.leb_spec (Z.of_nat (length p) + Z.of_nat (length x)) (Z.of_nat (length p + (length x + length q)))); [|lia].
  rewrite <- Nat2Z.inj_add, !Nat2Z.id. f_equal. apply slice_app.
Qed.

Lemma byte_sum_app a b : byte_sum (a ++ b) = byte_sum a + byte_sum b.
Proof. unfold byte_sum. induction a as [|c a IH]; simpl; lia. Qed.

Lemma byte_val_bound c : 0 <= byte_val c < 256.
Proof. unfold byte_val. pose proof (N_ascii_bounded c). lia. Qed.

Lemma byte_sum_bound b : 0 <= byte_sum b <= 255 * Z.of_nat (length b).
Proof. induction b as [|c b IH]; simpl; [lia|]. pose proof (byte_val_bound c). lia. Qed.

(** ** Octal numbers *)

Lemma octal_digit_spec n : (n < 8)%N -> is_octal_digit (octal_digit n) = true /\ byte_val (octal_digit n) = 48 + Z.of_N n.
Proof. intros Hn. destruct n as [|p]; [done|]. do 3 (destruct p as [p|p|]; try done; try lia). Qed.

Lemma octal_value_snoc b c : octal_value (b ++ [c]) = octal_value b * 8 + (byte_val c - 48).
Proof. unfold octal_value. by rewrite fold_left_app. Qed.

Lemma octal_digits_spec fuel v : (0 < fuel)%nat -> (v < 8 ^ N.of_nat fuel)%N ->
  octal_digits fuel v <> [] /\ forallb is_octal_digit (octal_digits fuel v) = true /\ octal_value (octal_digits fuel v) = Z.of_N v.
Proof.
  intros H0. revert v. induction fuel as [|fuel IH]; [lia|]. intros v Hv. cbn [octal_digits].
  destruct (N.ltb_spec v 8) as [H8|H8].
  - destruct (octal_digit_spec v H8) as [Hd Hb]. cbn. rewrite Hd, Hb. split_and!; [done|done|lia].
  - rewrite Nat2N.inj_succ, N.pow_succ_r' in Hv. assert (Hq : (v / 8 < 8 ^ N.of_nat fuel)%N) by (apply N.Div0.div_lt_upper_bound; lia).
    destruct fuel as [|fuel]; [simpl in Hq; assert (1 <= v / 8)%N by (apply N.div_le_lower_bound; lia); lia|].
    destruct (IH ltac:(lia) _ Hq) as (_ & Hd & Hval). destruct (octal_digit_spec (v mod 8)) as [Hd' Hb']; [by apply N.mod_lt|].
    rewrite forallb_app, Hd, octal_value_snoc, Hval, Hb'. cbn [forallb]. rewrite Hd'.
    split_and!; [by intros [_ ?]%app_nil|done|].
    pose proof (N.div_mod v 8 ltac:(lia)). lia.
Qed.

Lemma octal_digits_length fuel v w : (0 < w)%nat -> (v < 8 ^ N.of_nat w)%N -> (length (octal_digits fuel v) <= w)%nat.
Proof.
  intros Hw. revert v w Hw. induction fuel as [|fuel IH]; intros v w Hw Hv; simpl; [lia|].
  destruct (N.ltb_spec v 8) as [H8|H8]; [simpl; lia|]. rewrite length_app. simpl.
  destruct w as [|w]; [lia|]. rewrite Nat2N.inj_succ, N.pow_succ_r' in Hv.
  assert (Hq : (v / 8 < 8 ^ N.of_nat w)%N) by (apply N.Div0.div_lt_upper_bound; lia).
  destruct w as [|w]; [simpl in Hq; assert (1 <= v / 8)%N by (apply N.div_le_lower_bound; lia); lia|].
  pose proof (IH (v / 8)%N (S w) ltac:(lia) Hq). lia.
Qed.

Lemma octal_value_zeros k b : octal_value (replicate k "0"%char ++ b) = octal_value b.
Proof. unfold octal_value. induction k as [|k IH]; [done|]. simpl. exact IH. Qed.

Lemma fmt_octal_spec w v : (0 < w <= 21)%nat -> 0 <= v < 8 ^ Z.of_nat w ->
  length (fmt_octal w v) = w /\ forallb is_octal_digit (fmt_octal w v) = true /\ octal_value (fmt_octal w v) = v.
Proof.
  intros Hw Hv. unfold fmt_octal. assert (Hn : (Z.to_N v < 8 ^ N.of_nat w)%N).
  { apply N2Z.inj_lt. rewrite N2Z.inj_pow, Z2N.id, nat_N_Z by lia. apply Hv. }
  pose proof (octal_digits_length 22 _ w ltac:(lia) Hn) as Hl.
  destruct (octal_digits_spec 22 (Z.to_N v)) as (_ & Hd & Hval); [lia| |].
  { eapply N.lt_le_trans; [exact Hn|]. apply N.pow_le_mono_r; lia. }
  split_and!.
  - rewrite length_app, length_replicate. lia.
  - rewrite forallb_app, Hd, andb_true_r. clear. induction (w - _)%nat as [|k IH]; [done|]. simpl. by rewrite IH.
  - rewrite octal_value_zeros, Hval. lia.
Qed.

Lemma octal_char c : is_octal_digit c = true -> is_padding c = false /\ is_ascii_digit c = true /\ byte_val c < 128 /\ 48 <= byte_val c.
Proof. by destruct c as [[] [] [] [] [] [] [] []]. Qed.

Lemma valid_ascii b : Forall (fun c => byte_val c < 128) b -> valid_utf8 b = true.
Proof.
  unfold valid_utf8. induction 1 as [|c b Hc _ IH]; [done|]. cbn. by destruct (Z.leb_spec (byte_val c) 127); [|lia].
Qed.

Lemma drop_while_head {A} (p : A -> bool) x l : p x = false -> drop_while p (x :: l) = x :: l.
Proof. intros H. simpl. by rewrite H. Qed.

Lemma drop_while_all {A} (p : A -> bool) l l' : Forall (fun x => p x = true) l -> drop_while p (l ++ l') = drop_while p l'.
Proof. induction 1 as [|x l Hx _ IH]; [done|]. simpl. by rewrite Hx. Qed.

(** What [put_octal] and the checksum write reads back. *)
Lemma parse_octal_back w v pad : (0 < w <= 21)%nat -> 0 <= v < 8 ^ Z.of_nat w -> Forall (fun c => is_padding c = true) pad ->
  parse_octal (fmt_octal w v ++ pad) = Some v.
Proof.
  intros Hw Hv Hpad. destruct (fmt_octal_spec w v Hw Hv) as (Hl & Hd & Hval).
  set (ds := fmt_octal w v) in *. assert (Hf : Forall (fun c => is_octal_digit c = true) ds).
  { apply Forall_forall. intros c Hc. rewrite forallb_forall in Hd. apply Hd. by apply list_elem_of_In. }
  unfold parse_octal. rewrite valid_ascii; cbn [negb].
  2: { apply Forall_app. split; (eapply Forall_impl; [eassumption|]).
       - intros c Hc. apply (octal_char c Hc).
       - intros c Hc. by destruct c as [[] [] [] [] [] [] [] []]. }
  assert (Hdrop : drop_while is_padding (reverse (drop_while is_padding (ds ++ pad))) = reverse ds).
  { destruct ds as [|c ds'] eqn:Hds; [simpl in Hl; lia|]. apply Forall_cons in Hf as [Hc Hf].
    cbn [app]. rewrite (drop_while_head _ c) by apply (octal_char c Hc). rewrite app_comm_cons, reverse_app, drop_while_all by by apply Forall_reverse.
    destruct (reverse (c :: ds')) as [|d r] eqn:Hr; [done|]. apply drop_while_head.
    assert (Hin : d ∈ c :: ds') by (rewrite <- (reverse_involutive (c :: ds')), Hr, elem_of_reverse; by left).
    apply (octal_char d). apply elem_of_cons in Hin as [->|Hin]; [done|]. rewrite Forall_forall in Hf. by apply Hf. }
  rewrite Hdrop, reverse_involutive. rewrite bool_decide_eq_false_2 by (intros He; rewrite He in Hl; simpl in Hl; lia).
  unfold from_str_radix_8.
  assert (Hplus : match ds with c :: (_ :: _) as ds' => if decide (c = "+"%char) then ds' else ds | _ => ds end = ds).
  { destruct ds as [|c [|c' ds']]; [done..|]. rewrite decide_False; [done|]. intros ->. by apply Forall_cons in Hf as [? _]. }
  rewrite Hplus, bool_decide_eq_false_2, Hd by (intros He; rewrite He in Hl; simpl in Hl; lia). cbn [negb orb]. rewrite Hval.
  destruct (Z.leb_spec v U64_MAX); [done|]. exfalso.
  assert (8 ^ Z.of_nat w <= 8 ^ 21) by (apply Z.pow_le_mono_r; lia). change (8 ^ 21) with 9223372036854775808 in *. unfold U64_MAX in *. lia.
Qed.

Lemma put_octal_fits i j v h : (i + 1 < j)%nat -> (j - i <= 22)%nat -> 0 <= v < 8 ^ Z.of_nat (j - i - 1) ->
  put_octal i j v h = Some (splice i (fmt_octal (j - i - 1) v ++ [NUL]) h) /\ length (fmt_octal (j - i - 1) v ++ [NUL]) = (j - i)%nat.
Proof.
  intros Hij Hw Hv. destruct (fmt_octal_spec (j - i - 1) v ltac:(lia) Hv) as (Hl & _).
  assert (Hlen : length (fmt_octal (j - i - 1) v ++ [NUL]) = (j - i)%nat) by (rewrite length_app; simpl; lia).
  unfold put_octal. by rewrite decide_True.
Qed.

(** A written header is as long as a block and reads as it was written. *)
Record header_of (nm : string) (size : Z) (h : bytes) : Prop := {
  hd_length : length h = BLOCK;
  hd_name : slice 0 100 h = as_bytes nm ++ zeros (100 - str_len nm);
  hd_size : parse_octal (slice 124 136 h) = Some size;
  hd_sum : parse_octal (slice 148 156 h) = Some (header_sum h);
  hd_type : byte_at 156 h = "0"%char;
  hd_magic : slice 257 262 h = as_bytes "ustar";
  hd_prefix : slice 345 500 h = zeros 155;
}.

Lemma header_sum_slices h : length h = BLOCK -> header_sum h = byte_sum (slice 0 148 h) + 8 * 32 + byte_sum (slice 156 512 h).
Proof. intros Hl. unfold header_sum, slice. f_equal. f_equal. rewrite take_ge; [done|]. rewrite length_drop, Hl. unfold BLOCK. lia. Qed.

Lemma byte_sum_parts h : length h = BLOCK -> byte_sum h = byte_sum (slice 0 148 h) + byte_sum (slice 148 156 h) + byte_sum (slice 156 512 h).
Proof.
  intros Hl. rewrite <- !byte_sum_app. f_equal. unfold slice. rewrite drop_0, (take_ge (drop 156 h)) by (rewrite length_drop, Hl; unfold BLOCK; lia).
  rewrite <- app_assoc. rewrite <- (take_drop 148 h) at 1. f_equal. rewrite <- (take_drop 8 (drop 148 h)) at 1. by rewrite drop_drop.
Qed.

Lemma byte_at_other k i x h : (i + length x <= length h)%nat -> (k < i \/ i + length x <= k)%nat ->
  byte_at k (splice i x h) = byte_at k h.
Proof.
  intros Hl Hd. unfold byte_at. rewrite lookup_splice by done. destruct (Nat.leb_spec i k); [|done].
  destruct (Nat.ltb_spec k (i + length x)); [lia|done].
Qed.

Ltac peel h := subst h; rewrite slice_other by (simpl; lia).

Lemma write_header_of nm size mtime : (str_len nm <= 100)%nat -> 0 <= size < 8 ^ 11 -> 0 <= mtime < 8 ^ 11 ->
  exists h, write_header nm size mtime = Some h /\ header_of nm size h.
Proof.
  intros Hn Hs Hm. unfold write_header. destruct (Nat.leb_spec (str_len nm) 100) as [_|]; [|lia].
  set (h0 := splice 0 (as_bytes nm) (zeros BLOCK)).
  assert (L0 : length h0 = 512%nat).
  { subst h0. rewrite length_splice; unfold zeros, BLOCK; rewrite length_replicate; [done|]. unfold str_len in Hn. lia. }
  assert (N0 : slice 0 100 h0 = as_bytes nm ++ zeros (100 - str_len nm)).
  { subst h0. unfold splice, slice. rewrite take_0, drop_0, app_nil_l. unfold zeros, BLOCK. rewrite Nat.sub_0_r.
    rewrite drop_replicate, take_app_ge by exact Hn. f_equal. rewrite take_replicate. f_equal. unfold str_len in *. lia. }
  assert (P0 : slice 345 500 h0 = zeros 155).
  { subst h0. rewrite slice_other; unfold zeros, BLOCK; [done|rewrite length_replicate; unfold str_len in Hn; lia|unfold str_len in Hn; lia]. }
  clearbody h0.
  destruct (put_octal_fits 100 108 420 h0) as [-> L1]; [lia|lia|done|]. cbn [mbind option_bind].
  set (x1 := fmt_octal (108 - 100 - 1) 420 ++ [NUL]) in *. set (h1 := splice 100 x1 h0).
  destruct (put_octal_fits 108 116 0 h1) as [-> L2]; [lia|lia|done|]. cbn [mbind option_bind].
  set (x2 := fmt_octal (116 - 108 - 1) 0 ++ [NUL]) in *. set (h2 := splice 108 x2 h1).
  destruct (put_octal_fits 116 124 0 h2) as [-> L3]; [lia|lia|done|]. cbn [mbind option_bind].
  set (x3 := fmt_octal (124 - 116 - 1) 0 ++ [NUL]) in *. set (h3 := splice 116 x3 h2).
  destruct (put_octal_fits 124 136 size h3) as [-> L4]; [lia|lia|done|]. cbn [mbind option_bind].
  set (x4 := fmt_octal (136 - 124 - 1) size ++ [NUL]) in *. set (h4 := splice 124 x4 h3).
  destruct (put_octal_fits 136 148 mtime h4) as [-> L5]; [lia|lia|done|]. cbn [mbind option_bind].
  set (x5 := fmt_octal (148 - 136 - 1) mtime ++ [NUL]) in *. set (h5 := splice 136 x5 h4).
  clearbody x1 x2 x3 x5. set (h6 := splice 156 ["0"%char] h5). set (h7 := splice 257 (as_bytes "ustar" ++ [NUL]) h6).
  set (h8 := splice 263 (as_bytes "00") h7). set (h9 := splice 148 (replicate 8 " "%char) h8).
  assert (H1 : length h1 = 512%nat) by (subst h1; rewrite length_splice; lia).
  assert (H2 : length h2 = 512%nat) by (subst h2; rewrite length_splice; lia).
  assert (H3 : length h3 = 512%nat) by (subst h3; rewrite length_splice; lia).
  assert (H4 : length h4 = 512%nat) by (subst h4; rewrite length_splice; lia).
  assert (H5 : length h5 = 512%nat) by (subst h5; rewrite length_splice; lia).
  assert (H6 : length h6 = 512%nat) by (subst h6; rewrite length_splice; simpl; lia).
  assert (H7 : length h7 = 512%nat) by (subst h7; rewrite length_splice; simpl; lia).
  assert (H8 : length h8 = 512%nat) by (subst h8; rewrite length_splice; simpl; lia).
  assert (H9 : length h9 = 512%nat) by (subst h9; rewrite length_splice; simpl; lia).
  assert (Hsum : byte_sum h9 = header_sum h9).
  { rewrite header_sum_slices, byte_sum_parts by done. do 2 f_equal. subst h9. rewrite slice_same by (simpl; lia). done. }
  assert (Hb : 0 <= byte_sum h9 < 8 ^ Z.of_nat 6).
  { pose proof (byte_sum_bound h9) as Hbd. rewrite H9 in Hbd. change (8 ^ Z.of_nat 6) with 262144. lia. }
  destruct (fmt_octal_spec 6 (byte_sum h9)) as (Ls & _); [lia|done|].
  assert (Lx : length (fmt_octal 6 (byte_sum h9) ++ [NUL; " "%char]) = 8%nat) by by rewrite length_app, Ls.
  rewrite decide_True by done. set (x := fmt_octal 6 (byte_sum h9) ++ _) in *. exists (splice 148 x h9). split; [done|].
  assert (Hother : forall k l, (l <= 148 \/ 156 <= k)%nat -> slice k l (splice 148 x h9) = slice k l h8).
  { intros k l Hkl. rewrite slice_other by lia. subst h9. rewrite slice_other by (simpl; lia). done. }
  constructor.
  - by rewrite length_splice by lia.
  - rewrite Hother by lia. peel h8; peel h7; peel h6; peel h5; peel h4; peel h3; peel h2; peel h1. exact N0.
  - rewrite Hother by lia. peel h8; peel h7; peel h6; peel h5. subst h4. rewrite slice_same by lia.
    subst x4. apply parse_octal_back; first [lia|done|by repeat constructor].
  - rewrite slice_same by lia.
    assert (Hx : parse_octal x = Some (byte_sum h9)) by (apply (parse_octal_back 6); first [lia|done|by repeat constructor]).
    rewrite Hx, Hsum. f_equal. clearbody x. rewrite (header_sum_slices (splice 148 x h9)) by by rewrite length_splice by lia.
    rewrite header_sum_slices by done. rewrite (slice_other 0 148), (slice_other 156 512) by lia. done.
  - rewrite byte_at_other by lia. subst h9. rewrite byte_at_other by (simpl; lia). subst h8. rewrite byte_at_other by (simpl; lia). subst h7. rewrite byte_at_other by (simpl; lia).
    unfold h6, byte_at. rewrite lookup_splice by (simpl; lia). done.
  - rewrite Hother by lia. subst h8. rewrite slice_other by (simpl; lia).
    assert (Hu : slice 257 263 h7 = as_bytes "ustar" ++ [NUL]) by (subst h7; by rewrite slice_same by (simpl; lia)).
    transitivity (take 5 (slice 257 263 h7)); [|by rewrite Hu]. unfold slice. by rewrite take_take.
  - rewrite Hother by lia. peel h8; peel h7; peel h6; peel h5; peel h4; peel h3; peel h2; peel h1. exact P0.
Qed.

(** ** The loop ends *)

Lemma parse_octal_nonneg f n : parse_octal f = Some n -> 0 <= n.
Proof.
  unfold parse_octal. destruct (negb _); [done|]. case_bool_decide; [intros [= <-]; lia|]. unfold from_str_radix_8.
  set (ds := match reverse _ with _ :: _ => _ | [] => _ end). destruct (_ || _) eqn:Hd; [done|].
  apply orb_false_iff in Hd as [_ Hd%negb_false_iff]. destruct (_ <=? _); [|done]. intros [= <-]. revert Hd. clear.
  induction ds as [|c ds IH] using rev_ind; [done|]. rewrite forallb_app, octal_value_snoc. cbn [forallb].
  rewrite andb_true_r. intros [Hd Hc]%andb_true_iff. pose proof (octal_char c Hc). specialize (IH Hd). lia.
Qed.

Lemma get_range_bound b i j x : get_range b i j = Some x -> j <= Z.of_nat (length b).
Proof. unfold get_range. by destruct (Z.leb_spec j (Z.of_nat (length b))). Qed.

Lemma round_up_ge n : 0 <= n -> n <= round_up n < n + 512.
Proof. intros Hn. unfold round_up. Z.to_euclidean_division_equations. lia. Qed.

Lemma read_member_next b offset s next : read_member b offset = Ok s ->
  s = Skip next \/ (exists raw c, s = Member next raw c) -> offset + 512 <= next /\ offset + 512 <= Z.of_nat (length b).
Proof.
  unfold read_member, ok_or. destruct (get_range b offset (offset + 512)) as [h|] eqn:Hh; [|done].
  apply get_range_bound in Hh. destruct (forallb _ h); [by intros [= <-] [|(? & ? & ?)]|].
  destruct (parse_octal (slice 148 156 h)); [|done]. destruct (negb _); [done|].
  destruct (parse_octal (slice 124 136 h)) as [size|] eqn:Hs; [|done]. apply parse_octal_nonneg in Hs. pose proof (round_up_ge size Hs).
  destruct (header_name offset h); [|done]. destruct (_ <? _); [done|]. destruct (get_range b _ _); [|done].
  repeat case_bool_decide; intros [= <-] [|(? & ? & ?)]; simplify_eq; lia.
Qed.

Lemma read_from_ends fuel b offset seen : 0 <= offset -> Z.of_nat (length b) - offset < Z.of_nat fuel ->
  (0 < fuel)%nat -> exists r, read_from fuel b offset seen = Some r.
Proof.
  revert offset seen. induction fuel as [|fuel IH]; intros offset seen H0 Hf Hp; [lia|]. cbn [read_from].
  destruct (read_member b offset) as [[|next|next raw c]|e] eqn:Hm; [by eexists| | |by eexists].
  - destruct (read_member_next _ _ _ next Hm) as [Hn Hb]; [by left|]. apply IH; lia.
  - destruct (read_member_next _ _ _ next Hm) as [Hn Hb]; [right; by eexists _, _|].
    destruct (clean_name raw) as [nm|]; [|by eexists]. case_bool_decide; [by eexists|].
    destruct (IH next (nm :: seen)) as [[out|e] ->]; [lia..|by eexists|by eexists].
Qed.

(** ** Names are safe *)

Definition safe_name (nm : string) : Prop :=
  nm <> "" /\ starts_with "/" nm = false /\ str_contains "\" nm = false /\
  Forall (fun c => c <> "" /\ c <> "." /\ c <> "..") (split_on "/"%char nm).

Lemma clean_name_safe raw nm : clean_name raw = Ok nm -> safe_name nm /\ (raw = nm \/ raw = "./" +:+ nm).
Proof.
  unfold clean_name. set (n := default raw _). destruct (_ || _) eqn:Hc; [done|]. destruct (existsb _ _) eqn:Hs; [done|].
  intros [= <-]. rewrite !orb_false_iff in Hc. destruct Hc as [[He Hst] Hct]. split.
  - split_and!; [by apply bool_decide_eq_false in He|done|done|]. apply existsb_false in Hs. eapply Forall_impl; [exact Hs|].
    simpl. intros c Hc. rewrite !orb_false_iff in Hc. destruct Hc as [[H1 H2] H3]. unfold str_is_empty in H1.
    by rewrite !bool_decide_eq_false in *.
  - subst n. destruct (strip_prefix "./" raw) as [r|] eqn:Hr; [right; by apply strip_prefix_Some|by left].
Qed.

Lemma read_from_safe fuel b offset seen out : read_from fuel b offset seen = Some (Ok out) ->
  Forall (fun f => safe_name (name f) /\ name f ∉ seen) out /\ NoDup (map name out).
Proof.
  revert offset seen out. induction fuel as [|fuel IH]; intros offset seen out; [done|]. cbn [read_from].
  destruct (read_member b offset) as [[|next|next raw c]|e]; [intros [= <-]; split; constructor|by apply IH| |done].
  destruct (clean_name raw) as [nm|] eqn:Hn; [|done]. case_bool_decide as Hseen; [done|].
  destruct (read_from fuel b next (nm :: seen)) as [[out'|]|] eqn:Hr; [|done|done]. intros [= <-].
  apply IH in Hr as [Hall Hnd]. apply clean_name_safe in Hn as [Hsafe _]. split.
  - constructor; [done|]. eapply Forall_impl; [exact Hall|]. simpl. intros f [Hf Hfs]. split; [done|set_solver].
  - cbn. constructor; [|done]. intros (f & Hf & Hin)%list_elem_of_fmap. rewrite Forall_forall in Hall.
    destruct (Hall f Hin) as [_ Hns]. rewrite <- Hf in Hns. set_solver.
Qed.

(** Whatever bytes it is given, the reader ends without panicking, and
    the names it answers are relative paths without empty, [.] or [..]
    components, without backslashes, and all different. *)
Theorem read_names_safe (b : bytes) :
  exists r, read b = Some r /\
    forall files, r = Ok files -> Forall (fun f => safe_name (name f)) files /\ NoDup (map name files).
Proof.
  destruct (read_from_ends (S (length b)) b 0 []) as [r Hr]; [lia..|]. exists r. split; [done|]. intros files ->.
  apply read_from_safe in Hr as [Hall Hnd]. split; [|done]. eapply Forall_impl; [exact Hall|]. by intros f [].
Qed.

(** ** What is written is read *)

Lemma cstr_padded s n : Forall (fun c => c <> NUL) s -> cstr (s ++ zeros n) = s.
Proof.
  intros Hs. unfold cstr. rewrite span_all.
  - destruct n as [|n]; cbn; by rewrite app_nil_r.
  - eapply Forall_impl; [exact Hs|]. intros c Hc. by rewrite bool_decide_eq_false_2.
Qed.

(** A file an archive can hold. *)
Record can_hold (f : string * bytes) : Prop := {
  hold_short : (str_len f.1 <= 100)%nat;
  hold_text : valid_utf8 (as_bytes f.1) = true;
  hold_no_nul : Forall (fun c => c <> NUL) (as_bytes f.1);
  hold_clean : clean_name f.1 = Ok f.1;
  hold_size : Z.of_nat (length f.2) < 8 ^ 11;
}.

Lemma header_name_back nm size h offset : header_of nm size h -> valid_utf8 (as_bytes nm) = true ->
  Forall (fun c => c <> NUL) (as_bytes nm) -> header_name offset h = Ok nm.
Proof.
  intros Hh Hv Hn. unfold header_name. rewrite (hd_name _ _ _ Hh), cstr_padded, Hv by done. cbn [negb].
  rewrite (hd_magic _ _ _ Hh), bool_decide_eq_true_2, (hd_prefix _ _ _ Hh) by done. cbn. by rewrite from_as_bytes.
Qed.

Lemma read_written p f h q (pad := zeros (Z.to_nat (round_up (Z.of_nat (length f.2))) - length f.2)) :
  header_of f.1 (Z.of_nat (length f.2)) h -> can_hold f ->
  Z.of_nat (length p) + 512 + Z.of_nat (length f.2) <= U64_MAX ->
  read_member (p ++ h ++ f.2 ++ pad ++ q) (Z.of_nat (length p)) =
  Ok (Member (Z.of_nat (length (p ++ h ++ f.2 ++ pad))) f.1 f.2).
Proof.
  intros Hh Hf Hb. pose proof (hd_length _ _ _ Hh) as Hl. unfold BLOCK in Hl. unfold read_member, ok_or.
  rewrite (get_range_app p h) by lia.
  assert (Hnz : forallb (fun c => bool_decide (c = NUL)) h = false).
  { apply not_true_iff_false. rewrite forallb_forall. intros Hall. pose proof (hd_type _ _ _ Hh) as Ht. unfold byte_at in Ht.
    destruct (h !! 156%nat) as [c|] eqn:Hc; [|done]. apply list_elem_of_lookup_2, list_elem_of_In, Hall, bool_decide_eq_true in Hc.
    by subst. }
  rewrite Hnz, (hd_sum _ _ _ Hh), Z.eqb_refl, (hd_size _ _ _ Hh). cbn [negb].
  rewrite (header_name_back f.1 _ h _ Hh) by apply Hf.
  destruct (Z.ltb_spec U64_MAX (Z.of_nat (length p) + 512 + Z.of_nat (length f.2))); [lia|].
  rewrite app_assoc, (get_range_app (p ++ h) f.2) by (rewrite ?length_app; lia). rewrite (hd_type _ _ _ Hh).
  rewrite bool_decide_eq_true_2 by (by left). do 2 f_equal. subst pad. unfold zeros. rewrite !length_app, length_replicate.
  pose proof (round_up_ge (Z.of_nat (length f.2)) ltac:(lia)). lia.
Qed.

Lemma read_end p : read_member (p ++ zeros (2 * BLOCK)) (Z.of_nat (length p)) = Ok Done.
Proof.
  unfold read_member, ok_or. change (zeros (2 * BLOCK)) with (zeros 512 ++ zeros 512).
  rewrite (get_range_app p (zeros 512)) by (unfold zeros; rewrite ?length_replicate; lia). done.
Qed.

Lemma read_files files mtime out : 0 <= mtime < 8 ^ 11 -> Forall can_hold files ->
  write_files files mtime = Some out ->
  forall fuel p seen, NoDup (seen ++ map fst files) -> (length files < fuel)%nat ->
    Z.of_nat (length p + length out) <= U64_MAX ->
    read_from fuel (p ++ out ++ zeros (2 * BLOCK)) (Z.of_nat (length p)) seen =
    Some (Ok (map (fun f => mkTarFile f.1 f.2) files)).
Proof.
  intros Hm Hall. revert out. induction Hall as [|[nm d] files Hf _ IH]; intros out Hout fuel p seen Hnd Hfuel Hb.
  - injection Hout as <-. destruct fuel as [|fuel]; [simpl in Hfuel; lia|]. cbn [read_from app]. by rewrite read_end.
  - cbn [write_files] in Hout.
    destruct (write_header_of nm (Z.of_nat (length d)) mtime) as (h & Hw & Hh); [apply Hf|split; [lia|apply Hf]|done|].
    rewrite Hw in Hout. cbn [mbind option_bind] in Hout. destruct (write_files files mtime) as [rest|] eqn:Hr; [|done].
    injection Hout as <-. set (pad := zeros (Z.to_nat (round_up (Z.of_nat (length d))) - length d)) in *. destruct fuel as [|fuel]; [simpl in Hfuel; lia|]. cbn [read_from].
    assert (Hshape : p ++ (h ++ d ++ pad ++ rest) ++ zeros (2 * BLOCK) = p ++ h ++ d ++ pad ++ (rest ++ zeros (2 * BLOCK)))
      by (by rewrite <- !app_assoc).
    rewrite Hshape, (read_written p (nm, d) h) by (done || (rewrite !length_app in Hb; pose proof (hd_length _ _ _ Hh); unfold BLOCK in *; cbn; lia)).
    rewrite (hold_clean _ Hf). cbn [fst snd map] in *.
    apply NoDup_app in Hnd as (Hs & Hd & Hn). apply NoDup_cons in Hn as [Hni Hn].
    rewrite bool_decide_eq_false_2 by (intros Hin; apply (Hd nm Hin); by left).
    fold pad. replace (p ++ h ++ d ++ pad ++ rest ++ zeros (2 * BLOCK)) with ((p ++ h ++ d ++ pad) ++ rest ++ zeros (2 * BLOCK))
      by (by rewrite <- !app_assoc).
    rewrite (IH rest); [done|done| |simpl in Hfuel; lia|rewrite !length_app in *; lia].
    cbn. constructor; [intros [?|?]%elem_of_app; [by apply (Hd nm); [|left]|done]|].
    apply NoDup_app. split_and!; [done| |done]. intros x Hx Hx'. apply (Hd x Hx). by right.
Qed.

(** The blocks of the members. *)
Definition archive_size (files : list (string * bytes)) : Z :=
  foldr (fun f n => 512 + round_up (Z.of_nat (length f.2)) + n) 0 files.

Lemma write_files_some files mtime : 0 <= mtime < 8 ^ 11 -> Forall can_hold files ->
  exists out, write_files files mtime = Some out /\ (length files <= length out)%nat /\ Z.of_nat (length out) = archive_size files.
Proof.
  intros Hm. induction 1 as [|[nm d] files Hf _ (out & IH & Hl & Hz)]; [by exists []|]. cbn [write_files].
  destruct (write_header_of nm (Z.of_nat (length d)) mtime) as (h & -> & Hh); [apply Hf|split; [lia|apply Hf]|done|].
  rewrite IH. eexists. split; [done|]. unfold zeros. rewrite !length_app, (hd_length _ _ _ Hh), length_replicate. unfold BLOCK.
  pose proof (round_up_ge (Z.of_nat (length d)) ltac:(lia)). cbn. fold (archive_size files). lia.
Qed.

(** An archive reads back as its files. *)
Lemma read_written_files (files : list (string * bytes)) (mtime : Z) (b : bytes) : Forall can_hold files -> NoDup (map fst files) ->
  0 <= mtime < 8 ^ 11 -> archive_size files <= U64_MAX -> write files mtime = Some b ->
  read b = Some (Ok (map (fun f => mkTarFile f.1 f.2) files)).
Proof.
  intros Hall Hnd Hm Hsmall. destruct (write_files_some files mtime Hm Hall) as (out & Hout & Hl & Hz). unfold write. rewrite Hout.
  intros [= <-]. unfold read. apply (read_files files mtime out Hm Hall Hout _ [] []); [done| |simpl; lia].
  rewrite length_app. lia.
Qed.

(** C35: an archive of files with safe, distinct names that fit a header is
    written without panicking and reads back as exactly those files, in
    order, byte for byte. *)
Theorem write_then_read (files : list (string * bytes)) (mtime : Z) (Hall : Forall can_hold files)
  (Hnd : NoDup (map fst files)) (Hm : 0 <= mtime < 8 ^ 11)
  (small : archive_size files <= U64_MAX) :
  exists b, write files mtime = Some b /\ read b = Some (Ok (map (fun f => mkTarFile f.1 f.2) files)).
Proof.
  destruct (write_files_some files mtime Hm Hall) as (out & Hout & _). eexists. split; [by unfold write; rewrite Hout|].
  apply (read_written_files files mtime); [done..|]. by unfold write; rewrite Hout.
Qed.

(** *** Concrete instances *)

Definition sample : list (string * bytes) := [("pack.json", as_bytes "{}"); ("anchors/epoch-00000000.json", as_bytes "[]")].

Lemma write_then_read_witness :
  exists b, write sample 1782993600 = Some b /\ read b = Some (Ok (map (fun f => mkTarFile f.1 f.2) sample)).
Proof.
  apply (write_then_read sample 1782993600).
  - repeat constructor; try (apply (bool_decide_unpack _); vm_compute; exact I); done.
  - apply (bool_decide_unpack _). vm_compute. exact I.
  - lia.
  - unfold U64_MAX. vm_compute. discriminate.
Defined.

(** A path out of the archive, a repeated name and a cut archive are
    refused. *)
Example unsafe_archives_refused :
  (b ← write [("../x", [])] 0; read b) = Some (Err (BadName "../x")) /\
  (b ← write [("x", []); ("./x", [])] 0; read b) = Some (Err (Duplicate "x")) /\
  (b ← write [("x", as_bytes "data")] 0; read (take 600 b)) = Some (Err Truncated).
Proof. split_and!; vm_compute; reflexivity. Qed.
