(* ===== verification/Rekor.v ===== *)
(** * Rekor log entries verified offline ([cloakpipe-verify/src/rekor.rs])

    A log entry is accepted when the log's key signed it, it commits to the
    artifact under the artifact signer's key, and an RFC 6962 inclusion proof
    leads from it to a root the log signed.  The tree itself is the reference
    ([tree_hash], [audit_path]), given by recursion on the leaves as in
    RFC 6962; the code climbs it by the bits of two indices, as in RFC 9162.

    Signatures, PEM and DER are the crates'.  Texts in error values are left
    out; a slice inside a character would be [None]. *)

From stdpp Require Import pretty.
From S2P Require Import Prelude BTree Json Text Utf8 Crates Concrete Action Ledger CanonicalJson Stream OfflineDecisions VerifyCrates.

Inductive RekorError :=
| Malformed
| BadBody
| SetInvalid
| LogIdMismatch
| ArtifactHashMismatch
| SignerKeyMismatch
| ArtifactSignatureInvalid
| InclusionProofInvalid
| CheckpointInvalid
| CheckpointMismatch
| UuidMismatch
| BadTrustInput.

Definition OID_EC_PUBLIC_KEY : string := "1.2.840.10045.2.1".
Definition OID_P256 : string := "1.2.840.10045.3.1.7".
Definition OID_ED25519 : string := "1.3.101.112".

(** ** The log's tree *)

Section Tree.
Context {HC : HashCrates}.

Definition leaf_text (entry : bytes) : bytes := ascii_of_N 0 :: entry.
Definition node_text (l r : bytes) : bytes := ascii_of_N 1 :: l ++ r.
Definition leaf_hash (entry : bytes) : bytes := sha256 (leaf_text entry).
Definition node_hash (l r : bytes) : bytes := sha256 (node_text l r).

(** [while fnode & 1 == 0 && fnode != 0 { fnode >>= 1; snode >>= 1 }] *)
Fixpoint shift_positive (f : positive) (s : N) : N * N :=
  match f with xO f => shift_positive f (s / 2) | _ => (Npos f, s) end.
Definition shift_zeros (f s : N) : N * N := match f with N0 => (0%N, s) | Npos f => shift_positive f s end.

(** The loop over the path: the last [snode] and hash. *)
Fixpoint climb (fnode snode : N) (r : bytes) (path : list bytes) : option (N * bytes) :=
  match path with
  | [] => Some (snode, r)
  | p :: path =>
      if (snode =? 0)%N then None
      else
        let '(f, s, r) :=
          if N.odd fnode || (fnode =? snode)%N then
            let '(f, s) := if N.even fnode then shift_zeros fnode snode else (fnode, snode) in
            (f, s, node_hash p r)
          else (fnode, snode, node_hash r p) in
        climb (f / 2) (s / 2) r path
  end.

Definition verify_inclusion (index size : N) (leaf : bytes) (path : list bytes) (root : bytes) : bool :=
  if (size <=? index)%N then false
  else match climb index (size - 1) leaf path with
       | Some (s, r) => (s =? 0)%N && bool_decide (r = root)
       | None => false
       end.
End Tree.

(** ** Keys *)

Section Keys.
Context {HC : HashCrates} {DC : DerCrates} {PC : P256Crate}.

Record RekorKey := mkRekorKey { key : P256Key; log_id : bytes }.

Definition from_spki_der (der_bytes : bytes) : result RekorError RekorKey :=
  let? spki := ok_or (spki_from_der der_bytes) BadTrustInput in
  if negb (bool_decide (spki_oid spki = OID_EC_PUBLIC_KEY)) || negb (bool_decide (spki_curve spki = Some OID_P256))
  then Err BadTrustInput
  else
    let? point := ok_or (spki_key spki) BadTrustInput in
    let? key := ok_or (p256_key_from_sec1 point) BadTrustInput in
    let? canonical := ok_or (spki_to_der spki) BadTrustInput in
    Ok (mkRekorKey key (sha256 canonical)).

Definition from_pem (pem : bytes) : result RekorError RekorKey :=
  let? (label, der_bytes) := ok_or (pem_decode pem) BadTrustInput in
  if negb (bool_decide (label = "PUBLIC KEY")) then Err BadTrustInput
  else from_spki_der der_bytes.

Definition log_id_hex (k : RekorKey) : string := hex_encode (log_id k).
End Keys.

(** ** Documents *)

Record InclusionProof := mkInclusionProof {
  p_checkpoint : string;
  p_hashes : list string;
  p_log_index : Z;
  p_root_hash : string;
  p_tree_size : Z;
}.
Record Entry := mkEntry {
  body : string;
  integrated_time : Z;
  entry_log_id : string;
  log_index : Z;
  signed_entry_timestamp : string;
  inclusion_proof : InclusionProof;
}.
Record VerifiedRekorEntry := mkVerified { v_integrated_time : Z; v_log_index : Z }.

(** A derived struct reads an object by member names, or an array by
    position; [strict] refuses members it does not name. *)
Definition struct_members (strict : bool) (names : list string) (v : value) : option (list value) :=
  match v with
  | VObject o =>
      if strict && existsb (fun k => negb (bool_decide (k ∈ names))) (BTree.keys o) then None
      else mapM (fun k => BTree.get k o) names
  | VArray a => if decide (length a = length names) then Some a else None
  | _ => None
  end.
Definition as_int64 (v : value) : option Z := match v with VNumber n => Json.as_i64 n | _ => None end.
Definition as_uint64 (v : value) : option Z := match v with VNumber n => Json.as_u64 n | _ => None end.

Definition proof_of_value (v : value) : option InclusionProof :=
  match struct_members false ["checkpoint"; "hashes"; "logIndex"; "rootHash"; "treeSize"] v with
  | Some [c; hs; i; r; n] =>
      c ← as_str c; hs ← as_array hs; hs ← mapM as_str hs; i ← as_uint64 i; r ← as_str r; n ← as_uint64 n;
      Some (mkInclusionProof c hs i r n)
  | _ => None
  end.
Definition entry_of_value (v : value) : option Entry :=
  match struct_members false ["body"; "integratedTime"; "logID"; "logIndex"; "verification"] v with
  | Some [b; t; l; i; ver] =>
      b ← as_str b; t ← as_int64 t; l ← as_str l; i ← as_uint64 i;
      match struct_members false ["signedEntryTimestamp"; "inclusionProof"] ver with
      | Some [s; p] => s ← as_str s; p ← proof_of_value p; Some (mkEntry b t l i s p)
      | _ => None
      end
  | _ => None
  end.

(** The parts of a [hashedrekord] body, every level strict. *)
Record Body := mkBody {
  api_version : string;
  body_kind : string;
  hash_algorithm : string;
  hash_value : string;
  signature_content : string;
  public_key_content : string;
}.
Definition body_of_value (v : value) : option Body :=
  match struct_members true ["apiVersion"; "kind"; "spec"] v with
  | Some [a; k; spec] =>
      a ← as_str a; k ← as_str k;
      match struct_members true ["data"; "signature"] spec with
      | Some [d; s] =>
          match struct_members true ["hash"] d, struct_members true ["content"; "publicKey"] s with
          | Some [h], Some [c; p] =>
              match struct_members true ["algorithm"; "value"] h, struct_members true ["content"] p with
              | Some [alg; x], Some [pc] =>
                  alg ← as_str alg; x ← as_str x; c ← as_str c; pc ← as_str pc;
                  Some (mkBody a k alg x c pc)
              | _, _ => None
              end
          | _, _ => None
          end
      | _ => None
      end
  | _ => None
  end.

(** ** Checks *)

(** [s.split_once(m)] and [s.rsplit_once(c)]. *)
Definition split_once_str (m s : string) : option (string * string) :=
  i ← str_find m s;
  Some (from_bytes (take i (as_bytes s)), from_bytes (drop (i + str_len m) (as_bytes s))).
Definition rsplit_once (c : ascii) (s : string) : option (string * string) :=
  let (after, rest) := span (fun x => negb (bool_decide (x = c))) (reverse (as_bytes s)) in
  match rest with
  | [] => None
  | _ :: before => Some (from_bytes (reverse before), from_bytes (reverse after))
  end.

(** ["—\u{20}"], an em dash and a space. *)
Definition SIGNATURE_PREFIX : string := from_bytes (map ascii_of_N [226; 128; 148; 32]%N).

Definition non_empty (l : option string) : option string :=
  match l with Some l => if str_is_empty l then None else Some l | None => None end.

Definition parse_size (l : string) : option Z :=
  if str_is_empty l || negb (str_all is_ascii_digit l) then None
  else
    let n := Z.of_N (decimal_value 0 l) in
    if (n <=? U64_MAX)%Z then Some n else None.

Definition is_base64_char (c : ascii) : bool :=
  is_ascii_alphanumeric c || bool_decide (c ∈ ["+"%char; "/"%char; "="%char]).
Definition is_ascii_hexdigit (c : ascii) : bool := is_ascii_digit c || in_range "a"%char c "f"%char || in_range "A"%char c "F"%char.

(** A JSON member name or string without escapes. *)
Definition quoted (s : string) : string := String quote (s +:+ String quote "").

(** What the SignedEntryTimestamp signs. *)
Definition signed_entry (e : Entry) : string :=
  "{" +:+ quoted "body" +:+ ":" +:+ quoted (body e) +:+ "," +:+ quoted "integratedTime" +:+ ":" +:+ pretty (integrated_time e)
  +:+ "," +:+ quoted "logID" +:+ ":" +:+ quoted (entry_log_id e) +:+ "," +:+ quoted "logIndex" +:+ ":" +:+ pretty (log_index e)
  +:+ "}".

Section Checks.
Context {HC : HashCrates} {JC : JsonCrates} {SC : SignatureCrates} {VC : VerifierCrate} {S5 : Sha512Crate}
        {PC : P256Crate} {DC : DerCrates}.

Definition hex32 (s : string) : option bytes :=
  if negb (bool_decide (str_len s = 64)) || existsb is_ascii_uppercase (as_bytes s) then None
  else b ← hex_decode s; if decide (length b = 32) then Some b else None.

Definition check_body (body artifact signer : bytes) : result RekorError unit :=
  let! v := (if json_no_duplicates body then json_from_slice body else None) else Err BadBody in
  let! b := body_of_value v else Err BadBody in
  if negb (bool_decide (api_version b = "0.0.1")) || negb (bool_decide (body_kind b = "hashedrekord")) then Err BadBody
  else if negb (bool_decide (hash_algorithm b = "sha512")) then Err BadBody
  else if negb (bool_decide (hash_value b = hex_encode (sha512 artifact))) then Err ArtifactHashMismatch
  else
    let? pem := ok_or (base64_decode (public_key_content b)) BadBody in
    let? (label, spki_der) := ok_or (pem_decode pem) BadBody in
    if negb (bool_decide (label = "PUBLIC KEY")) then Err BadBody
    else
      let? spki := ok_or (spki_from_der spki_der) BadBody in
      if negb (bool_decide (spki_oid spki = OID_ED25519)) || spki_has_parameters spki then Err SignerKeyMismatch
      else if negb (bool_decide (spki_key spki = Some signer)) then Err SignerKeyMismatch
      else
        let? sig := ok_or (base64_decode (signature_content b)) BadBody in
        if negb (bool_decide (length sig = 64)) then Err ArtifactSignatureInvalid
        else
          let? vk := ok_or (verifying_key_from_bytes signer) SignerKeyMismatch in
          if ed25519ph_verify_strict vk artifact sig then Ok tt else Err ArtifactSignatureInvalid.

(** The signature lines: whether any is the log's. *)
Fixpoint checkpoint_signed (k : RekorKey) (text : bytes) (ls : list string) (signed : bool) : result RekorError bool :=
  match ls with
  | [] => Ok signed
  | line :: ls =>
      let! rest := strip_prefix SIGNATURE_PREFIX line else Err CheckpointInvalid in
      let! (_, b64) := rsplit_once " "%char rest else Err CheckpointInvalid in
      let! raw := base64_decode b64 else Err CheckpointInvalid in
      if bool_decide (length raw < 5) || negb (bool_decide (take 4 raw = take 4 (log_id k))) then checkpoint_signed k text ls signed
      else
        let! sig := p256_signature_from_der (drop 4 raw) else Err CheckpointInvalid in
        if negb (p256_verify (key k) text sig) then Err CheckpointInvalid
        else checkpoint_signed k text ls true
  end.

Definition verify_checkpoint (note : string) (k : RekorKey) (tree_size : Z) (root : bytes) : result RekorError unit :=
  let? (text, sigs) := ok_or (split_once_str (LF +:+ LF) note) CheckpointInvalid in
  let text := text +:+ LF in
  let ls := lines text in
  let? _ := ok_or (non_empty (ls !! 0)) CheckpointInvalid in
  let? size := ok_or (l ← ls !! 1; parse_size l) CheckpointInvalid in
  let? cp_root := ok_or (l ← ls !! 2; base64_decode l) CheckpointInvalid in
  let? signed := checkpoint_signed k (as_bytes text) (filter (fun l => str_is_empty l = false) (lines sigs)) false in
  if negb signed then Err CheckpointInvalid
  else if negb (size =? tree_size)%Z || negb (bool_decide (cp_root = root)) then Err CheckpointMismatch
  else Ok tt.

(** The leaf a UUID names: 64 digits, or 16 digits of a tree ID before
    them.  [None] is a slice inside a character. *)
Definition uuid_leaf (uuid : string) : option (result RekorError string) :=
  if negb (is_ascii uuid) then Some (Err UuidMismatch)
  else if bool_decide (str_len uuid = 64) then Some (Ok uuid)
  else if bool_decide (str_len uuid = 80) then
    tree ← str_slice uuid 0 16;
    if str_all is_ascii_hexdigit tree then Ok <$> str_from uuid 16 else Some (Err UuidMismatch)
  else Some (Err UuidMismatch).

(** The checks from the UUID on. *)
Definition verify_in_log (uuid : string) (e : Entry) (k : RekorKey) (body_bytes : bytes) :
    option (result RekorError VerifiedRekorEntry) :=
  let leaf := leaf_hash body_bytes in
  u ← uuid_leaf uuid;
  Some (
    let? u := u in
    if negb (bool_decide (hex32 u = Some leaf)) then Err UuidMismatch
    else
      let p := inclusion_proof e in
      let? root := ok_or (hex32 (p_root_hash p)) Malformed in
      let? path := try_map (fun h => ok_or (hex32 h) Malformed) (p_hashes p) in
      if negb (verify_inclusion (Z.to_N (p_log_index p)) (Z.to_N (p_tree_size p)) leaf path root)
      then Err InclusionProofInvalid
      else
        let? _ := verify_checkpoint (p_checkpoint p) k (p_tree_size p) root in
        Ok (mkVerified (integrated_time e) (log_index e))).

Definition verify_rekor_entry (uuid : string) (entry : value) (k : RekorKey) (artifact signer : bytes) :
    option (result RekorError VerifiedRekorEntry) :=
  match entry_of_value entry with
  | None => Some (Err Malformed)
  | Some e =>
      match hex32 (entry_log_id e) with
      | None => Some (Err Malformed)
      | Some id =>
          if negb (bool_decide (id = log_id k)) then Some (Err LogIdMismatch)
          else if negb (str_all is_base64_char (body e)) then Some (Err Malformed)
          else
            match base64_decode (signed_entry_timestamp e) with
            | None => Some (Err Malformed)
            | Some set_bytes =>
                match p256_signature_from_der set_bytes with
                | None => Some (Err SetInvalid)
                | Some s =>
                    if negb (p256_verify (key k) (as_bytes (signed_entry e)) s) then Some (Err SetInvalid)
                    else
                      match base64_decode (body e) with
                      | None => Some (Err Malformed)
                      | Some body_bytes =>
                          match check_body body_bytes artifact signer with
                          | Err x => Some (Err x)
                          | Ok _ => verify_in_log uuid e k body_bytes
                          end
                      end
                end
            end
      end
  end.
End Checks.

(** ** Climbing a tree

    The indices of a leaf and of the last leaf, as the loop halves them,
    follow the recursion of RFC 6962: in a tree of more than [2^q] leaves
    (and at most twice as many) the last step combines the two subtrees, and
    the steps before it are those of the subtree. *)

Section Climb.
Context {HC : HashCrates}.
#[local] Open Scope N_scope.
Implicit Types (f s q : N) (r R p : bytes) (path : list bytes).

Lemma shift_odd f s : N.odd f = true -> shift_zeros f s = (f, s).
Proof. by destruct f as [|[|f|]]. Qed.
Lemma shift_even f s : N.even f = true -> f <> 0 -> shift_zeros f s = shift_zeros (f / 2) (s / 2).
Proof. destruct f as [|[f|f|]]; try done. intros _ _. by rewrite <- (N.div2_div (N.pos f~0)). Qed.

Lemma pow_succ q : 2 ^ N.succ q = 2 * 2 ^ q.
Proof. apply N.pow_succ_r'. Qed.
Lemma pow_pos q : 0 < 2 ^ q.
Proof. apply N.neq_0_lt_0. by apply N.pow_nonzero. Qed.

Lemma parity f : (N.odd f = true /\ f = 2 * (f / 2) + 1) \/ (N.odd f = false /\ N.even f = true /\ f = 2 * (f / 2)).
Proof.
  rewrite <- N.negb_even. destruct (N.even f) eqn:He; [right|left].
  - apply N.even_spec in He as [g ->]. split_and!; [done|done|]. rewrite N.mul_comm, N.div_mul by done. lia.
  - split; [done|]. rewrite <- N.negb_odd, negb_false_iff in He. apply N.odd_spec in He as [g ->].
    rewrite N.mul_comm, N.div_add_l by done. change (1 / 2) with 0. lia.
Qed.

Lemma odd_double n m : n = 2 * m -> N.odd n = false.
Proof. intros ->. by rewrite N.odd_mul. Qed.
Lemma odd_shifted n m f : n = 2 * m + f -> N.odd n = N.odd f.
Proof. intros ->. by rewrite N.odd_add, N.odd_mul. Qed.

Lemma shift_right q f s : 0 < f < 2 ^ q -> exists q' f' s', 0 < q' /\ f' < 2 ^ q' /\ s' <= s /\
  (f = s -> f' = s') /\ (s < 2 ^ q -> s' < 2 ^ q') /\
  shift_zeros f s = (f', s') /\ shift_zeros (2 ^ q + f) (2 ^ q + s) = (2 ^ q' + f', 2 ^ q' + s').
Proof.
  revert f s. induction q as [|q IH] using N.peano_ind; intros f s Hf; [simpl in Hf; lia|].
  rewrite pow_succ in *. destruct (parity f) as [[Ho Hd]|(Ho & He & Hd)].
  - exists (N.succ q), f, s. rewrite pow_succ. rewrite (shift_odd f) by done. rewrite shift_odd by by rewrite (odd_shifted _ (2 ^ q) f) by lia.
    split_and!; lia || done.
  - destruct (IH (f / 2) (s / 2)) as (q' & f' & s' & Hq & Hf' & Hs & Heq & Hlt & H1 & H2); [lia|].
    exists q', f', s'. rewrite (shift_even f) by (done || lia).
    rewrite (shift_even (2 * 2 ^ q + f)); [|by rewrite <- N.negb_odd, (odd_shifted _ (2 ^ q) f), Ho by lia|lia].
    replace ((2 * 2 ^ q + f) / 2) with (2 ^ q + f / 2) by (rewrite (N.add_comm _ f), (N.mul_comm 2), N.div_add by done; lia).
    replace ((2 * 2 ^ q + s) / 2) with (2 ^ q + s / 2) by (rewrite (N.add_comm _ s), (N.mul_comm 2), N.div_add by done; lia).
    split_and!; try done.
    + pose proof (N.Div0.div_le_upper_bound s 2 s). lia.
    + intros ->. by apply Heq.
    + intros Hs'. apply Hlt. apply N.Div0.div_lt_upper_bound. lia.
Qed.

Lemma shift_pow q : shift_zeros (2 ^ q) (2 ^ q) = (1, 1).
Proof.
  induction q as [|q IH] using N.peano_ind; [done|]. pose proof (pow_pos q). rewrite pow_succ.
  rewrite shift_even; [|by rewrite <- N.negb_odd, (odd_double _ (2 ^ q))|lia].
  by rewrite (N.mul_comm 2), N.div_mul.
Qed.

Lemma climb_root f r path R : climb f 0 r path = Some (0, R) <-> path = [] /\ r = R.
Proof. destruct path; simpl; naive_solver. Qed.

(** A path whose last step combines with [p] as [join] says. *)
Definition last_step (join : bytes -> bytes -> bytes) (sub : list bytes -> option (N * bytes)) (path : list bytes) (R : bytes) : Prop :=
  exists init p r', path = init ++ [p] /\ sub init = Some (0, r') /\ R = join r' p.

Lemma last_step_cons join sub sub' p path R : (forall init, sub (p :: init) = sub' init) -> sub [] = None \/ (exists s r, sub [] = Some (s, r) /\ s <> 0) ->
  last_step join sub (p :: path) R <-> last_step join sub' path R.
Proof.
  intros Hs Hnil. split.
  - intros ([|p' init] & p0 & r' & He & Hsub & ->); [destruct Hnil as [Hn|(? & ? & Hn & ?)]; rewrite Hsub in Hn; simplify_eq|].
    injection He as -> ->. exists init, p0, r'. by rewrite <- Hs.
  - intros (init & p0 & r' & -> & Hsub & ->). exists (p :: init), p0, r'. by rewrite Hs.
Qed.

Lemma last_step_root join f r p path R : last_step join (climb f 0 r) (p :: path) R <-> path = [] /\ R = join r p.
Proof.
  split.
  - intros (init & p0 & r' & He & [-> ->]%climb_root & ->). by injection He as <- ->.
  - intros [-> ->]. by exists [], p, r.
Qed.

Lemma climb_left q f s r path R : f < 2 ^ q -> 2 ^ q <= s < 2 * 2 ^ q ->
  climb f s r path = Some (0, R) <-> last_step node_hash (climb f (2 ^ q - 1) r) path R.
Proof.
  revert f s r path. induction q as [|q IH] using N.peano_ind; intros f s r path Hf Hs.
  - simpl in *. assert (f = 0) as -> by lia. assert (s = 1) as -> by lia. destruct path as [|p path].
    + simpl. split; [done|]. intros ([|] & ? & ? & ? & ?); done.
    + rewrite last_step_root. cbn. rewrite climb_root. naive_solver.
  - rewrite pow_succ in *. pose proof (pow_pos q). destruct path as [|p path].
    { simpl. split; [intros [= ? ?]; lia|]. intros ([|] & ? & ? & ? & ?); done. }
    rewrite (last_step_cons _ _ (climb (f / 2) (2 ^ q - 1) (if N.odd f then node_hash p r else node_hash r p))).
    + rewrite <- (IH (f / 2) (s / 2)); [|apply N.Div0.div_lt_upper_bound; lia|].
      2: { split; [apply N.div_le_lower_bound; lia|apply N.Div0.div_lt_upper_bound; lia]. }
      cbn [climb]. destruct (N.eqb_spec s 0); [lia|]. destruct (N.eqb_spec f s); [lia|]. rewrite orb_false_r.
      destruct (parity f) as [[Ho _]|(Ho & He & _)]; rewrite Ho; [|done]. by rewrite <- N.negb_odd, Ho.
    + intros init. cbn [climb]. destruct (N.eqb_spec (2 * 2 ^ q - 1) 0); [lia|].
      assert (Hd2 : (2 * 2 ^ q - 1) / 2 = 2 ^ q - 1) by (symmetry; apply (N.div_unique _ _ _ 1); lia).
      destruct (parity f) as [[Ho _]|(Ho & He & Hd)]; rewrite Ho; cbn [orb].
      * rewrite <- N.negb_odd, Ho. cbn [negb]. by rewrite Hd2.
      * destruct (N.eqb_spec f (2 * 2 ^ q - 1)); [lia|by rewrite Hd2].
    + right. exists (2 * 2 ^ q - 1), r. split; [done|lia].
Qed.

Lemma climb_right q f s r path R : f <= s -> s < 2 ^ q ->
  climb (2 ^ q + f) (2 ^ q + s) r path = Some (0, R) <-> last_step (fun r p => node_hash p r) (climb f s r) path R.
Proof.
  revert q f s r. induction path as [|p path IH]; intros q f s r Hf Hs; pose proof (pow_pos q).
  { simpl. split; [intros [= ? ?]; lia|]. intros ([|] & ? & ? & ? & ?); done. }
  destruct (N.eq_dec s 0) as [->|Hs0].
  - assert (f = 0) as -> by lia. rewrite last_step_root, !N.add_0_r. cbn [climb]. destruct (N.eqb_spec (2 ^ q) 0); [lia|].
    rewrite N.eqb_refl, orb_true_r. assert (Hone : (if N.even (2 ^ q) then shift_zeros (2 ^ q) (2 ^ q) else (2 ^ q, 2 ^ q)) = (1, 1)).
    { rewrite shift_pow. destruct (N.even (2 ^ q)) eqn:He; [done|]. rewrite <- N.negb_odd, negb_false_iff in He.
      rewrite <- (shift_odd _ (2 ^ q) He). apply shift_pow. }
    rewrite Hone. change (1 / 2) with 0. rewrite climb_root. naive_solver.
  - assert (Hq : exists q0, q = N.succ q0 /\ 2 ^ q = 2 * 2 ^ q0).
    { exists (N.pred q). assert (q <> 0) by (intros ->; simpl in Hs; lia). rewrite <- pow_succ, N.succ_pred by done. done. }
    destruct Hq as (q0 & -> & Hp). rewrite Hp in *.
    assert (Hhalf : forall n m, (2 * m + n) / 2 = m + n / 2) by (intros n m; rewrite (N.add_comm _ n), (N.mul_comm 2), N.div_add by done; lia).
    set (st := if N.odd f || (f =? s) then let '(f', s') := if N.even f then shift_zeros f s else (f, s) in (f', s', node_hash p r)
               else (f, s, node_hash r p)).
    assert (Hst : forall path, climb f s r (p :: path) = let '(f', s', r') := st in climb (f' / 2) (s' / 2) r' path).
    { intros path'. cbn [climb]. destruct (N.eqb_spec s 0); [lia|]. done. }
    assert (Hsim : exists q' f' s' r', st = (f', s', r') /\ f' <= s' /\ s' < 2 * 2 ^ q' /\
      forall path, climb (2 * 2 ^ q0 + f) (2 * 2 ^ q0 + s) r (p :: path) = climb (2 ^ q' + f' / 2) (2 ^ q' + s' / 2) r' path).
    { cbn [climb]. destruct (N.eqb_spec (2 * 2 ^ q0 + s) 0); [lia|]. rewrite (odd_shifted (2 * 2 ^ q0 + f) (2 ^ q0) f) by done.
      replace (2 * 2 ^ q0 + f =? 2 * 2 ^ q0 + s) with (f =? s) by (destruct (N.eqb_spec f s), (N.eqb_spec (2 * 2 ^ q0 + f) (2 * 2 ^ q0 + s)); lia).
      subst st. rewrite <- !N.negb_odd, (odd_shifted (2 * 2 ^ q0 + f) (2 ^ q0) f) by done.
      destruct (parity f) as [[Ho Hd]|(Ho & He & Hd)]; rewrite Ho; cbn [negb orb].
      - exists q0, f, s, (node_hash p r). split_and!; [done|done|done|]. intros path'. by rewrite !Hhalf.
      - destruct (N.eqb_spec f s) as [->|Hne]; [|exists q0, f, s, (node_hash r p); split_and!; [done|done|done|]; intros path'; by rewrite !Hhalf].
        destruct (shift_right (N.succ q0) s s) as (q' & f' & s' & Hq' & Hf' & Hs' & Heq & Hlt & H1 & H2); [rewrite Hp; lia|].
        rewrite Hp in *. specialize (Heq eq_refl). subst f'. rewrite H1, H2. exists (N.pred q'), s', s', (node_hash p r).
        assert (Hp' : 2 ^ q' = 2 * 2 ^ N.pred q') by (rewrite <- pow_succ, N.succ_pred by lia; done). rewrite Hp' in *.
        split_and!; [done|done|by apply Hlt|]. intros path'. by rewrite !Hhalf. }
    destruct Hsim as (q' & f' & s' & r' & Hst' & Hfs & Hs' & Hsim).
    rewrite Hsim, IH; [|by apply N.Div0.div_le_mono|apply N.Div0.div_lt_upper_bound; lia].
    symmetry. apply last_step_cons; [intros init; by rewrite Hst, Hst'|]. right. by exists s, r.
Qed.
End Climb.

(** ** The tree of RFC 6962 *)

Section Reference.
Context {HC : HashCrates} {HL : HashLaws}.
Implicit Types (leaves path init : list bytes) (leaf : bytes).

(** The type [[u8; 32]]. *)
Definition is_hash (x : bytes) : Prop := length x = 32.

(** The largest power of two below the number of leaves. *)
Definition split_point (n : nat) : nat := 2 ^ Nat.log2 (n - 1).

Fixpoint tree_hash_fuel (fuel : nat) (leaves : list bytes) : bytes :=
  match fuel, leaves with
  | S fuel, _ :: _ :: _ =>
      let k := split_point (length leaves) in
      node_hash (tree_hash_fuel fuel (take k leaves)) (tree_hash_fuel fuel (drop k leaves))
  | _, x :: _ => x
  | _, [] => []
  end.
Definition tree_hash (leaves : list bytes) : bytes := tree_hash_fuel (length leaves) leaves.

(** The siblings on the way from leaf [i] up to the root. *)
Fixpoint audit_path_fuel (fuel : nat) (leaves : list bytes) (i : nat) : list bytes :=
  match fuel, leaves with
  | S fuel, _ :: _ :: _ =>
      let k := split_point (length leaves) in
      if i <? k then audit_path_fuel fuel (take k leaves) i ++ [tree_hash (drop k leaves)]
      else audit_path_fuel fuel (drop k leaves) (i - k) ++ [tree_hash (take k leaves)]
  | _, _ => []
  end.
Definition audit_path (leaves : list bytes) (i : nat) : list bytes := audit_path_fuel (length leaves) leaves i.

Lemma split_bounds n : 2 <= n -> 0 < split_point n /\ split_point n <= n - 1 /\ n - 1 < 2 * split_point n.
Proof.
  intros Hn. unfold split_point. pose proof (Nat.log2_spec (n - 1) ltac:(lia)) as [H1 H2]. rewrite Nat.pow_succ_r' in H2. lia.
Qed.

(** The parts of a tree of two or more leaves. *)
Lemma halves (leaves : list bytes) (k := split_point (length leaves)) : 2 <= length leaves ->
  length (take k leaves) = k /\ length (drop k leaves) = length leaves - k /\ 0 < k < length leaves.
Proof. intros Hl. pose proof (split_bounds _ Hl). subst k. rewrite length_take, length_drop. lia. Qed.

Lemma tree_hash_fuel_enough n m leaves : length leaves <= n -> length leaves <= m ->
  tree_hash_fuel n leaves = tree_hash_fuel m leaves.
Proof.
  revert m leaves. induction n as [|n IH]; intros m leaves Hn Hm; [by destruct leaves; [destruct m|simpl in Hn; lia]|].
  destruct m as [|m]; [destruct leaves; [done|simpl in Hm; lia]|]. destruct leaves as [|x [|y l]]; [done..|].
  cbn [tree_hash_fuel]. set (leaves := x :: y :: l) in *. destruct (halves leaves) as (Hk1 & Hk2 & Hk); [simpl; lia|].
  f_equal; apply IH; lia.
Qed.

Lemma tree_hash_fuel_node n leaves (k := split_point (length leaves)) : 2 <= length leaves ->
  tree_hash_fuel (S n) leaves = node_hash (tree_hash_fuel n (take k leaves)) (tree_hash_fuel n (drop k leaves)).
Proof. destruct leaves as [|x [|y l]]; simpl; (done || lia). Qed.

Lemma tree_hash_node (leaves : list bytes) (k := split_point (length leaves)) : 2 <= length leaves ->
  tree_hash leaves = node_hash (tree_hash (take k leaves)) (tree_hash (drop k leaves)).
Proof.
  intros Hl. destruct (halves leaves Hl) as (Hk1 & Hk2 & Hk). fold k in Hk1, Hk2, Hk. unfold tree_hash at 1.
  rewrite (tree_hash_fuel_enough _ (S (length leaves))) by lia. rewrite tree_hash_fuel_node by done. fold k. unfold tree_hash.
  f_equal; apply tree_hash_fuel_enough; lia.
Qed.

Lemma audit_path_fuel_enough n m leaves i : length leaves <= n -> length leaves <= m ->
  audit_path_fuel n leaves i = audit_path_fuel m leaves i.
Proof.
  revert m leaves i. induction n as [|n IH]; intros m leaves i Hn Hm; [by destruct leaves; [destruct m|simpl in Hn; lia]|].
  destruct m as [|m]; [destruct leaves; [done|simpl in Hm; lia]|]. destruct leaves as [|x [|y l]]; [done..|].
  cbn [audit_path_fuel]. set (leaves := x :: y :: l) in *. destruct (halves leaves) as (Hk1 & Hk2 & Hk); [simpl; lia|].
  destruct (i <? _); f_equal; apply IH; lia.
Qed.

Lemma audit_path_fuel_node n leaves i (k := split_point (length leaves)) : 2 <= length leaves ->
  audit_path_fuel (S n) leaves i =
  if i <? k then audit_path_fuel n (take k leaves) i ++ [tree_hash (drop k leaves)]
  else audit_path_fuel n (drop k leaves) (i - k) ++ [tree_hash (take k leaves)].
Proof. destruct leaves as [|x [|y l]]; simpl; (done || lia). Qed.

Lemma audit_path_node (leaves : list bytes) i (k := split_point (length leaves)) : 2 <= length leaves ->
  audit_path leaves i =
  if i <? k then audit_path (take k leaves) i ++ [tree_hash (drop k leaves)]
  else audit_path (drop k leaves) (i - k) ++ [tree_hash (take k leaves)].
Proof.
  intros Hl. destruct (halves leaves Hl) as (Hk1 & Hk2 & Hk). fold k in Hk1, Hk2, Hk. unfold audit_path at 1.
  rewrite (audit_path_fuel_enough _ (S (length leaves))) by lia. rewrite audit_path_fuel_node by done. fold k. unfold audit_path.
  destruct (i <? k); f_equal; apply audit_path_fuel_enough; lia.
Qed.

Lemma node_hash_length l r : length (node_hash l r) = 32.
Proof. apply sha256_length. Qed.

Lemma climb_length f s (r : bytes) path s' r' : length r = 32 -> climb f s r path = Some (s', r') -> length r' = 32.
Proof.
  revert f s r. induction path as [|p path IH]; intros f s r Hr; simpl; [by intros [= _ <-]|].
  destruct (s =? 0)%N; [done|]. destruct (_ || _); [destruct (N.even f); [destruct (shift_zeros f s)|]|];
    intros Hc; (eapply IH; [|exact Hc]); apply node_hash_length.
Qed.

Lemma tree_hash_length leaves : leaves <> [] -> Forall is_hash leaves -> length (tree_hash leaves) = 32.
Proof.
  intros Hne Hl. destruct (decide (2 <= length leaves)) as [H2|H2]; [rewrite tree_hash_node by done; apply node_hash_length|].
  destruct leaves as [|x [|y l]]; [done| |simpl in H2; lia]. by apply Forall_cons in Hl as [? _].
Qed.

(** What a path makes of a leaf, read from the root down as RFC 6962 defines
    an audit path: the last step joins the two subtrees of a tree of [n]
    leaves, the steps before it belong to the subtree that holds leaf [i].
    Also the texts hashed on the way. *)
Fixpoint fold_path (rpath : list bytes) (n i : nat) (r : bytes) : option (bytes * list bytes) :=
  match rpath with
  | [] => if n =? 1 then Some (r, []) else None
  | p :: rpath =>
      let k := split_point n in
      if n <=? 1 then None
      else if i <? k then
        let! (r', ts) := fold_path rpath k i r else None in Some (node_hash r' p, node_text r' p :: ts)
      else
        let! (r', ts) := fold_path rpath (n - k) (i - k) r else None in Some (node_hash p r', node_text p r' :: ts)
  end.
Definition path_root (n i : nat) (leaf : bytes) (path : list bytes) : option bytes := fst <$> fold_path (reverse path) n i leaf.
Definition path_texts (n i : nat) (leaf : bytes) (path : list bytes) : list bytes :=
  default [] (snd <$> fold_path (reverse path) n i leaf).

(** The texts hashed to make a tree of leaf hashes. *)
Fixpoint tree_texts_fuel (fuel : nat) (leaves : list bytes) : list bytes :=
  match fuel, leaves with
  | S fuel, _ :: _ :: _ =>
      let k := split_point (length leaves) in
      node_text (tree_hash (take k leaves)) (tree_hash (drop k leaves))
        :: tree_texts_fuel fuel (take k leaves) ++ tree_texts_fuel fuel (drop k leaves)
  | _, _ => []
  end.
Definition tree_texts (leaves : list bytes) : list bytes := tree_texts_fuel (length leaves) leaves.

Lemma tree_texts_fuel_enough n m leaves : length leaves <= n -> length leaves <= m ->
  tree_texts_fuel n leaves = tree_texts_fuel m leaves.
Proof.
  revert m leaves. induction n as [|n IH]; intros m leaves Hn Hm; [by destruct leaves; [destruct m|simpl in Hn; lia]|].
  destruct m as [|m]; [destruct leaves; [done|simpl in Hm; lia]|]. destruct leaves as [|x [|y l]]; [done..|].
  cbn [tree_texts_fuel]. set (leaves := x :: y :: l) in *. destruct (halves leaves) as (Hk1 & Hk2 & Hk); [simpl; lia|].
  f_equal. f_equal; apply IH; lia.
Qed.

Lemma tree_texts_node (leaves : list bytes) (k := split_point (length leaves)) : 2 <= length leaves ->
  tree_texts leaves = node_text (tree_hash (take k leaves)) (tree_hash (drop k leaves)) :: tree_texts (take k leaves) ++ tree_texts (drop k leaves).
Proof.
  intros Hl. destruct (halves leaves Hl) as (Hk1 & Hk2 & Hk). fold k in Hk1, Hk2, Hk. unfold tree_texts at 1.
  rewrite (tree_texts_fuel_enough _ (S (length leaves))) by lia. destruct leaves as [|x [|y l]]; [simpl in Hl; lia..|].
  set (leaves := x :: y :: l) in *.
  change (node_text (tree_hash (take k leaves)) (tree_hash (drop k leaves)) :: tree_texts_fuel (length leaves) (take k leaves) ++ tree_texts_fuel (length leaves) (drop k leaves) =
    node_text (tree_hash (take k leaves)) (tree_hash (drop k leaves)) :: tree_texts (take k leaves) ++ tree_texts (drop k leaves)).
  unfold tree_texts. f_equal. f_equal; apply tree_texts_fuel_enough; lia.
Qed.

Lemma split_pow n : (2 ^ N.of_nat (Nat.log2 (n - 1)))%N = N.of_nat (split_point n).
Proof. unfold split_point. by rewrite Nat2N.inj_pow. Qed.

(** The loop on a tree of two or more leaves: the path ends with the other
    subtree's hash, and the rest climbs the leaf's own. *)
Lemma climb_node n i r path R (k := split_point n) : 2 <= n -> i < n ->
  climb (N.of_nat i) (N.of_nat n - 1) r path = Some (0%N, R) <->
  exists init p r', path = init ++ [p] /\
    if i <? k then climb (N.of_nat i) (N.of_nat k - 1) r init = Some (0%N, r') /\ R = node_hash r' p
    else climb (N.of_nat (i - k)) (N.of_nat (n - k) - 1) r init = Some (0%N, r') /\ R = node_hash p r'.
Proof.
  intros Hl Hi. pose proof (split_bounds _ Hl) as Hk. fold k in Hk. pose proof (split_pow n) as Hp. fold k in Hp.
  destruct (Nat.ltb_spec i k).
  - rewrite (climb_left (N.of_nat (Nat.log2 (n - 1)))), Hp by lia. unfold last_step. done.
  - replace (N.of_nat i) with (2 ^ N.of_nat (Nat.log2 (n - 1)) + N.of_nat (i - k))%N by lia.
    replace (N.of_nat n - 1)%N with (2 ^ N.of_nat (Nat.log2 (n - 1)) + (N.of_nat (n - k) - 1))%N by lia.
    rewrite climb_right by lia. done.
Qed.

Lemma climb_fold n i r rpath R : i < n ->
  climb (N.of_nat i) (N.of_nat n - 1) r (reverse rpath) = Some (0%N, R) <-> exists ts, fold_path rpath n i r = Some (R, ts).
Proof.
  revert n i R. induction rpath as [|p rpath IH]; intros n i R Hi; cbn [fold_path].
  - destruct (Nat.eqb_spec n 1) as [->|Hn].
    + assert (i = 0) as -> by lia. change (climb 0 0 r [] = Some (0%N, R) <-> exists ts, Some (r, @nil bytes) = Some (R, ts)).
      rewrite climb_root. naive_solver.
    + cbn [reverse rev_append climb]. split; [intros [= He _]; lia|naive_solver].
  - destruct (Nat.leb_spec n 1).
    + assert (i = 0) as -> by lia. assert (n = 1) as -> by lia. change (N.of_nat 0) with 0%N. change (N.of_nat 1 - 1)%N with 0%N. rewrite climb_root, reverse_cons.
      split; [intros [He _]; by destruct (reverse rpath)|naive_solver].
    + rewrite climb_node, reverse_cons by lia. pose proof (split_bounds n ltac:(lia)) as Hk. set (k := split_point n) in *.
      destruct (Nat.ltb_spec i k).
      * split.
        -- intros (init & p' & r' & [<- <-]%app_inj_tail & Hc & ->). apply IH in Hc as [ts ->]; [|lia]. by eexists.
        -- destruct (fold_path rpath k i r) as [[r' ts]|] eqn:Hf; [|naive_solver]. intros [ts' [= <- _]].
           exists (reverse rpath), p, r'. split; [done|]. split; [|done]. apply IH; [lia|by exists ts].
      * split.
        -- intros (init & p' & r' & [<- <-]%app_inj_tail & Hc & ->). apply IH in Hc as [ts ->]; [|lia]. by eexists.
        -- destruct (fold_path rpath (n - k) (i - k) r) as [[r' ts]|] eqn:Hf; [|naive_solver]. intros [ts' [= <- _]].
           exists (reverse rpath), p, r'. split; [done|]. split; [|done]. apply IH; [lia|by exists ts].
Qed.

Lemma verify_inclusion_root n i leaf path root :
  verify_inclusion (N.of_nat i) (N.of_nat n) leaf path root = true <-> i < n /\ path_root n i leaf path = Some root.
Proof.
  unfold verify_inclusion. destruct (N.leb_spec (N.of_nat n) (N.of_nat i)); [split; [done|lia]|].
  pose proof (climb_fold n i leaf (reverse path) root ltac:(lia)) as H1. rewrite reverse_involutive in H1.
  transitivity (climb (N.of_nat i) (N.of_nat n - 1) leaf path = Some (0%N, root)).
  - destruct (climb _ _ leaf path) as [[s r]|]; [|done]. rewrite andb_true_iff, N.eqb_eq, bool_decide_eq_true. naive_solver.
  - rewrite H1. unfold path_root. destruct (fold_path _ n i leaf) as [[R ts]|]; cbn; naive_solver lia.
Qed.

Lemma audit_path_root leaves i leaf : leaves !! i = Some leaf -> path_root (length leaves) i leaf (audit_path leaves i) = Some (tree_hash leaves).
Proof.
  remember (length leaves) as n eqn:Hn. revert leaves i leaf Hn.
  induction (lt_wf n) as [n _ IH]; intros leaves i leaf -> Hi. pose proof (lookup_lt_Some _ _ _ Hi) as Hlt.
  destruct (decide (2 <= length leaves)) as [H2|H2].
  - destruct (halves leaves H2) as (Hk1 & Hk2 & Hk). rewrite (tree_hash_node leaves), (audit_path_node leaves) by done.
    unfold path_root. set (k := split_point (length leaves)) in *. destruct (Nat.ltb_spec i k) as [Hik|Hik]; rewrite reverse_snoc; cbn [fold_path].
    all: destruct (Nat.leb_spec (length leaves) 1); [lia|]; fold k.
    + rewrite (proj2 (Nat.ltb_lt i k) Hik). specialize (IH k ltac:(lia) (take k leaves) i leaf (eq_sym Hk1)).
      unfold path_root in IH. destruct (fold_path _ k i leaf) as [[r' ts]|]; cbn in *; rewrite lookup_take_lt in IH by done; specialize (IH Hi); congruence.
    + rewrite (proj2 (Nat.ltb_ge i k) Hik). specialize (IH (length leaves - k) ltac:(lia) (drop k leaves) (i - k) leaf (eq_sym Hk2)).
      rewrite lookup_drop in IH. replace (k + (i - k)) with i in IH by lia. specialize (IH Hi).
      unfold path_root in IH. destruct (fold_path _ _ _ leaf) as [[r' ts]|]; cbn in *; congruence.
  - destruct leaves as [|x [|y l]]; [done| |simpl in H2; lia]. destruct i; [|done]. by injection Hi as ->.
Qed.

Lemma node_hash_inj texts (a b c d : bytes) : node_text a b ∈ texts -> node_text c d ∈ texts -> length a = 32 -> length c = 32 ->
  node_hash a b = node_hash c d -> (a = c /\ b = d) \/ collision_among sha256 texts.
Proof.
  intros Ht Ht' Ha Hc [H|]%(same_or_collision sha256 texts); [left|by right|done..]. injection H as H. apply app_inj_1 in H; [done|congruence].
Qed.

Lemma fold_path_length rpath n i r R ts : length r = 32 -> fold_path rpath n i r = Some (R, ts) -> length R = 32.
Proof.
  intros Hr. destruct rpath as [|p rpath]; cbn [fold_path]; [destruct (n =? 1); [by intros [= <- _]|done]|].
  destruct (n <=? 1); [done|]. destruct (i <? _); destruct (fold_path rpath _ _ r) as [[r' ts']|]; try done; intros [= <- _]; apply node_hash_length.
Qed.

Lemma fold_sound texts leaves i leaf rpath ts : i < length leaves -> Forall is_hash leaves -> length leaf = 32 -> Forall is_hash rpath ->
  fold_path rpath (length leaves) i leaf = Some (tree_hash leaves, ts) -> tree_texts leaves ⊆ texts -> ts ⊆ texts ->
  (leaves !! i = Some leaf /\ reverse rpath = audit_path leaves i) \/ collision_among sha256 texts.
Proof.
  revert leaves i ts. induction rpath as [|p rpath IH]; intros leaves i ts Hi Hls Hlf Hpath Hf Htt Hts; cbn [fold_path] in Hf.
  - destruct (Nat.eqb_spec (length leaves) 1) as [H1|]; [|done]. injection Hf as Hf _. left.
    destruct leaves as [|x [|y l]]; [simpl in Hi; lia| |simpl in H1; lia]. assert (i = 0) as -> by (simpl in Hi; lia).
    change (leaf = x) in Hf. by subst.
  - destruct (Nat.leb_spec (length leaves) 1) as [|H2]; [done|]. destruct (halves leaves H2) as (Hk1 & Hk2 & Hk).
    rewrite audit_path_node, reverse_cons by done. rewrite tree_hash_node in Hf by done. rewrite tree_texts_node in Htt by done.
    set (k := split_point (length leaves)) in *. apply Forall_cons in Hpath as [Hp Hpath].
    assert (Ht : Forall is_hash (take k leaves)) by by apply Forall_take.
    assert (Hd : Forall is_hash (drop k leaves)) by by apply Forall_drop.
    assert (Htl : length (tree_hash (take k leaves)) = 32) by (apply tree_hash_length; [intros He; rewrite He in Hk1; simpl in Hk1; lia|done]).
    destruct (Nat.ltb_spec i k) as [Hik|Hik]; (destruct (fold_path rpath _ _ leaf) as [[r' ts']|] eqn:Hr; [|done]); injection Hf as HR <-.
    + apply (node_hash_inj texts) in HR as [[-> ->]|]; [|by right|set_solver|set_solver|exact (fold_path_length _ _ _ _ _ _ Hlf Hr)|done].
      rewrite <- Hk1 in Hr at 1.
      destruct (IH (take k leaves) i ts') as [[Hlk ->]|]; [lia|done..|set_solver|set_solver|left; by rewrite lookup_take_lt in Hlk|by right].
    + apply (node_hash_inj texts) in HR as [[-> ->]|]; [|by right|set_solver|set_solver|done|done].
      rewrite <- Hk2 in Hr at 1.
      destruct (IH (drop k leaves) (i - k) ts') as [[Hlk ->]|]; [lia|done..|set_solver|set_solver| |by right].
      left. rewrite lookup_drop in Hlk. by replace (k + (i - k)) with i in Hlk by lia.
Qed.

Lemma verify_inclusion_sound texts leaves i leaf path : Forall is_hash leaves -> is_hash leaf -> Forall is_hash path ->
  tree_texts leaves ⊆ texts -> path_texts (length leaves) i leaf path ⊆ texts ->
  verify_inclusion (N.of_nat i) (N.of_nat (length leaves)) leaf path (tree_hash leaves) = true ->
  (leaves !! i = Some leaf /\ path = audit_path leaves i) \/ collision_among sha256 texts.
Proof.
  intros Hls Hlf Hp Htt Hpt [Hi Hr]%verify_inclusion_root. unfold path_root, path_texts in *.
  destruct (fold_path (reverse path) _ i leaf) as [[R ts]|] eqn:Hf; [|done]. injection Hr as ->.
  pose proof (fold_sound texts leaves i leaf (reverse path) ts) as H. rewrite reverse_involutive in H. apply H; try done. by apply Forall_reverse.
Qed.

(** The texts hashed for a log of entries, and to check one of them. *)
Definition log_texts (entries : list bytes) : list bytes := map leaf_text entries ++ tree_texts (map leaf_hash entries).
Definition check_texts (size i : nat) (body : bytes) (path : list bytes) : list bytes :=
  leaf_text body :: path_texts size i (leaf_hash body) path.

(** An accepted leaf is in the log. *)
Lemma verify_inclusion_entry entries i body path : Forall is_hash path ->
  verify_inclusion (N.of_nat i) (N.of_nat (length entries)) (leaf_hash body) path (tree_hash (map leaf_hash entries)) = true ->
  entries !! i = Some body \/ collision_among sha256 (log_texts entries ++ check_texts (length entries) i body path).
Proof.
  intros Hp Hv. assert (Hls : Forall is_hash (map leaf_hash entries)) by (apply Forall_fmap, Forall_true; intros x; apply sha256_length).
  set (texts := log_texts entries ++ _).
  destruct (verify_inclusion_sound texts (map leaf_hash entries) i (leaf_hash body) path Hls) as [[Hi _]|]; [apply sha256_length|done|..|by right].
  - unfold texts, log_texts. set_solver.
  - rewrite length_map. unfold texts, check_texts. set_solver.
  - by rewrite length_map.
  - rewrite list_lookup_fmap in Hi. destruct (entries !! i) as [e|] eqn:He; [|done]. injection Hi as Hi.
    apply (same_or_collision sha256 texts) in Hi as [[= ->]|]; [by left|by right| |].
    + apply list_elem_of_lookup_2, (list_elem_of_fmap_2 leaf_text) in He. unfold texts, log_texts. set_solver.
    + unfold texts, check_texts. set_solver.
Qed.
End Reference.

(** C36: the inclusion check is exactly RFC 6962's.  It accepts a path
    for an index and a hash exactly when the index is in range and the path,
    read as an audit path of the recursive tree, leads from the hash to the
    root.  In the tree of the given leaves the audit path of a leaf is
    accepted for it, and whatever path is accepted for an index and a hash is
    that leaf's audit path and the hash that leaf's, unless two of the texts
    hashed for this tree and this path collide under SHA-256. *)
Theorem inclusion_exactly {HC : HashCrates} {HL : HashLaws} :
  (forall n i leaf path root,
     verify_inclusion (N.of_nat i) (N.of_nat n) leaf path root = true <-> i < n /\ path_root n i leaf path = Some root) /\
  (forall leaves i leaf, leaves !! i = Some leaf ->
     verify_inclusion (N.of_nat i) (N.of_nat (length leaves)) leaf (audit_path leaves i) (tree_hash leaves) = true) /\
  (forall leaves i leaf path, Forall is_hash leaves -> is_hash leaf -> Forall is_hash path ->
     verify_inclusion (N.of_nat i) (N.of_nat (length leaves)) leaf path (tree_hash leaves) = true ->
     (leaves !! i = Some leaf /\ path = audit_path leaves i) \/
     collision_among sha256 (tree_texts leaves ++ path_texts (length leaves) i leaf path)).
Proof.
  split; [apply verify_inclusion_root|]. split.
  - intros leaves i leaf Hi. apply verify_inclusion_root. split; [by eapply lookup_lt_Some|by apply audit_path_root].
  - intros leaves i leaf path Hls Hlf Hp. apply verify_inclusion_sound; [done..|set_solver|set_solver].
Qed.

(** ** An accepted entry *)

Section Accepted.
Context {HC : HashCrates} {HL : HashLaws} {JC : JsonCrates} {SC : SignatureCrates} {VC : VerifierCrate} {S5 : Sha512Crate}
        {PC : P256Crate} {DC : DerCrates}.

Lemma hex32_hash s b : hex32 s = Some b -> is_hash b.
Proof. unfold hex32. destruct (_ || _); [done|]. destruct (hex_decode s); [|done]. cbn. case_decide; [by intros [= <-]|done]. Qed.

Lemma hex32_path ls path : try_map (fun h => ok_or (hex32 h) Malformed) ls = Ok path ->
  Forall is_hash path /\ Forall2 (fun s h => hex32 s = Some h) ls path.
Proof.
  intros H%try_map_Ok. assert (Hall : Forall2 (fun s h => hex32 s = Some h) ls path).
  { eapply Forall2_impl; [exact H|]. intros s h Hs. unfold ok_or in Hs. destruct (hex32 s); [|done]. by injection Hs as ->. }
  split; [|done]. clear H. induction Hall as [|s b ls path Hs _ IH]; constructor; [by eapply hex32_hash|done].
Qed.

Lemma uuid_leaf_total uuid : exists r, uuid_leaf uuid = Some r.
Proof.
  unfold uuid_leaf. destruct (is_ascii uuid) eqn:Ha; [|by eexists]. cbn [negb]. case_bool_decide; [by eexists|].
  case_bool_decide as Hl; [|by eexists]. rewrite ascii_slice by (done || lia). cbn [mbind option_bind].
  destruct (str_all is_ascii_hexdigit _); [|by eexists]. rewrite ascii_from by (done || lia). by eexists.
Qed.

(** The log key signed a checkpoint of a tree of this size and root. *)
Definition checkpoint_of (k : RekorKey) (size : Z) (root : bytes) : Prop :=
  exists text sig, p256_verify (key k) (as_bytes text) sig = true /\
    (l ← lines text !! 1; parse_size l) = Some size /\ (l ← lines text !! 2; base64_decode l) = Some root.

Lemma checkpoint_signed_by k text ls signed : checkpoint_signed k text ls signed = Ok true ->
  signed = true \/ exists sig, p256_verify (key k) text sig = true.
Proof.
  revert signed. induction ls as [|line ls IH]; intros signed; cbn [checkpoint_signed]; [intros [= ->]; by left|].
  destruct (strip_prefix _ line) as [rest|]; [|done]. destruct (rsplit_once _ rest) as [[? b64]|]; [|done].
  destruct (base64_decode b64) as [raw|]; [|done]. destruct (_ || _); [apply IH|].
  destruct (p256_signature_from_der _) as [sig|]; [|done]. destruct (p256_verify _ _ sig) eqn:Hv; [|done]. intros _. right. by exists sig.
Qed.

Lemma verify_checkpoint_of note k size root : verify_checkpoint note k size root = Ok tt -> checkpoint_of k size root.
Proof.
  unfold verify_checkpoint, ok_or. destruct (split_once_str _ note) as [[text sigs]|]; [|done].
  destruct (non_empty _); [|done]. destruct (_ ≫= parse_size) as [n|] eqn:Hn; [|done].
  destruct (lines (text +:+ LF) !! 2 ≫= _) as [r|] eqn:Hr; [|done]. destruct (checkpoint_signed _ _ _ false) as [[]|] eqn:Hs; [|done|done].
  cbn [negb]. destruct (Z.eqb_spec n size); [|done]. case_bool_decide; [|done]. intros _. subst.
  apply checkpoint_signed_by in Hs as [|[sig Hsig]]; [done|]. by exists (text +:+ LF), sig.
Qed.

(** The body names this artifact and signer, and holds the signer's
    signature of the artifact. *)
Definition commits_to (body artifact signer : bytes) : Prop :=
  exists v b vk sig, json_from_slice body = Some v /\ body_of_value v = Some b /\
    hash_algorithm b = "sha512" /\ hash_value b = hex_encode (sha512 artifact) /\
    verifying_key_from_bytes signer = Some vk /\ base64_decode (signature_content b) = Some sig /\
    ed25519ph_verify_strict vk artifact sig = true.

Lemma check_body_commits b artifact signer : check_body b artifact signer = Ok tt -> commits_to b artifact signer.
Proof.
  unfold check_body, ok_or. destruct (json_no_duplicates b); [|done]. destruct (json_from_slice b) as [v|] eqn:Hv; [|done].
  destruct (body_of_value v) as [d|] eqn:Hd; [|done]. destruct (_ || _); [done|].
  destruct (bool_decide (hash_algorithm d = _)) eqn:Ha; [|done]. cbn [negb]. apply bool_decide_eq_true in Ha.
  destruct (bool_decide (hash_value d = _)) eqn:Hh; [|done]. cbn [negb]. apply bool_decide_eq_true in Hh.
  destruct (base64_decode (public_key_content d)); [|done]. destruct (pem_decode _) as [[label der]|]; [|done].
  destruct (negb _); [done|]. destruct (spki_from_der der); [|done]. destruct (_ || _); [done|]. destruct (negb _); [done|].
  destruct (base64_decode (signature_content d)) as [sig|] eqn:Hs; [|done]. destruct (negb _); [done|].
  destruct (verifying_key_from_bytes signer) as [vk|] eqn:Hk; [|done]. destruct (ed25519ph_verify_strict vk artifact sig) eqn:Hok; [|done].
  intros _. by exists v, d, vk, sig.
Qed.
End Accepted.

(** C37: the check of a log entry never panics, and an accepted entry is in
    the log: the log key signed the entry with its body and time, and a
    checkpoint of some size and root; the body commits to the artifact under
    the signer's key; the UUID names the body's leaf; its path leads from that
    leaf at the entry's place to that root; and in whatever log has that size
    and root, the entry at this place is the body, unless two of the texts
    hashed for that log and this path collide under SHA-256. *)
Theorem accepted_entry_is_logged {HC : HashCrates} {HL : HashLaws} {JC : JsonCrates} {SC : SignatureCrates} {VC : VerifierCrate}
  {S5 : Sha512Crate} {PC : P256Crate} {DC : DerCrates} (uuid : string) (entry : value) (k : RekorKey) (artifact signer : bytes) :
  exists r, verify_rekor_entry uuid entry k artifact signer = Some r /\
    forall v, r = Ok v ->
      exists e body_bytes set root path u, entry_of_value entry = Some e /\ v = mkVerified (integrated_time e) (log_index e) /\
        p256_verify (key k) (as_bytes (signed_entry e)) set = true /\
        base64_decode (body e) = Some body_bytes /\ commits_to body_bytes artifact signer /\
        uuid_leaf uuid = Some (Ok u) /\ hex32 u = Some (leaf_hash body_bytes) /\
        let p := inclusion_proof e in
        let size := Z.to_nat (p_tree_size p) in
        let i := Z.to_nat (p_log_index p) in
        checkpoint_of k (p_tree_size p) root /\ hex32 (p_root_hash p) = Some root /\
        Forall2 (fun s h => hex32 s = Some h) (p_hashes p) path /\
        i < size /\ path_root size i (leaf_hash body_bytes) path = Some root /\
        forall entries, Z.of_nat (length entries) = p_tree_size p -> tree_hash (map leaf_hash entries) = root ->
          entries !! i = Some body_bytes \/
          collision_among sha256 (log_texts entries ++ check_texts size i body_bytes path).
Proof.
  unfold verify_rekor_entry. destruct (entry_of_value entry) as [e|]; [|by eexists].
  destruct (hex32 (entry_log_id e)) as [id|]; [|by eexists]. destruct (negb _); [by eexists|]. destruct (negb _); [by eexists|].
  destruct (base64_decode (signed_entry_timestamp e)) as [sb|]; [|by eexists].
  destruct (p256_signature_from_der sb) as [set|]; [|by eexists].
  destruct (p256_verify (key k) (as_bytes (signed_entry e)) set) eqn:Hset; [|by eexists]. cbn [negb].
  destruct (base64_decode (body e)) as [body_bytes|] eqn:Hb; [|by eexists].
  destruct (check_body body_bytes artifact signer) as [[]|] eqn:Hbody; [|by eexists]. apply check_body_commits in Hbody.
  unfold verify_in_log, ok_or. destruct (uuid_leaf_total uuid) as [u Hu]. rewrite Hu. cbn [mbind option_bind]. eexists. split; [reflexivity|].
  intros v. destruct u as [u|]; [|done]. destruct (bool_decide (hex32 u = _)) eqn:Hleaf; [|done]. apply bool_decide_eq_true in Hleaf. cbn [negb].
  destruct (hex32 (p_root_hash _)) as [root|] eqn:Hroot; [|done]. destruct (try_map _ _) as [path|] eqn:Hpath; [|done].
  apply hex32_path in Hpath as [Hhash Hpath]. destruct (verify_inclusion _ _ _ path root) eqn:Hinc; [|done]. cbn [negb].
  destruct (verify_checkpoint _ _ _ root) as [[]|] eqn:Hcp; [|done]. apply verify_checkpoint_of in Hcp. intros [= <-].
  rewrite <- !Z_nat_N in Hinc. pose proof Hinc as [Hi Hr]%verify_inclusion_root.
  exists e, body_bytes, set, root, path, u. cbv zeta. split_and!; try done. intros entries Hn <-. rewrite <- Hn, Nat2Z.id in Hinc |- *.
  by apply verify_inclusion_entry.
Qed.

(** Reading an entry never stops in the middle. *)
Lemma verify_rekor_entry_total {HC : HashCrates} {JC : JsonCrates} {SC : SignatureCrates} {VC : VerifierCrate}
  {S5 : Sha512Crate} {PC : P256Crate} {DC : DerCrates} (uuid : string) (entry : value) (k : RekorKey) (artifact signer : bytes) :
  exists r, verify_rekor_entry uuid entry k artifact signer = Some r.
Proof.
  unfold verify_rekor_entry, verify_in_log. destruct (uuid_leaf_total uuid) as [u ->].
  repeat case_match; eauto.
Qed.

(** *** Concrete instances *)

Section Witnesses.
Import Toy ToyVerify.

Definition log_entries : list bytes := map as_bytes ["body"; "second"; "third"].

(** The last of three leaves: its path has one step, it is accepted, and
    nothing else is for that place, since none of the texts collide. *)
Lemma inclusion_exactly_witness :
  let leaves := map leaf_hash log_entries in
  let accepts i leaf path := verify_inclusion (N.of_nat i) 3 leaf path (tree_hash leaves) in
  length (audit_path leaves 2) = 1 /\ accepts 2 (leaf_hash (as_bytes "third")) (audit_path leaves 2) = true /\
  accepts 2 (leaf_hash (as_bytes "body")) (audit_path leaves 2) = false.
Proof.
  destruct inclusion_exactly as (Hroot & Hcomplete & Hsound). split; [vm_compute; reflexivity|]. split.
  - apply (Hcomplete (map leaf_hash log_entries) 2). vm_compute. reflexivity.
  - apply not_true_iff_false. intros H.
    destruct (Hsound (map leaf_hash log_entries) 2 (leaf_hash (as_bytes "body")) (audit_path (map leaf_hash log_entries) 2)) as [[Hi _]|Hc];
      [apply (bool_decide_unpack _); vm_compute; exact I..|exact H| |].
    + vm_compute in Hi. discriminate Hi.
    + revert Hc. apply (bool_decide_unpack _). vm_compute. exact I.
Defined.

(** A log of three entries whose first is the body of the sample. *)
Definition sample_signer : bytes := repeat "s"%char 32.
Definition sample_artifact : bytes := as_bytes "head".
Definition object (l : list (string * value)) : value := VObject (BTree.of_list l).
Definition sample_body : value :=
  object [("apiVersion", VString "0.0.1"); ("kind", VString "hashedrekord");
          ("spec", object [("data", object [("hash", object [("algorithm", VString "sha512"); ("value", VString (hex_encode (sha512 sample_artifact)))])]);
                           ("signature", object [("content", VString (base64_encode (little_endian 64 (checksum (sample_artifact ++ sample_signer)))));
                                                 ("publicKey", object [("content", VString (base64_encode (as_bytes "pem")))])])])].
#[local] Instance sample_json : JsonCrates := {|
  json_number _ := None;
  json_from_slice b := if decide (b = as_bytes "body") then Some sample_body else None;
  json_no_duplicates _ := true;
  jcs _ := "";
  number_to_string _ := "";
|}.
#[local] Instance sample_der : DerCrates := {|
  pem_decode b := if decide (b = as_bytes "pem") then Some ("PUBLIC KEY", sample_signer) else None;
  spki_from_der b := Some (mkSpki OID_ED25519 None false (Some b));
  spki_to_der _ := None;
|}.
Definition sample_key : RekorKey := mkRekorKey (as_bytes "log") (sha256 (as_bytes "log")).
Definition sign_p256 (text : string) : bytes := little_endian 8 (checksum (as_bytes "log" ++ as_bytes text)).
Definition sample_root : bytes := tree_hash (map leaf_hash log_entries).
Definition sample_text : string := "origin" +:+ LF +:+ "3" +:+ LF +:+ base64_encode sample_root +:+ LF.
Definition sample_note : string :=
  sample_text +:+ LF +:+ SIGNATURE_PREFIX +:+ "log " +:+ base64_encode (take 4 (log_id sample_key) ++ sign_p256 sample_text) +:+ LF.
Definition sample_proof : value :=
  object [("checkpoint", VString sample_note);
          ("hashes", VArray (map (fun h => VString (hex_encode h)) (audit_path (map leaf_hash log_entries) 0)));
          ("logIndex", VNumber (PosInt 0)); ("rootHash", VString (hex_encode sample_root)); ("treeSize", VNumber (PosInt 3))].
Definition sample_entry (set : string) : value :=
  object [("body", VString (base64_encode (as_bytes "body"))); ("integratedTime", VNumber (PosInt 1782993600));
          ("logID", VString (log_id_hex sample_key)); ("logIndex", VNumber (PosInt 7));
          ("verification", object [("signedEntryTimestamp", VString set); ("inclusionProof", sample_proof)])].
Definition sample_set : string :=
  match entry_of_value (sample_entry "") with Some e => base64_encode (sign_p256 (signed_entry e)) | None => "" end.
Definition sample_uuid : string := hex_encode (leaf_hash (as_bytes "body")).

Example sample_accepted :
  verify_rekor_entry sample_uuid (sample_entry sample_set) sample_key sample_artifact sample_signer
    = Some (Ok (mkVerified 1782993600 7)) /\
  verify_rekor_entry sample_uuid (sample_entry sample_set) sample_key (as_bytes "other") sample_signer
    = Some (Err ArtifactHashMismatch) /\
  verify_rekor_entry "?" (sample_entry sample_set) sample_key sample_artifact sample_signer = Some (Err UuidMismatch).
Proof. split_and!; vm_compute; reflexivity. Qed.

Lemma accepted_entry_is_logged_witness :
  exists body_bytes, checkpoint_of sample_key 3 sample_root /\ log_entries !! 0 = Some body_bytes.
Proof.
  destruct (accepted_entry_is_logged sample_uuid (sample_entry sample_set) sample_key sample_artifact sample_signer) as (r & Hr & H).
  rewrite (proj1 sample_accepted) in Hr. injection Hr as <-.
  destruct (H _ eq_refl) as (e & body_bytes & set & root & path & u & He & _ & _ & Hb & _ & _ & _ & Hcp & Hroot & Hpath & _ & _ & Hlog).
  assert (Hs : match entry_of_value (sample_entry sample_set) with
    | Some e => p_tree_size (inclusion_proof e) = 3%Z /\ p_log_index (inclusion_proof e) = 0%Z /\ hex32 (p_root_hash (inclusion_proof e)) = Some sample_root /\
        mapM hex32 (p_hashes (inclusion_proof e)) = Some (audit_path (map leaf_hash log_entries) 0) /\ base64_decode (body e) = Some (as_bytes "body")
    | None => False end) by (vm_compute; by split_and!).
  rewrite He in Hs. destruct Hs as (Hsize & Hi & Hr & Hp & Hbody). rewrite Hbody in Hb. injection Hb as <-.
  apply mapM_Some in Hp. assert (path = audit_path (map leaf_hash log_entries) 0) as ->.
  { clear -Hp Hpath. revert Hp. generalize (audit_path (map leaf_hash log_entries) 0). induction Hpath as [|s h ls hs Hs _ IH]; intros l Hp;
      inversion Hp; subst; [done|]. f_equal; [congruence|by apply IH]. }
  rewrite Hsize in Hcp, Hlog. rewrite Hi in Hlog. rewrite Hroot in Hr. injection Hr as ->. exists (as_bytes "body"). split; [exact Hcp|].
  destruct (Hlog log_entries) as [Hin|Hc]; [reflexivity|reflexivity|exact Hin|]. exfalso. revert Hc. apply (bool_decide_unpack _). vm_compute. exact I.
Defined.
End Witnesses.
