(* ===== verification/GatePack.v ===== *)
(** * Audit packs of the gate, verified offline
    ([cloakpipe-verify/src/gate_pack.rs])

    Reads the tar, the gate key, the signed pack manifest, the entries, the
    epoch heads and their anchors, and reports every failure and gap.  The
    texts of failures are constructors.  Arithmetic on sequence and epoch
    numbers wraps, as in a release build.  RFC 3161 tokens are checked by
    [TsaVerifier], an interface for [rfc3161.rs], which is not modelled.
    A slice inside a character, or a reader out of fuel, would be [None]. *)

From stdpp Require Import list_numbers pretty.
From S2P Require Import Prelude BTree Json Text Crates Concrete Action Ledger.
From S2P Require Import CanonicalJson Stream Decisions VerifyCrates Calendar OfflineDecisions Ustar Rekor.

Definition PACK_KIND : string := "cloakpipe.audit-pack/v1".
Definition PACK_HASH_DOMAIN : string := "cloakpipe.audit-pack.v1".
Definition EPOCH_KIND : string := "cloakpipe.epoch/v1".
Definition EPOCH_HASH_DOMAIN : string := "cloakpipe.epoch.v1".
Definition GENESIS : string := "0000000000000000000000000000000000000000000000000000000000000000".

(** [verify_timestamp_response] for a response, the SHA-256 it must stamp,
    the request's nonce and the roots: the stamped time. *)
Class TsaVerifier := {
  TrustedRoots : Type;
  verify_timestamp_response : bytes -> bytes -> bytes -> TrustedRoots -> option Z;
}.

Inductive SignatureError := UntrustedSigner (signer : string) | NotHex | DoesNotVerify.

Inductive EpochError :=
| EpochKind
| EpochRange
| EpochField
| EpochInconsistent
| EpochHash
| EpochSignature (e : SignatureError)
| SealedAt
| EntriesMissing (first last : Z)
| EntriesHead (last : Z).

Inductive AnchorError :=
| NamesAnother
| NoTrustedKey
| Unreadable
| UntrustedEpochSigner
| TokenInvalid
| LogEntryInvalid (e : RekorError)
| UnknownKind (kind : string).

Inductive Failure :=
| NotAPack (e : TarError)
| Missing (name : string)
| NotJson (name : string)
| NoPublicKey
| KeyidMismatch
| NotPinned (keyid : string)
| PackKind
| NotListed (name : string)
| DigestMismatch (name : string)
| ListedMissing (name : string)
| PackHash
| PackSignature (e : SignatureError)
| CountMismatch
| ReleasesMismatch
| EpochsMismatch
| EpochFailed (n : Z) (e : EpochError)
| EpochZero
| EpochUnlinked (n before : Z)
| EpochOverlaps (n before : Z)
| AnchorFailed (n : Z) (e : AnchorError)
| SealedLate (n : Z) (sealed_at anchored_at : string)
| EntryLate (n seq : Z) (stamped anchored_at : string)
| EntryTime (n seq : Z).

Inductive Gap :=
| Uncovered (first last : Z)
| EpochMissing (n : Z)
| EpochsMissing (first last : Z)
| NotAnchored (n : Z)
| NothingVerifies (n : Z).

Inductive EntriesError := NotUtf8 | EntriesMissing_ | Invalid (e : DecisionError).

(** [Value::as_u64] *)
Definition value_u64 (v : value) : option Z := match v with VNumber n => Json.as_u64 n | _ => None end.

(** [u64] and [i64] arithmetic. *)
Definition wrap_u64 (n : Z) : Z := (n mod 2^64)%Z.
Definition wrap_i64 (n : Z) : Z := ((n + 2^63) mod 2^64 - 2^63)%Z.

Section GatePack.
Context {ST : SerdeText} {HC : HashCrates} {JC : JsonCrates} {SC : SignatureCrates} {VC : VerifierCrate}
        {S5 : Sha512Crate} {PC : P256Crate} {DC : DerCrates} {TV : TsaVerifier}.

Record PackTrust := mkPackTrust {
  gate_keys : list bytes;
  tsa_roots : option TrustedRoots;
  rekor_key : option RekorKey;
  clock_skew_secs : Z;
  trust_require_anchors : bool;
}.

Record PackReport := mkReport {
  r_files : nat;
  gate_key : option string;
  pinned : bool;
  pack_ok : bool;
  r_entries : nat;
  r_first_seq : option Z;
  r_last_seq : option Z;
  entries_error : option EntriesError;
  r_epochs : nat;
  anchored : option (Z * Z);
  rfc3161_ok : nat;
  rfc3161_total : nat;
  rekor_ok : nat;
  rekor_total : nat;
  gaps : list Gap;
  unanchored_tail : option (Z * Z);
  denials : nat;
  r_approvals_required : nat;
  approvals_granted : nat;
  unknown_side_effects : nat;
  r_reconciled : nat;
  manifests : list string;
  failures : list Failure;
  require_anchors : bool;
}.

Definition report_ok (r : PackReport) : bool :=
  bool_decide (length (failures r) = 0) && bool_decide (length (gaps r) = 0) && is_none (entries_error r)
  && negb (require_anchors r && is_some (unanchored_tail r)).

(** ** Hashes and signatures *)

Definition domain_hash (domain : string) (v : value) (without : list string) : bytes :=
  sha256 (as_bytes (domain +:+ NL) ++
    canonical match v with
              | VObject o => VObject (foldl (fun o k => BTree.remove k o) o without)
              | other => other
              end).
Definition pack_hash (manifest : value) : bytes := domain_hash PACK_HASH_DOMAIN manifest ["pack_hash"; "sig"].
Definition epoch_hash (head : value) : bytes := domain_hash EPOCH_HASH_DOMAIN head ["epoch_hash"; "sig"].

Definition hex32 (s : string) : option bytes :=
  b ← hex_decode (trim s); if decide (length b = 32) then Some b else None.

Definition signed_by (keys : btree VerifyingKey) (signer : string) (digest : bytes) (sig_hex : string) :
    result SignatureError unit :=
  let! vk := BTree.get signer keys else Err (UntrustedSigner signer) in
  let! sig := (b ← hex_decode sig_hex; if decide (length b = 64) then Some b else None) else Err NotHex in
  if ed25519_verify vk digest sig then Ok tt else Err DoesNotVerify.

(** ** Files *)

Definition by_name (files : list TarFile) : btree bytes := BTree.of_list (map (fun f => (name f, data f)) files).

Definition json_file (files : btree bytes) (nm : string) : result Failure value :=
  let? d := ok_or (BTree.get nm files) (Missing nm) in
  ok_or (json_from_slice d) (NotJson nm).

Definition pack_key (files : btree bytes) : result Failure bytes :=
  let? g := json_file files "gate.pub.json" in
  let? public := ok_or (s ← get_str "publicKey" g; hex32 s) NoPublicKey in
  if bool_decide (get_str "keyid" g = Some (keyid public)) then Ok public else Err KeyidMismatch.

(** The keys everything must be signed by, and what is wrong with them. *)
Definition choose_keys (files : btree bytes) (trust : PackTrust) : list bytes * list Failure :=
  match gate_keys trust with
  | [] => match pack_key files with Ok k => ([k], []) | Err e => ([], [e]) end
  | pinned_keys =>
      (pinned_keys,
       match pack_key files with
       | Ok k => if bool_decide (k ∈ pinned_keys) then [] else [NotPinned (keyid k)]
       | Err _ => []
       end)
  end.

Definition sha256_ref (d : bytes) : string := "sha256:" +:+ hex_encode (sha256 d).

Definition check_file (listed : btree value) (f : string * bytes) : list Failure :=
  if bool_decide (f.1 = "pack.json") then []
  else match (v ← BTree.get f.1 listed; as_str v) with
       | None => [NotListed f.1]
       | Some d => if bool_decide (d = sha256_ref f.2) then [] else [DigestMismatch f.1]
       end.

Definition check_manifest (m : value) (files : btree bytes) (keys : btree VerifyingKey) : list Failure * bool :=
  if negb (is_object m) then ([], false)
  else
    let listed := default [] (v ← vget "files" m; as_object v) in
    let h := pack_hash m in
    let fs :=
      (if bool_decide (get_str "kind" m = Some PACK_KIND) then [] else [PackKind])
      ++ (files ≫= check_file listed)
      ++ (BTree.keys listed ≫= fun nm => if BTree.contains_key nm files then [] else [ListedMissing nm])
      ++ (if bool_decide (get_str "pack_hash" m = Some (hex_encode h)) then [] else [PackHash])
      ++ match signed_by keys (default "" (get_str "signer" m)) h (default "" (get_str "sig" m)) with
         | Ok _ => []
         | Err e => [PackSignature e]
         end in
    (fs, bool_decide (length fs = 0)).

(** ** Entries *)

Definition read_entries (files : btree bytes) : list value * option EntriesError :=
  match BTree.get "entries.jsonl" files with
  | Some d =>
      if valid_utf8 d then
        match parse_jsonl (from_bytes d) with
        | Ok v => (v, None)
        | Err e => ([], Some (Invalid e))
        end
      else ([], Some NotUtf8)
  | None => ([], Some EntriesMissing_)
  end.

Definition is_granted (e : value) : bool :=
  bool_decide (get_str "event" e = Some "call") && bool_decide (get_str "decision" e = Some "allow")
  && is_some_and (vget "approval" e) (fun a => negb (is_null a)).

Definition string_set (l : list string) : list string := BTree.keys (BTree.of_list (map (fun s => (s, tt)) l)).

Definition releases_listed (m : value) : list string :=
  string_set (omap as_str (default [] (v ← vget "releases" m; as_array v))).
Definition releases_named (entries : list value) : list string := string_set (omap (get_str "release") entries).

Definition by_seq (entries : list value) : gmap Z value :=
  foldl (fun m e => match get_u64 "seq" e with Some q => <[q := e]> m | None => m end) ∅ entries.

(** ** Epochs *)

(** [n.parse::<u64>()]: a plus sign may come first. *)
Definition parse_u64 (s : string) : option Z :=
  let ds := match s with String c ((String _ _) as ds) => if decide (c = "+"%char) then ds else s | _ => s end in
  parse_size ds.

Definition strip_suffix (suffix s : string) : option string :=
  from_bytes ∘ reverse <$> bytes_strip (reverse (as_bytes suffix)) (reverse (as_bytes s)).

Definition epoch_number (nm : string) : option Z :=
  n ← strip_prefix "anchors/epoch-" nm; n ← strip_suffix ".json" n; parse_u64 n.

(** Sorted by number, then by name. *)
Definition epoch_files (files : list TarFile) : list (Z * string) :=
  sort_by_key fst (map (fun x => (x.2, x.1)) (BTree.of_list (omap (fun f => (fun n => (name f, n)) <$> epoch_number (name f)) files))).

Record Head := mkHead {
  e_first_seq : Z;
  e_last_seq : Z;
  e_prev_epoch : string;
  e_hash : string;
  e_sealed_at : Z;
  e_signer : string;
}.

Definition check_epoch (n : Z) (body : value) (keys : btree VerifyingKey) (seqs : gmap Z value) : result EpochError Head :=
  let v := default VNull (vget "epoch" body) in
  if negb (bool_decide (get_str "kind" v = Some EPOCH_KIND)) then Err EpochKind
  else
    match get_u64 "epoch" v, get_u64 "first_seq" v, get_u64 "last_seq" v with
    | Some epoch, Some first_seq, Some last_seq =>
        match get_str "entries_head" v, get_str "prev_epoch" v, get_str "sealed_at" v,
              get_str "signer" v, get_str "epoch_hash" v, get_str "sig" v with
        | Some entries_head, Some prev_epoch, Some sealed_at, Some signer, Some recorded, Some sig =>
            if negb (epoch =? n)%Z || (last_seq <? first_seq)%Z then Err EpochInconsistent
            else
              let h := epoch_hash v in
              if negb (bool_decide (recorded = hex_encode h)) then Err EpochHash
              else
                match signed_by keys signer h sig with
                | Err e => Err (EpochSignature e)
                | Ok _ =>
                    let! sealed := parse_rfc3339_secs sealed_at else Err SealedAt in
                    if existsb (fun q => is_none (seqs !! q)) (seqZ first_seq (last_seq - first_seq + 1))
                    then Err (EntriesMissing first_seq last_seq)
                    else if negb (bool_decide ((e ← seqs !! last_seq; get_str "entry_hash" e) = Some entries_head))
                    then Err (EntriesHead last_seq)
                    else Ok (mkHead first_seq last_seq prev_epoch recorded sealed signer)
                end
        | _, _, _, _, _, _ => Err EpochField
        end
    | _, _, _ => Err EpochRange
    end.

(** What was found while the epochs were walked. *)
Record Walk := mkWalk {
  w_prev : option (Z * Z * string);
  w_anchored : option (Z * Z);
  w_rfc3161 : nat * nat; (* verified, seen *)
  w_rekor : nat * nat;
  w_gaps : list Gap;
  w_failures : list Failure;
}.

(** ** Anchors *)

Definition or_empty (k : string) (a : value) : string := default "" (get_str k a).

(** The time and kind of a verified anchor. *)
Definition check_anchor (n : Z) (artifact : bytes) (head : Head) (keys : btree VerifyingKey) (trust : PackTrust) (a : value) :
    option (result AnchorError (Z * string)) :=
  let subject := sha256 artifact in
  let named := bool_decide (or_empty "batch_id" a = "epoch-" +:+ pretty (Z.to_N n))
               && bool_decide (or_empty "subject_hash" a = hex_encode subject) in
  let kind := or_empty "kind" a in
  if bool_decide (kind = "rfc3161") then
    Some match named, tsa_roots trust, base64_decode (or_empty "tsr" a), hex_decode (or_empty "nonce" a) with
         | false, _, _, _ => Err NamesAnother
         | _, None, _, _ => Err NoTrustedKey
         | _, _, None, _ | _, _, _, None => Err Unreadable
         | true, Some roots, Some tsr, Some nonce =>
             let! t := verify_timestamp_response tsr subject nonce roots else Err TokenInvalid in Ok (t, "rfc3161")
         end
  else if bool_decide (kind = "rekor") then
    match named, rekor_key trust, verifying_key_to_bytes <$> BTree.get (e_signer head) keys with
    | false, _, _ => Some (Err NamesAnother)
    | _, None, _ => Some (Err NoTrustedKey)
    | _, _, None => Some (Err UntrustedEpochSigner)
    | true, Some key, Some signer =>
        r ← verify_rekor_entry (or_empty "entry_uuid" a) (default VNull (vget "entry" a)) key artifact signer;
        Some match r with Ok v => Ok (v_integrated_time v, "rekor") | Err e => Err (LogEntryInvalid e) end
    end
  else Some (Err (UnknownKind kind)).

(** The first entry of an epoch that is stamped after the limit, or not at
    all. *)
Fixpoint entry_times (n at_ limit : Z) (seqs : gmap Z value) (qs : list Z) : list Failure :=
  match qs with
  | [] => []
  | q :: qs =>
      match (e ← seqs !! q; ts ← get_str "ts" e; parse_rfc3339_secs ts) with
      | Some t => if (limit <? t)%Z then [EntryLate n q (rfc3339_from_unix t) (rfc3339_from_unix at_)]
                  else entry_times n at_ limit seqs qs
      | None => [EntryTime n q]
      end
  end.

Definition times (n : Z) (head : Head) (seqs : gmap Z value) (trust : PackTrust) (at_ : Z) : list Failure :=
  let limit := wrap_i64 (at_ + clock_skew_secs trust) in
  (if (limit <? e_sealed_at head)%Z
   then [SealedLate n (rfc3339_from_unix (e_sealed_at head)) (rfc3339_from_unix at_)] else [])
  ++ entry_times n at_ limit seqs (seqZ (e_first_seq head) (e_last_seq head - e_first_seq head + 1)).

Definition count_if (b : bool) (n : nat) : nat := if b then S n else n.

(** The anchors of an epoch, and how many of them verify. *)
Fixpoint walk_anchors (n : Z) (artifact : bytes) (head : Head) (keys : btree VerifyingKey) (seqs : gmap Z value)
    (trust : PackTrust) (l : list value) (verified : nat) (w : Walk) : option (nat * Walk) :=
  match l with
  | [] => Some (verified, w)
  | a :: l =>
      r ← check_anchor n artifact head keys trust a;
      let ok := match r with Ok _ => true | Err _ => false end in
      let of_kind (k : string) (c : nat * nat) :=
        if bool_decide (or_empty "kind" a = k) then (count_if ok c.1, S c.2) else c in
      let new := match r with Ok (at_, _) => times n head seqs trust at_ | Err e => [AnchorFailed n e] end in
      walk_anchors n artifact head keys seqs trust l (count_if ok verified)
        (mkWalk (w_prev w) (w_anchored w) (of_kind "rfc3161" (w_rfc3161 w)) (of_kind "rekor" (w_rekor w)) (w_gaps w)
           (w_failures w ++ new))
  end.

Definition check_anchors (n : Z) (body : value) (head : Head) (keys : btree VerifyingKey) (seqs : gmap Z value)
    (trust : PackTrust) (w : Walk) : option Walk :=
  let artifact := canonical (default VNull (vget "epoch" body)) in
  let anchors := default [] (v ← vget "anchors" body; as_array v) in
  '(verified, w) ← walk_anchors n artifact head keys seqs trust anchors 0 w;
  let gap := match anchors, verified with [], _ => [NotAnchored n] | _, 0 => [NothingVerifies n] | _, _ => [] end in
  Some (mkWalk (w_prev w) (w_anchored w) (w_rfc3161 w) (w_rekor w) (w_gaps w ++ gap) (w_failures w)).

(** Continuity with the epoch before, or with the start of the entries. *)
Definition check_continuity (first_entry : option Z) (prev : option (Z * Z * string)) (n : Z) (head : Head) :
    list Gap * list Failure :=
  match prev with
  | None =>
      (match first_entry with
       | Some first => if (first <? e_first_seq head)%Z then [Uncovered first (e_first_seq head - 1)] else []
       | None => []
       end,
       if (n =? 0)%Z && (negb (e_first_seq head =? 0)%Z || negb (bool_decide (e_prev_epoch head = GENESIS)))
       then [EpochZero] else [])
  | Some (p_n, p_last, p_hash) =>
      let next := wrap_u64 (p_n + 1) in
      let start := wrap_u64 (p_last + 1) in
      let late := (start <? e_first_seq head)%Z in
      ((if (n =? next)%Z then []
        else if (n =? wrap_u64 (p_n + 2))%Z then [EpochMissing next] else [EpochsMissing next (wrap_u64 (n - 1))])
       ++ (if late then [Uncovered start (e_first_seq head - 1)] else []),
       (if (n =? next)%Z && negb (bool_decide (e_prev_epoch head = p_hash)) then [EpochUnlinked n p_n] else [])
       ++ (if negb late && negb (e_first_seq head =? start)%Z then [EpochOverlaps n p_n] else []))
  end.

Fixpoint walk_epochs (files : btree bytes) (keys : btree VerifyingKey) (seqs : gmap Z value) (first_entry : option Z)
    (trust : PackTrust) (l : list (Z * string)) (w : Walk) : option Walk :=
  match l with
  | [] => Some w
  | (n, nm) :: l =>
      let failed f := mkWalk (w_prev w) (w_anchored w) (w_rfc3161 w) (w_rekor w) (w_gaps w) (w_failures w ++ [f]) in
      match json_file files nm with
      | Err e => walk_epochs files keys seqs first_entry trust l (failed e)
      | Ok body =>
          match check_epoch n body keys seqs with
          | Err e => walk_epochs files keys seqs first_entry trust l (failed (EpochFailed n e))
          | Ok head =>
              let (gs, fs) := check_continuity first_entry (w_prev w) n head in
              let anchored := (match w_anchored w with Some (a, _) => a | None => e_first_seq head end, e_last_seq head) in
              w' ← check_anchors n body head keys seqs trust
                     (mkWalk (w_prev w) (Some anchored) (w_rfc3161 w) (w_rekor w) (w_gaps w ++ gs) (w_failures w ++ fs));
              walk_epochs files keys seqs first_entry trust l
                (mkWalk (Some (n, e_last_seq head, e_hash head)) (w_anchored w') (w_rfc3161 w') (w_rekor w') (w_gaps w')
                   (w_failures w'))
          end
      end
  end.

(** ** The pack *)

Definition empty_report (trust : PackTrust) : PackReport :=
  mkReport 0 None false false 0 None None None 0 None 0 0 0 0 [] None 0 0 0 0 0 [] [] (trust_require_anchors trust).

Definition seq_of (e : option value) : option Z := v ← e; get_u64 "seq" v.

(** The key that signed the manifest, or the first. *)
Definition gate_key_of (manifest : value) (keys : btree VerifyingKey) (trusted : list bytes) : option string :=
  match get_str "signer" manifest with
  | Some s => if BTree.contains_key s keys then Some s else keyid <$> head trusted
  | None => keyid <$> head trusted
  end.

Definition check_entries (read : list value * option EntriesError) (trusted : list bytes) :
    option DecisionSummary * option EntriesError :=
  match read.2 with
  | Some e => (None, Some e)
  | None => match verify_decisions read.1 trusted with Ok s => (Some s, None) | Err e => (None, Some (Invalid e)) end
  end.

Definition range_of (manifest : value) : value := default VNull (vget "range" manifest).

Definition check_counts (manifest : value) (entries : list value) : list Failure :=
  if is_object manifest &&
     (negb (bool_decide (get_u64 "entries" manifest = Some (Z.of_nat (length entries))))
      || negb (bool_decide (get_u64 "first_seq" (range_of manifest) = seq_of (head entries)))
      || negb (bool_decide (get_u64 "last_seq" (range_of manifest) = seq_of (last entries))))
  then [CountMismatch] else [].

Definition check_releases (files : btree bytes) (entries : list value) : list string * list Failure :=
  match json_file files "manifests.json" with
  | Ok m => (releases_listed m, if bool_decide (releases_listed m = releases_named entries) then [] else [ReleasesMismatch])
  | Err e => ([], [e])
  end.

Definition check_listed_epochs (manifest : value) (numbers : list Z) : list Failure :=
  match (v ← vget "epochs" manifest; as_array v) with
  | Some l => if bool_decide (omap value_u64 l = numbers) then [] else [EpochsMismatch]
  | None => []
  end.

(** The entries after the last epoch. *)
Definition tail_of (first last : option Z) (prev : option (Z * Z * string)) : option (Z * Z) :=
  l ← last;
  let after := match prev with Some (_, p_last, _) => wrap_u64 (p_last + 1) | None => default 0%Z first end in
  if (after <=? l)%Z then Some (after, l) else None.

(** The report on the files of a tar. *)
Definition verify_files (files : list TarFile) (trust : PackTrust) : option PackReport :=
  let named := by_name files in
  let is_pinned := negb (bool_decide (gate_keys trust = [])) in
  let (trusted, key_failures) := choose_keys named trust in
  let keys := trusted_keys trusted in
  let (manifest, pack_missing) :=
    match json_file named "pack.json" with Ok m => (m, []) | Err e => (VNull, [e]) end in
  let (manifest_failures, is_ok) := check_manifest manifest named keys in
  let (entries, read_error) := read_entries named in
  let first := seq_of (head entries) in
  let last := seq_of (list.last entries) in
  let (summary, error) := check_entries (entries, read_error) trusted in
  let tallied {A} (f : DecisionSummary -> A) (zero : A) := match summary with Some s => f s | None => zero end in
  let (listed, release_failures) := check_releases named entries in
  let epoch_list := epoch_files files in
  w ← walk_epochs named keys (by_seq entries) first trust epoch_list
        (mkWalk None None (0, 0) (0, 0) []
           (key_failures ++ pack_missing ++ manifest_failures ++ check_counts manifest entries ++ release_failures
            ++ check_listed_epochs manifest (map fst epoch_list)));
  Some (mkReport (length files) (gate_key_of manifest keys trusted) is_pinned is_ok (length entries) first last error
    (length epoch_list) (w_anchored w) (w_rfc3161 w).1 (w_rfc3161 w).2 (w_rekor w).1 (w_rekor w).2 (w_gaps w)
    (tail_of first last (w_prev w))
    (tallied s_denied 0) (tallied s_approvals_required 0)
    (tallied (fun _ => length (filter (fun e => is_granted e = true) entries)) 0)
    (tallied s_unknown_outcomes 0) (tallied s_reconciled 0) listed (w_failures w) (trust_require_anchors trust)).

Definition verify_pack (tar : bytes) (trust : PackTrust) : option PackReport :=
  r ← Ustar.read tar;
  match r with
  | Err e => let r := empty_report trust in
      Some (mkReport 0 None false false 0 None None None 0 None 0 0 0 0 [] None 0 0 0 0 0 [] [NotAPack e] (require_anchors r))
  | Ok files => verify_files files trust
  end.
End GatePack.

(** ** What an accepted pack is *)

Section Spec.
Context {ST : SerdeText} {HC : HashCrates} {JC : JsonCrates} {SC : SignatureCrates} {VC : VerifierCrate}
        {S5 : Sha512Crate} {PC : P256Crate} {DC : DerCrates} {TV : TsaVerifier}.

(** The keys everything must be signed by: the pinned ones, which hold the
    pack's own if that is readable, or the pack's own. *)
Definition keys_for (trust : PackTrust) (files : btree bytes) (trusted : list bytes) : Prop :=
  if decide (gate_keys trust = []) then exists k, pack_key files = Ok k /\ trusted = [k]
  else trusted = gate_keys trust /\ forall k, pack_key files = Ok k -> k ∈ trusted.

(** A signature of the digest by a key the signer names. *)
Definition signed_digest (keys : btree VerifyingKey) (signer : string) (digest : bytes) (sig_hex : string) : Prop :=
  exists vk sig, BTree.get signer keys = Some vk /\ hex_decode sig_hex = Some sig /\ length sig = 64 /\
    ed25519_verify vk digest sig = true.

Definition listed_files (m : value) : btree value := default [] (v ← vget "files" m; as_object v).

(** A signed manifest that lists every other file with its digest, and no
    file that is missing. *)
Record manifest_ok (keys : btree VerifyingKey) (m : value) (files : btree bytes) : Prop := {
  mo_kind : get_str "kind" m = Some PACK_KIND;
  mo_listed nm d : BTree.get nm files = Some d -> nm <> "pack.json" ->
    BTree.get nm (listed_files m) = Some (VString (sha256_ref d));
  mo_present nm : nm ∈ BTree.keys (listed_files m) -> nm ∈ BTree.keys files;
  mo_hash : get_str "pack_hash" m = Some (hex_encode (pack_hash m));
  mo_signed : signed_digest keys (or_empty "signer" m) (pack_hash m) (or_empty "sig" m);
}.

(** An epoch's head over the entries of the pack. *)
Record epoch_ok (keys : btree VerifyingKey) (seqs : gmap Z value) (n : Z) (v : value) (h : Head) : Prop := {
  eo_kind : get_str "kind" v = Some EPOCH_KIND;
  eo_epoch : get_u64 "epoch" v = Some n;
  eo_first : get_u64 "first_seq" v = Some (e_first_seq h);
  eo_last : get_u64 "last_seq" v = Some (e_last_seq h);
  eo_range : (e_first_seq h <= e_last_seq h)%Z;
  eo_prev : get_str "prev_epoch" v = Some (e_prev_epoch h);
  eo_signer : get_str "signer" v = Some (e_signer h);
  eo_recorded : get_str "epoch_hash" v = Some (e_hash h);
  eo_hash : e_hash h = hex_encode (epoch_hash v);
  eo_signed : exists sig, get_str "sig" v = Some sig /\ signed_digest keys (e_signer h) (epoch_hash v) sig;
  eo_sealed : exists s, get_str "sealed_at" v = Some s /\ parse_rfc3339_secs s = Some (e_sealed_at h);
  eo_entries q : (e_first_seq h <= q <= e_last_seq h)%Z -> is_Some (seqs !! q);
  eo_head : exists e x, seqs !! e_last_seq h = Some e /\ get_str "entry_hash" e = Some x /\ get_str "entries_head" v = Some x;
}.

(** An anchor of the epoch's head that verifies at a time. *)
Definition anchored_at (trust : PackTrust) (keys : btree VerifyingKey) (n : Z) (artifact : bytes) (h : Head) (a : value) (t : Z) : Prop :=
  or_empty "batch_id" a = "epoch-" +:+ pretty (Z.to_N n) /\ or_empty "subject_hash" a = hex_encode (sha256 artifact) /\
  ((or_empty "kind" a = "rfc3161" /\ exists roots tsr nonce, tsa_roots trust = Some roots /\
      base64_decode (or_empty "tsr" a) = Some tsr /\ hex_decode (or_empty "nonce" a) = Some nonce /\
      verify_timestamp_response tsr (sha256 artifact) nonce roots = Some t) \/
   (or_empty "kind" a = "rekor" /\ exists key vk v, rekor_key trust = Some key /\ BTree.get (e_signer h) keys = Some vk /\
      verify_rekor_entry (or_empty "entry_uuid" a) (default VNull (vget "entry" a)) key artifact (verifying_key_to_bytes vk) = Some (Ok v) /\
      v_integrated_time v = t)).

Definition stamped_by (seqs : gmap Z value) (limit q : Z) : Prop :=
  exists e ts t, seqs !! q = Some e /\ get_str "ts" e = Some ts /\ parse_rfc3339_secs ts = Some t /\ (t <= limit)%Z.

(** The anchor verifies, and nothing it covers is stamped after it. *)
Definition anchor_ok (trust : PackTrust) (keys : btree VerifyingKey) (seqs : gmap Z value) (n : Z) (artifact : bytes) (h : Head) (a : value) : Prop :=
  exists t, let limit := wrap_i64 (t + clock_skew_secs trust) in
    anchored_at trust keys n artifact h a t /\ (e_sealed_at h <= limit)%Z /\
    forall q, (e_first_seq h <= q <= e_last_seq h)%Z -> stamped_by seqs limit q.

Definition anchors_of (body : value) : list value := default [] (v ← vget "anchors" body; as_array v).

(** The epoch continues the one before, or starts the ledger or the pack. *)
Definition continues_epoch (first_entry : option Z) (prev : option (Z * Z * string)) (n : Z) (h : Head) : Prop :=
  match prev with
  | None => (forall first, first_entry = Some first -> (e_first_seq h <= first)%Z) /\
            (n = 0%Z -> e_first_seq h = 0%Z /\ e_prev_epoch h = GENESIS)
  | Some (p_n, p_last, p_hash) => n = wrap_u64 (p_n + 1) /\ e_first_seq h = wrap_u64 (p_last + 1) /\ e_prev_epoch h = p_hash
  end.

(** The epoch files in order: no gap, no overlap, each linked to the one
    before and anchored; [final] is the last of them. *)
Fixpoint epochs_ok (files : btree bytes) (keys : btree VerifyingKey) (seqs : gmap Z value) (first_entry : option Z)
    (trust : PackTrust) (prev : option (Z * Z * string)) (l : list (Z * string)) (final : option (Z * Z * string)) : Prop :=
  match l with
  | [] => final = prev
  | (n, nm) :: l =>
      exists body h, let v := default VNull (vget "epoch" body) in
        json_file files nm = Ok body /\ epoch_ok keys seqs n v h /\ continues_epoch first_entry prev n h /\
        anchors_of body <> [] /\ Forall (anchor_ok trust keys seqs n (canonical v) h) (anchors_of body) /\
        epochs_ok files keys seqs first_entry trust (Some (n, e_last_seq h, e_hash h)) l final
  end.

(** The first entry after the last epoch. *)
Definition unsealed (first : option Z) (final : option (Z * Z * string)) : Z :=
  match final with Some (_, p_last, _) => wrap_u64 (p_last + 1) | None => default 0%Z first end.

Definition pack_holds (files : list TarFile) (trust : PackTrust) : Prop :=
  let named := by_name files in
  exists trusted m es releases final,
    let keys := trusted_keys trusted in
    let first := seq_of (head es) in
    let last := seq_of (list.last es) in
    keys_for trust named trusted /\ json_file named "pack.json" = Ok m /\ manifest_ok keys m named /\
    read_entries named = (es, None) /\ trusted <> [] /\ run_ok (signed_under keys) None es /\
    get_u64 "entries" m = Some (Z.of_nat (length es)) /\
    get_u64 "first_seq" (range_of m) = first /\ get_u64 "last_seq" (range_of m) = last /\
    json_file named "manifests.json" = Ok releases /\ releases_listed releases = releases_named es /\
    (forall l, (v ← vget "epochs" m; as_array v) = Some l -> omap value_u64 l = map fst (epoch_files files)) /\
    epochs_ok named keys (by_seq es) first trust None (epoch_files files) final /\
    (trust_require_anchors trust = true -> forall l, last = Some l -> (l < unsealed first final)%Z).
End Spec.

(** ** The checks decide it *)

Section Exact.
Context {ST : SerdeText} {HC : HashCrates} {JC : JsonCrates} {SC : SignatureCrates} {VC : VerifierCrate}
        {S5 : Sha512Crate} {PC : P256Crate} {DC : DerCrates} {TV : TsaVerifier}.
Implicit Types (keys : btree VerifyingKey) (seqs : gmap Z value) (trust : PackTrust) (w : Walk) (h : Head).

Lemma signed_by_exactly keys signer digest sig :
  signed_by keys signer digest sig = Ok tt <-> signed_digest keys signer digest sig.
Proof.
  unfold signed_by, signed_digest. split.
  - intros H. destruct (BTree.get signer keys) as [vk|]; [|done]. destruct (hex_decode sig) as [b|]; [|done].
    cbn [mbind option_bind] in H. destruct (decide (length b = 64)); [|done].
    destruct (ed25519_verify vk digest b) eqn:Hv; [by exists vk, b|done].
  - intros (vk & b & -> & -> & Hl & Hv). cbn [mbind option_bind]. by rewrite decide_True, Hv.
Qed.

Lemma all_entries_spec seqs a b :
  existsb (fun q => is_none (seqs !! q)) (seqZ a (b - a + 1)) = false <-> forall q, (a <= q <= b)%Z -> is_Some (seqs !! q).
Proof.
  rewrite existsb_false, Forall_seqZ. split; intros H q Hq.
  - specialize (H q ltac:(lia)). destruct (seqs !! q); [by eexists|done].
  - by destruct (H q ltac:(lia)) as [x ->].
Qed.

Lemma check_epoch_exactly n body keys seqs h :
  check_epoch n body keys seqs = Ok h <-> epoch_ok keys seqs n (default VNull (vget "epoch" body)) h.
Proof.
  unfold check_epoch. set (v := default VNull (vget "epoch" body)). split.
  - intros H. case_bool_decide as Hk; [|done]. cbn [negb] in H.
    destruct (get_u64 "epoch" v) as [ep|] eqn:He; [|done]. destruct (get_u64 "first_seq" v) as [a|] eqn:Ha; [|done].
    destruct (get_u64 "last_seq" v) as [b|] eqn:Hb; [|done]. destruct (get_str "entries_head" v) as [eh|] eqn:Heh; [|done].
    destruct (get_str "prev_epoch" v) as [pe|] eqn:Hpe; [|done]. destruct (get_str "sealed_at" v) as [sa|] eqn:Hsa; [|done].
    destruct (get_str "signer" v) as [sr|] eqn:Hsr; [|done]. destruct (get_str "epoch_hash" v) as [rh|] eqn:Hrh; [|done].
    destruct (get_str "sig" v) as [sg|] eqn:Hsg; [|done].
    destruct (Z.eqb_spec ep n) as [->|]; [|done]. destruct (Z.ltb_spec b a); [done|]. cbn [negb orb] in H.
    case_bool_decide as Hh; [|done]. cbn [negb] in H.
    destruct (signed_by keys sr _ sg) as [[]|] eqn:Hs; [|done]. apply signed_by_exactly in Hs.
    destruct (parse_rfc3339_secs sa) as [t|] eqn:Ht; [|done].
    destruct (existsb _ _) eqn:Hall; [done|]. rewrite all_entries_spec in Hall.
    case_bool_decide as Hl; [|done]. apply bind_Some in Hl as (e & Hl & Hx). injection H as <-.
    constructor; cbn; eauto 7.
  - intros [Hk He Ha Hb Hr Hp Hsr Hrh Hh (sg & Hsg & Hs) (sa & Hsa & Ht) Hall (e & x & Hl & Hx & Heh)].
    rewrite bool_decide_eq_true_2 by done. cbn [negb].
    rewrite He, Ha, Hb, Heh, Hp, Hsa, Hsr, Hrh, Hsg. rewrite Z.eqb_refl, (proj2 (Z.ltb_ge _ _) Hr). cbn [negb orb].
    rewrite bool_decide_eq_true_2 by done. cbn [negb]. rewrite (proj2 (signed_by_exactly _ _ _ _) Hs), Ht.
    rewrite (proj2 (all_entries_spec _ _ _) Hall). rewrite bool_decide_eq_true_2 by (rewrite Hl; done). by destruct h.
Qed.

Lemma check_anchor_total n artifact h keys trust a : exists r, check_anchor n artifact h keys trust a = Some r.
Proof.
  unfold check_anchor. case_bool_decide; [by eexists|]. case_bool_decide; [|by eexists].
  destruct (bool_decide _ && bool_decide _), (rekor_key trust) as [k|], (verifying_key_to_bytes <$> BTree.get (e_signer h) keys) as [vk|]; try by eexists.
  destruct (verify_rekor_entry_total (or_empty "entry_uuid" a) (default VNull (vget "entry" a)) k artifact vk) as [r ->].
  by destruct r; eexists.
Qed.

Lemma check_anchor_exactly n artifact h keys trust a t :
  (exists k, check_anchor n artifact h keys trust a = Some (Ok (t, k))) <-> anchored_at trust keys n artifact h a t.
Proof.
  unfold check_anchor, anchored_at. split.
  - intros [k H]. case_bool_decide as Hk.
    + do 2 (case_bool_decide; [|done]). split_and!; [done..|]. left. split; [done|]. cbn [andb] in H.
      destruct (tsa_roots trust) as [roots|]; [|done]. destruct (base64_decode _) as [tsr|]; [|done].
      destruct (hex_decode _) as [nonce|]; [|done]. destruct (verify_timestamp_response _ _ _ _) as [t'|] eqn:Hv; [|done].
      injection H as <- _. eauto 7.
    + case_bool_decide as Hk'; [|done]. do 2 (case_bool_decide; [|done]). split_and!; [done..|]. right. split; [done|].
      cbn [andb] in H. destruct (rekor_key trust) as [key|]; [|done]. destruct (BTree.get (e_signer h) keys) as [vk|]; [|done].
      cbn [fmap option_fmap option_map] in H. apply bind_Some in H as (r & Hr & H). destruct r as [v|]; [|done].
      injection H as <- _. eauto 7.
  - intros (Hb & Hs & [(Hk & roots & tsr & nonce & Hro & Ht & Hn & Hv)|(Hk & key & vk & v & Hkey & Hvk & Hv & Ht)]).
    + rewrite !bool_decide_eq_true_2 by done. cbn [andb]. rewrite Hro, Ht, Hn, Hv. by eexists.
    + rewrite bool_decide_eq_false_2 by (by rewrite Hk). rewrite !bool_decide_eq_true_2 by done. cbn [andb].
      rewrite Hkey, Hvk. cbn [fmap option_fmap option_map]. rewrite Hv. cbn [mbind option_bind]. rewrite Ht. by eexists.
Qed.

Lemma entry_times_nil n at_ limit seqs qs : entry_times n at_ limit seqs qs = [] <-> Forall (stamped_by seqs limit) qs.
Proof.
  induction qs as [|q qs IH]; [by split; [constructor|]|]. cbn [entry_times]. rewrite Forall_cons. unfold stamped_by at 1.
  destruct (seqs !! q) as [e|]; cbn [mbind option_bind]; [|naive_solver].
  destruct (get_str "ts" e) as [ts|] eqn:Hts; cbn [mbind option_bind]; [|naive_solver].
  destruct (parse_rfc3339_secs ts) as [t|] eqn:Ht; [|naive_solver].
  destruct (Z.ltb_spec limit t).
  - split; [done|]. intros [(e' & ts' & t' & ? & ? & ? & ?) _]. simplify_eq. lia.
  - rewrite IH. naive_solver.
Qed.

Lemma times_nil n h seqs trust at_ (limit := wrap_i64 (at_ + clock_skew_secs trust)) :
  times n h seqs trust at_ = [] <->
  (e_sealed_at h <= limit)%Z /\ forall q, (e_first_seq h <= q <= e_last_seq h)%Z -> stamped_by seqs limit q.
Proof.
  unfold times. fold limit. rewrite app_nil, entry_times_nil, Forall_seqZ.
  destruct (Z.ltb_spec limit (e_sealed_at h)); (split; [intros [? Hq0]|intros [? Hq0]]); split; try done; try lia;
    intros q Hq; apply Hq0; lia.
Qed.

Lemma walk_anchors_spec n artifact h keys seqs trust l verified w :
  exists c w', walk_anchors n artifact h keys seqs trust l verified w = Some (c, w') /\
    w_prev w' = w_prev w /\ w_gaps w' = w_gaps w /\
    (w_failures w' = [] <-> w_failures w = [] /\ Forall (anchor_ok trust keys seqs n artifact h) l) /\
    (w_failures w' = [] -> c = (verified + length l)%nat).
Proof.
  revert verified w. induction l as [|a l IH]; intros verified w.
  - exists verified, w. split_and!; [done..| |intros _; simpl; lia]. naive_solver.
  - cbn [walk_anchors]. destruct (check_anchor_total n artifact h keys trust a) as [r Hr]. rewrite Hr. cbn [mbind option_bind].
    lazymatch goal with |- exists c w', walk_anchors _ _ _ _ _ _ _ ?v ?w1 = _ /\ _ => destruct (IH v w1) as (c & w' & -> & Hp & Hg & Hf & Hc) end.
    exists c, w'. cbn [w_prev w_gaps w_failures] in *. split_and!; [done..| |].
    + rewrite Hf, app_nil, Forall_cons. destruct r as [[t k]|e].
      * rewrite times_nil. split.
        -- intros [[? [? ?]] ?]. split_and!; try done. exists t. split_and!; [|done..]. apply check_anchor_exactly. by exists k.
        -- intros [? [(t' & [k' Ha]%check_anchor_exactly & ? & ?) ?]]. rewrite Hr in Ha. by simplify_eq.
      * split; [naive_solver|]. intros [_ [(t' & [k' Ha]%check_anchor_exactly & _) _]]. by rewrite Hr in Ha.
    + intros H. rewrite Hc by done. apply Hf, proj1, app_nil in H as [_ H]. destruct r as [[t k]|]; [cbn; lia|done].
Qed.

Lemma check_anchors_spec n body h keys seqs trust w (v := default VNull (vget "epoch" body)) :
  exists w', check_anchors n body h keys seqs trust w = Some w' /\ w_prev w' = w_prev w /\
    (w_failures w' = [] /\ w_gaps w' = [] <->
     (w_failures w = [] /\ w_gaps w = []) /\ anchors_of body <> [] /\
     Forall (anchor_ok trust keys seqs n (canonical v) h) (anchors_of body)).
Proof.
  unfold check_anchors. fold v. fold (anchors_of body).
  destruct (walk_anchors_spec n (canonical v) h keys seqs trust (anchors_of body) 0 w) as (c & w' & -> & Hp & Hg & Hf & Hc).
  cbn [mbind option_bind]. eexists. split; [reflexivity|]. cbn [w_prev w_gaps w_failures]. split; [done|].
  rewrite app_nil, Hf, Hg. split.
  - intros [[Hw Ha] [Hg' Hn]]. split_and!; try done. by intros He; rewrite He in Hn.
  - intros [[Hw Hg'] [Hne Ha]]. split_and!; try done. rewrite Hc by by apply Hf. by destruct (anchors_of body).
Qed.

Lemma check_continuity_spec first prev n h gs fs : check_continuity first prev n h = (gs, fs) ->
  fs = [] /\ gs = [] <-> continues_epoch first prev n h.
Proof.
  unfold check_continuity, continues_epoch. destruct prev as [[[p_n p_last] p_hash]|]; intros [= <- <-].
  - set (next := wrap_u64 (p_n + 1)). set (start := wrap_u64 (p_last + 1)). rewrite !app_nil.
    destruct (Z.eqb_spec n next), (Z.ltb_spec start (e_first_seq h)), (Z.eqb_spec (e_first_seq h) start);
      case_bool_decide; cbn [negb andb]; try (destruct (n =? _)%Z);
      (split; [intros [[??] [??]] | intros (?&?&?)]); split_and?; done || lia.
  - rewrite (and_comm (_ = [])). f_equiv.
    + destruct first as [first|]; [|done]. destruct (Z.ltb_spec first (e_first_seq h)); (split; [|done || intros Hf]).
      * done.
      * specialize (Hf _ eq_refl). lia.
      * by intros _ ? [= <-].
    + destruct (Z.eqb_spec n 0), (Z.eqb_spec (e_first_seq h) 0); case_bool_decide; cbn [negb andb orb]; naive_solver.
Qed.

Lemma walk_epochs_spec files keys seqs first trust l w :
  exists w', walk_epochs files keys seqs first trust l w = Some w' /\
    (w_failures w' = [] /\ w_gaps w' = [] <->
     (w_failures w = [] /\ w_gaps w = []) /\ epochs_ok files keys seqs first trust (w_prev w) l (w_prev w')) /\
    (forall final, epochs_ok files keys seqs first trust (w_prev w) l final -> final = w_prev w').
Proof.
  revert w. induction l as [|[n nm] l IH]; intros w; [exists w; cbn; naive_solver|]. cbn [walk_epochs epochs_ok].
  destruct (json_file files nm) as [body|e] eqn:Hj.
  2: { lazymatch goal with |- exists w', walk_epochs _ _ _ _ _ _ ?w1 = _ /\ _ => destruct (IH w1) as (w' & -> & Hw & _) end.
       exists w'. split; [done|]. rewrite Hw. cbn [w_failures w_gaps]. rewrite app_nil. split; [|naive_solver]. split; [naive_solver|].
       intros [_ (? & ? & ? & _)]. done. }
  destruct (check_epoch n body keys seqs) as [h|e] eqn:He.
  2: { lazymatch goal with |- exists w', walk_epochs _ _ _ _ _ _ ?w1 = _ /\ _ => destruct (IH w1) as (w' & -> & Hw & _) end.
       exists w'. split; [done|]. rewrite Hw. cbn [w_failures w_gaps]. rewrite app_nil.
       assert (Hno : forall body' h, Ok (E := Failure) body = Ok body' -> ~ epoch_ok keys seqs n (default VNull (vget "epoch" body')) h).
       { intros body' h [= <-] Hh%check_epoch_exactly. by rewrite He in Hh. }
       split; [split; [naive_solver|]|].
       - by intros [_ (body' & h & Hb & ?%(Hno _ _ Hb) & _)].
       - by intros final (body' & h & Hb & ?%(Hno _ _ Hb) & _). }
  destruct (check_continuity first (w_prev w) n h) as [gs fs] eqn:Hc. apply check_continuity_spec in Hc.
  lazymatch goal with |- context [check_anchors n body h keys seqs trust ?w1] =>
    destruct (check_anchors_spec n body h keys seqs trust w1) as (w1' & -> & Hp1 & Hw1) end.
  cbn [mbind option_bind].
  lazymatch goal with |- exists w', walk_epochs _ _ _ _ _ _ ?w2 = _ /\ _ => destruct (IH w2) as (w' & -> & Hw & Hfin) end.
  exists w'. split; [done|]. rewrite Hw. cbn [w_failures w_gaps w_prev] in *. rewrite Hw1, !app_nil.
  apply check_epoch_exactly in He.
  assert (Hsame : forall h', epoch_ok keys seqs n (default VNull (vget "epoch" body)) h' -> h' = h).
  { intros h' He'. apply check_epoch_exactly in He, He'. congruence. }
  split; [split|].
  - intros [(((? & ?) & (? & ?)) & Ha & Hall) Hl]. split; [done|]. exists body, h.
    split_and!; [done|done|by apply Hc|done|done|done].
  - intros [[? ?] (body' & h' & [= <-] & He' & Hcont & Ha & Hall & Hl)].
    apply Hsame in He' as ->. apply Hc in Hcont as [-> ->]. done.
  - intros final (body' & h' & [= <-] & He' & _ & _ & _ & Hl). apply Hsame in He' as ->. by apply Hfin.
Qed.

Lemma if_nil {A} (b : bool) (x : A) : (if b then [] else [x]) = [] <-> b = true.
Proof. by destruct b. Qed.

Lemma choose_keys_only files trust trusted fs trusted' : choose_keys files trust = (trusted, fs) ->
  keys_for trust files trusted' -> trusted' = trusted.
Proof.
  unfold choose_keys, keys_for. case_decide as Hg.
  - rewrite Hg. intros Hc (k & Hk & ->). rewrite Hk in Hc. congruence.
  - intros Hc [-> _]. destruct (gate_keys trust); [done|congruence].
Qed.

Lemma bind_nil_Forall {A B} (f : A -> list B) l : l ≫= f = [] <-> Forall (fun x => f x = []) l.
Proof. induction l as [|x l IH]; [by split; [constructor|]|]. by rewrite bind_cons, app_nil, Forall_cons, IH. Qed.

Lemma check_manifest_spec m files keys : BTree.wf files ->
  ((check_manifest m files keys).2 = true -> (check_manifest m files keys).1 = []) /\
  ((check_manifest m files keys).2 = true <-> manifest_ok keys m files).
Proof.
  intros Hwf. unfold check_manifest. fold (listed_files m). destruct (is_object m) eqn:Ho; cbn [negb fst snd].
  2: { split; [done|]. split; [done|]. intros [Hk _ _ _ _]. unfold get_str, vget in Hk. unfold is_object in Ho.
       by destruct (as_object m). }
  set (fs := _ ++ _). split; [by intros ?%bool_decide_eq_true%length_zero_iff_nil|].
  rewrite bool_decide_eq_true. etrans; [apply (length_zero_iff_nil fs)|]. subst fs.
  rewrite !app_nil, !if_nil, !bool_decide_eq_true. split.
  - intros (Hk & Hl & Hp & Hh & Hs). constructor; [done| | |done|].
    + intros nm d Hg Hn. apply BTree.get_Some_elem in Hg. apply bind_nil_Forall in Hl. rewrite Forall_forall in Hl.
      specialize (Hl _ Hg). unfold check_file in Hl. cbn [fst snd] in Hl. rewrite bool_decide_eq_false_2 in Hl by done.
      destruct (BTree.get nm (listed_files m)) as [v|]; [|done]. cbn [mbind option_bind] in Hl.
      destruct v; try done. cbn [as_str] in Hl. case_bool_decide; [by subst|done].
    + intros nm Hnm. apply bind_nil_Forall in Hp. rewrite Forall_forall in Hp. specialize (Hp _ Hnm). apply BTree.contains_key_elem.
      by destruct (BTree.contains_key nm files).
    + apply signed_by_exactly. unfold or_empty. by destruct (signed_by _ _ _ _) as [[]|].
  - intros [Hk Hl Hp Hh Hs]. split_and!; [done| | |done|].
    + apply bind_nil_Forall, Forall_forall. intros [nm d] Hin. unfold check_file. cbn [fst snd]. case_bool_decide as Hn; [done|].
      rewrite (Hl nm d) by (done || by apply BTree.elem_get). cbn [mbind option_bind as_str]. by rewrite bool_decide_eq_true_2.
    + apply bind_nil_Forall, Forall_forall. intros nm Hnm. apply Hp, BTree.contains_key_elem in Hnm. by rewrite Hnm.
    + apply signed_by_exactly in Hs. unfold or_empty in Hs. by rewrite Hs.
Qed.

Lemma choose_keys_spec files trust trusted fs : choose_keys files trust = (trusted, fs) ->
  fs = [] <-> keys_for trust files trusted.
Proof.
  unfold choose_keys, keys_for. destruct (gate_keys trust) as [|k ks]; [rewrite decide_True by done|rewrite decide_False by done].
  - destruct (pack_key files) as [k|e]; intros [= <- <-]; [naive_solver|]. split; [done|]. by intros (? & ? & _).
  - intros [= <- <-]. destruct (pack_key files) as [k'|e]; [|naive_solver]. rewrite if_nil, bool_decide_eq_true. naive_solver.
Qed.

Lemma report_ok_true (r : PackReport) :
  report_ok r = true <-> (failures r = [] /\ gaps r = []) /\ entries_error r = None /\
    (require_anchors r = true -> unanchored_tail r = None).
Proof.
  unfold report_ok. rewrite !andb_true_iff, !bool_decide_eq_true, !length_zero_iff_nil, negb_true_iff, andb_false_iff.
  destruct (entries_error r), (unanchored_tail r), (require_anchors r); cbn; naive_solver.
Qed.

Lemma verify_decisions_ok es trusted : (exists s, verify_decisions es trusted = Ok s) <->
  trusted <> [] /\ run_ok (signed_under (trusted_keys trusted)) None es.
Proof.
  unfold verify_decisions. case_bool_decide; [split; [by intros [? ?]|naive_solver]|]. split.
  - by intros [s [Hr _]%verify_entries_exactly].
  - intros [_ Hr]. eexists. by apply verify_entries_exactly.
Qed.

Lemma guard_if_nil {A} (b : bool) (x : A) : (if b then [x] else []) = [] <-> b = false.
Proof. by destruct b. Qed.

Lemma check_entries_ok es err trusted :
  (check_entries (es, err) trusted).2 = None <-> err = None /\ trusted <> [] /\ run_ok (signed_under (trusted_keys trusted)) None es.
Proof.
  rewrite <- verify_decisions_ok. unfold check_entries. cbn [fst snd]. destruct err; [naive_solver|].
  destruct (verify_decisions es trusted); naive_solver.
Qed.

Lemma check_counts_ok m es : is_object m = true -> check_counts m es = [] <->
  get_u64 "entries" m = Some (Z.of_nat (length es)) /\ get_u64 "first_seq" (range_of m) = seq_of (head es) /\
  get_u64 "last_seq" (range_of m) = seq_of (last es).
Proof.
  intros Hm. unfold check_counts. rewrite Hm, guard_if_nil. cbn [andb].
  rewrite !orb_false_iff, !negb_false_iff, !bool_decide_eq_true. naive_solver.
Qed.

Lemma check_releases_ok files es : (check_releases files es).2 = [] <->
  exists m, json_file files "manifests.json" = Ok m /\ releases_listed m = releases_named es.
Proof.
  unfold check_releases. destruct (json_file files "manifests.json") as [m|]; cbn [snd]; [|naive_solver].
  rewrite if_nil, bool_decide_eq_true. naive_solver.
Qed.

Lemma check_listed_epochs_ok m ns : check_listed_epochs m ns = [] <->
  forall l, (v ← vget "epochs" m; as_array v) = Some l -> omap value_u64 l = ns.
Proof.
  unfold check_listed_epochs. destruct (vget "epochs" m ≫= _) as [l|]; [|naive_solver].
  rewrite if_nil, bool_decide_eq_true. naive_solver.
Qed.

Lemma tail_of_None first last final :
  tail_of first last final = None <-> forall l, last = Some l -> (l < unsealed first final)%Z.
Proof.
  unfold tail_of. fold (unsealed first final). destruct last as [l|]; cbn [mbind option_bind]; [|naive_solver].
  destruct (Z.leb_spec (unsealed first final) l); (split; [|intros Hl; specialize (Hl _ eq_refl)]); try done; try lia.
  by intros _ ? [= <-].
Qed.

Lemma manifest_object keys m files : manifest_ok keys m files -> is_object m = true.
Proof. intros [Hk _ _ _ _]. unfold get_str, vget in Hk. unfold is_object. by destruct (as_object m). Qed.

Lemma verify_files_exactly files trust :
  exists r, verify_files files trust = Some r /\ (report_ok r = true /\ pack_ok r = true <-> pack_holds files trust).
Proof.
  unfold verify_files, pack_holds. set (named := by_name files).
  destruct (choose_keys named trust) as [trusted kf] eqn:Hck. pose proof (choose_keys_spec _ _ _ _ Hck) as Hk.
  set (keys := trusted_keys trusted).
  destruct (read_entries named) as [es err] eqn:Hre.
  pose proof (check_entries_ok es err trusted) as Hes. destruct (check_entries (es, err) trusted) as [summary error].
  pose proof (check_releases_ok named es) as Hrel. destruct (check_releases named es) as [listed rf]. cbn [snd] in *.
  destruct (json_file named "pack.json") as [m|e] eqn:Hm.
  - destruct (check_manifest_spec m named keys) as [Hmf Hok]; [apply BTree.wf_of_list|].
    destruct (check_manifest m named keys) as [mf ok]. cbn [fst snd] in *.
    lazymatch goal with |- context [walk_epochs ?a ?b ?c ?d ?t ?l ?w] => destruct (walk_epochs_spec a b c d t l w) as (w' & -> & Hw & Hfin) end.
    cbn [mbind option_bind]. eexists. split; [reflexivity|]. rewrite report_ok_true. cbn [failures gaps pack_ok entries_error require_anchors unanchored_tail].
    rewrite Hw, Hes, tail_of_None. cbn [w_failures w_gaps w_prev]. rewrite !app_nil. split.
    + intros [([((Hkf & _ & _ & Hc & Hr & Hl) & _) Hep] & (-> & Ht & Hrun) & Htail) Hmo%Hok].
      apply Hrel in Hr as (releases & Hj & Hr). apply check_counts_ok in Hc as (? & ? & ?); [|by eapply manifest_object].
      rewrite check_listed_epochs_ok in Hl. exists trusted, m, es, releases, (w_prev w'). split_and!; try done. by apply Hk.
    + intros (trusted' & m' & es' & releases & final & Hk' & [= <-] & Hmo & Hre' & Ht & Hrun & Hc1 & Hc2 & Hc3 & Hj & Hr & Hl & Hep & Htail).
      pose proof (choose_keys_only _ _ _ _ _ Hck Hk') as ->. apply Hk in Hk' as ->.
      pose proof (proj2 Hok Hmo) as ->. rewrite (Hmf eq_refl). pose proof (manifest_object _ _ _ Hmo) as Hobj.
      injection Hre' as -> ->. pose proof (Hfin _ Hep) as <-. split_and!; try done.
      * by apply check_counts_ok.
      * apply Hrel. by exists releases.
      * by apply check_listed_epochs_ok.
  - destruct (check_manifest VNull named keys) as [mf ok].
    lazymatch goal with |- context [walk_epochs ?a ?b ?c ?d ?t ?l ?w] => destruct (walk_epochs_spec a b c d t l w) as (w' & -> & Hw & _) end.
    cbn [mbind option_bind]. eexists. split; [reflexivity|]. rewrite report_ok_true. cbn [failures gaps].
    rewrite Hw. cbn [w_failures]. rewrite !app_nil. split; [by intros [([((_ & ? & _) & _) _] & _) _]|].
    by intros (? & ? & ? & ? & ? & _ & ? & _).
Qed.
End Exact.

(** C11: [verify_pack] always answers, in a release build, and its report is
    free of failures and gaps with a signed manifest exactly when the tar
    holds a pack: its keys are the pinned ones or its own, the manifest lists
    every other file with its digest under a trusted signature, the entries
    are a chain signed by trusted keys with the counts and releases the
    manifests name, and the epochs follow one another, cover entries of the
    pack without gap or overlap and are each anchored no earlier than
    anything they cover. *)
Theorem verify_pack_exactly {ST : SerdeText} {HC : HashCrates} {JC : JsonCrates} {SC : SignatureCrates} {VC : VerifierCrate}
  {S5 : Sha512Crate} {PC : P256Crate} {DC : DerCrates} {TV : TsaVerifier} (tar : bytes) (trust : PackTrust) :
  exists r, verify_pack tar trust = Some r /\
    (report_ok r = true /\ pack_ok r = true <->
     exists files, Ustar.read tar = Some (Ok files) /\ pack_holds files trust).
Proof.
  unfold verify_pack, Ustar.read. destruct (read_from_ends (S (length tar)) tar 0 []) as [r ->]; [lia..|]. cbn [mbind option_bind]. destruct r as [files|e].
  - destruct (verify_files_exactly files trust) as (r & -> & Hr). exists r. split; [done|]. rewrite Hr. naive_solver.
  - eexists. split; [reflexivity|]. rewrite report_ok_true. cbn. naive_solver.
Qed.
