(* ===== verification/AuditPack.v ===== *)
(** * Exporting the decision ledger ([cloakpipe-ledger/src/audit_pack.rs])

    The pack an auditor gets: the entries of a time range widened to whole
    epochs, the gate key, the digests they name and the epochs with their
    anchors, listed and signed in [pack.json] and written as one tar.  The
    last theorem joins the two ends: what the gate exports, the offline
    verifier accepts. *)

From stdpp Require Import list_numbers pretty.
From S2P Require Import Prelude BTree Json Text Utf8 Crates Concrete Action Ledger.
From S2P Require Import CanonicalJson Stream Decisions VerifyCrates Calendar OfflineDecisions Ustar Rekor GatePack.

(** Pretty text and the lines of entries are JSON that reads back; an entry
    is one line of text, an object without control characters. *)
Class PrettyLaws `{JsonCrates} `{PrettyCrate} `{StoreText} := {
  pretty_reads :: PrettyReads;
  line_reads_back e : in_u64 (seq e) = true -> json_from_slice (as_bytes (entry_to_json e)) = Some (entry_value e);
  line_shape e : exists s, entry_to_json e = "{" +:+ s +:+ "}" /\ Forall (fun c => (32 <= byte_val c)%Z) (as_bytes s);
  line_text e : valid_utf8 (as_bytes (entry_to_json e)) = true;
}.

(** [chrono]: whole seconds in the four-digit years, printed and parsed. *)
Definition NANOS : Z := 1000000000.
Definition in_calendar (t : Z) : Prop := (RFC3339_FIRST <= t / NANOS <= RFC3339_LAST)%Z.
Class ClockLaws `{ClockCrate} `{TimeCrate} := {
  to_secs_format t : in_calendar t -> to_rfc3339_secs t = rfc3339_from_unix (t / NANOS);
  to_secs_parse t : in_calendar t -> parse_from_rfc3339 (to_rfc3339_secs t) = Some (t / NANOS * NANOS)%Z;
}.

Inductive ExportError := ExportStore (e : StoreError) | Empty | BadTime (seq : Z).

(** Inclusive, on entry times. *)
Record PackRange := mkPackRange { since : option Z; until : option Z }.

Record Pack := mkPack {
  tar : bytes;
  entries : nat;
  pack_first_seq : option Z;
  pack_last_seq : option Z;
  pack_epochs : list Z;
}.

Definition epoch_file (n : Z) : string := "anchors/epoch-" +:+ fmt_zero 8 n +:+ ".json".

(** The wire shape of a receipt. *)
Definition receipt_value (r : ExternalReceipt) : value :=
  VObject (BTree.of_list
    match r with
    | Rfc3161 batch_id subject_hash tsa_url nonce tsr =>
        [("kind", VString "rfc3161"); ("batch_id", VString batch_id); ("subject_hash", VString subject_hash);
         ("tsa_url", VString tsa_url); ("nonce", VString nonce); ("tsr", VString tsr)]
    | Decisions.Rekor batch_id subject_hash rekor_url entry_uuid entry =>
        [("kind", VString "rekor"); ("batch_id", VString batch_id); ("subject_hash", VString subject_hash);
         ("rekor_url", VString rekor_url); ("entry_uuid", VString entry_uuid); ("entry", entry)]
    end).

Definition json_object (l : list (string * value)) : value := VObject (BTree.of_list l).
Definition json_u64 (n : Z) : value := VNumber (PosInt n).
Definition json_opt {A} (f : A -> value) (o : option A) : value := match o with Some a => f a | None => VNull end.
Definition json_strings (l : list string) : value := VArray (map VString l).

Section Exporting.
Context {ST : SerdeText} {TX : StoreText} {CK : ClockCrate} {TC : TimeCrate} {SC : SignatureCrates} {HC : HashCrates}
        {PP : PrettyCrate}.

Definition pretty_file (v : value) : bytes := to_vec_pretty v ++ as_bytes NL.

Definition pack_hash (manifest : value) : bytes := Decisions.domain_hash PACK_HASH_DOMAIN (covered "pack_hash" manifest).

(** The numbers of the entries in a time range. *)
Definition in_time (range : PackRange) (t : Z) : bool :=
  negb (is_some_and (since range) (fun s => t <? s)%Z) && negb (is_some_and (until range) (fun u => u <? t)%Z).
Fixpoint select (range : PackRange) (es : list DecisionEntry) : result ExportError (list Z) :=
  match es with
  | [] => Ok []
  | e :: es =>
      let! t := parse_from_rfc3339 (ts e) else Err (BadTime (seq e)) in
      let? selected := select range es in
      Ok (if in_time range t then seq e :: selected else selected)
  end.

Definition overlaps (lo hi : Z) (ep : StoredEpoch) : bool :=
  (first_seq (stored_head ep) <=? hi)%Z && (lo <=? last_seq (stored_head ep))%Z.

(** Widen to whole epochs. *)
Definition widen (b : Z * Z) (ep : StoredEpoch) : Z * Z :=
  if overlaps b.1 b.2 ep then (Z.min b.1 (first_seq (stored_head ep)), Z.max b.2 (last_seq (stored_head ep))) else b.

Definition bounds_of (range : PackRange) (selected : list Z) (eps : list StoredEpoch) : result ExportError (option (Z * Z)) :=
  match head selected, last selected with
  | Some lo, Some hi => Ok (Some (foldl widen (lo, hi) eps))
  | _, _ => if is_some (since range) || is_some (until range) then Err Empty else Ok None
  end.

Definition between (b : option (Z * Z)) (e : DecisionEntry) : bool :=
  match b with Some (lo, hi) => (lo <=? seq e)%Z && (seq e <=? hi)%Z | None => false end.
Definition included (b : option (Z * Z)) (ep : StoredEpoch) : bool :=
  match b with Some (lo, hi) => overlaps lo hi ep | None => false end.

Definition digests (f : DecisionEntry -> option string) (es : list DecisionEntry) : value :=
  json_strings (string_set (omap f es)).

Definition entries_text (es : list DecisionEntry) : bytes := es ≫= fun e => as_bytes (entry_to_json e) ++ as_bytes NL.
Definition gate_value (key : SigningKey) : value :=
  json_object [("keyid", VString (GateKey.keyid key)); ("publicKey", VString (GateKey.public_hex key))].
Definition manifests_value (es : list DecisionEntry) : value :=
  json_object [("releases", digests release es); ("policy_versions", digests policy_version es);
               ("policy_digests", digests policy_digest es)].
Definition epoch_value (ep : StoredEpoch) : value :=
  json_object [("epoch", head_value (stored_head ep)); ("anchors", VArray (map receipt_value (anchors ep)))].

(** Every file but [pack.json]. *)
Definition pack_files (key : SigningKey) (es : list DecisionEntry) (eps : list StoredEpoch) : list (string * bytes) :=
  [("entries.jsonl", entries_text es); ("gate.pub.json", pretty_file (gate_value key));
   ("manifests.json", pretty_file (manifests_value es))]
  ++ map (fun ep => (epoch_file (epoch (stored_head ep)), pretty_file (epoch_value ep))) eps.

Definition unsigned_manifest (key : SigningKey) (range : PackRange) (now : Z) (es : list DecisionEntry) (eps : list StoredEpoch) : value :=
  json_object
    [("kind", VString PACK_KIND); ("created_at", VString (to_rfc3339_secs now));
     ("range", json_object
       [("since", json_opt (VString ∘ to_rfc3339_secs) (since range)); ("until", json_opt (VString ∘ to_rfc3339_secs) (until range));
        ("first_seq", json_opt json_u64 (seq <$> head es)); ("last_seq", json_opt json_u64 (seq <$> last es))]);
     ("entries", json_u64 (Z.of_nat (length es)));
     ("epochs", VArray (map (fun ep => json_u64 (epoch (stored_head ep))) eps));
     ("files", json_object (map (fun f => (f.1, VString (sha256_ref f.2))) (pack_files key es eps)));
     ("signer", VString (GateKey.keyid key))].

Definition with_member (k : string) (x : value) (v : value) : value :=
  match v with VObject o => VObject (BTree.insert k x o) | other => other end.
Definition sign_manifest (key : SigningKey) (m : value) : value :=
  let h := pack_hash m in
  with_member "sig" (VString (hex_encode (GateKey.sign key h))) (with_member "pack_hash" (VString (hex_encode h)) m).

(** The files of the pack of some entries and epochs. *)
Definition signed_files (key : SigningKey) (range : PackRange) (now : Z) (es : list DecisionEntry) (eps : list StoredEpoch) :
    list (string * bytes) :=
  ("pack.json", pretty_file (sign_manifest key (unsigned_manifest key range now es eps))) :: pack_files key es eps.

Definition lift_store {A} (r : result StoreError A) : result ExportError A :=
  match r with Ok a => Ok a | Err e => Err (ExportStore e) end.

(** What is exported: the entries and the epochs. *)
Definition chosen (st : LedgerStore) (range : PackRange) : result ExportError (list DecisionEntry * list StoredEpoch) :=
  let? all := lift_store (decisions st) in
  let? eps := lift_store (epochs st) in
  let? selected := select range all in
  let? b := bounds_of range selected eps in
  Ok (filter (fun e => between b e = true) all, filter (fun ep => included b ep = true) eps).

Definition export_pack (st : LedgerStore) (key : SigningKey) (range : PackRange) (now : Z) : option (result ExportError Pack) :=
  match chosen st range with
  | Err e => Some (Err e)
  | Ok (es, eps) =>
      tar ← Ustar.write (signed_files key range now es eps) (Z.max 0 (now / NANOS));
      Some (Ok (mkPack tar (length es) (seq <$> head es) (seq <$> last es) (map (fun ep => epoch (stored_head ep)) eps)))
  end.
End Exporting.

(** ** Lists in order *)

(** The elements of an ordered list that satisfy a convex predicate are
    together. *)
Lemma filter_convex {A} (R : A -> A -> Prop) (P : A -> Prop) `{!forall x, base.Decision (P x)} (l : list A) :
  StronglySorted R l -> (forall a b c, R a b -> R b c -> P a -> P c -> P b) ->
  exists pre post, l = pre ++ filter P l ++ post /\ Forall (fun x => ~ P x) pre /\ Forall (fun x => ~ P x) post.
Proof.
  intros Hs Hconv. induction Hs as [|x l Hs IH Hx]; [by exists [], []|].
  destruct IH as (pre & post & Hl & Hpre & Hpost). rewrite filter_cons. case_decide as Hpx.
  - destruct (filter P l) as [|y f] eqn:Hf.
    + exists [], l. split_and!; [done|constructor|]. apply Forall_forall. intros z Hz Hpz.
      assert (Hin : z ∈ filter P l) by by apply list_elem_of_filter. rewrite Hf in Hin. by apply elem_of_nil in Hin.
    + destruct pre as [|z pre].
      * exists [], post. split_and!; [by rewrite Hl at 1|constructor|done].
      * apply Forall_cons in Hpre as [Hz _]. destruct Hz. rewrite Hl in Hs, Hx. apply (Hconv x z y); [| |done|].
        -- cbn in Hx. by apply Forall_cons in Hx as [Hx _].
        -- cbn in Hs. apply StronglySorted_inv in Hs as [_ Hz]. rewrite Forall_forall in Hz. apply Hz. set_solver.
        -- assert (Hy : y ∈ filter P l) by (rewrite Hf; left). by apply list_elem_of_filter in Hy as [? _].
  - exists (x :: pre), post. split_and!; [cbn; by rewrite Hl at 1|by constructor|done].
Qed.

Lemma sort_by_key_strict {A} (k : A -> Z) (l l' : list A) : l' ≡ₚ l -> StronglySorted (fun x y => (k x < k y)%Z) l ->
  sort_by_key k l' = l.
Proof.
  intros Hp Hl. pose proof (sort_by_key_sorted k l') as Hs.
  assert (Hp' : sort_by_key k l' ≡ₚ l) by by rewrite sort_by_key_perm. revert Hs Hp'. generalize (sort_by_key k l').
  clear l' Hp. induction Hl as [|x l Hl IH Hx]; intros s Hs Hp; [by apply Permutation_nil_r in Hp|].
  destruct s as [|y s]; [by apply Permutation_nil_cons in Hp|]. apply StronglySorted_inv in Hs as [Hs Hy].
  assert (y = x) as ->.
  { assert (Hyin : y ∈ x :: l) by (rewrite <- Hp; left). assert (Hxin : x ∈ y :: s) by (rewrite Hp; left).
    apply elem_of_cons in Hyin as [->|Hyl]; [done|]. apply elem_of_cons in Hxin as [->|Hxs]; [done|].
    rewrite Forall_forall in Hx, Hy. specialize (Hx _ Hyl). specialize (Hy _ Hxs). unfold by_key in Hy. lia. }
  f_equal. apply IH; [done|]. by apply Permutation_cons_inv in Hp.
Qed.

(** A strictly increasing list of keys is already a set. *)
Lemma string_set_again l : string_set (string_set l) = string_set l.
Proof.
  unfold string_set. set (m := BTree.of_list (map (fun s => (s, tt)) l)).
  assert (Hm : map (fun s => (s, tt)) (BTree.keys m) = m).
  { unfold BTree.keys. clear. induction m as [|[k []] m IH]; [done|]. cbn. by rewrite IH. }
  rewrite Hm. unfold m. by rewrite of_list_wf by apply BTree.wf_of_list.
Qed.

Lemma omap_strings l : omap as_str (map VString l) = l.
Proof. induction l as [|s l IH]; [done|]. cbn. by rewrite IH. Qed.

(** ** Lines of text *)

Lemma split_on_line a rest : LF_char ∉ as_bytes a -> split_on LF_char (from_bytes (as_bytes a ++ LF_char :: rest)) = a :: split_on LF_char (from_bytes rest).
Proof. intros Ha. rewrite from_bytes_app, from_as_bytes. by apply split_on_app. Qed.

Definition one_line (s : string) : Prop := LF_char ∉ as_bytes s /\ strip_cr s = s.

Lemma lines_of ls : Forall one_line ls -> lines (from_bytes (ls ≫= fun s => as_bytes s ++ [LF_char])) = ls.
Proof.
  intros Hls.
  assert (Hs : split_on LF_char (from_bytes (ls ≫= fun s => as_bytes s ++ [LF_char])) = ls ++ [""]).
  { induction Hls as [|s ls [Hs _] _ IH]; [done|]. rewrite bind_cons, <- app_assoc. cbn [app]. by rewrite split_on_line, IH. }
  unfold lines. rewrite Hs, reverse_snoc. cbn. rewrite reverse_involutive, app_nil_r.
  clear Hs. induction Hls as [|s ls [_ Hcr] _ IH]; [done|]. cbn. by rewrite Hcr, IH.
Qed.

Lemma strip_suffix_char_last c s d : d <> c -> strip_suffix_char c (s +:+ String d "") = None.
Proof.
  intros Hne. induction s as [|a s IH].
  - change ("" +:+ String d "") with (String d ""). cbn. by rewrite decide_False.
  - change (String a s +:+ ?x) with (String a (s +:+ x)). cbn. rewrite IH.
    destruct (s +:+ String d "") eqn:Hs; [|done]. by destruct s.
Qed.

(** ** Files *)

Section Files.
Context {ST : SerdeText} {TX : StoreText} {JC : JsonCrates} {PP : PrettyCrate} {PL : PrettyLaws}.

Lemma entry_one_line e : one_line (entry_to_json e) /\ is_blank (entry_to_json e) = false.
Proof.
  destruct (line_shape e) as (s & -> & Hs). split; [split|].
  - intros Hin. rewrite !as_bytes_app in Hin. apply elem_of_app in Hin as [Hin|Hin]; [apply list_elem_of_singleton in Hin; done|].
    apply elem_of_app in Hin as [Hin|Hin]; [|apply list_elem_of_singleton in Hin; done].
    rewrite Forall_forall in Hs. specialize (Hs _ Hin). done.
  - unfold strip_cr. change ("{" +:+ s +:+ "}") with (("{" +:+ s) +:+ "}"). by rewrite strip_suffix_char_last.
  - done.
Qed.

Lemma parse_entry_lines i es : Forall (fun e => in_u64 (seq e) = true) es ->
  parse_lines i (map entry_to_json es) = Ok (map entry_value es).
Proof.
  intros Hes. revert i. induction Hes as [|e es He _ IH]; intros i; [done|]. cbn [map parse_lines].
  by rewrite (proj2 (entry_one_line e)), line_reads_back, IH by done.
Qed.

Lemma entries_text_parses es : Forall (fun e => in_u64 (seq e) = true) es ->
  valid_utf8 (entries_text es) = true /\ parse_jsonl (from_bytes (entries_text es)) = Ok (map entry_value es).
Proof.
  intros Hes. split.
  - clear Hes. unfold entries_text. induction es as [|e es IH]; [done|]. rewrite bind_cons.
    apply valid_utf8_app; [|done]. apply valid_utf8_app; [apply line_text|done].
  - unfold parse_jsonl, entries_text. rewrite <- (parse_entry_lines 0 es Hes). f_equal.
    rewrite <- (lines_of (map entry_to_json es)).
    + f_equal. f_equal. clear. induction es as [|e es IH]; [done|]. cbn [map]. by rewrite !bind_cons, IH.
    + apply Forall_fmap, Forall_true. intros e. apply entry_one_line.
Qed.

Lemma by_name_get files nm d : NoDup (map fst files) -> (nm, d) ∈ files ->
  BTree.get nm (by_name (map (fun f => mkTarFile f.1 f.2) files)) = Some d.
Proof.
  intros Hnd Hin. unfold by_name. apply get_of_list_elem.
  - rewrite map_map. apply list_elem_of_fmap. by exists (nm, d).
  - intros d' Hin'. rewrite map_map in Hin'. apply list_elem_of_fmap in Hin' as ([nm' d''] & [= <- <-] & Hin').
    apply list_elem_of_lookup in Hin as [i Hi], Hin' as [j Hj].
    assert (i = j) as <-. { eapply NoDup_lookup; [done| |]; rewrite list_lookup_fmap; by rewrite ?Hi, ?Hj. }
    congruence.
Qed.

Lemma by_name_elem files nm d : BTree.get nm (by_name (map (fun f => mkTarFile f.1 f.2) files)) = Some d -> (nm, d) ∈ files.
Proof.
  intros Hg. apply get_of_list_Some in Hg. rewrite map_map in Hg. apply list_elem_of_fmap in Hg as ([nm' d'] & [= -> ->] & Hin). done.
Qed.

Lemma pretty_json files nm v : NoDup (map fst files) -> (nm, pretty_file v) ∈ files -> value_wf v = true -> float_free v = true ->
  json_file (by_name (map (fun f => mkTarFile f.1 f.2) files)) nm = Ok v.
Proof.
  intros Hnd Hin Hw Hf. unfold json_file. rewrite (by_name_get files nm (pretty_file v)) by done. cbn.
  unfold pretty_file. by rewrite pretty_reads_back.
Qed.
End Files.

(** ** JSON the export writes *)

Lemma json_object_plain l : Forall (fun kv => plain kv.2) l -> plain (json_object l).
Proof.
  intros Hl. unfold plain, json_object. cbn [value_wf float_free]. rewrite andb_true_iff, bool_decide_eq_true, !forallb_Forall.
  assert (Hin : Forall (fun kv => plain kv.2) (BTree.of_list l)).
  { apply Forall_forall. intros x Hx%elem_of_of_list. rewrite Forall_forall in Hl. by apply Hl. }
  split; [split; [apply BTree.wf_of_list|]|]; (eapply Forall_impl; [exact Hin|]); by intros x [].
Qed.

Lemma get_json_object l k x : NoDup (map fst l) -> (k, x) ∈ l -> vget k (json_object l) = Some x.
Proof.
  intros Hnd Hin. unfold vget, json_object. cbn. apply get_of_list_elem; [done|]. intros y Hy.
  apply list_elem_of_lookup in Hin as [i Hi], Hy as [j Hj].
  assert (i = j) as <-. { eapply NoDup_lookup; [done| |]; rewrite list_lookup_fmap; by rewrite ?Hi, ?Hj. }
  congruence.
Qed.

Lemma json_strings_plain l : plain (json_strings l).
Proof. apply plain_array, Forall_fmap, Forall_true. done. Qed.

Lemma json_u64_plain n : in_u64 n = true -> plain (json_u64 n).
Proof. done. Qed.

Lemma head_value_plain h : in_u64 (epoch h) = true -> in_u64 (first_seq h) = true -> in_u64 (last_seq h) = true -> plain (head_value h).
Proof. intros ???. apply json_object_plain. repeat constructor; done. Qed.

(** A receipt of plain JSON. *)
Definition receipt_plain (r : ExternalReceipt) : Prop :=
  match r with Decisions.Rekor _ _ _ _ entry => plain entry | _ => True end.

Lemma receipt_value_plain r : receipt_plain r -> plain (receipt_value r).
Proof. destruct r; intros Hr; apply json_object_plain; rewrite ?Forall_cons; split_and!; done || by apply Forall_nil. Qed.

Lemma domain_hash_same `{SerdeText, HashCrates} dom k v : plain v ->
  domain_hash dom v [k; "sig"] = Decisions.domain_hash dom (covered k v).
Proof.
  intros Hv. unfold domain_hash, Decisions.domain_hash, Decisions.domain_text. f_equal. f_equal. rewrite <- canonical_same by by apply covered_is_plain.
  by destruct v.
Qed.

(** ** Ledgers of a gate *)

Section Ledgers.
Context {ST : SerdeText} {TX : StoreText} {TL : StoreTextLaws} {CK : ClockCrate} {SC : SignatureCrates} {HC : HashCrates} {HL : HashLaws}.

(** Made by the gate with its key and a clock in the calendar. *)
Definition made_by (key : SigningKey) (e : DecisionEntry) : Prop :=
  signed_with key e /\ exists t, in_calendar t /\ ts e = to_rfc3339_secs t.
Definition sealed_by (key : SigningKey) (h : EpochHead) : Prop :=
  h_kind h = Decisions.EPOCH_KIND /\ h_signer h = GateKey.keyid key /\
  h_sig h = hex_lower (GateKey.sign key (epoch_hash_of (head_value h))) /\
  exists t, in_calendar t /\ sealed_at h = to_rfc3339_secs t.

Record kept_by (key : SigningKey) (st : LedgerStore) (es : list DecisionEntry) (hs : list EpochHead) : Prop := {
  kept_ok : ledger_ok st es hs;
  kept_entries : Forall (made_by key) es;
  kept_heads : Forall (sealed_by key) hs;
}.

Lemma sealed_order es n first prev hs : sealed es n first prev hs -> (0 <= first)%Z ->
  StronglySorted (fun h h' => (epoch h < epoch h')%Z /\ (last_seq h < first_seq h')%Z) hs.
Proof.
  revert n first prev. induction hs as [|h hs IH]; intros n first prev; [constructor|].
  intros (He & Hf & Hl & _ & _ & _ & _ & Hs) H0. constructor; [eapply IH; [done|lia]|].
  apply sealed_bounds in Hs as [_ Hs]; [|lia]. eapply Forall_impl; [exact Hs|]. simpl. lia.
Qed.

Lemma head_numbers st es hs : ledger_ok st es hs ->
  Forall (fun h => in_u64 (epoch h) && in_u64 (first_seq h) && in_u64 (last_seq h) = true) hs.
Proof.
  intros [_ _ Hb _ Hs]. apply sealed_bounds in Hs as [Hu Hs]; [|lia]. eapply Forall_impl; [exact Hs|]. simpl. intros h Hh.
  unfold in_u64, U64_MAX, I64_MAX in *. lia.
Qed.

Lemma read_epochs st es hs : ledger_ok st es hs -> exists eps, epochs st = Ok eps /\ map stored_head eps = hs.
Proof.
  intros Hok. pose proof (head_numbers _ _ _ Hok) as Hn. destruct Hok as [_ _ _ Hrows Hs]. apply sealed_order in Hs; [|lia].
  unfold epochs. rewrite order_by_sorted.
  - clear Hs. induction Hrows as [|row h rows hs Hrow _ IH]; [by exists []|]. apply Forall_cons in Hn as [Hh Hn].
    destruct (IH Hn) as (eps & He & Hm). destruct Hrow as (_ & _ & _ & Hj & anchors & Ha).
    exists (mkStoredEpoch h anchors (last_error row) :: eps). cbn [try_map]. rewrite Hj, head_json_round_trip, Ha by done. cbn.
    rewrite He. split; [done|]. by rewrite <- Hm.
  - clear Hn. revert Hs. induction Hrows as [|row h rows hs Hrow Hrows IH]; intros Hs; [constructor|].
    apply StronglySorted_inv in Hs as [Hs Hh]. constructor; [by apply IH|]. apply Forall_lookup. intros i r Hi.
    destruct (Forall2_lookup_l _ _ _ _ _ Hrows Hi) as (h' & Hh' & Hr & _). destruct Hrow as [-> _]. rewrite Hr.
    rewrite Forall_lookup in Hh. specialize (Hh _ _ Hh'). lia.
Qed.

Lemma sealed_split es n first prev hs hs' : sealed es n first prev (hs ++ hs') ->
  sealed es (n + Z.of_nat (length hs)) (sealed_up_to first hs) (default prev (Decisions.epoch_hash <$> last hs)) hs'.
Proof.
  revert n first prev. induction hs as [|h hs IH]; intros n first prev.
  - cbn. by rewrite Z.add_0_r.
  - cbn [app sealed length sealed_up_to]. intros (_ & _ & _ & _ & _ & _ & _ & Hs). apply IH in Hs.
    rewrite last_cons_default. by replace (n + Z.of_nat (S (length hs)))%Z with (n + 1 + Z.of_nat (length hs))%Z by lia.
Qed.

(** The entry of a number. *)
Lemma by_seq_chained n prev es q : chained n prev es ->
  by_seq (map entry_value es) !! q =
  if decide (n <= q)%Z then entry_value <$> es !! Z.to_nat (q - n) else None.
Proof.
  revert n prev. induction es as [|e es IH] using rev_ind; intros n prev Hc; [by case_decide|].
  apply chained_app in Hc as [Hc (Hs & _)]. unfold by_seq in *. rewrite map_app, foldl_app. cbn [map foldl].
  rewrite (proj1 (proj2 (proj1 (entry_fields e)))), Hs. destruct (decide (q = n + Z.of_nat (length es))%Z) as [->|Hq].
  - rewrite lookup_insert_eq, decide_True by lia. rewrite lookup_app_r by lia.
    by replace (Z.to_nat _ - _) with 0 by lia.
  - rewrite lookup_insert_ne by done. rewrite (IH n prev Hc). case_decide; [|done].
    destruct (decide (Z.to_nat (q - n) < length es)) as [Hlt|Hge]; [by rewrite lookup_app_l|].
    rewrite (lookup_ge_None_2 es) by lia. rewrite lookup_app_r, lookup_ge_None_2 by (simpl; lia). done.
Qed.
End Ledgers.

(** ** What is chosen *)

Definition ep_first (ep : StoredEpoch) : Z := first_seq (stored_head ep).
Definition ep_last (ep : StoredEpoch) : Z := last_seq (stored_head ep).

Definition disjoint_epochs (eps : list StoredEpoch) : Prop :=
  forall a b, a ∈ eps -> b ∈ eps -> a = b \/ (ep_last a < ep_first b)%Z \/ (ep_last b < ep_first a)%Z.

(** No epoch is cut by the bounds. *)
Definition whole (b : Z * Z) (eps : list StoredEpoch) : Prop :=
  forall ep, ep ∈ eps -> overlaps b.1 b.2 ep = true -> (b.1 <= ep_first ep /\ ep_last ep <= b.2)%Z.

Lemma overlaps_true lo hi ep : overlaps lo hi ep = true <-> (ep_first ep <= hi /\ lo <= ep_last ep)%Z.
Proof. unfold overlaps. by rewrite andb_true_iff, !Z.leb_le. Qed.

Lemma widen_whole before eps b : disjoint_epochs (before ++ eps) -> Forall (fun ep => (ep_first ep <= ep_last ep)%Z) (before ++ eps) ->
  (b.1 <= b.2)%Z -> whole b before ->
  let b' := foldl widen b eps in (b'.1 <= b.1 /\ b.2 <= b'.2)%Z /\ whole b' (before ++ eps).
Proof.
  revert before b. induction eps as [|ep eps IH]; intros before b Hd Hne Hb Hw; [rewrite app_nil_r; cbn; split; [lia|done]|].
  cbn [foldl]. assert (Hs : before ++ ep :: eps = (before ++ [ep]) ++ eps) by by rewrite <- app_assoc. rewrite Hs in *.
  assert (Hep : (ep_first ep <= ep_last ep)%Z).
  { rewrite Forall_forall in Hne. apply Hne. set_solver. }
  assert (Hwb : (let w := widen b ep in w.1 <= b.1 /\ b.2 <= w.2)%Z /\ whole (widen b ep) (before ++ [ep])).
  { unfold widen. destruct (overlaps b.1 b.2 ep) eqn:Ho.
    - apply overlaps_true in Ho. unfold ep_first, ep_last in *. cbn [fst snd]. split; [lia|].
      intros x Hx Hox%overlaps_true. unfold ep_first, ep_last in *. cbn [fst snd] in *.
      assert (Hxi : x ∈ (before ++ [ep]) ++ eps) by set_solver.
      destruct (Hd x ep) as [->|Hdis]; [done|set_solver|lia|]. unfold ep_first, ep_last in Hdis.
      apply elem_of_app in Hx as [Hx|Hx]; [|apply list_elem_of_singleton in Hx as ->; lia].
      pose proof (proj1 (Forall_forall _ _) Hne x Hxi) as Hxne. cbn in Hxne. unfold ep_first, ep_last in Hxne.
      destruct (Hw x Hx) as [H1 H2]; [apply overlaps_true; unfold ep_first, ep_last; lia|]. unfold ep_first, ep_last in H1, H2. lia.
    - split; [lia|]. intros x Hx Hox. apply elem_of_app in Hx as [Hx|Hx]; [by apply Hw|].
      apply list_elem_of_singleton in Hx as ->. congruence. }
  destruct Hwb as [Hg Hwb]. cbv zeta in *. destruct (IH (before ++ [ep]) (widen b ep)) as [Hg' Hw']; [done|done|lia|done|]. split; [lia|done].
Qed.

(** What the widened bounds meet, the bounds met. *)
Lemma overlap_before b0 eps b ep : disjoint_epochs eps -> Forall (fun ep => (ep_first ep <= ep_last ep)%Z) eps -> ep ∈ eps ->
  (b0.1 <= b0.2)%Z -> (b.1 <= b0.1 /\ b0.2 <= b.2)%Z ->
  (b.1 = b0.1 \/ exists ep, ep ∈ eps /\ overlaps b0.1 b0.2 ep = true /\ b.1 = ep_first ep) ->
  (b.2 = b0.2 \/ exists ep, ep ∈ eps /\ overlaps b0.1 b0.2 ep = true /\ b.2 = ep_last ep) ->
  overlaps b.1 b.2 ep = true -> overlaps b0.1 b0.2 ep = true.
Proof.
  intros Hd Hne Hep Hb0 Hle H1 H2 Ho%overlaps_true. rewrite Forall_forall in Hne. apply overlaps_true.
  assert (Hx : forall x, x ∈ eps -> overlaps b0.1 b0.2 x = true -> (ep_first x <= ep_last ep)%Z -> (ep_first ep <= ep_last x)%Z ->
    (ep_first ep <= b0.2)%Z /\ (b0.1 <= ep_last ep)%Z).
  { intros x Hin Hox%overlaps_true Ha Hb. destruct (Hd x ep) as [<-|Hdis]; [done..|done|lia]. }
  pose proof (Hne _ Hep) as Hn. cbn in Hn.
  destruct (decide (b0.1 <= ep_last ep)%Z) as [Hlo|Hlo].
  - destruct (decide (ep_first ep <= b0.2)%Z) as [Hhi|Hhi]; [done|]. destruct H2 as [H2|(x & Hin & Hox & H2)]; [lia|].
    apply (Hx x Hin Hox); [apply overlaps_true in Hox; lia|lia].
  - destruct H1 as [H1|(x & Hin & Hox & H1)]; [lia|]. apply (Hx x Hin Hox); [lia|apply overlaps_true in Hox; lia].
Qed.

(** Epochs in the order they were sealed. *)
Definition in_order (eps : list StoredEpoch) : Prop :=
  StronglySorted (fun a b => (epoch (stored_head a) < epoch (stored_head b))%Z /\ (ep_last a < ep_first b)%Z) eps.

Lemma ordered_heads eps :
  StronglySorted (fun h h' => (epoch h < epoch h')%Z /\ (last_seq h < first_seq h')%Z) (map stored_head eps) -> in_order eps.
Proof.
  induction eps as [|ep eps IH]; [by constructor|]. intros [Hs Hep]%StronglySorted_inv. constructor; [by apply IH|].
  by apply Forall_fmap in Hep.
Qed.

Lemma ordered_disjoint eps : in_order eps -> disjoint_epochs eps.
Proof.
  induction 1 as [|ep eps _ IH Hep]; [by intros ? ? ?%elem_of_nil|]. rewrite Forall_forall in Hep.
  intros a b [->|Ha]%elem_of_cons [->|Hb]%elem_of_cons; [by left|right; left; by apply Hep|right; right; by apply Hep|by apply IH].
Qed.

(** The widened bounds: those given, out to the ends of the epochs they cut. *)
Lemma widen_ends b0 eps before b : disjoint_epochs eps -> Forall (fun ep => (ep_first ep <= ep_last ep)%Z) eps -> before ⊆ eps ->
  (b0.1 <= b0.2)%Z ->
  (b.1 <= b0.1 /\ b0.2 <= b.2)%Z /\
  (b.1 = b0.1 \/ exists ep, ep ∈ eps /\ overlaps b0.1 b0.2 ep = true /\ b.1 = ep_first ep) /\
  (b.2 = b0.2 \/ exists ep, ep ∈ eps /\ overlaps b0.1 b0.2 ep = true /\ b.2 = ep_last ep) ->
  let b' := foldl widen b before in
  (b'.1 <= b0.1 /\ b0.2 <= b'.2)%Z /\
  (b'.1 = b0.1 \/ exists ep, ep ∈ eps /\ overlaps b0.1 b0.2 ep = true /\ b'.1 = ep_first ep) /\
  (b'.2 = b0.2 \/ exists ep, ep ∈ eps /\ overlaps b0.1 b0.2 ep = true /\ b'.2 = ep_last ep).
Proof.
  intros Hd Hne Hin Hb0. cbv zeta. revert b. induction before as [|ep before IH]; intros b Hb; [done|]. cbn [foldl].
  apply IH; [set_solver|]. clear IH. unfold widen. destruct (overlaps b.1 b.2 ep) eqn:Ho; [|done]. fold (ep_first ep) (ep_last ep). cbn [fst snd].
  assert (Hep : ep ∈ eps) by set_solver. destruct Hb as (Hle & H1 & H2).
  pose proof (overlap_before b0 eps b ep Hd Hne Hep Hb0 Hle H1 H2 Ho) as Hov. split; [lia|].
  split; [destruct (Z.min_spec b.1 (ep_first ep)) as [[_ ->]|[_ ->]]|destruct (Z.max_spec b.2 (ep_last ep)) as [[_ ->]|[_ ->]]]; try done;
    right; by exists ep.
Qed.

(** ** The entries and epochs asked for *)

(** An entry of the range: its time is no earlier and no later than asked. *)
Definition wanted `{TimeCrate} (range : PackRange) (e : DecisionEntry) : Prop :=
  exists t, parse_from_rfc3339 (ts e) = Some t /\
    (forall s, since range = Some s -> (s <= t)%Z) /\ (forall u, until range = Some u -> (t <= u)%Z).
(** The numbers from [lo] to [hi] meet those from the first wanted entry to
    the last. *)
Definition spans `{TimeCrate} (range : PackRange) (es : list DecisionEntry) (lo hi : Z) : Prop :=
  exists a b, a ∈ es /\ wanted range a /\ b ∈ es /\ wanted range b /\ (lo <= seq b)%Z /\ (seq a <= hi)%Z.
(** An entry between wanted ones, or in an epoch that holds such an entry. *)
Definition asked_epoch `{TimeCrate} (range : PackRange) (es : list DecisionEntry) (ep : StoredEpoch) : Prop :=
  spans range es (ep_first ep) (ep_last ep).
Definition asked_entry `{TimeCrate} (range : PackRange) (es : list DecisionEntry) (eps : list StoredEpoch) (e : DecisionEntry) : Prop :=
  spans range es (seq e) (seq e) \/ exists ep, ep ∈ eps /\ (ep_first ep <= seq e <= ep_last ep)%Z /\ asked_epoch range es ep.
Definition bounded (range : PackRange) : Prop := is_Some (since range) \/ is_Some (until range).

Section Chosen.
Context {ST : SerdeText} {TX : StoreText} {TL : StoreTextLaws} {CK : ClockCrate} {TC : TimeCrate} {KL : ClockLaws}
        {SC : SignatureCrates} {HC : HashCrates} {HL : HashLaws}.

Lemma in_time_wanted range e t : parse_from_rfc3339 (ts e) = Some t -> in_time range t = true <-> wanted range e.
Proof.
  intros Ht. unfold wanted, in_time. rewrite andb_true_iff, !negb_true_iff. split.
  - intros [H1 H2]. exists t. split; [done|]. split; [intros s Hs; rewrite Hs in H1|intros u Hu; rewrite Hu in H2]; cbn in *; lia.
  - intros (t' & Ht' & H1 & H2). rewrite Ht in Ht'. injection Ht' as <-.
    split; [destruct (since range) as [s|]; [specialize (H1 s eq_refl)|done]|destruct (until range) as [u|]; [specialize (H2 u eq_refl)|done]]; cbn; lia.
Qed.
Lemma made_unbounded key range e : made_by key e -> ~ bounded range -> wanted range e.
Proof.
  intros (_ & t & Ht & He) Hb. exists (t / NANOS * NANOS)%Z. split; [by rewrite He, to_secs_parse|]. unfold bounded in Hb.
  split; intros x Hx; destruct Hb; rewrite Hx; eauto.
Qed.

Lemma select_made key range es : Forall (made_by key) es -> exists sel, select range es = Ok sel /\
  (StronglySorted (fun x y => (seq x <= seq y)%Z) es -> StronglySorted Z.le sel) /\
  forall q, q ∈ sel <-> exists e, e ∈ es /\ wanted range e /\ seq e = q.
Proof.
  induction 1 as [|e es (_ & t & Ht & He) _ IH].
  { exists []. split_and!; [done|constructor|]. intros q. split; [by intros ?%elem_of_nil|by intros (? & ?%elem_of_nil & _)]. }
  cbn [select]. assert (Hp : parse_from_rfc3339 (ts e) = Some (t / NANOS * NANOS)%Z) by by rewrite He, to_secs_parse.
  rewrite Hp. destruct IH as (sel & -> & Hs & Hf). pose proof (in_time_wanted range e _ Hp) as Hw.
  destruct (in_time range _); eexists; (split; [reflexivity|]); split.
  - intros [Hes He']%StronglySorted_inv. constructor; [by apply Hs|]. apply Forall_forall. intros q (e' & Hin & _ & <-)%Hf.
    rewrite Forall_forall in He'. by apply He'.
  - intros q. rewrite elem_of_cons, Hf. split.
    + intros [->|(e' & ? & ?)]; [exists e; split; [left|split; [by apply Hw|done]]|exists e'; split; [by right|done]].
    + intros (e' & [->|Hin]%elem_of_cons & Hw' & <-); [by left|right; by exists e'].
  - by intros [Hes _]%StronglySorted_inv; apply Hs.
  - intros q. rewrite Hf. split; intros (e' & Hin & Hw' & <-); exists e'; split_and!; try done; [by right|].
    apply elem_of_cons in Hin as [->|Hin]; [|done]. by apply Hw in Hw'.
Qed.

(** The first and the last of sorted numbers. *)
Lemma sorted_ends sel lo hi : StronglySorted Z.le sel -> head sel = Some lo -> last sel = Some hi ->
  lo ∈ sel /\ hi ∈ sel /\ forall q, q ∈ sel -> (lo <= q <= hi)%Z.
Proof.
  intros Hs Hlo Hhi. split; [by apply head_Some_elem_of|]. split; [by apply last_Some_elem_of|]. intros q Hq.
  split.
  - destruct sel as [|x sel]; [done|]. injection Hlo as ->. apply StronglySorted_inv in Hs as [_ Hs]. rewrite Forall_forall in Hs.
    apply elem_of_cons in Hq as [->|Hq]; [lia|by apply Hs].
  - apply last_Some in Hhi as [l ->]. apply elem_of_app in Hq as [Hq|Hq]; [|apply list_elem_of_singleton in Hq as ->; lia].
    clear Hlo. induction l as [|x l IH]; [by apply elem_of_nil in Hq|]. cbn in Hs. apply StronglySorted_inv in Hs as [Hs Hx].
    apply elem_of_cons in Hq as [->|Hq]; [|by apply IH]. rewrite Forall_forall in Hx. apply Hx. set_solver.
Qed.

(** What is exported: everything between the first wanted entry and the last,
    out to whole epochs; nothing at all only if a bounded range holds no
    entry. *)
Lemma chosen_spec key st es hs range : kept_by key st es hs ->
  exists eps, epochs st = Ok eps /\ map stored_head eps = hs /\
    (chosen st range = Err Empty /\ bounded range /\ Forall (fun e => ~ wanted range e) es \/
     exists b, chosen st range = Ok (filter (fun e => between b e = true) es, filter (fun ep => included b ep = true) eps) /\
       (bounded range -> exists e, e ∈ es /\ wanted range e) /\
       (forall e, between b e = true <-> asked_entry range es eps e) /\
       (forall ep, ep ∈ eps -> included b ep = true <-> asked_epoch range es ep) /\
       match b with Some b => whole b eps | None => True end).
Proof.
  intros [Hok Hes _]. destruct (read_epochs _ _ _ Hok) as (eps & Heps & Hmap). exists eps. split_and!; [done..|].
  unfold chosen. rewrite (read_all _ _ _ Hok), Heps. cbn [lift_store].
  destruct (select_made key range es Hes) as (sel & -> & Hs & Hsel). pose proof Hok as [_ Hc _ _ Hsealed].
  specialize (Hs (chained_sorted _ _ _ Hc)). unfold bounds_of.
  destruct (head sel) as [lo|] eqn:Hlo.
  2:{ destruct sel as [|? ?]; [|done]. assert (Hnone : forall e, e ∈ es -> ~ wanted range e).
      { intros e Hin Hw. apply (not_elem_of_nil (seq e)), Hsel. by exists e. }
      assert (Hno : forall l h, ~ spans range es l h) by (intros l h (a & _ & Ha & Hwa & _); by eapply Hnone).
      destruct (decide (is_some (since range) || is_some (until range) = true)) as [Hb|Hb].
      - left. rewrite Hb. split; [done|]. split; [|by apply Forall_forall].
        apply orb_true_iff in Hb as [Hb|Hb]; [left; destruct (since range)|right; destruct (until range)]; try done; by eexists.
      - right. apply not_true_is_false in Hb. rewrite Hb. exists None. split; [done|]. apply orb_false_iff in Hb as [H1 H2].
        split; [intros [[x Hx]|[x Hx]]; rewrite Hx in *; discriminate|]. unfold asked_entry, asked_epoch. split; [|split; [|done]].
        + intros e. split; [done|]. intros [Hsp|(? & _ & _ & Hsp)]; by apply Hno in Hsp.
        + intros ep _. split; [done|]. by intros ?%Hno. }
  destruct (last sel) as [hi|] eqn:Hhi; [|apply last_None in Hhi; by subst sel]. right.
  destruct (sorted_ends _ _ _ Hs Hlo Hhi) as (Hinlo & Hinhi & Hends). set (b := foldl widen (lo, hi) eps).
  assert (Hspan : forall l h, spans range es l h <-> (l <= hi /\ lo <= h)%Z).
  { intros l h. split.
    - intros (x & y & Hx & Hwx & Hy & Hwy & ? & ?). pose proof (Hends (seq x)) as H1. pose proof (Hends (seq y)) as H2.
      rewrite Hsel in H1, H2. destruct H1; [by exists x|]. destruct H2; [by exists y|]. lia.
    - apply Hsel in Hinlo as (x & Hx & Hwx & <-). apply Hsel in Hinhi as (y & Hy & Hwy & <-). intros [? ?]. by exists x, y. }
  assert (Hd : disjoint_epochs eps) by (apply ordered_disjoint, ordered_heads; rewrite Hmap; eapply sealed_order; [done|lia]).
  assert (Hne : Forall (fun ep => (ep_first ep <= ep_last ep)%Z) eps).
  { apply sealed_bounds in Hsealed as [_ Hall]; [|lia]. rewrite <- Hmap in Hall. apply Forall_fmap in Hall.
    eapply Forall_impl; [exact Hall|]. unfold ep_first, ep_last. cbn. lia. }
  assert (Hle : (lo <= hi)%Z) by (apply Hends in Hinhi; lia).
  destruct (widen_ends (lo, hi) eps eps (lo, hi)) as (Hb & Hb1 & Hb2); [done..|cbn; auto with lia|]. fold b in Hb, Hb1, Hb2. cbn [fst snd] in *.
  pose proof (widen_whole [] eps (lo, hi) Hd Hne Hle ltac:(by intros ? ?%elem_of_nil)) as [_ Hwhole]. cbn [app] in Hwhole. fold b in Hwhole.
  exists (Some b). split; [reflexivity|]. split; [|split; [|split; [|done]]].
  - intros _. apply Hsel in Hinlo as (x & Hx & Hwx & _). by exists x.
  - intros e. unfold asked_entry, asked_epoch. destruct b as [blo bhi] eqn:Eb. cbn [between fst snd] in *.
    rewrite andb_true_iff, !Z.leb_le, Hspan. split.
    + intros [? ?]. destruct (decide (lo <= seq e)%Z); [destruct (decide (seq e <= hi)%Z); [left; lia|]|].
      * destruct Hb2 as [->|(ep & Hep & Ho & ->)]; [lia|]. apply overlaps_true in Ho. right. exists ep. split; [done|]. rewrite Hspan. lia.
      * destruct Hb1 as [->|(ep & Hep & Ho & ->)]; [lia|]. apply overlaps_true in Ho. right. exists ep. split; [done|]. rewrite Hspan. lia.
    + intros [?|(ep & Hep & He & Ho%Hspan)]; [lia|]. destruct (Hwhole ep Hep); [apply overlaps_true; cbn; lia|]. cbn in *. lia.
  - intros ep Hep. unfold asked_epoch. rewrite Hspan. destruct b as [blo bhi] eqn:Eb. cbn [included]. split.
    + intros Ho. apply (overlap_before (lo, hi) eps (blo, bhi) ep) in Ho; [|done..]. by apply overlaps_true in Ho.
    + intros ?. apply overlaps_true. cbn in *. lia.
Qed.
End Chosen.

(** ** Names of epoch files *)

Lemma str_lacks_contains c s : lacks c s -> str_contains (String c "") s = false.
Proof.
  induction s as [|a s IH]; [done|]. intros [Ha Hs]%lacks_cons. cbn [str_contains]. rewrite IH, orb_false_r by done.
  unfold starts_with. cbn. by rewrite decide_False by congruence.
Qed.

(** The digits of a number, at least eight. *)
Lemma padded_digits n : (0 <= n)%Z ->
  str_all is_ascii_digit (fmt_zero 8 n) = true /\ fmt_zero 8 n <> "" /\ decimal_value 0 (fmt_zero 8 n) = Z.to_N n /\
  (in_u64 n = true -> str_len (fmt_zero 8 n) <= 20).
Proof.
  intros Hn. unfold fmt_zero. destruct (Z.ltb_spec n 0); [lia|]. rewrite Z.abs_eq by lia. change ("" +:+ ?x) with x.
  change (str_len "") with 0. split_and!.
  - unfold str_all. rewrite as_from_bytes, forallb_app. pose proof (pretty_N_digits (Z.to_N n)) as Hd. unfold str_all in Hd. rewrite Hd.
    rewrite andb_true_r. generalize (8 - 0 - length (as_bytes (pretty (Z.to_N n)))). clear. intros k. by induction k as [|k IH].
  - intros He. apply (f_equal as_bytes) in He. rewrite as_from_bytes in He. apply app_nil in He as [_ He].
    pose proof (decimal_value_pretty (Z.to_N n)) as Hd. apply (f_equal from_bytes) in He. rewrite from_as_bytes in He.
    change (from_bytes []) with "" in He. unfold pretty, pretty_N in He. case_decide; [done|].
    pose proof (decimal_value_go (Z.to_N n) "") as Hg. rewrite He in Hg. cbn in Hg. lia.
  - by rewrite decimal_value_zeros, decimal_value_pretty.
  - intros Hu. unfold str_len. rewrite as_from_bytes, length_app, length_replicate.
    pose proof (pretty_N_length (Z.to_N n) 20) as Hl. unfold in_u64, U64_MAX in Hu.
    assert (Hb : length (as_bytes (pretty (Z.to_N n))) <= 20); [apply Hl; [lia|]|lia].
    change (10 ^ N.of_nat 20)%N with 100000000000000000000%N. lia.
Qed.

Lemma digit_chars s : str_all is_ascii_digit s = true -> Forall (fun c => is_ascii_digit c = true) (as_bytes s).
Proof. apply forallb_Forall. Qed.

(** The characters of an epoch file's name after the directory. *)
Definition name_char (c : ascii) : bool := is_ascii_alphanumeric c || bool_decide (c = "-"%char) || bool_decide (c = "."%char).

Lemma epoch_file_shape n (t := "epoch-" +:+ fmt_zero 8 n +:+ ".json") : (0 <= n)%Z ->
  epoch_file n = "anchors" +:+ String "/" t /\ Forall (fun c => name_char c = true) (as_bytes t).
Proof.
  intros Hn. split; [done|]. subst t. rewrite !as_bytes_app, !Forall_app. destruct (padded_digits n Hn) as (Hd & _).
  split_and!; [repeat constructor| |repeat constructor]. eapply Forall_impl; [by apply digit_chars|].
  intros c Hc. unfold name_char, is_ascii_alphanumeric. cbn in Hc. by rewrite Hc, orb_true_r.
Qed.

Lemma name_char_ok c : name_char c = true -> (byte_val c < 128)%Z /\ c <> NUL /\ c <> "/"%char /\ c <> "\"%char.
Proof. by destruct c as [[] [] [] [] [] [] [] []]. Qed.

Lemma name_chars_lack c t : Forall (fun x => name_char x = true) (as_bytes t) -> name_char c = false -> lacks c t.
Proof. intros Ht Hc Hin. rewrite Forall_forall in Ht. specialize (Ht _ Hin). congruence. Qed.

Lemma epoch_file_clean n : (0 <= n)%Z -> clean_name (epoch_file n) = Ok (epoch_file n).
Proof.
  intros Hn. destruct (epoch_file_shape n Hn) as [-> Ht]. set (t := "epoch-" +:+ _) in *. unfold clean_name.
  assert (Hp : strip_prefix "./" ("anchors" +:+ String "/" t) = None) by done. rewrite Hp. cbn [default].
  assert (Hb : str_contains "\" ("anchors" +:+ String "/" t) = false).
  { apply str_lacks_contains. unfold lacks. rewrite as_bytes_app. apply not_elem_of_app. split; [by apply (bool_decide_unpack _)|].
    apply not_elem_of_cons. split; [done|]. by apply name_chars_lack. }
  rewrite Hb, split_on_app by (by apply (bool_decide_unpack _)). rewrite split_on_lacks by by apply name_chars_lack.
  done.
Qed.

Lemma epoch_file_holds n d : in_u64 n = true -> (Z.of_nat (length d) < 8 ^ 11)%Z -> can_hold (epoch_file n, d).
Proof.
  intros Hu Hd. assert (Hn : (0 <= n)%Z) by (unfold in_u64 in Hu; lia).
  destruct (epoch_file_shape n Hn) as [He Ht]. destruct (padded_digits n Hn) as (_ & _ & _ & Hl). specialize (Hl Hu).
  assert (Hall : Forall (fun c => (byte_val c < 128)%Z /\ c <> NUL) (as_bytes (epoch_file n))).
  { rewrite He, as_bytes_app, Forall_app. split; [repeat constructor; done|]. constructor; [done|].
    eapply Forall_impl; [exact Ht|]. intros c Hc%name_char_ok. tauto. }
  apply Forall_and in Hall as [Ha Hz]. constructor; cbn [fst snd]; [|by apply valid_ascii|done|by apply epoch_file_clean|done].
  unfold epoch_file, str_len in *. rewrite !as_bytes_app, !length_app. cbn. lia.
Qed.

Lemma epoch_number_file n : in_u64 n = true -> epoch_number (epoch_file n) = Some n.
Proof.
  intros Hu. assert (Hn : (0 <= n)%Z) by (unfold in_u64 in Hu; lia).
  destruct (padded_digits n Hn) as (Hd & Hne & Hv & _). unfold epoch_number, epoch_file. rewrite strip_prefix_app.
  cbn [mbind option_bind]. unfold strip_suffix. rewrite as_bytes_app, reverse_app, bytes_strip_app. cbn [fmap option_fmap option_map compose].
  rewrite reverse_involutive, from_as_bytes. cbn [mbind option_bind]. unfold parse_u64.
  assert (Hs : (match fmt_zero 8 n with String c ((String _ _) as ds) => if decide (c = "+"%char) then ds else fmt_zero 8 n | _ => fmt_zero 8 n end) = fmt_zero 8 n).
  { destruct (fmt_zero 8 n) as [|c [|c' s]]; [done..|]. rewrite decide_False; [done|]. intros ->. by cbn in Hd. }
  rewrite Hs. unfold parse_size, str_is_empty. rewrite bool_decide_eq_false_2, Hd by done. cbn [orb negb].
  rewrite Hv, Z2N.id by done. unfold in_u64 in Hu. by destruct (Z.leb_spec n U64_MAX); [|lia].
Qed.

(** ** The files of a pack *)

Section Packs.
Context {ST : SerdeText} {TX : StoreText} {CK : ClockCrate} {TC : TimeCrate} {SC : SignatureCrates} {HC : HashCrates} {JC : JsonCrates}
        {PP : PrettyCrate} {PL : PrettyLaws}.

(** Entries and epochs a pack can be made of. *)
Record packable (key : SigningKey) (range : PackRange) (now : Z) (es : list DecisionEntry) (eps : list StoredEpoch) : Prop := {
  pk_count : in_u64 (Z.of_nat (length es)) = true;
  pk_entries : Forall (fun e => in_u64 (seq e) = true) es;
  pk_heads : Forall (fun ep => let h := stored_head ep in in_u64 (epoch h) && in_u64 (first_seq h) && in_u64 (last_seq h) = true) eps;
  pk_receipts : Forall (fun ep => Forall receipt_plain (anchors ep)) eps;
  pk_order : in_order eps;
  pk_sizes : Forall (fun f => (Z.of_nat (length f.2) < 8 ^ 11)%Z) (signed_files key range now es eps);
  pk_small : (archive_size (signed_files key range now es eps) <= U64_MAX)%Z;
}.

Lemma head_in_u64 key range now es eps ep : packable key range now es eps -> ep ∈ eps ->
  in_u64 (epoch (stored_head ep)) = true /\ in_u64 (first_seq (stored_head ep)) = true /\ in_u64 (last_seq (stored_head ep)) = true.
Proof. intros [_ _ Hh _ _ _ _] Hin. rewrite Forall_forall in Hh. specialize (Hh _ Hin). cbn in Hh. rewrite !andb_true_iff in Hh. tauto. Qed.

Lemma pack_names key range now es eps : packable key range now es eps -> NoDup (map fst (signed_files key range now es eps)).
Proof.
  intros Hp. unfold signed_files, pack_files. cbn [map app fst]. rewrite map_map. cbn [fst].
  assert (Hne : forall nm, nm ∈ map (fun ep => epoch_file (epoch (stored_head ep))) eps -> exists n, nm = epoch_file n).
  { intros nm (ep & -> & _)%list_elem_of_fmap. by eexists. }
  rewrite !NoDup_cons, !not_elem_of_cons. split_and!; try done; try (intros [n Hn]%Hne; done).
  apply NoDup_fmap_2_strong.
  - intros a b Ha Hb He. apply (f_equal epoch_number) in He.
    destruct (head_in_u64 _ _ _ _ _ _ Hp Ha) as [Hua _], (head_in_u64 _ _ _ _ _ _ Hp Hb) as [Hub _].
    rewrite !epoch_number_file in He by done. injection He as He. pose proof (pk_order _ _ _ _ _ Hp) as Hs. clear -Ha Hb He Hs.
    induction Hs as [|ep eps _ IH Hep]; [by apply elem_of_nil in Ha|]. rewrite Forall_forall in Hep.
    apply elem_of_cons in Ha as [->|Ha], Hb as [->|Hb]; [done| | |by apply IH].
    + apply Hep in Hb. lia.
    + apply Hep in Ha. lia.
  - pose proof (pk_order _ _ _ _ _ Hp) as Hs. clear -Hs. induction Hs as [|ep eps _ IH Hep]; [constructor|].
    constructor; [|done]. intros Hin. rewrite Forall_forall in Hep. apply Hep in Hin. lia.
Qed.

Lemma pack_can_hold key range now es eps : packable key range now es eps -> Forall can_hold (signed_files key range now es eps).
Proof.
  intros Hp. pose proof (pk_sizes _ _ _ _ _ Hp) as Hs. unfold signed_files, pack_files in *. cbn [app] in *. rewrite !Forall_cons in *.
  destruct Hs as (H1 & H2 & H3 & H4 & Hs). split_and!; [constructor; cbn [fst snd] in *; [cbn; lia|done|by apply (bool_decide_unpack _)|done|done]..|].
  apply Forall_fmap in Hs. apply Forall_fmap, Forall_forall. intros ep Hep. apply epoch_file_holds; [by eapply head_in_u64|].
  rewrite Forall_forall in Hs. by apply (Hs ep).
Qed.

Lemma pack_reads_back key range now es eps mtime : packable key range now es eps -> (0 <= mtime < 8 ^ 11)%Z ->
  exists b, Ustar.write (signed_files key range now es eps) mtime = Some b /\
    Ustar.read b = Some (Ok (map (fun f => mkTarFile f.1 f.2) (signed_files key range now es eps))).
Proof.
  intros Hp Hm. pose proof (pack_can_hold _ _ _ _ _ Hp) as Hall. destruct (write_files_some _ mtime Hm Hall) as (out & Hout & _).
  eexists. split; [by unfold Ustar.write; rewrite Hout|].
  apply (read_written_files _ mtime); [done|by apply pack_names|done|apply Hp|by unfold Ustar.write; rewrite Hout].
Qed.

(** *** The manifest *)

Lemma remove_inserted (o : btree value) x y : BTree.wf o ->
  BTree.remove "sig" (BTree.remove "pack_hash" (BTree.insert "sig" y (BTree.insert "pack_hash" x o))) =
  BTree.remove "sig" (BTree.remove "pack_hash" o).
Proof.
  intros Ho. apply BTree.ext; auto 6 with cloakpipe. intros k.
  rewrite !BTree.get_remove, !BTree.get_insert by auto 6 with cloakpipe. repeat case_decide; done.
Qed.

Lemma sign_manifest_get key l k (m := json_object l) : k <> "pack_hash" -> k <> "sig" ->
  vget k (sign_manifest key m) = vget k m.
Proof.
  intros H1 H2. subst m. unfold vget, sign_manifest, json_object. cbn. rewrite !BTree.get_insert by auto with cloakpipe.
  by rewrite !decide_False by done.
Qed.

Lemma sign_manifest_plain key l : plain (json_object l) -> plain (sign_manifest key (json_object l)).
Proof.
  unfold plain, json_object, sign_manifest. cbn [value_wf float_free with_member].
  rewrite !andb_true_iff, !bool_decide_eq_true, !forallb_Forall. intros [[Hs Hw] Hf].
  assert (Hin : forall k (x : string) (o : btree value) kv, kv ∈ BTree.insert k (VString x) o -> kv = (k, VString x) \/ kv ∈ o).
  { clear. intros k x o. induction o as [|[k' y] o IH]; intros kv; cbn; [set_solver|].
    repeat case_decide; set_solver. }
  split_and!; [apply BTree.wf_insert, BTree.wf_insert, BTree.wf_of_list|..]; apply Forall_forall;
    intros kv [->|[->|Hkv]%Hin]%Hin; try done; [rewrite Forall_forall in Hw; by apply Hw|rewrite Forall_forall in Hf; by apply Hf].
Qed.

Lemma pack_hash_signed key l : plain (json_object l) ->
  GatePack.pack_hash (sign_manifest key (json_object l)) = pack_hash (json_object l).
Proof.
  intros Hp. unfold GatePack.pack_hash. rewrite domain_hash_same by by apply sign_manifest_plain. unfold pack_hash.
  f_equal. unfold sign_manifest, json_object. cbn [with_member covered]. by rewrite remove_inserted by apply BTree.wf_of_list.
Qed.

Lemma unsigned_plain key range now es eps : packable key range now es eps -> plain (unsigned_manifest key range now es eps).
Proof.
  intros Hp. apply json_object_plain. rewrite !Forall_cons. cbn [snd].
  assert (Hopt : forall o, plain (json_opt (VString ∘ to_rfc3339_secs) o)) by by intros [].
  assert (Hseq : forall o, (forall e, o = Some e -> e ∈ es) -> plain (json_opt json_u64 (seq <$> o))).
  { intros [e|] He; [|done]. apply json_u64_plain. pose proof (pk_entries _ _ _ _ _ Hp) as Hs. rewrite Forall_forall in Hs. by apply Hs, He. }
  split_and!; try done.
  - apply json_object_plain. rewrite !Forall_cons. cbn [snd]. split_and!; [done|done|apply Hseq..|by apply Forall_nil].
    + intros e He. by apply head_Some_elem_of.
    + intros e He. by apply last_Some_elem_of.
  - apply json_u64_plain, Hp.
  - apply plain_array, Forall_fmap, Forall_forall. intros ep Hep. apply json_u64_plain. by eapply head_in_u64.
  - apply json_object_plain, Forall_fmap, Forall_true. done.
Qed.

Lemma pack_file_present key range now es eps nm d : packable key range now es eps -> (nm, d) ∈ signed_files key range now es eps ->
  BTree.get nm (by_name (map (fun f => mkTarFile f.1 f.2) (signed_files key range now es eps))) = Some d.
Proof. intros Hp. by apply by_name_get, pack_names. Qed.

Lemma json_file_present key range now es eps nm v : packable key range now es eps ->
  (nm, pretty_file v) ∈ signed_files key range now es eps -> plain v ->
  json_file (by_name (map (fun f => mkTarFile f.1 f.2) (signed_files key range now es eps))) nm = Ok v.
Proof. intros Hp Hin [Hw Hf]. by apply pretty_json; [by apply pack_names|..]. Qed.

Lemma signed_listed key range now es eps (m := sign_manifest key (unsigned_manifest key range now es eps)) :
  listed_files m = BTree.of_list (map (fun f => (f.1, VString (sha256_ref f.2))) (pack_files key es eps)).
Proof.
  unfold listed_files. subst m. unfold unsigned_manifest. rewrite sign_manifest_get by done.
  by erewrite get_json_object; [|apply (bool_decide_unpack _); exact I|do 5 right; left].
Qed.

Context {VC : VerifierCrate} {SCL : SignatureLaws} {VL : VerifierLaws} {HL : HashLaws}.

Lemma gate_signature trusted key d : distinct_keyids trusted -> GateKey.public_key key ∈ trusted ->
  signed_digest (trusted_keys trusted) (GateKey.keyid key) d (hex_encode (GateKey.sign key d)).
Proof.
  intros Hd Hin. destruct (verifying_key_valid key) as (vk & Hvk & _ & Hv). exists vk, (GateKey.sign key d).
  split_and!; [by apply (trusted_key_get trusted (GateKey.public_key key))|apply hex_decode_encode|apply ed25519_sign_length|apply Hv].
Qed.

Lemma pack_manifest_ok trusted key range now es eps (m := sign_manifest key (unsigned_manifest key range now es eps)) :
  packable key range now es eps -> distinct_keyids trusted -> GateKey.public_key key ∈ trusted ->
  manifest_ok (trusted_keys trusted) m (by_name (map (fun f => mkTarFile f.1 f.2) (signed_files key range now es eps))).
Proof.
  intros Hp Hd Hin. pose proof (pack_names _ _ _ _ _ Hp) as Hnd. pose proof (unsigned_plain _ _ _ _ _ Hp) as Hpl.
  assert (Hhash : GatePack.pack_hash (sign_manifest key (unsigned_manifest key range now es eps)) = pack_hash (unsigned_manifest key range now es eps))
    by by apply pack_hash_signed.
  assert (Hnd' : NoDup (map fst (pack_files key es eps))) by (cbn [signed_files map] in Hnd; by apply NoDup_cons in Hnd as [_ Hnd]).
  constructor.
  - unfold get_str, m, unsigned_manifest. rewrite sign_manifest_get by done. done.
  - intros nm d Hg Hne. apply by_name_elem in Hg. cbn [signed_files] in Hg. apply elem_of_cons in Hg as [[= -> _]|Hg]; [done|].
    unfold m. rewrite signed_listed. apply get_of_list_elem.
    + apply list_elem_of_fmap. by exists (nm, d).
    + intros y ((nm' & d') & [= -> ->] & Hin')%list_elem_of_fmap. do 2 f_equal.
      pose proof (by_name_get (pack_files key es eps) nm' d Hnd' Hg) as Hg1.
      pose proof (by_name_get (pack_files key es eps) nm' d' Hnd' Hin') as Hg2. congruence.
  - intros nm Hnm. unfold m in Hnm. rewrite signed_listed in Hnm. unfold BTree.keys in Hnm.
    apply list_elem_of_fmap in Hnm as ((nm' & x) & -> & Hnm). apply elem_of_of_list, list_elem_of_fmap in Hnm as ((nm & d) & [= -> ->] & Hnm).
    cbn [fst]. apply BTree.contains_key_elem. unfold BTree.contains_key. by rewrite (pack_file_present _ _ _ _ _ nm d) by (done || by right).
  - unfold m. rewrite Hhash. unfold get_str, vget, sign_manifest, unsigned_manifest, json_object. cbn [with_member as_object].
    rewrite !BTree.get_insert by auto with cloakpipe. done.
  - unfold m. rewrite Hhash.
    assert (Hsr : or_empty "signer" (sign_manifest key (unsigned_manifest key range now es eps)) = GateKey.keyid key).
    { unfold or_empty, get_str, unsigned_manifest. by rewrite sign_manifest_get. }
    assert (Hsg : or_empty "sig" (sign_manifest key (unsigned_manifest key range now es eps)) =
      hex_encode (GateKey.sign key (pack_hash (unsigned_manifest key range now es eps)))).
    { unfold or_empty, get_str, vget, sign_manifest, unsigned_manifest, json_object. cbn [with_member as_object].
      rewrite !BTree.get_insert by auto with cloakpipe. done. }
    rewrite Hsr, Hsg. by apply gate_signature.
Qed.

(** *** The key, the entries and the releases *)

Lemma hex32_encode b : length b = 32 -> hex32 (hex_encode b) = Some b.
Proof.
  intros Hb. unfold hex32. rewrite trim_dense, hex_decode_encode.
  - cbn [mbind option_bind]. by rewrite decide_True.
  - pose proof (hex_encode_lower b) as Hh. apply forallb_Forall in Hh. eapply Forall_impl; [exact Hh|].
    intros c Hc. cbv beta in Hc. clear -Hc. revert Hc. by destruct c as [[] [] [] [] [] [] [] []].
Qed.

Lemma pack_key_present key range now es eps : packable key range now es eps -> length (GateKey.public_key key) = 32 ->
  pack_key (by_name (map (fun f => mkTarFile f.1 f.2) (signed_files key range now es eps))) = Ok (GateKey.public_key key).
Proof.
  intros Hp Hl. unfold pack_key. rewrite (json_file_present _ _ _ _ _ "gate.pub.json" (gate_value key) Hp).
  - assert (Hpub : get_str "publicKey" (gate_value key) = Some (GateKey.public_hex key)) by done.
    assert (Hid : get_str "keyid" (gate_value key) = Some (keyid (GateKey.public_key key))) by done.
    rewrite Hpub, Hid. cbn [mbind option_bind]. unfold GateKey.public_hex. rewrite hex32_encode by done. cbn.
    by rewrite bool_decide_eq_true_2.
  - right. right. left.
  - apply json_object_plain. by repeat constructor.
Qed.

Lemma entries_read key range now es eps : packable key range now es eps ->
  read_entries (by_name (map (fun f => mkTarFile f.1 f.2) (signed_files key range now es eps))) = (map entry_value es, None).
Proof.
  intros Hp. unfold read_entries. rewrite (pack_file_present key range now es eps "entries.jsonl" (entries_text es)) by (done || right; left).
  destruct (entries_text_parses es (pk_entries _ _ _ _ _ Hp)) as [-> ->]. done.
Qed.

Lemma manifests_read key range now es eps (named := by_name (map (fun f => mkTarFile f.1 f.2) (signed_files key range now es eps))) :
  packable key range now es eps ->
  exists m, json_file named "manifests.json" = Ok m /\ releases_listed m = releases_named (map entry_value es).
Proof.
  intros Hp. exists (manifests_value es). split.
  - apply json_file_present; [done|right; right; right; left|]. apply json_object_plain.
    repeat (apply Forall_cons; split; [apply json_strings_plain|]). constructor.
  - change (string_set (omap as_str (map VString (string_set (omap release es)))) = releases_named (map entry_value es)).
    rewrite omap_strings, string_set_again.
    unfold releases_named. f_equal. clear. induction es as [|e es IH]; [done|]. cbn [map omap list_omap].
    assert (He : get_str "release" (entry_value e) = release e) by (unfold entry_value, entry_members; destruct (tools_lock e), (release e); done).
    rewrite He. by destruct (release e); rewrite IH.
Qed.

Lemma counts_match key range now es eps (m := sign_manifest key (unsigned_manifest key range now es eps)) : packable key range now es eps ->
  get_u64 "entries" m = Some (Z.of_nat (length es)) /\
  get_u64 "first_seq" (range_of m) = seq_of (head (map entry_value es)) /\
  get_u64 "last_seq" (range_of m) = seq_of (last (map entry_value es)) /\
  (forall l, (v ← vget "epochs" m; as_array v) = Some l -> omap value_u64 l = map (fun ep => epoch (stored_head ep)) eps).
Proof.
  intros Hp.
  assert (Hget : forall k, k <> "pack_hash" -> k <> "sig" -> vget k m = vget k (unsigned_manifest key range now es eps)).
  { intros k H1 H2. apply (sign_manifest_get key _ k H1 H2). }
  assert (Hseq : forall e, seq_of (Some (entry_value e)) = Some (seq e)).
  { intros e. cbn. by destruct (entry_fields e) as [(_ & -> & _) _]. }
  split_and!.
  - unfold get_u64. rewrite Hget by done. done.
  - unfold range_of. rewrite Hget by done. unfold get_u64. cbn [vget]. destruct es as [|e es']; [done|]. cbn [map head]. rewrite Hseq. done.
  - unfold range_of. rewrite Hget by done. unfold get_u64. 
    destruct es as [|e es' _] using rev_ind; [done|]. rewrite map_app. cbn [map]. rewrite last_snoc, Hseq.
    unfold unsigned_manifest. rewrite last_snoc. done.
  - intros l. rewrite Hget by done. intros [= <-]. clear. induction eps as [|ep eps IH]; [done|]. cbn. by rewrite IH.
Qed.
End Packs.

(** *** The epochs *)

Section Epochs.
Context {ST : SerdeText} {TX : StoreText} {CK : ClockCrate} {TC : TimeCrate} {KL : ClockLaws} {SC : SignatureCrates} {SCL : SignatureLaws}
        {HC : HashCrates} {HL : HashLaws} {JC : JsonCrates} {PP : PrettyCrate} {PL : PrettyLaws} {VC : VerifierCrate} {VL : VerifierLaws}
        {S5 : Sha512Crate} {PC : P256Crate} {DC : DerCrates} {TV : TsaVerifier}.

Definition epoch_entry (ep : StoredEpoch) : Z * string := (epoch (stored_head ep), epoch_file (epoch (stored_head ep))).

Lemma pack_epoch_files key range now es eps : packable key range now es eps ->
  epoch_files (map (fun f => mkTarFile f.1 f.2) (signed_files key range now es eps)) = map epoch_entry eps.
Proof.
  intros Hp. unfold epoch_files.
  set (named := map (fun ep => (epoch_file (epoch (stored_head ep)), epoch (stored_head ep))) eps).
  assert (Hnum : omap (fun f => (fun n => (name f, n)) <$> epoch_number (name f)) (map (fun f => mkTarFile f.1 f.2) (signed_files key range now es eps)) = named).
  { unfold signed_files, pack_files, named. cbn [app map omap list_omap name fst].
    assert (Hnone : forall nm, nm ∈ ["pack.json"; "entries.jsonl"; "gate.pub.json"; "manifests.json"] -> epoch_number nm = None).
    { intros nm Hnm. rewrite !elem_of_cons in Hnm. destruct Hnm as [->|[->|[->|[->|Hnm]]]]; [done..|by apply elem_of_nil in Hnm]. }
    rewrite !Hnone by set_solver. cbn [fmap option_fmap option_map]. pose proof (pk_heads _ _ _ _ _ Hp) as Hh. clear -Hh.
    induction Hh as [|ep eps Hep _ IH]; [done|]. cbn [map omap list_omap name fst].
    rewrite epoch_number_file; [cbn [fmap option_fmap option_map]; by rewrite IH|]. cbn in Hep. rewrite !andb_true_iff in Hep. tauto. }
  rewrite Hnum. apply sort_by_key_strict.
  - rewrite (btree_of_list_perm named).
    + unfold named. by rewrite map_map.
    + pose proof (pack_names _ _ _ _ _ Hp) as Hnd. unfold signed_files, pack_files in Hnd. cbn [map app fst] in Hnd.
      rewrite !NoDup_cons in Hnd. destruct Hnd as (_ & _ & _ & _ & Hnd). unfold named. rewrite map_map in *. done.
  - pose proof (pk_order _ _ _ _ _ Hp) as Ho. clear -Ho. induction Ho as [|ep eps _ IH Hep]; [constructor|]. constructor; [done|].
    apply Forall_fmap. eapply Forall_impl; [exact Hep|]. by intros ? [].
Qed.

Definition secs_of (text : string) : Z := default 0%Z (parse_rfc3339_secs text).

(** The head as the verifier reads it. *)
Definition read_head (h : EpochHead) : Head :=
  mkHead (first_seq h) (last_seq h) (prev_epoch h) (Decisions.epoch_hash h) (secs_of (sealed_at h)) (h_signer h).

Lemma clock_secs t : in_calendar t -> parse_rfc3339_secs (to_rfc3339_secs t) = Some (t / NANOS)%Z.
Proof. intros Ht. rewrite to_secs_format by done. by apply rfc3339_round_trip. Qed.

Lemma head_fields h (v := head_value h) :
  get_str "kind" v = Some (h_kind h) /\ get_u64 "epoch" v = Some (epoch h) /\ get_u64 "first_seq" v = Some (first_seq h) /\
  get_u64 "last_seq" v = Some (last_seq h) /\ get_str "entries_head" v = Some (entries_head h) /\
  get_str "prev_epoch" v = Some (prev_epoch h) /\ get_str "sealed_at" v = Some (sealed_at h) /\ get_str "signer" v = Some (h_signer h) /\
  get_str "epoch_hash" v = Some (Decisions.epoch_hash h) /\ get_str "sig" v = Some (h_sig h).
Proof. subst v. done. Qed.

Lemma sealed_epoch_ok trusted key seqs h : distinct_keyids trusted -> GateKey.public_key key ∈ trusted ->
  plain (head_value h) -> sealed_by key h -> (first_seq h <= last_seq h)%Z -> Decisions.epoch_hash h = compute_epoch_hash h ->
  (forall q, (first_seq h <= q <= last_seq h)%Z -> is_Some (seqs !! q)) ->
  (exists e, seqs !! last_seq h = Some (entry_value e) /\ entries_head h = Decisions.entry_hash e) ->
  epoch_ok (trusted_keys trusted) seqs (epoch h) (head_value h) (read_head h).
Proof.
  intros Hd Hin Hp (Hk & Hsr & Hsg & t & Ht & Hse) Hr Hh Hall (e & He & Heh).
  destruct (head_fields h) as (Fk & Fn & Ff & Fl & Feh & Fp & Fse & Fsr & Fh & Fsg).
  assert (Hhash : epoch_hash (head_value h) = epoch_hash_of (head_value h)) by by apply domain_hash_same.
  constructor; try done.
  - by rewrite Fk, Hk.
  - exists (h_sig h). split; [done|]. cbn [read_head e_signer]. rewrite Hhash, Hsr, Hsg, <- hex_encode_is_lower. by apply gate_signature.
  - exists (sealed_at h). split; [done|]. cbn [read_head e_sealed_at]. unfold secs_of. by rewrite Hse, clock_secs.
  - exists (entry_value e), (Decisions.entry_hash e). split_and!; [done|apply entry_fields|by rewrite Feh, Heh].
Qed.

(** An epoch's receipts, as the auditor sees them: there are some, each
    verifies for the head, and neither the seal nor an entry it covers is
    later than the receipt allows. *)
Record anchored (trust : PackTrust) (keys : btree VerifyingKey) (es : list DecisionEntry) (ep : StoredEpoch) : Prop := {
  anc_plain : Forall receipt_plain (anchors ep);
  anc_some : anchors ep <> [];
  anc_all : Forall (fun r => exists t, let limit := wrap_i64 (t + clock_skew_secs trust) in
    anchored_at trust keys (epoch (stored_head ep)) (artifact (stored_head ep)) (read_head (stored_head ep)) (receipt_value r) t /\
    (secs_of (sealed_at (stored_head ep)) <= limit)%Z /\
    forall e, e ∈ es -> (ep_first ep <= seq e <= ep_last ep)%Z -> (secs_of (ts e) <= limit)%Z) (anchors ep);
}.

(** The entries of a pack, each found under its number, hold an epoch. *)
Definition covers (es : list DecisionEntry) (seqs : gmap Z value) (ep : StoredEpoch) : Prop :=
  forall q, (ep_first ep <= q <= ep_last ep)%Z -> exists e, e ∈ es /\ seq e = q /\ seqs !! q = Some (entry_value e).

Lemma anchored_ok trust keys key es seqs ep : Forall (made_by key) es -> covers es seqs ep -> plain (head_value (stored_head ep)) ->
  anchored trust keys es ep ->
  anchors_of (epoch_value ep) <> [] /\
  Forall (anchor_ok trust keys seqs (epoch (stored_head ep)) (canonical (head_value (stored_head ep))) (read_head (stored_head ep)))
    (anchors_of (epoch_value ep)).
Proof.
  intros Hmade Hcov [Hp _] [_ Hsome Hall]. change (anchors_of (epoch_value ep)) with (map receipt_value (anchors ep)).
  rewrite canonical_same by done. fold (artifact (stored_head ep)). split; [by destruct (anchors ep)|]. apply Forall_fmap.
  eapply Forall_impl; [exact Hall|]. intros r (t & Ha & Hse & Hts). exists t. split_and!; [done..|]. intros q Hq.
  destruct (Hcov q Hq) as (e & He & Hs & Hlk). rewrite Forall_forall in Hmade. destruct (Hmade _ He) as (_ & tt & Htt & Ht).
  assert (Hget : get_str "ts" (entry_value e) = Some (ts e)) by (unfold entry_value, entry_members; by destruct (tools_lock e)).
  exists (entry_value e), (ts e), (secs_of (ts e)). split_and!; [done|done| |by apply Hts; [|rewrite Hs]].
  unfold secs_of. by rewrite Ht, clock_secs.
Qed.

Definition last_of (po : option (Z * Z * string)) (eps : list StoredEpoch) : option (Z * Z * string) :=
  match last eps with
  | Some ep => Some (epoch (stored_head ep), ep_last ep, Decisions.epoch_hash (stored_head ep))
  | None => po
  end.

Lemma pack_epochs_ok named keys seqs first_entry trust all n first prev po eps :
  sealed all n first prev (map stored_head eps) -> (0 <= n)%Z -> (0 <= first)%Z ->
  (n + Z.of_nat (length eps) <= I64_MAX + 1)%Z -> (Z.of_nat (length all) <= I64_MAX + 1)%Z ->
  Forall (fun ep => json_file named (epoch_file (epoch (stored_head ep))) = Ok (epoch_value ep) /\
    epoch_ok keys seqs (epoch (stored_head ep)) (head_value (stored_head ep)) (read_head (stored_head ep)) /\
    anchors_of (epoch_value ep) <> [] /\
    Forall (anchor_ok trust keys seqs (epoch (stored_head ep)) (canonical (head_value (stored_head ep))) (read_head (stored_head ep)))
      (anchors_of (epoch_value ep))) eps ->
  (eps <> [] -> match po with
    | None => (forall f, first_entry = Some f -> (first <= f)%Z) /\ (n = 0%Z -> first = 0%Z /\ prev = GENESIS)
    | Some (p_n, p_last, p_hash) => n = wrap_u64 (p_n + 1) /\ first = wrap_u64 (p_last + 1) /\ prev = p_hash
    end) ->
  epochs_ok named keys seqs first_entry trust po (map epoch_entry eps) (last_of po eps).
Proof.
  revert n first prev po. induction eps as [|ep eps IH]; intros n first prev po Hs Hn Hf Hb Hall Hep Hpo; [done|].
  pose proof (sealed_bounds _ _ _ _ _ Hs Hf) as [Hup _]. cbn [map sealed sealed_up_to length] in *.
  destruct Hs as (He & Hfi & Hla & _ & Hpr & _ & _ & Hs). pose proof (sealed_bounds _ _ _ _ _ Hs ltac:(lia)) as [Hup' _].
  apply Forall_cons in Hep as [(Hj & Hok & Ha & Hanc) Hep].
  exists (epoch_value ep), (read_head (stored_head ep)). split_and!; [done|exact Hok| |done|exact Hanc|].
  - specialize (Hpo ltac:(done)). unfold continues_epoch. cbn [read_head e_first_seq e_prev_epoch]. rewrite He, Hfi, Hpr.
    destruct po as [[[p_n p_last] p_hash]|]; done.
  - assert (Hl : last_of po (ep :: eps) = last_of (Some (epoch (stored_head ep), e_last_seq (read_head (stored_head ep)), e_hash (read_head (stored_head ep)))) eps).
    { unfold last_of. destruct eps as [|ep' eps]; [done|]. rewrite (last_cons ep). by destruct (last (ep' :: eps)) eqn:Hl; [|apply last_None in Hl]. }
    unfold epoch_entry at 1. cbn [fst]. rewrite Hl. apply (IH (n + 1)%Z (last_seq (stored_head ep) + 1)%Z (Decisions.epoch_hash (stored_head ep))); [done|lia|lia|lia|done|done|].
    intros _. cbn [read_head e_last_seq e_hash]. unfold wrap_u64, I64_MAX in *. rewrite !Z.mod_small; rewrite ?He; lia || done.
Qed.
End Epochs.

(** ** From the ledger to the verdict *)

Section Sealed.
Context {ST : SerdeText} {TX : StoreText} {CK : ClockCrate} {SC : SignatureCrates} {HC : HashCrates}.

Lemma sealed_prefix es n first prev hs hs' : sealed es n first prev (hs ++ hs') -> (0 <= first)%Z -> sealed es n first prev hs.
Proof.
  revert n first prev. induction hs as [|h hs IH]; intros n first prev Hs H0.
  - apply sealed_bounds in Hs as [Hs _]; [|done]. cbn. lia.
  - cbn [app sealed] in *. destruct Hs as (? & ? & ? & ? & ? & ? & ? & Hs). split_and!; try done; try lia. apply IH; [done|lia].
Qed.

Lemma sealed_elem es n first prev hs h : sealed es n first prev hs -> (0 <= first)%Z -> h ∈ hs ->
  (0 <= first_seq h <= last_seq h)%Z /\ Decisions.epoch_hash h = compute_epoch_hash h /\
  exists e, es !! Z.to_nat (last_seq h) = Some e /\ entries_head h = Decisions.entry_hash e.
Proof.
  revert n first prev. induction hs as [|h0 hs IH]; intros n first prev Hs H0 Hin; [by apply elem_of_nil in Hin|].
  cbn [sealed] in Hs. destruct Hs as (_ & Hf & Hl & He & _ & Hh & _ & Hs). apply elem_of_cons in Hin as [->|Hin].
  - split_and!; [lia|lia|done|done].
  - eapply IH; [done|lia|done].
Qed.

Lemma sealed_covers es n first prev hs q : sealed es n first prev hs -> (first <= q < sealed_up_to first hs)%Z ->
  exists h, h ∈ hs /\ (first_seq h <= q <= last_seq h)%Z.
Proof.
  revert n first prev. induction hs as [|h hs IH]; intros n first prev Hs Hq; cbn in Hq; [lia|].
  cbn [sealed] in Hs. destruct Hs as (_ & Hf & Hl & _ & _ & _ & _ & Hs). destruct (decide (q <= last_seq h)%Z).
  - exists h. split; [left|lia].
  - destruct (IH _ _ _ Hs) as (h' & Hin & Hh'); [lia|]. exists h'. split; [by right|done].
Qed.

Lemma convex_epochs lo hi eps : in_order eps -> Forall (fun ep => (ep_first ep <= ep_last ep)%Z) eps ->
  exists pre post, eps = pre ++ filter (fun ep => overlaps lo hi ep = true) eps ++ post /\
    Forall (fun ep => overlaps lo hi ep <> true) pre.
Proof.
  intros Ho Hne.
  destruct (filter_convex (fun a b => (ep_first a <= ep_first b)%Z /\ (ep_last a <= ep_last b)%Z) (fun ep => overlaps lo hi ep = true) eps)
    as (pre & post & He & Hpre & _); [| |by exists pre, post].
  - induction Ho as [|ep eps _ IH Hep]; [constructor|]. apply Forall_cons in Hne as [Hn Hne]. constructor; [by apply IH|].
    apply Forall_forall. intros x Hx. rewrite Forall_forall in Hep, Hne. specialize (Hep _ Hx). specialize (Hne _ Hx). cbn in *. lia.
  - intros a b c Hab Hbc. rewrite !overlaps_true. lia.
Qed.

(** The entries of a range are together. *)
Lemma convex_entries lo hi es : chained 0 Decisions.GENESIS es ->
  exists pre post, es = pre ++ filter (fun e => between (Some (lo, hi)) e = true) es ++ post.
Proof.
  intros Hc. destruct (filter_convex (fun a b => (seq a <= seq b)%Z) (fun e => between (Some (lo, hi)) e = true) es)
    as (pre & post & He & _); [by eapply chained_sorted| |by exists pre, post].
  intros a b c Hab Hbc. cbn. rewrite !andb_true_iff, !Z.leb_le. lia.
Qed.
End Sealed.

Section Verdict.
Context {ST : SerdeText} {TX : StoreText} {TL : StoreTextLaws} {CK : ClockCrate} {TC : TimeCrate} {KL : ClockLaws} {SC : SignatureCrates}
        {SCL : SignatureLaws} {HC : HashCrates} {HL : HashLaws} {JC : JsonCrates} {PP : PrettyCrate} {PL : PrettyLaws} {VC : VerifierCrate}
        {VL : VerifierLaws} {S5 : Sha512Crate} {PC : P256Crate} {DC : DerCrates} {TV : TsaVerifier}.
Context (key : SigningKey) (st : LedgerStore) (es : list DecisionEntry) (hs : list EpochHead) (eps : list StoredEpoch).
Context (Hkept : kept_by key st es hs) (Heps : map stored_head eps = hs).

Lemma kept_seqs : Forall (fun e => in_u64 (seq e) = true) es.
Proof.
  destruct Hkept as [[_ Hc Hb _ _] _ _]. apply chained_bounds in Hc. eapply Forall_impl; [exact Hc|]. cbn. intros e He.
  unfold in_u64, U64_MAX, I64_MAX in *. lia.
Qed.

Lemma kept_numbers : Forall (fun ep => let h := stored_head ep in in_u64 (epoch h) && in_u64 (first_seq h) && in_u64 (last_seq h) = true) eps.
Proof. pose proof (head_numbers _ _ _ (kept_ok _ _ _ _ Hkept)) as Hn. rewrite <- Heps in Hn. by apply Forall_fmap in Hn. Qed.

Lemma kept_order : in_order eps.
Proof. apply ordered_heads. rewrite Heps. eapply sealed_order; [apply Hkept|lia]. Qed.

Lemma kept_whole_epochs : Forall (fun ep => (ep_first ep <= ep_last ep)%Z) eps.
Proof.
  apply Forall_forall. intros ep Hep. destruct (sealed_elem es 0 0 Decisions.EPOCH_GENESIS hs (stored_head ep)) as [[_ H] _]; [apply Hkept|done| |done].
  rewrite <- Heps. by apply list_elem_of_fmap_2.
Qed.

(** The entries of a range and where they are. *)
Context (lo hi : Z) (Hwhole : whole (lo, hi) eps).
Let es' := filter (fun e => between (Some (lo, hi)) e = true) es.
Let eps' := filter (fun ep => overlaps lo hi ep = true) eps.
Let seqs := by_seq (map entry_value es').

Lemma chosen_seq e : e ∈ es' -> seqs !! seq e = Some (entry_value e) /\ es !! Z.to_nat (seq e) = Some e.
Proof.
  intros He. pose proof (ok_chain _ _ _ (kept_ok _ _ _ _ Hkept)) as Hc. destruct (convex_entries lo hi es Hc) as (pre & post & Hes).
  fold es' in Hes. rewrite Hes in Hc. apply chained_app in Hc as [_ Hc]. apply chained_app in Hc as [Hc _].
  apply list_elem_of_lookup in He as [i Hi]. pose proof (chained_lookup _ _ _ _ _ Hc Hi) as Hs. split.
  - unfold seqs. erewrite by_seq_chained by exact Hc. rewrite decide_True by lia. rewrite Hs.
    replace (Z.to_nat _) with i by lia. by rewrite Hi.
  - rewrite Hes at 1. rewrite Hs, lookup_app_r by lia. replace (_ - _) with i by lia. by apply lookup_app_l_Some.
Qed.

Lemma chosen_covers ep : ep ∈ eps' -> covers es' seqs ep.
Proof.
  intros Hep. apply list_elem_of_filter in Hep as [Ho Hep]. destruct (Hwhole ep Hep Ho) as [H1 H2]. cbn in H1, H2. intros q Hq.
  pose proof (kept_ok _ _ _ _ Hkept) as [_ Hc _ _ Hs].
  destruct (sealed_elem es 0 0 Decisions.EPOCH_GENESIS hs (stored_head ep)) as ([H0 _] & _ & e0 & He0 & _); [done|done|rewrite <- Heps; by apply list_elem_of_fmap_2|].
  apply lookup_lt_Some in He0. unfold ep_first, ep_last in *.
  destruct (lookup_lt_is_Some_2 es (Z.to_nat q)) as [e He]; [lia|]. pose proof (chained_lookup _ _ _ _ _ Hc He) as Hq'.
  assert (Hin : e ∈ es').
  { apply list_elem_of_filter. split; [|by eapply list_elem_of_lookup_2]. cbn. rewrite andb_true_iff, !Z.leb_le. lia. }
  exists e. split_and!; [done|lia|]. destruct (chosen_seq e Hin) as [Hl _]. rewrite <- Hl. f_equal. lia.
Qed.

Lemma chosen_heads trusted ep : distinct_keyids trusted -> GateKey.public_key key ∈ trusted -> ep ∈ eps' ->
  plain (head_value (stored_head ep)) /\
  epoch_ok (trusted_keys trusted) seqs (epoch (stored_head ep)) (head_value (stored_head ep)) (read_head (stored_head ep)).
Proof.
  intros Hd Hin Hep. pose proof (chosen_covers ep Hep) as Hcov. apply list_elem_of_filter in Hep as [Ho Hep].
  pose proof kept_numbers as Hn. rewrite Forall_forall in Hn. specialize (Hn _ Hep). cbn in Hn. rewrite !andb_true_iff in Hn.
  assert (Hh : stored_head ep ∈ hs) by (rewrite <- Heps; by apply list_elem_of_fmap_2).
  destruct (sealed_elem es 0 0 Decisions.EPOCH_GENESIS hs (stored_head ep)) as (Hr & Hhash & e0 & He0 & Heh); [apply Hkept|done|done|].
  assert (Hp : plain (head_value (stored_head ep))) by (destruct Hn as [[? ?] ?]; by apply head_value_plain). split; [done|].
  pose proof (kept_heads _ _ _ _ Hkept) as Hhs. rewrite Forall_forall in Hhs.
  apply (sealed_epoch_ok trusted key); [done|done|done|by apply Hhs|lia|done| |].
  - intros q Hq. destruct (Hcov q Hq) as (e & _ & _ & ->). by eexists.
  - destruct (Hcov (last_seq (stored_head ep))) as (e & He & Hs & Hl); [unfold ep_first, ep_last; lia|]. exists e.
    destruct (chosen_seq e He) as [_ He']. rewrite Hs, He0 in He'. injection He' as ->. done.
Qed.

Lemma chosen_made : Forall (made_by key) es'.
Proof.
  pose proof (kept_entries _ _ _ _ Hkept) as Hm. rewrite Forall_forall in *. intros e [_ He]%list_elem_of_filter. by apply Hm.
Qed.

Lemma chosen_run trusted : distinct_keyids trusted -> GateKey.public_key key ∈ trusted ->
  run_ok (signed_under (trusted_keys trusted)) None (map entry_value es').
Proof.
  intros Hd Hin. pose proof (kept_ok _ _ _ _ Hkept) as [_ Hc Hb _ _].
  destruct (convex_entries lo hi es Hc) as (pre & post & Hes). fold es' in Hes. rewrite Hes in Hc, Hb.
  apply chained_app in Hc as [_ Hc]. apply chained_app in Hc as [Hc _]. rewrite !length_app in Hb.
  eapply run_ok_weaken; [intros e; by apply signed_under_trusted|].
  eapply (gate_run_ok trusted key); [done|exact Hc| |lia|unfold I64_MAX in Hb; lia|].
  - eapply Forall_impl; [apply chosen_made|]. by intros e [].
  - intros Hz. assert (Hnil : length pre = 0) by lia. apply length_zero_iff_nil in Hnil as ->. done.
Qed.

(** The epochs kept together follow one another. *)
Lemma chosen_epochs named trusted trust : distinct_keyids trusted -> GateKey.public_key key ∈ trusted ->
  Forall (anchored trust (trusted_keys trusted) es) eps ->
  (forall ep, ep ∈ eps' -> json_file named (epoch_file (epoch (stored_head ep))) = Ok (epoch_value ep)) ->
  epochs_ok named (trusted_keys trusted) seqs (seq_of (head (map entry_value es'))) trust None (map epoch_entry eps') (last_of None eps').
Proof.
  intros Hd Hin Hanc Hj. pose proof (kept_ok _ _ _ _ Hkept) as [_ Hc Hb _ Hs].
  destruct (convex_epochs lo hi eps kept_order kept_whole_epochs) as (pre & post & Hsplit & Hpre). fold eps' in Hsplit.
  rewrite <- Heps, Hsplit, !map_app in Hs. pose proof (sealed_bounds _ _ _ _ _ Hs ltac:(lia)) as [Hup _].
  pose proof (sealed_prefix _ _ _ _ _ _ Hs ltac:(lia)) as Hs0. pose proof (sealed_bounds _ _ _ _ _ Hs0 ltac:(lia)) as [H0 _].
  apply sealed_split in Hs. rewrite !length_app, !length_map in *.
  apply sealed_prefix in Hs; [|lia].
  eapply pack_epochs_ok; [exact Hs|lia|lia|lia|done| |].
  - apply Forall_forall. intros ep Hep. destruct (chosen_heads trusted ep Hd Hin Hep) as [Hp Hok].
    destruct (anchored_ok trust (trusted_keys trusted) key es' seqs ep) as [Ha1 Ha2]; [apply chosen_made|by apply chosen_covers|done| |].
    + apply list_elem_of_filter in Hep as [_ Hep]. rewrite Forall_forall in Hanc. destruct (Hanc _ Hep) as [A1 A2 A3].
      constructor; [done|done|]. eapply Forall_impl; [exact A3|]. intros r (t & B1 & B2 & B3). exists t. split_and!; [done|done|].
      intros e [_ He]%list_elem_of_filter. by apply B3.
    + split_and!; [by apply Hj|done|done|done].
  - intros Hne. split.
    + intros f Hf. destruct es' as [|e0 es0] eqn:He'; [done|].
      assert (He0 : e0 ∈ es') by (rewrite He'; left). apply list_elem_of_filter in He0 as [Hbt He0]. cbn in Hbt.
      rewrite andb_true_iff, !Z.leb_le in Hbt. cbn in Hf. destruct (entry_fields e0) as [(_ & Fs & _) _]. rewrite Fs in Hf. injection Hf as <-.
      destruct pre as [|p pre _] using rev_ind; [cbn; pose proof (chained_bounds _ _ _ Hc) as Hbd; rewrite Forall_forall in Hbd; apply Hbd in He0; lia|].
      rewrite map_app in Hs0 |- *. cbn [map] in Hs0 |- *. apply sealed_last in Hs0 as (_ & -> & _).
      assert (Hp : (ep_last p < lo)%Z); [|unfold ep_last in Hp; lia].
      destruct eps' as [|ep0 eps0] eqn:Hep'; [done|]. assert (Hep0 : ep0 ∈ eps') by (rewrite Hep'; left).
      apply list_elem_of_filter in Hep0 as [Ho%overlaps_true _]. apply Forall_app in Hpre as [_ [Hpo _]%Forall_cons].
      pose proof kept_order as Hord. pose proof kept_whole_epochs as Hw. rewrite Hsplit in Hord, Hw. unfold in_order in Hord.
      rewrite <- app_assoc in Hord, Hw. apply StronglySorted_app_1_r in Hord. cbn [app] in Hord.
      apply StronglySorted_inv in Hord as [_ [[_ Hlt] _]%Forall_cons]. apply Forall_app in Hw as [_ [Hpw _]%Forall_cons].
      rewrite overlaps_true in Hpo. lia.
    + intros Hz. assert (Hnil : length pre = 0) by lia. apply length_zero_iff_nil in Hnil as ->. done.
Qed.

(** The sizes a tar can hold. *)
Definition fits (range : PackRange) (now : Z) (es : list DecisionEntry) (eps : list StoredEpoch) : Prop :=
  Forall (fun f => (Z.of_nat (length f.2) < 8 ^ 11)%Z) (signed_files key range now es eps) /\
  (archive_size (signed_files key range now es eps) <= U64_MAX)%Z.

Lemma chosen_packable range now : Forall (fun ep => Forall receipt_plain (anchors ep)) eps -> fits range now es' eps' ->
  packable key range now es' eps'.
Proof.
  intros Hr [Hs Ha]. pose proof (kept_ok _ _ _ _ Hkept) as [_ _ Hb _ _]. constructor; try done.
  - pose proof (length_filter (fun e => between (Some (lo, hi)) e = true) es) as Hl. fold es' in Hl. unfold in_u64, U64_MAX, I64_MAX in *. lia.
  - pose proof kept_seqs as Hk. rewrite Forall_forall in *. intros e [_ He]%list_elem_of_filter. by apply Hk.
  - pose proof kept_numbers as Hn. rewrite Forall_forall in *. intros ep [_ Hep]%list_elem_of_filter. by apply Hn.
  - rewrite Forall_forall in *. intros ep [_ Hep]%list_elem_of_filter. by apply Hr.
  - destruct (convex_epochs lo hi eps kept_order kept_whole_epochs) as (pre & post & Hsplit & _). fold eps' in Hsplit.
    pose proof kept_order as Ho. rewrite Hsplit in Ho. apply StronglySorted_app_1_r in Ho. by apply StronglySorted_app_1_l in Ho.
Qed.

(** Entries an epoch seals are kept with it. *)
Lemma chosen_sealed q : sealed_up_to 0 hs = Z.of_nat (length es) -> seq_of (last (map entry_value es')) = Some q ->
  (q < unsealed (seq_of (head (map entry_value es'))) (last_of None eps'))%Z.
Proof.
  intros Hall Hq. pose proof (kept_ok _ _ _ _ Hkept) as [_ Hc Hb _ Hs].
  destruct es' as [|e es0 _] eqn:He' using rev_ind; [done|]. rewrite map_app in Hq. cbn [map] in Hq. rewrite last_snoc in Hq.
  cbn in Hq. rewrite (proj1 (proj2 (proj1 (entry_fields e)))) in Hq. injection Hq as <-.
  assert (He : e ∈ es') by (rewrite He'; set_solver). apply list_elem_of_filter in He as [Hbt He]. cbn in Hbt.
  rewrite andb_true_iff, !Z.leb_le in Hbt. pose proof (chained_bounds _ _ _ Hc) as Hbd. rewrite Forall_forall in Hbd.
  specialize (Hbd _ He). destruct (sealed_covers _ _ _ _ _ (seq e) Hs) as (h & Hh & Hr); [lia|]. rewrite <- Heps in Hh.
  apply list_elem_of_fmap in Hh as (ep & -> & Hep).
  assert (Hin : ep ∈ eps') by (apply list_elem_of_filter; split; [apply overlaps_true; unfold ep_first, ep_last; lia|done]).
  destruct (last eps') as [top|] eqn:Hl; [|apply last_None in Hl; rewrite Hl in Hin; by apply elem_of_nil in Hin].
  unfold last_of. rewrite Hl. cbn [unsealed].
  assert (Htop : (ep_last ep <= ep_last top < I64_MAX + 1)%Z).
  { apply last_Some in Hl as (front & Hl). assert (Ht : top ∈ eps') by (rewrite Hl; set_solver).
    split.
    - destruct (convex_epochs lo hi eps kept_order kept_whole_epochs) as (pre & post & Hsplit & _). fold eps' in Hsplit.
      pose proof kept_order as Ho. rewrite Hsplit in Ho. apply StronglySorted_app_1_r, StronglySorted_app_1_l in Ho. rewrite Hl in Ho, Hin.
      apply elem_of_app in Hin as [Hin|Hin]; [|apply list_elem_of_singleton in Hin as ->; lia].
      pose proof (StronglySorted_app_1_elem_of _ _ _ ep top Ho Hin ltac:(set_solver)) as [_ Hlt].
      pose proof kept_whole_epochs as Hw. rewrite Forall_forall in Hw. apply list_elem_of_filter in Ht as [_ Ht]. specialize (Hw _ Ht). lia.
    - apply list_elem_of_filter in Ht as [_ Ht]. apply sealed_bounds in Hs as [Hup Hs]; [|lia]. rewrite Forall_forall in Hs.
      destruct (Hs (stored_head top)) as (_ & _ & Hlt); [rewrite <- Heps; by apply list_elem_of_fmap_2|]. unfold ep_last. lia. }
  unfold wrap_u64, I64_MAX, ep_last in *. rewrite Z.mod_small; lia.
Qed.
End Verdict.

Section Pack.
Context {ST : SerdeText} {TX : StoreText} {TL : StoreTextLaws} {CK : ClockCrate} {TC : TimeCrate} {KL : ClockLaws} {SC : SignatureCrates}
        {SCL : SignatureLaws} {HC : HashCrates} {HL : HashLaws} {JC : JsonCrates} {PP : PrettyCrate} {PL : PrettyLaws} {VC : VerifierCrate}
        {VL : VerifierLaws} {S5 : Sha512Crate} {PC : P256Crate} {DC : DerCrates} {TV : TsaVerifier}.

(** The keys the auditor checks against. *)
Definition auditor_keys (trust : PackTrust) (key : SigningKey) : list bytes :=
  match gate_keys trust with [] => [GateKey.public_key key] | pinned_keys => pinned_keys end.

(** The auditor pins nothing, or keys that hold the gate's. *)
Record trusts (trust : PackTrust) (key : SigningKey) : Prop := {
  tr_length : length (GateKey.public_key key) = 32;
  tr_distinct : distinct_keyids (auditor_keys trust key);
  tr_key : GateKey.public_key key ∈ auditor_keys trust key;
}.

Lemma no_bounds es eps : Forall (fun e => (0 <= seq e)%Z) es -> Forall (fun ep => (0 <= ep_first ep)%Z) eps ->
  filter (fun e => between None e = true) es = filter (fun e => between (Some (-1, -1)%Z) e = true) es /\
  filter (fun ep => included None ep = true) eps = filter (fun ep => overlaps (-1) (-1) ep = true) eps /\ whole (-1, -1)%Z eps.
Proof.
  rewrite !Forall_forall. intros He Hep. split_and!.
  - apply filter_ext_in. intros e Hin. specialize (He _ Hin). cbn. rewrite andb_true_iff, !Z.leb_le. split; [done|lia].
  - apply filter_ext_in. intros ep Hin. specialize (Hep _ Hin). rewrite overlaps_true. cbn. split; [done|lia].
  - intros ep Hin Ho%overlaps_true. specialize (Hep _ Hin). cbn in *. lia.
Qed.

(** A pack of the entries and epochs between two bounds that cut no epoch. *)
Lemma exported_verifies key st es hs eps range now trust lo hi
  (es' := filter (fun e => between (Some (lo, hi)) e = true) es) (eps' := filter (fun ep => overlaps lo hi ep = true) eps) :
  kept_by key st es hs -> map stored_head eps = hs -> whole (lo, hi) eps -> trusts trust key ->
  Forall (anchored trust (trusted_keys (auditor_keys trust key)) es) eps ->
  (trust_require_anchors trust = true -> sealed_up_to 0 hs = Z.of_nat (length es)) ->
  fits key range now es' eps' -> (now / NANOS < 8 ^ 11)%Z ->
  exists b r, Ustar.write (signed_files key range now es' eps') (Z.max 0 (now / NANOS)) = Some b /\
    Ustar.read b = Some (Ok (map (fun f => mkTarFile f.1 f.2) (signed_files key range now es' eps'))) /\
    verify_pack b trust = Some r /\ report_ok r = true /\ pack_ok r = true.
Proof.
  intros Hkept Heps Hwhole [Hlen Hd Hin] Hanc Hreq Hfits Hnow. set (trusted := auditor_keys trust key) in *.
  assert (Hp : packable key range now es' eps').
  { apply (chosen_packable key st es hs eps Hkept Heps); [|done]. eapply Forall_impl; [exact Hanc|]. by intros ep []. }
  destruct (pack_reads_back _ _ _ _ _ (Z.max 0 (now / NANOS)) Hp) as (b & Hw & Hr); [lia|].
  destruct (verify_files_exactly (map (fun f => mkTarFile f.1 f.2) (signed_files key range now es' eps')) trust) as (r & Hv & Hok).
  exists b, r. split; [done|]. split; [done|]. unfold verify_pack. rewrite Hr. cbn [mbind option_bind]. split; [done|]. apply Hok.
  destruct (manifests_read key range now es' eps' Hp) as (releases & Hrel & Hreleases).
  destruct (counts_match key range now es' eps' Hp) as (Hc1 & Hc2 & Hc3 & Hc4).
  exists trusted, (sign_manifest key (unsigned_manifest key range now es' eps')), (map entry_value es'), releases, (last_of None eps').
  split_and!; try done.
  - unfold keys_for. rewrite (pack_key_present key range now es' eps' Hp Hlen). unfold trusted, auditor_keys in *.
    case_decide as Hg; [rewrite Hg in *; by eexists|]. destruct (gate_keys trust) as [|k ks]; [done|]. split; [done|]. by intros ? [= <-].
  - apply (json_file_present key range now es' eps'); [done|left|]. apply sign_manifest_plain. by eapply unsigned_plain.
  - by apply pack_manifest_ok.
  - by apply entries_read.
  - intros Hnil. rewrite Hnil in Hin. by apply elem_of_nil in Hin.
  - by apply (chosen_run key st es hs Hkept lo hi).
  - by rewrite length_map.
  - intros l Hl. rewrite (pack_epoch_files _ _ _ _ _ Hp), (Hc4 l Hl), map_map. done.
  - rewrite (pack_epoch_files _ _ _ _ _ Hp). apply (chosen_epochs key st es hs eps Hkept Heps lo hi Hwhole); [done..|].
    intros ep Hep. apply (json_file_present key range now es' eps'); [done| |].
    + do 4 right. apply list_elem_of_fmap. by exists ep.
    + destruct (chosen_heads key st es hs eps Hkept Heps lo hi Hwhole trusted ep Hd Hin Hep) as [Hpl _].
      apply json_object_plain. apply Forall_cons. split; [done|]. apply Forall_cons. split; [|constructor].
      apply plain_array, Forall_fmap. apply list_elem_of_filter in Hep as [_ Hep]. rewrite Forall_forall in Hanc.
      destruct (Hanc _ Hep) as [Hpr _ _]. eapply Forall_impl; [exact Hpr|]. intros rc. apply receipt_value_plain.
  - intros Ht q Hq. apply (chosen_sealed key st es hs eps Hkept Heps lo hi Hwhole); [by apply Hreq|done].
Qed.
End Pack.

(** ** What a gate does to its ledger *)

(** Appends, seals and receipts, at the times of the gate's clock; an
    operation that fails leaves the ledger as it was. *)
Inductive LedgerOp :=
| Append (now : Z) (draft : DecisionDraft)
| Seal (now : Z)
| Anchor (n : Z) (receipts : list ExternalReceipt) (error : option string).

Section History.
Context {ST : SerdeText} {TX : StoreText} {TL : StoreTextLaws} {CK : ClockCrate} {SC : SignatureCrates} {HC : HashCrates} {HL : HashLaws}.

Definition ledger_op (key : SigningKey) (op : LedgerOp) (st : LedgerStore) : option LedgerStore :=
  match op with
  | Append now draft => r ← append_decision now draft key st; Some match r with Ok (_, st') => st' | Err _ => st end
  | Seal now => r ← seal_epoch key now st; Some match r with Ok (_, st') => st' | Err _ => st end
  | Anchor n receipts error => Some match add_epoch_anchors n receipts error st with Ok st' => st' | Err _ => st end
  end.

Fixpoint run_ledger (key : SigningKey) (ops : list LedgerOp) (st : LedgerStore) : option LedgerStore :=
  match ops with
  | [] => Some st
  | op :: ops => st' ← ledger_op key op st; run_ledger key ops st'
  end.

Definition op_ok (op : LedgerOp) : Prop :=
  match op with
  | Append now draft => in_calendar (default now (d_ts draft))
  | Seal now => in_calendar now
  | Anchor n receipts _ => Forall receipt_plain receipts
  end.

Definition appended (op : LedgerOp) : option (Z * DecisionDraft) :=
  match op with Append now draft => Some (now, draft) | _ => None end.

Definition plain_row (row : EpochRow) : Prop :=
  exists l, receipts_from_json (anchors_json row) = Some l /\ Forall receipt_plain l.

Lemma add_receipts_plain l l' : Forall receipt_plain l -> Forall receipt_plain l' -> Forall receipt_plain (add_receipts l l').
Proof.
  intros Hl Hl'. revert l Hl. induction Hl' as [|r l' Hr _ IH]; intros l Hl; [done|]. cbn. destruct (existsb _ l); [by apply IH|].
  apply IH, Forall_app. split; [done|]. by constructor.
Qed.

Lemma receipts_read_back l : Forall receipt_plain l -> receipts_from_json (receipts_to_json l) = Some l.
Proof.
  intros Hl. apply receipts_json_round_trip, forallb_Forall. eapply Forall_impl; [exact Hl|].
  intros [] Hr; [done|]. cbn in *. destruct Hr as [-> ->]. done.
Qed.

(** Receipts change nothing but an epoch's receipts. *)
Lemma add_epoch_anchors_keeps n receipts error st es hs : ledger_ok st es hs -> Forall plain_row (epoch_rows st) ->
  Forall receipt_plain receipts ->
  let st' := match add_epoch_anchors n receipts error st with Ok st' => st' | Err _ => st end in
  ledger_ok st' es hs /\ Forall plain_row (epoch_rows st').
Proof.
  intros Hok Hrows Hrc. unfold add_epoch_anchors. destruct (List.find _ (epoch_rows st)) as [row|] eqn:Hf; [|done].
  apply List.find_some in Hf as [Hin%list_elem_of_In _]. rewrite Forall_forall in Hrows. destruct (Hrows _ Hin) as (l & Hl & Hp).
  rewrite Hl. cbn. pose proof (receipts_read_back _ (add_receipts_plain _ _ Hp Hrc)) as Hback.
  destruct Hok as [H1 H2 H3 H4 H5]. split.
  - constructor; try done. cbn. unfold set_anchors. clear -H4 Hback. induction H4 as [|r h rows hs Hr _ IH]; cbn; constructor; [|done].
    destruct Hr as (R1 & R2 & R3 & R4 & R5). destruct (row_epoch r =? as_i64 n)%Z; [|by split_and!]. split_and!; try done. by eexists.
  - cbn. unfold set_anchors. apply Forall_fmap, Forall_forall. intros r Hr. cbn. destruct (row_epoch r =? as_i64 n)%Z; [|by apply Hrows].
    eexists. split; [exact Hback|]. by apply add_receipts_plain.
Qed.

Lemma ledger_op_keeps key op st es hs : kept_by key st es hs -> Forall plain_row (epoch_rows st) -> op_ok op ->
  (Z.of_nat (length es) <= I64_MAX)%Z ->
  exists st' es' hs', ledger_op key op st = Some st' /\ kept_by key st' (es ++ es') hs' /\ Forall plain_row (epoch_rows st') /\
    Forall2 (made_from key) (option_list (appended op)) es'.
Proof.
  intros [Hok Hes Hhs] Hrows Hop Hroom. destruct op as [now draft|now|n receipts error]; cbn [ledger_op appended option_list] in *.
  - destruct (append_decision_step now draft key st es hs Hok Hroom) as [-> Hok']. cbn [mbind option_bind].
    eexists _, [_], hs. split; [reflexivity|]. split; [|split; [done|]].
    + constructor; [exact Hok'| |done]. apply Forall_app. split; [done|]. constructor; [|constructor]. split.
      * apply (made_signed key (now, draft)). by exists (Z.of_nat (length es)), (default Decisions.GENESIS (Decisions.entry_hash <$> last es)).
      * eexists. split; [exact Hop|done].
    + constructor; [|constructor]. by do 2 eexists.
  - destruct (seal_epoch_step key now st es hs Hok) as [Hnone Hsome].
    pose proof (sealed_bounds _ _ _ _ _ (ok_epochs _ _ _ Hok) ltac:(lia)) as [Hb _].
    destruct (decide (sealed_up_to 0 hs < Z.of_nat (length es))%Z) as [Hlt|Hge].
    + destruct (Hsome Hlt) as [-> Hok']. cbn [mbind option_bind]. eexists _, [], _. rewrite app_nil_r. split; [reflexivity|].
      split; [|split; [|constructor]].
      * constructor; [exact Hok'|done|]. apply Forall_app. split; [done|]. constructor; [|constructor].
        split_and!; [done|done|by unfold sealed_head; rewrite epoch_head_hash|by eexists].
      * cbn. apply Forall_app. split; [done|]. constructor; [|constructor]. exists []. split; [apply receipts_json_empty|constructor].
    + rewrite Hnone by lia. cbn. exists st, [], hs. rewrite app_nil_r. split_and!; [done|by constructor|done|constructor].
  - destruct (add_epoch_anchors_keeps n receipts error st es hs Hok Hrows Hop) as [Hok' Hrows'].
    eexists _, [], hs. rewrite app_nil_r. split; [reflexivity|]. split_and!; [by constructor|done|constructor].
Qed.

Lemma run_ledger_keeps key ops st es hs : kept_by key st es hs -> Forall plain_row (epoch_rows st) -> Forall op_ok ops ->
  (Z.of_nat (length es + length ops) <= I64_MAX + 1)%Z ->
  exists st' es' hs', run_ledger key ops st = Some st' /\ kept_by key st' (es ++ es') hs' /\ Forall plain_row (epoch_rows st') /\
    Forall2 (made_from key) (omap appended ops) es'.
Proof.
  revert st es hs. induction ops as [|op ops IH]; intros st es hs Hk Hrows Hops Hb.
  - exists st, [], hs. rewrite app_nil_r. split_and!; [done..|constructor].
  - apply Forall_cons in Hops as [Hop Hops]. simpl in Hb.
    destruct (ledger_op_keeps key op st es hs Hk Hrows Hop) as (st1 & es1 & hs1 & H1 & Hk1 & Hr1 & Hm1); [lia|].
    pose proof (Forall2_length _ _ _ Hm1) as Hl. assert (Hl1 : length es1 <= 1) by (rewrite <- Hl; by destruct (appended op); cbn; lia).
    destruct (IH st1 (es ++ es1) hs1 Hk1 Hr1 Hops) as (st' & es' & hs' & H2 & Hk2 & Hr2 & Hm2); [rewrite length_app; lia|].
    exists st', (es1 ++ es'), hs'. cbn [run_ledger]. rewrite H1. cbn [mbind option_bind]. rewrite app_assoc. split_and!; try done.
    cbn [omap list_omap]. destruct (appended op) as [x|]; cbn in *.
    + apply Forall2_cons_inv_l in Hm1 as (e & ? & He & Hnil & ->). apply Forall2_nil_inv_l in Hnil as ->. by constructor.
    + by apply Forall2_nil_inv_l in Hm1 as ->.
Qed.

Lemma new_ledger_kept key : kept_by key (mkLedgerStore [] []) [] [].
Proof. constructor; [constructor; simpl; done || constructor|constructor..]. Qed.
End History.

(** C27: whatever a gate does to a new ledger, appending, sealing and adding
    receipts in any order, no operation panics, and the ledger stays one kept
    by the gate: a signed chain of exactly the drafts appended, in order,
    under signed epochs without gap or overlap. *)
Theorem gate_keeps_ledger {ST : SerdeText} {TX : StoreText} {TL : StoreTextLaws} {CK : ClockCrate} {SC : SignatureCrates}
  {HC : HashCrates} {HL : HashLaws} (key : SigningKey) (ops : list LedgerOp) (Hops : Forall op_ok ops)
  (room : (Z.of_nat (length ops) <= I64_MAX + 1)%Z) :
  exists st es hs, run_ledger key ops (mkLedgerStore [] []) = Some st /\ kept_by key st es hs /\
    Forall2 (made_from key) (omap appended ops) es.
Proof.
  destruct (run_ledger_keeps key ops (mkLedgerStore [] []) [] []) as (st & es & hs & Hr & Hk & _ & Hm); [apply new_ledger_kept|constructor|done..|].
  by exists st, es, hs.
Qed.

(** C10: what the gate exports is what was asked for, and the auditor accepts
    it: for a ledger kept by a gate, whose receipts verify for the auditor no
    earlier than what they cover, and any time range, the export fails only
    when the range is bounded and no entry of the ledger has its time in it.
    Otherwise it answers a pack whose tar reads back as the signed files of
    exactly these entries, in order: those between the first and the last
    entry whose time is in the range, and those of every epoch that holds
    one of them, with exactly these epochs; and the offline verifier finds no failure and no gap in
    it and its manifest signed, under the gate's own key or pinned keys that
    hold it. *)
Theorem exported_pack_verifies {ST : SerdeText} {TX : StoreText} {TL : StoreTextLaws} {CK : ClockCrate} {TC : TimeCrate} {KL : ClockLaws}
  {SC : SignatureCrates} {SCL : SignatureLaws} {HC : HashCrates} {HL : HashLaws} {JC : JsonCrates} {PP : PrettyCrate} {PL : PrettyLaws}
  {VC : VerifierCrate} {VL : VerifierLaws} {S5 : Sha512Crate} {PC : P256Crate} {DC : DerCrates} {TV : TsaVerifier}
  (key : SigningKey) (st : LedgerStore) (es : list DecisionEntry) (hs : list EpochHead) (range : PackRange) (now : Z) (trust : PackTrust)
  (kept : kept_by key st es hs) (trusted : trusts trust key) (clock : (now / NANOS < 8 ^ 11)%Z)
  (anchors_hold : forall eps, epochs st = Ok eps -> Forall (anchored trust (trusted_keys (auditor_keys trust key)) es) eps)
  (all_sealed : trust_require_anchors trust = true -> sealed_up_to 0 hs = Z.of_nat (length es))
  (small : forall es' eps', chosen st range = Ok (es', eps') -> fits key range now es' eps') :
  export_pack st key range now = Some (Err Empty) /\ bounded range /\ Forall (fun e => ~ wanted range e) es \/
  exists pack r eps es' eps', export_pack st key range now = Some (Ok pack) /\
    (bounded range -> exists e, e ∈ es /\ wanted range e) /\ epochs st = Ok eps /\
    es' `sublist_of` es /\ (forall e, e ∈ es' <-> e ∈ es /\ asked_entry range es eps e) /\
    eps' `sublist_of` eps /\ (forall ep, ep ∈ eps' <-> ep ∈ eps /\ asked_epoch range es ep) /\
    Ustar.read (tar pack) = Some (Ok (map (fun f => mkTarFile f.1 f.2) (signed_files key range now es' eps'))) /\
    entries pack = length es' /\ pack_epochs pack = map (fun ep => epoch (stored_head ep)) eps' /\
    verify_pack (tar pack) trust = Some r /\ report_ok r = true /\ pack_ok r = true.
Proof.
  destruct (chosen_spec key st es hs range kept) as (eps & Heps & Hmap & [[He Hr]|(b & Hc & Hbd & Hent & Hepo & Hw)]); [left; unfold export_pack; by rewrite He|].
  right. specialize (anchors_hold _ Heps). specialize (small _ _ Hc). pose proof kept as [[_ Hch _ _ Hs] _ _].
  destruct (no_bounds es eps) as (Hn1 & Hn2 & Hn3).
  { apply chained_bounds in Hch. eapply Forall_impl; [exact Hch|]. cbn. lia. }
  { apply sealed_bounds in Hs as [_ Hs]; [|lia]. rewrite <- Hmap in Hs. apply Forall_fmap in Hs. eapply Forall_impl; [exact Hs|].
    unfold ep_first. cbn. lia. }
  assert (Hb : exists lo hi, filter (fun e => between b e = true) es = filter (fun e => between (Some (lo, hi)) e = true) es /\
    filter (fun ep => included b ep = true) eps = filter (fun ep => overlaps lo hi ep = true) eps /\ whole (lo, hi) eps).
  { destruct b as [[lo hi]|]; [by exists lo, hi|]. by exists (-1)%Z, (-1)%Z. }
  destruct Hb as (lo & hi & Hf1 & Hf2 & Hwhole). rewrite Hf1, Hf2 in small.
  destruct (exported_verifies key st es hs eps range now trust lo hi kept Hmap Hwhole trusted anchors_hold all_sealed small clock)
    as (tar & r & Hwr & Hrd & Hv & Hok).
  rewrite <- Hf1, <- Hf2 in Hwr, Hrd. eexists _, r, eps, _, _. unfold export_pack. rewrite Hc, Hwr. split; [reflexivity|].
  split; [done|]. split; [done|]. split; [apply (sublist_filter (fun e => between b e = true))|]. split; [intros e; rewrite list_elem_of_filter, Hent; tauto|].
  split; [apply (sublist_filter (fun ep => included b ep = true))|]. split; [intros ep; rewrite list_elem_of_filter; specialize (Hepo ep); tauto|].
  split; [exact Hrd|]. split; [reflexivity|]. split; [reflexivity|]. by split.
Qed.

(** *** Concrete instances *)

Section Witnesses.
Import Toy ToySerde ToyVerify.
#[local] Existing Instances toy_store_text toy_store_text_laws.

(** Entries as their texts between braces, other values as [P] and their
    bits. *)
Definition entry_texts (e : DecisionEntry) : Z * bool * list (option string) :=
  (seq e, forwarded e,
   [Some (kind e); Some (ts e); Some (event_text (event e)); release e; tool e; args_fingerprint e; Some (decision_text (decision e));
    Some (reason e); path e; policy_version e; policy_digest e; mode_text <$> mode e; task_id e; operation_id e; approval e;
    outcome_text <$> outcome e; tools_lock e; Some (signer e); Some (prev_hash e); Some (Decisions.entry_hash e); Some (sig e)]).
Definition entry_of_texts (x : Z * bool * list (option string)) : option DecisionEntry :=
  match x with
  | (seq, forwarded, [Some kind; Some ts; Some ev; release; tool; args; Some d; Some reason; path; pv; pd; mode; task; op; appr; out; lock;
                      Some signer; Some prev; Some hash; Some sig]) =>
      Some (mkDecisionEntry kind seq ts (event_of ev) release tool args (decision_of d) reason path pv pd (mode_of <$> mode) task op appr
              (outcome_of <$> out) forwarded lock signer prev hash sig)
  | _ => None
  end.
#[local] Instance pack_store_text : StoreText := {|
  entry_to_json e := "{" +:+ bits (encode (entry_texts e)) +:+ "}";
  entry_from_json s := s ← strip_prefix "{" s; s ← strip_suffix "}" s; x ← decode (unbits s); entry_of_texts x;
  head_to_json := head_to_json (StoreText := toy_store_text);
  head_from_json := head_from_json (StoreText := toy_store_text);
  receipts_to_json := receipts_to_json (StoreText := toy_store_text);
  receipts_from_json := receipts_from_json (StoreText := toy_store_text);
|}.
#[local] Instance pack_json : JsonCrates := {|
  json_number _ := None;
  json_from_slice b :=
    match strip_prefix "P" (from_bytes b) with
    | Some s => s ← strip_suffix NL s; value_of <$> decode (unbits s)
    | None => if decide (b = as_bytes "null") then Some VNull else entry_value <$> entry_from_json (StoreText := pack_store_text) (from_bytes b)
    end;
  json_no_duplicates _ := true;
  jcs _ := "";
  number_to_string _ := "";
|}.
#[local] Instance pack_pretty : PrettyCrate := {| to_vec_pretty v := as_bytes ("P" +:+ value_text v) |}.
#[local] Instance pack_clock : ClockCrate := {| to_rfc3339_secs t := rfc3339_from_unix (t / NANOS) |}.
#[local] Instance pack_time : TimeCrate := {| parse_from_rfc3339 s := (fun t => t * NANOS)%Z <$> parse_rfc3339_secs s |}.

Lemma bits_plain p : Forall (fun c => (32 <= byte_val c < 128)%Z) (as_bytes (bits p)).
Proof. induction p; cbn; constructor; done. Qed.

Lemma strip_suffix_app a b : strip_suffix b (a +:+ b) = Some a.
Proof.
  unfold strip_suffix. rewrite as_bytes_app, reverse_app, bytes_strip_app. cbn. by rewrite reverse_involutive, from_as_bytes.
Qed.

#[local] Instance pack_store_laws : StoreTextLaws.
Proof.
  constructor; [|apply (@head_json_round_trip _ toy_store_text_laws)|apply (@receipts_json_round_trip _ toy_store_text_laws)|apply (@receipts_json_empty _ toy_store_text_laws)].
  intros e He. unfold entry_from_json, entry_to_json, pack_store_text. rewrite strip_prefix_app. cbn [mbind option_bind].
  rewrite strip_suffix_app. cbn [mbind option_bind]. rewrite unbits_bits, decode_encode. destruct e as [kind seq ts ev].
  by destruct ev, decision, mode as [[]|], outcome as [[]|].
Qed.

#[local] Instance pack_laws : PrettyLaws.
Proof.
  assert (Hbits : forall e, exists p, entry_to_json e = "{" +:+ bits p +:+ "}") by (intros e; by eexists).
  constructor.
  - constructor. intros v _ _. unfold json_from_slice, pack_json, to_vec_pretty, pack_pretty. rewrite from_bytes_app, !from_as_bytes.
    change (("P" +:+ value_text v) +:+ NL) with ("P" +:+ (value_text v +:+ NL)). rewrite strip_prefix_app, strip_suffix_app.
    cbn [mbind option_bind]. unfold value_text. by rewrite unbits_bits, decode_encode; cbn; rewrite value_of_tree.
  - intros e He. unfold json_from_slice, pack_json. rewrite from_as_bytes.
    assert (Hp : strip_prefix "P" (entry_to_json e) = None) by done. rewrite Hp, decide_False by done.
    by rewrite (@entry_json_round_trip _ pack_store_laws).
  - intros e. destruct (Hbits e) as [p ->]. exists (bits p). split; [done|]. eapply Forall_impl; [apply bits_plain|]. cbn. lia.
  - intros e. destruct (Hbits e) as [p ->]. apply valid_ascii. rewrite !as_bytes_app, !Forall_app. split_and!; [by repeat constructor| |by repeat constructor].
    eapply Forall_impl; [apply bits_plain|]. cbn. lia.
Qed.
#[local] Instance pack_clock_laws : ClockLaws.
Proof.
  constructor; [done|]. intros t Ht. unfold parse_from_rfc3339, pack_time, to_rfc3339_secs, pack_clock.
  by rewrite (rfc3339_round_trip (t / NANOS) Ht).
Qed.
#[local] Instance no_der : DerCrates := {| pem_decode _ := None; spki_from_der _ := None; spki_to_der _ := None |}.

(** An authority that stamps everything at second 100. *)
#[local] Instance pack_tsa : TsaVerifier := {| TrustedRoots := unit; verify_timestamp_response _ _ _ _ := Some 100%Z |}.

Definition e0 : DecisionEntry := signed_link 0 draft_call 0 Decisions.GENESIS Decisions.gate_key.
Definition h0 : EpochHead := sealed_head Decisions.gate_key 0 [e0] [].
Definition stamp : ExternalReceipt := Rfc3161 "epoch-0" (hex_encode (sha256 (artifact h0))) "https://tsa.example" "" "".
Definition e1 : DecisionEntry := signed_link 0 draft_call 1 (Decisions.entry_hash e0) Decisions.gate_key.
Definition row0 : EpochRow := mkEpochRow 0 0 0 (head_to_json h0) (receipts_to_json [stamp]) None.
Definition sample_ledger : LedgerStore := mkLedgerStore [row_of e0; row_of e1] [row0].
Definition auditor : PackTrust := mkPackTrust [] (Some tt) None 60 false.
Definition no_range : PackRange := mkPackRange None None.
Definition ep0 : StoredEpoch := mkStoredEpoch h0 [stamp] None.
Definition sample_files := signed_files Decisions.gate_key no_range 0 [e0; e1] [ep0].

Lemma sample_kept : kept_by Decisions.gate_key sample_ledger [e0; e1] [h0].
Proof.
  destruct (append_decision_step 0 draft_call Decisions.gate_key _ [] [] (kept_ok _ _ _ _ (new_ledger_kept Decisions.gate_key))) as [_ H1];
    [by apply Z.leb_le|].
  destruct (seal_epoch_step Decisions.gate_key 0 _ [e0] [] H1) as [_ H2]. destruct H2 as [_ H2]; [by apply Z.ltb_lt|].
  destruct (append_decision_step 0 draft_call Decisions.gate_key _ [e0] [h0] H2) as [_ H3]; [by apply Z.leb_le|].
  destruct H3 as [R1 R2 R3 _ R5]. assert (Hcal : in_calendar 0) by by apply (bool_decide_unpack _).
  constructor.
  - constructor; [exact R1|exact R2|exact R3| |exact R5]. constructor; [|constructor]. split; [reflexivity|]. split; [reflexivity|]. split; [reflexivity|]. split; [reflexivity|].
    exists [stamp]. apply receipts_read_back. by repeat constructor.
  - assert (Hm : forall n prev, made_by Decisions.gate_key (signed_link 0 draft_call n prev Decisions.gate_key)).
    { intros n prev. split; [apply (made_signed Decisions.gate_key (0%Z, draft_call)); exists n, prev; reflexivity|].
      exists 0%Z. split; [exact Hcal|reflexivity]. }
    constructor; [apply Hm|constructor; [apply Hm|constructor]].
  - constructor; [|constructor]. split; [reflexivity|]. split; [reflexivity|]. split; [|exists 0%Z; split; [exact Hcal|reflexivity]].
    unfold h0, sealed_head. rewrite epoch_head_hash. reflexivity.
Qed.

Lemma sample_chosen : epochs sample_ledger = Ok [ep0] /\ chosen sample_ledger no_range = Ok ([e0; e1], [ep0]).
Proof. split; vm_compute; reflexivity. Qed.

Lemma exported_pack_verifies_witness :
  exists pack r, export_pack sample_ledger Decisions.gate_key no_range 0 = Some (Ok pack) /\ verify_pack (tar pack) auditor = Some r /\
    report_ok r = true /\ pack_ok r = true.
Proof.
  destruct (exported_pack_verifies Decisions.gate_key sample_ledger [e0; e1] [h0] no_range 0 auditor sample_kept)
    as [(_ & [[x Hx]|[x Hx]] & _)|(pack & r & eps & es' & eps' & He & _ & _ & _ & _ & _ & _ & _ & _ & _ & Hv & Hok)];
    [..|discriminate Hx|discriminate Hx|exact (ex_intro _ pack (ex_intro _ r (conj He (conj Hv Hok))))].
  - constructor; [done|by intros a b ->%list_elem_of_singleton ->%list_elem_of_singleton|by left].
  - done.
  - intros eps. rewrite (proj1 sample_chosen). intros [= <-]. constructor; [|constructor]. constructor; [by repeat constructor|done|].
    constructor; [|constructor]. exists 100%Z. split_and!.
    + split_and!; [vm_compute; reflexivity|vm_compute; reflexivity|]. left. split; [done|]. by exists tt, [], [].
    + apply (bool_decide_unpack _). vm_compute. exact I.
    + intros e He _. apply (bool_decide_unpack _). rewrite !elem_of_cons in He.
      destruct He as [->|[->|He]]; [vm_compute; exact I|vm_compute; exact I|by apply elem_of_nil in He].
  - done.
  - intros es' eps'. rewrite (proj2 sample_chosen). intros [= <- <-]. split; apply (bool_decide_unpack _); vm_compute; exact I.
Defined.

Lemma gate_keeps_ledger_witness :
  let ops := [Append 0 draft_call; Seal 0; Anchor 0 [stamp] None; Append 0 draft_call] in
  exists st es hs, run_ledger Decisions.gate_key ops (mkLedgerStore [] []) = Some st /\ kept_by Decisions.gate_key st es hs /\
    Forall2 (made_from Decisions.gate_key) (omap appended ops) es.
Proof.
  apply (gate_keeps_ledger Decisions.gate_key [Append 0 draft_call; Seal 0; Anchor 0 [stamp] None; Append 0 draft_call]); [|done].
  assert (Hcal : in_calendar 0) by by apply (bool_decide_unpack _). repeat constructor; apply Hcal.
Defined.

(** A manifest that is JSON but no object is not checked: its signature, the
    digests and the count of entries are passed over and nothing fails.  Of
    the sample the last entry and the epoch are gone. *)
Definition unsigned_files : list (string * bytes) :=
  [("pack.json", as_bytes "null"); ("entries.jsonl", entries_text [e0]); ("gate.pub.json", pretty_file (gate_value Decisions.gate_key));
   ("manifests.json", pretty_file (manifests_value [e0]))].
Definition pinned_auditor : PackTrust := mkPackTrust [GateKey.public_key Decisions.gate_key] (Some tt) None 60 false.

Theorem unsigned_pack_accepted :
  exists b r, Ustar.write unsigned_files 0 = Some b /\ verify_pack b pinned_auditor = Some r /\
    report_ok r = true /\ pack_ok r = false /\ pinned r = true /\ r_entries r = 1.
Proof.
  assert (Hall : match (b ← Ustar.write unsigned_files 0; verify_pack b pinned_auditor) with
    | Some r => report_ok r && negb (pack_ok r) && pinned r && (r_entries r =? 1)%nat | None => false end = true) by (vm_compute; reflexivity).
  destruct (Ustar.write unsigned_files 0) as [b|]; [|done]. cbn [mbind option_bind] in Hall. exists b.
  destruct (verify_pack b pinned_auditor) as [r|]; [|done]. exists r. rewrite !andb_true_iff, negb_true_iff, Nat.eqb_eq in Hall. tauto.
Qed.
End Witnesses.
